(* ===== verification/_CoqProject ===== *)
-Q . S2P
Prelude.v
StdHeap.v
ByteBuffer.v
BufferIface.v
IoLoop.v
IoLoopFacts.v
IoLoopProps.v
LoopHazards.v
Timers.v
RunProps.v
AsyncQueue.v
Task.v
Promise.v
Socket.v
Zio.v
Awaiters.v
NioAwaiter.v
NioProps.v
ZioProps.v
RequestProps.v
Request2Props.v
EchoServer.v
PoolClient.v
PingPong.v
Client.v
Server.v
ServerConn.v
ServerTable.v
ServerProps.v
ServerLive.v
Sleepers.v
Aio.v
AioProps.v
AioInvariant.v
Fio.v
Disk.v
IoContext.v
Spawn.v
InetAddress.v
ZioConnect.v
Clock.v
