(* ===== verification/Prelude.v ===== *)
(** * nsio: a verification of the coroutine I/O library

    ** The program

    [nsio] is a small C++20 library: an epoll event loop per thread
    ([src/coio/io_loop.h]), coroutines on top of it ([task.h], [io_awaiter.h],
    [nio_awaiter.h] and [.cpp]), pooled aligned buffers ([byte_buffer.h] and
    [.cpp]), a thread wrapper ([io_context.h] and [.cpp]), Linux AIO ([fd_aio],
    [fio_awaiter]) and helpers ([src/common/zio.h], [clock.h], [log.h],
    [stop_signal.h]).  A coroutine that awaits [recv_request], say, creates an
    awaiter in its frame; the awaiter's constructor registers it with the loop
    (descriptor table and, with a timeout, timer heap); the loop's [run] calls
    [on_file_event] or [on_time_event] of the registered object, which moves bytes
    between the socket and a buffer of the pool and finally resumes the coroutine;
    the awaiter's destructor takes its timer back.  Other threads reach a loop
    through its queue of posted functions only.

    ** The files

    - [Prelude]: faults and the error monad [res], machine integers, byte order,
      arrays as lists, arithmetic of rounding and bit fields, tactics.
    - [StdHeap]: [std::push_heap], [pop_heap], [make_heap] as an interface
      ([StdHeap]) and libstdc++'s algorithms as an instance of it.
    - [ByteBuffer]: [byte_buffer.cpp].  [byte_buffer_data], [byte_buffer_impl] and
      [buffer_pool] are records of the source's members; [malloc], [release], the
      destructors and the accessors one definition each.  The C heap is the class
      [Allocator], the hash map's lookup [MultimapFind].
    - [BufferIface]: the abstract classes of [byte_buffer.h] with their laws, the
      instances, and the layout of a request buffer proved against them.
    - [IoLoop], [IoLoopFacts], [IoLoopProps], [LoopHazards]: [io_loop.h].
      [io_loop] is the record of the loop's members; [wait_fd], [cancel_ev],
      [delay_call], [cancel_delay], [dispatch_event], [run_timers], [run_turn] and
      [run] follow the functions and the parts of [run].  The kernel is the class
      [Epoll], a virtual call of a callback the class [Callbacks], so that the
      theorems hold for any user code.  The storage of the vector [_fds] is
      visible (capacity, and an epoch that grows when it moves) because the code
      keeps references into it across calls.
    - [Timers]: theorems on the timer heap.
    - [AsyncQueue]: posting functions from other threads ([async], [async_return],
      [async_call], [async_call_return] and [io_loop::on_file_event]) as a step
      relation over the locked sections and the eventfd calls.
    - [Task]: [task.h], coroutine frames and the task objects that own them.
    - [Promise]: the promise classes of [task.h] with their unions, reference-counted
      exceptions and object lifetimes, as an implementation of [Task]'s results.
    - [Socket]: the byte stream of a socket whose calls return ([Socket] with its
      laws), scripted sockets as an executable instance, and sockets that block
      ([blocking]), for which the laws do not hold.
    - [NioAwaiter], [NioProps]: the data paths of [recv_lazy], [send_lazy],
      [recv_request] and [recv_request2] in [nio_awaiter.cpp].
    - [RequestProps], [Request2Props]: the framed requests the two readers
      receive.
    - [Awaiters]: registration, completion, time-out and destruction of awaiters
      ([io_awaiter.h], the constructors and [on_time_event]s of
      [nio_awaiter.cpp], [connect], [accept]).
    - [RunProps]: the whole of [io_loop::run], turn by turn, for callbacks that
      keep to the interface [GoodCallbacks].
    - [Aio], [AioProps]: [fd_aio.cpp].  [io_aio_impl] is the record of its
      members; [submit] and [fetch_events] call each other through the callbacks,
      and do so here ([code] is what a resumed coroutine submits).  The kernel's
      AIO context is the class [AioKernel].
    - [AioInvariant]: what a client of [Aio] has to show about one resumption
      ([AioInvariant]) and that it then holds through the nested calls.
    - [Fio]: the requests of [io_aio_impl::aio_read] and [aio_write],
      [io_context::aio_read] and [aio_write], and the awaiters of [fio_awaiter.h].
    - [IoContext]: [_run] and [run_local] of [io_context.cpp], the scope guards,
      and the life cycle of the worker thread ([run_worker], [thread_func],
      [stop], destruction) as a step relation between owner and worker.
    - [Spawn]: the context's members and constructor, and [co_spawn].
    - [InetAddress]: [inet_address.h] and [.cpp]; the union is one record.
    - [Zio], [ZioProps], [ZioConnect]: the helpers of [zio.h].
    - [Clock]: [clock.h], [log.h] and [stop_signal.h], a module each.
    - [EchoServer]: the coroutine [tcp_echo] of [test/pp-request-serv.cpp], a
      client of the awaiters and of the pool, for given readiness events.
    - [PoolClient]: coroutines that hold buffers of one pool.
    - [PingPong]: [tcp_echo1] and [tcp_echo2] of [test/pp-serv.cpp] and [send_recv] of
      the two clients, each with the events its waits get.
    - [Client]: [tcp_client] of the two clients, with its registrations on the loop.
    - [Server], [ServerConn], [ServerTable], [ServerProps], [ServerLive]: the same
      program on the loop.  [server] is the state behind the callbacks (heap, pool,
      connections, answers of [::accept]); [server_file_event] is the [on_file_event] of the three
      kinds of awaiter, which resumes [tcp_echo] or [tcp_server] up to its next
      [co_await].  [ServerConn] has the invariant of one connection, [ServerTable] an
      abstract view of the descriptor table for one awaiter per descriptor,
      [ServerProps] the invariant of the whole and the runs, [ServerLive] a measure
      of what a connection has ahead and the progress of the runs.
    - [Sleepers]: the coroutines of [test/test-timer.cpp] on the loop.
    - [Disk]: [write_disk] of [test/test-diskw.cpp].  [disk] is the state behind the
      AIO callbacks (heap, pool, suspended writers, [force_quit]); [write_next] and
      [write_resume] take a writer from one [co_await] to the next.

    ** What the theorems show

    - Buffers: every request in range is served with the alignment and sizes the
      interface promises; every sequence of pool operations is free of invalid and
      double frees, accounts for every block and leaks nothing; kept blocks are
      found again; any implementation of the interface gives requests their layout
      (a lemma about the interface, [request_layout]).
      ([malloc_contract], [pool_run_safe], [pool_destroy_no_leak],
      [malloc_reuses_released])
    - Loop: the table operations refine maps from (descriptor, direction) to
      callback and from descriptor to watched mask; from the constructor on, the
      kernel's interest list is what the table says, so no waiter is lost;
      a run of the loop is free of assertion failures, stale references and
      endless timer loops for callbacks that do not unregister descriptors or grow
      the table.  ([wait_fd_refines], [cancel_ev_refines], [waiters_registered],
      [dispatch_all_safe], [run_safe])
    - Timers: unique ids, exact cancellation, bounded waits, due timers fired in
      order of time and none lost; spawned coroutines that sleep are started and woken
      once, and a sleep of no time does not end.  ([delay_call_spec],
      [cancel_delay_spec], [wait_timeout_bounds], [run_timers_spec], [sleepers_wake])
    - Posted functions: exactly once and in order, no lost wake-up, and progress.
      ([async_exactly_once], [async_no_lost_wakeup], [async_all_run])
    - Awaiters: bytes are delivered once, in order and inside the buffer, whatever
      way the kernel cuts the stream; a frame is reassembled exactly, at the
      alignment its header asks for, and what follows it stays on the stream; on a
      connection without hard errors reception ends; the two readers agree but for two
      corner cases; no
      pointer to a finished awaiter stays in the loop.  ([recv_lazy_delivers],
      [recv_lazy_completes], [send_lazy_delivers], [recv_request_frame],
      [recv_request_roundtrip], [recv_request2_frame], [request_readers_agree],
      [recv_awaiter_no_dangling], [connect_awaiter_no_dangling],
      [accept_drains_backlog])
    - Tasks: frames are destroyed exactly once, results reach the awaiting
      coroutine, spawned tasks are started once and in order and free themselves;
      the promises implement this view and release what they hold.
      ([frames_destroyed_once], [task_await_result], [promise_refines],
      [co_spawn_all_started])
    - AIO: every accepted request is completed exactly once, submission and
      fetching end on a working kernel, a block read is submitted into memory it
      fits.  ([aio_exactly_once], [aio_progress], [aio_read_block_request])
    - Context: the owner's waits for the worker end, [epoll_wait]'s time included,
      unless a callback hangs; [_run] leaves no reference to the AIO object.
      ([owner_waits_end], [run_deregisters_aio])
    - Request server: a run of the loop with the awaiters as its callbacks meets no
      fault, serves every open connection in the direction it waits for, and accounts
      for every byte, connection and block; a live connection whose events are
      reported gets every request back.  ([server_run_safe], [server_answers])
    - Echo coroutine: it answers every frame on a working connection, and on any
      connection meets no fault and leaks no buffer.  ([tcp_echo_answers],
      [tcp_echo_echoes])
    - Ping-pong: client and server, each fed with what the other one sends, complete
      all rounds; a client takes back its registrations and closes its socket however
      it ends.  ([ping_pong], [tcp_client_cleans_up])
    - Disk writers: every writer has one request in flight into memory it owns, no
      buffer and no descriptor is lost, and [force_quit] ends them all.
      ([writers_safe], [writers_drain])
    - Helpers: [writev] and [readv] move the whole buffer and terminate,
      [listen_on] leaks no descriptor; addresses survive the way through text and
      the sockets interface; intervals of the clock add up; a log line that fits is
      printed whole.  ([inet_eq_endpoint], [text_roundtrip], [sockaddr_roundtrip],
      [resolve_last], [pins_add_up], [log_line])
    - Where the code does not do what it should, a theorem says what it does: the
      cache limit is applied the wrong way round
      ([release_keeps_only_over_limit]), cache keys collide
      ([malloc_key_collision]), a header is trusted
      ([recv_request_trusts_header], [echo2_trusts_length]), stale events meet an assertion
      ([stale_event_asserts]), the table may move under a reference
      ([grown_table_dangles]), far timers make the loop spin
      ([far_timer_spins]), [send_lazy] leaves a timer behind
      ([send_awaiter_dangles]), [accept] does not return while it fails
      ([accept_error_spins]), stores through a reference into a table that has moved
      ([accept_table_moves]) or into a destroyed awaiter ([accept_hard_error]), an
      exception is stored over memory that was never set ([garbage_released]), some
      detached tasks are never freed
      ([detached_task_leaks]), [setblocking] works one way only
      ([setblocking_one_way]), a stale AIO wake-up blocks the loop
      ([aio_stale_wakeup_blocks]), a failed AIO set-up makes submission spin
      ([aio_setup_failure_spins]), reads of 4 GiB overrun
      ([aio_read_count_overruns]), the disk writers run without AIO
      ([writers_need_aio]), a client without a socket indexes the table with -1
      ([tcp_client_without_socket]), a peer that stalls blocks the server and one that
      closes early kills it ([partial_frame_blocks]), memory that runs out is not
      noticed ([out_of_memory_faults]), a stopped context cannot be run again
      ([stopped_context_stays_stopped]), long log lines are over-read
      ([log_long_line_overreads]), long socket paths overflow
      ([connect_domain_bounds]).

    ** Conventions

    An [int] or [uint32_t] is a [Z]; conversions and unsigned arithmetic wrap
    where the source's types do ([u16], [u32], [u64], [i32]), and signed overflow
    is a fault.  Undefined behaviour and failed assertions are faults of [res];
    [ndebug] says whether assertions are compiled in.  Loops whose number of
    passes depends on the kernel take fuel; the handlers give them
    [S (pending s)] (receiving: every pass but the last consumes data or an
    interruption) or [S (length + pending s)] (sending), and the theorems prove
    that this is enough: the results they state are [Ok].  The loops of [Zio] take
    their fuel from the caller, and the theorems give the bound.  [pending] is a
    measure of the socket interface that bounds the interruptions and pieces of
    data ahead.  The timer loop needs one unit per pending timer and per timer the
    callbacks may still start ([timers_left]).  The AIO loops need twice the work
    left and two ([work]: completions and interruptions ahead and requests the
    callbacks may still submit).

    ** Conditions

    What the code takes for granted and does not check is a hypothesis of the
    theorems that need it: [memory_suffices] ([aligned_alloc] does not return null),
    [ctl_serves] ([epoll_ctl] takes its orders), the laws [recv_returns] and
    [send_returns] of [SocketLaws] (no call on a socket blocks for ever or raises
    [SIGPIPE]; the sockets of [::accept] are blocking, so this is a condition on the
    peers), [time_ok] (due times fit [int64_t] nanoseconds), [AioLive] (the AIO calls
    fail with [EAGAIN] or [EINTR] only), [well_framed] (the peers speak the protocol),
    [GoodCallbacks] and [TimersUntouched] (what callbacks leave alone).  Each has an
    instance in the witnesses, and for most a theorem says what happens otherwise.

    ** Not modelled

    The kernel, the C and C++ libraries and the CMake files are outside: what the
    code uses of them are the parameters named above.  Not modelled are the text
    of error messages, [log_nt] (it calls a function that does not exist), the
    address string of [zio::accept], the code between [#if 0] lines, and the
    [main] functions and statistics of [test/]: they print, sleep and start what
    is modelled.  In [EchoServer], [PingPong]
    and [Client] the readiness events of the waits are given; [Server], [Sleepers]
    and [Disk] derive them from the loop and the AIO object. *)

From stdpp Require Export base list numbers gmap sorting.
From Stdlib Require Export ZArith Lia.

#[global] Open Scope Z_scope.

(** ** Faults

    The C++ code has outcomes that are not values: a failed [assert], an
    access outside an allocation, a use of a reference into a reallocated
    vector, a shift by more than the width, a signed overflow, a system call
    that never returns ([Blocked]), a signal that ends the process ([Killed]), a
    resumption of a coroutine that is not suspended ([NotSuspended]).  Every
    operation that can meet one returns [res]; [OutOfFuel] only marks a loop
    that was given too small a bound. *)

Inductive fault :=
  | AssertFail
  | OutOfBounds
  | DanglingRef
  | NullDeref
  | InvalidFree
  | ShiftRange
  | SignedOverflow
  | Blocked
  | Killed
  | NotSuspended
  | OutOfFuel.

Inductive res (A : Type) :=
  | Ok (a : A)
  | Fail (f : fault).
Arguments Ok {A} a.
Arguments Fail {A} f.

#[export] Instance fault_eq_dec : EqDecision fault.
Proof. solve_decision. Defined.

#[export] Instance res_ret : MRet res := λ A a, Ok a.
#[export] Instance res_bind : MBind res := λ A B k m,
  match m with Ok a => k a | Fail f => Fail f end.
#[export] Instance res_fmap : FMap res := λ A B g m,
  match m with Ok a => Ok (g a) | Fail f => Fail f end.

(** [require b f] is the guard of an [assert] or of a defined-behaviour
    condition. *)
Definition require (b : bool) (f : fault) : res unit :=
  if b then Ok tt else Fail f.

(** Error numbers (Linux). *)
Definition EINTR : Z := 4.
Definition EPIPE : Z := 32.
Definition EAGAIN : Z := 11.
Definition ECONNABORTED : Z := 103.
Definition EINPROGRESS : Z := 115.

(** ** Machine integers *)

Declare Scope nsio_scope.
Delimit Scope nsio_scope with nsio.

Definition u8 (x : Z) : Z := x mod 2 ^ 8.
Definition u16 (x : Z) : Z := x mod 2 ^ 16.
Definition u32 (x : Z) : Z := x mod 2 ^ 32.
Definition u64 (x : Z) : Z := x mod 2 ^ 64.
(** Conversion to a signed 32-bit [int] (two's complement, C++20). *)
Definition i32 (x : Z) : Z := (x + 2 ^ 31) mod 2 ^ 32 - 2 ^ 31.
Definition i64 (x : Z) : Z := (x + 2 ^ 63) mod 2 ^ 64 - 2 ^ 63.
(** An [int] expression whose mathematical value must be representable. *)
Definition int_ok (x : Z) : bool := (- 2 ^ 31 <=? x) && (x <? 2 ^ 31).

Notation "x &&& y" := (Z.land x y) (at level 40, left associativity) : nsio_scope.
Notation "x ||| y" := (Z.lor x y) (at level 50, left associativity) : nsio_scope.
#[global] Open Scope nsio_scope.

Create HintDb nsio discriminated.

Lemma u8_range x : 0 <= u8 x < 2 ^ 8.
Proof. apply Z.mod_pos_bound; lia. Qed.
Lemma u16_range x : 0 <= u16 x < 2 ^ 16.
Proof. apply Z.mod_pos_bound; lia. Qed.
Lemma u32_range x : 0 <= u32 x < 2 ^ 32.
Proof. apply Z.mod_pos_bound; lia. Qed.
Lemma u64_range x : 0 <= u64 x < 2 ^ 64.
Proof. apply Z.mod_pos_bound; lia. Qed.
Lemma i32_range x : - 2 ^ 31 <= i32 x < 2 ^ 31.
Proof. unfold i32. pose proof (Z.mod_pos_bound (x + 2 ^ 31) (2 ^ 32)). lia. Qed.

Lemma u8_small x : 0 <= x < 2 ^ 8 → u8 x = x.
Proof. apply Z.mod_small. Qed.
Lemma u16_small x : 0 <= x < 2 ^ 16 → u16 x = x.
Proof. apply Z.mod_small. Qed.
Lemma u32_small x : 0 <= x < 2 ^ 32 → u32 x = x.
Proof. apply Z.mod_small. Qed.
Lemma u64_small x : 0 <= x < 2 ^ 64 → u64 x = x.
Proof. apply Z.mod_small. Qed.
Lemma i32_small x : - 2 ^ 31 <= x < 2 ^ 31 → i32 x = x.
Proof. intros. unfold i32. rewrite Z.mod_small; lia. Qed.
(** [int64_t] *)
Definition long_ok (x : Z) : bool := (- 2 ^ 63 <=? x) && (x <? 2 ^ 63).

Lemma int_ok_spec x : int_ok x = true ↔ - 2 ^ 31 <= x < 2 ^ 31.
Proof. unfold int_ok. rewrite andb_true_iff, Z.leb_le, Z.ltb_lt. done. Qed.
Lemma u64_sub_add x y : 0 <= x < 2 ^ 64 → u64 (u64 (x + y) - y) = x.
Proof.
  intros. unfold u64. rewrite Zminus_mod_idemp_l.
  rewrite Z.add_simpl_r. by apply Z.mod_small.
Qed.

#[export] Hint Resolve u8_range u16_range u32_range u64_range i32_range : nsio.

(** ** Alignment arithmetic *)

Lemma land_lnot_pow2 x k :
  0 <= k → Z.land x (Z.lnot (2 ^ k - 1)) = x / 2 ^ k * 2 ^ k.
Proof.
  intros Hk. rewrite <- Z.ldiff_land.
  replace (2 ^ k - 1) with (Z.ones k) by (rewrite Z.ones_equiv; lia).
  by rewrite Z.ldiff_ones_r, Z.shiftl_mul_pow2, Z.shiftr_div_pow2.
Qed.

(** [x & ~(2^k - 1)] on 32-bit operands rounds down to a multiple of [2^k]. *)
Lemma land_u32_lnot_pow2 x k :
  0 <= k → 0 <= x < 2 ^ 32 →
  Z.land x (u32 (Z.lnot (2 ^ k - 1))) = x / 2 ^ k * 2 ^ k.
Proof.
  intros Hk Hx. unfold u32. rewrite <- (Z.land_ones _ 32) by lia.
  rewrite (Z.land_comm (Z.lnot _)), Z.land_assoc, (Z.land_ones x) by lia.
  rewrite (Z.mod_small x) by lia. by apply land_lnot_pow2.
Qed.

(** The least multiple of [a] that is at least [x]. *)
Definition round_up (x a : Z) : Z := (x + a - 1) / a * a.

Lemma round_up_ge x a : 0 < a → x <= round_up x a.
Proof.
  intros Ha. unfold round_up.
  pose proof (Z.mul_div_le (x + a - 1) a Ha).
  pose proof (Z.mul_succ_div_gt (x + a - 1) a Ha). lia.
Qed.

Lemma round_up_lt x a : 0 < a → round_up x a < x + a.
Proof.
  intros Ha. unfold round_up.
  pose proof (Z.mul_div_le (x + a - 1) a Ha). lia.
Qed.

Lemma round_up_divide x a : (a | round_up x a).
Proof. unfold round_up. apply Z.divide_factor_r. Qed.

Lemma round_up_nonneg x a : 0 < a → 0 <= x → 0 <= round_up x a.
Proof. intros. pose proof (round_up_ge x a). lia. Qed.

Lemma round_up_id x a : 0 < a → (a | x) → round_up x a = x.
Proof.
  intros Ha [q ->]. unfold round_up.
  replace (q * a + a - 1) with (a - 1 + q * a) by lia.
  rewrite Z.div_add, Z.div_small by lia. lia.
Qed.

#[export] Hint Resolve round_up_ge round_up_lt round_up_divide round_up_nonneg : nsio.

Lemma divide_pow2 i j : 0 <= i <= j → (2 ^ i | 2 ^ j).
Proof.
  intros. exists (2 ^ (j - i)). rewrite <- Z.pow_add_r by lia. f_equal. lia.
Qed.

(** ** Bytes and byte order *)

Definition bytes_ok (l : list Z) : Prop := Forall (λ b, 0 <= b < 2 ^ 8) l.

Fixpoint be_combine (acc : Z) (l : list Z) : Z :=
  match l with
  | [] => acc
  | b :: l => be_combine (acc * 2 ^ 8 + b) l
  end.

(** The [n] bytes of [x], most significant first. *)
Fixpoint be_split (n : nat) (x : Z) : list Z :=
  match n with
  | O => []
  | S n => u8 (x / 2 ^ (8 * Z.of_nat n)) :: be_split n x
  end.

Lemma be_split_length n x : length (be_split n x) = n.
Proof. induction n; simpl; congruence. Qed.

Lemma be_split_ok n x : bytes_ok (be_split n x).
Proof. induction n; constructor; auto. apply u8_range. Qed.

Lemma be_combine_split acc n x :
  be_combine acc (be_split n x) = acc * 2 ^ (8 * Z.of_nat n) + x mod 2 ^ (8 * Z.of_nat n).
Proof.
  revert acc. induction n as [|n IH]; intros acc.
  - simpl. rewrite Z.mod_1_r. lia.
  - cbn [be_split be_combine]. rewrite IH. unfold u8.
    set (m := 8 * Z.of_nat n). replace (8 * Z.of_nat (S n)) with (m + 8) by lia.
    rewrite Z.pow_add_r by lia. rewrite (Z.mul_comm (2 ^ m)).
    rewrite (Z.mul_comm (2 ^ 8) (2 ^ m)), (Z.rem_mul_r x (2 ^ m)) by lia. lia.
Qed.

Lemma be_combine_inj l1 l2 a1 a2 :
  length l1 = length l2 → bytes_ok l1 → bytes_ok l2 →
  be_combine a1 l1 = be_combine a2 l2 → a1 = a2 ∧ l1 = l2.
Proof.
  revert l2 a1 a2. induction l1 as [|x l1 IH]; intros [|y l2] a1 a2 Hl H1 H2;
    try done.
  inversion H1; inversion H2; simplify_eq/=. intros E.
  apply IH in E as [E ->]; [|auto..]. split; [lia|f_equal; lia].
Qed.

(** ** Lists used as arrays *)

(** [write_at l off bs]: store [bs] at offset [off]; [None] when the store
    does not lie inside the array. *)
Definition write_at (l : list Z) (off : Z) (bs : list Z) : res (list Z) :=
  if (0 <=? off) && (off + Z.of_nat (length bs) <=? Z.of_nat (length l))
  then Ok (take (Z.to_nat off) l ++ bs ++ drop (Z.to_nat off + length bs) l)
  else Fail OutOfBounds.

Definition read_at (l : list Z) (off n : Z) : list Z :=
  take (Z.to_nat n) (drop (Z.to_nat off) l).

Lemma write_at_Ok l off bs :
  0 <= off → off + Z.of_nat (length bs) <= Z.of_nat (length l) →
  write_at l off bs =
    Ok (take (Z.to_nat off) l ++ bs ++ drop (Z.to_nat off + length bs) l).
Proof.
  intros. unfold write_at.
  by rewrite (proj2 (Z.leb_le _ _)), (proj2 (Z.leb_le _ _)) by lia.
Qed.

Lemma write_at_inv l off bs l' :
  write_at l off bs = Ok l' →
  0 <= off ∧ off + Z.of_nat (length bs) <= Z.of_nat (length l) ∧
  l' = take (Z.to_nat off) l ++ bs ++ drop (Z.to_nat off + length bs) l.
Proof.
  unfold write_at. destruct (_ && _) eqn:E; [|done]. intros [= <-].
  apply andb_true_iff in E as [?%Z.leb_le ?%Z.leb_le]. auto.
Qed.

Lemma write_at_length l off bs l' : write_at l off bs = Ok l' → length l' = length l.
Proof.
  intros (H1 & H2 & ->)%write_at_inv.
  rewrite !length_app, length_take, length_drop. lia.
Qed.

(** A store that starts where the already written prefix [pre] (placed at
    [base]) ends extends that prefix. *)
Lemma write_at_extend l base pre bs l' :
  0 <= base → take (length pre) (drop (Z.to_nat base) l) = pre →
  write_at l (base + Z.of_nat (length pre)) bs = Ok l' →
  take (length (pre ++ bs)) (drop (Z.to_nat base) l') = pre ++ bs ∧
  take (Z.to_nat base) l' = take (Z.to_nat base) l.
Proof.
  intros Hb Hpre (H1 & H2 & ->)%write_at_inv.
  set (b := Z.to_nat base) in *.
  replace (Z.to_nat (base + Z.of_nat (length pre))) with (b + length pre)%nat by lia.
  assert (take (b + length pre) l = take b l ++ pre) as ->.
  { rewrite <- (take_drop b l) at 1. rewrite take_app_ge by (rewrite length_take; lia).
    f_equal. rewrite length_take, Nat.min_l by lia.
    by replace (b + length pre - b)%nat with (length pre) by lia. }
  assert (length (take b l) = b) as Hlen by (rewrite length_take; lia).
  rewrite <- !app_assoc. split.
  - rewrite drop_app_ge by lia. rewrite Hlen, Nat.sub_diag, drop_0.
    rewrite app_assoc, take_app_le by done. by rewrite firstn_all.
  - rewrite take_app_le by lia. rewrite take_take. f_equal. lia.
Qed.

(** ** Tactics *)

(** Invert a chain of binds that ended in [Ok]. *)
Ltac res_inv :=
  repeat match goal with
  | H : Ok _ = Ok _ |- _ => injection H as H
  | H : Fail _ = Ok _ |- _ => discriminate H
  | H : Ok _ = Fail _ |- _ => discriminate H
  | H : mbind _ ?m = Ok _ |- _ =>
      let E := fresh "E" in
      destruct m eqn:E; cbn [mbind res_bind] in H
  | H : require ?b _ = Ok _ |- _ =>
      let E := fresh "E" in
      destruct b eqn:E; cbn [require] in H
  end.

(** Case analysis on the booleans of the source's conditions. *)
Ltac case_cond :=
  match goal with
  | |- context [if ?b then _ else _] => let E := fresh "C" in destruct b eqn:E
  | H : context [if ?b then _ else _] |- _ => let E := fresh "C" in destruct b eqn:E
  end.

(** Turn boolean comparisons into propositions. *)
Ltac bool_prop :=
  repeat match goal with
  | H : _ && _ = true |- _ => apply andb_true_iff in H as [? ?]
  | H : _ || _ = false |- _ => apply orb_false_iff in H as [? ?]
  | H : negb _ = true |- _ => apply negb_true_iff in H
  | H : negb _ = false |- _ => apply negb_false_iff in H
  | H : (_ <=? _) = true |- _ => apply Z.leb_le in H
  | H : (_ <=? _) = false |- _ => apply Z.leb_gt in H
  | H : (_ <? _) = true |- _ => apply Z.ltb_lt in H
  | H : (_ <? _) = false |- _ => apply Z.ltb_ge in H
  | H : (_ =? _) = true |- _ => apply Z.eqb_eq in H
  | H : (_ =? _) = false |- _ => apply Z.eqb_neq in H
  end.

(** ** Bit fields *)

Lemma testbit_high x k i : 0 <= x < 2 ^ k → 0 <= k <= i → Z.testbit x i = false.
Proof.
  intros Hx Hk. rewrite <- (Z.mod_small x (2 ^ k)) by done.
  apply Z.mod_pow2_bits_high. lia.
Qed.

(** A value above a field and a value inside the field do not share bits. *)
Lemma lor_field x y k :
  0 <= k → 0 <= y < 2 ^ k → Z.lor (Z.shiftl x k) y = x * 2 ^ k + y.
Proof.
  intros Hk Hy. rewrite <- Z.shiftl_mul_pow2 by done.
  symmetry. apply Z.add_nocarry_lor, Z.bits_inj'. intros i Hi.
  rewrite Z.land_spec, Z.bits_0. destruct (decide (i < k)).
  - by rewrite Z.shiftl_spec_low.
  - by rewrite (testbit_high y k i), andb_false_r by lia.
Qed.

Lemma lor_range x y k : 0 <= k → 0 <= x < 2 ^ k → 0 <= y < 2 ^ k → 0 <= Z.lor x y < 2 ^ k.
Proof.
  intros Hk Hx Hy. assert (Z.lor x y mod 2 ^ k = Z.lor x y) as <-.
  { rewrite <- Z.land_ones, Z.land_lor_distr_l, !Z.land_ones by done. by rewrite !Z.mod_small. }
  apply Z.mod_pos_bound. lia.
Qed.

Lemma shiftl_1 k : 0 <= k → Z.shiftl 1 k = 2 ^ k.
Proof. intros. rewrite Z.shiftl_mul_pow2 by done. lia. Qed.

(** No overflow when the rounded value stays below a common multiple. *)
Lemma round_up_room x a n : 0 < a → (a | n) → round_up x a < n → x + a - 1 < n.
Proof.
  intros Ha [q ->] Hlt. pose proof (round_up_ge x a Ha).
  destruct (round_up_divide x a) as [r Hr]. rewrite Hr in *.
  assert (r < q) by nia. nia.
Qed.

(** ** More list facts *)

Lemma seq_forallb (f : nat → bool) n k : forallb f (seq 0 n) = true → (k < n)%nat → f k = true.
Proof. intros H Hk. apply (proj1 (forallb_forall f _) H), in_seq. lia. Qed.

Lemma Forall_sublist {A} (P : A → Prop) l1 l2 :
  sublist l1 l2 → Forall P l2 → Forall P l1.
Proof. induction 1; inversion 1; subst; auto. Qed.

Lemma filter_all {A} (P : A → Prop) `{!∀ x, Decision (P x)} (l : list A) :
  (∀ x, x ∈ l → P x) → filter P l = l.
Proof.
  induction l as [|x l IH]; intros HP; [done|].
  rewrite filter_cons_True by (apply HP; left).
  f_equal. apply IH. intros y Hy. apply HP. by right.
Qed.

Lemma filter_none {A} (P : A → Prop) `{!∀ x, Decision (P x)} (l : list A) :
  (∀ x, x ∈ l → ¬ P x) → filter P l = [].
Proof.
  induction l as [|x l IH]; intros HP; [done|].
  rewrite filter_cons_False by (apply HP; left).
  apply IH. intros y Hy. apply HP. by right.
Qed.

#[export] Instance omap_perm {A B} (f : A → option B) :
  Proper (Permutation ==> Permutation) (omap f).
Proof.
  induction 1 as [|x l l' ? IH|x y l|]; simpl; repeat case_match; auto.
  - apply perm_swap.
  - by etrans.
Qed.

(** Distinct images of the whole give distinct images of a part. *)
Lemma NoDup_omap_part {A B} (f : A → option B) (l part rest : list A) :
  NoDup (omap f l) → l ≡ₚ rest ++ part → NoDup (omap f part).
Proof. intros Hnd Hp. rewrite Hp, omap_app in Hnd. by apply NoDup_app in Hnd as (_ & _ & ?). Qed.

(** ** Collecting something from every entry of a map *)

Section collect.
Context {I V A : Type} `{!EqDecision I, !Countable I} (f : V → list A).

Definition collect (m : gmap I V) : list A := map_to_list m ≫= λ p, f p.2.

Lemma collect_insert m fd c : collect (<[fd := c]> m) ≡ₚ f c ++ collect (delete fd m).
Proof.
  unfold collect. rewrite <- insert_delete_eq, map_to_list_insert by apply lookup_delete_eq. done.
Qed.

Lemma collect_lookup m fd c : m !! fd = Some c → collect m ≡ₚ f c ++ collect (delete fd m).
Proof. intros H. rewrite <- collect_insert. by rewrite insert_id. Qed.
End collect.
