(* ===== verification/StdHeap.v ===== *)
(** * The heap algorithms of the C++ standard library used by the timers

    [io_loop] keeps its timers in a vector that [std::push_heap],
    [std::pop_heap] and [std::make_heap] maintain ([<algorithm>]).  [StdHeap]
    is the contract of the three functions as the standard states it; the
    timer theorems are proved against this contract.  [libstdcxx_heap] is an
    executable instance that follows the usual implementation (a value is
    sifted down along the larger child to a leaf, then up). *)

From S2P Require Import Prelude.
#[local] Open Scope nat_scope.

Definition parent (i : nat) : nat := (i - 1) / 2.

(** The heap property of the standard: no parent compares less than one of
    its children. *)
Definition is_heap {A} (comp : A → A → bool) (l : list A) : Prop :=
  ∀ i x p, 0 < i → l !! i = Some x → l !! parent i = Some p → comp p x = false.

(** The strict weak order the standard requires of a comparator. *)
Class StrictWeak {A} (comp : A → A → bool) : Prop := {
  comp_asym x y : comp x y = true → comp y x = false;
  comp_neg_trans x y z : comp x y = false → comp y z = false → comp x z = false;
}.

Class StdHeap {A} (comp : A → A → bool) := {
  push_heap : list A → list A;
  pop_heap : list A → list A;
  make_heap : list A → list A;
  push_heap_perm l : push_heap l ≡ₚ l;
  push_heap_heap l x : is_heap comp l → is_heap comp (push_heap (l ++ [x]));
  pop_heap_spec x l : is_heap comp (x :: l) →
    ∃ l', pop_heap (x :: l) = l' ++ [x] ∧ l' ≡ₚ l ∧ is_heap comp l';
  make_heap_perm l : make_heap l ≡ₚ l;
  make_heap_heap l : is_heap comp (make_heap l);
}.

Lemma comp_irrefl {A} (comp : A → A → bool) `{!StrictWeak comp} x : comp x x = false.
Proof. destruct (comp x x) eqn:E; [|done]. by rewrite (comp_asym _ _ E) in E. Qed.

(** The root of a heap is not dominated by any element. *)
Lemma is_heap_root {A} (comp : A → A → bool) `{!StrictWeak comp} r l :
  is_heap comp (r :: l) → ∀ x, x ∈ r :: l → comp r x = false.
Proof.
  intros Hh x (i & Hi)%list_elem_of_lookup. revert x Hi.
  induction i as [i IH] using lt_wf_ind. intros x Hi.
  destruct i as [|i]; [simplify_eq/=; apply (comp_irrefl comp)|].
  assert (parent (S i) < S i) as Hlt.
  { unfold parent. apply Nat.Div0.div_lt_upper_bound. lia. }
  destruct (lookup_lt_is_Some_2 (r :: l) (parent (S i))) as [p Hp].
  { apply lookup_lt_Some in Hi. lia. }
  eapply comp_neg_trans; [eapply IH; eauto|].
  eapply Hh; [|done..]. lia.
Qed.

Lemma is_heap_nil {A} (comp : A → A → bool) : is_heap comp [].
Proof. intros i x p _ H. by rewrite lookup_nil in H. Qed.

Section libstdcxx.
Context {A : Type} `{!Inhabited A} (comp : A → A → bool) `{!StrictWeak comp}.
Implicit Types (l : list A) (i h top len : nat) (v x : A).

(** [__push_heap]: move the hole at [h] up towards [top] while the parent
    compares less than [v], then store [v].  [fuel = h] is enough: the hole
    index decreases at every step. *)
Fixpoint sift_up (fuel : nat) l h top v : list A :=
  match fuel with
  | O => <[h := v]> l
  | S fuel =>
      if (top <? h) && comp (l !!! parent h) v
      then sift_up fuel (<[h := l !!! parent h]> l) (parent h) top v
      else <[h := v]> l
  end.

(** The child the hole of [__adjust_heap] moves to. *)
Definition larger_child l h : nat :=
  if comp (l !!! (2 * h + 2)) (l !!! (2 * h + 1)) then 2 * h + 1 else 2 * h + 2.

Fixpoint sift_down (fuel : nat) l h : list A * nat :=
  match fuel with
  | O => (l, h)
  | S fuel =>
      if h <? (length l - 1) / 2
      then let s := larger_child l h in sift_down fuel (<[h := l !!! s]> l) s
      else (l, h)
  end.

(** The trailing [if] of [__adjust_heap]: a last inner node with only a
    left child. *)
Definition last_child l h : list A * nat :=
  if Nat.even (length l) && (h =? (length l - 2) / 2)
  then (<[h := l !!! (2 * h + 1)]> l, 2 * h + 1)
  else (l, h).

Definition adjust_heap l top v : list A :=
  let '(l1, h1) := sift_down (length l) l top in
  let '(l2, h2) := last_child l1 h1 in
  sift_up h2 l2 h2 top v.

Definition std_push_heap l : list A :=
  sift_up (length l - 1) l (length l - 1) 0 (l !!! (length l - 1)).

Definition std_pop_heap l : list A :=
  match l with
  | [] | [_] => l
  | x :: _ =>
      adjust_heap (take (length l - 1) l) 0 (l !!! (length l - 1)) ++ [x]
  end.

Fixpoint make_heap_loop (k : nat) l : list A :=
  match k with
  | O => l
  | S k => make_heap_loop k (adjust_heap l k (l !!! k))
  end.

Definition std_make_heap l : list A :=
  if length l <? 2 then l else make_heap_loop (S ((length l - 2) / 2)) l.

(** *** Index arithmetic *)

Lemma parent_lt i : 0 < i → parent i < i.
Proof. intros. unfold parent. apply Nat.Div0.div_lt_upper_bound. lia. Qed.
Lemma parent_le i : parent i ≤ i.
Proof. destruct i; [done|]. pose proof (parent_lt (S i)). lia. Qed.
Lemma parent_cases i : 0 < i → i = 2 * parent i + 1 ∨ i = 2 * parent i + 2.
Proof.
  intros. unfold parent. pose proof (Nat.div_mod_eq (i - 1) 2).
  pose proof (Nat.mod_upper_bound (i - 1) 2). lia.
Qed.
Lemma parent_left h : parent (2 * h + 1) = h.
Proof. destruct (parent_cases (2 * h + 1)); lia. Qed.
Lemma parent_right h : parent (2 * h + 2) = h.
Proof. destruct (parent_cases (2 * h + 2)); lia. Qed.

(** [desc top h]: [h] lies in the subtree rooted at [top]. *)
Inductive desc (top : nat) : nat → Prop :=
  | desc_refl : desc top top
  | desc_child h : 0 < h → desc top (parent h) → desc top h.

Lemma desc_ge top h : desc top h → top ≤ h.
Proof. induction 1 as [|h ?? IH]; [done|]. pose proof (parent_lt h). lia. Qed.
Lemma desc_0 h : desc 0 h.
Proof.
  induction h as [h IH] using lt_wf_ind. destruct h; constructor; [lia|].
  apply IH, parent_lt. lia.
Qed.
Lemma desc_inv top h : desc top h → top < h → desc top (parent h).
Proof. destruct 1; [lia|done]. Qed.

(** *** The heap with a hole *)

(** Every edge below [top] that does not touch the hole [h] is in order, and
    so are the edges that skip the hole. *)
Definition hole_heap l top h : Prop :=
  (∀ i, 0 < i → i < length l → top ≤ parent i → i ≠ h → parent i ≠ h →
     comp (l !!! parent i) (l !!! i) = false) ∧
  (∀ c, 0 < c → c < length l → parent c = h → top < h →
     comp (l !!! parent h) (l !!! c) = false).

Definition heap_below l top : Prop :=
  ∀ i, 0 < i → i < length l → top ≤ parent i →
    comp (l !!! parent i) (l !!! i) = false.

(** [v] dominates the children of [h]. *)
Definition over_children l h v : Prop :=
  ∀ c, 0 < c → c < length l → parent c = h → comp v (l !!! c) = false.

Lemma heap_below_is_heap l : heap_below l 0 ↔ is_heap comp l.
Proof.
  split.
  - intros H i x p Hi Hx Hp.
    rewrite <- (list_lookup_total_correct _ _ _ Hx), <- (list_lookup_total_correct _ _ _ Hp).
    apply H; [done| |lia]. by eapply lookup_lt_Some.
  - intros H i Hi Hl _. eapply H; [done|..]; apply list_lookup_lookup_total_lt; [done|].
    pose proof (parent_lt i). lia.
Qed.

Lemma insert_total_eq l i x : i < length l → <[i := x]> l !!! i = x.
Proof. apply list_lookup_total_insert_eq. Qed.
Lemma insert_total_ne l i j x : i ≠ j → <[i := x]> l !!! j = l !!! j.
Proof. apply list_lookup_total_insert_ne. Qed.

(** Storing [v] in a hole it fits closes the heap. *)
Lemma hole_fill l top h v :
  h < length l → hole_heap l top h → over_children l h v →
  (top < h → comp (l !!! parent h) v = false) →
  heap_below (<[h := v]> l) top.
Proof.
  intros Hh [Hedge _] Hch Hup i Hi Hl Htop. rewrite length_insert in Hl.
  destruct (decide (i = h)) as [->|].
  { rewrite insert_total_eq, insert_total_ne by (pose proof (parent_lt h); lia).
    apply Hup. pose proof (parent_lt h). lia. }
  rewrite (insert_total_ne _ h i) by done.
  destruct (decide (parent i = h)) as [Hp|].
  - rewrite Hp, insert_total_eq by done. by apply Hch.
  - rewrite insert_total_ne by done. by apply Hedge.
Qed.

(** One step of the upward loop keeps the hole invariant. *)
Lemma hole_up l top h v :
  h < length l → top < h → desc top h →
  hole_heap l top h → over_children l h v →
  comp (l !!! parent h) v = true →
  hole_heap (<[h := l !!! parent h]> l) top (parent h) ∧
  over_children (<[h := l !!! parent h]> l) (parent h) v.
Proof.
  intros Hh Ht Hd [Hedge Hskip] Hch Hc. pose proof (parent_lt h).
  pose proof (desc_inv _ _ Hd Ht) as Hdp. pose proof (desc_ge _ _ Hdp).
  set (p := parent h) in *.
  assert (∀ c, 0 < c → c < length l → parent c = p →
    comp (l !!! p) (<[h := l !!! p]> l !!! c) = false) as Hbelow.
  { intros c Hc0 Hcl Hcp. destruct (decide (c = h)) as [->|].
    - rewrite insert_total_eq by done. apply (comp_irrefl comp).
    - rewrite insert_total_ne by done. rewrite <- Hcp. apply Hedge; lia. }
  split; [split|].
  - intros i Hi Hl Hti Hip Hpp. rewrite length_insert in Hl.
    destruct (decide (i = h)) as [->|]; [done|].
    rewrite (insert_total_ne _ h i) by done.
    destruct (decide (parent i = h)) as [Hph|].
    + rewrite Hph, insert_total_eq by done. by apply Hskip.
    + rewrite insert_total_ne by done. by apply Hedge.
  - intros c Hc0 Hcl Hcp Htp. rewrite length_insert in Hcl.
    pose proof (parent_lt p). pose proof (desc_ge _ _ (desc_inv _ _ Hdp Htp)).
    rewrite (insert_total_ne _ h (parent p)) by lia.
    eapply comp_neg_trans; [apply Hedge; lia|by apply Hbelow].
  - intros c Hc0 Hcl Hcp. rewrite length_insert in Hcl.
    eapply comp_neg_trans; [by apply comp_asym|]. by apply Hbelow.
Qed.

(** One step of the downward loop, to a child [s] that dominates its
    sibling, keeps the hole invariant. *)
Lemma hole_down l top h s :
  s < length l → 0 < s → parent s = h → top ≤ h →
  (∀ c, 0 < c → c < length l → parent c = h → comp (l !!! s) (l !!! c) = false) →
  hole_heap l top h → hole_heap (<[h := l !!! s]> l) top s.
Proof.
  intros Hs Hs0 Hp Ht Hsib [Hedge Hskip]. pose proof (parent_lt s).
  split.
  - intros i Hi Hl Hti His Hps. rewrite length_insert in Hl.
    destruct (decide (i = h)) as [->|].
    + pose proof (parent_lt h).
      rewrite insert_total_eq, insert_total_ne by lia. apply Hskip; [done..|lia].
    + rewrite (insert_total_ne _ h i) by done.
      destruct (decide (parent i = h)) as [Hph|].
      * rewrite Hph, insert_total_eq by lia. by apply Hsib.
      * rewrite insert_total_ne by done. by apply Hedge.
  - intros c Hc0 Hcl Hcp Hts. rewrite length_insert in Hcl.
    pose proof (parent_lt c).
    rewrite Hp, insert_total_eq, insert_total_ne by lia.
    rewrite <- Hcp. apply Hedge; lia.
Qed.

(** *** Permutations *)

Lemma insert_perm l i x v :
  l !! i = Some x → x :: <[i := v]> l ≡ₚ v :: l.
Proof.
  intros Hx. rewrite insert_take_drop by (by eapply lookup_lt_Some).
  rewrite <- (take_drop_middle l i x Hx) at 3.
  rewrite <- Permutation_middle, <- Permutation_middle. constructor.
Qed.

(** Moving the element at [s] into the hole [h] moves the hole to [s]. *)
Lemma hole_move_perm l h s v :
  h < length l → s < length l → h ≠ s →
  <[s := v]> (<[h := l !!! s]> l) ≡ₚ <[h := v]> l.
Proof.
  intros Hh Hs Hne.
  pose proof (list_lookup_lookup_total_lt l s Hs) as Es.
  pose proof (list_lookup_lookup_total_lt l h Hh) as Eh.
  set (x := l !!! s) in *. set (a := l !!! h) in *.
  assert (<[h := x]> l !! s = Some x) as Es' by (by rewrite list_lookup_insert_ne).
  apply (Permutation_cons_inv (a := x)), (Permutation_cons_inv (a := a)).
  rewrite (insert_perm _ _ _ v Es'), (perm_swap v a), (insert_perm _ _ _ x Eh).
  rewrite (perm_swap x a), (insert_perm _ _ _ v Eh). apply perm_swap.
Qed.

(** *** Correctness of the loops *)

Lemma sift_up_perm fuel l h top v :
  h < length l → sift_up fuel l h top v ≡ₚ <[h := v]> l.
Proof.
  revert l h. induction fuel as [|fuel IH]; intros l h Hh; simpl; [done|].
  destruct (_ && _) eqn:E; [|done].
  apply andb_true_iff in E as [?%Nat.ltb_lt _]. pose proof (parent_lt h).
  rewrite IH by (rewrite length_insert; lia).
  apply hole_move_perm; lia.
Qed.

Lemma sift_up_heap fuel l h top v :
  h ≤ fuel → h < length l → desc top h →
  hole_heap l top h → over_children l h v →
  heap_below (sift_up fuel l h top v) top.
Proof.
  revert l h. induction fuel as [|fuel IH]; intros l h Hf Hh Hd Hhole Hch; simpl.
  { apply hole_fill; auto. lia. }
  destruct (_ && _) eqn:E.
  - apply andb_true_iff in E as [Ht%Nat.ltb_lt Hc].
    destruct (hole_up _ _ _ _ Hh Ht Hd Hhole Hch Hc). pose proof (parent_lt h).
    apply IH; rewrite ?length_insert; auto using desc_inv; lia.
  - apply hole_fill; auto. intros Ht. rewrite (proj2 (Nat.ltb_lt _ _) Ht) in E. done.
Qed.

Lemma larger_child_spec l h :
  h < (length l - 1) / 2 →
  let s := larger_child l h in
  s < length l ∧ 0 < s ∧ parent s = h ∧ h < s ∧
  (∀ c, 0 < c → c < length l → parent c = h → comp (l !!! s) (l !!! c) = false).
Proof.
  intros Hh. assert (2 * h + 2 < length l) as Hl.
  { pose proof (Nat.div_mod_eq (length l - 1) 2). lia. }
  unfold larger_child.
  destruct (comp (l !!! (2 * h + 2)) (l !!! (2 * h + 1))) eqn:E; simpl;
    (split_and!; [lia|lia|first [apply parent_left|apply parent_right]|lia|]);
    intros c Hc0 Hcl Hcp; destruct (parent_cases c Hc0) as [-> | ->]; rewrite Hcp;
    first [apply (comp_irrefl comp) | by apply comp_asym | done].
Qed.

Lemma sift_down_spec fuel l top h v l' h' :
  length l - h ≤ fuel → h < length l → desc top h → hole_heap l top h →
  sift_down fuel l h = (l', h') →
  length l' = length l ∧ h' < length l ∧ desc top h' ∧ hole_heap l' top h' ∧
  (length l - 1) / 2 ≤ h' ∧ <[h' := v]> l' ≡ₚ <[h := v]> l.
Proof.
  revert l h. induction fuel as [|fuel IH]; intros l h Hf Hh Hd Hhole;
    cbn [sift_down]; [lia|].
  destruct (h <? (length l - 1) / 2) eqn:E.
  - apply Nat.ltb_lt in E. destruct (larger_child_spec l h E) as (Hs&Hs0&Hp&Hlt&Hsib).
    pose proof (desc_ge _ _ Hd). intros HE.
    assert (desc top (larger_child l h)) as Hds by (constructor; [done|by rewrite Hp]).
    pose proof (hole_down _ _ _ _ Hs Hs0 Hp ltac:(done) Hsib Hhole) as Hhs.
    apply IH in HE as (Hl & Hh' & Hd' & Hhole' & Hb & Hperm);
      rewrite ?length_insert in *; [|lia|done..].
    split_and!; try done. rewrite Hperm. apply hole_move_perm; lia.
  - apply Nat.ltb_ge in E. intros [= <- <-]. by split_and!.
Qed.

Lemma last_child_spec l top h v l' h' :
  h < length l → (length l - 1) / 2 ≤ h → desc top h → hole_heap l top h →
  last_child l h = (l', h') →
  length l' = length l ∧ h' < length l ∧ desc top h' ∧ hole_heap l' top h' ∧
  over_children l' h' v ∧ <[h' := v]> l' ≡ₚ <[h := v]> l.
Proof.
  intros Hh Hb Hd Hhole. unfold last_child. pose proof (desc_ge _ _ Hd).
  pose proof (Nat.div_mod_eq (length l - 1) 2). pose proof (Nat.div_mod_eq (length l - 2) 2).
  pose proof (Nat.mod_upper_bound (length l - 1) 2).
  pose proof (Nat.mod_upper_bound (length l - 2) 2).
  destruct (Nat.even (length l)) eqn:Ev; cbn [andb].
  all: first [apply Nat.even_spec in Ev as [q Hq]
             | rewrite <- Nat.negb_odd in Ev; apply negb_false_iff, Nat.odd_spec in Ev as [q Hq]].
  - destruct (h =? _) eqn:E; intros [= <- <-].
    + apply Nat.eqb_eq in E.
      assert (2 * h + 1 = length l - 1) as Hlast by lia.
      rewrite length_insert. split_and!; [done|lia|..].
      * apply desc_child; [lia|]. by rewrite (parent_left h : parent (h + (h + 0) + 1) = h).
      * apply hole_down; [lia|lia|apply parent_left|lia| |done].
        intros c Hc0 Hcl Hcp. assert (c = 2 * h + 1) as -> by (pose proof (parent_cases c); lia).
        apply (comp_irrefl comp).
      * intros c Hc0 Hcl Hcp. rewrite length_insert in Hcl. destruct (parent_cases c Hc0); lia.
      * apply hole_move_perm; lia.
    + apply Nat.eqb_neq in E. split_and!; auto.
      intros c Hc0 Hcl Hcp. destruct (parent_cases c Hc0); lia.
  - intros [= <- <-]. split_and!; auto.
    intros c Hc0 Hcl Hcp. destruct (parent_cases c Hc0); lia.
Qed.

Lemma adjust_heap_spec l top v :
  top < length l → heap_below l (S top) →
  heap_below (adjust_heap l top v) top ∧ adjust_heap l top v ≡ₚ <[top := v]> l.
Proof.
  intros Ht Hbelow. unfold adjust_heap.
  destruct (sift_down (length l) l top) as [l1 h1] eqn:E1.
  assert (hole_heap l top top) as Hhole.
  { split; [|intros; lia]. intros i ????. intros. apply Hbelow; lia. }
  destruct (sift_down_spec _ _ top _ v _ _ (Nat.le_sub_l _ _) Ht (desc_refl _) Hhole E1)
    as (Hl1 & Hh1 & Hd1 & Hhole1 & Hb1 & Hp1).
  rewrite <- Hl1 in Hh1, Hb1.
  destruct (last_child l1 h1) as [l2 h2] eqn:E2.
  destruct (last_child_spec _ _ _ v _ _ Hh1 Hb1 Hd1 Hhole1 E2)
    as (Hl2 & Hh2 & Hd2 & Hhole2 & Hch & Hp2).
  split; [apply sift_up_heap; auto; lia|].
  rewrite sift_up_perm by lia. by rewrite Hp2, Hp1.
Qed.

Lemma make_heap_loop_spec k l :
  k ≤ length l → heap_below l k →
  heap_below (make_heap_loop k l) 0 ∧ make_heap_loop k l ≡ₚ l.
Proof.
  revert l. induction k as [|k IH]; intros l Hk Hb; [done|].
  destruct (adjust_heap_spec l k (l !!! k)) as [Hb' Hp']; [lia|done|].
  rewrite list_insert_id in Hp' by (apply list_lookup_lookup_total_lt; lia).
  destruct (IH (adjust_heap l k (l !!! k))) as [? Hp'']; [|done|].
  { rewrite (Permutation_length Hp'). lia. }
  simpl. split; [done|]. by rewrite Hp''.
Qed.

Lemma std_make_heap_spec l : is_heap comp (std_make_heap l) ∧ std_make_heap l ≡ₚ l.
Proof.
  unfold std_make_heap. pose proof (Nat.div_mod_eq (length l - 2) 2).
  pose proof (Nat.mod_upper_bound (length l - 2) 2).
  destruct (_ <? _) eqn:E.
  - apply Nat.ltb_lt in E. split; [|done]. apply heap_below_is_heap.
    intros i Hi Hl _. pose proof (parent_cases i). lia.
  - apply Nat.ltb_ge in E. rewrite <- heap_below_is_heap. apply make_heap_loop_spec; [lia|].
    intros i Hi Hl Hp. pose proof (parent_cases i Hi). lia.
Qed.

Lemma std_push_heap_perm l : std_push_heap l ≡ₚ l.
Proof.
  unfold std_push_heap. destruct (decide (l = [])) as [->|Hne]; [done|].
  assert (length l ≠ 0) by (by destruct l).
  rewrite sift_up_perm by lia.
  by rewrite list_insert_id by (apply list_lookup_lookup_total_lt; lia).
Qed.

Lemma std_push_heap_heap l x : is_heap comp l → is_heap comp (std_push_heap (l ++ [x])).
Proof.
  intros Hh%heap_below_is_heap. apply heap_below_is_heap.
  unfold std_push_heap. rewrite length_app, Nat.add_sub.
  apply sift_up_heap; [done|rewrite length_app; simpl; lia|apply desc_0|..].
  - split.
    + intros i Hi Hl _ Hne Hpne. rewrite length_app in Hl. simpl in Hl.
      pose proof (parent_lt i Hi). rewrite !lookup_total_app_l by lia. apply Hh; lia.
    + intros c Hc Hl Hp _. rewrite length_app in Hl. simpl in Hl.
      pose proof (parent_lt c Hc). lia.
  - intros c Hc Hl Hp. rewrite length_app in Hl. simpl in Hl. pose proof (parent_lt c Hc). lia.
Qed.

Lemma std_pop_heap_spec x l :
  is_heap comp (x :: l) →
  ∃ l', std_pop_heap (x :: l) = l' ++ [x] ∧ l' ≡ₚ l ∧ is_heap comp l'.
Proof.
  intros Hh. destruct l as [|y l0 _] using rev_ind.
  { exists []. split_and!; [done..|]. apply is_heap_nil. }
  assert (std_pop_heap (x :: l0 ++ [y]) = adjust_heap (x :: l0) 0 y ++ [x]) as ->.
  { transitivity (adjust_heap (take (length (l0 ++ [y])) (x :: l0 ++ [y])) 0
                    ((x :: l0 ++ [y]) !!! length (l0 ++ [y])) ++ [x]).
    { unfold std_pop_heap. destruct (l0 ++ [y]) eqn:E; [by destruct l0|].
      by replace (length (x :: a :: l) - 1) with (length (a :: l)) by (simpl; lia). }
    rewrite length_app. simpl length. rewrite Nat.add_1_r.
    change (x :: l0 ++ [y]) with ((x :: l0) ++ [y]).
    rewrite (take_app_length' (x :: l0)) by done. do 2 f_equal.
    apply list_lookup_total_correct. by rewrite list_lookup_middle. }
  destruct (adjust_heap_spec (x :: l0) 0 y) as [Hb Hp]; [simpl; lia| |].
  { intros i Hi Hl Hpi. apply heap_below_is_heap in Hh. specialize (Hh i Hi).
    change (x :: l0 ++ [y]) with ((x :: l0) ++ [y]) in Hh. rewrite length_app in Hh.
    pose proof (parent_lt i Hi). rewrite !lookup_total_app_l in Hh by lia. apply Hh; lia. }
  eexists. split; [done|]. split; [|by apply heap_below_is_heap].
  rewrite Hp. simpl. apply Permutation_cons_append.
Qed.

#[export] Instance libstdcxx_heap : StdHeap comp := {
  push_heap := std_push_heap;
  pop_heap := std_pop_heap;
  make_heap := std_make_heap;
  push_heap_perm := std_push_heap_perm;
  push_heap_heap := std_push_heap_heap;
  pop_heap_spec := std_pop_heap_spec;
  make_heap_perm := λ l, proj2 (std_make_heap_spec l);
  make_heap_heap := λ l, proj1 (std_make_heap_spec l);
}.
End libstdcxx.

Example heap_sort_3 :
  let lt (x y : nat) := x <? y in
  std_pop_heap lt (std_push_heap lt (std_make_heap lt [3; 1; 4; 1; 5] ++ [9]))
  = [5; 3; 4; 1; 1; 9].
Proof. reflexivity. Qed.
