(* ===== verification/ByteBuffer.v ===== *)
(** * Byte buffers and their pool ([coio/byte_buffer.h], [coio/byte_buffer.cpp])

    A [byte_buffer] is a view (header, body, data window) of one block of the C
    heap; [buffer_pool] hands them out and may keep released blocks in an
    [unordered_multimap] keyed by size and alignment. *)

From S2P Require Import Prelude.

(** ** What the pool uses of the C and C++ standard libraries *)

(** [aligned_alloc] and [free].  [blocks] is the set of live blocks, from
    address to size; address 0 is [NULL]. *)
Class Allocator (M : Type) := {
  aligned_alloc : M → Z → Z → M * Z;
  heap_free : M → Z → M;
  blocks : M → gmap Z Z;
}.

Class AllocatorLaws (M : Type) `{!Allocator M} : Prop := {
  aligned_alloc_spec m a n m' p :
    0 < a → 0 <= n → aligned_alloc m a n = (m', p) →
    (p = 0 ∧ blocks m' = blocks m) ∨
    (0 < p ∧ (a | p) ∧ blocks m !! p = None ∧ blocks m' = <[p := n]> (blocks m));
  heap_free_spec m p : blocks (heap_free m p) = delete p (blocks m);
}.

(** [free(p)]: defined for [NULL] and for live blocks only. *)
Definition c_free {M} `{!Allocator M} (m : M) (p : Z) : res M :=
  if p =? 0 then Ok m
  else match blocks m !! p with
       | Some _ => Ok (heap_free m p)
       | None => Fail InvalidFree
       end.

(** [unordered_multimap::find]: the position of an element with the key, which
    one is unspecified. *)
Class MultimapFind (V : Type) := {
  mm_find : Z → list (Z * V) → option nat;
  mm_find_Some k l i : mm_find k l = Some i → ∃ v, l !! i = Some (k, v);
  mm_find_None k l : mm_find k l = None → ∀ v, (k, v) ∉ l;
}.

(** ** [byte_buffer_data] *)

Record byte_buffer_data := ByteBufferData {
  m_data : Z;
  m_len : Z;
  m_align_bit : Z;
}.

Definition key (d : byte_buffer_data) : Z :=
  u32 (Z.shiftl (Z.shiftr (m_len d) (m_align_bit d)) 8) ||| m_align_bit d.

(** ** [byte_buffer_impl] *)

Record byte_buffer_impl := ByteBufferImpl {
  m_d : byte_buffer_data;
  m_pool : bool;               (* the pool pointer is not null *)
  _header_len : Z;             (* uint16_t *)
  _data_begin : Z;             (* uint16_t *)
  _data_len : Z;               (* uint32_t *)
}.

Definition new_byte_buffer_impl (header_len : Z) (d : byte_buffer_data) : byte_buffer_impl :=
  ByteBufferImpl d true (u16 header_len) 0 0.

Definition base (b : byte_buffer_impl) : Z := m_data (m_d b).
Definition body (b : byte_buffer_impl) : Z := m_data (m_d b) + _header_len b.
Definition data (b : byte_buffer_impl) : Z := m_data (m_d b) + _data_begin b.

Definition set_data_offset (pos len : Z) (b : byte_buffer_impl) : byte_buffer_impl :=
  ByteBufferImpl (m_d b) (m_pool b) (_header_len b) (u16 pos) len.
Definition set_data_begin (pos : Z) (b : byte_buffer_impl) : byte_buffer_impl :=
  ByteBufferImpl (m_d b) (m_pool b) (_header_len b) (u16 pos) (_data_len b).
Definition set_data_len (len : Z) (b : byte_buffer_impl) : byte_buffer_impl :=
  ByteBufferImpl (m_d b) (m_pool b) (_header_len b) (_data_begin b) len.
Definition data_len (b : byte_buffer_impl) : Z := _data_len b.
Definition align (b : byte_buffer_impl) : Z := u32 (Z.shiftl 1 (m_align_bit (m_d b))).
Definition capacity (b : byte_buffer_impl) : Z := m_len (m_d b).
Definition body_off (b : byte_buffer_impl) : Z := _header_len b.

(** ** [buffer_pool] *)

Record buffer_pool := BufferPool {
  _limit_cache_bytes : Z;      (* size_t *)
  _cache_bytes : Z;            (* size_t *)
  _cache : list (Z * byte_buffer_data);
}.

(** The constructor takes a [uint32_t], [new_inst] a [size_t]. *)
Definition new_buffer_pool (limit_cache_bytes : Z) : buffer_pool :=
  BufferPool limit_cache_bytes 0 [].
Definition new_inst (limit_cache_bytes : Z) : buffer_pool :=
  new_buffer_pool (u32 limit_cache_bytes).

(** [check_cache] is empty. *)
Definition check_cache (p : buffer_pool) : buffer_pool := p.
Definition get_cached_bytes (p : buffer_pool) : Z := _cache_bytes p.

(** [(x + align - 1) & ~(align - 1)] on [uint32_t]. *)
Definition align_up (x align : Z) : Z :=
  u32 (x + align - 1) &&& u32 (Z.lnot (align - 1)).

(** The rounded header and body lengths [malloc] works with. *)
Definition malloc_sizes (body_len align_bit header_len : Z) : Z * Z :=
  let align := u32 (Z.shiftl 1 align_bit) in
  (align_up header_len align, align_up (align_up body_len align) 1024).

Definition malloc_key (total align_bit : Z) : Z :=
  u32 (Z.shiftl (Z.shiftr total align_bit) 8) ||| (align_bit &&& 255).

Section pool.
Context {M : Type} `{!Allocator M} `{!MultimapFind byte_buffer_data}.

Definition malloc (m : M) (p : buffer_pool) (body_len align_bit header_len : Z)
    : res (M * buffer_pool * byte_buffer_impl) :=
  require (align_bit <? 32) ShiftRange ≫= λ _,
  let align := u32 (Z.shiftl 1 align_bit) in
  let '(header_len, body_len) := malloc_sizes body_len align_bit header_len in
  let k := malloc_key (u32 (header_len + body_len)) align_bit in
  match mm_find k (_cache p) ≫= λ i, pair i <$> (_cache p !! i) with
  | Some (i, (_, d)) =>
      Ok (m,
          BufferPool (_limit_cache_bytes p) (u64 (_cache_bytes p - m_len d))
            (delete i (_cache p)),
          new_byte_buffer_impl header_len d)
  | None =>
      let '(m, ptr) := aligned_alloc m align (u32 (body_len + header_len)) in
      Ok (m, p,
          new_byte_buffer_impl header_len
            (ByteBufferData ptr (u32 (body_len + header_len)) align_bit))
  end.

Definition release (m : M) (p : buffer_pool) (d : byte_buffer_data) : res (M * buffer_pool) :=
  if u64 (_cache_bytes p + m_len d) <? _limit_cache_bytes p
  then m ← c_free m (m_data d); Ok (m, p)
  else Ok (m, BufferPool (_limit_cache_bytes p) (u64 (_cache_bytes p + m_len d))
                ((key d, d) :: _cache p)).

(** [~byte_buffer_impl] *)
Definition byte_buffer_destroy (m : M) (p : buffer_pool) (b : byte_buffer_impl)
    : res (M * buffer_pool) :=
  if m_pool b then release m p (m_d b) else Ok (m, p).

(** [~buffer_pool] *)
Fixpoint free_cache (m : M) (l : list (Z * byte_buffer_data)) : res M :=
  match l with
  | [] => Ok m
  | (_, d) :: l => m ← c_free m (m_data d); free_cache m l
  end.
Definition pool_destroy (m : M) (p : buffer_pool) : res M := free_cache m (_cache p).
End pool.

(** ** Arithmetic of [malloc] *)

Lemma align_bit_pow k : 0 <= k < 32 → u32 (Z.shiftl 1 k) = 2 ^ k.
Proof.
  intros. rewrite shiftl_1, u32_small; [done| |lia].
  pose proof (Z.pow_lt_mono_r 2 k 32). lia.
Qed.

Lemma align_up_spec x k :
  0 <= k < 32 → 0 <= x → round_up x (2 ^ k) < 2 ^ 32 →
  align_up x (2 ^ k) = round_up x (2 ^ k).
Proof.
  intros Hk Hx Hr. assert (0 < 2 ^ k) by lia.
  pose proof (round_up_room x (2 ^ k) (2 ^ 32) ltac:(done) (divide_pow2 k 32 ltac:(lia)) Hr).
  unfold align_up. rewrite u32_small by lia. rewrite land_u32_lnot_pow2 by lia. done.
Qed.

(** The lengths the caller asked for, rounded over the integers. *)
Definition header_of (align_bit header_len : Z) : Z := round_up header_len (2 ^ align_bit).
Definition body_of (align_bit body_len : Z) : Z :=
  round_up (round_up body_len (2 ^ align_bit)) 1024.
Definition total_of (body_len align_bit header_len : Z) : Z :=
  header_of align_bit header_len + body_of align_bit body_len.

(** The requests [malloc] serves without any 16- or 32-bit truncation: the
    header fits the [uint16_t] field and the size fits the key. *)
Definition request_ok (body_len align_bit header_len : Z) : Prop :=
  0 <= align_bit < 32 ∧ 0 <= body_len ∧ 0 <= header_len ∧
  header_of align_bit header_len < 2 ^ 16 ∧
  total_of body_len align_bit header_len < 2 ^ 32 ∧
  total_of body_len align_bit header_len < 2 ^ (24 + align_bit).

#[export] Instance request_ok_dec b k h : Decision (request_ok b k h).
Proof. unfold request_ok. apply _. Defined.

Lemma header_of_nonneg k h : 0 <= k → 0 <= h → 0 <= header_of k h.
Proof. intros. apply round_up_nonneg; lia. Qed.
Lemma body_of_nonneg k b : 0 <= k → 0 <= b → 0 <= body_of k b.
Proof. intros. apply round_up_nonneg; [lia|]. apply round_up_nonneg; lia. Qed.
Lemma body_of_ge k b : 0 <= k → b <= body_of k b.
Proof.
  intros. unfold body_of. pose proof (round_up_ge b (2 ^ k)).
  pose proof (round_up_ge (round_up b (2 ^ k)) 1024). lia.
Qed.

Lemma body_of_divide k b : 0 <= k → (2 ^ k | body_of k b).
Proof.
  intros Hk. unfold body_of. destruct (decide (k <= 10)).
  - transitivity 1024; [|apply round_up_divide]. change 1024 with (2 ^ 10).
    apply divide_pow2. lia.
  - rewrite round_up_id; [apply round_up_divide|lia|].
    transitivity (2 ^ k); [|apply round_up_divide].
    change 1024 with (2 ^ 10). apply divide_pow2. lia.
Qed.

Lemma total_of_divide b k h : 0 <= k → (2 ^ k | total_of b k h).
Proof. intros. apply Z.divide_add_r; [apply round_up_divide|by apply body_of_divide]. Qed.

Lemma malloc_sizes_spec b k h :
  request_ok b k h → malloc_sizes b k h = (header_of k h, body_of k b).
Proof.
  intros (Hk & Hb & Hh & Hh16 & Ht32 & _). unfold total_of in Ht32.
  pose proof (body_of_nonneg k b). pose proof (header_of_nonneg k h).
  pose proof (round_up_nonneg b (2 ^ k)). pose proof (round_up_ge (round_up b (2 ^ k)) 1024).
  unfold body_of, header_of in *. unfold malloc_sizes.
  rewrite align_bit_pow, !align_up_spec by lia.
  change 1024 with (2 ^ 10) in *. rewrite align_up_spec by lia. done.
Qed.

Lemma malloc_key_spec t k :
  0 <= k < 32 → 0 <= t < 2 ^ (24 + k) → malloc_key t k = t / 2 ^ k * 2 ^ 8 + k.
Proof.
  intros Hk Ht. unfold malloc_key. rewrite Z.shiftr_div_pow2 by lia.
  assert (0 <= t / 2 ^ k < 2 ^ 24) as Hq.
  { split; [apply Z.div_pos; lia|]. apply Z.div_lt_upper_bound; [lia|].
    rewrite <- Z.pow_add_r by lia. rewrite (Z.add_comm k). lia. }
  rewrite u32_small by (rewrite Z.shiftl_mul_pow2 by lia; lia).
  change 255 with (Z.ones 8). rewrite Z.land_ones, Z.mod_small by lia.
  apply lor_field; lia.
Qed.

(** The key [malloc] looks up is the key [release] stores. *)
Lemma key_malloc_key d : 0 <= m_align_bit d < 32 → key d = malloc_key (m_len d) (m_align_bit d).
Proof.
  intros. unfold key, malloc_key. change 255 with (Z.ones 8).
  by rewrite Z.land_ones, Z.mod_small by lia.
Qed.

(** A block whose length the key represents. *)
Definition data_ok (d : byte_buffer_data) : Prop :=
  0 <= m_align_bit d < 32 ∧ 0 <= m_data d ∧ (2 ^ m_align_bit d | m_data d) ∧
  (2 ^ m_align_bit d | m_len d) ∧ 0 <= m_len d < 2 ^ 32 ∧ m_len d < 2 ^ (24 + m_align_bit d).

(** On such blocks the key determines length and alignment. *)
Lemma key_inj d t k :
  data_ok d → 0 <= k < 32 → 0 <= t < 2 ^ (24 + k) → (2 ^ k | t) →
  key d = malloc_key t k → m_len d = t ∧ m_align_bit d = k.
Proof.
  intros (Ha & _ & _ & [q Hq] & Hl & Hl24) Hk Ht [r Hr].
  rewrite key_malloc_key, !malloc_key_spec by lia. intros E.
  rewrite Hq, Hr, !Z.div_mul in E by lia.
  assert (m_align_bit d = k) as Hak by lia. split; [|done].
  rewrite Hq, Hr, Hak. f_equal. lia.
Qed.

(** ** The pool with the buffers it has handed out *)

Section system.
Context {M : Type} `{!Allocator M} `{!AllocatorLaws M} `{!MultimapFind byte_buffer_data}.

Record pool_sys := PoolSys {
  sys_mem : M;
  sys_pool : buffer_pool;
  sys_owned : list byte_buffer_impl;
}.

(** What clients do with a pool: ask for a buffer, set the data window of
    one they hold, drop one (its destructor gives it back). *)
Inductive pool_op :=
  | OpMalloc (body_len align_bit header_len : Z)
  | OpWindow (i : nat) (pos len : Z)
  | OpDestroy (i : nat).

Definition sys_step (s : pool_sys) (op : pool_op) : res pool_sys :=
  match op with
  | OpMalloc b k h =>
      '(m, p, buf) ← malloc (sys_mem s) (sys_pool s) b k h;
      Ok (PoolSys m p (buf :: sys_owned s))
  | OpWindow i pos len =>
      Ok (PoolSys (sys_mem s) (sys_pool s) (alter (set_data_offset pos len) i (sys_owned s)))
  | OpDestroy i =>
      match sys_owned s !! i with
      | None => Ok s
      | Some b =>
          '(m, p) ← byte_buffer_destroy (sys_mem s) (sys_pool s) b;
          Ok (PoolSys m p (delete i (sys_owned s)))
      end
  end.

Fixpoint sys_run (s : pool_sys) (ops : list pool_op) : res pool_sys :=
  match ops with
  | [] => Ok s
  | op :: ops => s ← sys_step s op; sys_run s ops
  end.

Definition op_ok (op : pool_op) : Prop :=
  match op with OpMalloc b k h => request_ok b k h | _ => True end.

(** The heap block behind a buffer, if its allocation succeeded. *)
Definition block_of (d : byte_buffer_data) : option (Z * Z) :=
  if m_data d =? 0 then None else Some (m_data d, m_len d).

Definition cached_len (l : list (Z * byte_buffer_data)) : Z :=
  foldr (λ e acc, m_len e.2 + acc) 0 l.

Definition held (s : pool_sys) : list byte_buffer_data :=
  ((_cache (sys_pool s)).*2) ++ (m_d <$> sys_owned s).

(** Every live heap block is held by exactly one buffer or one cache entry,
    with its real size; cache entries sit under their own key; the byte
    counter is the sum of the cached lengths. *)
Record pool_inv (s : pool_sys) : Prop := {
  inv_cache : Forall (λ e, e.1 = key e.2 ∧ data_ok e.2) (_cache (sys_pool s));
  inv_owned : Forall (λ b, m_pool b = true ∧ data_ok (m_d b)) (sys_owned s);
  inv_bytes : _cache_bytes (sys_pool s) = u64 (cached_len (_cache (sys_pool s)));
  inv_blocks : map_to_list (blocks (sys_mem s)) ≡ₚ omap block_of (held s);
}.

#[local] Instance cached_len_perm : Proper (Permutation ==> eq) cached_len.
Proof. induction 1; simpl in *; lia. Qed.

Lemma pool_inv_perm m p o1 o2 :
  o1 ≡ₚ o2 → pool_inv (PoolSys m p o1) → pool_inv (PoolSys m p o2).
Proof.
  intros Hp [H1 H2 H3 H4]. split; simpl in *; [done|by rewrite <- Hp|done|].
  unfold held in *. simpl in *. by rewrite <- Hp.
Qed.

Lemma u64_sub_len d l : u64 (u64 (m_len d + l) - m_len d) = u64 l.
Proof. unfold u64. rewrite Zminus_mod_idemp_l. f_equal. lia. Qed.

(** Dropping a block that some buffer holds is a valid [free]. *)
Lemma c_free_held m d l :
  map_to_list (blocks m) ≡ₚ omap block_of (d :: l) → 0 <= m_data d →
  ∃ m', c_free m (m_data d) = Ok m' ∧ map_to_list (blocks m') ≡ₚ omap block_of l.
Proof.
  intros Hb Hd. unfold c_free. simpl in Hb. unfold block_of at 1 in Hb.
  destruct (m_data d =? 0) eqn:E; [by eauto|].
  assert (blocks m !! m_data d = Some (m_len d)) as Hl.
  { apply elem_of_map_to_list. rewrite Hb. left. }
  rewrite Hl. eexists. split; [done|]. rewrite heap_free_spec.
  apply (Permutation_cons_inv (a := (m_data d, m_len d))).
  by rewrite (map_to_list_delete _ _ _ Hl).
Qed.

Lemma malloc_data_ok b k h p :
  request_ok b k h → 0 <= p → (2 ^ k | p) →
  data_ok (ByteBufferData p (total_of b k h) k).
Proof.
  intros (Hk & Hb & Hh & Hh16 & Ht32 & Ht24) Hp Hdiv.
  pose proof (header_of_nonneg k h). pose proof (body_of_nonneg k b).
  pose proof (total_of_divide b k h ltac:(lia)).
  split_and!; simpl; unfold total_of in *; auto; lia.
Qed.

(** [malloc] on a request in range: a buffer of exactly the rounded size,
    from the cache or from a fresh block. *)
Lemma malloc_spec m p b k h :
  request_ok b k h → Forall (λ e, e.1 = key e.2 ∧ data_ok e.2) (_cache p) →
  ∃ m' p' d, malloc m p b k h = Ok (m', p', new_byte_buffer_impl (header_of k h) d) ∧
    data_ok d ∧ m_len d = total_of b k h ∧ m_align_bit d = k ∧
    _limit_cache_bytes p' = _limit_cache_bytes p ∧
    ((m' = m ∧ ∃ i, _cache p !! i = Some (key d, d) ∧ _cache p' = delete i (_cache p) ∧
      _cache_bytes p' = u64 (_cache_bytes p - m_len d)) ∨
     (p' = p ∧ (∀ d', (malloc_key (total_of b k h) k, d') ∉ _cache p) ∧
      (m_data d = 0 ∧ blocks m' = blocks m ∨
      0 < m_data d ∧ blocks m !! m_data d = None ∧
      blocks m' = <[m_data d := m_len d]> (blocks m)))).
Proof.
  intros Hr Hc. pose proof Hr as (Hk & Hb & Hh & Hh16 & Ht32 & Ht24).
  pose proof (header_of_nonneg k h). pose proof (body_of_nonneg k b).
  unfold malloc. rewrite (proj2 (Z.ltb_lt k 32)) by lia. cbn [require mbind res_bind].
  rewrite malloc_sizes_spec by done. rewrite align_bit_pow by lia.
  rewrite (Z.add_comm (body_of k b)). fold (total_of b k h).
  rewrite u32_small by (unfold total_of in *; lia).
  destruct (mm_find _ _) as [i|] eqn:Ef; cbn [mbind option_bind].
  - apply mm_find_Some in Ef as [d Hd]. rewrite Hd. simpl.
    pose proof (Forall_lookup_1 _ _ _ _ Hc Hd) as [Hkey Hok]. simpl in Hkey, Hok.
    symmetry in Hkey. apply key_inj in Hkey as Hlen;
      [|done|done|unfold total_of in *; lia|apply total_of_divide; lia].
    destruct Hlen as [Hlen Hal]. eexists m, _, d. split; [done|]. simpl.
    split_and!; try done. left. split; [done|]. exists i. by rewrite Hd, Hkey.
  - destruct (aligned_alloc m (2 ^ k) (total_of b k h)) as [m' ptr] eqn:Ea.
    apply aligned_alloc_spec in Ea; [|lia|unfold total_of in *; lia].
    eexists m', p, _. split; [done|]. simpl. pose proof (mm_find_None _ _ Ef) as Hmiss.
    destruct Ea as [[-> ?]|(? & ? & ? & ?)].
    + split_and!; [|by eauto 10..]. apply malloc_data_ok; [done|lia|apply Z.divide_0_r].
    + split_and!; [|by eauto 10..]. apply malloc_data_ok; [done|lia|done].
Qed.

Lemma release_inv s i b :
  pool_inv s → sys_owned s !! i = Some b →
  ∃ m p, byte_buffer_destroy (sys_mem s) (sys_pool s) b = Ok (m, p) ∧
    pool_inv (PoolSys m p (delete i (sys_owned s))).
Proof.
  intros [Hc Ho Hb Hblk] Hi.
  pose proof (Forall_lookup_1 _ _ _ _ Ho Hi) as [Hpool Hd].
  assert (held s ≡ₚ m_d b :: (_cache (sys_pool s)).*2 ++ (m_d <$> delete i (sys_owned s)))
    as Hheld.
  { unfold held. rewrite (delete_Permutation _ _ _ Hi) at 1. simpl.
    by rewrite Permutation_middle. }
  rewrite Hheld in Hblk. unfold byte_buffer_destroy, release. rewrite Hpool.
  case_cond.
  - destruct (c_free_held _ _ _ Hblk) as (m' & -> & Hblk'); [apply Hd|].
    eexists _, _. split; [done|]. by split; [|apply Forall_delete|..].
  - eexists _, _. split; [done|]. split; simpl; [by constructor|by apply Forall_delete| |done].
    rewrite Hb. unfold u64. rewrite Zplus_mod_idemp_l. f_equal. lia.
Qed.

Lemma sys_step_inv s op :
  pool_inv s → op_ok op → ∃ s', sys_step s op = Ok s' ∧ pool_inv s'.
Proof.
  intros Hinv Hop. destruct op as [b k h|i pos len|i]; simpl in *.
  - destruct Hinv as [Hc Ho Hb Hblk].
    destruct (malloc_spec (sys_mem s) (sys_pool s) b k h Hop Hc)
      as (m' & p' & d & -> & Hd & Hlen & Hal & Hlim & Hcase).
    eexists. split; [done|]. destruct Hcase as [(-> & i & Hi & Hp' & Hb')|(-> & _ & Hm)].
    + assert (_cache (sys_pool s) ≡ₚ (key d, d) :: _cache p') as Hperm.
      { rewrite Hp'. by apply delete_Permutation. }
      split; simpl; [rewrite Hp'; by apply Forall_delete|by constructor| |].
      * rewrite Hb', Hb, Hperm. apply u64_sub_len.
      * rewrite Hblk. unfold held. simpl. rewrite Hperm. simpl.
        by rewrite <- Permutation_middle.
    + split; simpl; [done|by constructor|done|]. unfold held. simpl.
      rewrite <- Permutation_middle. simpl. unfold block_of at 1.
      destruct Hm as [[-> ->]|(Hpos & Hfresh & ->)]; [done|].
      rewrite (proj2 (Z.eqb_neq _ _)) by lia.
      by rewrite map_to_list_insert, Hblk.
  - eexists. split; [done|]. destruct Hinv as [Hc Ho Hb Hblk].
    split; simpl; [done| |done|].
    + by apply Forall_alter.
    + unfold held in *. simpl.
      rewrite (list_fmap_alter _ _ id) by (apply Forall_forall; done).
      by rewrite list_alter_id.
  - destruct (sys_owned s !! i) as [b|] eqn:Hi; [|by eauto].
    destruct (release_inv s i b Hinv Hi) as (m & p & -> & ?). eauto.
Qed.

Lemma pool_inv_init m limit : blocks m = ∅ → pool_inv (PoolSys m (new_inst limit) []).
Proof. intros E. split; simpl; [done..|]. by rewrite E, map_to_list_empty. Qed.

Lemma sys_run_inv s ops :
  pool_inv s → Forall op_ok ops → ∃ s', sys_run s ops = Ok s' ∧ pool_inv s'.
Proof.
  intros Hinv Hops. revert s Hinv. induction Hops as [|op ops Hop _ IH]; intros s Hinv.
  { eauto. }
  destruct (sys_step_inv s op Hinv Hop) as (s1 & E & Hinv1).
  destruct (IH s1 Hinv1) as (s2 & E2 & Hinv2). exists s2. simpl. by rewrite E.
Qed.

Lemma free_cache_ok m l :
  Forall (λ e, e.1 = key e.2 ∧ data_ok e.2) l → map_to_list (blocks m) ≡ₚ omap block_of l.*2 →
  ∃ m', free_cache m l = Ok m' ∧ blocks m' = ∅.
Proof.
  intros Hl. revert m. induction Hl as [|[k d] l [_ Hd] _ IH]; intros m Hb.
  - exists m. split; [done|]. by apply map_to_list_empty_iff, Permutation_nil_r.
  - destruct (c_free_held m d l.*2 Hb) as (m' & E & Hb'); [apply Hd|].
    destruct (IH m' Hb') as (m'' & E' & ?). exists m''. simpl. by rewrite E.
Qed.
End system.

(** ** Executable instances *)

(** A heap that places every block above all live ones. *)
Definition heap_top (m : gmap Z Z) : Z := map_fold (λ p n acc, Z.max (Z.max p (p + n)) acc) 0 m.

#[export] Instance gmap_allocator : Allocator (gmap Z Z) := {
  aligned_alloc m a n :=
    let p := round_up (heap_top m + 1) a in (<[p := n]> m, p);
  heap_free m p := delete p m;
  blocks m := m;
}.

Lemma heap_top_spec m : 0 <= heap_top m ∧ ∀ p n, m !! p = Some n → p <= heap_top m.
Proof.
  unfold heap_top.
  apply (map_fold_weak_ind (λ acc m, 0 <= acc ∧ ∀ p n, m !! p = Some n → p <= acc)).
  - split; [done|]. intros p n Hp. by rewrite lookup_empty in Hp.
  - intros i x m' r Hi [IH0 IH]. split; [lia|]. intros p n.
    rewrite lookup_insert_Some. intros [[-> ->]|[_ Hp]]; [lia|]. specialize (IH p n Hp). lia.
Qed.

#[export] Instance gmap_allocator_laws : AllocatorLaws (gmap Z Z).
Proof.
  split; [|done]. intros m a n m' p Ha Hn [= <- <-]. right. cbn [blocks gmap_allocator].
  pose proof (round_up_ge (heap_top m + 1) a Ha). destruct (heap_top_spec m) as [H0 Htop].
  split_and!; [lia|apply round_up_divide| |done].
  apply eq_None_not_Some. intros [x Hx]. apply Htop in Hx. lia.
Qed.

Fixpoint first_key {V} (k : Z) (l : list (Z * V)) : option nat :=
  match l with
  | [] => None
  | (k', _) :: l => if k =? k' then Some O else S <$> first_key k l
  end.

#[export] Instance first_key_find V : MultimapFind V.
Proof.
  refine {| mm_find := first_key |}.
  - intros k l. induction l as [|[k' v] l IH]; intros i; simpl; [done|].
    destruct (k =? k') eqn:E; bool_prop.
    + intros [= <-]. subst. eauto.
    + intros (j & Hj & ->)%fmap_Some. destruct (IH j Hj) as [w Hw]. eauto.
  - intros k l. induction l as [|[k' v] l IH]; simpl; [by intros _ v ?%elem_of_nil|].
    destruct (k =? k') eqn:E; bool_prop; [done|].
    intros Hf%fmap_None w [[= ?]|]%elem_of_cons; [done|]. by eapply IH.
Defined.

(** ** Properties *)

Section properties.
Context {M : Type} `{!Allocator M} `{!AllocatorLaws M} `{!MultimapFind byte_buffer_data}.

(** C9. The contract of [byte_buffer_pool::malloc] (the comment in
    [byte_buffer.h]): for a request in range, whatever the cache holds, the
    call succeeds; the body starts at a multiple of [1 << align_bit] (as does
    the base), at least [header_len] bytes lie before it, at least [body_len]
    bytes after it, the capacity is the rounded total, and the data window is
    empty. *)
Theorem malloc_contract (m : M) (p : buffer_pool) (body_len align_bit header_len : Z)
  (Hreq : request_ok body_len align_bit header_len)
  (Hcache : Forall (λ e, e.1 = key e.2 ∧ data_ok e.2) (_cache p)) :
  ∃ m' p' b, malloc m p body_len align_bit header_len = Ok (m', p', b) ∧
    (2 ^ align_bit | base b) ∧ (2 ^ align_bit | body b) ∧
    header_len <= body_off b ∧ body_len <= capacity b - body_off b ∧
    capacity b = total_of body_len align_bit header_len ∧
    align b = 2 ^ align_bit ∧ data b = base b ∧ data_len b = 0.
Proof.
  destruct (malloc_spec m p _ _ _ Hreq Hcache)
    as (m' & p' & d & E & (Ha & Hd0 & Hdd & _) & Hlen & Hal & _).
  destruct Hreq as (Hk & Hb & Hh & Hh16 & _). subst align_bit.
  pose proof (header_of_nonneg (m_align_bit d) header_len).
  assert (u16 (header_of (m_align_bit d) header_len) = header_of (m_align_bit d) header_len)
    as Hu by (apply u16_small; lia).
  eexists m', p', _. split; [exact E|].
  unfold base, body, body_off, capacity, align, data, data_len. simpl. rewrite Hu, Hlen.
  pose proof (body_of_ge (m_align_bit d) body_len).
  unfold total_of. split_and!; try done; try lia.
  - by apply Z.divide_add_r, round_up_divide.
  - unfold header_of. apply round_up_ge. lia.
  - rewrite align_bit_pow by lia. done.
Qed.

(** C8. Memory safety of the pool: starting from a fresh pool and an empty
    heap, every sequence of in-range requests, data-window updates and buffer
    destructions runs without fault (in particular without a double or invalid
    [free]) and ends in a state where every live heap block is held by exactly
    one buffer or cache entry, every cache entry is under its own key, and
    [get_cached_bytes] is the sum of the cached lengths. *)
Theorem pool_run_safe (m : M) (limit : Z) (ops : list pool_op)
  (Hm : blocks m = ∅) (Hops : Forall op_ok ops) :
  ∃ s, sys_run (PoolSys m (new_inst limit) []) ops = Ok s ∧ pool_inv s.
Proof. apply sys_run_inv; [by apply pool_inv_init|done]. Qed.

(** C31. No leak: after any such sequence in which all buffers were destroyed,
    the pool's destructor frees exactly the blocks that are still live. *)
Theorem pool_destroy_no_leak (m : M) (limit : Z) (ops : list pool_op) (s : pool_sys)
  (Hm : blocks m = ∅) (Hops : Forall op_ok ops)
  (Hrun : sys_run (PoolSys m (new_inst limit) []) ops = Ok s)
  (Hnone : sys_owned s = []) :
  ∃ m', pool_destroy (sys_mem s) (sys_pool s) = Ok m' ∧ blocks m' = ∅.
Proof.
  destruct (sys_run_inv _ ops (pool_inv_init m limit Hm) Hops) as (s' & E & [Hc _ _ Hb]).
  rewrite Hrun in E. injection E as <-. apply free_cache_ok; [done|].
  rewrite Hb. unfold held. by rewrite Hnone, app_nil_r.
Qed.

(** A kept block is reused: when destroying a buffer puts its block in the
    cache, an identical request is then served from the cache.  Nothing is
    allocated, and the cache counter is back where it was. *)
Theorem malloc_reuses_released (m : M) (p : buffer_pool) (b : byte_buffer_impl)
  (body_len align_bit header_len : Z)
  (Hreq : request_ok body_len align_bit header_len)
  (Hcache : Forall (λ e, e.1 = key e.2 ∧ data_ok e.2) (_cache p))
  (Hbytes : 0 <= _cache_bytes p < 2 ^ 64)
  (Hown : m_pool b = true) (Hd : data_ok (m_d b))
  (Hlen : capacity b = total_of body_len align_bit header_len)
  (Hal : m_align_bit (m_d b) = align_bit)
  (Hkeep : _limit_cache_bytes p <= u64 (_cache_bytes p + capacity b)) :
  ∃ p1 p2 b', byte_buffer_destroy m p b = Ok (m, p1) ∧
    malloc m p1 body_len align_bit header_len = Ok (m, p2, b') ∧
    capacity b' = capacity b ∧ get_cached_bytes p2 = get_cached_bytes p ∧
    length (_cache p2) = length (_cache p).
Proof.
  unfold byte_buffer_destroy, release, capacity, get_cached_bytes in *. rewrite Hown.
  rewrite (proj2 (Z.ltb_ge _ _)) by lia.
  set (p1 := BufferPool _ _ _). exists p1.
  destruct (malloc_spec m p1 _ _ _ Hreq) as (m' & p2 & d & E & Hd' & Hl' & Ha' & _ & Hcase).
  { by constructor. }
  eexists p2, _. split; [done|].
  assert (key (m_d b) = key d) as Hkd.
  { rewrite !key_malloc_key by (apply Hd || apply Hd'). by rewrite Hlen, Hal, Hl', Ha'. }
  destruct Hcase as [(-> & i & Hi & Hc2 & Hb2)|(-> & Hmiss & _)].
  - split; [exact E|]. simpl. split_and!; [congruence| |].
    + rewrite Hb2, Hl', <- Hlen. simpl. by apply u64_sub_add.
    + rewrite Hc2, length_delete by eauto. simpl. lia.
  - exfalso. apply (Hmiss (m_d b)). rewrite <- Hl', <- Ha' at 1.
    rewrite <- key_malloc_key, <- Hkd by apply Hd'. left.
Qed.

(** States in which all blocks are below the limit and nothing is cached. *)
Record small_state (limit : Z) (s : pool_sys (M := M)) : Prop := {
  small_cache : _cache (sys_pool s) = [];
  small_bytes : _cache_bytes (sys_pool s) = 0;
  small_limit : _limit_cache_bytes (sys_pool s) = u32 limit;
  small_owned : Forall (λ b, capacity b < u32 limit) (sys_owned s);
  small_inv : pool_inv s;
}.

Definition small_op (limit : Z) (op : pool_op) : Prop :=
  match op with
  | OpMalloc b k h => request_ok b k h ∧ total_of b k h < u32 limit
  | _ => True
  end.

Lemma small_op_ok limit op : small_op limit op → op_ok op.
Proof. destruct op; simpl; tauto. Qed.

Lemma small_step limit s op s' :
  small_state limit s → small_op limit op → sys_step s op = Ok s' → small_state limit s'.
Proof.
  intros [Hc Hb Hl Ho Hinv] Hop E.
  destruct (sys_step_inv s op Hinv (small_op_ok _ _ Hop)) as (s1 & E1 & Hinv1).
  rewrite E in E1. injection E1 as <-.
  destruct op as [b k h|i pos len|i]; cbn [sys_step] in E.
  - destruct Hop as [Hreq Htot].
    destruct (malloc_spec (sys_mem s) (sys_pool s) b k h Hreq (inv_cache _ Hinv))
      as (m' & p' & d & Em & Hd & Hlen & _ & Hlim & Hcase).
    rewrite Em in E. injection E as <-.
    destruct Hcase as [(-> & i & Hi & _)|(-> & _)]; [by rewrite Hc in Hi|].
    split; simpl; auto. constructor; [unfold capacity; simpl; lia|done].
  - injection E as <-. split; simpl; auto. by apply Forall_alter.
  - destruct (sys_owned s !! i) as [b|] eqn:Hi; [|by injection E as <-].
    pose proof (Forall_lookup_1 _ _ _ _ Ho Hi) as Hbl. unfold capacity in Hbl. simpl in Hbl.
    destruct (Forall_lookup_1 _ _ _ _ (inv_owned _ Hinv) Hi) as [Hp (_ & _ & _ & _ & Hr & _)].
    unfold byte_buffer_destroy, release in E. rewrite Hp, Hb, Hl in E.
    rewrite u64_small in E by lia. rewrite (proj2 (Z.ltb_lt _ _)) in E by lia.
    destruct (c_free _ _); [|done]. injection E as <-. split; simpl; auto. by apply Forall_delete.
Qed.

Lemma small_run limit ops s s' :
  Forall (small_op limit) ops → sys_run s ops = Ok s' →
  small_state limit s → small_state limit s'.
Proof.
  intros Hops. revert s. induction Hops as [|op ops Hop _ IH]; intros s E Hs.
  { by injection E as <-. }
  simpl in E. destruct (sys_step s op) eqn:Es; [|done]. eapply IH; [exact E|].
  by eapply small_step.
Qed.

(** The limit works the wrong way round: with only buffers smaller than
    the limit, the cache stays empty forever, so every release frees and every
    request allocates; and whenever a release does keep a block, the cached
    bytes are at or above the limit. *)
Theorem release_keeps_only_over_limit (m : M) (limit : Z) (ops : list pool_op) (s : pool_sys)
  (Hm : blocks m = ∅)
  (Hops : Forall (small_op limit) ops)
  (Hrun : sys_run (PoolSys m (new_inst limit) []) ops = Ok s) :
  _cache (sys_pool s) = [] ∧ get_cached_bytes (sys_pool s) = 0 ∧
  (∀ m1 p d m2 p2, release (M := M) m1 p d = Ok (m2, p2) → p2 = p ∨
     _limit_cache_bytes p2 <= get_cached_bytes p2).
Proof.
  destruct (small_run _ _ _ _ Hops Hrun) as [Hc Hb _ _ _].
  { split; simpl; auto. by apply pool_inv_init. }
  split_and!; [done..|]. intros m1 p d m2 p2. unfold release. case_cond; bool_prop.
  - intros ?. res_inv. simplify_eq. auto.
  - intros [= <- <-]. auto.
Qed.
End properties.

(** Two sizes that differ by a multiple of [2^(24 + align_bit)] share a
    key: a pool with the default 32 MiB limit that has kept a 1 KiB block hands
    it out for a request of 1 GiB + 1 KiB, so the buffer is a million times
    smaller than asked for. *)
Theorem malloc_key_collision :
  ∃ s m' p' b,
    sys_run (PoolSys (∅ : gmap Z Z) (new_inst (Z.shiftl 32 20)) [])
      [OpMalloc (2 ^ 25) 6 0; OpDestroy 0; OpMalloc 1000 6 0; OpDestroy 0] = Ok s ∧
    malloc (sys_mem s) (sys_pool s) (2 ^ 30 + 1024) 6 0 = Ok (m', p', b) ∧
    capacity b = 1024.
Proof. eexists _, _, _, _. split; [vm_compute; reflexivity|]. split; vm_compute; reflexivity. Qed.

(** ** Members within their C++ types *)

Section types.
Context {M : Type} `{!Allocator M} `{!MultimapFind byte_buffer_data}.

Record data_typed (d : byte_buffer_data) : Prop := {
  ty_len : 0 <= m_len d < 2 ^ 32;
  ty_align : 0 <= m_align_bit d < 32;
}.
Record buffer_typed (b : byte_buffer_impl) : Prop := {
  ty_d : data_typed (m_d b);
  ty_header : 0 <= _header_len b < 2 ^ 16;
  ty_begin : 0 <= _data_begin b < 2 ^ 16;
  ty_dlen : 0 <= _data_len b < 2 ^ 32;
}.
Record pool_typed (p : buffer_pool) : Prop := {
  ty_limit : 0 <= _limit_cache_bytes p < 2 ^ 64;
  ty_bytes : 0 <= _cache_bytes p < 2 ^ 64;
  ty_cache : Forall (λ e, 0 <= e.1 < 2 ^ 32 ∧ data_typed e.2) (_cache p);
}.
Record sys_typed (s : pool_sys (M := M)) : Prop := {
  ty_pool : pool_typed (sys_pool s);
  ty_owned : Forall buffer_typed (sys_owned s);
}.

(** Arguments of the types the interface declares. *)
Definition op_typed (op : pool_op) : Prop :=
  match op with
  | OpMalloc b k h => 0 <= b < 2 ^ 32 ∧ 0 <= k < 2 ^ 32 ∧ 0 <= h < 2 ^ 32
  | OpWindow _ pos len => 0 <= pos < 2 ^ 32 ∧ 0 <= len < 2 ^ 32
  | OpDestroy _ => True
  end.

Lemma key_typed d : data_typed d → 0 <= key d < 2 ^ 32.
Proof. intros [_ Ha]. apply lor_range; [lia|apply u32_range|lia]. Qed.

Lemma malloc_typed m p b k h m' p' buf :
  pool_typed p → 0 <= k → malloc (M := M) m p b k h = Ok (m', p', buf) →
  pool_typed p' ∧ buffer_typed buf.
Proof.
  intros [Hl Hb Hc] Hk. unfold malloc. destruct (k <? 32) eqn:Ck; [|done]. bool_prop.
  cbn [require mbind res_bind]. destruct (malloc_sizes b k h) as [hl bl].
  destruct (mm_find _ _) as [i|] eqn:Ef; cbn [mbind option_bind].
  - apply mm_find_Some in Ef as [d Hd]. rewrite Hd. simpl. intros [= <- <- <-].
    pose proof (Forall_lookup_1 _ _ _ _ Hc Hd) as [_ Hdt].
    split; split; simpl; auto; [apply u64_range|by apply Forall_delete|apply u16_range|lia|lia].
  - destruct (aligned_alloc _ _ _) as [m1 ptr]. intros [= <- <- <-]. split; [done|].
    split; simpl; [|apply u16_range|lia|lia]. split; simpl; [apply u32_range|lia].
Qed.

Lemma release_typed m p d m' p' :
  pool_typed p → data_typed d → release (M := M) m p d = Ok (m', p') → pool_typed p'.
Proof.
  intros [Hl Hb Hc] Hd. unfold release. case_cond; intros E; res_inv; subst; split; simpl; auto.
  - apply u64_range.
  - constructor; [|done]. split; [by apply key_typed|done].
Qed.

Lemma sys_step_typed s op s' :
  sys_typed s → op_typed op → sys_step s op = Ok s' → sys_typed s'.
Proof.
  intros [Hp Ho] Hop E. destruct op as [b k h|i pos len|i]; simpl in *.
  - res_inv. destruct a as [[m1 p1] buf]. res_inv. subst s'.
    apply malloc_typed in E0 as [? ?]; [|done|lia]. split; simpl; [done|by constructor].
  - res_inv. subst s'. split; simpl; [done|]. apply Forall_alter; [done|].
    intros x _ Hx. destruct Hop as [_ Hlen]. destruct Hx. split; simpl; auto. apply u16_range.
  - destruct (sys_owned s !! i) as [b|] eqn:Hi; res_inv; [|by subst].
    destruct a as [m1 p1]. res_inv. subst s'. pose proof (Forall_lookup_1 _ _ _ _ Ho Hi) as [Hd _ _ _].
    split; simpl; [|by apply Forall_delete]. unfold byte_buffer_destroy in E0.
    destruct (m_pool b); [by eapply release_typed|]. by injection E0 as _ <-.
Qed.

(** Every member keeps to its C++ type: whatever 32-bit arguments clients
    pass, in range or not, after any sequence of operations that returns the block
    lengths are 32-bit, header length and data offset 16-bit, data lengths 32-bit,
    cache keys 32-bit and the pool's counters 64-bit values, and every alignment
    exponent is one the shifts are defined for. *)
Theorem pool_members_typed (m : M) (limit : Z) (ops : list pool_op) (s : pool_sys)
  (Hops : Forall op_typed ops) (Hrun : sys_run (PoolSys m (new_inst limit) []) ops = Ok s) :
  sys_typed s.
Proof.
  assert (∀ s0, sys_typed s0 → sys_run s0 ops = Ok s → sys_typed s) as Hgen.
  { clear Hrun. induction Hops as [|op ops Hop _ IH]; intros s0 H0 E; simpl in E; res_inv; [by subst|].
    eapply IH; [|done]. by eapply sys_step_typed. }
  eapply Hgen; [|done]. split; simpl; [|constructor]. split; simpl; [|lia|constructor].
  pose proof (u32_range limit). lia.
Qed.
End types.

(** ** Witnesses *)

Lemma pool_members_typed_witness :
  ∃ s, sys_run (PoolSys (∅ : gmap Z Z) (new_inst 0) [])
         [OpMalloc (2 ^ 32 - 1) 6 70000; OpWindow 0 70000 9; OpDestroy 0] = Ok s ∧ sys_typed s.
Proof.
  eexists. split; [vm_compute; reflexivity|].
  apply (pool_members_typed (∅ : gmap Z Z) 0
    [OpMalloc (2 ^ 32 - 1) 6 70000; OpWindow 0 70000 9; OpDestroy 0]).
  - repeat (apply Forall_cons; split; [simpl; repeat split; lia|]). by apply Forall_nil.
  - vm_compute. reflexivity.
Defined.

Definition demo_ops : list pool_op :=
  [OpMalloc 1000 6 4; OpMalloc (2 ^ 25) 12 0; OpWindow 1 60 1004; OpDestroy 0; OpDestroy 0].

Lemma demo_ops_ok : Forall op_ok demo_ops.
Proof. repeat constructor; apply (bool_decide_unpack _); vm_compute; exact I. Qed.

Lemma malloc_contract_witness :
  ∃ m' p' b, malloc (∅ : gmap Z Z) (new_inst (Z.shiftl 32 20)) 1000 6 4 = Ok (m', p', b) ∧
    (2 ^ 6 | base b) ∧ (2 ^ 6 | body b) ∧
    4 <= body_off b ∧ 1000 <= capacity b - body_off b ∧
    capacity b = total_of 1000 6 4 ∧
    align b = 2 ^ 6 ∧ data b = base b ∧ data_len b = 0.
Proof.
  apply (malloc_contract (∅ : gmap Z Z) (new_inst (Z.shiftl 32 20)) 1000 6 4).
  - apply (bool_decide_unpack _). vm_compute. exact I.
  - constructor.
Defined.

Lemma pool_run_safe_witness :
  ∃ s, sys_run (PoolSys (∅ : gmap Z Z) (new_inst (Z.shiftl 32 20)) []) demo_ops = Ok s ∧ pool_inv s.
Proof.
  apply (pool_run_safe (∅ : gmap Z Z) (Z.shiftl 32 20) demo_ops).
  - reflexivity.
  - exact demo_ops_ok.
Defined.

Lemma pool_destroy_no_leak_witness :
  ∃ s, sys_run (PoolSys (∅ : gmap Z Z) (new_inst (Z.shiftl 32 20)) []) demo_ops = Ok s ∧
  ∃ m', pool_destroy (sys_mem s) (sys_pool s) = Ok m' ∧ blocks m' = ∅.
Proof.
  eexists. split; [vm_compute; reflexivity|].
  eapply (pool_destroy_no_leak (∅ : gmap Z Z) (Z.shiftl 32 20) demo_ops).
  - reflexivity.
  - exact demo_ops_ok.
  - vm_compute. reflexivity.
  - vm_compute. reflexivity.
Defined.

Lemma malloc_reuses_released_witness :
  let b := new_byte_buffer_impl 64 (ByteBufferData 4096 1088 6) in
  let p := BufferPool 500 0 [] in
  ∃ p1 p2 b', byte_buffer_destroy (∅ : gmap Z Z) p b = Ok (∅, p1) ∧
    malloc (∅ : gmap Z Z) p1 1000 6 4 = Ok (∅, p2, b') ∧
    capacity b' = capacity b ∧ get_cached_bytes p2 = get_cached_bytes p ∧
    length (_cache p2) = length (_cache p).
Proof.
  apply (malloc_reuses_released (∅ : gmap Z Z)).
  - apply (bool_decide_unpack _). vm_compute. exact I.
  - constructor.
  - vm_compute. split; [discriminate|reflexivity].
  - reflexivity.
  - apply (malloc_data_ok 1000 6 4 4096); [apply (bool_decide_unpack _); vm_compute; exact I|lia|].
    by exists 64.
  - vm_compute. reflexivity.
  - reflexivity.
  - vm_compute. discriminate.
Defined.

Lemma release_keeps_only_over_limit_witness :
  ∃ s, sys_run (PoolSys (∅ : gmap Z Z) (new_inst (Z.shiftl 32 20)) [])
         [OpMalloc 1000 6 4; OpDestroy 0; OpMalloc 70000 12 0] = Ok s ∧
  _cache (sys_pool s) = [] ∧ get_cached_bytes (sys_pool s) = 0 ∧
  (∀ m1 p d m2 p2, release (M := gmap Z Z) m1 p d = Ok (m2, p2) → p2 = p ∨
     _limit_cache_bytes p2 <= get_cached_bytes p2).
Proof.
  eexists. split; [vm_compute; reflexivity|].
  eapply (release_keeps_only_over_limit (∅ : gmap Z Z) (Z.shiftl 32 20)
    [OpMalloc 1000 6 4; OpDestroy 0; OpMalloc 70000 12 0]).
  - reflexivity.
  - repeat constructor; apply (bool_decide_unpack _); vm_compute; exact I.
  - vm_compute. reflexivity.
Defined.
