(* ===== verification/BufferIface.v ===== *)
(** * The buffer interface ([coio/byte_buffer.h])

    The rest of the library sees buffers and their pool through two abstract
    classes.  [byte_buffer] and [byte_buffer_pool] are those classes, their laws are
    what the picture and the comment in the header say; [byte_buffer_impl] and
    [buffer_pool] are instances.  The layout of a request buffer, as [recv_request]
    computes it, is proved against the interface. *)

From S2P Require Import Prelude ByteBuffer.

(** ** Buffers *)

Class byte_buffer (B : Type) := {
  v_base : B → Z;
  v_body : B → Z;
  v_data : B → Z;
  v_set_data_offset : Z → Z → B → B;
  v_set_data_begin : Z → B → B;
  v_set_data_len : Z → B → B;
  v_data_len : B → Z;
  v_align : B → Z;
  v_capacity : B → Z;
  v_body_off : B → Z;
}.

(** Two buffers are views of the same block with the same header. *)
Definition same_block {B} `{!byte_buffer B} (b b' : B) : Prop :=
  v_base b' = v_base b ∧ v_body b' = v_body b ∧ v_align b' = v_align b ∧
  v_capacity b' = v_capacity b ∧ v_body_off b' = v_body_off b.

#[export] Instance same_block_preorder {B} `{!byte_buffer B} : PreOrder (same_block (B := B)).
Proof. split; [by intros b|]. unfold same_block.
  intros b1 b2 b3 (? & ? & ? & ? & ?) (? & ? & ? & ? & ?). split_and!; congruence.
Qed.

(** The data window is where it is put (its offset is kept in 16 bits), and moving
    it changes nothing else. *)
Class ByteBufferLaws (B : Type) `{!byte_buffer B} : Prop := {
  law_body b : v_body b = v_base b + v_body_off b;
  law_offset b pos len : 0 <= pos < 2 ^ 16 →
    let b' := v_set_data_offset pos len b in
    same_block b b' ∧ v_data b' = v_base b + pos ∧ v_data_len b' = len;
  law_begin b pos : 0 <= pos < 2 ^ 16 →
    let b' := v_set_data_begin pos b in
    same_block b b' ∧ v_data b' = v_base b + pos ∧ v_data_len b' = v_data_len b;
  law_len b len :
    let b' := v_set_data_len len b in
    same_block b b' ∧ v_data b' = v_data b ∧ v_data_len b' = len;
}.

#[export] Instance byte_buffer_impl_ops : byte_buffer byte_buffer_impl := {
  v_base := base; v_body := body; v_data := data;
  v_set_data_offset := set_data_offset; v_set_data_begin := set_data_begin;
  v_set_data_len := set_data_len; v_data_len := data_len; v_align := align;
  v_capacity := capacity; v_body_off := body_off;
}.

#[export] Instance byte_buffer_impl_laws : ByteBufferLaws byte_buffer_impl.
Proof.
  split; [done|..]; intros b pos; intros; (split; [done|]); simpl;
    unfold data, base; simpl; rewrite ?u16_small by lia; done.
Qed.

(** ** Pools *)

(** [P] is the pool with the heap it works on. *)
Class byte_buffer_pool (P B : Type) := {
  v_malloc : P → Z → Z → Z → res (P * B);
  v_get_cached_bytes : P → Z;
  v_check_cache : P → P;
}.

(** The comment on [malloc], for the requests [in_range] and the pools [ok]. *)
Class PoolLaws (P B : Type) `{!byte_buffer B} `{!byte_buffer_pool P B}
    (ok : P → Prop) (in_range : Z → Z → Z → Prop) : Prop := {
  law_malloc p body_len align_bit header_len :
    ok p → in_range body_len align_bit header_len →
    ∃ p' b, v_malloc p body_len align_bit header_len = Ok (p', b) ∧
      (2 ^ align_bit | v_base b) ∧ (2 ^ align_bit | v_body b) ∧
      header_len <= v_body_off b < 2 ^ 16 ∧ body_len <= v_capacity b - v_body_off b;
  law_check p : v_check_cache p = p;
}.

#[export] Instance buffer_pool_ops {M} `{!Allocator M} `{!MultimapFind byte_buffer_data}
  : byte_buffer_pool (M * buffer_pool) byte_buffer_impl := {
  v_malloc p body_len align_bit header_len :=
    '(m, p, b) ← malloc p.1 p.2 body_len align_bit header_len; Ok ((m, p), b);
  v_get_cached_bytes p := get_cached_bytes p.2;
  v_check_cache p := (p.1, check_cache p.2);
}.

#[export] Instance buffer_pool_laws {M} `{!Allocator M} `{!AllocatorLaws M}
  `{!MultimapFind byte_buffer_data} :
  PoolLaws (M * buffer_pool) byte_buffer_impl
    (λ p, Forall (λ e, e.1 = key e.2 ∧ data_ok e.2) (_cache p.2)) request_ok.
Proof.
  split; [|by intros [m p]]. intros [m p] b k h Hc Hr. simpl in Hc.
  destruct (malloc_spec m p _ _ _ Hr Hc) as (m' & p' & d & E & (_ & _ & Hd & _) & Hlen & Hal & _).
  destruct Hr as (Hk & Hb & Hh & Hh16 & _). pose proof (header_of_nonneg k h).
  simpl. rewrite E. cbn [mbind res_bind]. eexists _, _. split; [done|].
  unfold base, body, body_off, capacity. simpl. rewrite u16_small by lia. rewrite Hal in Hd.
  assert (h <= header_of k h) by (apply round_up_ge; lia). pose proof (body_of_ge k b).
  unfold total_of in Hlen. split_and!; [done| |lia..].
  apply Z.divide_add_r; [done|]. apply round_up_divide; lia.
Qed.

(** ** A client *)

Section client.
Context {P B : Type} `{!byte_buffer B} `{!ByteBufferLaws B} `{!byte_buffer_pool P B}.
Context {ok : P → Prop} {in_range : Z → Z → Z → Prop} `{!PoolLaws P B ok in_range}.

(** The buffer for a request: [cmd_len] and [align_off] are [int]s, what is passed
    on is converted to [uint32_t]; without an offset the defaults of [malloc] hold. *)
Definition request_buffer (p : P) (cmd_len align_off align_bit : Z) : res (P * B) :=
  require (int_ok (cmd_len + 4)) SignedOverflow ≫= λ _,
  if align_off =? 0 then
    '(p, b) ← v_malloc p (u32 (cmd_len + 4)) 6 0;
    Ok (p, v_set_data_offset 0 (u32 (cmd_len + 4)) b)
  else
    require (int_ok (cmd_len + 4 - align_off)) SignedOverflow ≫= λ _,
    '(p, b) ← v_malloc p (u32 (cmd_len + 4 - align_off)) align_bit align_off;
    Ok (p, v_set_data_offset (u32 (v_body_off b - align_off)) (u32 (cmd_len + 4)) b).

(** Any pool and buffer that keep what [byte_buffer.h] promises give a request its
    place: the window is as long as the frame, lies inside the block, and its byte at
    [align_off] sits at a multiple of [1 << align_bit]. *)
Lemma request_layout (p : P) (cmd_len align_off align_bit : Z) :
  let n := cmd_len + 4 in
  let k := if align_off =? 0 then 6 else align_bit in
  ok p → in_range (n - align_off) k align_off → 0 <= align_off <= n → n < 2 ^ 31 →
  ∃ p' b, request_buffer p cmd_len align_off align_bit = Ok (p', b) ∧
    v_data_len b = n ∧ v_base b <= v_data b ∧ v_data b + n <= v_base b + v_capacity b ∧
    (2 ^ k | v_data b + align_off).
Proof.
  intros n k Hok Hrange Hoff Hn. unfold request_buffer, n, k in *. clear n k.
  rewrite (proj2 (int_ok_spec (cmd_len + 4))) by lia. cbn [require mbind res_bind].
  destruct (align_off =? 0) eqn:Ho; bool_prop.
  - subst align_off. rewrite Z.sub_0_r in Hrange. rewrite u32_small by lia.
    destruct (law_malloc p _ _ _ Hok Hrange) as (p' & b & E & Hbase & _ & Hh & Hcap).
    rewrite E. cbn [mbind res_bind]. eexists _, _. split; [done|].
    destruct (law_offset b 0 (cmd_len + 4)) as ((S1 & _ & _ & S4 & _) & Hd & Hl); [lia|].
    rewrite Hl, S1, S4, Hd, !Z.add_0_r. split_and!; [done|lia|lia|done].
  - rewrite (proj2 (int_ok_spec _)) by lia. cbn [require mbind res_bind].
    rewrite (u32_small (_ - align_off)), (u32_small (cmd_len + 4)) by lia.
    destruct (law_malloc p _ _ _ Hok Hrange) as (p' & b & E & _ & Hbody & Hh & Hcap).
    rewrite E. cbn [mbind res_bind]. eexists _, _. split; [done|]. rewrite u32_small by lia.
    destruct (law_offset b (v_body_off b - align_off) (cmd_len + 4)) as ((S1 & S2 & _ & S4 & _) & Hd & Hl); [lia|].
    rewrite Hl, S1, S4, Hd. rewrite law_body in *.
    replace (v_base b + (v_body_off b - align_off) + align_off) with (v_base b + v_body_off b) by lia.
    split_and!; [done|lia..|done].
Qed.
End client.

(** On the pool of [byte_buffer.cpp]. *)
Lemma recv_request_buffer {M} `{!Allocator M} `{!AllocatorLaws M} `{!MultimapFind byte_buffer_data}
  (m : M) p cmd_len align_off align_bit :
  (require (int_ok (cmd_len + 4)) SignedOverflow ≫= λ _,
   '(m, p, b) ←
    (if align_off =? 0 then
       '(m, p, b) ← malloc m p (u32 (cmd_len + 4)) 6 0;
       Ok (m, p, set_data_offset 0 (u32 (cmd_len + 4)) b)
     else
       require (int_ok (cmd_len + 4 - align_off)) SignedOverflow ≫= λ _,
       '(m, p, b) ← malloc m p (u32 (cmd_len + 4 - align_off)) align_bit align_off;
       Ok (m, p, set_data_offset (u32 (body_off b - align_off)) (u32 (cmd_len + 4)) b));
   Ok ((m, p), b))
  = request_buffer (P := M * buffer_pool) (m, p) cmd_len align_off align_bit.
Proof.
  unfold request_buffer. destruct (int_ok (cmd_len + 4)); [|done]. cbn [require mbind res_bind].
  destruct (align_off =? 0); simpl.
  - destruct (malloc m p _ _ _) as [[[m1 p1] b1]|]; done.
  - destruct (int_ok _); [|done]. cbn [require mbind res_bind].
    destruct (malloc m p _ _ _) as [[[m1 p1] b1]|]; done.
Qed.

Example request_buffer_demo :
  (λ '(_, b), (v_data_len b, v_data b + 10 - v_body b, v_capacity b)) <$>
    request_buffer (P := gmap Z Z * buffer_pool) (∅, new_inst 1000) 96 10 9 = Ok (100, 0, 1536).
Proof. by vm_compute. Qed.
