(* ===== verification/IoLoop.v ===== *)
(** * The event loop ([coio/io_loop.h])

    [io_loop] owns a table [_fds] indexed by file descriptor, a heap of timers
    and a queue of functions posted by other threads.  Callbacks
    ([coio/io_callback.h]) are opaque identifiers; what a virtual call does is
    given by the class [Callbacks], so every theorem about the loop holds for
    any awaiter or user code behind it. *)

From S2P Require Import Prelude StdHeap.

(** ** The operating system and language facilities the loop uses *)

(** An [io_callback *]; [None] is a null pointer. *)
Definition cb := nat.
(** A [std::function<void()>]. *)
Definition fn := nat.

Definition EPOLLIN : Z := 1.
Definition EPOLLOUT : Z := 4.
Definition EPOLLERR : Z := 8.
Definition EPOLLHUP : Z := 16.
Definition EPOLLRDHUP : Z := 8192.
Definition EM_READ : Z := 1.
Definition EM_WRITE : Z := 2.
Definition EV_IN : Z := EPOLLIN.
Definition EV_OUT : Z := EPOLLOUT.
Definition EV_ERR : Z := EPOLLHUP ||| EPOLLERR ||| EPOLLRDHUP.

Inductive ctl_op := EPOLL_CTL_ADD | EPOLL_CTL_MOD | EPOLL_CTL_DEL.

(** The kernel behind the epoll descriptor: [epoll_ctl], and
    [getsockopt(SO_ERROR)] ([None]: the call failed).  [interest] is the
    interest list. *)
Class Epoll (K : Type) := {
  epoll_ctl : K → ctl_op → Z → Z → K * Z;
  so_error : K → Z → K * option Z;
  interest : K → gmap Z Z;
}.

(** epoll_ctl(2): ADD fails with EEXIST on a registered descriptor, MOD and
    DEL with ENOENT on an unregistered one; a failed call (-1) changes
    nothing, a successful one (0) does what it says. *)
Class EpollLaws (K : Type) `{!Epoll K} : Prop := {
  ctl_ret k op fd ev : (epoll_ctl k op fd ev).2 = 0 ∨ (epoll_ctl k op fd ev).2 = -1;
  ctl_fail k op fd ev :
    (epoll_ctl k op fd ev).2 ≠ 0 → interest (epoll_ctl k op fd ev).1 = interest k;
  ctl_add k fd ev :
    (epoll_ctl k EPOLL_CTL_ADD fd ev).2 = 0 →
    interest k !! fd = None ∧
    interest (epoll_ctl k EPOLL_CTL_ADD fd ev).1 = <[fd := ev]> (interest k);
  ctl_mod k fd ev :
    (epoll_ctl k EPOLL_CTL_MOD fd ev).2 = 0 →
    is_Some (interest k !! fd) ∧
    interest (epoll_ctl k EPOLL_CTL_MOD fd ev).1 = <[fd := ev]> (interest k);
  ctl_del k fd ev :
    (epoll_ctl k EPOLL_CTL_DEL fd ev).2 = 0 →
    is_Some (interest k !! fd) ∧
    interest (epoll_ctl k EPOLL_CTL_DEL fd ev).1 = delete fd (interest k);
  so_error_interest k fd : interest (so_error k fd).1 = interest k;
}.

(** ** Data *)

Record es_file := EsFile {
  _fd : Z;
  _event : Z;
  _func_w : option cb;
  _func_r : option cb;
}.
Definition es_file_default : es_file := EsFile (-1) 0 None None.

Record es_time := EsTime {
  _id : Z;
  _when : Z;                   (* system_clock, nanoseconds *)
  _func : cb;
}.

#[export] Instance es_file_inhabited : Inhabited es_file := populate es_file_default.
#[export] Instance es_time_inhabited : Inhabited es_time := populate (EsTime 0 0 0%nat).
#[export] Instance es_file_eq_dec : EqDecision es_file.
Proof. solve_decision. Defined.
#[export] Instance es_time_eq_dec : EqDecision es_time.
Proof. solve_decision. Defined.

Definition compare_timer (l r : es_time) : bool := _when r <? _when l.

#[export] Instance compare_timer_weak : StrictWeak compare_timer.
Proof. split; unfold compare_timer; intros; bool_prop; first [apply Z.ltb_ge|idtac]; lia. Qed.

(** [_fds_capacity] and [_fds_epoch] make the vector's storage visible: a
    [resize] beyond the capacity moves the elements ([_fds_epoch] grows) and
    invalidates every [es_file &].  [_eventfd] is the counter of the event
    descriptor, [_ticks] the number of clock readings so far. *)
Record io_loop {K : Type} := IoLoop {
  m_breaking : Z;
  m_thread_id : option Z;
  _event_fd : Z;
  _g_timer_id : Z;
  _fds : list es_file;
  _fds_capacity : nat;
  _fds_epoch : nat;
  _timer : list es_time;
  _async_funcs : list fn;
  _async_funcs_tmp : list fn;
  _eventfd : Z;
  _ticks : nat;
  _kernel : K;
}.
Arguments io_loop : clear implicits.

Section setters.
Context {K : Type}.
Implicit Type l : io_loop K.

Definition set_breaking v l := IoLoop K v (m_thread_id l) (_event_fd l) (_g_timer_id l) (_fds l)
  (_fds_capacity l) (_fds_epoch l) (_timer l) (_async_funcs l) (_async_funcs_tmp l)
  (_eventfd l) (_ticks l) (_kernel l).
Definition set_thread_id v l := IoLoop K (m_breaking l) v (_event_fd l) (_g_timer_id l) (_fds l)
  (_fds_capacity l) (_fds_epoch l) (_timer l) (_async_funcs l) (_async_funcs_tmp l)
  (_eventfd l) (_ticks l) (_kernel l).
Definition set_fds v l := IoLoop K (m_breaking l) (m_thread_id l) (_event_fd l) (_g_timer_id l) v
  (_fds_capacity l) (_fds_epoch l) (_timer l) (_async_funcs l) (_async_funcs_tmp l)
  (_eventfd l) (_ticks l) (_kernel l).
Definition set_storage v c e l := IoLoop K (m_breaking l) (m_thread_id l) (_event_fd l)
  (_g_timer_id l) v c e (_timer l) (_async_funcs l) (_async_funcs_tmp l)
  (_eventfd l) (_ticks l) (_kernel l).
Definition set_timers g v l := IoLoop K (m_breaking l) (m_thread_id l) (_event_fd l) g (_fds l)
  (_fds_capacity l) (_fds_epoch l) v (_async_funcs l) (_async_funcs_tmp l)
  (_eventfd l) (_ticks l) (_kernel l).
Definition set_async a t e l := IoLoop K (m_breaking l) (m_thread_id l) (_event_fd l)
  (_g_timer_id l) (_fds l) (_fds_capacity l) (_fds_epoch l) (_timer l) a t e
  (_ticks l) (_kernel l).
Definition set_ticks v l := IoLoop K (m_breaking l) (m_thread_id l) (_event_fd l) (_g_timer_id l)
  (_fds l) (_fds_capacity l) (_fds_epoch l) (_timer l) (_async_funcs l) (_async_funcs_tmp l)
  (_eventfd l) v (_kernel l).
Definition set_kernel v l := IoLoop K (m_breaking l) (m_thread_id l) (_event_fd l) (_g_timer_id l)
  (_fds l) (_fds_capacity l) (_fds_epoch l) (_timer l) (_async_funcs l) (_async_funcs_tmp l)
  (_eventfd l) (_ticks l) v.
End setters.

(** ** Descriptor table *)

Section table.
Context {K : Type} `{!Epoll K}.
(** [ndebug]: compiled with [NDEBUG], so [assert] does nothing. *)
Variable ndebug : bool.
Implicit Type l : io_loop K.

Definition c_assert (b : bool) : res unit :=
  if ndebug then Ok tt else require b AssertFail.

(** [_fds[fd]] for an [int fd]: defined inside the vector only. *)
Definition fds_at l (fd : Z) : res es_file :=
  if fd <? 0 then Fail OutOfBounds
  else match _fds l !! Z.to_nat fd with
       | Some fe => Ok fe
       | None => Fail OutOfBounds
       end.
Definition fds_put (fd : Z) (fe : es_file) l : io_loop K :=
  set_fds (<[Z.to_nat fd := fe]> (_fds l)) l.

(** [_fds.resize(n)] *)
Definition fds_resize (n : nat) l : io_loop K :=
  let v := _fds l ++ replicate (n - length (_fds l)) es_file_default in
  if decide (n ≤ _fds_capacity l)%nat
  then set_storage v (_fds_capacity l) (_fds_epoch l) l
  else set_storage v (Nat.max n (2 * length (_fds l))) (S (_fds_epoch l)) l.

Definition ctl (op : ctl_op) (fd type : Z) l : io_loop K * Z :=
  let '(k, rc) := epoll_ctl (_kernel l) op fd type in (set_kernel k l, rc).
Definition Epoll_ctl_add (fd type : Z) l : io_loop K * Z := ctl EPOLL_CTL_ADD fd type l.
Definition Epoll_ctl_mod (fd type : Z) l : io_loop K * Z := ctl EPOLL_CTL_MOD fd type l.
Definition Epoll_ctl_del (fd : Z) l : io_loop K * Z := ctl EPOLL_CTL_DEL fd 0 l.

Definition has (mask bit : Z) : bool := negb (mask &&& bit =? 0).

Definition wait_fd (type fd : Z) (func : option cb) l : res (io_loop K * Z) :=
  let l := if Z.of_nat (length (_fds l)) <=? fd then fds_resize (Z.to_nat (fd + 1)) l else l in
  fe ← fds_at l fd;
  if _fd fe =? -1 then
    let fe :=
      if type =? EPOLLIN then EsFile fd type (_func_w fe) func
      else if has type EPOLLOUT then EsFile fd type func (_func_r fe)
      else EsFile fd type (_func_w fe) (_func_r fe) in
    Ok (Epoll_ctl_add fd type (fds_put fd fe l))
  else
    let fe :=
      if has type EPOLLIN then EsFile (_fd fe) (_event fe) (_func_w fe) func
      else EsFile (_fd fe) (_event fe) func (_func_r fe) in
    let l := fds_put fd fe l in
    if (if has type EPOLLIN then has (_event fe) EPOLLIN else has (_event fe) EPOLLOUT)
    then Ok (l, 0)
    else
      let ev := _event fe ||| type in
      let l := fds_put fd (EsFile (_fd fe) ev (_func_w fe) (_func_r fe)) l in
      let '(l, _) := Epoll_ctl_mod fd ev l in
      Ok (l, 0).

Definition wait_read (fd : Z) (f : option cb) l : res (io_loop K) := fst <$> wait_fd EPOLLIN fd f l.
Definition wait_write (fd : Z) (f : option cb) l : res (io_loop K) := fst <$> wait_fd EPOLLOUT fd f l.

Definition is_local_thread (self : Z) l : bool := bool_decide (m_thread_id l = Some self).

Definition cancel_ev (self fd ev : Z) l : res (io_loop K * Z) :=
  c_assert (is_local_thread self l) ≫= λ _,
  if Z.of_nat (length (_fds l)) <=? fd then Ok (l, -1)
  else
    fe ← fds_at l fd;
    if _fd fe =? -1 then Ok (l, 0)
    else
      c_assert (negb (ev =? 0)) ≫= λ _,
      let event := _event fe &&& u32 (Z.lnot ev) in
      if has event EPOLLIN then
        Ok (Epoll_ctl_mod fd event (fds_put fd (EsFile (_fd fe) event None (_func_r fe)) l))
      else if has event EPOLLOUT then
        Ok (Epoll_ctl_mod fd event (fds_put fd (EsFile (_fd fe) event (_func_w fe) None) l))
      else
        Ok (Epoll_ctl_del fd (fds_put fd (EsFile (-1) 0 None None) l)).

Definition cancel_read (self fd : Z) l : res (io_loop K) := fst <$> cancel_ev self fd EPOLLIN l.
Definition cancel_write (self fd : Z) l : res (io_loop K) := fst <$> cancel_ev self fd EPOLLOUT l.
Definition cancel_fdall (self fd : Z) l : res (io_loop K) :=
  fst <$> cancel_ev self fd (EPOLLIN ||| EPOLLOUT) l.
End table.

(** ** Timers *)

Section timers.
Context {K : Type} `{!StdHeap compare_timer}.
Variable ndebug : bool.
(** The successive readings of [std::chrono::system_clock]. *)
Variable clock : nat → Z.
Implicit Type l : io_loop K.

Definition now l : io_loop K * Z := (set_ticks (S (_ticks l)) l, clock (_ticks l)).

(** [delay_call(time_point, func)] *)
Definition delay_call (when : Z) (func : cb) l : res (io_loop K * Z) :=
  require (int_ok (_g_timer_id l + 1)) SignedOverflow ≫= λ _,
  let id := _g_timer_id l + 1 in
  Ok (set_timers id (push_heap (_timer l ++ [EsTime id when func])) l, id).

(** [delay_call(double, func)]; [ns] is [uint64_t(after * 1e9)].  Time points are
    counted in [int64_t] nanoseconds. *)
Definition delay_call_after (ns : Z) (func : cb) l : res (io_loop K * Z) :=
  let '(l, t) := now l in
  require (long_ok (t + i64 (u64 ns))) SignedOverflow ≫= λ _,
  delay_call (t + i64 (u64 ns)) func l.

(** The end of a wait is a time that can be represented, whenever it begins. *)
Definition time_ok (after : option Z) : Prop :=
  match after with None => True | Some ns => ∀ i, long_ok (clock i + i64 (u64 ns)) = true end.

(** [std::find_if] with the timer id, then [erase]. *)
Fixpoint erase_timer (timer_id : Z) (ts : list es_time) : option (list es_time) :=
  match ts with
  | [] => None
  | t :: ts => if _id t =? timer_id then Some ts else cons t <$> erase_timer timer_id ts
  end.

Definition cancel_delay (self timer_id : Z) l : res (io_loop K) :=
  c_assert ndebug (is_local_thread self l) ≫= λ _,
  match erase_timer timer_id (_timer l) with
  | None => Ok l
  | Some ts => Ok (set_timers (_g_timer_id l) (make_heap ts) l)
  end.

(** The [epoll_wait] timeout of one turn of [run]. *)
Definition wait_timeout l : io_loop K * Z :=
  match _timer l with
  | [] => (l, 100)
  | t :: _ =>
      let '(l, n) := now l in
      let left := i32 (Z.quot (_when t - n) 1000000) in
      (l, Z.min 100 (Z.max 0 left))
  end.

(** [pop_heap], [back] and [pop_back]. *)
Definition pop_timer l : option (es_time * io_loop K) :=
  match reverse (pop_heap (_timer l)) with
  | [] => None
  | t :: rest => Some (t, set_timers (_g_timer_id l) (reverse rest) l)
  end.
End timers.

(** ** Callbacks and the loop *)

(** The loop together with everything its callbacks can change. *)
Record world {K U : Type} := World { w_loop : io_loop K; w_user : U }.
Arguments world : clear implicits.
Arguments World {K U} _ _.

(** The virtual functions of [io_callback]: [on_file_event c fd event] gets
    [_fds[fd]] as its [es_file &].  [call_func] runs a posted function. *)
Class Callbacks (K U : Type) := {
  on_file_event : cb → Z → Z → world K U → res (world K U);
  on_time_event : cb → es_time → world K U → res (world K U);
  call_func : fn → world K U → res (world K U);
}.

(** What one call of [epoll_wait] returned. *)
Inductive wait_result :=
  | WaitEvents (evs : list (Z * Z))
  | WaitError (errno : Z).

(** What one turn of the loop gets from outside: whether another thread has
    set [m_breaking] by then, and the result of [epoll_wait]. *)
Record turn := Turn { t_break : bool; t_wait : wait_result }.

Section run.
Context {K U : Type} `{!Epoll K} `{!StdHeap compare_timer} `{!Callbacks K U}.
Variable ndebug : bool.
Variable clock : nat → Z.
Implicit Type w : world K U.

(** The [io_callback] that the loop itself is. *)
Definition loop_cb : cb := 0%nat.

Definition on_loop (f : io_loop K → io_loop K) w : world K U := World (f (w_loop w)) (w_user w).
Definition epoch w : nat := _fds_epoch (w_loop w).

Fixpoint call_all (fs : list fn) w : res (world K U) :=
  match fs with
  | [] => Ok w
  | f :: fs => w ← call_func f w; call_all fs w
  end.

(** [io_loop::on_file_event]: [es] is [_fds[fd]], valid as long as the
    vector is not reallocated. *)
Definition loop_on_file_event (fd : Z) w : res (world K U) :=
  let e0 := epoch w in
  let w := on_loop (λ l, set_async (_async_funcs_tmp l) (_async_funcs l) 0 l) w in
  w ← call_all (_async_funcs_tmp (w_loop w)) w;
  let w := on_loop (λ l, set_async (_async_funcs l) [] (_eventfd l) l) w in
  require (bool_decide (epoch w = e0)) DanglingRef ≫= λ _,
  fe ← fds_at (w_loop w) fd;
  Ok (on_loop (fds_put fd (EsFile (_fd fe) (_event fe) (_func_w fe) (Some loop_cb))) w).

(** A virtual call of [on_file_event]. *)
Definition file_event (c : cb) (fd event : Z) w : res (world K U) :=
  if decide (c = loop_cb) then loop_on_file_event fd w else on_file_event c fd event w.

(** [if (fe._func_w && ok) { auto f = fe._func_w; fe._func_w = nullptr;
    f->on_file_event(fe, code); }] *)
Definition fire_w (ok : bool) (fd code : Z) w : res (world K U) :=
  fe ← fds_at (w_loop w) fd;
  match _func_w fe with
  | Some f =>
      if ok then
        file_event f fd code
          (on_loop (fds_put fd (EsFile (_fd fe) (_event fe) None (_func_r fe))) w)
      else Ok w
  | None => Ok w
  end.
Definition fire_r (ok : bool) (fd code : Z) w : res (world K U) :=
  fe ← fds_at (w_loop w) fd;
  match _func_r fe with
  | Some f =>
      if ok then
        file_event f fd code
          (on_loop (fds_put fd (EsFile (_fd fe) (_event fe) (_func_w fe) None)) w)
      else Ok w
  | None => Ok w
  end.

(** The [assert] in front of the call of a ready writer or reader. *)
Definition assert_subscribed (ok : bool) (f : option cb) (event bit : Z) : res unit :=
  match f with
  | Some _ => if ok then c_assert ndebug (has event bit) else Ok tt
  | None => Ok tt
  end.

(** One element of the [events] array. *)
Definition dispatch_event (ev : Z * Z) w : res (world K U) :=
  let '(fd, events) := ev in
  if Z.of_nat (length (_fds (w_loop w))) <=? fd then Ok w
  else
    fe ← fds_at (w_loop w) fd;
    if _fd fe =? -1 then c_assert ndebug false ≫= λ _, Ok w
    else
      let e0 := epoch w in
      if has events EV_ERR then
        let '(k, r) := so_error (_kernel (w_loop w)) fd in
        let e := default 0 r in
        let w := on_loop (set_kernel k) w in
        w ← fire_w true fd (- e) w;
        require (bool_decide (epoch w = e0)) DanglingRef ≫= λ _,
        fire_r true fd (- e) w
      else
        let out := has events EV_OUT in
        let inp := has events EV_IN in
        assert_subscribed out (_func_w fe) (_event fe) EPOLLOUT ≫= λ _,
        w ← fire_w out fd EM_WRITE w;
        require (bool_decide (epoch w = e0)) DanglingRef ≫= λ _,
        fe ← fds_at (w_loop w) fd;
        assert_subscribed inp (_func_r fe) (_event fe) EPOLLIN ≫= λ _,
        fire_r inp fd EM_READ w.

Fixpoint dispatch_all (evs : list (Z * Z)) w : res (world K U) :=
  match evs with
  | [] => Ok w
  | ev :: evs => w ← dispatch_event ev w; dispatch_all evs w
  end.

(** The timer loop at the end of a turn; the list is the timers fired, in
    order. *)
Fixpoint run_timers (fuel : nat) w : res (world K U * list es_time) :=
  match fuel with
  | O => Fail OutOfFuel
  | S fuel =>
      match _timer (w_loop w) with
      | [] => Ok (w, [])
      | t0 :: _ =>
          let '(l, n) := now clock (w_loop w) in
          if _when t0 <=? n then
            match pop_timer l with
            | None => Fail OutOfBounds
            | Some (t, l) =>
                w ← on_time_event (_func t) t (World l (w_user w));
                '(w, ts) ← run_timers fuel w;
                Ok (w, t :: ts)
            end
          else Ok (World l (w_user w), [])
      end
  end.

(** One turn of [run]; the boolean says whether the loop goes on. *)
Definition run_turn (fuel : nat) (t : turn) w : res (world K U * bool) :=
  let w := if t_break t then on_loop (set_breaking 1) w else w in
  if negb (m_breaking (w_loop w) =? 0) then Ok (w, false)
  else
    let '(l, _) := wait_timeout clock (w_loop w) in
    let w := World l (w_user w) in
    match t_wait t with
    | WaitError e => if e =? EINTR then Ok (w, true) else Ok (w, false)
    | WaitEvents evs =>
        w ← dispatch_all evs w;
        '(w, _) ← run_timers fuel w;
        Ok (w, true)
    end.

Fixpoint run_loop (fuel : nat) (ts : list turn) w : res (world K U) :=
  match ts with
  | [] => Ok w
  | t :: ts =>
      '(w, more) ← run_turn fuel t w;
      if more : bool then run_loop fuel ts w else Ok w
  end.

(** [run], on the thread [self], for the turns [ts]. *)
Definition run (self : Z) (fuel : nat) (ts : list turn) w : res (world K U) :=
  run_loop fuel ts (on_loop (set_thread_id (Some self)) w).

(** [~io_loop]: the event descriptor leaves the interest list, then both
    descriptors are closed; [closed] and [epoll_fd] are the process's. *)
Definition io_loop_destroy (epoll_fd : Z) (closed : gset Z) (l : io_loop K) : io_loop K * gset Z :=
  let '(l, _) := Epoll_ctl_del (_event_fd l) l in
  (l, {[epoll_fd]} ∪ ({[_event_fd l]} ∪ closed)).

Definition break_run w : world K U := on_loop (set_breaking 1) w.

(** The constructor: an empty loop that waits on its event descriptor. *)
Definition io_loop_init (k : K) (event_fd : Z) : res (io_loop K) :=
  wait_read event_fd (Some loop_cb)
    (IoLoop K 0 None event_fd 0 [] 256 0 [] [] [] 0 0 k).
End run.
