(* ===== verification/IoLoopFacts.v ===== *)
(** * Facts about the descriptor table of the event loop *)

From S2P Require Import Prelude StdHeap IoLoop.

(** ** The table as a map from descriptors to entries *)

(** The two directions one can wait for. *)
Inductive dir := DirR | DirW.
#[export] Instance dir_eq_dec : EqDecision dir.
Proof. solve_decision. Defined.

Definition bit (d : dir) : Z := match d with DirR => EPOLLIN | DirW => EPOLLOUT end.
Definition func (d : dir) (e : es_file) : option cb :=
  match d with DirR => _func_r e | DirW => _func_w e end.
Definition set_func (d : dir) (f : option cb) (e : es_file) : es_file :=
  match d with
  | DirR => EsFile (_fd e) (_event e) (_func_w e) f
  | DirW => EsFile (_fd e) (_event e) f (_func_r e)
  end.

Section facts.
Context {K : Type} `{!Epoll K}.
Implicit Types (l : io_loop K) (e : es_file) (d : dir) (fd : Z).

(** The entry of [fd]; descriptors outside the vector count as default. *)
Definition ent l fd : es_file :=
  if fd <? 0 then es_file_default else default es_file_default (_fds l !! Z.to_nat fd).

(** *** The abstract view *)

(** The callback waiting for direction [d] on [fd]. *)
Definition sub l fd d : option cb := func d (ent l fd).
(** The epoll mask the loop believes [fd] is registered with. *)
Definition watched l fd : option Z :=
  if _fd (ent l fd) =? -1 then None else Some (_event (ent l fd)).

(** *** Well-formed tables *)

Record entry_wf (fd : Z) (e : es_file) : Prop := {
  wf_free : _fd e = -1 → e = es_file_default;
  wf_fd : _fd e ≠ -1 → _fd e = fd;
  wf_event : _fd e ≠ -1 →
    _event e = EPOLLIN ∨ _event e = EPOLLOUT ∨ _event e = EPOLLIN ||| EPOLLOUT;
  wf_func d : is_Some (func d e) → has (_event e) (bit d) = true;
}.

Record table_wf l : Prop := {
  wf_entry fd : 0 <= fd → entry_wf fd (ent l fd);
  wf_capacity : (length (_fds l) ≤ _fds_capacity l)%nat;
}.

(** What [epoll_ctl] can fail with beyond the caller's mistakes (EPERM, ENOMEM,
    ENOSPC) does not happen in this state, and in no state it leads to. *)
Record ctl_answers (k : K) : Prop := {
  ctl_add_ok fd ev : interest k !! fd = None → (epoll_ctl k EPOLL_CTL_ADD fd ev).2 = 0;
  ctl_mod_ok fd ev : is_Some (interest k !! fd) → (epoll_ctl k EPOLL_CTL_MOD fd ev).2 = 0;
  ctl_del_ok fd ev : is_Some (interest k !! fd) → (epoll_ctl k EPOLL_CTL_DEL fd ev).2 = 0;
}.
Inductive kernel_step : K → K → Prop :=
  | ks_ctl k op fd ev : kernel_step k (epoll_ctl k op fd ev).1
  | ks_so_error k fd : kernel_step k (so_error k fd).1.
Definition ctl_serves (k : K) : Prop := ∀ k', rtc kernel_step k k' → ctl_answers k'.

Lemma ctl_serves_now k : ctl_serves k → ctl_answers k.
Proof. intros H. by apply H. Qed.
Lemma ctl_serves_step k k' : kernel_step k k' → ctl_serves k → ctl_serves k'.
Proof. intros Hs H k2 Hk. apply H. by eapply rtc_l. Qed.

(** The kernel's interest list is what the table says, and goes on taking orders. *)
Record kernel_sync l : Prop := {
  ks_interest fd : interest (_kernel l) !! fd = watched l fd;
  ks_serves : ctl_serves (_kernel l);
}.

Lemma entry_wf_default fd : entry_wf fd es_file_default.
Proof. split; simpl; try done. intros []; simpl; by intros [? ?]. Qed.

(** *** Access *)

Lemma fds_at_ent l fd :
  0 <= fd < Z.of_nat (length (_fds l)) → fds_at l fd = Ok (ent l fd).
Proof.
  intros. unfold fds_at, ent. rewrite (proj2 (Z.ltb_ge fd 0)) by lia.
  by destruct (lookup_lt_is_Some_2 (_fds l) (Z.to_nat fd)) as [? ->]; [lia|].
Qed.

Lemma ent_out l fd : Z.of_nat (length (_fds l)) <= fd → ent l fd = es_file_default.
Proof.
  intros. unfold ent. case_cond; [done|].
  by rewrite lookup_ge_None_2 by (bool_prop; lia).
Qed.

Lemma ent_put l fd e fd' :
  0 <= fd < Z.of_nat (length (_fds l)) →
  ent (fds_put fd e l) fd' = if decide (fd' = fd) then e else ent l fd'.
Proof.
  intros Hfd. unfold ent, fds_put. simpl. case_decide as Hd; [subst fd'|].
  - rewrite (proj2 (Z.ltb_ge fd 0)) by lia.
    by rewrite list_lookup_insert_eq by lia.
  - case_cond; [done|]. bool_prop. by rewrite list_lookup_insert_ne by lia.
Qed.

Lemma ent_resize l n fd : ent (fds_resize n l) fd = ent l fd.
Proof.
  unfold ent, fds_resize. case_cond; [done|].
  assert (∀ i, default es_file_default
      ((_fds l ++ replicate (n - length (_fds l)) es_file_default) !! i) =
    default es_file_default (_fds l !! i)) as H.
  { intros i. destruct (decide (i < length (_fds l))%nat).
    - by rewrite lookup_app_l.
    - rewrite lookup_app_r, (lookup_ge_None_2 (_fds l)) by lia. simpl.
      destruct (replicate _ _ !! _) eqn:E; [|done].
      by apply lookup_replicate in E as [-> _]. }
  case_decide; simpl; apply H.
Qed.

Lemma length_fds_resize l n : length (_fds (fds_resize n l)) = Nat.max n (length (_fds l)).
Proof.
  unfold fds_resize. case_decide; simpl; rewrite length_app, length_replicate; lia.
Qed.

Lemma fds_resize_capacity l n :
  (length (_fds l) ≤ _fds_capacity l)%nat →
  (length (_fds (fds_resize n l)) ≤ _fds_capacity (fds_resize n l))%nat.
Proof.
  intros. rewrite length_fds_resize. unfold fds_resize. case_decide; simpl; lia.
Qed.

(** The fields no table operation touches. *)
Definition rest l :=
  (m_breaking l, m_thread_id l, _event_fd l, _g_timer_id l, _timer l,
   _async_funcs l, _async_funcs_tmp l, _eventfd l, _ticks l).

Lemma rest_resize l n : rest (fds_resize n l) = rest l.
Proof. unfold fds_resize. by case_decide. Qed.
End facts.

(** ** [wait_fd] *)

(** The entry [wait_fd] leaves behind. *)
Definition waiting (d : dir) (fd : Z) (f : option cb) (e : es_file) : es_file :=
  set_func d f
    (if _fd e =? -1 then EsFile fd (bit d) (_func_w e) (_func_r e)
     else EsFile (_fd e) (_event e ||| bit d) (_func_w e) (_func_r e)).

Lemma waiting_wf d fd f e : entry_wf fd e → 0 <= fd → entry_wf fd (waiting d fd f e).
Proof.
  intros [H1 H2 H3 H4] Hfd. unfold waiting.
  destruct (_fd e =? -1) eqn:E; bool_prop.
  - rewrite (H1 E) in *. destruct d; (split; simpl; [lia|done|auto|]); intros []; simpl; try done;
      by intros [? ?].
  - specialize (H2 E). specialize (H3 E). split; simpl.
    + destruct d; simpl; done.
    + destruct d; simpl; done.
    + intros _. destruct H3 as [-> |[-> | ->]], d; vm_compute; auto.
    + pose proof (H4 DirR) as HR. pose proof (H4 DirW) as HW. simpl in HR, HW.
      destruct H3 as [E3|[E3|E3]], d; rewrite E3 in *; intros []; simpl;
        first [intros _; reflexivity | exact HR | exact HW].
Qed.

Section operations.
Context {K : Type} `{!Epoll K}.
Implicit Types (l : io_loop K) (e : es_file) (d : dir) (fd : Z).

(** The kernel after [wait_fd]: a new descriptor is added, a new direction
    of a known one is a modification, a repeated wait is no call at all. *)
Definition wait_kernel d fd l : K :=
  match watched l fd with
  | None => (epoll_ctl (_kernel l) EPOLL_CTL_ADD fd (bit d)).1
  | Some m =>
      if has m (bit d) then _kernel l
      else (epoll_ctl (_kernel l) EPOLL_CTL_MOD fd (m ||| bit d)).1
  end.

Lemma wf_or_same fd e d :
  entry_wf fd e → _fd e ≠ -1 → has (_event e) (bit d) = true → _event e ||| bit d = _event e.
Proof.
  intros He Hne. destruct (wf_event _ _ He Hne) as [-> |[-> | ->]], d; vm_compute; done.
Qed.

(** Storing an entry in a table [l1] that agrees with [l]. *)
Lemma stored_ent l1 l fd e k :
  0 <= fd < Z.of_nat (length (_fds l1)) → (∀ i, ent l1 i = ent l i) → rest l1 = rest l →
  (length (_fds l1) ≤ _fds_capacity l1)%nat →
  (fd < Z.of_nat (_fds_capacity l) →
   _fds_epoch l1 = _fds_epoch l ∧ _fds_capacity l1 = _fds_capacity l) →
  let l' := set_kernel k (fds_put fd e l1) in
  (∀ fd', ent l' fd' = if decide (fd' = fd) then e else ent l fd') ∧
  _kernel l' = k ∧ rest l' = rest l ∧ (length (_fds l') ≤ _fds_capacity l')%nat ∧
  (fd < Z.of_nat (_fds_capacity l) →
   _fds_epoch l' = _fds_epoch l ∧ _fds_capacity l' = _fds_capacity l).
Proof.
  intros Hfd Hent Hrest Hcap Hep l'. split_and!; try done.
  - intros fd'. change (ent (fds_put fd e l1) fd' =
      if decide (fd' = fd) then e else ent l fd').
    rewrite ent_put by done. by rewrite Hent.
  - simpl. by rewrite length_insert.
Qed.

Lemma set_kernel_same l : set_kernel (_kernel l) l = l.
Proof. by destruct l. Qed.

(** The table after the resize at the start of [wait_fd]. *)
Lemma wait_fd_grown fd l (l1 := if Z.of_nat (length (_fds l)) <=? fd
                                 then fds_resize (Z.to_nat (fd + 1)) l else l) :
  0 <= fd → (length (_fds l) ≤ _fds_capacity l)%nat →
  fd < Z.of_nat (length (_fds l1)) ∧ (∀ i, ent l1 i = ent l i) ∧ rest l1 = rest l ∧
  _kernel l1 = _kernel l ∧ (length (_fds l1) ≤ _fds_capacity l1)%nat ∧
  (fd < Z.of_nat (_fds_capacity l) →
   _fds_epoch l1 = _fds_epoch l ∧ _fds_capacity l1 = _fds_capacity l).
Proof.
  intros Hfd Hcap. unfold l1. case_cond; bool_prop; [|by split_and!].
  split_and!; [rewrite length_fds_resize; lia|apply ent_resize|apply rest_resize| |
               by apply fds_resize_capacity|].
  - unfold fds_resize. by case_decide.
  - unfold fds_resize. case_decide; [done|lia].
Qed.

Lemma wait_kernel_serves d fd l : ctl_serves (_kernel l) → ctl_serves (wait_kernel d fd l).
Proof.
  unfold wait_kernel. intros H. repeat case_match; try done; (eapply ctl_serves_step; [constructor|done]).
Qed.

Lemma wait_fd_spec d fd f l :
  0 <= fd → table_wf l →
  ∃ l' rc, wait_fd (bit d) fd f l = Ok (l', rc) ∧
    (∀ fd', ent l' fd' = if decide (fd' = fd) then waiting d fd f (ent l fd) else ent l fd') ∧
    _kernel l' = wait_kernel d fd l ∧ rest l' = rest l ∧
    (length (_fds l') ≤ _fds_capacity l')%nat ∧
    (fd < Z.of_nat (_fds_capacity l) →
     _fds_epoch l' = _fds_epoch l ∧ _fds_capacity l' = _fds_capacity l).
Proof.
  intros Hfd [Hwf Hcap]. unfold wait_fd.
  destruct (wait_fd_grown fd l Hfd Hcap) as (Hlen & Hent & Hrest & Hk & Hcap1 & Hep).
  set (l1 := if Z.of_nat (length (_fds l)) <=? fd then _ else l) in *.
  clearbody l1. rewrite fds_at_ent by lia. rewrite Hent. cbn [mbind res_bind].
  pose proof (Hwf fd Hfd) as He. unfold wait_kernel, watched. rewrite <- Hk.
  set (e := ent l fd) in *. destruct (_fd e =? -1) eqn:E.
  - unfold Epoll_ctl_add, ctl.
    set (e' := if bit d =? EPOLLIN then _ else _).
    assert (e' = waiting d fd f e) as ->.
    { unfold e', waiting. rewrite E. by destruct d. }
    simpl. destruct (epoll_ctl _ _ _ _) as [k rc]. eexists _, rc. split; [done|].
    apply (stored_ent l1); auto.
  - assert ((if has (bit d) EPOLLIN then EsFile (_fd e) (_event e) (_func_w e) f
             else EsFile (_fd e) (_event e) f (_func_r e)) = set_func d f e) as ->
      by (by destruct d).
    assert ((if has (bit d) EPOLLIN then has (_event (set_func d f e)) EPOLLIN
             else has (_event (set_func d f e)) EPOLLOUT) = has (_event e) (bit d)) as ->
      by (by destruct d).
    bool_prop. destruct (has (_event e) (bit d)) eqn:Eb.
    + eexists _, 0. split; [done|].
      assert (set_func d f e = waiting d fd f e) as ->.
      { unfold waiting. rewrite (proj2 (Z.eqb_neq _ _)) by done.
        rewrite (wf_or_same fd e d) by done. by destruct e, d. }
      apply (stored_ent l1); auto.
    + unfold Epoll_ctl_mod, ctl.
      assert (_event (set_func d f e) = _event e) as -> by (by destruct d).
      set (e2 := EsFile _ _ _ _). assert (e2 = waiting d fd f e) as ->.
      { unfold e2, waiting. rewrite (proj2 (Z.eqb_neq _ _)) by done. by destruct d. }
      assert (fds_put fd (waiting d fd f e) (fds_put fd (set_func d f e) l1)
              = fds_put fd (waiting d fd f e) l1) as ->.
      { unfold fds_put, set_fds. simpl. by rewrite list_insert_insert_eq. }
      simpl. destruct (epoll_ctl _ _ _ _) as [k rc]. eexists _, 0. split; [done|].
      apply (stored_ent l1); auto.
Qed.

(** *** [cancel_ev] *)

(** The masks [cancel_read], [cancel_write] and [cancel_fdall] use. *)
Definition cancel_mask (ev : Z) : Prop :=
  ev = EPOLLIN ∨ ev = EPOLLOUT ∨ ev = EPOLLIN ||| EPOLLOUT.

(** The entry [cancel_ev] leaves behind. *)
Definition cancelled (ev : Z) (e : es_file) : es_file :=
  if _fd e =? -1 then e
  else
    let event := _event e &&& u32 (Z.lnot ev) in
    if event =? 0 then es_file_default
    else EsFile (_fd e) event
           (if has ev EPOLLOUT then None else _func_w e)
           (if has ev EPOLLIN then None else _func_r e).

Definition cancel_kernel ev fd l : K :=
  match watched l fd with
  | None => _kernel l
  | Some m =>
      let m' := m &&& u32 (Z.lnot ev) in
      if m' =? 0 then (epoll_ctl (_kernel l) EPOLL_CTL_DEL fd 0).1
      else (epoll_ctl (_kernel l) EPOLL_CTL_MOD fd m').1
  end.

Lemma wf_no_func fd e d :
  entry_wf fd e → has (_event e) (bit d) = false → func d e = None.
Proof.
  intros He Hh. destruct (func d e) eqn:E; [|done].
  rewrite (wf_func _ _ He d) in Hh; [done|]. by rewrite E.
Qed.

(** The three-way branch of [cancel_ev] on a well-formed entry. *)
Lemma cancelled_branches fd ev e :
  entry_wf fd e → _fd e ≠ -1 → cancel_mask ev →
  cancelled ev e =
    (let event := _event e &&& u32 (Z.lnot ev) in
     if has event EPOLLIN then EsFile (_fd e) event None (_func_r e)
     else if has event EPOLLOUT then EsFile (_fd e) event (_func_w e) None
     else EsFile (-1) 0 None None) ∧
  (_event e &&& u32 (Z.lnot ev) =? 0) =
    negb (has (_event e &&& u32 (Z.lnot ev)) EPOLLIN || has (_event e &&& u32 (Z.lnot ev)) EPOLLOUT).
Proof.
  intros He Hne Hev. unfold cancelled. rewrite (proj2 (Z.eqb_neq _ _)) by done.
  pose proof (wf_no_func _ _ DirR He) as HR. pose proof (wf_no_func _ _ DirW He) as HW.
  simpl in HR, HW. destruct (wf_event _ _ He Hne) as [E|[E|E]], Hev as [-> |[-> | ->]];
    rewrite E in *; (split; [|reflexivity]); cbv -[_fd _func_r _func_w];
    rewrite ?HR, ?HW by reflexivity; reflexivity.
Qed.

Lemma cancel_kernel_serves ev fd l : ctl_serves (_kernel l) → ctl_serves (cancel_kernel ev fd l).
Proof.
  unfold cancel_kernel. intros H. repeat case_match; try done; (eapply ctl_serves_step; [constructor|done]).
Qed.

Lemma cancel_ev_spec ndebug self fd ev l :
  0 <= fd → table_wf l → cancel_mask ev → is_local_thread self l = true →
  ∃ l' rc, cancel_ev ndebug self fd ev l = Ok (l', rc) ∧
    (∀ fd', ent l' fd' = if decide (fd' = fd) then cancelled ev (ent l fd) else ent l fd') ∧
    _kernel l' = cancel_kernel ev fd l ∧ rest l' = rest l ∧
    (length (_fds l') ≤ _fds_capacity l')%nat ∧
    (fd < Z.of_nat (_fds_capacity l) →
     _fds_epoch l' = _fds_epoch l ∧ _fds_capacity l' = _fds_capacity l).
Proof.
  intros Hfd [Hwf Hcap] Hev Hself. unfold cancel_ev, c_assert. rewrite Hself.
  unfold cancel_kernel, watched, cancelled.
  assert ((if ndebug then Ok () else require true AssertFail) = Ok ()) as -> by (by destruct ndebug).
  cbn [mbind res_bind]. destruct (_ <=? fd) eqn:E; bool_prop.
  { eexists _, _. split; [done|]. rewrite (ent_out l fd) by done. split_and!; try done.
    intros fd'. case_decide; [subst; by rewrite ent_out|done]. }
  rewrite fds_at_ent by lia. cbn [mbind res_bind].
  pose proof (Hwf fd Hfd) as He. set (e := ent l fd) in *. destruct (_fd e =? -1) eqn:Ef.
  { eexists _, _. split; [done|]. split_and!; try done. intros fd'. by case_decide; [subst|]. }
  assert ((if ndebug then Ok () else require (negb (ev =? 0)) AssertFail) = Ok ()) as ->.
  { destruct ndebug; [done|]. by destruct Hev as [-> |[-> | ->]]. }
  cbn [mbind res_bind]. bool_prop.
  destruct (cancelled_branches fd ev e He Ef Hev) as [Hc H0]. unfold cancelled in Hc.
  rewrite (proj2 (Z.eqb_neq _ _)) in Hc by done. cbv zeta in Hc |- *. rewrite Hc, H0.
  unfold Epoll_ctl_mod, Epoll_ctl_del, ctl. simpl _kernel.
  set (event := _event e &&& u32 (Z.lnot ev)).
  destruct (has event EPOLLIN) eqn:EI, (has event EPOLLOUT) eqn:EO; simpl;
    destruct (epoll_ctl _ _ _ _) as [k rc]; (eexists _, rc; split; [done|]);
    apply stored_ent; auto; lia.
Qed.

Lemma cancelled_wf fd ev e : entry_wf fd e → cancel_mask ev → entry_wf fd (cancelled ev e).
Proof.
  intros He Hev. unfold cancelled. destruct (_fd e =? -1) eqn:E; [done|]. bool_prop.
  pose proof (wf_func _ _ He DirR) as HR. pose proof (wf_func _ _ He DirW) as HW.
  simpl in HR, HW.
  destruct (wf_event _ _ He E) as [Ee|[Ee|Ee]], Hev as [-> |[-> | ->]];
    rewrite Ee in *; cbv zeta;
    match goal with |- entry_wf _ (if ?b then _ else _) =>
      let b' := eval vm_compute in b in change b with b' end; cbv iota;
    first [apply entry_wf_default |
      split; simpl; [done|intros; by apply (wf_fd _ _ He)|vm_compute; auto|
        intros []; vm_compute; first [done | by intros [? ?] | exact HR | exact HW]]].
Qed.

(** Removing a direction from an entry removes exactly its callback. *)
Lemma cancelled_func fd ev e d :
  entry_wf fd e → cancel_mask ev →
  func d (cancelled ev e) = if has ev (bit d) then None else func d e.
Proof.
  intros He Hev. unfold cancelled. destruct (_fd e =? -1) eqn:E; bool_prop.
  { rewrite (wf_free _ _ He E). by destruct d, (has _ _). }
  pose proof (wf_no_func _ _ DirR He) as HR. pose proof (wf_no_func _ _ DirW He) as HW.
  simpl in HR, HW.
  destruct (wf_event _ _ He E) as [Ee|[Ee|Ee]], Hev as [-> |[-> | ->]], d;
    rewrite Ee in *; cbv -[_func_r _func_w];
    rewrite ?HR, ?HW by reflexivity; reflexivity.
Qed.
(** *** The vector never shrinks *)

Lemma wait_fd_length type fd f l l' rc :
  wait_fd type fd f l = Ok (l', rc) →
  (length (_fds l) ≤ length (_fds l'))%nat ∧ (0 <= fd → fd < Z.of_nat (length (_fds l'))).
Proof.
  unfold wait_fd. set (l1 := if _ <=? fd then _ else l).
  assert ((length (_fds l) ≤ length (_fds l1))%nat ∧ (0 <= fd → fd < Z.of_nat (length (_fds l1)))) as [H1 H2].
  { unfold l1. case_cond; [rewrite length_fds_resize; lia|]. bool_prop. lia. }
  intros E. res_inv. unfold Epoll_ctl_add, Epoll_ctl_mod, ctl in *.
  repeat case_cond; res_inv; subst;
    try (destruct (epoll_ctl _ _ _ _) as [k r]); simplify_eq/=;
    rewrite ?length_insert; auto.
Qed.

Lemma cancel_ev_length ndebug self fd ev l l' rc :
  cancel_ev ndebug self fd ev l = Ok (l', rc) → length (_fds l') = length (_fds l).
Proof.
  unfold cancel_ev, Epoll_ctl_mod, Epoll_ctl_del, ctl. intros E.
  repeat first [progress res_inv | progress simplify_eq/= | case_match]; by rewrite ?length_insert.
Qed.
End operations.
