(* ===== verification/IoLoopProps.v ===== *)
(** * Theorems about the event loop: descriptor table and dispatch *)

From S2P Require Import Prelude StdHeap IoLoop IoLoopFacts.

(** ** An executable kernel *)

#[export] Instance gmap_epoll : Epoll (gmap Z Z) := {
  epoll_ctl k op fd ev :=
    match op, k !! fd with
    | EPOLL_CTL_ADD, None => (<[fd := ev]> k, 0)
    | EPOLL_CTL_MOD, Some _ => (<[fd := ev]> k, 0)
    | EPOLL_CTL_DEL, Some _ => (delete fd k, 0)
    | _, _ => (k, -1)
    end;
  so_error k fd := (k, Some 0);
  interest k := k;
}.

#[export] Instance gmap_epoll_laws : EpollLaws (gmap Z Z).
Proof. split; simpl; intros; repeat case_match; simpl in *; auto; done. Qed.

Lemma gmap_ctl_serves (k : gmap Z Z) : ctl_serves k.
Proof.
  intros k' _. split; simpl; intros fd ev H; [by rewrite H|..]; destruct H as [? ->]; done.
Qed.

Section table.
Context {K : Type} `{!Epoll K} `{!EpollLaws K}.
Implicit Types (l : io_loop K) (d : dir) (fd : Z).

(** *** Abstract operations: who waits for what, and what epoll watches *)

Definition subs := Z → dir → option cb.
Definition masks := Z → option Z.

Definition subs_set fd d (f : option cb) (s : subs) : subs :=
  λ fd' d', if decide (fd' = fd ∧ d' = d) then f else s fd' d'.
Definition subs_drop fd (ev : Z) (s : subs) : subs :=
  λ fd' d', if decide (fd' = fd) then if has ev (bit d') then None else s fd' d' else s fd' d'.
Definition masks_add fd (b : Z) (m : masks) : masks :=
  λ fd', if decide (fd' = fd) then Some (default 0 (m fd) ||| b) else m fd'.
Definition masks_drop fd (ev : Z) (m : masks) : masks :=
  λ fd', if decide (fd' = fd) then
           m0 ← m fd; let m1 := m0 &&& u32 (Z.lnot ev) in if m1 =? 0 then None else Some m1
         else m fd'.

Lemma wait_fd_wf d fd f l l' :
  0 <= fd → table_wf l → (length (_fds l') ≤ _fds_capacity l')%nat →
  (∀ fd', ent l' fd' = if decide (fd' = fd) then waiting d fd f (ent l fd) else ent l fd') →
  table_wf l'.
Proof.
  intros Hfd [Hwf _] Hcap Hent. split; [|done]. intros fd' Hfd'. rewrite Hent.
  case_decide; [subst; apply waiting_wf|]; auto.
Qed.

Lemma wait_fd_watched d fd f l l' :
  0 <= fd → table_wf l →
  (∀ fd', ent l' fd' = if decide (fd' = fd) then waiting d fd f (ent l fd) else ent l fd') →
  ∀ fd', watched l' fd' = masks_add fd (bit d) (watched l) fd'.
Proof.
  intros Hfd Hwf Hent fd'. unfold watched, masks_add. rewrite Hent.
  case_decide; [subst fd'|done].
  pose proof (wf_entry _ Hwf fd Hfd) as He. unfold waiting. set (e := ent l fd) in *.
  destruct (_fd e =? -1) eqn:E.
  - rewrite (proj2 (Z.eqb_neq _ _)) by (destruct d; simpl; lia). by destruct d.
  - rewrite (proj2 (Z.eqb_neq _ _)) by (bool_prop; destruct d; simpl; lia). by destruct d.
Qed.

Lemma wait_fd_subs d fd f l l' :
  (∀ fd', ent l' fd' = if decide (fd' = fd) then waiting d fd f (ent l fd) else ent l fd') →
  ∀ fd' d', sub l' fd' d' = subs_set fd d f (sub l) fd' d'.
Proof.
  intros Hent fd' d'. unfold sub, subs_set. rewrite Hent. destruct (decide (fd' = fd)) as [->|].
  - unfold waiting. destruct (decide (fd = fd ∧ d' = d)) as [[_ ->]|Hne].
    + by destruct d.
    + assert (d' ≠ d) by tauto. by destruct (_ =? -1), d, d'.
  - by rewrite decide_False by tauto.
Qed.

Lemma masks_or_same l fd d m :
  table_wf l → 0 <= fd → watched l fd = Some m → has m (bit d) = true → m ||| bit d = m.
Proof.
  intros Hwf Hfd. unfold watched. destruct (_ =? -1) eqn:E; [done|]. intros [= <-]. bool_prop.
  apply (wf_or_same fd); [|done]. by apply wf_entry.
Qed.

Lemma wait_fd_sync d fd f l l' :
  0 <= fd → table_wf l → kernel_sync l →
  (∀ fd', ent l' fd' = if decide (fd' = fd) then waiting d fd f (ent l fd) else ent l fd') →
  _kernel l' = wait_kernel d fd l → kernel_sync l'.
Proof.
  intros Hfd Hwf [Hsync Hserve] Hent Hk. pose proof (ctl_serves_now _ Hserve) as [Hadd Hmod _].
  split; [intros fd'|rewrite Hk; by apply wait_kernel_serves].
  rewrite Hk, (wait_fd_watched d fd f l) by done.
  unfold wait_kernel, masks_add. pose proof (Hsync fd) as Hfds.
  destruct (watched l fd) as [m|] eqn:E; simpl.
  - destruct (has m (bit d)) eqn:Eb.
    + rewrite Hsync. case_decide; [|done]. subst.
      by rewrite (masks_or_same l fd d m).
    + destruct (ctl_mod _ _ _ (Hmod fd (m ||| bit d) (ex_intro _ m Hfds))) as [_ ->].
      rewrite lookup_insert. repeat case_decide; congruence || apply Hsync.
  - destruct (ctl_add _ _ _ (Hadd fd (bit d) Hfds)) as [_ ->].
    rewrite lookup_insert, Z.lor_0_l || rewrite lookup_insert.
    repeat case_decide; congruence || apply Hsync.
Qed.

Lemma cancel_ev_watched ev fd l l' :
  0 <= fd → table_wf l → cancel_mask ev →
  (∀ fd', ent l' fd' = if decide (fd' = fd) then cancelled ev (ent l fd) else ent l fd') →
  ∀ fd', watched l' fd' = masks_drop fd ev (watched l) fd'.
Proof.
  intros Hfd Hwf Hev Hent fd'. unfold watched, masks_drop. rewrite Hent.
  case_decide; [subst fd'|done].
  pose proof (wf_entry _ Hwf fd Hfd) as He. unfold cancelled. set (e := ent l fd) in *.
  destruct (_fd e =? -1) eqn:E; cbn [mbind option_bind]; [by rewrite E|]. cbv zeta.
  destruct (_ =? 0); [done|]. simpl. by rewrite E.
Qed.

Lemma cancel_ev_subs ev fd l l' :
  0 <= fd → table_wf l → cancel_mask ev →
  (∀ fd', ent l' fd' = if decide (fd' = fd) then cancelled ev (ent l fd) else ent l fd') →
  ∀ fd' d', sub l' fd' d' = subs_drop fd ev (sub l) fd' d'.
Proof.
  intros Hfd Hwf Hev Hent fd' d'. unfold sub, subs_drop. rewrite Hent.
  case_decide; [subst fd'|done]. apply (cancelled_func fd); [by apply wf_entry|done].
Qed.

Lemma cancel_ev_wf ev fd l l' :
  table_wf l → cancel_mask ev → (length (_fds l') ≤ _fds_capacity l')%nat →
  (∀ fd', ent l' fd' = if decide (fd' = fd) then cancelled ev (ent l fd) else ent l fd') →
  table_wf l'.
Proof.
  intros [Hwf _] Hev Hcap Hent. split; [|done]. intros fd' Hfd'. rewrite Hent.
  case_decide; [subst; apply cancelled_wf|]; auto.
Qed.

Lemma cancel_ev_sync ev fd l l' :
  0 <= fd → table_wf l → cancel_mask ev → kernel_sync l →
  (∀ fd', ent l' fd' = if decide (fd' = fd) then cancelled ev (ent l fd) else ent l fd') →
  _kernel l' = cancel_kernel ev fd l → kernel_sync l'.
Proof.
  intros Hfd Hwf Hev [Hsync Hserve] Hent Hk. pose proof (ctl_serves_now _ Hserve) as [_ Hmod Hdel].
  split; [intros fd'|rewrite Hk; by apply cancel_kernel_serves].
  rewrite Hk, (cancel_ev_watched ev fd l) by done.
  unfold cancel_kernel, masks_drop. pose proof (Hsync fd) as Hfds.
  destruct (watched l fd) as [m|] eqn:E; cbn [mbind option_bind]; cbv zeta.
  - destruct (_ =? 0).
    + destruct (ctl_del _ _ _ (Hdel fd 0 (ex_intro _ m Hfds))) as [_ ->].
      rewrite lookup_delete. repeat case_decide; congruence || apply Hsync.
    + destruct (ctl_mod _ _ _ (Hmod fd (m &&& u32 (Z.lnot ev))
        (ex_intro _ m Hfds))) as [_ ->].
      rewrite lookup_insert. repeat case_decide; congruence || apply Hsync.
  - rewrite Hsync. case_decide; congruence.
Qed.

(** *** Sequences of table operations *)

Inductive table_op :=
  | TWait (d : dir) (fd : Z) (f : cb)
  | TCancel (fd ev : Z).

Definition table_step ndebug self (op : table_op) l : res (io_loop K) :=
  match op with
  | TWait d fd f => fst <$> wait_fd (bit d) fd (Some f) l
  | TCancel fd ev => fst <$> cancel_ev ndebug self fd ev l
  end.

Fixpoint table_run ndebug self (ops : list table_op) l : res (io_loop K) :=
  match ops with
  | [] => Ok l
  | op :: ops => l ← table_step ndebug self op l; table_run ndebug self ops l
  end.

Definition table_op_ok (op : table_op) : Prop :=
  match op with
  | TWait _ fd _ => 0 <= fd
  | TCancel fd ev => 0 <= fd ∧ cancel_mask ev
  end.

Lemma is_local_rest self l l' :
  rest l' = rest l → is_local_thread self l' = is_local_thread self l.
Proof.
  intros H%(f_equal (λ r, r.1.1.1.1.1.1.1.2)). simpl in H. unfold is_local_thread. by rewrite H.
Qed.

Lemma table_run_inv ndebug self ops l :
  Forall table_op_ok ops → table_wf l → kernel_sync l → is_local_thread self l = true →
  ∃ l', table_run ndebug self ops l = Ok l' ∧ table_wf l' ∧ kernel_sync l' ∧ rest l' = rest l.
Proof.
  intros Hops. revert l. induction Hops as [|op ops Hop _ IH]; intros l Hwf Hsync Hself.
  { eauto. }
  assert (∃ l1, table_step ndebug self op l = Ok l1 ∧ table_wf l1 ∧ kernel_sync l1 ∧
    rest l1 = rest l) as (l1 & E & Hwf1 & Hsync1 & Hrest1).
  { destruct op as [d fd f|fd ev]; simpl in *.
    - destruct (wait_fd_spec d fd (Some f) l Hop Hwf)
        as (l1 & rc & -> & Hent & Hk & Hrest & Hcap & _).
      exists l1. split_and!; eauto using wait_fd_wf, wait_fd_sync.
    - destruct Hop as [Hfd Hev].
      destruct (cancel_ev_spec ndebug self fd ev l Hfd Hwf Hev Hself)
        as (l1 & rc & -> & Hent & Hk & Hrest & Hcap & _).
      exists l1. split_and!; eauto using cancel_ev_wf, cancel_ev_sync. }
  destruct (IH l1 Hwf1 Hsync1) as (l2 & E2 & Hwf2 & Hsync2 & Hrest2).
  { by rewrite (is_local_rest self l). }
  exists l2. simpl. rewrite E. simpl. split_and!; [done..|]. congruence.
Qed.

Lemma init_inv k event_fd :
  interest k = ∅ → ctl_serves k → 0 <= event_fd →
  ∃ l, io_loop_init k event_fd = Ok l ∧ table_wf l ∧ kernel_sync l ∧
    (∀ fd d, sub l fd d = if decide (fd = event_fd ∧ d = DirR) then Some loop_cb else None) ∧
    rest l = rest (IoLoop K 0 None event_fd 0 [] 256 0 [] [] [] 0 0 k).
Proof.
  intros Hk Hserve Hfd. unfold io_loop_init, wait_read. set (l0 := IoLoop K _ _ _ _ _ _ _ _ _ _ _ _ _).
  assert (∀ fd, ent l0 fd = es_file_default) as Hent0.
  { intros fd. unfold ent. by case_cond. }
  assert (table_wf l0) as Hwf0.
  { split; [|simpl; lia]. intros fd _. rewrite Hent0. apply entry_wf_default. }
  assert (kernel_sync l0) as Hsync0.
  { split; [|done]. intros fd. unfold watched. by rewrite Hent0; simpl; rewrite Hk, lookup_empty. }
  destruct (wait_fd_spec DirR event_fd (Some loop_cb) l0 Hfd Hwf0)
    as (l1 & rc & E & Hent & Hkk & Hrest & Hcap & _).
  simpl in E. rewrite E. exists l1.
  split_and!; eauto using wait_fd_wf, wait_fd_sync.
  intros fd d. rewrite (wait_fd_subs _ _ _ _ _ Hent). unfold subs_set. case_decide; [done|].
  unfold sub. by rewrite Hent0; destruct d.
Qed.

(** The destructor takes the event descriptor off the interest list and closes
    both descriptors. *)
Lemma io_loop_destroy_spec epoll_fd closed l :
  kernel_sync l → is_Some (watched l (_event_fd l)) →
  interest (_kernel (io_loop_destroy epoll_fd closed l).1) = delete (_event_fd l) (interest (_kernel l)) ∧
  {[epoll_fd; _event_fd l]} ⊆ (io_loop_destroy epoll_fd closed l).2.
Proof.
  intros [Hs Hserve] Hw. rewrite <- Hs in Hw. unfold io_loop_destroy, Epoll_ctl_del, ctl.
  destruct (ctl_del _ _ _ (ctl_del_ok _ (ctl_serves_now _ Hserve) (_event_fd l) 0 Hw)) as [_ Hk].
  destruct (epoll_ctl _ _ _ _) as [k rc]. simpl in *. split; [done|].
  rewrite (assoc_L (∪)). apply union_subseteq_l.
Qed.

(** *** Properties *)

(** C24. [wait_fd] (and so [wait_read], [wait_write]) implements its abstract
    contract for every descriptor, known or new, inside the vector or beyond
    it: the callback becomes the one waiting for that direction, the direction
    joins the watched mask, and nothing else changes. *)
Theorem wait_fd_refines (d : dir) (fd : Z) (f : cb) (l : io_loop K)
  (Hfd : 0 <= fd) (Hwf : table_wf l) :
  ∃ l' rc, wait_fd (bit d) fd (Some f) l = Ok (l', rc) ∧ table_wf l' ∧
    (∀ fd' d', sub l' fd' d' = subs_set fd d (Some f) (sub l) fd' d') ∧
    (∀ fd', watched l' fd' = masks_add fd (bit d) (watched l) fd') ∧
    rest l' = rest l.
Proof.
  destruct (wait_fd_spec d fd (Some f) l Hfd Hwf) as (l1 & rc & -> & Hent & _ & Hrest & Hcap & _).
  exists l1, rc. split_and!; eauto using wait_fd_wf, wait_fd_subs, wait_fd_watched.
Qed.

(** C25. [cancel_ev] implements its abstract contract: on the loop thread it
    removes exactly the callbacks of the cancelled directions, keeps the other
    direction waiting and watched, and forgets the descriptor when no
    direction is left. *)
Theorem cancel_ev_refines (ndebug : bool) (self fd ev : Z) (l : io_loop K)
  (Hfd : 0 <= fd) (Hev : cancel_mask ev) (Hwf : table_wf l)
  (Hself : is_local_thread self l = true) :
  ∃ l' rc, cancel_ev ndebug self fd ev l = Ok (l', rc) ∧ table_wf l' ∧
    (∀ fd' d', sub l' fd' d' = subs_drop fd ev (sub l) fd' d') ∧
    (∀ fd', watched l' fd' = masks_drop fd ev (watched l) fd') ∧
    rest l' = rest l.
Proof.
  destruct (cancel_ev_spec ndebug self fd ev l Hfd Hwf Hev Hself)
    as (l1 & rc & -> & Hent & _ & Hrest & Hcap & _).
  exists l1, rc. split_and!; eauto using cancel_ev_wf, cancel_ev_subs, cancel_ev_watched.
Qed.

(** C11. No lost registration: starting from the constructor, after any
    sequence of waits and cancellations on the loop thread, and as long as the
    kernel takes every [epoll_ctl] order (the code ignores a failure), the kernel's
    interest list is exactly what the table says, and every waiting callback's
    direction is in the mask the kernel watches for its descriptor. *)
Theorem waiters_registered (ndebug : bool) (self event_fd : Z) (k : K) (ops : list table_op)
  (Hk : interest k = ∅) (Hserve : ctl_serves k) (Hefd : 0 <= event_fd)
  (Hops : Forall table_op_ok ops) :
  ∃ l0 l, io_loop_init k event_fd = Ok l0 ∧
    table_run ndebug self ops (set_thread_id (Some self) l0) = Ok l ∧
    table_wf l ∧ kernel_sync l ∧
    ∀ fd d c, sub l fd d = Some c →
      ∃ m, interest (_kernel l) !! fd = Some m ∧ has m (bit d) = true.
Proof.
  destruct (init_inv k event_fd Hk Hserve Hefd) as (l0 & E0 & Hwf0 & Hsync0 & _).
  destruct (table_run_inv ndebug self ops (set_thread_id (Some self) l0) Hops)
    as (l & E & Hwf & Hsync & _).
  { destruct Hwf0. by split. }
  { by destruct Hsync0; split. }
  { unfold is_local_thread. simpl. by rewrite bool_decide_true. }
  exists l0, l. split_and!; [done..|]. intros fd d c Hsub.
  assert (0 <= fd) as Hfd.
  { unfold sub, ent in Hsub. destruct (fd <? 0) eqn:Efd; bool_prop; [by destruct d|lia]. }
  pose proof (wf_entry _ Hwf fd Hfd) as He. rewrite (ks_interest _ Hsync). unfold watched, sub in *.
  destruct (_ =? -1) eqn:E1; bool_prop.
  - by rewrite (wf_free _ _ He E1) in Hsub; destruct d.
  - eexists. split; [done|]. apply (wf_func _ _ He). by rewrite Hsub.
Qed.
End table.

(** ** Dispatch *)

Section dispatch.
Context {K U : Type} `{!Epoll K} `{!EpollLaws K} `{!Callbacks K U}.
Variable ndebug : bool.
Implicit Type w : world K U.

(** The table is well formed, and the loop itself waits on its event
    descriptor, for reading, and nowhere else. *)
Record loop_inv (l : io_loop K) : Prop := {
  li_wf : table_wf l;
  li_own fd d : sub l fd d = Some loop_cb → fd = _event_fd l ∧ d = DirR;
  li_event : has (_event (ent l (_event_fd l))) EPOLLIN = true;
}.

(** What a callback may do to the loop while an event batch is dispatched:
    keep the invariant, not reallocate the table, and (with assertions
    enabled) not unregister a descriptor. *)
Record behaves w w' : Prop := {
  bh_inv : loop_inv (w_loop w) → loop_inv (w_loop w');
  bh_epoch : epoch w' = epoch w;
  bh_length : (length (_fds (w_loop w)) ≤ length (_fds (w_loop w')))%nat;
  bh_event_fd : _event_fd (w_loop w') = _event_fd (w_loop w);
  bh_watched : ndebug = false → ∀ fd,
    is_Some (watched (w_loop w) fd) → is_Some (watched (w_loop w') fd);
}.

#[export] Instance behaves_preorder : PreOrder behaves.
Proof.
  split; [by intros w; split|]. intros w1 w2 w3 [] [].
  split; [auto|congruence|lia|congruence|auto].
Qed.

Class CallbacksBehave : Prop := {
  file_event_behaves c fd ev w : c ≠ loop_cb → loop_inv (w_loop w) →
    ∃ w', on_file_event c fd ev w = Ok w' ∧ behaves w w';
  call_func_behaves f w : loop_inv (w_loop w) →
    ∃ w', call_func f w = Ok w' ∧ behaves w w';
}.
Context `{!CallbacksBehave}.

Lemma call_all_behaves fs w :
  loop_inv (w_loop w) → ∃ w', call_all fs w = Ok w' ∧ behaves w w'.
Proof.
  revert w. induction fs as [|f fs IH]; intros w Hinv; simpl; [by exists w|].
  destruct (call_func_behaves f w Hinv) as (w1 & -> & H1).
  destruct (IH w1 (bh_inv _ _ H1 Hinv)) as (w2 & E & H2). exists w2. simpl.
  split; [done|by etrans].
Qed.

(** Storing an entry that differs in its callbacks only. *)
Lemma put_behaves w fd e :
  0 <= fd < Z.of_nat (length (_fds (w_loop w))) →
  (entry_wf fd (ent (w_loop w) fd) → entry_wf fd e) →
  _fd e = _fd (ent (w_loop w) fd) → _event e = _event (ent (w_loop w) fd) →
  (∀ d, func d e = Some loop_cb → fd = _event_fd (w_loop w) ∧ d = DirR) →
  behaves w (on_loop (fds_put fd e) w).
Proof.
  intros Hfd He Hfe Hev Hown. split; simpl.
  - intros [[Hwf Hcap] Ho Hi]. split.
    + split; [|simpl; by rewrite length_insert].
      intros fd' Hfd'. rewrite ent_put by done. case_decide; [subst|]; auto.
    + intros fd' d. unfold sub. rewrite ent_put by done. case_decide; [subst; apply Hown|apply Ho].
    + simpl. rewrite ent_put by done. case_decide as Hd; [|done]. by rewrite Hev, <- Hd.
  - done.
  - by rewrite length_insert.
  - done.
  - intros _ fd'. unfold watched. rewrite ent_put by done. case_decide; [subst|done].
    rewrite Hfe. destruct (_ =? -1); eauto.
Qed.

Lemma on_rest_behaves w (g : io_loop K → io_loop K) :
  _fds (g (w_loop w)) = _fds (w_loop w) →
  _fds_capacity (g (w_loop w)) = _fds_capacity (w_loop w) →
  _fds_epoch (g (w_loop w)) = _fds_epoch (w_loop w) →
  _event_fd (g (w_loop w)) = _event_fd (w_loop w) → behaves w (on_loop g w).
Proof.
  intros Hf Hc He Hev.
  assert (∀ fd, ent (g (w_loop w)) fd = ent (w_loop w) fd) as Hent.
  { intros fd. unfold ent. by rewrite Hf. }
  split; unfold epoch, sub, watched; simpl; rewrite ?Hf; try done.
  - intros [[Hwf Hcap] Ho Hi]. split.
    + split; [intros fd; rewrite Hent; auto|]. by rewrite Hf, Hc.
    + intros fd d. unfold sub. rewrite Hent, Hev. apply Ho.
    + by rewrite Hev, Hent.
  - intros _ fd. by rewrite Hent.
Qed.

Lemma loop_event_behaves w :
  loop_inv (w_loop w) → 0 <= _event_fd (w_loop w) < Z.of_nat (length (_fds (w_loop w))) →
  ∃ w', loop_on_file_event (_event_fd (w_loop w)) w = Ok w' ∧ behaves w w'.
Proof.
  intros Hinv Hfd. unfold loop_on_file_event. set (efd := _event_fd (w_loop w)) in *.
  set (w1 := on_loop _ w).
  assert (behaves w w1) as H1 by (by apply on_rest_behaves).
  destruct (call_all_behaves (_async_funcs_tmp (w_loop w1)) w1 (bh_inv _ _ H1 Hinv))
    as (w2 & -> & H2). cbn [mbind res_bind].
  set (w3 := on_loop _ w2).
  assert (behaves w2 w3) as H3 by (by apply on_rest_behaves).
  assert (behaves w w3) as Hb by (do 2 (etrans; [done|]); done).
  pose proof (bh_inv _ _ Hb Hinv) as Hinv3.
  rewrite bool_decide_true by apply Hb. cbn [require mbind res_bind].
  pose proof (bh_length _ _ Hb). pose proof (bh_event_fd _ _ Hb) as Hefd. fold efd in Hefd.
  assert (0 <= efd < Z.of_nat (length (_fds (w_loop w3)))) as Hr by lia.
  rewrite fds_at_ent by done. cbn [mbind res_bind]. eexists. split; [done|].
  etrans; [exact Hb|]. apply put_behaves; [exact Hr| |done..|].
  - intros He. pose proof (li_event _ Hinv3) as Hin. rewrite Hefd in Hin.
    destruct He as [E1 E2 E3 E4]. split; simpl; try done.
    + intros E. rewrite (E1 E) in Hin. done.
    + intros []; simpl; [done|]. apply (E4 DirW).
  - intros []; cbn [func _func_r _func_w]; [by rewrite Hefd|]. intros Hs.
    destruct (li_own _ Hinv3 efd DirW Hs) as [_ ?]. done.
Qed.

Lemma file_event_ok c fd code w :
  loop_inv (w_loop w) → 0 <= fd < Z.of_nat (length (_fds (w_loop w))) →
  (c = loop_cb → fd = _event_fd (w_loop w)) →
  ∃ w', file_event c fd code w = Ok w' ∧ behaves w w'.
Proof.
  intros Hinv Hfd Hc. unfold file_event. case_decide.
  - rewrite Hc in * by done. by apply loop_event_behaves.
  - by apply file_event_behaves.
Qed.

(** Clearing the callback of one direction. *)
Lemma clear_behaves w fd d :
  loop_inv (w_loop w) → 0 <= fd < Z.of_nat (length (_fds (w_loop w))) →
  behaves w (on_loop (fds_put fd (set_func d None (ent (w_loop w) fd))) w).
Proof.
  intros Hinv Hfd. apply put_behaves; [done| |by destruct d..|].
  - intros [E1 E2 E3 E4]. split; try (by destruct d).
    + intros E. assert (ent (w_loop w) fd = es_file_default) as -> by (apply E1; by destruct d).
      by destruct d.
    + pose proof (E4 DirR). pose proof (E4 DirW). destruct d; intros []; simpl in *; auto;
        by intros [? ?].
  - intros d' Hd'. assert (sub (w_loop w) fd d' = Some loop_cb) as Hs.
    { unfold sub. by destruct d, d'. }
    by apply (li_own _ Hinv).
Qed.

Lemma fire_ok d ok fd code w :
  loop_inv (w_loop w) → 0 <= fd < Z.of_nat (length (_fds (w_loop w))) →
  ∃ w', match d with DirW => fire_w | DirR => fire_r end ok fd code w = Ok w' ∧ behaves w w'.
Proof.
  intros Hinv Hfd.
  assert (match d with DirW => fire_w | DirR => fire_r end ok fd code w =
    match func d (ent (w_loop w) fd) with
    | Some f => if ok then file_event f fd code
                 (on_loop (fds_put fd (set_func d None (ent (w_loop w) fd))) w) else Ok w
    | None => Ok w end) as ->.
  { unfold fire_r, fire_w. by destruct d; rewrite fds_at_ent by done. }
  destruct (func d _) as [f|] eqn:Ef; [|by exists w]. destruct ok; [|by exists w].
  pose proof (clear_behaves w fd d Hinv Hfd) as H1.
  destruct (file_event_ok f fd code _ (bh_inv _ _ H1 Hinv)) as (w' & E & H2).
  - pose proof (bh_length _ _ H1). lia.
  - intros ->. rewrite (bh_event_fd _ _ H1). by apply (li_own _ Hinv fd d).
  - exists w'. split; [done|]. by etrans.
Qed.

Lemma assert_subscribed_ok d ok fd w :
  loop_inv (w_loop w) → 0 <= fd →
  assert_subscribed ndebug ok (func d (ent (w_loop w) fd)) (_event (ent (w_loop w) fd)) (bit d)
  = Ok ().
Proof.
  intros Hinv Hfd. unfold assert_subscribed, c_assert.
  destruct (func d _) eqn:E; [|done]. destruct ok, ndebug; try done.
  by rewrite (wf_func fd _ (wf_entry _ (li_wf _ Hinv) fd Hfd) d) by (by rewrite E).
Qed.

Lemma set_kernel_behaves w k : behaves w (on_loop (set_kernel k) w).
Proof. by apply on_rest_behaves. Qed.

Lemma dispatch_event_ok ev w :
  loop_inv (w_loop w) → 0 <= ev.1 →
  ndebug = true ∨ is_Some (watched (w_loop w) ev.1) →
  ∃ w', dispatch_event ndebug ev w = Ok w' ∧ behaves w w'.
Proof.
  intros Hinv Hfd Hw. destruct ev as [fd events]. simpl in Hfd, Hw. unfold dispatch_event.
  destruct (_ <=? fd) eqn:Elen; [by exists w|]. bool_prop.
  rewrite fds_at_ent by lia. cbn [mbind res_bind].
  destruct (_ =? -1) eqn:E1.
  { assert (ndebug = true) as ->.
    { destruct Hw as [|[m Hm]]; [done|]. unfold watched in Hm. by rewrite E1 in Hm. }
    by exists w. }
  destruct (has events EV_ERR).
  - destruct (so_error _ _) as [k r]. pose proof (set_kernel_behaves w k) as H1.
    destruct (fire_ok DirW true fd (- default 0 r) _ (bh_inv _ _ H1 Hinv)) as (w2 & E2 & H2).
    { simpl. lia. }
    rewrite E2. cbn [mbind res_bind].
    assert (behaves w w2) as H12 by (by etrans).
    rewrite bool_decide_true by apply H12. cbn [require mbind res_bind].
    destruct (fire_ok DirR true fd (- default 0 r) w2 (bh_inv _ _ H12 Hinv)) as (w3 & E3 & H3).
    { pose proof (bh_length _ _ H12). lia. }
    exists w3. split; [done|by etrans].
  - rewrite (assert_subscribed_ok DirW _ fd w) by done. cbn [mbind res_bind].
    destruct (fire_ok DirW (has events EV_OUT) fd EM_WRITE w Hinv) as (w2 & E2 & H2); [lia|].
    rewrite E2. cbn [mbind res_bind].
    rewrite bool_decide_true by apply H2. cbn [require mbind res_bind].
    pose proof (bh_length _ _ H2). pose proof (bh_inv _ _ H2 Hinv) as Hinv2.
    rewrite fds_at_ent by lia. cbn [mbind res_bind].
    rewrite (assert_subscribed_ok DirR _ fd w2) by done. cbn [mbind res_bind].
    destruct (fire_ok DirR (has events EV_IN) fd EM_READ w2 Hinv2) as (w3 & E3 & H3); [lia|].
    exists w3. split; [done|by etrans].
Qed.

(** Dispatching a batch of events is safe: if the callbacks keep the
    loop's invariant, do not reallocate the table and (with assertions on) do
    not unregister descriptors, then for any batch on registered descriptors no
    assertion fails, no stale reference is used and the invariant holds
    again. *)
Theorem dispatch_all_safe (evs : list (Z * Z)) (w : world K U)
  (Hinv : loop_inv (w_loop w))
  (Hevs : Forall (λ ev, 0 <= ev.1 ∧
            (ndebug = true ∨ is_Some (watched (w_loop w) ev.1))) evs) :
  ∃ w', dispatch_all ndebug evs w = Ok w' ∧ behaves w w'.
Proof.
  assert (∀ w0, behaves w w0 → ∃ w', dispatch_all ndebug evs w0 = Ok w' ∧ behaves w w')
    as Hgen; [|by apply (Hgen w)].
  induction Hevs as [|ev evs [Hev Hw] _ IH]; intros w0 H0; [by exists w0|].
  destruct (dispatch_event_ok ev w0 (bh_inv _ _ H0 Hinv) Hev) as (w1 & E1 & H1).
  { destruct Hw as [|Hw]; [by left|]. destruct ndebug eqn:Hn; [by left|right].
    by apply (bh_watched _ _ H0). }
  simpl. rewrite E1. simpl. apply IH. by etrans.
Qed.
End dispatch.

(** ** Witnesses *)

Lemma wait_fd_refines_witness :
  ∃ l, io_loop_init (∅ : gmap Z Z) 3 = Ok l ∧
  ∃ l' rc, wait_fd (bit DirW) 7 (Some 5%nat) l = Ok (l', rc) ∧ table_wf l' ∧
    (∀ fd' d', sub l' fd' d' = subs_set 7 DirW (Some 5%nat) (sub l) fd' d') ∧
    (∀ fd', watched l' fd' = masks_add 7 (bit DirW) (watched l) fd') ∧
    rest l' = rest l.
Proof.
  destruct (init_inv (∅ : gmap Z Z) 3) as (l & E & Hwf & _); [reflexivity|apply gmap_ctl_serves|lia|].
  exists l. split; [exact E|]. apply (wait_fd_refines DirW 7 5%nat l).
  - lia.
  - exact Hwf.
Defined.

Lemma cancel_ev_refines_witness :
  ∃ l, io_loop_init (∅ : gmap Z Z) 3 = Ok l ∧
  let l1 := set_thread_id (Some 1) l in
  ∃ l' rc, cancel_ev false 1 3 EPOLLIN l1 = Ok (l', rc) ∧ table_wf l' ∧
    (∀ fd' d', sub l' fd' d' = subs_drop 3 EPOLLIN (sub l1) fd' d') ∧
    (∀ fd', watched l' fd' = masks_drop 3 EPOLLIN (watched l1) fd') ∧
    rest l' = rest l1.
Proof.
  destruct (init_inv (∅ : gmap Z Z) 3) as (l & E & [Hwf Hcap] & _); [reflexivity|apply gmap_ctl_serves|lia|].
  exists l. split; [exact E|]. apply (cancel_ev_refines false 1 3 EPOLLIN (set_thread_id (Some 1) l)).
  - lia.
  - by left.
  - by split.
  - reflexivity.
Defined.

Definition demo_table_ops : list table_op :=
  [TWait DirR 5 1%nat; TWait DirW 5 2%nat; TWait DirW 300 3%nat; TCancel 5 EPOLLIN].

Lemma waiters_registered_witness :
  ∃ l0 l, io_loop_init (∅ : gmap Z Z) 3 = Ok l0 ∧
    table_run false 1 demo_table_ops (set_thread_id (Some 1) l0) = Ok l ∧
    table_wf l ∧ kernel_sync l ∧
    ∀ fd d c, sub l fd d = Some c →
      ∃ m, interest (_kernel l) !! fd = Some m ∧ has m (bit d) = true.
Proof.
  apply (waiters_registered false 1 3 (∅ : gmap Z Z) demo_table_ops).
  - reflexivity.
  - apply gmap_ctl_serves.
  - lia.
  - repeat (apply Forall_cons; split; [simpl; first [lia | split; [lia|by left]]|]). by apply Forall_nil.
Defined.

(** Callbacks that only write down that they ran. *)
Definition log_entry : Type := cb * Z * Z.
#[export] Instance log_callbacks : Callbacks (gmap Z Z) (list log_entry) := {
  on_file_event c fd ev w := Ok (World (w_loop w) (w_user w ++ [(c, fd, ev)]));
  on_time_event c t w := Ok (World (w_loop w) (w_user w ++ [(c, -1, _id t)]));
  call_func f w := Ok (World (w_loop w) (w_user w ++ [(f, -2, 0)]));
}.

#[export] Instance log_callbacks_behave ndebug :
  CallbacksBehave (K := gmap Z Z) (U := list log_entry) ndebug.
Proof. split; intros; eexists; (split; [done|]); by split. Qed.

Lemma init_loop_inv k event_fd :
  interest k = ∅ → 0 <= event_fd →
  ∃ l, io_loop_init (k : gmap Z Z) event_fd = Ok l ∧ loop_inv l ∧
    is_Some (watched l event_fd) ∧ _event_fd l = event_fd.
Proof.
  intros Hk Hfd. destruct (init_inv k event_fd Hk (gmap_ctl_serves k) Hfd) as (l & E & Hwf & Hsync & Hsub & Hrest).
  exists l. split; [done|].
  assert (_event_fd l = event_fd) as Hev by (by injection Hrest).
  pose proof (wf_entry _ Hwf event_fd Hfd) as He.
  assert (has (_event (ent l event_fd)) EPOLLIN = true) as Hin.
  { apply (wf_func _ _ He DirR). specialize (Hsub event_fd DirR). unfold sub in Hsub.
    rewrite Hsub. by rewrite decide_True. }
  assert (is_Some (watched l event_fd)) as Hw.
  { unfold watched. destruct (_ =? -1) eqn:E1; [|by eauto]. bool_prop.
    by rewrite (wf_free _ _ He E1) in Hin. }
  split; [|done]. split; [done| |by rewrite Hev].
  rewrite Hev. intros fd d. rewrite Hsub. by case_decide.
Qed.

Lemma dispatch_all_safe_witness :
  ∃ l, io_loop_init (∅ : gmap Z Z) 3 = Ok l ∧
  ∃ w', dispatch_all false [(3, EPOLLIN); (3, EPOLLIN)] (World l ([] : list log_entry)) = Ok w' ∧
    behaves false (World l []) w'.
Proof.
  destruct (init_loop_inv ∅ 3) as (l & E & Hinv & Hw & _); [reflexivity|lia|].
  exists l. split; [exact E|].
  apply (dispatch_all_safe false [(3, EPOLLIN); (3, EPOLLIN)] (World l [])).
  - exact Hinv.
  - repeat (apply Forall_cons; split; [split; [simpl; lia|right; exact Hw]|]). by apply Forall_nil.
Defined.
