(* ===== verification/LoopHazards.v ===== *)
(** * What the dispatch loop does not tolerate

    The theorem on safe dispatch asks two things of callbacks: that they do not
    unregister a descriptor and do not grow the descriptor table while a batch of
    events is being dispatched.  Both are needed: the runs below use only the
    loop's own operations from inside a callback. *)

From S2P Require Import Prelude StdHeap IoLoop IoLoopFacts IoLoopProps.

(** Callback 1 closes its peer, descriptor 6; callback 2 starts to wait on a
    descriptor beyond the table's capacity; others do nothing. *)
#[local] Instance meddling_callbacks : Callbacks (gmap Z Z) unit := {
  on_file_event c fd ev w :=
    match c with
    | 1%nat => (λ l, World l ()) <$> cancel_fdall false 1 6 (w_loop w)
    | 2%nat => (λ l, World l ()) <$> wait_read 300 (Some 9%nat) (w_loop w)
    | _ => Ok w
    end;
  on_time_event c t w := Ok w;
  call_func f w := Ok w;
}.

(** A fresh loop on thread 1 with some registrations. *)
Definition setup (ops : list table_op) : res (world (gmap Z Z) unit) :=
  l ← io_loop_init (∅ : gmap Z Z) 3;
  l ← table_run false 1 ops (set_thread_id (Some 1) l);
  Ok (World l ()).

(** An event already fetched for a descriptor that an earlier callback of
    the same batch has unregistered ends in [assert(false)]: descriptors 5 and 6
    become readable together and the callback of 5 cancels 6.  The same batch in
    the other order, and the build without assertions, go through. *)
Theorem stale_event_asserts :
  let w := setup [TWait DirR 5 1%nat; TWait DirR 6 4%nat] in
  (w ≫= dispatch_all false [(5, EPOLLIN); (6, EPOLLIN)]) = Fail AssertFail ∧
  (∃ w', (w ≫= dispatch_all false [(6, EPOLLIN); (5, EPOLLIN)]) = Ok w') ∧
  (∃ w', (w ≫= dispatch_all true [(5, EPOLLIN); (6, EPOLLIN)]) = Ok w').
Proof. vm_compute. split; [reflexivity|]. split; eexists; reflexivity. Qed.

(** A writer's callback that starts to wait on a descriptor at or beyond
    the table's capacity reallocates [_fds], and the loop goes on to use its
    reference into the old storage for the reader of the same event. *)
Theorem grown_table_dangles :
  let w := setup [TWait DirR 5 4%nat; TWait DirW 5 2%nat] in
  (w ≫= dispatch_all true [(5, EPOLLIN ||| EPOLLOUT)]) = Fail DanglingRef.
Proof. vm_compute. reflexivity. Qed.
