(* ===== verification/Timers.v ===== *)
(** * Theorems about the timers of the event loop ([io_loop.h]) *)

From S2P Require Import Prelude StdHeap IoLoop.

Section timers.
Context {K : Type} `{!StdHeap compare_timer}.
Implicit Type l : io_loop K.

(** The vector is a heap on the due time, timer ids are distinct, positive
    and were handed out by the counter. *)
Record timer_inv l : Prop := {
  ti_heap : is_heap compare_timer (_timer l);
  ti_nodup : NoDup (_id <$> _timer l);
  ti_range : Forall (λ t, 0 < _id t <= _g_timer_id l) (_timer l);
  ti_counter : 0 <= _g_timer_id l;
}.

Lemma timer_inv_perm l l' ts :
  timer_inv l → _timer l' ≡ₚ ts → is_heap compare_timer (_timer l') →
  sublist ts (_timer l) → _g_timer_id l' = _g_timer_id l → timer_inv l'.
Proof.
  intros [_ Hnd Hr Hc] Hp Hh Hsub Hg. split; [done|..|by rewrite Hg].
  - rewrite Hp. eapply sublist_NoDup; [done|by apply fmap_sublist].
  - rewrite Hp, Hg. by eapply Forall_sublist.
Qed.

Lemma erase_timer_spec id ts :
  NoDup (_id <$> ts) →
  match erase_timer id ts with
  | None => id ∉ (_id <$> ts)
  | Some ts' => ts' = filter (λ t, _id t ≠ id) ts ∧ id ∈ (_id <$> ts)
  end.
Proof.
  induction ts as [|t ts IH]; intros Hnd; simpl; [apply not_elem_of_nil|].
  apply NoDup_cons in Hnd as [Ht Hnd]. specialize (IH Hnd).
  destruct (_id t =? id) eqn:E; bool_prop.
  - subst. rewrite filter_cons_False by tauto. split; [|left].
    rewrite filter_all; [done|]. intros x Hx Hid. apply Ht. rewrite <- Hid.
    by apply list_elem_of_fmap_2.
  - destruct (erase_timer id ts) as [ts'|]; simpl.
    + destruct IH as [-> Hin]. rewrite filter_cons_True by done. split; [done|by right].
    + apply not_elem_of_cons. auto.
Qed.

(** Popping a non-empty heap takes a timer with the least due time. *)
Lemma pop_timer_spec l t0 ts :
  timer_inv l → _timer l = t0 :: ts →
  ∃ l', pop_timer l = Some (t0, l') ∧ _timer l' ≡ₚ ts ∧ timer_inv l' ∧
    l' = set_timers (_g_timer_id l) (_timer l') l ∧
    ∀ t, t ∈ _timer l' → _when t0 <= _when t.
Proof.
  intros Hinv E. pose proof Hinv as [Hh Hnd Hr Hc]. rewrite E in Hh.
  destruct (pop_heap_spec t0 ts Hh) as (ts' & Hpop & Hp & Hh').
  unfold pop_timer. rewrite E, Hpop, reverse_app. simpl.
  eexists. split; [done|]. simpl. rewrite reverse_involutive. split_and!; [done| |done|].
  - eapply (timer_inv_perm l _ ts); simpl; rewrite ?E; try done. apply sublist_cons. done.
  - intros t Ht. rewrite Hp in Ht.
    pose proof (is_heap_root compare_timer _ _ Hh t (list_elem_of_further _ _ _ Ht)) as Hc'.
    unfold compare_timer in Hc'. bool_prop. lia.
Qed.

(** What [delay_call] and [cancel_delay] do, with the fields they leave alone. *)
Lemma delay_call_ok when f l :
  timer_inv l → _g_timer_id l < 2 ^ 31 - 1 →
  ∃ ts, delay_call when f l = Ok (set_timers (_g_timer_id l + 1) ts l, _g_timer_id l + 1) ∧
    ts ≡ₚ (EsTime (_g_timer_id l + 1) when f :: _timer l) ∧
    ((_g_timer_id l + 1) ∉ (_id <$> _timer l)) ∧
    timer_inv (set_timers (_g_timer_id l + 1) ts l).
Proof.
  intros [Hh Hnd Hr Hc] Hid. unfold delay_call.
  rewrite (proj2 (int_ok_spec _)) by lia. cbn [require mbind res_bind].
  set (t := EsTime _ _ _).
  assert (push_heap (_timer l ++ [t]) ≡ₚ t :: _timer l) as Hp.
  { rewrite push_heap_perm. symmetry. apply Permutation_cons_append. }
  assert ((_g_timer_id l + 1) ∉ (_id <$> _timer l)) as Hfresh.
  { intros (x & Hx & Hin)%list_elem_of_fmap. rewrite Forall_forall in Hr.
    specialize (Hr x Hin). lia. }
  eexists. split; [done|]. split_and!; [done..|]. split; simpl.
  - by apply push_heap_heap.
  - rewrite Hp. simpl. by constructor.
  - rewrite Hp. constructor; [simpl; lia|]. eapply Forall_impl; [exact Hr|]. simpl. lia.
  - lia.
Qed.

Lemma cancel_delay_ok ndebug self timer_id l :
  timer_inv l → is_local_thread self l = true →
  ∃ ts, cancel_delay ndebug self timer_id l = Ok (set_timers (_g_timer_id l) ts l) ∧
    ts ≡ₚ filter (λ t, _id t ≠ timer_id) (_timer l) ∧
    (timer_id ∉ (_id <$> _timer l) → ts = _timer l) ∧
    timer_inv (set_timers (_g_timer_id l) ts l).
Proof.
  intros Hinv Hself. unfold cancel_delay, c_assert. rewrite Hself.
  assert ((if ndebug then Ok () else require true AssertFail) = Ok ()) as -> by (by destruct ndebug).
  cbn [mbind res_bind]. pose proof (erase_timer_spec timer_id _ (ti_nodup _ Hinv)) as He.
  destruct (erase_timer _ _) as [ts|].
  - destruct He as [-> Hin]. eexists. split; [done|].
    split_and!; [apply make_heap_perm|by intros ?%(λ h, h Hin)|].
    eapply (timer_inv_perm l _ (filter (λ t, _id t ≠ timer_id) (_timer l)));
      simpl; [done|apply make_heap_perm|apply make_heap_heap|apply sublist_filter|done].
  - exists (_timer l). split_and!; [by destruct l| |done|by destruct l].
    rewrite filter_all; [done|]. intros t Ht Hid. apply He. rewrite <- Hid.
    by apply list_elem_of_fmap_2.
Qed.

(** *** Properties *)

(** [delay_call] schedules exactly one new timer under a fresh positive
    id, and keeps the heap and the uniqueness of ids, as long as the [int]
    counter does not overflow. *)
Theorem delay_call_spec (when : Z) (f : cb) (l : io_loop K)
  (Hinv : timer_inv l) (Hid : _g_timer_id l < 2 ^ 31 - 1) :
  ∃ l', delay_call when f l = Ok (l', _g_timer_id l + 1) ∧
    _timer l' ≡ₚ (EsTime (_g_timer_id l + 1) when f :: _timer l) ∧
    ((_g_timer_id l + 1) ∉ (_id <$> _timer l)) ∧ timer_inv l'.
Proof.
  destruct (delay_call_ok when f l Hinv Hid) as (ts & -> & ? & ? & ?). by eexists.
Qed.

(** C40. [cancel_delay] on the loop thread removes exactly the timer with
    that id, if it is pending, and restores the heap; an id that has fired or
    was cancelled before changes nothing. *)
Theorem cancel_delay_spec (ndebug : bool) (self timer_id : Z) (l : io_loop K)
  (Hinv : timer_inv l) (Hself : is_local_thread self l = true) :
  ∃ l', cancel_delay ndebug self timer_id l = Ok l' ∧
    _timer l' ≡ₚ filter (λ t, _id t ≠ timer_id) (_timer l) ∧
    (timer_id ∉ (_id <$> _timer l) → l' = l) ∧ timer_inv l'.
Proof.
  destruct (cancel_delay_ok ndebug self timer_id l Hinv Hself) as (ts & -> & ? & Hsame & ?).
  eexists. split_and!; [done..| |done]. intros ->%Hsame. by destruct l.
Qed.

(** The [epoll_wait] timeout: always between 0 and 100 ms, so a stop
    request is noticed within a tenth of a second; and when the next timer is
    due within 2^31 ms, the wait ends no later than its due time. *)
Theorem wait_timeout_bounds (clock : nat → Z) (l l' : io_loop K) (timeout : Z)
  (E : wait_timeout clock l = (l', timeout)) :
  0 <= timeout <= 100 ∧
  ∀ t, head (_timer l) = Some t →
    let n := clock (_ticks l) in
    - 2 ^ 31 * 1000000 < _when t - n < 2 ^ 31 * 1000000 →
    timeout * 1000000 <= Z.max 0 (_when t - n).
Proof.
  unfold wait_timeout in E. destruct (_timer l) as [|t ts]; simpl in E; injection E as <- <-.
  - split; [lia|done].
  - split; [lia|]. intros t' [= <-] n Hr. subst n.
    set (d := _when t - clock (_ticks l)) in *.
    pose proof (Z.quot_rem' d 1000000). pose proof (Z.rem_bound_abs d 1000000).
    pose proof (Z.rem_nonneg d 1000000). pose proof (Z.rem_nonpos d 1000000).
    rewrite i32_small; lia.
Qed.
End timers.

Section drain.
Context {K U : Type} `{!StdHeap compare_timer} `{!Callbacks K U}.
Variable clock : nat → Z.
Implicit Type w : world K U.

(** Callbacks that succeed and leave the timers alone (the coroutine they
    resume does not schedule or cancel any). *)
Class TimersUntouched : Prop := {
  time_event_untouched c t w :
    ∃ w', on_time_event c t w = Ok w' ∧ _timer (w_loop w') = _timer (w_loop w) ∧
      _g_timer_id (w_loop w') = _g_timer_id (w_loop w) ∧
      (_ticks (w_loop w) ≤ _ticks (w_loop w'))%nat;
}.

Lemma timer_inv_same (l l' : io_loop K) :
  timer_inv l → _timer l' = _timer l → _g_timer_id l' = _g_timer_id l → timer_inv l'.
Proof. intros [] Ht Hg. split; by rewrite ?Ht, ?Hg. Qed.

(** C23. The timer loop of a turn, with callbacks that succeed and neither start nor
    cancel timers (one that starts a due timer again makes the loop spin): it terminates (one step per pending timer suffices), fires timers
    in order of due time, fires only timers that are due at the reading of the
    clock made for them, and every timer it leaves behind is later than its
    last reading; nothing is lost or fired twice. *)
Theorem run_timers_spec `{!TimersUntouched} (fuel : nat) (w : world K U)
  (Hinv : timer_inv (w_loop w)) (Hfuel : (length (_timer (w_loop w)) < fuel)%nat) :
  ∃ w' fired, run_timers clock fuel w = Ok (w', fired) ∧
    fired ++ _timer (w_loop w') ≡ₚ _timer (w_loop w) ∧
    Sorted (λ t1 t2, _when t1 <= _when t2) fired ∧
    (∀ t, t ∈ fired → ∃ i, (_ticks (w_loop w) ≤ i < _ticks (w_loop w'))%nat ∧
                           _when t <= clock i) ∧
    (∀ t, t ∈ _timer (w_loop w') → clock (Nat.pred (_ticks (w_loop w'))) < _when t) ∧
    (_ticks (w_loop w) ≤ _ticks (w_loop w'))%nat ∧ timer_inv (w_loop w').
Proof.
  revert w Hinv Hfuel. induction fuel as [|fuel IH]; intros w Hinv Hfuel; [lia|].
  cbn [run_timers]. destruct (_timer (w_loop w)) as [|t0 ts] eqn:Et.
  { exists w, []. rewrite Et. split_and!; try done; intros t ?%elem_of_nil; done. }
  unfold now. set (l := set_ticks _ _).
  assert (timer_inv l) as Hinvl by (by eapply timer_inv_same).
  destruct (_when t0 <=? _) eqn:E; bool_prop.
  - destruct (pop_timer_spec l t0 ts Hinvl Et) as (l1 & -> & Hp & Hinv1 & Hl1 & Hmin).
    assert (_ticks l1 = S (_ticks (w_loop w))) as Hk1 by (by rewrite Hl1).
    destruct (time_event_untouched (_func t0) t0 (World l1 (w_user w))) as (w2 & -> & Ht2 & Hg2 & Hk2).
    cbn [mbind res_bind]. simpl in Ht2, Hg2, Hk2.
    destruct (IH w2) as (w' & fired & -> & Hperm & Hsort & Hdue & Hlate & Hk' & Hinv').
    { by eapply timer_inv_same. }
    { rewrite Ht2, (Permutation_length Hp). simpl in Hfuel. lia. }
    exists w', (t0 :: fired). cbn [mbind res_bind]. split_and!; [done| | | |done|lia|done].
    + simpl. by rewrite Hperm, Ht2, Hp.
    + constructor; [done|]. destruct fired as [|t1 fired]; constructor.
      apply Hmin. rewrite <- Ht2, <- Hperm. left.
    + intros t [-> |Ht]%elem_of_cons.
      * exists (_ticks (w_loop w)). split; [lia|done].
      * destruct (Hdue t Ht) as (i & Hi & ?). exists i. split; [lia|done].
  - exists (World l (w_user w)), []. split_and!; try done.
    { simpl. by rewrite Et. }
    { by intros t ?%elem_of_nil. }
    2: { simpl. lia. }
    simpl. rewrite Et. intros t Ht.
    pose proof (ti_heap _ Hinv) as Hh. rewrite Et in Hh.
    pose proof (is_heap_root compare_timer _ _ Hh t Ht) as Hc. unfold compare_timer in Hc.
    bool_prop. lia.
Qed.
End drain.

(** A timer more than 2^31 ms (24.8 days) and less than 2^32 ms away makes
    [left] negative: the wait ends at once although nothing is due, so the loop
    spins. *)
Theorem far_timer_spins {K : Type} (clock : nat → Z) (l : io_loop K) (t : es_time)
  (ts : list es_time) (Ht : _timer l = t :: ts)
  (Hfar : 2 ^ 31 * 1000000 <= _when t - clock (_ticks l) < 2 ^ 32 * 1000000) :
  (wait_timeout clock l).2 = 0.
Proof.
  unfold wait_timeout. rewrite Ht. simpl. set (d := _when t - clock (_ticks l)) in *.
  assert (2 ^ 31 <= Z.quot d 1000000 < 2 ^ 32) as Hq.
  { rewrite Z.quot_div_nonneg by lia. split; [apply Z.div_le_lower_bound; lia|].
    apply Z.div_lt_upper_bound; lia. }
  assert (i32 (Z.quot d 1000000) = Z.quot d 1000000 - 2 ^ 32) as ->; [|lia].
  unfold i32. rewrite <- (Z_mod_plus_full _ (-1)), Z.mod_small; lia.
Qed.

(** ** Witnesses *)

Definition demo_timers : list es_time := [EsTime 2 10 1%nat; EsTime 1 30 2%nat; EsTime 3 20 3%nat].
Definition demo_loop : io_loop (gmap Z Z) :=
  IoLoop _ 0 (Some 1) 3 3 [] 256 0 demo_timers [] [] 0 0 ∅.
(** A clock that advances 7 ns per reading. *)
Definition demo_clock (i : nat) : Z := Z.min (8 + 7 * Z.of_nat i) 1000000.

Lemma demo_timer_inv : timer_inv demo_loop.
Proof.
  split; simpl.
  - intros i x p0 Hi Hx Hp. do 3 (destruct i as [|i]; [vm_compute in Hx, Hp; by simplify_eq|]).
    by vm_compute in Hx.
  - apply (bool_decide_unpack _). by vm_compute.
  - apply (bool_decide_unpack _). by vm_compute.
  - lia.
Qed.

Lemma delay_call_spec_witness :
  ∃ l', delay_call 15 9%nat demo_loop = Ok (l', 4) ∧
    _timer l' ≡ₚ (EsTime 4 15 9%nat :: demo_timers) ∧
    (4 ∉ (_id <$> demo_timers)) ∧ timer_inv l'.
Proof.
  apply (delay_call_spec 15 9%nat demo_loop).
  - exact demo_timer_inv.
  - reflexivity.
Defined.

Lemma cancel_delay_spec_witness :
  ∃ l', cancel_delay false 1 2 demo_loop = Ok l' ∧
    _timer l' ≡ₚ filter (λ t, _id t ≠ 2) demo_timers ∧
    (2 ∉ (_id <$> demo_timers) → l' = demo_loop) ∧ timer_inv l'.
Proof.
  apply (cancel_delay_spec false 1 2 demo_loop).
  - exact demo_timer_inv.
  - reflexivity.
Defined.

Lemma wait_timeout_bounds_witness :
  ∃ l' timeout, wait_timeout demo_clock demo_loop = (l', timeout) ∧
    0 <= timeout <= 100 ∧
    ∀ t, head demo_timers = Some t →
      let n := demo_clock 0 in
      - 2 ^ 31 * 1000000 < _when t - n < 2 ^ 31 * 1000000 →
      timeout * 1000000 <= Z.max 0 (_when t - n).
Proof.
  eexists _, _. split; [reflexivity|].
  eapply (wait_timeout_bounds demo_clock demo_loop). reflexivity.
Defined.

(** Callbacks that write down which timer fired. *)
#[local] Instance note_callbacks : Callbacks (gmap Z Z) (list Z) := {
  on_file_event c fd ev w := Ok w;
  on_time_event c t w := Ok (World (w_loop w) (w_user w ++ [_id t]));
  call_func f w := Ok w;
}.
#[local] Instance note_untouched : TimersUntouched (K := gmap Z Z) (U := list Z).
Proof. split. intros c t w. by eexists. Qed.

Lemma run_timers_spec_witness :
  ∃ w' fired, run_timers demo_clock 4 (World demo_loop ([] : list Z)) = Ok (w', fired) ∧
    fired ++ _timer (w_loop w') ≡ₚ demo_timers ∧
    Sorted (λ t1 t2, _when t1 <= _when t2) fired ∧
    (∀ t, t ∈ fired → ∃ i, (0 ≤ i < _ticks (w_loop w'))%nat ∧ _when t <= demo_clock i) ∧
    (∀ t, t ∈ _timer (w_loop w') → demo_clock (Nat.pred (_ticks (w_loop w'))) < _when t) ∧
    (0 ≤ _ticks (w_loop w'))%nat ∧ timer_inv (w_loop w').
Proof.
  apply (run_timers_spec demo_clock 4 (World demo_loop ([] : list Z))).
  - exact demo_timer_inv.
  - vm_compute. lia.
Defined.

Lemma far_timer_spins_witness :
  (wait_timeout (λ _, 0)
     (IoLoop (gmap Z Z) 0 None 3 1 [] 256 0 [EsTime 1 (25 * 86400 * 10 ^ 9) 1%nat] [] [] 0 0 ∅)).2 = 0.
Proof.
  eapply (far_timer_spins (λ _, 0)); [reflexivity|]. vm_compute. split; [discriminate|reflexivity].
Defined.
