(* ===== verification/RunProps.v ===== *)
(** * The whole loop: [io_loop::run]

    [IoLoopProps] shows one batch of events safe, [Timers] the timer queue.  Here
    the turns of [run] are put together: for callbacks that use the loop as its
    interface asks, [run] meets no fault and gives control back, whatever the
    kernel reports and in whatever order, until it is told to stop. *)

From S2P Require Import Prelude StdHeap IoLoop IoLoopFacts IoLoopProps Timers.

(** ** Relations between worlds that a batch of events respects *)

Section relation.
Context {K U : Type} `{!Epoll K} `{!Callbacks K U}.
Variable ndebug : bool.
Variable R : relation (world K U).
Implicit Type w : world K U.
Context `{!PreOrder R}.

Hypothesis R_table : ∀ w f,
  (∀ l, _timer (f l) = _timer l ∧ _g_timer_id (f l) = _g_timer_id l ∧
    m_thread_id (f l) = m_thread_id l ∧ _event_fd (f l) = _event_fd l) → R w (on_loop f w).
Hypothesis R_file : ∀ c fd ev w w', on_file_event c fd ev w = Ok w' → R w w'.
Hypothesis R_func : ∀ f w w', call_func f w = Ok w' → R w w'.

Lemma call_all_rel fs w w' : call_all fs w = Ok w' → R w w'.
Proof.
  revert w. induction fs as [|f fs IH]; intros w E; simpl in E; res_inv; [by subst|].
  etrans; [by eapply R_func|by apply IH].
Qed.

Lemma file_event_rel c fd ev w w' : file_event c fd ev w = Ok w' → R w w'.
Proof.
  unfold file_event. case_decide; [|apply R_file]. unfold loop_on_file_event. intros E. res_inv.
  subst w'. etrans; [|by apply R_table]. etrans; [|by apply R_table].
  etrans; [|by eapply call_all_rel]. by apply R_table.
Qed.

Lemma fire_w_rel ok fd code w w' : fire_w ok fd code w = Ok w' → R w w'.
Proof.
  unfold fire_w. intros E. res_inv. destruct (_func_w a); [destruct ok|]; res_inv; try by subst.
  etrans; [|by eapply file_event_rel]. by apply R_table.
Qed.
Lemma fire_r_rel ok fd code w w' : fire_r ok fd code w = Ok w' → R w w'.
Proof.
  unfold fire_r. intros E. res_inv. destruct (_func_r a); [destruct ok|]; res_inv; try by subst.
  etrans; [|by eapply file_event_rel]. by apply R_table.
Qed.

Lemma dispatch_event_rel ev w w' : dispatch_event ndebug ev w = Ok w' → R w w'.
Proof.
  destruct ev as [fd events]. unfold dispatch_event. case_cond; intros E; res_inv; [by subst|].
  case_cond; res_inv; [by subst|]. case_cond.
  - destruct (so_error _ _) as [k r]. res_inv.
    etrans; [|by eapply fire_r_rel]. etrans; [|by eapply fire_w_rel]. by apply R_table.
  - res_inv. etrans; [|by eapply fire_r_rel]. by eapply fire_w_rel.
Qed.

Lemma dispatch_all_rel evs w w' : dispatch_all ndebug evs w = Ok w' → R w w'.
Proof.
  revert w. induction evs as [|ev evs IH]; intros w E; simpl in E; res_inv; [by subst|].
  etrans; [by eapply dispatch_event_rel|by apply IH].
Qed.
End relation.

(** ** Running *)

Section run.
Context {K U : Type} `{!Epoll K} `{!EpollLaws K} `{!StdHeap compare_timer} `{!Callbacks K U}.
Variable ndebug : bool.
Variable clock : nat → Z.
Implicit Type w : world K U.

(** [polite al w w']: timers stay in order, at most as many are started as
    the allowance [al] pays for, and the loop keeps its thread and event descriptor. *)
Definition polite (al : U → nat) w w' : Prop :=
  (timer_inv (w_loop w) → timer_inv (w_loop w')) ∧
  (length (_timer (w_loop w')) + al (w_user w') ≤
   length (_timer (w_loop w)) + al (w_user w))%nat ∧
  m_thread_id (w_loop w') = m_thread_id (w_loop w) ∧
  _event_fd (w_loop w') = _event_fd (w_loop w).

(** What the code behind the callbacks owes the loop: no fault of its own, the
    invariants kept, and a bound on the timers it starts (a callback that always
    starts a timer already due would keep the timer loop busy).  The callbacks of
    descriptors behave as in [IoLoopProps] on top of that. *)
Class GoodCallbacks := {
  allowance : U → nat;
  good_behave :: CallbacksBehave (K := K) (U := U) ndebug;
  good_file c fd ev w w' : on_file_event c fd ev w = Ok w' → polite allowance w w';
  good_func f w w' : call_func f w = Ok w' → polite allowance w w';
  good_time c t w : loop_inv (w_loop w) → timer_inv (w_loop w) →
    ∃ w', on_time_event c t w = Ok w' ∧ loop_inv (w_loop w') ∧ polite allowance w w';
}.
Context `{!GoodCallbacks}.

(** The number of timers that can still fire. *)
Definition timers_left w : nat := (length (_timer (w_loop w)) + allowance (w_user w))%nat.

Record run_inv w : Prop := {
  ri_loop : loop_inv (w_loop w);
  ri_timer : timer_inv (w_loop w);
}.

#[export] Instance polite_preorder al : PreOrder (polite al).
Proof.
  split; [by intros w|]. intros w1 w2 w3 (? & ? & ? & ?) (? & ? & ? & ?).
  split_and!; [auto|lia|congruence|congruence].
Qed.

Lemma loop_inv_same (l l' : io_loop K) :
  loop_inv l → _fds l' = _fds l → _fds_capacity l' = _fds_capacity l →
  _event_fd l' = _event_fd l → loop_inv l'.
Proof.
  intros [Hwf Hown Hev] Hf Hc He. assert (∀ fd, ent l' fd = ent l fd) as Hent.
  { intros fd. unfold ent. by rewrite Hf. }
  split.
  - destruct Hwf as [H1 H2]. split; [by intros fd Hfd; rewrite Hent; apply H1|by rewrite Hf, Hc].
  - intros fd d. unfold sub. rewrite Hent, He. apply Hown.
  - by rewrite He, Hent.
Qed.

Lemma table_polite w f :
  (∀ l : io_loop K, _timer (f l) = _timer l ∧ _g_timer_id (f l) = _g_timer_id l ∧
    m_thread_id (f l) = m_thread_id l ∧ _event_fd (f l) = _event_fd l) → polite allowance w (on_loop f w).
Proof.
  intros Hf. destruct (Hf (w_loop w)) as (Ht & Hg & Hm & He). split_and!; simpl; [|by rewrite Ht|done|done].
  intros Hi. by eapply timer_inv_same.
Qed.

Lemma dispatch_all_polite evs w w' : dispatch_all ndebug evs w = Ok w' → polite allowance w w'.
Proof. apply (dispatch_all_rel _ _ table_polite good_file good_func). Qed.

Lemma run_timers_ok fuel w :
  run_inv w → (timers_left w < fuel)%nat →
  ∃ w' fired, run_timers clock fuel w = Ok (w', fired) ∧ run_inv w' ∧ polite allowance w w'.
Proof.
  revert w. induction fuel as [|fuel IH]; intros w [Hl Ht] Hf; [lia|]. cbn [run_timers].
  destruct (_timer (w_loop w)) as [|t0 ts] eqn:Et; [by exists w, []|].
  unfold now. set (l := set_ticks _ _).
  assert (timer_inv l) as Ht1 by (by eapply timer_inv_same).
  assert (loop_inv l) as Hl1 by (by eapply loop_inv_same).
  case_cond.
  - destruct (pop_timer_spec l t0 ts Ht1 Et) as (l1 & -> & Hp & Ht2 & El1 & _).
    assert (loop_inv l1) as Hl2 by (rewrite El1; by eapply loop_inv_same).
    destruct (good_time (_func t0) t0 (World l1 (w_user w)) Hl2 Ht2)
      as (w1 & -> & Hl3 & Ht3 & Hle & Hm & He). cbn [mbind res_bind].
    apply Permutation_length in Hp. unfold timers_left in *. rewrite Et in *. simpl in *.
    destruct (IH w1) as (w2 & fired & -> & Hi & (_ & Hle2 & Hm2 & He2)); [by split; auto|lia|].
    exists w2, (t0 :: fired). split; [done|]. split; [done|]. split_and!.
    + intros _. apply Hi.
    + rewrite Et. simpl. lia.
    + rewrite Hm2, Hm, El1. done.
    + rewrite He2, He, El1. done.
  - exists (World l (w_user w)), []. split; [done|]. split; [by split|]. by split_and!.
Qed.

(** The events one call of [epoll_wait] reports belong to registered
    descriptors (without assertions any descriptor will do). *)
Definition wait_sane (r : wait_result) w : Prop :=
  match r with
  | WaitEvents evs =>
      Forall (λ ev, 0 <= ev.1 ∧ (ndebug = true ∨ is_Some (watched (w_loop w) ev.1))) evs
  | WaitError _ => True
  end.

Fixpoint turns_sane (fuel : nat) (ts : list turn) w : Prop :=
  match ts with
  | [] => True
  | t :: ts => wait_sane (t_wait t) w ∧
      match run_turn ndebug clock fuel t w with
      | Ok (w', true) => turns_sane fuel ts w'
      | _ => True
      end
  end.

Lemma turns_sane_quiet fuel ts w :
  Forall (λ t, t_wait t = WaitEvents []) ts → turns_sane fuel ts w.
Proof.
  intros Hq. revert w. induction Hq as [|t ts E _ IH]; intros w; [done|]. simpl. rewrite E.
  split; [by apply Forall_nil|]. by destruct (run_turn _ _ _ _ _) as [[w1 [|]]|].
Qed.

Lemma wait_timeout_same w :
  ∃ n, w_loop (World (wait_timeout clock (w_loop w)).1 (w_user w)) = set_ticks n (w_loop w).
Proof.
  unfold wait_timeout. destruct (_timer (w_loop w)); simpl; [|by eexists].
  exists (_ticks (w_loop w)). by destruct (w_loop w).
Qed.

Lemma run_turn_ok fuel t w :
  run_inv w → (timers_left w < fuel)%nat → wait_sane (t_wait t) w →
  ∃ w' more, run_turn ndebug clock fuel t w = Ok (w', more) ∧ run_inv w' ∧ polite allowance w w'.
Proof.
  intros [Hl Ht] Hf Hs. unfold run_turn. set (w1 := if t_break t then _ else _).
  assert (loop_inv (w_loop w1) ∧ polite allowance w w1 ∧ wait_sane (t_wait t) w1)
    as (Hl1 & Hp1 & Hs1).
  { unfold w1. destruct (t_break t); [|done]. split_and!; [by eapply loop_inv_same| |done].
    by apply table_polite. }
  pose proof (proj1 Hp1 Ht) as Ht1. clearbody w1. case_cond; [by exists w1, false; split_and!|].
  destruct (wait_timeout_same w1) as [n Hn]. destruct (wait_timeout clock (w_loop w1)) as [l tmo].
  simpl in Hn. subst l. set (w2 := World _ _).
  assert (loop_inv (w_loop w2)) as Hl2 by (by eapply loop_inv_same).
  assert (timer_inv (w_loop w2)) as Ht2 by (by eapply timer_inv_same).
  assert (polite allowance w w2) as Hp2 by (etrans; [exact Hp1|by split_and!]).
  assert (wait_sane (t_wait t) w2) as Hs2 by done. clearbody w2.
  destruct (t_wait t) as [evs|e].
  - destruct (dispatch_all_safe ndebug evs w2 Hl2 Hs2) as (w3 & E3 & Hb). rewrite E3.
    cbn [mbind res_bind].
    assert (polite allowance w w3) as Hp3 by (etrans; [exact Hp2|by eapply dispatch_all_polite]).
    destruct (run_timers_ok fuel w3) as (w4 & fired & -> & Hi & Hp4).
    + split; [by apply (bh_inv _ _ _ Hb)|by apply Hp3].
    + destruct Hp3 as (_ & ? & _). unfold timers_left in *. lia.
    + cbn [mbind res_bind]. exists w4, true. split; [done|]. split; [done|]. by etrans.
  - case_cond; eexists _, _; (split; [done|]); by split; [split|].
Qed.

Lemma run_loop_ok fuel ts w :
  run_inv w → (timers_left w < fuel)%nat → turns_sane fuel ts w →
  ∃ w', run_loop ndebug clock fuel ts w = Ok w' ∧ run_inv w' ∧ polite allowance w w'.
Proof.
  revert w. induction ts as [|t ts IH]; intros w Hi Hf Hs; simpl; [by exists w|].
  destruct Hs as [Hs Hts]. destruct (run_turn_ok fuel t w Hi Hf Hs) as (w1 & more & E & Hi1 & Hp1).
  rewrite E in *. cbn [mbind res_bind]. destruct more; [|by exists w1].
  destruct (IH w1) as (w2 & -> & Hi2 & Hp2); [done| |done|].
  - destruct Hp1 as (_ & ? & _). unfold timers_left in *. lia.
  - exists w2. split_and!; [done|done|by etrans].
Qed.

(** A turn that finds [m_breaking] set ends the loop; nothing after it runs. *)
Lemma run_loop_break fuel ts r rest w :
  run_loop ndebug clock fuel (ts ++ Turn true r :: rest) w =
  run_loop ndebug clock fuel (ts ++ [Turn true r]) w.
Proof.
  revert w. induction ts as [|t ts IH]; intros w; simpl; [done|].
  destruct (run_turn _ _ _ _ _) as [[w1 [|]]|]; cbn [mbind res_bind]; auto.
Qed.

Lemma run_ok self fuel ts w :
  run_inv w → (timers_left w < fuel)%nat →
  turns_sane fuel ts (on_loop (set_thread_id (Some self)) w) →
  ∃ w', run ndebug clock self fuel ts w = Ok w' ∧ run_inv w' ∧
    (timers_left w' ≤ timers_left w)%nat ∧ is_local_thread self (w_loop w') = true ∧
    _event_fd (w_loop w') = _event_fd (w_loop w).
Proof.
  intros [Hl Ht] Hf Hs. unfold run.
  destruct (run_loop_ok fuel ts (on_loop (set_thread_id (Some self)) w))
    as (w' & -> & Hi & (_ & Hle & Hm & He)); [|done|done|].
  - split; [by eapply loop_inv_same|by eapply timer_inv_same].
  - exists w'. split_and!; [done..| |done]. unfold is_local_thread. apply bool_decide_eq_true. done.
Qed.

(** C10. [io_loop::run] as a whole: from a loop in its invariant, for callbacks
    that keep to the interface, for any sequence of turns (break requests by other
    threads, interrupted waits, batches of events on registered descriptors), [run]
    fails no assertion, uses no stale reference, leaves every turn's timer loop, and
    returns at the first turn that finds the break flag, whatever was to come
    after it; the descriptor table and the timer queue are in their invariants
    again. *)
Theorem run_safe (self : Z) (fuel : nat) (ts rest : list turn) (r : wait_result) (w : world K U)
  (Hloop : loop_inv (w_loop w)) (Htimer : timer_inv (w_loop w))
  (Hfuel : (timers_left w < fuel)%nat)
  (Hsane : turns_sane fuel (ts ++ [Turn true r]) (on_loop (set_thread_id (Some self)) w)) :
  ∃ w', run ndebug clock self fuel (ts ++ Turn true r :: rest) w = Ok w' ∧
    loop_inv (w_loop w') ∧ timer_inv (w_loop w') ∧ (timers_left w' ≤ timers_left w)%nat.
Proof.
  destruct (run_ok self fuel (ts ++ [Turn true r]) w) as (w' & E & [] & Hle & _); [by split|done..|].
  exists w'. split; [|done]. unfold run in *. by rewrite run_loop_break.
Qed.
End run.

(** ** Witness *)

#[export] Instance log_good ndebug : GoodCallbacks (K := gmap Z Z) (U := list log_entry) ndebug.
Proof.
  refine {| allowance _ := O |}.
  - by intros c fd ev w w' [= <-].
  - by intros f w w' [= <-].
  - intros c t w Hl Ht. by eexists.
Defined.

Definition demo_turns : list turn :=
  [Turn false (WaitEvents [(3, EPOLLIN)]); Turn false (WaitError EINTR)].

Lemma demo_run_ready :
  ∃ l, io_loop_init (∅ : gmap Z Z) 3 = Ok l ∧ loop_inv l ∧ timer_inv l ∧
    (timers_left false (World l ([] : list log_entry)) < 1)%nat ∧
    turns_sane false (λ _, 0) 1 (demo_turns ++ [Turn true (WaitEvents [])])
      (on_loop (set_thread_id (Some 1)) (World l ([] : list log_entry))).
Proof.
  destruct (init_loop_inv ∅ 3) as (l & E & Hinv & Hw & _); [reflexivity|lia|].
  exists l. split; [done|]. split; [done|]. vm_compute in E. injection E as <-. split_and!.
  - split; [exact (is_heap_nil _)|constructor|constructor|done].
  - vm_compute. lia.
  - split; [|vm_compute; auto].
    apply Forall_cons; split; [split; [done|right; exact Hw]|by apply Forall_nil].
Qed.

Lemma run_safe_witness :
  ∃ l, io_loop_init (∅ : gmap Z Z) 3 = Ok l ∧
  ∃ w', run false (λ _, 0) 1 1
    (demo_turns ++ Turn true (WaitEvents []) :: [Turn false (WaitEvents [(77, EPOLLIN)])])
    (World l ([] : list log_entry)) = Ok w' ∧ loop_inv (w_loop w') ∧ timer_inv (w_loop w') ∧
    (timers_left false w' ≤ timers_left false (World l ([] : list log_entry)))%nat.
Proof.
  destruct demo_run_ready as (l & E & Hl & Ht & Hf & Hs). exists l. split; [exact E|].
  apply (run_safe false (λ _, 0) 1 1 demo_turns [Turn false (WaitEvents [(77, EPOLLIN)])]
    (WaitEvents []) (World l ([] : list log_entry)) Hl Ht Hf Hs).
Defined.
