(* ===== verification/AsyncQueue.v ===== *)
(** * Functions posted to the loop by other threads ([io_loop.h])

    [async], [async_return], [async_call] and [async_call_return] on one side,
    [io_loop::on_file_event] on the other.  The threads interleave at the
    granularity of the mutex-protected sections and of the two eventfd calls:
    a poster first appends under the lock and only later writes the event
    descriptor; the loop thread first reads the descriptor, then swaps the
    vectors under the lock, then runs the functions one by one. *)

From S2P Require Import Prelude IoLoop.

(** A queued closure: the function, and the promise it fulfils
    ([async_return]; [None] for [async]). *)
Record job := Job { j_func : fn; j_promise : option nat }.

(** Where the loop thread is: in [epoll_wait] (or another callback), about to
    read the event descriptor, about to swap, or in the [for] loop; [PStopped]
    after [run] has returned. *)
Inductive pc := PIdle | PRead | PSwap | PRun | PStopped.
#[export] Instance pc_eq_dec : EqDecision pc.
Proof. solve_decision. Defined.

(** [a_next] is the index of the [for] loop over [_async_funcs_tmp].
    [a_writers] counts posters between their append and their [eventfd_write].
    [a_posted], [a_done] and [a_inline] are history: everything ever appended,
    the functions of finished batches, and the functions run by [async_call] on
    the loop thread itself. *)
Record astate := AState {
  a_thread : Z;
  a_funcs : list job;
  a_tmp : list job;
  a_next : nat;
  a_eventfd : Z;
  a_writers : nat;
  a_pc : pc;
  a_promises : gmap nat Z;
  a_fresh : nat;
  a_posted : list job;
  a_done : list job;
  a_inline : list job;
}.

Definition ainit (thread : Z) : astate :=
  AState thread [] [] 0 0 0 PIdle ∅ 0 [] [] [].

(** One atomic action of some thread. *)
Inductive action :=
  | AAsync (self : Z) (f : fn)            (* async: the locked append *)
  | AReturn (self : Z) (f : fn)           (* async_return: the locked append *)
  | ACall (self : Z) (f : fn)             (* async_call *)
  | ACallReturn (self : Z) (f : fn)       (* async_call_return *)
  | AWrite                                (* a poster's eventfd_write *)
  | AWake | ARead | ASwap | AExec | AEnd  (* the loop thread *)
  | AStop.

Section steps.
(** What a function returns to its promise. *)
Variable value : fn → Z.
Variable ndebug : bool.

Definition append (j : job) (fresh : nat) (s : astate) : astate :=
  AState (a_thread s) (a_funcs s ++ [j]) (a_tmp s) (a_next s) (a_eventfd s) (S (a_writers s))
    (a_pc s) (a_promises s) fresh (a_posted s ++ [j]) (a_done s) (a_inline s).

Definition fulfil (j : job) (m : gmap nat Z) : gmap nat Z :=
  match j_promise j with Some p => <[p := value (j_func j)]> m | None => m end.

Definition run_inline (j : job) (fresh : nat) (s : astate) : astate :=
  AState (a_thread s) (a_funcs s) (a_tmp s) (a_next s) (a_eventfd s) (a_writers s)
    (a_pc s) (fulfil j (a_promises s)) fresh (a_posted s) (a_done s) (a_inline s ++ [j]).

Definition set_loop (funcs tmp : list job) (next : nat) (efd : Z) (p : pc)
    (m : gmap nat Z) (dn : list job) (s : astate) : astate :=
  AState (a_thread s) funcs tmp next efd (a_writers s) p m (a_fresh s) (a_posted s) dn
    (a_inline s).

(** [None]: the action is not possible in this state. *)
Definition astep (a : action) (s : astate) : option astate :=
  let local self := self =? a_thread s in
  match a with
  | AAsync self f => Some (append (Job f None) (a_fresh s) s)
  | AReturn self f =>
      if negb ndebug && local self then None
      else Some (append (Job f (Some (a_fresh s))) (S (a_fresh s)) s)
  | ACall self f =>
      if local self then Some (run_inline (Job f None) (a_fresh s) s)
      else Some (append (Job f None) (a_fresh s) s)
  | ACallReturn self f =>
      if local self then Some (run_inline (Job f (Some (a_fresh s))) (S (a_fresh s)) s)
      else Some (append (Job f (Some (a_fresh s))) (S (a_fresh s)) s)
  | AWrite =>
      match a_writers s with
      | O => None
      | S n => Some (AState (a_thread s) (a_funcs s) (a_tmp s) (a_next s) (a_eventfd s + 1) n
                 (a_pc s) (a_promises s) (a_fresh s) (a_posted s) (a_done s) (a_inline s))
      end
  | AWake =>
      if decide (a_pc s = PIdle ∧ 0 < a_eventfd s)
      then Some (set_loop (a_funcs s) (a_tmp s) (a_next s) (a_eventfd s) PRead
                   (a_promises s) (a_done s) s)
      else None
  | ARead =>
      if decide (a_pc s = PRead)
      then Some (set_loop (a_funcs s) (a_tmp s) (a_next s) 0 PSwap (a_promises s) (a_done s) s)
      else None
  | ASwap =>
      if decide (a_pc s = PSwap)
      then Some (set_loop (a_tmp s) (a_funcs s) 0 (a_eventfd s) PRun (a_promises s) (a_done s) s)
      else None
  | AExec =>
      if decide (a_pc s = PRun) then
        match a_tmp s !! a_next s with
        | Some j => Some (set_loop (a_funcs s) (a_tmp s) (S (a_next s)) (a_eventfd s) PRun
                            (fulfil j (a_promises s)) (a_done s) s)
        | None => None
        end
      else None
  | AEnd =>
      if decide (a_pc s = PRun ∧ a_next s = length (a_tmp s))
      then Some (set_loop (a_funcs s) [] 0 (a_eventfd s) PIdle (a_promises s)
                   (a_done s ++ a_tmp s) s)
      else None
  | AStop =>
      if decide (a_pc s = PIdle)
      then Some (set_loop (a_funcs s) (a_tmp s) (a_next s) (a_eventfd s) PStopped
                   (a_promises s) (a_done s) s)
      else None
  end.

Fixpoint arun (acts : list action) (s : astate) : option astate :=
  match acts with
  | [] => Some s
  | a :: acts => s ← astep a s; arun acts s
  end.

Definition reachable (s : astate) : Prop := ∃ thread acts, arun acts (ainit thread) = Some s.

(** The posted functions that have run. *)
Definition executed (s : astate) : list job := a_done s ++ take (a_next s) (a_tmp s).

(** ** Invariant *)

Record ainv (s : astate) : Prop := {
  (* every posted function is in exactly one place, in order *)
  ai_order : a_done s ++ a_tmp s ++ a_funcs s = a_posted s;
  ai_next : (a_next s ≤ length (a_tmp s))%nat;
  ai_tmp : a_pc s ≠ PRun → a_tmp s = [] ∧ a_next s = 0%nat;
  (* a non-empty queue will be noticed *)
  ai_wakeup : a_funcs s ≠ [] →
    0 < a_eventfd s ∨ (0 < a_writers s)%nat ∨ a_pc s = PRead ∨ a_pc s = PSwap;
  ai_eventfd : 0 <= a_eventfd s;
  ai_fresh : Forall (λ j, ∀ p, j_promise j = Some p → (p < a_fresh s)%nat)
    (a_posted s ++ a_inline s);
  ai_unique : NoDup (omap j_promise (a_posted s ++ a_inline s));
  ai_promises p v : a_promises s !! p = Some v ↔
    ∃ f, Job f (Some p) ∈ executed s ++ a_inline s ∧ v = value f;
}.

Lemma executed_prefix s :
  ainv s → executed s ++ drop (a_next s) (a_tmp s) ++ a_funcs s = a_posted s.
Proof.
  intros H. rewrite <- (ai_order _ H). unfold executed.
  rewrite <- app_assoc, (app_assoc (take _ _)), take_drop. done.
Qed.

Lemma executed_posted s j : ainv s → j ∈ executed s ++ a_inline s → j ∈ a_posted s ++ a_inline s.
Proof.
  intros H. rewrite <- (executed_prefix s H). rewrite !elem_of_app. tauto.
Qed.

(** A job that is posted (or run inline) with a promise id that is fresh, or
    without a promise. *)
Definition new_job (j : job) (fresh fresh' : nat) : Prop :=
  (fresh ≤ fresh')%nat ∧ (j_promise j = None ∨ j_promise j = Some fresh ∧ fresh' = S fresh).

Lemma new_job_fresh j fresh fresh' (l : list job) :
  new_job j fresh fresh' →
  Forall (λ j, ∀ p, j_promise j = Some p → (p < fresh)%nat) l →
  NoDup (omap j_promise l) →
  Forall (λ j, ∀ p, j_promise j = Some p → (p < fresh')%nat) (j :: l) ∧
  NoDup (omap j_promise (j :: l)).
Proof.
  intros [Hle Hj] Hl Hnd. split.
  - constructor.
    + intros p Hp. destruct Hj as [Hj|[Hj ->]]; rewrite Hj in Hp; [done|].
      injection Hp as <-. lia.
    + eapply Forall_impl; [exact Hl|]. intros x Hx p Hp. specialize (Hx p Hp). lia.
  - simpl. destruct Hj as [->|[-> _]]; [done|]. constructor; [|done].
    intros (x & Hx & Hp)%list_elem_of_omap. rewrite Forall_forall in Hl.
    specialize (Hl x Hx _ Hp). lia.
Qed.

Lemma append_inv j fresh s :
  ainv s → new_job j (a_fresh s) fresh → ainv (append j fresh s).
Proof.
  intros [H1 H2 H3 H4 H5 H6 H7 H8] Hj.
  destruct (new_job_fresh j (a_fresh s) fresh _ Hj H6 H7) as [H6' H7'].
  assert ((a_posted s ++ [j]) ++ a_inline s ≡ₚ j :: a_posted s ++ a_inline s) as Hp.
  { rewrite <- app_assoc. symmetry. apply Permutation_middle. }
  split; unfold executed in *; simpl; auto.
  - by rewrite <- H1, !app_assoc.
  - intros _. right. left. lia.
  - by rewrite Hp.
  - by rewrite Hp.
Qed.

Lemma promises_step j s executed' inl m :
  (∀ p v, m !! p = Some v ↔ ∃ f, Job f (Some p) ∈ s ∧ v = value f) →
  executed' ++ inl ≡ₚ j :: s → NoDup (omap j_promise (j :: s)) →
  ∀ p v, fulfil j m !! p = Some v ↔
    ∃ f, Job f (Some p) ∈ executed' ++ inl ∧ v = value f.
Proof.
  intros Hm Hp Hnd p v. unfold fulfil. setoid_rewrite Hp. setoid_rewrite elem_of_cons.
  destruct j as [g [q|]]; simpl in *.
  - apply NoDup_cons in Hnd as [Hq Hnd]. rewrite lookup_insert_Some. split.
    + intros [[<- <-]|[Hne Hv]]; [by eauto|]. apply Hm in Hv as (f & Hf & ->). eauto.
    + intros (f & [[= -> ->]|Hf] & ->); [by left|]. right. split; [|apply Hm; eauto].
      intros ->. apply Hq, list_elem_of_omap. eexists. eauto.
  - rewrite Hm. split; [intros (f & ? & ?); eauto|]. intros (f & [[=]|Hf] & ->). eauto.
Qed.

Lemma run_inline_inv j fresh s :
  ainv s → new_job j (a_fresh s) fresh → ainv (run_inline j fresh s).
Proof.
  intros Hinv Hj. pose proof Hinv as [H1 H2 H3 H4 H5 H6 H7 H8].
  destruct (new_job_fresh j (a_fresh s) fresh _ Hj H6 H7) as [H6' H7'].
  assert (∀ l, l ++ a_inline s ++ [j] ≡ₚ j :: l ++ a_inline s) as Hp.
  { intros l. rewrite app_assoc. symmetry. apply Permutation_cons_append. }
  split; simpl; auto.
  - by rewrite Hp.
  - by rewrite Hp.
  - eapply promises_step; [exact H8|apply Hp|].
    eapply (NoDup_omap_part _ _ _ (drop (a_next s) (a_tmp s) ++ a_funcs s)); [exact H7'|].
    rewrite <- (executed_prefix s Hinv), <- Permutation_middle, <- (app_assoc (executed s)).
    f_equiv. rewrite (Permutation_app_comm (executed s)), <- !app_assoc.
    do 2 f_equiv. apply Permutation_app_comm.
Qed.

Lemma exec_inv j s :
  ainv s → a_pc s = PRun → a_tmp s !! a_next s = Some j →
  ainv (set_loop (a_funcs s) (a_tmp s) (S (a_next s)) (a_eventfd s) PRun
          (fulfil j (a_promises s)) (a_done s) s).
Proof.
  intros Hinv Hpc Hj. pose proof Hinv as [H1 H2 H3 H4 H5 H6 H7 H8].
  assert (a_done s ++ take (S (a_next s)) (a_tmp s) = executed s ++ [j]) as Hex.
  { unfold executed. by rewrite (take_S_r _ _ j Hj), app_assoc. }
  split; simpl; auto.
  - apply lookup_lt_Some in Hj. lia.
  - done.
  - rewrite <- Hpc. done.
  - unfold executed at 1. simpl. rewrite Hex.
    eapply promises_step; [exact H8| |].
    { rewrite <- app_assoc. symmetry. apply Permutation_middle. }
    eapply (NoDup_omap_part _ _ _ (drop (S (a_next s)) (a_tmp s) ++ a_funcs s)); [exact H7|].
    rewrite <- (executed_prefix s Hinv), (drop_S _ _ _ Hj).
    rewrite <- Permutation_middle. simpl. rewrite <- (Permutation_middle (executed s)). simpl.
    f_equiv. rewrite (Permutation_app_comm (executed s)), <- !app_assoc. done.
Qed.

Lemma astep_inv a s s' : ainv s → astep a s = Some s' → ainv s'.
Proof.
  intros Hinv. pose proof Hinv as [H1 H2 H3 H4 H5 H6 H7 H8].
  destruct a as [self f|self f|self f|self f| | | | | | |]; simpl; repeat case_match;
    intros E; simplify_eq/=.
  1-6: first [apply append_inv | apply run_inline_inv]; auto; split; simpl; auto; lia.
  all: try (by eapply exec_inv).
  - (* AWrite *) split; simpl; auto; [|lia]. intros Hne. destruct (H4 Hne) as [|[|]]; auto; lia.
  - (* AWake *) destruct_and!. assert (a_pc s ≠ PRun) as Hn by congruence.
    split; simpl; auto.
  - (* ARead *) assert (a_pc s ≠ PRun) as Hn by congruence. split; simpl; auto; lia.
  - (* ASwap *) assert (a_pc s ≠ PRun) as Hn by congruence. destruct (H3 Hn) as [Ht Hx].
    unfold executed in *. rewrite Ht, Hx in *.
    split; unfold executed; simpl; auto; try done; try lia. by rewrite app_nil_r.
  - (* AEnd *) destruct_and!. unfold executed in *.
    assert (take (a_next s) (a_tmp s) = a_tmp s) as Ht by (by apply take_ge; lia).
    rewrite Ht in H8. split; unfold executed; simpl; auto; try done.
    + by rewrite <- app_assoc.
    + intros Hne. destruct (H4 Hne) as [|[|[|]]]; auto; congruence.
    + intros p v. rewrite H8, app_nil_r. done.
  - (* AStop *) assert (a_pc s ≠ PRun) as Hn by congruence. split; simpl; auto.
    intros Hne. destruct (H4 Hne) as [|[|[|]]]; auto; congruence.
Qed.

Lemma ainit_inv thread : ainv (ainit thread).
Proof.
  split; simpl; auto; try done; try constructor.
  - by rewrite lookup_empty.
  - unfold executed. simpl. intros (f & ?%elem_of_nil & _). done.
Qed.

Lemma arun_inv acts s s' : ainv s → arun acts s = Some s' → ainv s'.
Proof.
  revert s. induction acts as [|a acts IH]; simpl; intros s Hinv E; [by simplify_eq|].
  apply bind_Some in E as (s1 & E1 & E2). eauto using astep_inv.
Qed.

Lemma reachable_inv s : reachable s → ainv s.
Proof. intros (th & acts & E). eauto using arun_inv, ainit_inv. Qed.

Lemma arun_app acts1 acts2 s :
  arun (acts1 ++ acts2) s = (s1 ← arun acts1 s; arun acts2 s1).
Proof.
  revert s. induction acts1 as [|a acts IH]; intros s; simpl; [done|].
  destruct (astep a s); simpl; auto.
Qed.

(** ** Progress *)

(** Actions of the loop thread and pending [eventfd_write]s only: nothing
    new is posted and the loop is not stopped. *)
Definition quiet (a : action) : Prop :=
  match a with AWrite | AWake | ARead | ASwap | AExec | AEnd => True | _ => False end.

Lemma quiet_posted a s s' : quiet a → astep a s = Some s' → a_posted s' = a_posted s.
Proof. destruct a; simpl; intros ? E; repeat case_match; by simplify_eq/=. Qed.

Definition can_reach (s s' : astate) : Prop := ∃ acts, Forall quiet acts ∧ arun acts s = Some s'.

#[export] Instance can_reach_preorder : PreOrder can_reach.
Proof.
  split; [by exists []|]. intros s1 s2 s3 (a1 & Q1 & E1) (a2 & Q2 & E2).
  exists (a1 ++ a2). split; [by apply Forall_app|]. by rewrite arun_app, E1.
Qed.

Lemma can_step a s s' : quiet a → astep a s = Some s' → can_reach s s'.
Proof. intros Hq E. exists [a]. split; [by repeat constructor|]. simpl. by rewrite E. Qed.

Lemma can_reach_inv s s' : ainv s → can_reach s s' → ainv s'.
Proof. intros H (acts & _ & E). eauto using arun_inv. Qed.

(** All pending writes can happen. *)
Lemma flush_writes s :
  ∃ s', can_reach s s' ∧ a_writers s' = 0%nat ∧ a_pc s' = a_pc s ∧ a_funcs s' = a_funcs s ∧
    a_posted s' = a_posted s ∧ a_tmp s' = a_tmp s ∧ a_next s' = a_next s ∧ a_done s' = a_done s.
Proof.
  remember (a_writers s) as n eqn:E. revert s E. induction n as [|n IH]; intros s E.
  { by exists s. }
  destruct (astep AWrite s) as [s1|] eqn:Es; simpl in Es; rewrite <- E in Es; [|done].
  injection Es as Es. destruct (IH s1) as (s' & Hr & Hrest); [by subst s1|].
  exists s'. split; [|by subst s1]. etrans; [|exact Hr].
  apply (can_step AWrite); [done|]. simpl. by rewrite <- E, Es.
Qed.

(** The loop thread can finish the batch it is running. *)
Lemma finish_batch s :
  ainv s → a_pc s = PRun →
  ∃ s', can_reach s s' ∧ a_pc s' = PIdle ∧ a_funcs s' = a_funcs s ∧
    a_posted s' = a_posted s ∧ a_writers s' = a_writers s ∧ a_eventfd s' = a_eventfd s.
Proof.
  remember (length (a_tmp s) - a_next s)%nat as n eqn:E. revert s E.
  induction n as [|n IH]; intros s E Hinv Hpc.
  - eexists. split; [apply (can_step AEnd); [done|]|].
    + simpl. rewrite decide_True by (pose proof (ai_next _ Hinv); split; [done|lia]). done.
    + done.
  - destruct (lookup_lt_is_Some_2 (a_tmp s) (a_next s)) as [j Hj]; [lia|].
    pose proof (exec_inv j s Hinv Hpc Hj) as Hinv1. set (s1 := set_loop _ _ _ _ _ _ _ _) in Hinv1.
    destruct (IH s1) as (s' & Hr & Hrest); [simpl; lia|done|done|].
    exists s'. split; [|exact Hrest]. etrans; [|exact Hr].
    apply (can_step AExec); [done|]. simpl. by rewrite decide_True, Hj.
Qed.

(** An idle loop thread with nothing queued has run everything. *)
Lemma idle_executed s :
  ainv s → a_pc s = PIdle → a_funcs s = [] → executed s = a_posted s.
Proof.
  intros Hinv Hpc Hf. rewrite <- (executed_prefix s Hinv), Hf.
  destruct (ai_tmp _ Hinv) as [-> ->]; [congruence|]. simpl. by rewrite !app_nil_r.
Qed.

Lemma serve_swap s :
  ainv s → a_pc s = PSwap →
  ∃ s', can_reach s s' ∧ a_pc s' = PIdle ∧ a_funcs s' = [] ∧ a_posted s' = a_posted s.
Proof.
  intros Hinv Hpc. destruct (astep ASwap s) as [s1|] eqn:E; simpl in E;
    rewrite decide_True in E by done; [|done].
  assert (ainv s1) as Hinv1 by (eapply (astep_inv ASwap); [exact Hinv|]; simpl; by rewrite decide_True).
  simplify_eq. destruct (finish_batch _ Hinv1 eq_refl) as (s' & Hr & Hpc' & Hf' & Hp' & _).
  exists s'. split_and!; [|done| |done].
  - etrans; [|exact Hr]. apply (can_step ASwap); [done|]. simpl. by rewrite decide_True.
  - rewrite Hf'. simpl. apply (ai_tmp _ Hinv). congruence.
Qed.

Lemma serve_read s :
  ainv s → a_pc s = PRead →
  ∃ s', can_reach s s' ∧ a_pc s' = PIdle ∧ a_funcs s' = [] ∧ a_posted s' = a_posted s.
Proof.
  intros Hinv Hpc.
  destruct (astep ARead s) as [s1|] eqn:E; [|simpl in E; by rewrite decide_True in E].
  pose proof (astep_inv ARead s s1 Hinv E) as Hinv1. pose proof (can_step ARead s s1 I E) as Hr1.
  simpl in E. rewrite decide_True in E by done. simplify_eq.
  destruct (serve_swap _ Hinv1 eq_refl) as (s' & Hr & Hrest).
  exists s'. split; [by etrans|exact Hrest].
Qed.

Lemma serve_idle s :
  ainv s → a_pc s = PIdle → a_writers s = 0%nat →
  ∃ s', can_reach s s' ∧ a_pc s' = PIdle ∧ a_funcs s' = [] ∧ a_posted s' = a_posted s.
Proof.
  intros Hinv Hpc Hw. destruct (decide (a_funcs s = [])) as [|Hne]; [by exists s|].
  assert (0 < a_eventfd s) as He.
  { destruct (ai_wakeup _ Hinv Hne) as [|[|[|]]]; congruence || lia. }
  destruct (astep AWake s) as [s1|] eqn:E; [|simpl in E; by rewrite decide_True in E].
  pose proof (astep_inv AWake s s1 Hinv E) as Hinv1. pose proof (can_step AWake s s1 I E) as Hr1.
  simpl in E. rewrite decide_True in E by done. simplify_eq.
  destruct (serve_read _ Hinv1 eq_refl) as (s' & Hr & Hrest).
  exists s'. split; [by etrans|exact Hrest].
Qed.

(** ** Properties *)

(** C12. Exactly once, in order: in every reachable interleaving, the posted
    functions that have run are a prefix of the posted functions (in the order
    of the locked appends), each promise is fulfilled at most once, and a
    promise holds a value exactly when its function has run, namely that
    function's result. *)
Theorem async_exactly_once (s : astate) (Hs : reachable s) :
  executed s `prefix_of` a_posted s ∧
  NoDup (omap j_promise (executed s ++ a_inline s)) ∧
  (∀ p v, a_promises s !! p = Some v ↔
     ∃ f, Job f (Some p) ∈ executed s ++ a_inline s ∧ v = value f).
Proof.
  apply reachable_inv in Hs. split_and!.
  - eexists. symmetry. by apply executed_prefix.
  - eapply (NoDup_omap_part _ _ _ (drop (a_next s) (a_tmp s) ++ a_funcs s)); [by apply ai_unique|].
    rewrite <- (executed_prefix s Hs), (Permutation_app_comm (executed s)). by rewrite <- app_assoc.
  - by apply ai_promises.
Qed.

(** C13. No lost wake-up: while the loop thread sleeps, a non-empty queue
    means that the event descriptor is readable or that a poster has yet to
    write it. *)
Theorem async_no_lost_wakeup (s : astate) (Hs : reachable s)
  (Hidle : a_pc s = PIdle) (Hq : a_funcs s ≠ []) :
  0 < a_eventfd s ∨ (0 < a_writers s)%nat.
Proof.
  apply reachable_inv in Hs. destruct (ai_wakeup _ Hs Hq) as [|[|[|]]]; auto; congruence.
Qed.

(** C14. Progress: from every reachable state in which the loop has not been
    stopped, pending [eventfd_write]s and steps of the loop thread alone lead
    to a state where every function posted so far has run. *)
Theorem async_all_run (s : astate) (Hs : reachable s) (Hrun : a_pc s ≠ PStopped) :
  ∃ s', can_reach s s' ∧ a_posted s' = a_posted s ∧ executed s' = a_posted s.
Proof.
  apply reachable_inv in Hs. destruct (flush_writes s) as (s1 & Hr1 & Hw1 & Hpc1 & Hf1 & Hp1 & _).
  pose proof (can_reach_inv _ _ Hs Hr1) as Hs1. rewrite <- Hpc1 in Hrun.
  assert (∃ s2, can_reach s1 s2 ∧ a_pc s2 = PIdle ∧ a_funcs s2 = [] ∧ a_posted s2 = a_posted s1)
    as (s2 & Hr2 & Hpc2 & Hf2 & Hp2).
  { destruct (a_pc s1) eqn:E; [by apply serve_idle|by apply serve_read|by apply serve_swap| |done].
    destruct (finish_batch s1 Hs1 E) as (s2 & Hr2 & Hpc2 & Hf2 & Hp2 & Hw2 & _).
    destruct (serve_idle s2) as (s3 & Hr3 & Hpc3 & Hf3 & Hp3);
      [by eapply can_reach_inv|done|congruence|].
    exists s3. split_and!; [by etrans|done..|congruence]. }
  exists s2. split_and!; [by etrans|congruence|].
  rewrite idle_executed; [congruence| |done|done]. do 2 (eapply can_reach_inv; [|done]). done.
Qed.
End steps.

(** ** Witnesses *)

(** Thread 2 posts two functions; the second arrives while the loop thread 1 is
    already running the first; the loop thread calls a third one directly. *)
Definition demo_actions : list action :=
  [AReturn 2 10%nat; AWrite; AWake; ARead; ASwap; AAsync 2 11%nat; AExec; ACall 1 12%nat; AEnd].
Definition demo_value (f : fn) : Z := Z.of_nat f * 2.
Definition demo_state : astate :=
  AState 1 [Job 11%nat None] [] 0 0 1 PIdle {[0%nat := 20]} 1
    [Job 10%nat (Some 0%nat); Job 11%nat None] [Job 10%nat (Some 0%nat)] [Job 12%nat None].

Lemma demo_reachable : reachable demo_value false demo_state.
Proof. exists 1, demo_actions. reflexivity. Qed.

Lemma async_exactly_once_witness :
  executed demo_state `prefix_of` a_posted demo_state ∧
  NoDup (omap j_promise (executed demo_state ++ a_inline demo_state)) ∧
  (∀ p v, a_promises demo_state !! p = Some v ↔
     ∃ f, Job f (Some p) ∈ executed demo_state ++ a_inline demo_state ∧ v = demo_value f).
Proof. apply (async_exactly_once demo_value false demo_state). exact demo_reachable. Defined.

Lemma async_no_lost_wakeup_witness :
  0 < a_eventfd demo_state ∨ (0 < a_writers demo_state)%nat.
Proof.
  apply (async_no_lost_wakeup demo_value false demo_state).
  - exact demo_reachable.
  - reflexivity.
  - discriminate.
Defined.

Lemma async_all_run_witness :
  ∃ s', can_reach demo_value false demo_state s' ∧ a_posted s' = a_posted demo_state ∧
    executed s' = a_posted demo_state.
Proof.
  apply (async_all_run demo_value false demo_state).
  - exact demo_reachable.
  - discriminate.
Defined.
