(* ===== verification/Task.v ===== *)
(** * Coroutine tasks ([coio/task.h])

    [task<T>] owns a coroutine frame through its handle; the frame holds the
    promise.  The model keeps the frames in a store and the task objects in named
    variables, so that ownership, moves, detaching and destruction are visible.
    [task_promise<T>] is the kind [KValue] (values are integers), the specialised
    [task_promise<void>] the kind [KVoid], [task_promise<T &>] the kind [KRef] (the
    value is the address). *)

From S2P Require Import Prelude.

Inductive kind := KVoid | KValue | KRef.
(** [value_state] with its payload; a [void] promise is [RMono] or [RExn]. *)
Inductive presult := RMono | RValue (v : Z) | RExn (e : Z).
(** Suspended at [initial_suspend], in the body, or at [final_suspend]. *)
Inductive cstate := CInit | CActive | CFinal.

#[export] Instance kind_eq_dec : EqDecision kind.
Proof. solve_decision. Defined.
#[export] Instance presult_eq_dec : EqDecision presult.
Proof. solve_decision. Defined.
#[export] Instance cstate_eq_dec : EqDecision cstate.
Proof. solve_decision. Defined.

(** [f_parent] is [parent_coro], [None] for [std::noop_coroutine()];
    [f_detached] is [is_detached_flag == is_detached] ([KVoid] only).  [f_zero]:
    the memory of the frame was zero where the union of [task_promise<T>] lies,
    which its constructor leaves alone. *)
Record frame := Frame {
  f_kind : kind;
  f_parent : option nat;
  f_state : cstate;
  f_detached : bool;
  f_result : presult;
  f_zero : bool;
}.

(** [t_vars] are the live task objects and the handles they hold. *)
Record tasks := Tasks {
  t_frames : gmap nat frame;
  t_next : nat;
  t_vars : gmap nat (option nat);
}.

Definition set_frames (m : gmap nat frame) (t : tasks) : tasks := Tasks m (t_next t) (t_vars t).
Definition set_vars (m : gmap nat (option nat)) (t : tasks) : tasks :=
  Tasks (t_frames t) (t_next t) m.

(** [handle.destroy()] *)
Definition destroy (c : nat) (t : tasks) : res tasks :=
  match t_frames t !! c with
  | Some _ => Ok (set_frames (delete c (t_frames t)) t)
  | None => Fail InvalidFree
  end.

Definition handle (v : nat) (t : tasks) : res (option nat) :=
  match t_vars t !! v with Some h => Ok h | None => Fail DanglingRef end.
(** [handle.promise()] *)
Definition promise (h : option nat) (t : tasks) : res (nat * frame) :=
  match h with
  | None => Fail NullDeref
  | Some c => match t_frames t !! c with Some f => Ok (c, f) | None => Fail DanglingRef end
  end.

(** [task()] and [task(std::coroutine_handle<promise_type>)] *)
Definition task_ctor (v : nat) (t : tasks) : tasks := set_vars (<[v := None]> (t_vars t)) t.
Definition task_of_handle (v c : nat) (t : tasks) : tasks := set_vars (<[v := Some c]> (t_vars t)) t.

(** Calling a coroutine: the frame is created, suspended at its start, and
    [get_return_object] gives the task. *)
Definition call_coroutine (v : nat) (k : kind) (zero : bool) (t : tasks) : tasks :=
  task_of_handle v (t_next t)
    (Tasks (<[t_next t := Frame k None CInit false RMono zero]> (t_frames t)) (S (t_next t)) (t_vars t)).

(** [task(task &&)] *)
Definition move_ctor (dst src : nat) (t : tasks) : res tasks :=
  h ← handle src t; Ok (set_vars (<[dst := h]> (<[src := None]> (t_vars t))) t).

(** [operator=(task &&)] *)
Definition move_assign (dst src : nat) (t : tasks) : res tasks :=
  if decide (dst = src) then Ok t
  else
    old ← handle dst t;
    h ← handle src t;
    t ← (match old with Some c => destroy c t | None => Ok t end);
    Ok (set_vars (<[src := None]> (<[dst := h]> (t_vars t))) t).

(** [~task()] *)
Definition task_dtor (v : nat) (t : tasks) : res tasks :=
  h ← handle v t;
  t ← (match h with Some c => destroy c t | None => Ok t end);
  Ok (set_vars (delete v (t_vars t)) t).

Definition swap (a b : nat) (t : tasks) : res tasks :=
  ha ← handle a t;
  hb ← handle b t;
  Ok (set_vars (<[a := hb]> (<[b := ha]> (t_vars t))) t).

(** [detach] of a [task<T>]; [k] is its static type: only [task<void>] marks the
    promise. *)
Definition detach (k : kind) (v : nat) (t : tasks) : res tasks :=
  h ← handle v t;
  match k with
  | KVoid =>
      '(c, f) ← promise h t;
      Ok (Tasks (<[c := Frame (f_kind f) (f_parent f) (f_state f) true (f_result f) (f_zero f)]> (t_frames t))
            (t_next t) (<[v := None]> (t_vars t)))
  | KValue | KRef => Ok (set_vars (<[v := None]> (t_vars t)) t)
  end.

(** [!handle || handle.done()]: [await_ready] of the awaiters, and [is_ready]. *)
Definition awaiter_ready (h : option nat) (t : tasks) : res bool :=
  match h with
  | None => Ok true
  | Some c => match t_frames t !! c with
              | Some f => Ok (bool_decide (f_state f = CFinal))
              | None => Fail DanglingRef
              end
  end.
Definition is_ready (v : nat) (t : tasks) : res bool := h ← handle v t; awaiter_ready h t.

(** [await_suspend]: the awaiting coroutine becomes the parent, and the task
    runs; the result is the coroutine to go on with.  A coroutine may be resumed
    only where it is suspended, here at its start. *)
Definition await_suspend (v parent : nat) (t : tasks) : res (tasks * nat) :=
  h ← handle v t;
  '(c, f) ← promise h t;
  require (bool_decide (f_state f = CInit)) NotSuspended ≫= λ _,
  Ok (set_frames (<[c := Frame (f_kind f) (Some parent) CActive (f_detached f) (f_result f) (f_zero f)]>
        (t_frames t)) t, c).

(** The first resumption of a spawned task ([co_spawn]). *)
Definition start (c : nat) (t : tasks) : res tasks :=
  '(c, f) ← promise (Some c) t;
  require (bool_decide (f_state f = CInit)) NotSuspended ≫= λ _,
  Ok (set_frames (<[c := Frame (f_kind f) (f_parent f) CActive (f_detached f) (f_result f) (f_zero f)]>
        (t_frames t)) t).

(** How the body of a coroutine ends. *)
Inductive ending := Returns (v : Z) | Throws (e : Z).

(** [return_value] / [return_void] / [unhandled_exception], then
    [final_suspend] and its awaiter.  In [task_promise<T>] the exception is stored
    by an assignment to a union member that was never constructed: the assignment
    releases what it finds there, which is harmless only for zero bytes.  The
    results are the coroutine to go on with
    and the exception that leaves [resume()], if any. *)
Definition finish (c : nat) (e : ending) (t : tasks) : res (tasks * option nat * option Z) :=
  '(c, f) ← promise (Some c) t;
  let final r := Frame (f_kind f) (f_parent f) CFinal (f_detached f) r (f_zero f) in
  match f_kind f, e with
  | (KValue | KRef), Returns v =>
      Ok (set_frames (<[c := final (RValue v)]> (t_frames t)) t, f_parent f, None)
  | KValue, Throws x =>
      require (f_zero f) InvalidFree ≫= λ _,
      Ok (set_frames (<[c := final (RExn x)]> (t_frames t)) t, f_parent f, None)
  | KRef, Throws x =>
      Ok (set_frames (<[c := final (RExn x)]> (t_frames t)) t, f_parent f, None)
  | KVoid, Returns _ =>
      if f_detached f
      then t ← destroy c t; Ok (t, f_parent f, None)
      else Ok (set_frames (<[c := final (f_result f)]> (t_frames t)) t, f_parent f, None)
  | KVoid, Throws x =>
      if f_detached f
      then (* rethrown: suspended at the end, the final awaiter does not run *)
           Ok (set_frames (<[c := final (f_result f)]> (t_frames t)) t, None, Some x)
      else Ok (set_frames (<[c := final (RExn x)]> (t_frames t)) t, f_parent f, None)
  end.

(** [await_resume]: the value, or the exception rethrown in the awaiting
    coroutine; reading a value that was never set is an assertion failure, a
    reference that was never set a null pointer. *)
Inductive awaited := AValue (v : Z) | AVoid | AThrown (e : Z).
Definition await_resume (v : nat) (t : tasks) : res awaited :=
  h ← handle v t;
  '(c, f) ← promise h t;
  match f_result f, f_kind f with
  | RExn e, _ => Ok (AThrown e)
  | RValue x, _ => Ok (AValue x)
  | RMono, KVoid => Ok AVoid
  | RMono, KValue => Fail AssertFail
  | RMono, KRef => Fail NullDeref
  end.

(** [when_ready()]: its [await_ready] and [await_suspend] are those above, its
    [await_resume] does not look at the promise. *)
Definition when_ready_resume (v : nat) (t : tasks) : res unit := _ ← handle v t; Ok tt.

(** [make_task(awaiter)]: the body awaits and returns what it gets; this is how
    the body ends once the awaiter has been resumed. *)
Definition make_task_ending (a : awaited) : ending :=
  match a with AValue v => Returns v | AVoid => Returns 0 | AThrown e => Throws e end.

(** ** Ownership *)

Definition owned (t : tasks) (v c : nat) : Prop := t_vars t !! v = Some (Some c).

(** Every handle in a task object points to a live frame that no other task
    object holds; a frame without owner is a detached one that has not
    finished. *)
Record own_inv (t : tasks) : Prop := {
  oi_live v c : owned t v c → ∃ f, t_frames t !! c = Some f ∧ f_detached f = false;
  oi_unique v1 v2 c : owned t v1 c → owned t v2 c → v1 = v2;
  oi_orphan c f : t_frames t !! c = Some f →
    (∃ v, owned t v c) ∨ f_detached f = true ∧ f_kind f = KVoid ∧ f_state f ≠ CFinal;
  oi_next c f : t_frames t !! c = Some f → (c < t_next t)%nat;
}.

(** In-place update of a frame that keeps its ownership. *)
Lemma own_update t c f f' :
  own_inv t → t_frames t !! c = Some f → f_detached f' = f_detached f → f_kind f' = f_kind f →
  f_detached f = false ∨ f_state f' ≠ CFinal →
  own_inv (set_frames (<[c := f']> (t_frames t)) t).
Proof.
  intros [L U O N] Hc Hd Hk Hs. split; unfold owned in *; simpl.
  - intros v c0 Hv. destruct (L v c0 Hv) as (f0 & E & D). destruct (decide (c0 = c)) as [->|].
    + exists f'. rewrite lookup_insert_eq. split; [done|congruence].
    + exists f0. by rewrite lookup_insert_ne.
  - done.
  - intros c0 f0. rewrite lookup_insert_Some. intros [[<- <-]|[_ E]]; [|by apply O].
    destruct (O c f Hc) as [?|(? & ? & ?)]; [by left|right]. rewrite Hd, Hk.
    split_and!; [done|done|]. destruct Hs; congruence.
  - intros c0 f0. rewrite lookup_insert_Some. intros [[<- _]|[_ E]]; eauto.
Qed.

(** Redistributing the handles among the task objects. *)
Lemma own_vars t m :
  own_inv t →
  (∀ v c, m !! v = Some (Some c) → ∃ v', owned t v' c) →
  (∀ v1 v2 c, m !! v1 = Some (Some c) → m !! v2 = Some (Some c) → v1 = v2) →
  (∀ v c, owned t v c → ∃ v', m !! v' = Some (Some c)) →
  own_inv (set_vars m t).
Proof.
  intros [L U O N] H1 H2 H3. split; unfold owned in *; simpl.
  - intros v c [v' Hv]%H1. by apply (L v').
  - done.
  - intros c f E. destruct (O c f E) as [[v Hv]|?]; [left; eauto|by right].
  - done.
Qed.

(** Destroying an owned frame and clearing its owner. *)
Lemma own_destroy t v c :
  own_inv t → owned t v c →
  destroy c t = Ok (set_frames (delete c (t_frames t)) t) ∧
  ∀ m, (∀ v' c', m !! v' = Some (Some c') ↔ v' ≠ v ∧ owned t v' c') →
    own_inv (set_vars m (set_frames (delete c (t_frames t)) t)).
Proof.
  intros [L U O N] Hv. split.
  { unfold destroy. destruct (L v c Hv) as (f & -> & _). done. }
  intros m Hm. split; unfold owned in *; simpl.
  - intros v' c' [Hne Hc]%Hm. destruct (L v' c' Hc) as (f & E & D). exists f.
    rewrite lookup_delete_ne; [done|]. intros <-. by destruct Hne, (U v v' c).
  - intros v1 v2 c0 [_ H1]%Hm [_ H2]%Hm. eauto.
  - intros c0 f. rewrite lookup_delete_Some. intros [Hne E].
    destruct (O c0 f E) as [[v' Hv']|?]; [left|by right]. exists v'. apply Hm. split; [|done].
    intros ->. congruence.
  - intros c0 f. rewrite lookup_delete_Some. intros [_ E]. eauto.
Qed.

(** ** Programs over tasks *)

Inductive task_op :=
  | TNew (v : nat)
  | TCall (v : nat) (k : kind) (zero : bool)
  | TMoveCtor (dst src : nat)
  | TMoveAssign (dst src : nat)
  | TDtor (v : nat)
  | TSwap (a b : nat)
  | TDetach (v : nat)
  | TAwait (v parent : nat)
  | TStart (c : nat)
  | TFinish (c : nat) (e : ending).

Definition task_step (op : task_op) (t : tasks) : res tasks :=
  match op with
  | TNew v => Ok (task_ctor v t)
  | TCall v k z => Ok (call_coroutine v k z t)
  | TMoveCtor dst src => move_ctor dst src t
  | TMoveAssign dst src => move_assign dst src t
  | TDtor v => task_dtor v t
  | TSwap a b => swap a b t
  | TDetach v => detach KVoid v t
  | TAwait v parent => fst <$> await_suspend v parent t
  | TStart c => start c t
  | TFinish c e => (λ r, r.1.1) <$> finish c e t
  end.

Definition frame_at (c : nat) (t : tasks) (P : frame → Prop) : Prop :=
  match t_frames t !! c with Some f => P f | None => False end.

Definition may_end (f : frame) (e : ending) : Prop :=
  match e with
  | Returns _ => True
  | Throws _ => f_detached f = false ∧ (f_kind f = KValue → f_zero f = true)
  end.

(** What C++ and the users of [task] guarantee: new variables are new, existing
    ones exist; only an unfinished [task<void>] is detached; a task is awaited or
    started once; a body ends once, a detached one without an exception, and one
    that returns a value throws only when its frame's memory was zero. *)
Definition enabled (op : task_op) (t : tasks) : Prop :=
  match op with
  | TNew v => t_vars t !! v = None
  | TCall v _ _ => t_vars t !! v = None
  | TMoveCtor dst src => t_vars t !! dst = None ∧ is_Some (t_vars t !! src)
  | TMoveAssign dst src => is_Some (t_vars t !! dst) ∧ is_Some (t_vars t !! src)
  | TDtor v => is_Some (t_vars t !! v)
  | TSwap a b => is_Some (t_vars t !! a) ∧ is_Some (t_vars t !! b)
  | TDetach v => ∃ c, owned t v c ∧ frame_at c t (λ f, f_kind f = KVoid ∧ f_state f ≠ CFinal)
  | TAwait v _ => ∃ c, owned t v c ∧ frame_at c t (λ f, f_state f = CInit)
  | TStart c => frame_at c t (λ f, f_state f = CInit)
  | TFinish c e =>
      frame_at c t (λ f, f_state f = CActive ∧ may_end f e)
  end.

Inductive task_run : list task_op → tasks → tasks → Prop :=
  | run_nil t : task_run [] t t
  | run_cons op ops t t1 t2 :
      enabled op t → task_step op t = Ok t1 → task_run ops t1 t2 → task_run (op :: ops) t t2.

Definition no_tasks : tasks := Tasks ∅ 0 ∅.

Lemma insert_None_owned v t v' c :
  <[v := None]> (t_vars t) !! v' = Some (Some c) ↔ v' ≠ v ∧ owned t v' c.
Proof.
  rewrite lookup_insert_Some. unfold owned. split.
  - intros [[_ ?]|[? ?]]; [done|]. split; congruence.
  - intros [? ?]. right. split; congruence.
Qed.

Lemma own_new v t : own_inv t → t_vars t !! v = None → own_inv (task_ctor v t).
Proof.
  intros Hi Hv. pose proof (insert_None_owned v t) as Hm. apply own_vars; [done|..].
  - intros v' c [_ Hc]%Hm. by exists v'.
  - intros v1 v2 c [_ H1]%Hm [_ H2]%Hm. by apply (oi_unique t Hi v1 v2 c).
  - intros v' c Hc. exists v'. apply Hm. split; [|done]. intros ->. unfold owned in Hc. congruence.
Qed.

Lemma own_call v k z t :
  own_inv t → t_vars t !! v = None → own_inv (call_coroutine v k z t).
Proof.
  intros [L U O N] Hv.
  assert (∀ v' c, owned t v' c → (c < t_next t)%nat) as Hlt.
  { intros v' c Hc. destruct (L v' c Hc) as (f & E & _). eauto. }
  split; unfold owned in *; simpl.
  - intros v' c. rewrite lookup_insert_Some. intros [[_ [= <-]]|[_ Hc]].
    + eexists. by rewrite lookup_insert_eq.
    + destruct (L v' c Hc) as (f & E & D). exists f. specialize (Hlt v' c Hc).
      by rewrite lookup_insert_ne by lia.
  - intros v1 v2 c. rewrite !lookup_insert_Some.
    intros [[<- [= <-]]|[N1 H1]] [[<- E]|[N2 H2]]; try done; [..|by eauto].
    + specialize (Hlt _ _ H2). lia.
    + injection E as <-. specialize (Hlt _ _ H1). lia.
  - intros c f. rewrite lookup_insert_Some. intros [[<- <-]|[Hne E]].
    + left. exists v. by rewrite lookup_insert_eq.
    + destruct (O c f E) as [[v' Hv']|?]; [left|by right]. exists v'.
      rewrite lookup_insert_ne; [done|]. intros <-. congruence.
  - intros c f. rewrite lookup_insert_Some. intros [[<- _]|[_ E]]; [lia|].
    specialize (N c f E). lia.
Qed.

(** The handle of [src] moves to [dst], which held none. *)
Lemma own_move t dst src h :
  own_inv t → t_vars t !! src = Some h → dst ≠ src →
  (∀ c, ¬ owned t dst c) → own_inv (set_vars (<[src := None]> (<[dst := h]> (t_vars t))) t).
Proof.
  intros Hi Hs Hne Hd. unfold owned in *. apply own_vars; [done|..]; unfold owned.
  - intros v c. rewrite !lookup_insert_Some. intros [[_ ?]|[_ [[_ ->]|[_ ?]]]]; [done|by eauto..].
  - intros v1 v2 c. rewrite !lookup_insert_Some.
    intros [[_ ?]|[A1 [[A2 A3]|[A2 A3]]]] [[_ ?]|[B1 [[B2 B3]|[B2 B3]]]]; try done; subst; [done|..].
    + destruct B1. by apply (oi_unique t Hi src v2 c).
    + destruct A1. by apply (oi_unique t Hi src v1 c).
    + by apply (oi_unique t Hi v1 v2 c).
  - intros v c Hv. destruct (decide (v = src)) as [->|].
    + exists dst. rewrite lookup_insert_ne by done. rewrite lookup_insert_eq. congruence.
    + exists v. rewrite lookup_insert_ne by done. rewrite lookup_insert_ne; [done|].
      intros ->. by destruct (Hd c).
Qed.

Lemma own_move_assign dst src t :
  own_inv t → is_Some (t_vars t !! dst) → is_Some (t_vars t !! src) →
  ∃ t', move_assign dst src t = Ok t' ∧ own_inv t'.
Proof.
  intros Hi [old Hd] [h Hs]. unfold move_assign, handle. case_decide as Hne; [by eauto|].
  rewrite Hd, Hs. cbn [mbind res_bind]. destruct old as [c|].
  - destruct (own_destroy t dst c Hi Hd) as [E Hi']. rewrite E. cbn [mbind res_bind].
    eexists. split; [done|].
    set (t1 := set_vars (<[dst := None]> (t_vars t)) (set_frames (delete c (t_frames t)) t)).
    assert (own_inv t1) as H1.
    { apply Hi'. intros v' c'. by apply insert_None_owned. }
    pose proof (own_move t1 dst src h H1) as Hm. simpl in Hm.
    rewrite insert_insert_eq in Hm. apply Hm; [by rewrite lookup_insert_ne|done|].
    intros c0. unfold owned. simpl. by rewrite lookup_insert_eq.
  - cbn [mbind res_bind]. eexists. split; [done|]. apply own_move; [done..|].
    intros c. unfold owned. by rewrite Hd.
Qed.

Lemma own_dtor v t :
  own_inv t → is_Some (t_vars t !! v) → ∃ t', task_dtor v t = Ok t' ∧ own_inv t'.
Proof.
  intros Hi [h Hv]. unfold task_dtor, handle. rewrite Hv. cbn [mbind res_bind]. destruct h as [c|].
  - destruct (own_destroy t v c Hi Hv) as [E Hi']. rewrite E. cbn [mbind res_bind].
    eexists. split; [done|]. apply Hi'. intros v' c'. simpl. rewrite lookup_delete_Some.
    unfold owned. split; intros [? ?]; (split; [congruence|done]).
  - eexists. split; [done|]. apply own_vars; [done|..]; unfold owned.
    + intros v' c [_ ?]%lookup_delete_Some. by eauto.
    + intros v1 v2 c [_ ?]%lookup_delete_Some [_ ?]%lookup_delete_Some. by apply (oi_unique t Hi v1 v2 c).
    + intros v' c Hc. exists v'. apply lookup_delete_Some. split; [|done]. intros <-. congruence.
Qed.

Lemma own_swap a b t :
  own_inv t → is_Some (t_vars t !! a) → is_Some (t_vars t !! b) →
  ∃ t', swap a b t = Ok t' ∧ own_inv t'.
Proof.
  intros Hi [ha Ha] [hb Hb]. unfold swap, handle. rewrite Ha, Hb. cbn [mbind res_bind].
  eexists. split; [done|]. set (σ v := if decide (v = a) then b else if decide (v = b) then a else v).
  assert (∀ v, <[a := hb]> (<[b := ha]> (t_vars t)) !! v = t_vars t !! σ v) as Hm.
  { intros v. unfold σ. destruct (decide (v = a)) as [->|]; [by rewrite lookup_insert_eq, Hb|].
    rewrite lookup_insert_ne by done. destruct (decide (v = b)) as [->|].
    - by rewrite lookup_insert_eq, Ha.
    - by rewrite lookup_insert_ne. }
  assert (∀ v, σ (σ v) = v) as Hσ by (intros v; unfold σ; repeat case_decide; congruence).
  apply own_vars; [done|..]; unfold owned.
  - intros v c. rewrite Hm. eauto.
  - intros v1 v2 c. rewrite !Hm. intros H1 H2. rewrite <- (Hσ v1), <- (Hσ v2).
    f_equal. by apply (oi_unique t Hi _ _ c).
  - intros v c Hv. exists (σ v). by rewrite Hm, Hσ.
Qed.

Lemma own_detach v c t :
  own_inv t → owned t v c → frame_at c t (λ f, f_kind f = KVoid ∧ f_state f ≠ CFinal) →
  ∃ t', detach KVoid v t = Ok t' ∧ own_inv t'.
Proof.
  intros Hi Hv Hf. pose proof Hi as [L U O N]. unfold frame_at in Hf.
  destruct (t_frames t !! c) as [f|] eqn:Ec; [|done]. destruct Hf as [Hk Hs].
  unfold detach, handle. unfold owned in Hv. rewrite Hv. cbn [mbind res_bind]. unfold promise.
  rewrite Ec. cbn [mbind res_bind]. rewrite Hk. eexists. split; [done|].
  pose proof (insert_None_owned v t) as Hm.
  split; unfold owned in *; simpl.
  - intros v' c' [Hne Hc]%Hm. destruct (L v' c' Hc) as (f0 & E & D). exists f0.
    rewrite lookup_insert_ne; [done|]. intros <-. by destruct Hne, (U v v' c).
  - intros v1 v2 c0 [_ H1]%Hm [_ H2]%Hm. eauto.
  - intros c0 f0. rewrite lookup_insert_Some. intros [[<- <-]|[Hne E]]; [by right|].
    destruct (O c0 f0 E) as [[v' Hv']|?]; [left|by right]. exists v'. apply Hm. split; [|done].
    intros ->. congruence.
  - intros c0 f0. rewrite lookup_insert_Some. intros [[<- _]|[_ E]]; eauto.
Qed.

Lemma own_await v c parent t :
  own_inv t → owned t v c → frame_at c t (λ f, f_state f = CInit) →
  ∃ t', await_suspend v parent t = Ok (t', c) ∧ own_inv t'.
Proof.
  intros Hi Hv Hf. unfold frame_at in Hf. destruct (t_frames t !! c) as [f|] eqn:Ec; [|done].
  unfold await_suspend, handle, promise. unfold owned in Hv. rewrite Hv. cbn [mbind res_bind].
  rewrite Ec. cbn [mbind res_bind]. rewrite bool_decide_true by done. cbn [require mbind res_bind].
  eexists. split; [done|]. eapply own_update; [done|done|done..|]. by right.
Qed.

Lemma own_start c t :
  own_inv t → frame_at c t (λ f, f_state f = CInit) → ∃ t', start c t = Ok t' ∧ own_inv t'.
Proof.
  intros Hi Hf. unfold frame_at in Hf. destruct (t_frames t !! c) as [f|] eqn:Ec; [|done].
  unfold start, promise. rewrite Ec. cbn [mbind res_bind]. rewrite bool_decide_true by done.
  cbn [require mbind res_bind]. eexists. split; [done|].
  eapply own_update; [done|done|done..|]. by right.
Qed.

(** A frame that deletes itself when it is done. *)
Lemma own_self_destroy c f t :
  own_inv t → t_frames t !! c = Some f → f_detached f = true →
  destroy c t = Ok (set_frames (delete c (t_frames t)) t) ∧
  own_inv (set_frames (delete c (t_frames t)) t).
Proof.
  intros [L U O N] Hc Hd. unfold destroy. rewrite Hc. split; [done|].
  assert (∀ v c', owned t v c' → c' ≠ c) as Hne.
  { intros v c' Hv ->. destruct (L v c Hv) as (f' & E & D). congruence. }
  split; unfold owned in *; simpl.
  - intros v c' Hv. destruct (L v c' Hv) as (f' & E & D). exists f'.
    rewrite lookup_delete_ne; [done|]. symmetry. eauto.
  - done.
  - intros c' f' [_ E]%lookup_delete_Some. eauto.
  - intros c' f' [_ E]%lookup_delete_Some. eauto.
Qed.

Lemma own_finish c e t :
  own_inv t →
  frame_at c t (λ f, f_state f = CActive ∧ may_end f e) →
  ∃ t' k x, finish c e t = Ok (t', k, x) ∧ own_inv t'.
Proof.
  intros Hi Hf. unfold frame_at in Hf. destruct (t_frames t !! c) as [f|] eqn:Ec; [|done].
  destruct Hf as [_ Hd]. unfold finish, promise. rewrite Ec. cbn [mbind res_bind].
  assert (f_kind f ≠ KVoid → f_detached f = false) as Hval.
  { intros Hk. destruct (f_detached f) eqn:D; [|done].
    destruct (oi_orphan t Hi c f Ec) as [[v Hv]|(_ & ? & _)]; [|congruence].
    destruct (oi_live t Hi v c Hv) as (f' & E & D'). congruence. }
  destruct (f_kind f) eqn:Hk, e as [v|x]; simpl in Hd.
  2: destruct Hd as [D _]; rewrite D.
  4: destruct Hd as [_ Hz]; rewrite (Hz Hk); cbn [require mbind res_bind].
  1: destruct (f_detached f) eqn:D.
  1: destruct (own_self_destroy c f t Hi Ec D) as [-> Hi']; cbn [mbind res_bind]; eauto 10.
  all: eexists _, _, _; (split; [done|]); (eapply own_update; [done|done|simpl; congruence..|]); auto.
  all: left; by apply Hval.
Qed.

Lemma task_step_inv op t :
  own_inv t → enabled op t → ∃ t', task_step op t = Ok t' ∧ own_inv t'.
Proof.
  intros Hi He. destruct op; simpl in *.
  - eexists. split; [done|]. by apply own_new.
  - eexists. split; [done|]. by apply own_call.
  - destruct He as [Hd [h Hs]]. unfold move_ctor, handle. rewrite Hs. cbn [mbind res_bind].
    eexists. split; [done|]. assert (dst ≠ src) by congruence.
    rewrite insert_insert_ne by done. apply own_move; [done..|].
    intros c. unfold owned. by rewrite Hd.
  - destruct He. by apply own_move_assign.
  - by apply own_dtor.
  - destruct He. by apply own_swap.
  - destruct He as (c & ? & ?). by eapply own_detach.
  - destruct He as (c & ? & ?). destruct (own_await v c parent t) as (t' & -> & ?); [done..|]. by eexists.
  - by apply own_start.
  - destruct (own_finish c e t Hi He) as (t' & k & x & -> & ?). by eexists.
Qed.

Lemma task_run_inv ops t t' : task_run ops t t' → own_inv t → own_inv t'.
Proof.
  induction 1 as [|op ops t t1 t2 He E _ IH]; intros Hi; [done|]. apply IH.
  destruct (task_step_inv op t Hi He) as (t1' & E' & H1). rewrite E in E'. by injection E' as <-.
Qed.

Lemma own_inv_empty : own_inv no_tasks.
Proof. split; unfold owned, no_tasks; simpl; intros *; by rewrite lookup_empty. Qed.

(** An exception in a [task<T>] whose frame was allocated on memory that was not
    zero: the assignment to [exception_ptr] releases a garbage pointer. *)
Lemma value_task_throw_faults c f x t :
  t_frames t !! c = Some f → f_kind f = KValue → f_zero f = false →
  finish c (Throws x) t = Fail InvalidFree.
Proof. intros Hc Hk Hz. unfold finish, promise. rewrite Hc. cbn [mbind res_bind]. by rewrite Hk, Hz. Qed.

(** ** Properties *)


(** The result of the body, as the awaiting coroutine sees it. *)
Definition result_of (k : kind) (e : ending) : awaited :=
  match e with Throws x => AThrown x | Returns x => if decide (k = KVoid) then AVoid else AValue x end.

(** The assignment to a union member of [task_promise<T>] that was never
    constructed, over memory that was not zero. *)
Definition releases_garbage (f : frame) (e : ending) : bool :=
  match f_kind f, e with KValue, Throws _ => negb (f_zero f) | _, _ => false end.

(** C29. Awaiting a task delivers its result.  A task of any kind that has not
    started is awaited: it runs with the awaiting coroutine as its parent; when its body
    ends, control goes back to that coroutine and to no other, [await_resume] gives it
    the value returned or rethrows the exception thrown, and the frame still belongs to
    the task.  The one exception is a [task<T>] whose body throws and whose frame lies
    in memory that was not zero before: there the promise releases a garbage pointer. *)
Theorem task_await_result (v c parent : nat) (e : ending) (t : tasks) (f : frame)
  (Hinv : own_inv t) (Hown : owned t v c) (Hframe : t_frames t !! c = Some f)
  (Hstate : f_state f = CInit) (Hresult : f_result f = RMono) :
  ∃ t1, await_suspend v parent t = Ok (t1, c) ∧
    if releases_garbage f e
    then finish c e t1 = Fail InvalidFree
    else ∃ t2, finish c e t1 = Ok (t2, Some parent, None) ∧ is_ready v t2 = Ok true ∧
           await_resume v t2 = Ok (result_of (f_kind f) e) ∧ owned t2 v c ∧ own_inv t2.
Proof.
  destruct (own_await v c parent t Hinv Hown) as (t1 & E1 & I1); [unfold frame_at; by rewrite Hframe|].
  assert (t1 = set_frames (<[c := Frame (f_kind f) (Some parent) CActive (f_detached f) (f_result f) (f_zero f)]>
    (t_frames t)) t) as Et1.
  { unfold await_suspend, handle, promise in E1. unfold owned in Hown. rewrite Hown in E1. cbn [mbind res_bind] in E1.
    rewrite Hframe in E1. cbn [mbind res_bind] in E1. rewrite bool_decide_true in E1 by done. by injection E1 as <-. }
  destruct (oi_live t Hinv v c Hown) as (f' & Ef & Hd). rewrite Hframe in Ef. injection Ef as <-.
  exists t1. split; [done|]. unfold owned in Hown. destruct (releases_garbage f e) eqn:Hbad.
  { unfold releases_garbage in Hbad. destruct (f_kind f) eqn:Hk, e as [|x], (f_zero f) eqn:Hz; try done. apply (value_task_throw_faults c
      (Frame KValue (Some parent) CActive (f_detached f) (f_result f) false)); [|done..].
    rewrite Et1. simpl. by rewrite lookup_insert_eq. }
  assert (may_end f e) as Hend.
  { destruct e as [x|x]; [done|]. split; [done|]. intros Hk. unfold releases_garbage in Hbad.
    rewrite Hk in Hbad. by destruct (f_zero f). }
  destruct (own_finish c e t1 I1) as (t2 & k & x & E2 & I2).
  { unfold frame_at. rewrite Et1. simpl. rewrite lookup_insert_eq. split; [done|]. by destruct e. }
  exists t2. pose proof E2 as E3. unfold finish, promise in E3. rewrite Et1 in E3. simpl in E3.
  rewrite lookup_insert_eq in E3. cbn [mbind res_bind f_kind f_parent f_detached f_zero f_result] in E3.
  rewrite Hd, Hresult in E3. rewrite E2.
  assert (∀ y, e = Throws y → f_kind f = KValue → f_zero f = true) as Hz by (intros y ->; apply Hend).
  unfold is_ready, awaiter_ready, await_resume, handle, promise, owned, result_of.
  destruct (f_kind f) eqn:Ek, e; try done;
    try (rewrite (Hz _ eq_refl eq_refl) in E3; cbn [require mbind res_bind] in E3);
    injection E3 as <- <- <-; simpl in *; rewrite Hown; cbn [mbind res_bind];
    rewrite !lookup_insert_eq; split_and!; auto.
Qed.

(** Two ways to lose a frame for good: detaching a task that returns a value
    (only [task<void>] destroys itself), and an exception that escapes a detached
    task, which also leaves [resume()] into the event loop. *)
Theorem detached_task_leaks :
  (∃ t, task_run [TCall 0 KValue false; TDtor 0] no_tasks t ∧ t_frames t = ∅) ∧
  (∃ t1 t2 k x, detach KValue 0 (call_coroutine 0 KValue false no_tasks) = Ok t1 ∧
     (t1 ← start 0 t1; finish 0 (Returns 5) t1) = Ok (t2, k, x) ∧
     (∀ v, ¬ owned t2 v 0) ∧ is_Some (t_frames t2 !! 0%nat)) ∧
  (∃ t1 t2 k, detach KVoid 0 (call_coroutine 0 KVoid false no_tasks) = Ok t1 ∧
     (t1 ← start 0 t1; finish 0 (Throws 5) t1) = Ok (t2, k, Some 5) ∧
     (∀ v, ¬ owned t2 v 0) ∧ is_Some (t_frames t2 !! 0%nat)).
Proof.
  assert (∀ v, ({[0%nat := None]} : gmap nat (option nat)) !! v ≠ Some (Some 0%nat)) as Hno.
  { intros v. rewrite lookup_singleton. by case_decide. }
  split_and!.
  - eexists. split; [|shelve]. eapply run_cons; [reflexivity|reflexivity|].
    eapply run_cons; [by eexists|reflexivity|]. apply run_nil. Unshelve. reflexivity.
  - eexists _, _, _, _. split; [reflexivity|]. split; [reflexivity|].
    split; [intros v; apply Hno|]. vm_compute. by eexists.
  - eexists _, _, _. split; [reflexivity|]. split; [reflexivity|].
    split; [intros v; apply Hno|]. vm_compute. by eexists.
Qed.

(** [make_task] is transparent: awaiting it gives what its awaiter gave. *)
Lemma make_task_forwards v c f a t :
  owned t v c → t_frames t !! c = Some f → f_kind f ≠ KVoid → a ≠ AVoid →
  may_end f (make_task_ending a) →
  ∃ t', finish c (make_task_ending a) t = Ok (t', f_parent f, None) ∧ await_resume v t' = Ok a.
Proof.
  intros Hv Hc Hk Ha He. unfold finish, promise. rewrite Hc. cbn [mbind res_bind].
  destruct a as [y| |y]; [|done|]; simpl in He |- *.
  - destruct (f_kind f) eqn:Ek; [done|..]; (eexists; split; [done|]);
      unfold await_resume, handle, promise; simpl; rewrite Hv; cbn [mbind res_bind];
      by rewrite lookup_insert_eq.
  - destruct He as [_ Hz]. destruct (f_kind f) eqn:Ek; [done|rewrite (Hz eq_refl)|];
      (eexists; split; [done|]); unfold await_resume, handle, promise; simpl; rewrite Hv;
      cbn [mbind res_bind]; by rewrite lookup_insert_eq.
Qed.

(** ** Witnesses *)

(** A spawned task that awaits another one: frame 0 is detached and awaits the
    value task in variable 1, which returns; then both end. *)
Definition demo_program : list task_op :=
  [TCall 0 KVoid false; TDetach 0; TStart 0; TCall 1 KValue false; TMoveCtor 2 1; TAwait 2 0;
   TFinish 1 (Returns 7); TDtor 2; TDtor 1; TFinish 0 (Returns 0); TDtor 0].

(** Every step of the program is enabled. *)
Ltac run_program :=
  repeat (eapply run_cons;
    [vm_compute; eauto using mk_is_Some; try (eexists; split; [reflexivity|by vm_compute]) |
     vm_compute; reflexivity|]); apply run_nil.

Lemma demo_program_runs : ∃ t, task_run demo_program no_tasks t ∧ t_frames t = ∅.
Proof. eexists. split; [run_program|vm_compute; reflexivity]. Qed.


Lemma task_await_result_witness :
  let t := call_coroutine 1 KValue false no_tasks in
  ∃ t1, await_suspend 1 9 t = Ok (t1, 0%nat) ∧
    ∃ t2, finish 0 (Returns 7) t1 = Ok (t2, Some 9%nat, None) ∧ is_ready 1 t2 = Ok true ∧
      await_resume 1 t2 = Ok (AValue 7) ∧ owned t2 1 0 ∧ own_inv t2.
Proof.
  destruct (task_await_result 1 0 9 (Returns 7) (call_coroutine 1 KValue false no_tasks)
    (Frame KValue None CInit false RMono false)) as (t1 & E & X).
  - apply own_call; [apply own_inv_empty|reflexivity].
  - reflexivity.
  - reflexivity.
  - reflexivity.
  - reflexivity.
  - exists t1. split; [exact E|]. exact X.
Defined.
