(* ===== verification/Promise.v ===== *)
(** * Promises of coroutine tasks ([coio/task.h], [task_promise])

    [Task] keeps the result of a coroutine as a value of an inductive type.  The
    code keeps it in a union (of a value or a detached flag with an exception
    pointer) whose members it constructs and destroys by hand.  Here the promises
    have their real members, exceptions are reference-counted objects and values
    have a lifetime; the theorem says that the promises implement [Task]'s view and
    leave nothing behind. *)

From S2P Require Import Prelude Task.

(** Exception objects with their reference counts, and the places where an
    object of type [T] is alive. *)
Record pheap := PHeap { ph_exns : gmap Z nat; ph_objects : gset Z }.

(** Copying, and destroying, a [std::exception_ptr] ([0] is null). *)
Definition exn_copy (x : Z) (h : pheap) : res pheap :=
  match ph_exns h !! x with
  | Some n => Ok (PHeap (<[x := S n]> (ph_exns h)) (ph_objects h))
  | None => Fail InvalidFree
  end.
Definition exn_release (x : Z) (h : pheap) : res pheap :=
  if x =? 0 then Ok h
  else match ph_exns h !! x with
       | Some (S (S n)) => Ok (PHeap (<[x := S n]> (ph_exns h)) (ph_objects h))
       | Some (S O) => Ok (PHeap (delete x (ph_exns h)) (ph_objects h))
       | _ => Fail InvalidFree
       end.
(** [p = std::current_exception()], for the exception [x] being handled: the new
    pointer is a reference of its own, the one that [p] held is released. *)
Definition exn_assign (old x : Z) (h : pheap) : res pheap :=
  h ← exn_copy x h; exn_release old h.

(** ** [task_promise<T>] *)

Inductive value_state := mono | value | exception.
#[export] Instance value_state_eq_dec : EqDecision value_state.
Proof. solve_decision. Defined.

(** [tp_union] is the union: the value, the exception pointer, or what the
    frame's memory held before. *)
Record task_promise := TaskPromise { tp_union : Z; tp_state : value_state }.

Definition new_task_promise (memory : Z) : task_promise := TaskPromise memory mono.
(** [place] is the address of the union. *)
Definition task_promise_dtor (place : Z) (p : task_promise) (h : pheap) : res pheap :=
  match tp_state p with
  | value =>
      if decide (place ∈ ph_objects h) then Ok (PHeap (ph_exns h) (ph_objects h ∖ {[place]}))
      else Fail InvalidFree
  | exception => exn_release (tp_union p) h
  | mono => Ok h
  end.
Definition unhandled_exception (x : Z) (p : task_promise) (h : pheap) : res (task_promise * pheap) :=
  h ← exn_assign (tp_union p) x h; Ok (TaskPromise x exception, h).
Definition return_value (place v : Z) (p : task_promise) (h : pheap) : task_promise * pheap :=
  (TaskPromise v value, PHeap (ph_exns h) ({[place]} ∪ ph_objects h)).
Definition result (p : task_promise) : res awaited :=
  if decide (tp_state p = exception) then Ok (AThrown (tp_union p))
  else require (bool_decide (tp_state p = value)) AssertFail ≫= λ _, Ok (AValue (tp_union p)).

(** ** [task_promise<void>] *)

(** The union of the flag and the exception pointer, one word. *)
Definition is_detached : Z := 2 ^ 64 - 1.
Definition new_task_promise_void : Z := 0.
Definition task_promise_void_dtor (p : Z) (h : pheap) : res pheap :=
  if negb (p =? is_detached) then exn_release p h else Ok h.
(** The third result is the exception that is thrown again. *)
Definition unhandled_exception_void (x p : Z) (h : pheap) : res (Z * pheap * option Z) :=
  if p =? is_detached then Ok (p, h, Some x)
  else h ← exn_assign p x h; Ok (x, h, None).
Definition result_void (p : Z) : awaited := if p =? 0 then AVoid else AThrown p.

(** ** [task_promise<T &>] *)

Record task_promise_ref := TaskPromiseRef { tr_value : Z; tr_exception_ptr : Z }.

Definition new_task_promise_ref : task_promise_ref := TaskPromiseRef 0 0.
Definition task_promise_ref_dtor (p : task_promise_ref) (h : pheap) : res pheap :=
  exn_release (tr_exception_ptr p) h.
Definition unhandled_exception_ref (x : Z) (p : task_promise_ref) (h : pheap)
    : res (task_promise_ref * pheap) :=
  h ← exn_assign (tr_exception_ptr p) x h; Ok (TaskPromiseRef (tr_value p) x, h).
Definition return_value_ref (v : Z) (p : task_promise_ref) : task_promise_ref :=
  TaskPromiseRef v (tr_exception_ptr p).
Definition result_ref (p : task_promise_ref) : res awaited :=
  if negb (tr_exception_ptr p =? 0) then Ok (AThrown (tr_exception_ptr p))
  else require (negb (tr_value p =? 0)) NullDeref ≫= λ _, Ok (AValue (tr_value p)).

(** ** A promise of any kind *)

Inductive any_promise :=
  | PValue (place : Z) (p : task_promise)
  | PVoid (p : Z)
  | PRef (p : task_promise_ref).

Definition new_promise (k : kind) (place memory : Z) : any_promise :=
  match k with
  | KValue => PValue place (new_task_promise memory)
  | KVoid => PVoid new_task_promise_void
  | KRef => PRef new_task_promise_ref
  end.
(** What [task<void>::detach] does to the promise. *)
Definition mark_detached (p : any_promise) : any_promise :=
  match p with PVoid _ => PVoid is_detached | _ => p end.
Definition end_promise (e : ending) (p : any_promise) (h : pheap)
    : res (any_promise * pheap * option Z) :=
  match p, e with
  | PValue place p, Returns v => let '(p, h) := return_value place v p h in Ok (PValue place p, h, None)
  | PValue place p, Throws x => '(p, h) ← unhandled_exception x p h; Ok (PValue place p, h, None)
  | PVoid p, Returns _ => Ok (PVoid p, h, None)
  | PVoid p, Throws x => '(p, h, out) ← unhandled_exception_void x p h; Ok (PVoid p, h, out)
  | PRef p, Returns v => Ok (PRef (return_value_ref v p), h, None)
  | PRef p, Throws x => '(p, h) ← unhandled_exception_ref x p h; Ok (PRef p, h, None)
  end.
Definition promise_result (p : any_promise) : res awaited :=
  match p with PValue _ p => result p | PVoid p => Ok (result_void p) | PRef p => result_ref p end.
Definition promise_dtor (p : any_promise) (h : pheap) : res pheap :=
  match p with
  | PValue place p => task_promise_dtor place p h
  | PVoid p => task_promise_void_dtor p h
  | PRef p => task_promise_ref_dtor p h
  end.

(** [Task]'s view of it. *)
Definition view (p : any_promise) : presult :=
  match p with
  | PValue _ (TaskPromise u mono) => RMono
  | PValue _ (TaskPromise u value) => RValue u
  | PValue _ (TaskPromise u exception) => RExn u
  | PVoid p => if (p =? 0) || (p =? is_detached) then RMono else RExn p
  | PRef (TaskPromiseRef v x) => if x =? 0 then (if v =? 0 then RMono else RValue v) else RExn x
  end.

(** ** Exceptions *)

(** An exception that is being handled. *)
Definition in_flight (x : Z) (h : pheap) : Prop :=
  0 < x < is_detached ∧ ∃ n, ph_exns h !! x = Some (S n).

(** The promise's own reference comes and goes. *)
Lemma exn_assign_release x h :
  in_flight x h →
  ∃ h', exn_assign 0 x h = Ok h' ∧ ph_objects h' = ph_objects h ∧ exn_release x h' = Ok h.
Proof.
  intros [Hx [n Hn]]. unfold exn_assign, exn_copy. rewrite Hn. cbn [mbind res_bind].
  eexists. split; [done|]. split; [done|]. unfold exn_release. simpl.
  rewrite (proj2 (Z.eqb_neq x 0)) by lia. rewrite lookup_insert_eq, insert_insert_eq, insert_id by done.
  by destruct h.
Qed.

(** The assignment to a union that holds something else. *)
Lemma garbage_released memory x h place :
  in_flight x h → memory ≠ 0 → ph_exns h !! memory = None →
  end_promise (Throws x) (new_promise KValue place memory) h = Fail InvalidFree.
Proof.
  intros [Hx [n Hn]] Hm Hg. simpl. unfold unhandled_exception, exn_assign, exn_copy. rewrite Hn.
  cbn [mbind res_bind]. unfold exn_release. simpl. rewrite (proj2 (Z.eqb_neq _ _)) by done.
  rewrite lookup_insert_ne; [by rewrite Hg|]. intros ->. congruence.
Qed.

(** ** Refinement *)

(** What a body may do, for a promise in memory that held [memory], which is no
    pointer to an exception that is alive. *)
Definition ending_ok (k : kind) (place memory : Z) (e : ending) (h : pheap) : Prop :=
  match e with
  | Returns v => (k = KRef → v ≠ 0) ∧ (k = KValue → place ∉ ph_objects h)
  | Throws x => in_flight x h ∧ (k = KValue → memory = 0 ∨ ph_exns h !! memory = None)
  end.

Definition begin_promise (k : kind) (place memory : Z) (detached : bool) : any_promise :=
  let p := new_promise k place memory in if detached then mark_detached p else p.

(** The promise alone: how it ends, what it then says, and that its destructor
    puts everything back. *)
Lemma end_promise_spec k place memory detached e h :
  (detached = true → k = KVoid) → ending_ok k place memory e h →
  (k = KValue → memory = 0 ∨ ∃ v, e = Returns v) →
  ∃ p h' out, end_promise e (begin_promise k place memory detached) h = Ok (p, h', out) ∧
    promise_dtor p h' = Ok h ∧
    view p = match k, e with
             | KVoid, Returns _ => RMono
             | KVoid, Throws x => if detached then RMono else RExn x
             | _, Returns v => RValue v
             | _, Throws x => RExn x
             end ∧
    out = (if detached then match e with Throws x => Some x | _ => None end else None) ∧
    (detached = false → promise_result p = Ok (match k, e with
       | KVoid, Returns _ => AVoid
       | _, Returns v => AValue v
       | _, Throws x => AThrown x
       end)).
Proof.
  intros Hd He Hz. unfold begin_promise. destruct detached; [rewrite (Hd eq_refl)|].
  { destruct e as [v|x]; simpl; (eexists _, _, _; split; [done|]; done). }
  destruct e as [v|x]; simpl in He.
  - destruct He as [Hv Hp]. destruct k; (eexists _, _, _; split; [reflexivity|]).
    + done.
    + specialize (Hp eq_refl). destruct h as [xs os]. simpl in Hp. split_and!; try done.
      cbn [promise_dtor]. unfold task_promise_dtor. cbn [tp_state ph_objects ph_exns].
      rewrite decide_True by (apply elem_of_union; left; by apply elem_of_singleton).
      do 2 f_equal. by rewrite difference_union_distr_l_L, difference_diag_L, (left_id_L ∅ (∪)),
        difference_disjoint_L by (by apply disjoint_singleton_r).
    + simpl. rewrite (proj2 (Z.eqb_neq v 0)) by auto. split_and!; try done.
      unfold result_ref. simpl. by rewrite (proj2 (Z.eqb_neq v 0)) by auto.
  - assert (k = KValue → memory = 0) as Hm by (intros Hk; destruct (Hz Hk) as [|[? ?]]; done).
    destruct He as [Hx _]. destruct (exn_assign_release x h Hx) as (h' & E & Ho & Er).
    destruct Hx as [Hx _]. assert ((x =? 0) = false) as E0 by (apply Z.eqb_neq; lia).
    assert ((x =? is_detached) = false) as Ed by (apply Z.eqb_neq; lia).
    destruct k; cbn [new_promise end_promise].
    + unfold unhandled_exception_void, new_task_promise_void. cbn [Z.eqb is_detached]. simpl (0 =? _).
      cbv iota. rewrite E. eexists _, _, _. split; [done|].
      simpl. unfold task_promise_void_dtor, result_void. rewrite Ed, E0. by split_and!.
    + unfold unhandled_exception. cbn [tp_union new_task_promise]. rewrite (Hm eq_refl), E. eexists _, _, _. split; [done|].
      by split_and!.
    + unfold unhandled_exception_ref. cbn [tr_exception_ptr new_task_promise_ref]. rewrite E. eexists _, _, _. split; [done|].
      simpl. unfold result_ref. simpl. rewrite E0. by split_and!.
Qed.


(** ** Witness *)

Definition demo_pheap : pheap := PHeap {[ 77 := 1%nat ]} ∅.
Definition demo_task : tasks :=
  call_coroutine 0 KValue true (Tasks ∅ 5 ∅).

