(* ===== verification/Socket.v ===== *)
(** * Stream sockets as the awaiters use them

    [recv], [send] and [accept] belong to the operating system: [Socket] is
    the interface the awaiters are written against.  [SocketLaws] are the laws of
    a reliable byte stream on which every call returns (recv(2), send(2), tcp(7)):
    the socket is non-blocking, or its peer goes on sending and reading until it
    closes, and [send] does not raise [SIGPIPE].  [script] is an executable
    instance in which the kernel's answers are a prepared list, [blocking] one of a
    socket as [::accept] makes it. *)

From S2P Require Import Prelude.

(** Result of [recv]: some bytes ([RcvData []] is a return value of 0, the
    end of the stream) or -1 with an error number; a call on a blocking socket need
    not return at all. *)
Inductive recv_ret := RcvData (bs : list Z) | RcvErr (errno : Z) | RcvBlocked.
(** Result of [send]: the number of bytes taken, or -1 with an error number; or the
    call does not return, because it blocks or because the peer has closed and
    [SIGPIPE], which the program does not ignore, ends the process. *)
Inductive send_ret := SndOk (n : Z) | SndErr (errno : Z) | SndBlocked | SndKilled.

(** [stream s] is what the peer has sent or will send before closing, [sent s]
    what the kernel has taken from us.  [pending s] bounds how often the next
    calls can be interrupted or deliver data. *)
Class Socket (S : Type) := {
  recv : S → Z → S * recv_ret;
  send : S → list Z → S * send_ret;
  stream : S → list Z;
  sent : S → list Z;
  pending : S → nat;
}.

Class SocketLaws (S : Type) `{!Socket S} : Prop := {
  recv_data s n s' b bs :
    recv s n = (s', RcvData (b :: bs)) →
    Z.of_nat (length (b :: bs)) <= n ∧ stream s = (b :: bs) ++ stream s' ∧
    sent s' = sent s ∧ (pending s' < pending s)%nat;
  recv_eof s n s' :
    0 < n → recv s n = (s', RcvData []) → stream s = [] ∧ stream s' = [] ∧ sent s' = sent s;
  recv_err s n s' e :
    recv s n = (s', RcvErr e) → stream s' = stream s ∧ sent s' = sent s ∧
    (pending s' ≤ pending s)%nat ∧ (e = EINTR → (pending s' < pending s)%nat);
  send_ok s bs s' n :
    send s bs = (s', SndOk n) →
    0 <= n <= Z.of_nat (length bs) ∧ sent s' = sent s ++ take (Z.to_nat n) bs ∧
    stream s' = stream s ∧ (pending s' ≤ pending s)%nat;
  send_err s bs s' e :
    send s bs = (s', SndErr e) → sent s' = sent s ∧ stream s' = stream s ∧
    (pending s' ≤ pending s)%nat ∧ (e = EINTR → (pending s' < pending s)%nat);
  recv_returns s n s' : recv s n ≠ (s', RcvBlocked);
  send_returns s bs s' : send s bs ≠ (s', SndBlocked) ∧ send s bs ≠ (s', SndKilled);
}.

(** ** Scripted sockets *)

Inductive chunk :=
  | CData (b : Z) (bs : list Z)      (* these bytes have arrived *)
  | CErr (errno : Z)                 (* the next call fails *)
  | CEof.                            (* the peer has closed *)

Record script := Script {
  sc_in : list chunk;
  sc_out : list send_ret;            (* answers to send, capped by the length; none that does not return *)
  sc_sent : list Z;
}.

Definition chunk_size (c : chunk) : nat :=
  match c with CData _ bs => S (length bs) | CErr _ => 1 | CEof => 1 end.

Fixpoint chunk_stream (cs : list chunk) : list Z :=
  match cs with
  | [] => []
  | CData b bs :: cs => b :: bs ++ chunk_stream cs
  | CErr _ :: cs => chunk_stream cs
  | CEof :: _ => []
  end.

Definition script_recv (s : script) (n : Z) : script * recv_ret :=
  let with_in i := Script i (sc_out s) (sc_sent s) in
  match sc_in s with
  | [] => (s, RcvErr EAGAIN)
  | CErr e :: cs => (with_in cs, RcvErr e)
  | CEof :: cs => (s, RcvData [])
  | CData b bs :: cs =>
      if n <=? 0 then (s, RcvData [])
      else match drop (Z.to_nat n) (b :: bs) with
           | [] => (with_in cs, RcvData (b :: bs))
           | b' :: bs' => (with_in (CData b' bs' :: cs), RcvData (take (Z.to_nat n) (b :: bs)))
           end
  end.

Definition script_send (s : script) (bs : list Z) : script * send_ret :=
  match sc_out s with
  | [] => (s, SndErr EAGAIN)
  | SndErr e :: os => (Script (sc_in s) os (sc_sent s), SndErr e)
  | SndOk n :: os =>
      let n := Z.max 0 (Z.min n (Z.of_nat (length bs))) in
      (Script (sc_in s) os (sc_sent s ++ take (Z.to_nat n) bs), SndOk n)
  | _ :: os => (s, SndErr EAGAIN)
  end.

#[export] Instance script_socket : Socket script := {
  recv := script_recv;
  send := script_send;
  stream s := chunk_stream (sc_in s);
  sent := sc_sent;
  pending s := (sum_list_with chunk_size (sc_in s) + length (sc_out s))%nat;
}.

#[export] Instance script_socket_laws : SocketLaws script.
Proof.
  split.
  - intros s n s' b bs. cbn [recv send stream sent pending script_socket]. unfold script_recv.
    destruct (sc_in s) as [|[b0 bs0|e|] cs] eqn:Ein; try done.
    destruct (n <=? 0) eqn:En; [done|]. bool_prop.
    destruct (drop _ _) as [|b' bs'] eqn:Ed.
    + intros [= <- <- <-]. simpl. apply (f_equal length) in Ed. rewrite length_drop in Ed. simpl in Ed.
      split_and!; [lia|done|done|lia].
    + intros E. assert (b :: bs = take (Z.to_nat n) (b0 :: bs0)) as -> by congruence.
      assert (s' = Script (CData b' bs' :: cs) (sc_out s) (sc_sent s)) as -> by congruence.
      simpl sc_in. simpl sc_sent. simpl sc_out. cbn [chunk_stream sum_list_with chunk_size].
      apply (f_equal length) in Ed as Hl. rewrite length_drop in Hl. simpl in Hl.
      split_and!; [rewrite length_take; simpl; lia| |done|lia].
      change (b0 :: bs0 ++ chunk_stream cs) with ((b0 :: bs0) ++ chunk_stream cs).
      change (b' :: bs' ++ chunk_stream cs) with ((b' :: bs') ++ chunk_stream cs).
      by rewrite <- Ed, app_assoc, take_drop.
  - intros s n s' Hn. cbn [recv send stream sent pending script_socket]. unfold script_recv.
    destruct (sc_in s) as [|[b0 bs0|e|] cs] eqn:Ein; try done.
    + destruct (n <=? 0) eqn:En; bool_prop; [lia|].
      destruct (drop _ _) eqn:Ed; [done|]. intros [= <- Ht].
      apply (f_equal length) in Ht. rewrite length_take in Ht. simpl in Ht. lia.
    + intros [= <-]. by rewrite Ein.
  - intros s n s' e. cbn [recv send stream sent pending script_socket]. unfold script_recv.
    destruct (sc_in s) as [|[b0 bs0|e0|] cs] eqn:Ein; try done.
    + intros [= <- <-]. rewrite Ein. by split_and!.
    + destruct (n <=? 0); [done|]. by destruct (drop _ _).
    + intros [= <- <-]. simpl. split_and!; [done..|lia|lia].
  - intros s bs s' n. simpl. unfold script_send.
    destruct (sc_out s) as [|[k|e| |] os] eqn:Eo; try done. intros [= <- <-]. simpl.
    split_and!; [lia|lia|done|done|lia].
  - intros s bs s' e. simpl. unfold script_send.
    destruct (sc_out s) as [|[k|e0| |] os] eqn:Eo; try done; intros [= <- <-]; simpl.
    + rewrite Eo. by split_and!.
    + split_and!; [done..|lia|lia].
    + rewrite Eo. by split_and!.
    + rewrite Eo. by split_and!.
  - intros s n s'. simpl. unfold script_recv. destruct (sc_in s) as [|[b bs|e|] cs]; try done.
    destruct (n <=? 0); [done|]. by destruct (drop _ _).
  - intros s bs s'. simpl. unfold script_send. by destruct (sc_out s) as [|[k|e| |] os].
Qed.

(** ** Blocking sockets *)

(** A socket without [O_NONBLOCK]: where a non-blocking one answers [EAGAIN] the call
    waits; and [send] to a peer that has closed ([EPIPE]) raises [SIGPIPE]. *)
Record blocking := Blocking { bl_script : script }.

Definition blocking_recv (s : blocking) (n : Z) : blocking * recv_ret :=
  match script_recv (bl_script s) n with
  | (s, RcvErr e) => (Blocking s, if e =? EAGAIN then RcvBlocked else RcvErr e)
  | (s, r) => (Blocking s, r)
  end.
Definition blocking_send (s : blocking) (bs : list Z) : blocking * send_ret :=
  match script_send (bl_script s) bs with
  | (s, SndErr e) =>
      (Blocking s, if e =? EAGAIN then SndBlocked else if e =? EPIPE then SndKilled else SndErr e)
  | (s, r) => (Blocking s, r)
  end.

#[export] Instance blocking_socket : Socket blocking := {
  recv := blocking_recv;
  send := blocking_send;
  stream s := stream (bl_script s);
  sent s := sent (bl_script s);
  pending s := pending (bl_script s);
}.
