(* ===== verification/Zio.v ===== *)
(** * Blocking socket helpers ([common/zio.h])

    Thin wrappers around system calls with retry loops.  The kernel's side of a
    connection is the interface of [Socket]; descriptors, flags, options and
    listening sockets are the class [Kernel]. *)

From S2P Require Import Prelude Socket.

(** ** Reading and writing *)

Section rw.
Context {S : Type} `{!Socket S}.

(** [zio::write] on the bytes [bs]: the number taken, -2 when the call would
    block, -1 on an error. *)
Fixpoint zio_write (fuel : nat) (bs : list Z) (s : S) : res (S * Z) :=
  match fuel with
  | O => Fail OutOfFuel
  | Datatypes.S fuel =>
      match send s bs with
      | (s, SndErr e) =>
          if e =? EINTR then zio_write fuel bs s
          else if e =? EAGAIN then Ok (s, -2)
          else Ok (s, -1)
      | (s, SndOk n) => Ok (s, n)
      | (_, SndBlocked) => Fail Blocked
      | (_, SndKilled) => Fail Killed
      end
  end.

(** [zio::read] of at most [count] bytes. *)
Fixpoint zio_read (fuel : nat) (count : Z) (s : S) : res (S * Z * list Z) :=
  match fuel with
  | O => Fail OutOfFuel
  | Datatypes.S fuel =>
      match recv s count with
      | (s, RcvErr e) =>
          if e =? EINTR then zio_read fuel count s
          else if e =? EAGAIN then Ok (s, -2, [])
          else Ok (s, -1, [])
      | (s, RcvData bs) => Ok (s, Z.of_nat (length bs), bs)
      | (_, RcvBlocked) => Fail Blocked
      end
  end.

(** [zio::writev]: [pos] bytes of [bs] are written so far. *)
Fixpoint zio_writev_loop (fuel : nat) (bs : list Z) (pos : Z) (s : S) : res (S * Z) :=
  match fuel with
  | O => Fail OutOfFuel
  | Datatypes.S fuel =>
      if negb (pos =? Z.of_nat (length bs)) then
        '(s, rc) ← zio_write fuel (drop (Z.to_nat pos) bs) s;
        if 0 <? rc then zio_writev_loop fuel bs (pos + rc) s
        else if rc =? -1 then Ok (s, pos)
        else zio_writev_loop fuel bs pos s
      else Ok (s, pos)
  end.
Definition zio_writev (fuel : nat) (bs : list Z) (s : S) : res (S * Z) :=
  '(s, pos) ← zio_writev_loop fuel bs 0 s;
  Ok (s, if pos =? 0 then -1 else pos).

(** [zio::readv] into the buffer [buf]. *)
Fixpoint zio_readv_loop (fuel : nat) (buf : list Z) (pos : Z) (s : S)
    : res (S * list Z * Z) :=
  match fuel with
  | O => Fail OutOfFuel
  | Datatypes.S fuel =>
      let count := Z.of_nat (length buf) in
      if negb (pos =? count) then
        '(s, rc, bs) ← zio_read fuel (count - pos) s;
        buf ← (if 0 <? rc then write_at buf pos bs else Ok buf);
        if 0 <? rc then zio_readv_loop fuel buf (pos + rc) s
        else if rc =? 0 then Ok (s, buf, if 0 <? pos then pos else 0)
        else if rc =? -1 then Ok (s, buf, if pos =? 0 then -1 else pos)
        else zio_readv_loop fuel buf pos s
      else Ok (s, buf, if pos =? 0 then -1 else pos)
  end.
Definition zio_readv (fuel : nat) (buf : list Z) (s : S) : res (S * list Z * Z) :=
  zio_readv_loop fuel buf 0 s.
End rw.

(** ** Descriptors *)

Definition O_NONBLOCK : Z := 2048.

Record sockaddr_in := SockaddrIn { sin_family : Z; sin_addr : Z; sin_port : Z }.
Definition AF_INET : Z := 2.

(** Byte swaps of a little-endian host. *)
Definition ntohl (x : Z) : Z := be_combine 0 (rev (be_split 4 x)).
Definition ntohs (x : Z) : Z := be_combine 0 (rev (be_split 2 x)).
Definition htonl : Z → Z := ntohl.
Definition htons : Z → Z := ntohs.

Inductive sockopt :=
  | TCP_NODELAY (v : Z) | SO_REUSEADDR (v : Z) | SO_SNDBUF (v : Z) | SO_RCVBUF (v : Z)
  | SO_RCVTIMEO (sec usec : Z) | SO_SNDTIMEO (sec usec : Z).

(** The system calls on descriptors; results are as in C (-1 on error), [accept]
    gives a descriptor or an error number. *)
Class Kernel (K : Type) := {
  k_socket : K → K * Z;
  k_close : K → Z → K * Z;
  k_getfl : K → Z → Z;
  k_setfl : K → Z → Z → K * Z;
  k_setsockopt : K → Z → sockopt → K * Z;
  k_bind : K → Z → sockaddr_in → K * Z;
  k_listen : K → Z → Z → K * Z;
  k_accept : K → Z → K * (Z + Z);
  k_open : K → gset Z;
}.

Section descriptors.
Context {K : Type} `{!Kernel K}.
Implicit Type k : K.

(** [setoption]: the level, name and size of an option are in its constructor. *)
Definition setoption (fd : Z) (opt : sockopt) k : K * Z := k_setsockopt k fd opt.

Definition setnodelay (fd : Z) (nodelay : bool) k : K * Z :=
  setoption fd (TCP_NODELAY (if nodelay then 1 else 0)) k.
Definition setreuseaddr (fd : Z) (reuse : bool) k : K * Z :=
  setoption fd (SO_REUSEADDR (if reuse then 1 else 0)) k.

Definition setiobuf (fd send_size recv_size : Z) k : K * Z :=
  let '(k, rc) := if send_size =? 0 then (k, 0) else setoption fd (SO_SNDBUF send_size) k in
  if rc <? 0 then (k, -1)
  else
    let '(k, rc) := if recv_size =? 0 then (k, 0) else setoption fd (SO_RCVBUF recv_size) k in
    if rc <? 0 then (k, -1) else (k, 0).

(** [{tmout_ms / 1000, tmout_ms % 1000 * 1000}] *)
Definition timeval_of (tmout_ms : Z) : Z * Z :=
  (Z.quot tmout_ms 1000, Z.rem tmout_ms 1000 * 1000).
Definition setrecvtimeo (fd tmout_ms : Z) k : K * Z :=
  let '(sec, usec) := timeval_of tmout_ms in setoption fd (SO_RCVTIMEO sec usec) k.
Definition setsendtimeo (fd tmout_ms : Z) k : K * Z :=
  let '(sec, usec) := timeval_of tmout_ms in setoption fd (SO_SNDTIMEO sec usec) k.

(** [opts |= b ? (opts & ~O_NONBLOCK) : (opts | O_NONBLOCK)] *)
Definition blocking_flags (opts : Z) (b : bool) : Z :=
  opts ||| (if b then opts &&& Z.lnot O_NONBLOCK else opts ||| O_NONBLOCK).

Definition setblocking (fd : Z) (b : bool) k : K * Z :=
  let opts := k_getfl k fd in
  if opts <? 0 then (k, -1)
  else
    let '(k, rc) := k_setfl k fd (blocking_flags opts b) in
    if rc <? 0 then (k, -1) else (k, 0).

Definition zio_close (fd : Z) k : K * Z := if fd =? -1 then (k, 0) else k_close k fd.

(** [build_addr(addr, int ip, port)] and, through [inet_addr], the overload for
    a dotted string. *)
Definition build_addr (ip port : Z) : sockaddr_in := SockaddrIn AF_INET (htonl ip) (htons port).
Definition build_addr_str (inet : Z) (port : Z) : sockaddr_in := build_addr (ntohl inet) port.

(** [zio::listen]; [inet] is [inet_addr(ip)]. *)
Definition zio_listen (fd inet port backlog : Z) k : K * Z :=
  let '(k, _) := setnodelay fd true k in
  let '(k, _) := setreuseaddr fd true k in
  let '(k, rc) := k_bind k fd (build_addr_str inet port) in
  if rc <? 0 then (k, -1) else k_listen k fd backlog.

Definition listen_on (port : Z) k : K * Z :=
  let '(k, fd) := k_socket k in
  let '(k, _) := setreuseaddr fd true k in
  let '(k, rc) := zio_listen fd 0 port 1024 k in
  if rc <? 0 then let '(k, _) := zio_close fd k in (k, -1) else (k, fd).

(** [zio::accept] without the address string. *)
Fixpoint zio_accept (fuel : nat) (serv_fd : Z) k : res (K * Z) :=
  match fuel with
  | O => Fail OutOfFuel
  | Datatypes.S fuel =>
      match k_accept k serv_fd with
      | (k, inl fd) => Ok (k, fd)
      | (k, inr e) =>
          if (e =? EINTR) || (e =? ECONNABORTED) then zio_accept fuel serv_fd k else Ok (k, -1)
      end
  end.
End descriptors.
