(* ===== verification/Awaiters.v ===== *)
(** * Awaiters and the loop ([coio/io_awaiter.h], [coio/nio_awaiter.cpp])

    How an awaiter registers with the loop, how it is completed and what its
    destructor takes back.  An awaiter lives in a coroutine frame: once the
    coroutine goes on, the loop must hold no pointer to it.  The data paths of the
    handlers are in [NioAwaiter]; here only registrations and timers matter. *)

From S2P Require Import Prelude StdHeap IoLoop IoLoopFacts IoLoopProps Timers Socket.

(** ** [io_awaiter] *)

(** [_result] and [_handle] ([None]: no coroutine). *)
Record io_awaiter := IoAwaiter { ia_result : Z; ia_handle : option nat }.
Definition new_io_awaiter : io_awaiter := IoAwaiter (-1) None.
Definition await_ready : bool := false.
Definition await_suspend (current : nat) (a : io_awaiter) : io_awaiter :=
  IoAwaiter (ia_result a) (Some current).
Definition await_resume (a : io_awaiter) : Z := ia_result a.
(** [_handle.resume()] at the end of a handler that has set [_result]. *)
Definition complete (result : Z) (a : io_awaiter) : res (io_awaiter * nat) :=
  match ia_handle a with
  | None => Fail NullDeref
  | Some c => Ok (IoAwaiter (i32 result) (ia_handle a), c)
  end.

(** [co_await] of an awaiter: the coroutine that is resumed is the one that
    waits, and it gets the handler's result; a handler that runs before the
    [co_await] resumes a null handle. *)
Lemma co_await_completes current result a :
  - 2 ^ 31 <= result < 2 ^ 31 →
  ∃ a', complete result (await_suspend current a) = Ok (a', current) ∧ await_resume a' = result.
Proof. intros. eexists. split; [done|]. simpl. by apply i32_small. Qed.
Lemma complete_before_await result : complete result new_io_awaiter = Fail NullDeref.
Proof. done. Qed.

Section awaiters.
Context {K : Type} `{!Epoll K} `{!StdHeap compare_timer}.
Variable ndebug : bool.
Variable clock : nat → Z.
Variable thr : Z.
Implicit Type l : io_loop K.

(** The members the awaiters have in common: [timeout::_timer_id],
    [_is_timeout], [_sockfd] and [io_awaiter::_result]. *)
Record awaiter := Awaiter {
  aw_timer_id : Z;
  aw_is_timeout : Z;
  aw_sockfd : Z;
  aw_result : Z;
}.

(** [timeout(double)]: [after] is the delay in nanoseconds, [None] when
    [num_sec <= 0]. *)
Definition timeout_ctor (after : option Z) (self : cb) l : res (io_loop K * Z) :=
  match after with
  | Some ns => delay_call_after clock ns self l
  | None => Ok (l, -1)
  end.
(** [timeout(duration)]: the delay [d] in nanoseconds. *)
Definition timeout_duration_ctor (d : Z) (self : cb) l : res (io_loop K * Z) :=
  if 0 <? d then
    let '(l, t) := now clock l in
    require (long_ok (t + d)) SignedOverflow ≫= λ _, delay_call (t + d) self l
  else Ok (l, -1).
(** [timeout::on_time_event], up to the resumption *)
Definition timeout_time_event (a : awaiter) : awaiter :=
  Awaiter 0 (aw_is_timeout a) (aw_sockfd a) 0.
(** [~timeout] *)
Definition timeout_dtor (a : awaiter) l : res (io_loop K) :=
  if 0 <? aw_timer_id a then cancel_delay ndebug thr (aw_timer_id a) l else Ok l.

(** [recv_lazy] and [recv_request] *)
Definition recv_ctor (after : option Z) (self : cb) (sockfd : Z) l : res (io_loop K * awaiter) :=
  '(l, id) ← timeout_ctor after self l;
  l ← wait_read sockfd (Some self) l;
  Ok (l, Awaiter id 0 sockfd (-1)).
Definition recv_time_event (a : awaiter) l : res (io_loop K * awaiter) :=
  l ← cancel_read ndebug thr (aw_sockfd a) l;
  Ok (l, Awaiter (aw_timer_id a) 1 (aw_sockfd a) (aw_result a)).
Definition recv_request_time_event (a : awaiter) l : res (io_loop K * awaiter) :=
  let a := Awaiter (aw_timer_id a) 1 (aw_sockfd a) (aw_result a) in
  l ← cancel_read ndebug thr (aw_sockfd a) l;
  Ok (l, a).

(** [send_lazy]: the base constructor and then the body start a timer. *)
Definition send_ctor (after : option Z) (self : cb) (sockfd : Z) l : res (io_loop K * awaiter) :=
  '(l, id) ← timeout_ctor after self l;
  l ← wait_write sockfd (Some self) l;
  '(l, id) ← (match after with
              | Some ns => delay_call_after clock ns self l
              | None => Ok (l, id)
              end);
  Ok (l, Awaiter id 0 sockfd (-1)).
Definition send_time_event (a : awaiter) l : res (io_loop K * awaiter) :=
  l ← cancel_write ndebug thr (aw_sockfd a) l;
  Ok (l, Awaiter 0 1 (aw_sockfd a) 0).

Definition accept_ctor (self : cb) (serv_fd : Z) l : res (io_loop K) :=
  wait_read serv_fd (Some self) l.

(** [connect]: [rets] are the results of the successive [::connect] calls, 0 or
    an error number.  What the constructor does to the socket before (building the
    address, [setblocking]) does not concern the loop. *)
Fixpoint connect_loop (rets : list Z) (self : cb) (sockfd : Z) l : res (io_loop K) :=
  match rets with
  | [] => Fail OutOfFuel
  | e :: rets =>
      if e =? 0 then Ok l
      else if e =? EINTR then connect_loop rets self sockfd l
      else if e =? EINPROGRESS then wait_write sockfd (Some self) l
      else Ok l
  end.
Definition connect_ctor (after : option Z) (rets : list Z) (self : cb) (sockfd : Z) l
    : res (io_loop K * awaiter) :=
  '(l, id) ← timeout_ctor after self l;
  l ← connect_loop rets self sockfd l;
  Ok (l, Awaiter id 0 sockfd (-1)).
Definition connect_time_event (a : awaiter) l : res (io_loop K * awaiter) :=
  l ← cancel_write ndebug thr (aw_sockfd a) l;
  Ok (l, Awaiter 0 1 (aw_sockfd a) (aw_result a)).
(** [connect::on_file_event]: [so_error] is what [getsockopt] stores in [e]. *)
Definition connect_file_event (so_error event : Z) (a : awaiter) l : res (io_loop K * awaiter) :=
  if event <=? 0 then
    l ← cancel_write ndebug thr (aw_sockfd a) l; Ok (l, a)
  else if event =? EM_WRITE then
    Ok (l, if so_error =? 0
           then Awaiter (aw_timer_id a) (aw_is_timeout a) (aw_sockfd a) 0 else a)
  else Ok (l, a).

(** What the loop does to the table before it calls a ready handler. *)
Definition clear_func (d : dir) (fd : Z) l : io_loop K :=
  fds_put fd (set_func d None (ent l fd)) l.

(** ** What other code on the loop thread does meanwhile *)

Inductive loop_op :=
  | OWait (d : dir) (fd : Z) (f : cb)
  | OCancel (fd ev : Z)
  | ODelay (when : Z) (f : cb)
  | OCancelDelay (id : Z).

Definition loop_step (op : loop_op) l : res (io_loop K) :=
  match op with
  | OWait d fd f => fst <$> wait_fd (bit d) fd (Some f) l
  | OCancel fd ev => fst <$> cancel_ev ndebug thr fd ev l
  | ODelay when f => fst <$> delay_call when f l
  | OCancelDelay id => cancel_delay ndebug thr id l
  end.

Fixpoint loop_run (ops : list loop_op) l : res (io_loop K) :=
  match ops with
  | [] => Ok l
  | op :: ops => l ← loop_step op l; loop_run ops l
  end.

Definition other_op (self : cb) (op : loop_op) : Prop :=
  match op with
  | OWait _ fd f => 0 <= fd ∧ f ≠ self
  | OCancel fd ev => 0 <= fd ∧ cancel_mask ev
  | ODelay _ f => f ≠ self
  | OCancelDelay _ => True
  end.

(** ** References the loop holds to an awaiter *)

Record sys_wf l : Prop := {
  sw_table : table_wf l;
  sw_timers : timer_inv l;
  sw_thread : is_local_thread thr l = true;
}.

(** Every pointer to [self] is the registration ([fd], [d]) or the timer [id]. *)
Definition awaiting (self : cb) (fd : Z) (d : dir) (id : Z) l : Prop :=
  (∀ fd' d', sub l fd' d' = Some self → fd' = fd ∧ d' = d) ∧
  (∀ t, t ∈ _timer l → _func t = self → _id t = id).

Definition no_refs (self : cb) l : Prop :=
  (∀ fd d, sub l fd d ≠ Some self) ∧ (∀ t, t ∈ _timer l → _func t ≠ self).

(** Updates of the timer fields do not touch the table. *)
Lemma set_timers_wf g ts l :
  sys_wf l → timer_inv (set_timers g ts l) → sys_wf (set_timers g ts l).
Proof. intros [[Ht Hc] _ Hs] Hi. by split. Qed.

Lemma set_ticks_wf n l : sys_wf l → sys_wf (set_ticks n l).
Proof. intros [[Ht Hc] [] Hs]. by split. Qed.

Lemma rest_timer l l' : rest l' = rest l → _timer l' = _timer l ∧ _g_timer_id l' = _g_timer_id l.
Proof. unfold rest. intros [=]. done. Qed.

Lemma table_change_wf l l' :
  sys_wf l → table_wf l' → rest l' = rest l → sys_wf l'.
Proof.
  intros [_ Hi Hs] Ht Hr. destruct (rest_timer _ _ Hr) as [E1 E2]. split; [done| |].
  - by eapply timer_inv_same.
  - by rewrite (is_local_rest thr l).
Qed.

(** *** The four kinds of operations *)

Lemma wait_step d fd f l :
  sys_wf l → 0 <= fd →
  ∃ l' rc, wait_fd (bit d) fd (Some f) l = Ok (l', rc) ∧ sys_wf l' ∧ rest l' = rest l ∧
    ∀ fd' d', sub l' fd' d' = subs_set fd d (Some f) (sub l) fd' d'.
Proof.
  intros Hwf Hfd. destruct (wait_fd_spec d fd (Some f) l Hfd (sw_table _ Hwf))
    as (l1 & rc & -> & Hent & _ & Hrest & Hcap & _).
  exists l1, rc. split_and!; [done| |done|by apply wait_fd_subs].
  eapply table_change_wf; [exact Hwf| |done]. eapply wait_fd_wf; eauto. apply Hwf.
Qed.

Lemma cancel_step fd ev l :
  sys_wf l → 0 <= fd → cancel_mask ev →
  ∃ l' rc, cancel_ev ndebug thr fd ev l = Ok (l', rc) ∧ sys_wf l' ∧ rest l' = rest l ∧
    ∀ fd' d', sub l' fd' d' = subs_drop fd ev (sub l) fd' d'.
Proof.
  intros Hwf Hfd Hev.
  destruct (cancel_ev_spec ndebug thr fd ev l Hfd (sw_table _ Hwf) Hev (sw_thread _ Hwf))
    as (l1 & rc & -> & Hent & _ & Hrest & Hcap & _).
  exists l1, rc. split_and!; [done| |done|by apply cancel_ev_subs; [|apply Hwf|..]].
  eapply table_change_wf; [exact Hwf| |done]. eapply cancel_ev_wf; eauto. apply Hwf.
Qed.

Lemma delay_step when f l :
  sys_wf l → _g_timer_id l < 2 ^ 31 - 1 →
  ∃ l', delay_call when f l = Ok (l', _g_timer_id l + 1) ∧ sys_wf l' ∧
    (∀ fd d, sub l' fd d = sub l fd d) ∧ _g_timer_id l' = _g_timer_id l + 1 ∧
    _timer l' ≡ₚ (EsTime (_g_timer_id l + 1) when f :: _timer l).
Proof.
  intros Hwf Hg. destruct (delay_call_ok when f l (sw_timers _ Hwf) Hg) as (ts & -> & Hp & _ & Hi).
  eexists. split_and!; [done|by apply set_timers_wf|done..].
Qed.

Lemma cancel_delay_step id l :
  sys_wf l →
  ∃ l', cancel_delay ndebug thr id l = Ok l' ∧ sys_wf l' ∧
    (∀ fd d, sub l' fd d = sub l fd d) ∧ _g_timer_id l' = _g_timer_id l ∧
    _timer l' ≡ₚ filter (λ t, _id t ≠ id) (_timer l).
Proof.
  intros Hwf. destruct (cancel_delay_ok ndebug thr id l (sw_timers _ Hwf) (sw_thread _ Hwf))
    as (ts & -> & Hp & _ & Hi).
  eexists. split_and!; [done|by apply set_timers_wf|done..].
Qed.

(** *** Frame property *)

Lemma loop_step_awaiting self fd d id op l :
  sys_wf l → awaiting self fd d id l → other_op self op → _g_timer_id l < 2 ^ 31 - 1 →
  ∃ l', loop_step op l = Ok l' ∧ sys_wf l' ∧ awaiting self fd d id l' ∧
    _g_timer_id l' <= _g_timer_id l + 1.
Proof.
  intros Hwf [A1 A2] Hop Hg. destruct op as [d0 fd0 f|fd0 ev|when f|id0]; simpl in *.
  - destruct Hop as [Hfd Hf]. destruct (wait_step d0 fd0 f l Hwf Hfd) as (l1 & rc & -> & W & R & Hs).
    destruct (rest_timer _ _ R) as [E1 E2]. exists l1. split_and!; [done|done| |lia]. split.
    + intros fd' d'. rewrite Hs. unfold subs_set. case_decide; [congruence|apply A1].
    + by rewrite E1.
  - destruct Hop as [Hfd Hev]. destruct (cancel_step fd0 ev l Hwf Hfd Hev) as (l1 & rc & -> & W & R & Hs).
    destruct (rest_timer _ _ R) as [E1 E2]. exists l1. split_and!; [done|done| |lia]. split.
    + intros fd' d'. rewrite Hs. unfold subs_drop. repeat case_match; [done|apply A1..].
    + by rewrite E1.
  - destruct (delay_step when f l Hwf Hg) as (l1 & -> & W & Hs & Hg' & Hp).
    exists l1. split_and!; [done|done| |lia]. split.
    + intros fd' d'. rewrite Hs. apply A1.
    + intros t. rewrite Hp, elem_of_cons. intros [->|Ht]; [done|by apply A2].
  - destruct (cancel_delay_step id0 l Hwf) as (l1 & -> & W & Hs & Hg' & Hp).
    exists l1. split_and!; [done|done| |lia]. split.
    + intros fd' d'. rewrite Hs. apply A1.
    + intros t. rewrite Hp, list_elem_of_filter. intros [_ Ht]. by apply A2.
Qed.

Lemma loop_run_awaiting self fd d id ops l :
  sys_wf l → awaiting self fd d id l → Forall (other_op self) ops →
  _g_timer_id l + Z.of_nat (length ops) < 2 ^ 31 - 1 →
  ∃ l', loop_run ops l = Ok l' ∧ sys_wf l' ∧ awaiting self fd d id l' ∧
    _g_timer_id l' <= _g_timer_id l + Z.of_nat (length ops).
Proof.
  intros Hwf Ha Hops. revert l Hwf Ha. induction Hops as [|op ops Hop _ IH]; intros l Hwf Ha Hg.
  { exists l. split_and!; [done..|simpl; lia]. }
  cbn [length] in *.
  destruct (loop_step_awaiting self fd d id op l) as (l1 & E & W & A & G); [done..|lia|].
  destruct (IH l1) as (l2 & E2 & W2 & A2 & G2); [done..|lia|].
  exists l2. simpl. rewrite E. split_and!; [done..|lia].
Qed.

(** ** Construction and destruction *)

Lemma delay_after_step ns f l :
  time_ok clock (Some ns) → sys_wf l → _g_timer_id l < 2 ^ 31 - 1 →
  ∃ l' when, delay_call_after clock ns f l = Ok (l', _g_timer_id l + 1) ∧ sys_wf l' ∧
    (∀ fd d, sub l' fd d = sub l fd d) ∧ _g_timer_id l' = _g_timer_id l + 1 ∧
    _timer l' ≡ₚ (EsTime (_g_timer_id l + 1) when f :: _timer l).
Proof.
  intros Htime Hwf Hg. unfold delay_call_after, now. rewrite (Htime (_ticks l)). cbn [require mbind res_bind].
  set (l1 := set_ticks _ l). set (when := _ + _).
  destruct (delay_step when f l1 (set_ticks_wf _ l Hwf) Hg) as (l' & E & W & Hs & Hg' & Hp).
  exists l', when. split_and!; done.
Qed.

Lemma timeout_ctor_spec after self l :
  time_ok clock after → sys_wf l → no_refs self l → _g_timer_id l < 2 ^ 31 - 1 →
  ∃ l' id, timeout_ctor after self l = Ok (l', id) ∧ sys_wf l' ∧
    (∀ fd d, sub l' fd d = sub l fd d) ∧ _g_timer_id l' <= _g_timer_id l + 1 ∧
    (∀ t, t ∈ _timer l' → _func t = self → _id t = id ∧ 0 < id ∧ is_Some after).
Proof.
  intros Htime Hwf [_ N2] Hg. unfold timeout_ctor. destruct after as [ns|].
  - destruct (delay_after_step ns self l Htime Hwf Hg) as (l' & when & -> & W & Hs & Hg' & Hp).
    exists l', (_g_timer_id l + 1). split_and!; [done..|lia|]. intros t.
    rewrite Hp, elem_of_cons. intros [->|Ht] Hf; [|by destruct (N2 t Ht)].
    pose proof (ti_counter _ (sw_timers _ Hwf)). simpl. split_and!; [done|lia|by eauto].
  - exists l, (-1). split_and!; [done..|lia|]. intros t Ht Hf. by destruct (N2 t Ht).
Qed.

Lemma timeout_dtor_spec a l :
  sys_wf l →
  ∃ l', timeout_dtor a l = Ok l' ∧ sys_wf l' ∧ (∀ fd d, sub l' fd d = sub l fd d) ∧
    _timer l' ≡ₚ (if 0 <? aw_timer_id a
                   then filter (λ t, _id t ≠ aw_timer_id a) (_timer l) else _timer l).
Proof.
  intros Hwf. unfold timeout_dtor. destruct (0 <? _); [|by exists l].
  destruct (cancel_delay_step (aw_timer_id a) l Hwf) as (l' & -> & W & Hs & _ & Hp). by exists l'.
Qed.

(** The constructor's registration, in the direction [d]. *)
Lemma register_spec d after self fd l :
  time_ok clock after → sys_wf l → no_refs self l → 0 <= fd → _g_timer_id l < 2 ^ 31 - 1 →
  ∃ l1 l2 id, timeout_ctor after self l = Ok (l1, id) ∧
    fst <$> wait_fd (bit d) fd (Some self) l1 = Ok l2 ∧ sys_wf l2 ∧
    awaiting self fd d id l2 ∧ _g_timer_id l2 <= _g_timer_id l + 1 ∧
    (∀ t, t ∈ _timer l2 → _func t = self → 0 < id).
Proof.
  intros Htime Hwf Hn Hfd Hg.
  destruct (timeout_ctor_spec after self l Htime Hwf Hn Hg) as (l1 & id & E1 & W1 & S1 & G1 & T1).
  destruct (wait_step d fd self l1 W1 Hfd) as (l2 & rc & E2 & W2 & R2 & S2).
  destruct (rest_timer _ _ R2) as [ET EG].
  exists l1, l2, id. rewrite E2. split_and!; [done|done|done| |lia|].
  - split; [|rewrite ET; intros t Ht Hf; by apply (T1 t)].
    intros fd' d'. rewrite S2. unfold subs_set. case_decide as Hd; [done|].
    rewrite S1. by intros ?%(proj1 Hn).
  - rewrite ET. intros t Ht Hf. by apply (T1 t).
Qed.

(** Once its registration is gone, the destructor removes the last pointer. *)
Lemma dtor_no_refs self a l :
  sys_wf l → (∀ fd d, sub l fd d ≠ Some self) →
  (∀ t, t ∈ _timer l → _func t = self → _id t = aw_timer_id a ∧ 0 < aw_timer_id a) →
  ∃ l', timeout_dtor a l = Ok l' ∧ sys_wf l' ∧ no_refs self l'.
Proof.
  intros Hwf Hs Ht. destruct (timeout_dtor_spec a l Hwf) as (l' & E & W & S' & Hp).
  exists l'. split_and!; [done..|]. split; [intros fd d; rewrite S'; apply Hs|].
  intros t. rewrite Hp. destruct (0 <? _) eqn:C; bool_prop.
  - rewrite list_elem_of_filter. intros [Hne Hin] Hf. by destruct (Ht t Hin Hf).
  - intros Hin Hf. destruct (Ht t Hin Hf). lia.
Qed.

Lemma clear_func_spec d fd l :
  sys_wf l → 0 <= fd →
  sys_wf (clear_func d fd l) ∧ _timer (clear_func d fd l) = _timer l ∧
  ∀ fd' d', sub (clear_func d fd l) fd' d' = subs_set fd d None (sub l) fd' d'.
Proof.
  intros Hwf Hfd. unfold clear_func.
  destruct (decide (fd < Z.of_nat (length (_fds l)))) as [Hlt|Hge].
  - assert (∀ fd', ent (fds_put fd (set_func d None (ent l fd)) l) fd' =
      if decide (fd' = fd) then set_func d None (ent l fd) else ent l fd') as Hent
      by (intros; by apply ent_put).
    assert (∀ fd' d', sub (fds_put fd (set_func d None (ent l fd)) l) fd' d' =
      subs_set fd d None (sub l) fd' d') as Hsub.
    { intros fd' d'. unfold sub, subs_set. rewrite Hent.
      destruct (decide (fd' = fd)) as [->|]; [|by rewrite decide_False by tauto].
      destruct d, d'; simpl; first [by rewrite decide_True | by rewrite decide_False by (by intros [_ ?])]. }
    split_and!; [|done|done]. apply (table_change_wf l); [done| |done].
    destruct (sw_table _ Hwf) as [He Hc]. split; [|simpl; by rewrite length_insert].
    intros fd' Hfd'. rewrite Hent. case_decide; [subst|by apply He].
    destruct (He fd Hfd) as [E1 E2 E3 E4]. split; try (by destruct d).
    + intros E. assert (ent l fd = es_file_default) as -> by (apply E1; by destruct d). by destruct d.
    + pose proof (E4 DirR). pose proof (E4 DirW).
      destruct d; intros []; simpl in *; auto; by intros [? ?].
  - assert (fds_put fd (set_func d None (ent l fd)) l = l) as ->.
    { unfold fds_put. rewrite list_insert_ge by lia. by destruct l. }
    split_and!; [done..|]. intros fd' d'. unfold subs_set. case_decide as Hd; [|done].
    destruct Hd as [-> ->]. unfold sub. rewrite ent_out by lia. by destruct d.
Qed.

Lemma awaiting_positive self fd d id l :
  sys_wf l → awaiting self fd d id l →
  ∀ t, t ∈ _timer l → _func t = self → _id t = id ∧ 0 < id.
Proof.
  intros Hwf [_ A2] t Ht Hf. pose proof (A2 t Ht Hf) as E. split; [done|].
  pose proof (ti_range _ (sw_timers _ Hwf)) as Hr. rewrite Forall_forall in Hr.
  specialize (Hr t Ht). lia.
Qed.

(** A handler that is called and resumes the coroutine: its registration was
    cleared by the loop, the destructor does the rest. *)
Lemma completed_by_event self fd d a l :
  sys_wf l → awaiting self fd d (aw_timer_id a) l → 0 <= fd →
  ∃ l', timeout_dtor a (clear_func d fd l) = Ok l' ∧ sys_wf l' ∧ no_refs self l'.
Proof.
  intros Hwf Ha Hfd. destruct (clear_func_spec d fd l Hwf Hfd) as (W & T & Hs).
  apply dtor_no_refs; [done| |rewrite T; by eapply awaiting_positive].
  intros fd' d'. rewrite Hs. unfold subs_set. case_decide as Hd; [done|].
  intros Hsub. by apply Hd, (proj1 Ha).
Qed.

(** The state in which a timer's handler runs. *)
Lemma popped_awaiting self fd d id l t lp :
  sys_wf l → awaiting self fd d id l → _timer l ≠ [] → pop_timer l = Some (t, lp) →
  sys_wf lp ∧ awaiting self fd d id lp ∧
  (_func t = self → ∀ x, x ∈ _timer lp → _func x ≠ self).
Proof.
  intros Hwf Ha Hne Hpop. destruct (_timer l) as [|t0 ts] eqn:Et; [done|].
  destruct (pop_timer_spec l t0 ts (sw_timers _ Hwf) Et) as (lp' & Hpop' & Hp & Hi & El & _).
  rewrite Hpop in Hpop'. injection Hpop' as <- <-.
  pose proof Ha as [A1 A2]. rewrite Et in A2. split_and!.
  - rewrite El. apply set_timers_wf; [done|by rewrite <- El].
  - rewrite El. split; [done|]. simpl. intros x Hx. rewrite Hp in Hx. apply A2. by right.
  - intros Hf x Hx Hxf. rewrite Hp in Hx.
    pose proof (ti_nodup _ (sw_timers _ Hwf)) as Hnd. rewrite Et in Hnd. simpl in Hnd.
    apply NoDup_cons in Hnd as [Hnd _]. apply Hnd.
    rewrite (A2 t) by (done || left). rewrite <- (A2 x) by (done || by right).
    by apply list_elem_of_fmap_2.
Qed.

(** Cancelling its direction removes the registration of the awaiter. *)
Lemma cancel_awaiting self fd d id l :
  sys_wf l → awaiting self fd d id l → 0 <= fd →
  ∃ l' rc, cancel_ev ndebug thr fd (bit d) l = Ok (l', rc) ∧ sys_wf l' ∧
    (∀ fd' d', sub l' fd' d' ≠ Some self) ∧ _timer l' = _timer l.
Proof.
  intros Hwf Ha Hfd. destruct (cancel_step fd (bit d) l Hwf Hfd) as (l1 & rc & E1 & W1 & R1 & S1).
  { destruct d; [by left|by right; left]. }
  destruct (rest_timer _ _ R1) as [ET _]. exists l1, rc. split_and!; [done..| |done].
  intros fd' d'. rewrite S1. unfold subs_drop. case_decide as Hd.
  - subst fd'. destruct (has (bit d) (bit d')) eqn:Hb; [done|]. intros Hsub.
    destruct (proj1 Ha _ _ Hsub) as [_ ->]. by destruct d.
  - intros Hsub. by destruct (proj1 Ha _ _ Hsub).
Qed.

(** ** Properties *)

(** C26. No dangling pointer from [recv_lazy] or [recv_request]: construct the
    awaiter with or without a timeout on any well-formed loop, let other code on
    the loop thread wait, cancel and schedule as it likes, then complete the
    awaiter by an event (the loop clears its registration) or by its timer (the
    loop pops it and [on_time_event] cancels the registration).  When its
    destructor has run, neither the descriptor table nor the timer heap refers to
    it.  (The due time fits [int64_t] nanoseconds, and the timer counter an [int].) *)
Theorem recv_awaiter_no_dangling (after : option Z) (self : cb) (fd : Z) (ops : list loop_op)
  (l : io_loop K) (Hwf : sys_wf l) (Hfresh : no_refs self l) (Hfd : 0 <= fd)
  (Hops : Forall (other_op self) ops) (Htime : time_ok clock after)
  (Hroom : _g_timer_id l + 1 + Z.of_nat (length ops) < 2 ^ 31 - 1) :
  ∃ l1 a l2, recv_ctor after self fd l = Ok (l1, a) ∧ loop_run ops l1 = Ok l2 ∧
    (∃ l3, timeout_dtor a (clear_func DirR fd l2) = Ok l3 ∧ no_refs self l3) ∧
    (∀ t lp, _timer l2 ≠ [] → pop_timer l2 = Some (t, lp) →
       ∃ l3 a' l4, recv_time_event a lp = Ok (l3, a') ∧
         recv_request_time_event a lp = Ok (l3, a') ∧ aw_is_timeout a' = 1 ∧
         timeout_dtor a' l3 = Ok l4 ∧ no_refs self l4).
Proof.
  destruct (register_spec DirR after self fd l Htime Hwf Hfresh Hfd) as (l0 & l1 & id & E0 & E1 & W1 & A1 & G1 & _);
    [lia|].
  destruct (loop_run_awaiting self fd DirR id ops l1 W1 A1 Hops) as (l2 & E2 & W2 & A2 & _); [lia|].
  exists l1, (Awaiter id 0 fd (-1)), l2. unfold recv_ctor, wait_read. rewrite E0. cbn [mbind res_bind].
  change EPOLLIN with (bit DirR). rewrite E1. cbn [mbind res_bind].
  split_and!; [done|done| |].
  - destruct (completed_by_event self fd DirR (Awaiter id 0 fd (-1)) l2 W2 A2 Hfd) as (l3 & ? & _ & ?).
    by exists l3.
  - intros t lp Hne Hpop.
    destruct (popped_awaiting self fd DirR id l2 t lp W2 A2 Hne Hpop) as (Wp & Ap & _).
    destruct (cancel_awaiting self fd DirR id lp Wp Ap Hfd) as (l3 & rc & E3 & W3 & S3 & T3).
    destruct (dtor_no_refs self (Awaiter id 1 fd (-1)) l3 W3 S3) as (l4 & E4 & _ & N4).
    { rewrite T3. simpl. by eapply awaiting_positive. }
    exists l3, (Awaiter id 1 fd (-1)), l4. unfold recv_time_event, recv_request_time_event, cancel_read.
    simpl. change EPOLLIN with (bit DirR). by rewrite E3.
Qed.

(** The same for [connect] while the connection is in progress, where
    [_timer_id] is reset by its own timer; and a writable socket without a pending
    error gives the result 0, every other completion -1. *)
Theorem connect_awaiter_no_dangling (after : option Z) (eintrs : nat) (rets : list Z) (self : cb)
  (fd : Z) (ops : list loop_op) (l : io_loop K)
  (Hwf : sys_wf l) (Hfresh : no_refs self l) (Hfd : 0 <= fd)
  (Hops : Forall (other_op self) ops) (Htime : time_ok clock after)
  (Hroom : _g_timer_id l + 1 + Z.of_nat (length ops) < 2 ^ 31 - 1) :
  ∃ l1 a l2,
    connect_ctor after (replicate eintrs EINTR ++ EINPROGRESS :: rets) self fd l = Ok (l1, a) ∧
    loop_run ops l1 = Ok l2 ∧
    (∀ so_err, ∃ l3 a' l4,
       connect_file_event so_err EM_WRITE a (clear_func DirW fd l2) = Ok (l3, a') ∧
       aw_result a' = (if so_err =? 0 then 0 else -1) ∧
       timeout_dtor a' l3 = Ok l4 ∧ no_refs self l4) ∧
    (∀ t lp, _timer l2 ≠ [] → pop_timer l2 = Some (t, lp) → _func t = self →
       ∃ l3 a' l4, connect_time_event a lp = Ok (l3, a') ∧
         aw_is_timeout a' = 1 ∧ aw_result a' = -1 ∧
         timeout_dtor a' l3 = Ok l4 ∧ no_refs self l4).
Proof.
  destruct (register_spec DirW after self fd l Htime Hwf Hfresh Hfd) as (l0 & l1 & id & E0 & E1 & W1 & A1 & G1 & _);
    [lia|].
  destruct (loop_run_awaiting self fd DirW id ops l1 W1 A1 Hops) as (l2 & E2 & W2 & A2 & _); [lia|].
  exists l1, (Awaiter id 0 fd (-1)), l2. unfold connect_ctor. rewrite E0. cbn [mbind res_bind].
  assert (connect_loop (replicate eintrs EINTR ++ EINPROGRESS :: rets) self fd l0 = Ok l1) as ->.
  { by induction eintrs as [|k IH]. }
  cbn [mbind res_bind]. split_and!; [done|done| |].
  - intros so_err.
    set (a' := if so_err =? 0 then Awaiter id 0 fd 0 else Awaiter id 0 fd (-1)).
    destruct (completed_by_event self fd DirW a' l2 W2) as (l3 & E3 & _ & N3);
      [unfold a'; by destruct (so_err =? 0)|done|].
    eexists _, a', l3. split; [unfold connect_file_event; simpl; done|]. split_and!; [|done..].
    unfold a'. by destruct (so_err =? 0).
  - intros t lp Hne Hpop Hf.
    destruct (popped_awaiting self fd DirW id l2 t lp W2 A2 Hne Hpop) as (Wp & Ap & Np).
    destruct (cancel_awaiting self fd DirW id lp Wp Ap Hfd) as (l3 & rc & E3 & W3 & S3 & T3).
    exists l3, (Awaiter 0 1 fd (-1)), l3. unfold connect_time_event, cancel_write. simpl.
    change EPOLLOUT with (bit DirW). rewrite E3. split_and!; [done..|]. split; [done|].
    rewrite T3. by apply Np.
Qed.

(** [send_lazy] with a timeout does leave one behind: it starts two timers
    and forgets the first one's id.  On every well-formed loop, after the bytes
    were sent and the awaiter destroyed, a timer still points to it and will call
    into the dead frame when it is due. *)
Theorem send_awaiter_dangles (ns : Z) (self : cb) (fd : Z) (l : io_loop K)
  (Hwf : sys_wf l) (Hfd : 0 <= fd) (Htime : time_ok clock (Some ns))
  (Hroom : _g_timer_id l + 2 < 2 ^ 31 - 1) :
  ∃ l1 a l2, send_ctor (Some ns) self fd l = Ok (l1, a) ∧
    timeout_dtor a (clear_func DirW fd l1) = Ok l2 ∧
    ∃ t, t ∈ _timer l2 ∧ _func t = self ∧ _id t ≠ aw_timer_id a.
Proof.
  unfold send_ctor, timeout_ctor, wait_write.
  destruct (delay_after_step ns self l Htime Hwf) as (l0 & w0 & -> & W0 & _ & G0 & P0); [lia|].
  cbn [mbind res_bind]. change EPOLLOUT with (bit DirW).
  destruct (wait_step DirW fd self l0 W0 Hfd) as (l1 & rc & -> & W1 & R1 & _).
  destruct (rest_timer _ _ R1) as [T1 G1]. cbn [fmap res_fmap mbind res_bind fst].
  destruct (delay_after_step ns self l1 Htime W1) as (l2 & w2 & -> & W2 & _ & G2 & P2); [lia|].
  destruct (clear_func_spec DirW fd l2 W2 Hfd) as (W3 & T3 & _).
  set (a := Awaiter (_g_timer_id l1 + 1) 0 fd (-1)).
  destruct (timeout_dtor_spec a _ W3) as (l4 & E4 & _ & _ & P4).
  exists l2, a, l4. split; [done|]. split; [done|].
  exists (EsTime (_g_timer_id l + 1) w0 self). rewrite P4, T3.
  pose proof (ti_counter _ (sw_timers _ Hwf)). simpl.
  rewrite (proj2 (Z.ltb_lt 0 _)) by lia.
  split_and!; [|done|lia]. apply list_elem_of_filter. split; [simpl; lia|].
  rewrite P2. right. rewrite T1, P0. left.
Qed.

(** [connect] without a timeout, when [::connect] succeeds at once or fails
    with anything but [EINPROGRESS]: the constructor registers nothing, so the
    loop holds no reference to the awaiter and the coroutine that awaits it is
    never resumed. *)
Lemma connect_immediate_unregistered eintrs e rets self sockfd l :
  no_refs self l → e ≠ EINTR → e ≠ EINPROGRESS →
  ∃ a, connect_ctor None (replicate eintrs EINTR ++ e :: rets) self sockfd l = Ok (l, a) ∧
    no_refs self l.
Proof.
  intros Hfresh He He'. eexists. split; [|done].
  unfold connect_ctor, timeout_ctor. cbn [mbind res_bind].
  assert (connect_loop (replicate eintrs EINTR ++ e :: rets) self sockfd l = Ok l) as ->; [|done].
  induction eintrs as [|n IH]; simpl; [|exact IH].
  rewrite (proj2 (Z.eqb_neq e EINTR)), (proj2 (Z.eqb_neq e EINPROGRESS)) by done.
  by destruct (e =? 0).
Qed.
End awaiters.

(** ** [accept::on_file_event]

    [ans i] is the result of the [i]-th [::accept] call (a descriptor or an error
    number).  Every pass of the [for (;;)] that gets past the error checks stores
    [_result] and resumes the coroutine; the list is what the coroutine is resumed
    with.  The only way out is to put itself back. *)
Fixpoint accept_loop (fuel : nat) (ans : nat → Z + Z) (i : nat) : res (list Z * nat) :=
  match fuel with
  | O => Fail OutOfFuel
  | S fuel =>
      let resume_with fd := '(fds, j) ← accept_loop fuel ans (S i); Ok (fd :: fds, j) in
      match ans i with
      | inl fd => resume_with fd
      | inr e =>
          if e =? EINTR then accept_loop fuel ans (S i)
          else if e =? EAGAIN then Ok ([], S i)
          else if e =? ECONNABORTED then Ok ([], S i)
          else resume_with (-1)
      end
  end.

(** One readiness event hands over the whole backlog: when the pending
    connections (and interruptions) [xs] are followed by [EAGAIN], the handler
    delivers exactly their descriptors, in order, and suspends itself. *)
Theorem accept_drains_backlog (xs : list (option Z)) (ans : nat → Z + Z) (i : nat)
  (Hxs : ∀ j x, xs !! j = Some x →
           ans (i + j)%nat = match x with Some fd => inl fd | None => inr EINTR end)
  (Hend : ans (i + length xs)%nat = inr EAGAIN) :
  accept_loop (S (length xs)) ans i = Ok (omap id xs, (i + length xs + 1)%nat).
Proof.
  revert i Hxs Hend. induction xs as [|x xs IH]; intros i Hxs Hend.
  - simpl in *. rewrite Nat.add_0_r in *. rewrite Hend. simpl. do 2 f_equal. lia.
  - pose proof (Hxs 0%nat x eq_refl) as Hx. rewrite Nat.add_0_r in Hx.
    assert (accept_loop (S (length xs)) ans (S i) = Ok (omap id xs, (S i + length xs + 1)%nat)) as E.
    { apply IH.
      - intros j y Hy. rewrite <- (Hxs (S j) y Hy). f_equal. lia.
      - rewrite <- Hend. f_equal. simpl. lia. }
    cbn [accept_loop]. cbn [accept_loop] in E. rewrite Hx.
    destruct x as [fd|]; simpl in E |- *; rewrite E; simpl; do 2 f_equal; lia.
Qed.

(** When [::accept] keeps failing (no descriptors left, say), the handler
    never returns: it resumes the coroutine with -1 again and again, and the loop
    thread serves nothing else. *)
Theorem accept_error_spins (e : Z) (ans : nat → Z + Z)
  (He : e ≠ EINTR ∧ e ≠ EAGAIN ∧ e ≠ ECONNABORTED) (Hans : ∀ i, ans i = inr e) :
  ∀ fuel i, accept_loop fuel ans i = Fail OutOfFuel.
Proof.
  destruct He as (H1 & H2 & H3). induction fuel as [|fuel IH]; intros i; [done|].
  cbn [accept_loop]. rewrite Hans.
  rewrite (proj2 (Z.eqb_neq e EINTR)), (proj2 (Z.eqb_neq e EAGAIN)),
    (proj2 (Z.eqb_neq e ECONNABORTED)) by done. by rewrite IH.
Qed.

(** ** Witnesses *)

Lemma init_sys_wf :
  ∃ l, io_loop_init (∅ : gmap Z Z) 3 = Ok l ∧ sys_wf 1 (set_thread_id (Some 1) l) ∧
    no_refs 7%nat (set_thread_id (Some 1) l) ∧ _g_timer_id l = 0.
Proof.
  destruct (init_inv (∅ : gmap Z Z) 3) as (l & E & [Hw Hc] & _ & Hs & Hr); [reflexivity|apply gmap_ctl_serves|lia|].
  exists l. destruct (rest_timer _ _ Hr) as [Ht Hg]. simpl in Ht, Hg. split_and!; [done| | |done].
  - split; [by split| |done]. split; simpl; rewrite ?Ht, ?Hg; try done; first [apply is_heap_nil | by constructor].
  - split; simpl.
    + intros fd d. change (sub l fd d ≠ Some 7%nat). rewrite Hs. by case_decide.
    + rewrite Ht. by intros t ?%elem_of_nil.
Qed.

Definition demo_loop_ops : list loop_op :=
  [OWait DirW 6 8%nat; ODelay 100 8%nat; OCancel 6 EPOLLOUT].

Lemma demo_loop_ops_ok : Forall (other_op 7%nat) demo_loop_ops.
Proof.
  repeat (apply Forall_cons; split; [simpl; first [done | split; [lia|done] | split; [lia|by right; left]]|]).
  by apply Forall_nil.
Qed.

Lemma demo_time_ok : time_ok demo_clock (Some 10).
Proof.
  intros i. apply andb_true_iff. change (i64 (u64 10)) with 10.
  rewrite Z.leb_le, Z.ltb_lt. unfold demo_clock. lia.
Qed.

Lemma recv_awaiter_no_dangling_witness :
  ∃ l, io_loop_init (∅ : gmap Z Z) 3 = Ok l ∧
  ∃ l1 a l2, recv_ctor demo_clock (Some 10) 7%nat 5 (set_thread_id (Some 1) l) = Ok (l1, a) ∧
    loop_run false 1 demo_loop_ops l1 = Ok l2 ∧
    (∃ l3, timeout_dtor false 1 a (clear_func DirR 5 l2) = Ok l3 ∧ no_refs 7%nat l3) ∧
    (∀ t lp, _timer l2 ≠ [] → pop_timer l2 = Some (t, lp) →
       ∃ l3 a' l4, recv_time_event false 1 a lp = Ok (l3, a') ∧
         recv_request_time_event false 1 a lp = Ok (l3, a') ∧ aw_is_timeout a' = 1 ∧
         timeout_dtor false 1 a' l3 = Ok l4 ∧ no_refs 7%nat l4).
Proof.
  destruct init_sys_wf as (l & E & W & N & G). exists l. split; [exact E|].
  apply (recv_awaiter_no_dangling false demo_clock 1 (Some 10) 7%nat 5
    demo_loop_ops (set_thread_id (Some 1) l)).
  - exact W.
  - exact N.
  - lia.
  - exact demo_loop_ops_ok.
  - exact demo_time_ok.
  - simpl. rewrite G. lia.
Defined.

Lemma connect_awaiter_no_dangling_witness :
  ∃ l, io_loop_init (∅ : gmap Z Z) 3 = Ok l ∧
  ∃ l1 a l2,
    connect_ctor demo_clock (Some 10) (replicate 2 EINTR ++ EINPROGRESS :: []) 7%nat 5
      (set_thread_id (Some 1) l) = Ok (l1, a) ∧
    loop_run false 1 demo_loop_ops l1 = Ok l2 ∧
    (∀ so_err, ∃ l3 a' l4,
       connect_file_event false 1 so_err EM_WRITE a (clear_func DirW 5 l2) = Ok (l3, a') ∧
       aw_result a' = (if so_err =? 0 then 0 else -1) ∧
       timeout_dtor false 1 a' l3 = Ok l4 ∧ no_refs 7%nat l4) ∧
    (∀ t lp, _timer l2 ≠ [] → pop_timer l2 = Some (t, lp) → _func t = 7%nat →
       ∃ l3 a' l4, connect_time_event false 1 a lp = Ok (l3, a') ∧
         aw_is_timeout a' = 1 ∧ aw_result a' = -1 ∧
         timeout_dtor false 1 a' l3 = Ok l4 ∧ no_refs 7%nat l4).
Proof.
  destruct init_sys_wf as (l & E & W & N & G). exists l. split; [exact E|].
  apply (connect_awaiter_no_dangling false demo_clock 1 (Some 10) 2 [] 7%nat 5
    demo_loop_ops (set_thread_id (Some 1) l)).
  - exact W.
  - exact N.
  - lia.
  - exact demo_loop_ops_ok.
  - exact demo_time_ok.
  - simpl. rewrite G. lia.
Defined.

Lemma send_awaiter_dangles_witness :
  ∃ l, io_loop_init (∅ : gmap Z Z) 3 = Ok l ∧
  ∃ l1 a l2, send_ctor demo_clock (Some 10) 7%nat 5 (set_thread_id (Some 1) l) = Ok (l1, a) ∧
    timeout_dtor false 1 a (clear_func DirW 5 l1) = Ok l2 ∧
    ∃ t, t ∈ _timer l2 ∧ _func t = 7%nat ∧ _id t ≠ aw_timer_id a.
Proof.
  destruct init_sys_wf as (l & E & W & N & G). exists l. split; [exact E|].
  apply (send_awaiter_dangles false demo_clock 1 10 7%nat 5 (set_thread_id (Some 1) l)).
  - exact W.
  - lia.
  - exact demo_time_ok.
  - simpl. rewrite G. lia.
Defined.

Definition demo_answers (i : nat) : Z + Z :=
  match i with
  | 0%nat => inl 9 | 1%nat => inr EINTR | 2%nat => inl 10 | _ => inr EAGAIN
  end.

Lemma accept_drains_backlog_witness :
  accept_loop 4 demo_answers 0 = Ok ([9; 10], 4%nat).
Proof.
  apply (accept_drains_backlog [Some 9; None; Some 10] demo_answers 0).
  - intros j x Hj. do 3 (destruct j as [|j]; [by injection Hj as <-|]). discriminate.
  - reflexivity.
Defined.

Lemma accept_error_spins_witness : accept_loop 1000 (λ _, inr 24) 0 = Fail OutOfFuel.
Proof.
  apply (accept_error_spins 24 (λ _, inr 24)).
  - by split_and!.
  - reflexivity.
Defined.
