(* ===== verification/NioAwaiter.v ===== *)
(** * Network awaiters ([coio/nio_awaiter.h], [coio/nio_awaiter.cpp])

    Each awaiter is a record of its members; its [on_file_event] is a function
    on that record and on the socket.  The handler either puts itself back into
    [es._func_r] / [es._func_w] and returns ([Rearmed]) or resumes the
    coroutine ([Resumed]); [_result] is what [await_resume] then returns. *)

From S2P Require Import Prelude ByteBuffer Socket.

Inductive outcome := Rearmed | Resumed.

(** ** [recv_lazy] *)

Record recv_lazy := RecvLazy {
  rl_is_timeout : Z;
  rl_recved_bytes : Z;           (* int *)
  rl_buff : list Z;              (* the span's bytes *)
  rl_result : Z;                 (* int32_t, initially -1 *)
}.

Definition new_recv_lazy (buf : list Z) : recv_lazy := RecvLazy 0 0 buf (-1).

Definition rl_size (a : recv_lazy) : Z := Z.of_nat (length (rl_buff a)).
Definition rl_set_result (v : Z) (a : recv_lazy) : recv_lazy :=
  RecvLazy (rl_is_timeout a) (rl_recved_bytes a) (rl_buff a) (i32 v).

Section recv_lazy.
Context {S : Type} `{!Socket S}.

Fixpoint recv_lazy_loop (fuel : nat) (a : recv_lazy) (s : S) : res (recv_lazy * S * outcome) :=
  match fuel with
  | O => Fail OutOfFuel
  | Datatypes.S fuel =>
      if rl_recved_bytes a <? i32 (rl_size a) then
        match recv s (rl_size a - rl_recved_bytes a) with
        | (s, RcvData []) => Ok (rl_set_result 0 a, s, Resumed)
        | (s, RcvData bs) =>
            buff ← write_at (rl_buff a) (rl_recved_bytes a) bs;
            recv_lazy_loop fuel
              (RecvLazy (rl_is_timeout a) (i32 (rl_recved_bytes a + Z.of_nat (length bs)))
                 buff (rl_result a)) s
        | (s, RcvErr e) =>
            if e =? EAGAIN then Ok (a, s, Rearmed)
            else if e =? EINTR then recv_lazy_loop fuel a s
            else Ok (rl_set_result (-1) a, s, Resumed)
        | (_, RcvBlocked) => Fail Blocked
        end
      else Ok (rl_set_result (rl_recved_bytes a) a, s, Resumed)
  end.

Definition recv_lazy_on_file_event (event : Z) (a : recv_lazy) (s : S)
    : res (recv_lazy * S * outcome) :=
  if event <=? 0 then Ok (a, s, Resumed)
  else recv_lazy_loop (Datatypes.S (pending s)) a s.

(** Successive events of the loop, until the coroutine is resumed. *)
Fixpoint recv_lazy_events (evs : list Z) (a : recv_lazy) (s : S)
    : res (recv_lazy * S * outcome) :=
  match evs with
  | [] => Ok (a, s, Rearmed)
  | ev :: evs =>
      '(a, s, o) ← recv_lazy_on_file_event ev a s;
      match o with
      | Rearmed => recv_lazy_events evs a s
      | Resumed => Ok (a, s, Resumed)
      end
  end.
End recv_lazy.

(** ** [send_lazy] *)

Record send_lazy := SendLazy {
  sl_is_timeout : Z;
  sl_sended_bytes : Z;
  sl_buff : list Z;
  sl_result : Z;
}.

Definition new_send_lazy (buf : list Z) : send_lazy := SendLazy 0 0 buf (-1).
Definition sl_size (a : send_lazy) : Z := Z.of_nat (length (sl_buff a)).

Section send_lazy.
Context {S : Type} `{!Socket S}.

Fixpoint send_lazy_loop (fuel : nat) (a : send_lazy) (s : S) : res (send_lazy * S * outcome) :=
  match fuel with
  | O => Fail OutOfFuel
  | Datatypes.S fuel =>
      if sl_sended_bytes a <? i32 (sl_size a) then
        match send s (drop (Z.to_nat (sl_sended_bytes a)) (sl_buff a)) with
        | (s, SndErr e) =>
            if e =? EAGAIN then Ok (a, s, Rearmed)
            else if e =? EINTR then send_lazy_loop fuel a s
            else Ok (a, s, Resumed)
        | (s, SndOk rc) =>
            if 0 <? rc then
              send_lazy_loop fuel
                (SendLazy (sl_is_timeout a) (i32 (sl_sended_bytes a + rc)) (sl_buff a)
                   (sl_result a)) s
            else Ok (a, s, Resumed)
        | (_, SndBlocked) => Fail Blocked
        | (_, SndKilled) => Fail Killed
        end
      else Ok (SendLazy (sl_is_timeout a) (sl_sended_bytes a) (sl_buff a) (sl_sended_bytes a),
               s, Resumed)
  end.

(** Every successful [send] takes a byte at least; the fuel adds up the bytes
    left and the interruptions ahead. *)
Definition send_lazy_on_file_event (event : Z) (a : send_lazy) (s : S)
    : res (send_lazy * S * outcome) :=
  if event <=? 0 then Ok (a, s, Resumed)
  else send_lazy_loop (Datatypes.S (length (sl_buff a) + pending s)) a s.

Fixpoint send_lazy_events (evs : list Z) (a : send_lazy) (s : S)
    : res (send_lazy * S * outcome) :=
  match evs with
  | [] => Ok (a, s, Rearmed)
  | ev :: evs =>
      '(a, s, o) ← send_lazy_on_file_event ev a s;
      match o with
      | Rearmed => send_lazy_events evs a s
      | Resumed => Ok (a, s, Resumed)
      end
  end.
End send_lazy.

(** ** [recv_request] *)

Record recv_request := RecvRequest {
  rq_is_timeout : Z;
  rq_recved_bytes : Z;           (* int *)
  rq_cmd_len : Z;                (* int *)
  rq_request : option (byte_buffer_impl * list Z);   (* the buffer and its block's bytes *)
  rq_buf : list Z;               (* uint8_t _buf[8] *)
  rq_result : Z;
}.

(** [req] is what the caller's pointer holds already, [buf0] the array as it
    was found. *)
Definition new_recv_request (req : option (byte_buffer_impl * list Z)) (buf0 : list Z)
    : recv_request := RecvRequest 0 0 0 req buf0 (-1).

Definition rq_set_result (v : Z) (a : recv_request) : recv_request :=
  RecvRequest (rq_is_timeout a) (rq_recved_bytes a) (rq_cmd_len a) (rq_request a) (rq_buf a) (i32 v).
Definition rq_set_recved (n : Z) (buf : list Z) (a : recv_request) : recv_request :=
  RecvRequest (rq_is_timeout a) (i32 n) (rq_cmd_len a) (rq_request a) buf (rq_result a).

Section recv_request.
Context {S M : Type} `{!Socket S} `{!Allocator M} `{!MultimapFind byte_buffer_data}.
(** The bytes a fresh (or reused) block happens to hold. *)
Variable uninit : byte_buffer_impl → list Z.

(** Outcome of the header loop: 6 bytes read, suspended, or [rc <= 0]. *)
Inductive header_ret := HDone | HAgain | HStop (rc : Z).

Fixpoint header_loop (fuel : nat) (a : recv_request) (s : S)
    : res (recv_request * S * header_ret) :=
  match fuel with
  | O => Fail OutOfFuel
  | Datatypes.S fuel =>
      if rq_recved_bytes a <? 6 then
        match recv s (6 - rq_recved_bytes a) with
        | (s, RcvData []) => Ok (a, s, HStop 0)
        | (s, RcvData bs) =>
            buf ← write_at (rq_buf a) (rq_recved_bytes a) bs;
            header_loop fuel (rq_set_recved (rq_recved_bytes a + Z.of_nat (length bs)) buf a) s
        | (s, RcvErr e) =>
            if e =? EAGAIN then Ok (a, s, HAgain)
            else if e =? EINTR then header_loop fuel a s
            else Ok (a, s, HStop (-1))
        | (_, RcvBlocked) => Fail Blocked
        end
      else Ok (a, s, HDone)
  end.

(** The block of the buffer [*_request] points to; the access is invalid when
    the allocation had failed. *)
Definition block_write (b : byte_buffer_impl) (mem : list Z) (off : Z) (bs : list Z)
    : res (list Z) :=
  if m_data (m_d b) =? 0 then Fail NullDeref else write_at mem (_data_begin b + off) bs.

(** Assigning to the [unique_ptr]: the buffer it held before is destroyed. *)
Definition reset_request (m : M) (p : buffer_pool) (a : recv_request) : res (M * buffer_pool) :=
  match rq_request a with
  | None => Ok (m, p)
  | Some (b, _) => byte_buffer_destroy m p b
  end.

(** Decoding the header and allocating the request buffer. *)
Definition header_done (m : M) (p : buffer_pool) (a : recv_request)
    : res (M * buffer_pool * recv_request) :=
  let cmd_len := i32 (be_combine 0 (take 4 (rq_buf a))) in
  let align_off := nth 4 (rq_buf a) 0 in
  let align_bit := nth 5 (rq_buf a) 0 in
  require (int_ok (cmd_len + 4)) SignedOverflow ≫= λ _,
  '(m, p, b) ←
    (if align_off =? 0 then
       '(m, p, b) ← malloc m p (u32 (cmd_len + 4)) 6 0;
       Ok (m, p, set_data_offset 0 (u32 (cmd_len + 4)) b)
     else
       require (int_ok (cmd_len + 4 - align_off)) SignedOverflow ≫= λ _,
       '(m, p, b) ← malloc m p (u32 (cmd_len + 4 - align_off)) align_bit align_off;
       Ok (m, p, set_data_offset (u32 (body_off b - align_off)) (u32 (cmd_len + 4)) b));
  '(m, p) ← reset_request m p a;
  mem ← block_write b (uninit b) 0 (take 6 (rq_buf a));
  Ok (m, p, RecvRequest (rq_is_timeout a) (rq_recved_bytes a) (cmd_len + 4) (Some (b, mem))
              (rq_buf a) (rq_result a)).

Fixpoint body_loop (fuel : nat) (a : recv_request) (s : S) : res (recv_request * S * outcome) :=
  match fuel with
  | O => Fail OutOfFuel
  | Datatypes.S fuel =>
      if rq_recved_bytes a <? rq_cmd_len a then
        match recv s (rq_cmd_len a - rq_recved_bytes a) with
        | (s, RcvData []) => Ok (rq_set_result 0 a, s, Resumed)
        | (s, RcvData bs) =>
            match rq_request a with
            | None => Fail NullDeref
            | Some (b, mem) =>
                mem ← block_write b mem (rq_recved_bytes a) bs;
                body_loop fuel
                  (RecvRequest (rq_is_timeout a)
                     (i32 (rq_recved_bytes a + Z.of_nat (length bs))) (rq_cmd_len a)
                     (Some (b, mem)) (rq_buf a) (rq_result a)) s
            end
        | (s, RcvErr e) =>
            if e =? EAGAIN then Ok (a, s, Rearmed)
            else if e =? EINTR then body_loop fuel a s
            else Ok (rq_set_result (-1) a, s, Resumed)
        | (_, RcvBlocked) => Fail Blocked
        end
      else Ok (rq_set_result (rq_recved_bytes a) a, s, Resumed)
  end.

Definition recv_request_on_file_event (event : Z) (m : M) (p : buffer_pool)
    (a : recv_request) (s : S) : res (M * buffer_pool * recv_request * S * outcome) :=
  if event <=? 0 then Ok (m, p, a, s, Resumed)
  else
    let body m p a s :=
      '(a, s, o) ← body_loop (Datatypes.S (pending s)) a s; Ok (m, p, a, s, o) in
    if rq_recved_bytes a <? 6 then
      '(a, s, h) ← header_loop (Datatypes.S (pending s)) a s;
      match h with
      | HAgain => Ok (m, p, a, s, Rearmed)
      | HStop rc => Ok (m, p, rq_set_result rc a, s, Resumed)
      | HDone => '(m, p, a) ← header_done m p a; body m p a s
      end
    else body m p a s.

Fixpoint recv_request_events (evs : list Z) (m : M) (p : buffer_pool)
    (a : recv_request) (s : S) : res (M * buffer_pool * recv_request * S * outcome) :=
  match evs with
  | [] => Ok (m, p, a, s, Rearmed)
  | ev :: evs =>
      '(m, p, a, s, o) ← recv_request_on_file_event ev m p a s;
      match o with
      | Rearmed => recv_request_events evs m p a s
      | Resumed => Ok (m, p, a, s, Resumed)
      end
  end.
End recv_request.

(** ** [recv_request2] *)

(** A coroutine that has run out of events is still suspended. *)
Inductive co_state := Suspended | Returned (rc : Z).

Section recv_request2.
Context {S M : Type} `{!Socket S} `{!Allocator M} `{!MultimapFind byte_buffer_data}.
Variable uninit : byte_buffer_impl → list Z.

(** Allocation of the request buffer from the header ([uint32_t] arithmetic). *)
Definition request2_buffer (m : M) (p : buffer_pool) (header : list Z)
    : res (M * buffer_pool * byte_buffer_impl) :=
  let req_len := be_combine 0 (take 4 header) in
  let align_off := nth 4 header 0 in
  let align_bit := nth 5 header 0 in
  let align_bit := if align_bit =? 0 then 6 else align_bit in
  if align_off =? 0 then
    '(m, p, b) ← malloc m p (u32 (req_len + 4)) 6 0;
    Ok (m, p, set_data_offset 0 (u32 (req_len + 4)) b)
  else
    '(m, p, b) ← malloc m p (u32 (req_len + 4 - align_off)) align_bit align_off;
    Ok (m, p, set_data_offset (u32 (body_off b - align_off)) (u32 (req_len + 4)) b).

(** The header bytes in memory once [recv_lazy] has filled them: the reference
    [align_bit] writes the default back into the array before it is copied. *)
Definition request2_header (header : list Z) : list Z :=
  if nth 5 header 0 =? 0 then <[5%nat := 6]> header else header.

(** The second half of the coroutine: copying the header and awaiting the
    payload. *)
Definition request2_payload (evs2 : list Z) (m : M) (p : buffer_pool) (b : byte_buffer_impl)
    (header : list Z) (s : S)
    : res (M * buffer_pool * option (byte_buffer_impl * list Z) * S * co_state) :=
  mem ← block_write b (uninit b) 0 (request2_header header);
  let start := _data_begin b + 6 in
  let len := u32 (be_combine 0 (take 4 header) - 2) in
  require (start + len <=? Z.of_nat (length mem)) OutOfBounds ≫= λ _,
  '(d, s, o) ← recv_lazy_events evs2 (new_recv_lazy (read_at mem start len)) s;
  mem ← write_at mem start (rl_buff d);
  match o with
  | Rearmed => Ok (m, p, Some (b, mem), s, Suspended)
  | Resumed =>
      if rl_result d <=? 0 then Ok (m, p, Some (b, mem), s, Returned (rl_result d))
      else Ok (m, p, Some (b, mem), s, Returned (i32 (data_len b)))
  end.

(** [evs1] and [evs2] are the events during the first and the second wait;
    [old] is what the caller's pointer held, [header0] the uninitialised array. *)
Definition recv_request2 (evs1 evs2 : list Z) (m : M) (p : buffer_pool)
    (old : option (byte_buffer_impl * list Z)) (header0 : list Z) (s : S)
    : res (M * buffer_pool * option (byte_buffer_impl * list Z) * S * co_state) :=
  '(h, s, o) ← recv_lazy_events evs1 (new_recv_lazy header0) s;
  match o with
  | Rearmed => Ok (m, p, old, s, Suspended)
  | Resumed =>
      if negb (rl_result h =? 6) then Ok (m, p, old, s, Returned (rl_result h))
      else
        '(m, p, b) ← request2_buffer m p (rl_buff h);
        '(m, p) ← (match old with
                   | None => Ok (m, p)
                   | Some (b0, _) => byte_buffer_destroy m p b0
                   end);
        request2_payload evs2 m p b (rl_buff h) s
  end.
End recv_request2.
