(* ===== verification/NioProps.v ===== *)
(** * Properties of the network awaiters

    The receive loops and the send loop against any reliable byte stream: no
    store outside a buffer, no dependence on how the stream is cut into pieces,
    every byte delivered once and in order. *)

From S2P Require Import Prelude ByteBuffer Socket NioAwaiter.

(** A connection without hard errors: while bytes are outstanding a call only
    fails with [EAGAIN] or [EINTR], and finitely often. *)
Class LiveSocket (S : Type) `{!Socket S} (live : S → Prop) : Prop := {
  live_recv s n : live s → live (recv s n).1;
  live_err s n s' e :
    live s → stream s ≠ [] → recv s n = (s', RcvErr e) →
    (e = EAGAIN ∨ e = EINTR) ∧ (pending s' < pending s)%nat;
}.

Section facts.
Context {S : Type} `{!Socket S} `{!SocketLaws S} {live : S → Prop} `{!LiveSocket S live}.

(** [bs] was taken off the stream on the way from [s] to [s']. *)
Record received (s : S) (bs : list Z) (s' : S) : Prop := {
  received_stream : stream s = bs ++ stream s';
  received_sent : sent s' = sent s;
  received_live : live s → live s';
}.

Lemma received_refl s : received s [] s.
Proof. by split. Qed.
Lemma received_trans s1 s2 s3 bs cs :
  received s1 bs s2 → received s2 cs s3 → received s1 (bs ++ cs) s3.
Proof. intros [E1 F1 L1] [E2 F2 L2]. split; [by rewrite E1, E2, app_assoc|congruence|auto]. Qed.

(** Waiting for more: on a live connection progress was made. *)
Definition stalled (s s' : S) : Prop :=
  live s → stream s' ≠ [] → (pending s' < pending s)%nat.

Lemma stalled_mono s0 s s' :
  (pending s ≤ pending s0)%nat → (live s0 → live s) → stalled s s' → stalled s0 s'.
Proof. unfold stalled. intros Hp Hl Hs H1 H2. specialize (Hs (Hl H1) H2). lia. Qed.

(** The five things one call of [recv] can do. *)
Inductive recv_case (s : S) (n : Z) : S * recv_ret → Prop :=
  | RcData s' b bs : received s (b :: bs) s' → Z.of_nat (length (b :: bs)) <= n →
      (pending s' < pending s)%nat → recv_case s n (s', RcvData (b :: bs))
  | RcEof s' : received s [] s' → stream s' = [] → recv_case s n (s', RcvData [])
  | RcIntr s' : received s [] s' → (pending s' < pending s)%nat →
      recv_case s n (s', RcvErr EINTR)
  | RcAgain s' : received s [] s' → stalled s s' → recv_case s n (s', RcvErr EAGAIN)
  | RcErr s' e : e ≠ EAGAIN → e ≠ EINTR → received s [] s' → (live s → stream s' = []) →
      recv_case s n (s', RcvErr e).

Lemma recv_cases s n : 0 < n → recv_case s n (recv s n).
Proof.
  intros Hn. pose proof (live_recv s n) as Hlive.
  destruct (recv s n) as [s' [[|b bs]|e|]] eqn:E; simpl in Hlive; [| | |by apply recv_returns in E].
  - destruct (recv_eof _ _ _ Hn E) as (H1 & H2 & H3). constructor; [|done].
    split; [by rewrite H1, H2|done..].
  - destruct (recv_data _ _ _ _ _ E) as (H1 & H2 & H3 & H4). constructor; [|done..]. by split.
  - destruct (recv_err _ _ _ _ E) as (H1 & H2 & H3 & H4).
    assert (received s [] s') as Hr by (by split; rewrite ?H1).
    pose proof (λ H, live_err s n s' e H) as Hle.
    destruct (decide (e = EINTR)) as [->|]; [by constructor; auto|].
    destruct (decide (e = EAGAIN)) as [->|].
    + constructor; [done|]. intros Hl Hne. rewrite H1 in Hne. by apply Hle.
    + constructor; [done..|]. intros Hl. rewrite H1. destruct (stream s) eqn:Es; [done|].
      destruct (Hle Hl) as [[?|?] _]; rewrite ?Es; done.
Qed.

(** ** [recv_lazy] *)

(** From [a], [s] to [a'], [s'] the bytes [bs] were stored behind those already
    there and nothing else changed. *)
Record rl_progress (a : recv_lazy) (s : S) (bs : list Z) (a' : recv_lazy) (s' : S) : Prop := {
  rlp_received : received s bs s';
  rlp_timeout : rl_is_timeout a' = rl_is_timeout a;
  rlp_size : length (rl_buff a') = length (rl_buff a);
  rlp_recved : rl_recved_bytes a' = rl_recved_bytes a + Z.of_nat (length bs);
  rlp_bound : rl_recved_bytes a' <= rl_size a;
  rlp_prefix : take (Z.to_nat (rl_recved_bytes a')) (rl_buff a') =
               take (Z.to_nat (rl_recved_bytes a)) (rl_buff a) ++ bs;
  rlp_suffix : drop (Z.to_nat (rl_recved_bytes a')) (rl_buff a') =
               drop (Z.to_nat (rl_recved_bytes a')) (rl_buff a);
}.

(** How the handler can leave. *)
Definition rl_exit (a : recv_lazy) (s : S) (a' : recv_lazy) (s' : S) (o : outcome) : Prop :=
  match o with
  | Rearmed => rl_recved_bytes a' < rl_size a ∧ rl_result a' = rl_result a ∧ stalled s s'
  | Resumed =>
      rl_result a' = rl_size a ∧ rl_recved_bytes a' = rl_size a ∨
      rl_recved_bytes a' < rl_size a ∧
        (rl_result a' = 0 ∧ stream s' = [] ∨ rl_result a' = -1 ∧ (live s → stream s' = []))
  end.

Lemma rl_progress_nil a s s' :
  received s [] s' → rl_recved_bytes a <= rl_size a → rl_progress a s [] a s'.
Proof. intros. split; rewrite ?app_nil_r; auto. simpl. lia. Qed.

Lemma rl_exit_mono a1 s1 a s a' s' o :
  rl_size a1 = rl_size a → rl_result a1 = rl_result a →
  (o = Rearmed → pending s1 ≤ pending s)%nat → (live s → live s1) →
  rl_exit a1 s1 a' s' o → rl_exit a s a' s' o.
Proof.
  intros Hsz Hres Hp Hl. unfold rl_exit. rewrite Hsz, Hres. destruct o.
  - intros (? & ? & ?). split_and!; [done..|]. eapply stalled_mono; [by apply Hp|exact Hl|done].
  - intros [?|(? & [?|(? & Hs)])]; [by auto..|]. right. split; [done|]. auto.
Qed.

Lemma rl_progress_trans a1 s1 a2 s2 a3 s3 bs cs :
  rl_progress a1 s1 bs a2 s2 → rl_progress a2 s2 cs a3 s3 →
  0 <= rl_recved_bytes a1 → rl_progress a1 s1 (bs ++ cs) a3 s3.
Proof.
  intros [A1 A2 A3 A4 A5 A6 A7] [B1 B2 B3 B4 B5 B6 B7] H0. unfold rl_size in *.
  split; unfold rl_size.
  - by eapply received_trans.
  - congruence.
  - congruence.
  - rewrite length_app. lia.
  - lia.
  - by rewrite B6, A6, app_assoc.
  - rewrite B7. replace (Z.to_nat (rl_recved_bytes a3))
      with (Z.to_nat (rl_recved_bytes a2) + (Z.to_nat (rl_recved_bytes a3) -
              Z.to_nat (rl_recved_bytes a2)))%nat by lia.
    by rewrite <- !drop_drop, A7.
Qed.

Lemma rl_set_result_progress a s v bs a' s' :
  rl_progress a s bs a' s' → rl_progress a s bs (rl_set_result v a') s'.
Proof. intros []. by split. Qed.

Lemma rl_store_progress a s bs s' buff :
  received s bs s' → 0 <= rl_recved_bytes a →
  write_at (rl_buff a) (rl_recved_bytes a) bs = Ok buff → rl_size a < 2 ^ 31 →
  rl_progress a s bs
    (RecvLazy (rl_is_timeout a) (i32 (rl_recved_bytes a + Z.of_nat (length bs)))
       buff (rl_result a)) s'.
Proof.
  intros Hr H0 Hw Hs. pose proof (write_at_length _ _ _ _ Hw) as Hlen.
  apply write_at_inv in Hw as (_ & Hle & ->). unfold rl_size in Hs.
  split; unfold rl_size; cbn [rl_is_timeout rl_recved_bytes rl_buff];
    rewrite ?i32_small by lia; auto.
  all: replace (Z.to_nat (rl_recved_bytes a + Z.of_nat (length bs)))
    with (Z.to_nat (rl_recved_bytes a) + length bs)%nat by lia;
    set (k := Z.to_nat (rl_recved_bytes a)) in *;
    assert (length (take k (rl_buff a)) = k) as Hk by (rewrite length_take; lia).
  - rewrite app_assoc. rewrite take_app_le by (rewrite length_app; lia).
    apply take_ge. rewrite length_app. lia.
  - rewrite app_assoc, drop_app_ge by (rewrite length_app; lia).
    rewrite length_app, Hk, Nat.sub_diag. done.
Qed.

Lemma recv_lazy_loop_spec fuel a s :
  (pending s < fuel)%nat → 0 <= rl_recved_bytes a <= rl_size a → rl_size a < 2 ^ 31 →
  ∃ a' s' o bs, recv_lazy_loop fuel a s = Ok (a', s', o) ∧
    rl_progress a s bs a' s' ∧ rl_exit a s a' s' o.
Proof.
  revert a s. induction fuel as [|fuel IH]; intros a s Hf Hr Hs; [lia|].
  cbn [recv_lazy_loop]. rewrite (i32_small (rl_size a)) by (unfold rl_size in *; lia).
  destruct (_ <? _) eqn:C; bool_prop.
  2:{ eexists _, _, _, []. split; [done|]. split.
      - apply rl_set_result_progress, rl_progress_nil; [apply received_refl|lia].
      - left. simpl. rewrite i32_small by lia. lia. }
  pose proof (recv_cases s (rl_size a - rl_recved_bytes a) ltac:(lia)) as Hc.
  inversion Hc as [s1 b bs Hrec Hlen Hp|s1 Hrec He|s1 Hrec Hp|s1 Hrec Hst|s1 e N1 N2 Hrec He].
  - unfold rl_size in Hlen. set (l := b :: bs) in *.
    assert (write_at (rl_buff a) (rl_recved_bytes a) l = _) as Hw
      by (apply write_at_Ok; lia).
    rewrite Hw. cbn [mbind res_bind].
    pose proof (rl_store_progress a s l s1 _ Hrec ltac:(lia) Hw Hs) as P1.
    match goal with |- context [recv_lazy_loop fuel ?x s1] => set (a1 := x) in * end.
    pose proof (rlp_size _ _ _ _ _ P1) as Hsz. pose proof (rlp_recved _ _ _ _ _ P1) as Hrv.
    assert (rl_size a1 = rl_size a) as Hsz' by (unfold rl_size; lia).
    destruct (IH a1 s1) as (a' & s' & o & cs & E & P2 & X); [lia|unfold rl_size in *; lia|lia|].
    exists a', s', o, (l ++ cs). split; [done|].
    split; [eapply rl_progress_trans; eauto; lia|].
    eapply rl_exit_mono; [..|exact X]; [done|done|lia|apply Hrec].
  - eexists _, _, _, []. split; [done|].
    split; [apply rl_set_result_progress, rl_progress_nil; [done|lia]|].
    right. split; [done|]. by left.
  - change (EINTR =? EAGAIN) with false. change (EINTR =? EINTR) with true.
    destruct (IH a s1) as (a' & s' & o & cs & E & P2 & X); [lia|lia|lia|].
    exists a', s', o, cs. split; [done|]. split.
    + eapply (rl_progress_trans a s a s1 a' s' []); [|exact P2|lia].
      apply rl_progress_nil; [done|lia].
    + eapply rl_exit_mono; [..|exact X]; [done|done|lia|apply Hrec].
  - eexists _, _, _, []. split; [done|]. split; [|done]. apply rl_progress_nil; [done|lia].
  - rewrite (proj2 (Z.eqb_neq e EAGAIN)), (proj2 (Z.eqb_neq e EINTR)) by done.
    eexists _, _, _, []. split; [done|].
    split; [apply rl_set_result_progress, rl_progress_nil; [done|lia]|].
    right. split; [done|]. by right.
Qed.

(** All events of one wait. *)
Lemma recv_lazy_events_spec evs a s :
  Forall (λ ev, 0 < ev) evs → rl_result a = -1 →
  0 <= rl_recved_bytes a <= rl_size a → rl_size a < 2 ^ 31 →
  ∃ a' s' o bs, recv_lazy_events evs a s = Ok (a', s', o) ∧
    rl_progress a s bs a' s' ∧
    match o with
    | Rearmed => rl_result a' = -1 ∧
        (rl_recved_bytes a' < rl_size a ∨ evs = [] ∧ a' = a) ∧
        (live s → stream s' ≠ [] → length evs + pending s' ≤ pending s)%nat
    | Resumed => rl_exit a s a' s' Resumed
    end.
Proof.
  intros Hev. revert a s. induction Hev as [|ev evs Hev _ IH]; intros a s Hres Hr Hs.
  { eexists _, _, Rearmed, []. split; [done|].
    split; [apply rl_progress_nil; [apply received_refl|lia]|]. auto. }
  cbn [recv_lazy_events]. unfold recv_lazy_on_file_event.
  rewrite (proj2 (Z.leb_gt ev 0)) by lia.
  destruct (recv_lazy_loop_spec (Datatypes.S (pending s)) a s) as (a1 & s1 & o & bs & -> & P1 & X1);
    [lia..|]. cbn [mbind res_bind].
  destruct o; [|by eexists _, _, Resumed, bs].
  destruct X1 as (X1 & X2 & X3). pose proof (rlp_size _ _ _ _ _ P1) as Hsz.
  assert (rl_size a1 = rl_size a) as Hsz' by (unfold rl_size; lia).
  pose proof (rlp_recved _ _ _ _ _ P1) as Hrv.
  destruct (IH a1 s1) as (a2 & s2 & o & cs & -> & P2 & X); [congruence|lia|lia|].
  pose proof (rl_progress_trans _ _ _ _ _ _ _ _ P1 P2 ltac:(lia)) as P.
  exists a2, s2, o, (bs ++ cs). split; [done|]. split; [done|]. destruct o.
  - destruct X as (Y1 & Y2 & Y3). split; [done|].
    split; [left; destruct Y2 as [|[_ ->]]; lia|]. intros Hl Hne.
    specialize (Y3 (received_live _ _ _ (rlp_received _ _ _ _ _ P1) Hl) Hne).
    assert (stream s1 ≠ []) as Hne1; [|specialize (X3 Hl Hne1); simpl; lia].
    rewrite (received_stream _ _ _ (rlp_received _ _ _ _ _ P2)). by destruct cs.
  - eapply rl_exit_mono; [..|exact X]; [done|done|done|apply P1].
Qed.

(** ** [send_lazy] *)

(** The kernel took the bytes of the buffer between the two counters, in
    order; nothing else changed. *)
Record sl_progress (a : send_lazy) (s : S) (a' : send_lazy) (s' : S) : Prop := {
  slp_buff : sl_buff a' = sl_buff a;
  slp_timeout : sl_is_timeout a' = sl_is_timeout a;
  slp_mono : sl_sended_bytes a <= sl_sended_bytes a' <= sl_size a;
  slp_sent pre : sent s = pre ++ take (Z.to_nat (sl_sended_bytes a)) (sl_buff a) →
               sent s' = pre ++ take (Z.to_nat (sl_sended_bytes a')) (sl_buff a);
  slp_stream : stream s' = stream s;
}.

Definition sl_exit (a a' : send_lazy) (o : outcome) : Prop :=
  match o with
  | Rearmed => sl_sended_bytes a' < sl_size a ∧ sl_result a' = sl_result a
  | Resumed =>
      sl_sended_bytes a' = sl_size a ∧ sl_result a' = sl_size a ∨
      sl_sended_bytes a' < sl_size a ∧ sl_result a' = sl_result a
  end.

Lemma sl_progress_nil a s s' :
  sent s' = sent s → stream s' = stream s → sl_sended_bytes a <= sl_size a → sl_progress a s a s'.
Proof. intros E1 E2 ?. split; auto; [lia|by rewrite E1]. Qed.

Lemma sl_progress_trans a1 s1 a2 s2 a3 s3 :
  sl_progress a1 s1 a2 s2 → sl_progress a2 s2 a3 s3 → sl_progress a1 s1 a3 s3.
Proof.
  intros [A1 A2 A3 A4 A5] [B1 B2 B3 B4 B5]. unfold sl_size in *.
  split; [congruence|congruence|unfold sl_size; rewrite A1 in B3; lia| |congruence].
  intros pre E. rewrite <- A1. apply B4. rewrite A1. by apply A4.
Qed.

Lemma sl_send_progress a s s' n :
  send s (drop (Z.to_nat (sl_sended_bytes a)) (sl_buff a)) = (s', SndOk n) →
  0 <= sl_sended_bytes a <= sl_size a → sl_size a < 2 ^ 31 →
  sl_progress a s
    (SendLazy (sl_is_timeout a) (i32 (sl_sended_bytes a + n)) (sl_buff a) (sl_result a)) s'.
Proof.
  intros (Hn & Hs & Hst & _)%send_ok Hr H31. rewrite length_drop in Hn. unfold sl_size in *.
  split; unfold sl_size; cbn [sl_sended_bytes sl_buff sl_is_timeout];
    rewrite ?i32_small by lia; auto; [lia|].
  intros pre E. rewrite Hs, E, <- app_assoc. f_equal. rewrite Z2Nat.inj_add by lia.
  by rewrite take_take_drop.
Qed.

Lemma send_lazy_loop_spec fuel a s :
  (Z.to_nat (sl_size a - sl_sended_bytes a) + pending s < fuel)%nat →
  0 <= sl_sended_bytes a <= sl_size a → sl_size a < 2 ^ 31 →
  ∃ a' s' o, send_lazy_loop fuel a s = Ok (a', s', o) ∧ sl_progress a s a' s' ∧ sl_exit a a' o.
Proof.
  revert a s. induction fuel as [|fuel IH]; intros a s Hf Hr Hs; [lia|].
  cbn [send_lazy_loop]. rewrite (i32_small (sl_size a)) by (unfold sl_size in *; lia).
  destruct (_ <? _) eqn:C; bool_prop.
  2:{ eexists _, _, _. split; [done|]. split; [|left; simpl; lia].
      split; auto; simpl; lia. }
  destruct (send _ _) as [s1 [n|e| |]] eqn:E; [| |by apply send_returns in E..].
  - pose proof (sl_send_progress a s s1 n E Hr Hs) as P1.
    pose proof (send_ok _ _ _ _ E) as (Hn & Hsent & Hst & Hp).
    destruct (0 <? n) eqn:Cn; bool_prop.
    + match goal with |- context [send_lazy_loop fuel ?x s1] => set (a1 := x) in * end.
      rewrite length_drop in Hn. assert (sl_sended_bytes a1 = sl_sended_bytes a + n) as Hk.
      { unfold a1, sl_size in *. simpl. apply i32_small. lia. }
      destruct (IH a1 s1) as (a' & s' & o & E2 & P2 & X);
        [change (sl_size a1) with (sl_size a); unfold sl_size in *; lia..|].
      eexists a', s', o. split; [done|]. split; [by eapply sl_progress_trans|exact X].
    + eexists _, _, _. split; [done|]. split; [|by right].
      assert (n = 0) as -> by lia. rewrite take_0, app_nil_r in Hsent.
      apply sl_progress_nil; [done..|lia].
  - destruct (send_err _ _ _ _ E) as (Hsent & Hst & Hp & Hi).
    assert (sl_progress a s a s1) as P1 by (apply sl_progress_nil; [done..|lia]).
    destruct (e =? EAGAIN); [by eexists _, _, _|].
    destruct (e =? EINTR) eqn:Ce; bool_prop.
    + destruct (IH a s1) as (a' & s' & o & E2 & P2 & X); [specialize (Hi Ce); lia|lia..|].
      exists a', s', o. split; [done|]. split; [by eapply sl_progress_trans|exact X].
    + eexists _, _, _. split; [done|]. split; [done|]. by right.
Qed.

Lemma send_lazy_events_spec evs a s :
  0 <= sl_sended_bytes a <= sl_size a → sl_size a < 2 ^ 31 →
  ∃ a' s' o, send_lazy_events evs a s = Ok (a', s', o) ∧ sl_progress a s a' s' ∧
    (o = Resumed → sl_sended_bytes a' = sl_size a ∧ sl_result a' = sl_size a ∨
                   sl_result a' = sl_result a) ∧
    (o = Rearmed → sl_result a' = sl_result a).
Proof.
  revert a s. induction evs as [|ev evs IH]; intros a s Hr Hs.
  { eexists _, _, _. split; [done|]. split; [apply sl_progress_nil; [done..|lia]|done]. }
  cbn [send_lazy_events]. unfold send_lazy_on_file_event.
  destruct (ev <=? 0); cbn [mbind res_bind].
  { eexists _, _, _. split; [done|]. split; [apply sl_progress_nil; [done..|lia]|]. by auto. }
  destruct (send_lazy_loop_spec (Datatypes.S (length (sl_buff a) + pending s)) a s)
    as (a1 & s1 & o & -> & P1 & X1); [unfold sl_size in *; lia|lia|lia|]. cbn [mbind res_bind].
  destruct o; simpl in X1.
  2:{ eexists _, _, _. split; [done|]. split; [done|]. split; [|done].
      intros _. destruct X1 as [[? ?]|[? ?]]; auto. }
  assert (sl_size a1 = sl_size a) as Hsz by (unfold sl_size; by rewrite (slp_buff _ _ _ _ P1)).
  pose proof (slp_mono _ _ _ _ P1).
  destruct (IH a1 s1) as (a2 & s2 & o & -> & P2 & Y1 & Y2); [lia..|].
  exists a2, s2, o. split; [done|]. split; [by eapply sl_progress_trans|].
  destruct X1 as [_ Hres]. rewrite Hsz, Hres in *. auto.
Qed.
End facts.

(** ** Connections in the scripted model *)

Definition soft_chunk (c : chunk) : Prop :=
  match c with CErr e => e = EAGAIN ∨ e = EINTR | _ => True end.
Definition script_live (s : script) : Prop := Forall soft_chunk (sc_in s).

#[export] Instance script_live_socket : LiveSocket script script_live.
Proof.
  split.
  - intros s n Hl. unfold script_live in *. cbn [recv script_socket]. unfold script_recv.
    destruct (sc_in s) as [|[b bs|e|] cs] eqn:E; [by simpl; rewrite E| | |by simpl; rewrite E];
      apply Forall_cons in Hl as [Hc Hl]; [|done].
    destruct (n <=? 0); [simpl; rewrite E; by constructor|].
    by destruct (drop _ _); [|constructor].
  - intros s n s' e Hl Hne. unfold script_live in *. cbn [recv stream pending script_socket] in *.
    unfold script_recv. destruct (sc_in s) as [|[b bs|e0|] cs] eqn:E; [done| | |done].
    + destruct (n <=? 0); [done|]. by destruct (drop _ _).
    + apply Forall_cons in Hl as [Hc Hl]. intros [= <- <-]. split; [done|]. simpl. lia.
Qed.

(** Any socket is vacuously live when nothing is claimed to be. *)
#[export] Instance no_live_socket S `{!Socket S} : LiveSocket S (λ _, False).
Proof. by split. Qed.

(** ** Properties *)

Section properties.
Context {S : Type} `{!Socket S} `{!SocketLaws S}.

(** C20. [recv_lazy] against any byte stream and any sequence of readiness
    events: the handler never writes outside the span and never fails; what
    lies in the span up to [_recved_bytes] is exactly what was taken off the
    stream, in order, however the kernel cut it up, and the rest of the span is
    untouched.  The coroutine is resumed with the full size, with 0 only at the
    end of the stream, or with -1 after a socket error; otherwise the handler
    has put itself back because bytes are missing. *)
Theorem recv_lazy_delivers (buf : list Z) (s : S) (ev : Z) (evs : list Z)
  (Hbuf : Z.of_nat (length buf) < 2 ^ 31) (Hevs : Forall (λ ev, 0 < ev) (ev :: evs)) :
  ∃ a' s' o, recv_lazy_events (ev :: evs) (new_recv_lazy buf) s = Ok (a', s', o) ∧
    let k := Z.to_nat (rl_recved_bytes a') in
    stream s = take k (rl_buff a') ++ stream s' ∧
    drop k (rl_buff a') = drop k buf ∧ length (rl_buff a') = length buf ∧
    match o with
    | Rearmed => rl_recved_bytes a' < Z.of_nat (length buf)
    | Resumed =>
        rl_result a' = Z.of_nat (length buf) ∧ rl_recved_bytes a' = Z.of_nat (length buf) ∨
        rl_recved_bytes a' < Z.of_nat (length buf) ∧
          (rl_result a' = 0 ∧ stream s' = [] ∨ rl_result a' = -1)
    end.
Proof.
  destruct (recv_lazy_events_spec (live := λ _, False) (ev :: evs) (new_recv_lazy buf) s)
    as (a' & s' & o & bs & E & P & X); [done..|unfold rl_size; simpl; lia|done|].
  exists a', s', o. split; [done|]. destruct P as [P1 _ P3 _ _ P6 P7]. simpl in *.
  rewrite P6. split_and!; [apply P1|done|done|]. unfold rl_size in X; simpl in X.
  destruct o; [by destruct X as (_ & [?|[? _]] & _)|].
  destruct X as [?|[? [?|[? _]]]]; auto.
Qed.

(** C21. [send_lazy] against any socket: the bytes the kernel has taken are
    exactly the first [_sended_bytes] bytes of the span, each once and in order,
    across short writes, interruptions and suspensions; [await_resume] returns
    the full size only when all of them were taken, and -1 otherwise. *)
Theorem send_lazy_delivers (buf : list Z) (s : S) (evs : list Z)
  (Hbuf : Z.of_nat (length buf) < 2 ^ 31) :
  ∃ a' s' o, send_lazy_events evs (new_send_lazy buf) s = Ok (a', s', o) ∧
    sent s' = sent s ++ take (Z.to_nat (sl_sended_bytes a')) buf ∧ stream s' = stream s ∧
    0 <= sl_sended_bytes a' <= Z.of_nat (length buf) ∧
    (o = Resumed → sl_result a' = Z.of_nat (length buf) ∧ sent s' = sent s ++ buf ∨
                   sl_result a' = -1).
Proof.
  destruct (send_lazy_events_spec evs (new_send_lazy buf) s)
    as (a' & s' & o & E & [P1 _ P3 P4 P5] & X & _); [unfold sl_size; simpl; lia|done|].
  exists a', s', o. unfold sl_size in *. simpl in *.
  specialize (P4 (sent s)). rewrite take_0, app_nil_r in P4. specialize (P4 eq_refl).
  split_and!; [done|done|done|lia|lia|]. intros Ho.
  destruct (X Ho) as [[Hk Hres]|?]; [|by auto]. left. split; [done|].
  rewrite P4, Hk, Nat2Z.id. by rewrite firstn_all.
Qed.

(** C39. On a connection without hard errors [recv_lazy] does return: when the
    peer sends at least as many bytes as the span holds, then after more
    readiness events than the kernel has interruptions in store the coroutine
    has been resumed with the full size, the span holds the first bytes of the
    stream, and the following bytes are still there for the next reader. *)
Theorem recv_lazy_completes {live : S → Prop} `{!LiveSocket S live}
  (buf : list Z) (s : S) (evs : list Z)
  (Hbuf : Z.of_nat (length buf) < 2 ^ 31) (Hevs : Forall (λ ev, 0 < ev) evs)
  (Hlive : live s) (Hmany : (pending s < length evs)%nat)
  (Henough : (length buf ≤ length (stream s))%nat) :
  ∃ a' s', recv_lazy_events evs (new_recv_lazy buf) s = Ok (a', s', Resumed) ∧
    rl_result a' = Z.of_nat (length buf) ∧
    stream s = rl_buff a' ++ stream s' ∧ length (rl_buff a') = length buf.
Proof.
  destruct (recv_lazy_events_spec (live := live) evs (new_recv_lazy buf) s)
    as (a' & s' & o & bs & E & P & X); [done..|unfold rl_size; simpl; lia|done|].
  exists a', s'. destruct P as [P1 _ P3 P4 P5 P6 P7]. unfold rl_size in *. simpl in *.
  pose proof (received_stream _ _ _ P1) as Hst.
  assert (rl_recved_bytes a' < Z.of_nat (length buf) → stream s' ≠ []) as Hne.
  { intros Hlt Hnil. rewrite Hst, Hnil, length_app in Henough. simpl in Henough. lia. }
  destruct o.
  { destruct X as (_ & [X2|[-> _]] & X); [|simpl in Hmany; lia].
    specialize (X Hlive (Hne X2)). lia. }
  destruct X as [[Hres Hk]|[Hlt [[_ ?]|[_ X]]]];
    [|by destruct (Hne Hlt)|by destruct (Hne Hlt (X Hlive))].
  split_and!; [done..| |lia].
  unfold rl_size in Hk. simpl in Hk. rewrite Hk, Nat2Z.id, <- P3, firstn_all in P6.
  by rewrite P6.
Qed.
End properties.

(** ** Witnesses *)

(** Six bytes arriving in three pieces, with an interruption and a stall. *)
Definition demo_script : script :=
  Script [CData 1 [2]; CErr EINTR; CData 3 []; CErr EAGAIN; CData 4 [5; 6]; CEof]
    [SndOk 2; SndErr EAGAIN; SndErr EINTR; SndOk 9] [].

Lemma recv_lazy_delivers_witness :
  ∃ a' s' o, recv_lazy_events [1; 1] (new_recv_lazy [0; 0; 0; 0]) demo_script = Ok (a', s', o) ∧
    let k := Z.to_nat (rl_recved_bytes a') in
    stream demo_script = take k (rl_buff a') ++ stream s' ∧
    drop k (rl_buff a') = drop k [0; 0; 0; 0] ∧ length (rl_buff a') = 4%nat ∧
    match o with
    | Rearmed => rl_recved_bytes a' < 4
    | Resumed =>
        rl_result a' = 4 ∧ rl_recved_bytes a' = 4 ∨
        rl_recved_bytes a' < 4 ∧ (rl_result a' = 0 ∧ stream s' = [] ∨ rl_result a' = -1)
    end.
Proof.
  apply (recv_lazy_delivers [0; 0; 0; 0] demo_script 1 [1]).
  - reflexivity.
  - repeat constructor.
Defined.

Lemma send_lazy_delivers_witness :
  ∃ a' s' o, send_lazy_events [4; 4] (new_send_lazy [7; 8; 9]) demo_script = Ok (a', s', o) ∧
    sent s' = sent demo_script ++ take (Z.to_nat (sl_sended_bytes a')) [7; 8; 9] ∧
    stream s' = stream demo_script ∧ 0 <= sl_sended_bytes a' <= 3 ∧
    (o = Resumed → sl_result a' = 3 ∧ sent s' = sent demo_script ++ [7; 8; 9] ∨
                   sl_result a' = -1).
Proof. apply (send_lazy_delivers [7; 8; 9] demo_script [4; 4]). reflexivity. Defined.

(** The scripted run itself: both sides finish on the second event. *)
Example demo_run :
  (λ '(a, s, o), (rl_result a, rl_buff a, stream s, o)) <$>
    recv_lazy_events [1; 1] (new_recv_lazy [0; 0; 0; 0]) demo_script
  = Ok (4, [1; 2; 3; 4], [5; 6], Resumed) ∧
  (λ '(a, s, o), (sl_result a, sent s, o)) <$>
    send_lazy_events [4; 4] (new_send_lazy [7; 8; 9]) demo_script
  = Ok (3, [7; 8; 9], Resumed).
Proof. split; reflexivity. Qed.

Lemma recv_lazy_completes_witness :
  ∃ a' s', recv_lazy_events (replicate 20 1) (new_recv_lazy [0; 0; 0; 0]) demo_script
             = Ok (a', s', Resumed) ∧
    rl_result a' = 4 ∧ stream demo_script = rl_buff a' ++ stream s' ∧ length (rl_buff a') = 4%nat.
Proof.
  apply (recv_lazy_completes (live := script_live) [0; 0; 0; 0] demo_script (replicate 20 1)).
  - reflexivity.
  - repeat constructor.
  - repeat (apply Forall_cons; split; [simpl; by auto|]). by apply Forall_nil.
  - vm_compute. lia.
  - vm_compute. lia.
Defined.
