(* ===== verification/ZioProps.v ===== *)
(** * Properties of the blocking socket helpers *)

From S2P Require Import Prelude Socket NioAwaiter NioProps Zio.

(** A descriptor that eventually takes bytes: calls fail with [EINTR] or
    [EAGAIN] only, or take nothing, and finitely often. *)
Class LiveSend (S : Type) `{!Socket S} (live : S → Prop) : Prop := {
  live_send s bs : live s → live (send s bs).1;
  live_send_err s bs s' e :
    live s → bs ≠ [] → send s bs = (s', SndErr e) →
    (e = EAGAIN ∨ e = EINTR) ∧ (pending s' < pending s)%nat;
  live_send_zero s bs s' :
    live s → bs ≠ [] → send s bs = (s', SndOk 0) → (pending s' < pending s)%nat;
}.

Section write.
Context {S : Type} `{!Socket S} `{!SocketLaws S} {live : S → Prop} `{!LiveSend S live}.

Lemma zio_write_spec fuel bs s :
  (pending s < fuel)%nat → live s → bs ≠ [] →
  ∃ s' rc, zio_write fuel bs s = Ok (s', rc) ∧ live s' ∧ stream s' = stream s ∧
    sent s' = sent s ++ take (Z.to_nat rc) bs ∧ rc <= Z.of_nat (length bs) ∧ rc ≠ -1 ∧
    (pending s' ≤ pending s)%nat ∧ (rc <= 0 → (pending s' < pending s)%nat).
Proof.
  revert s. induction fuel as [|fuel IH]; intros s Hf Hl Hne; [lia|]. cbn [zio_write].
  pose proof (live_send s bs Hl) as Hl'.
  destruct (send s bs) as [s1 [n|e| |]] eqn:E; simpl in Hl'; [| |by apply send_returns in E..].
  - destruct (send_ok _ _ _ _ E) as (Hn & Hs & Hst & Hp). eexists _, _.
    split_and!; try done; try lia. intros H0. assert (n = 0) as -> by lia.
    by eapply (live_send_zero s bs).
  - destruct (send_err _ _ _ _ E) as (Hs & Hst & Hp & _).
    destruct (live_send_err _ _ _ _ Hl Hne E) as [[-> | ->] Hlt].
    + change (EAGAIN =? EINTR) with false. change (EAGAIN =? EAGAIN) with true.
      eexists _, _. split_and!; try done; try lia. by rewrite take_0, app_nil_r.
    + change (EINTR =? EINTR) with true.
      destruct (IH s1) as (s' & rc & -> & L & T & V & R1 & R2 & P1 & P2); [lia|done..|].
      exists s', rc. rewrite <- Hs, <- Hst.
      split_and!; try done; [lia|]. intros ?. specialize (P2 H). lia.
Qed.

Lemma zio_writev_loop_spec fuel bs pos s :
  (Z.to_nat (Z.of_nat (length bs) - pos) + pending s < fuel)%nat → live s →
  0 <= pos <= Z.of_nat (length bs) →
  ∃ s', zio_writev_loop fuel bs pos s = Ok (s', Z.of_nat (length bs)) ∧
    sent s' = sent s ++ drop (Z.to_nat pos) bs ∧ stream s' = stream s ∧ live s'.
Proof.
  revert pos s. induction fuel as [|fuel IH]; intros pos s Hf Hl Hpos; [lia|].
  cbn [zio_writev_loop]. destruct (pos =? _) eqn:C; bool_prop; simpl.
  { subst. eexists. split; [done|]. rewrite drop_ge, app_nil_r by lia. done. }
  destruct (zio_write_spec fuel (drop (Z.to_nat pos) bs) s)
    as (s1 & rc & -> & L & T & V & R1 & R2 & P1 & P2); [lia|done| |].
  { intros Hd. apply (f_equal length) in Hd. rewrite length_drop in Hd. simpl in Hd. lia. }
  cbn [mbind res_bind]. rewrite length_drop in R1. destruct (0 <? rc) eqn:C1; bool_prop.
  - destruct (IH (pos + rc) s1) as (s' & -> & V' & T' & L'); [lia|done|lia|].
    exists s'. split; [done|]. rewrite V', V, <- app_assoc, Z2Nat.inj_add by lia.
    split_and!; [|congruence|done]. f_equal. by rewrite <- drop_drop, take_drop.
  - rewrite (proj2 (Z.eqb_neq rc (-1))) by done.
    replace (Z.to_nat rc) with 0%nat in V by lia. rewrite take_0, app_nil_r in V.
    specialize (P2 ltac:(lia)).
    destruct (IH pos s1) as (s' & -> & V' & T' & L'); [lia|done|lia|].
    exists s'. rewrite V', V, T', T. done.
Qed.

(** C35. [zio::writev] on a descriptor that eventually takes bytes terminates
    and puts the whole buffer on the connection, once and in order, through
    short writes, interruptions and [EAGAIN]; it returns the count, but -1, the
    error value, for an empty buffer. *)
Theorem zio_writev_all (fuel : nat) (bs : list Z) (s : S)
  (Hlive : live s) (Hfuel : (length bs + pending s < fuel)%nat) :
  ∃ s', zio_writev fuel bs s = Ok (s', if decide (bs = []) then -1 else Z.of_nat (length bs)) ∧
    sent s' = sent s ++ bs ∧ stream s' = stream s.
Proof.
  unfold zio_writev. destruct (zio_writev_loop_spec fuel bs 0 s) as (s' & -> & V & T & _); [lia|done|lia|].
  exists s'. split; [|done]. cbn [mbind res_bind]. case_decide; [by subst|].
  rewrite (proj2 (Z.eqb_neq _ 0)); [done|]. by destruct bs.
Qed.
End write.

Section read.
Context {S : Type} `{!Socket S} `{!SocketLaws S} {live : S → Prop} `{!LiveSocket S live}.

Lemma zio_read_spec fuel count s :
  (pending s < fuel)%nat → live s → 0 < count → stream s ≠ [] →
  ∃ s' rc bs, zio_read fuel count s = Ok (s', rc, bs) ∧ live s' ∧
    stream s = bs ++ stream s' ∧ sent s' = sent s ∧ Z.of_nat (length bs) <= count ∧
    (pending s' < pending s)%nat ∧
    (0 < rc ∧ rc = Z.of_nat (length bs) ∨ rc = -2 ∧ bs = []).
Proof.
  revert s. induction fuel as [|fuel IH]; intros s Hf Hl Hc Hne; [lia|]. cbn [zio_read].
  pose proof (recv_cases (live := live) s count Hc) as Hcs.
  inversion Hcs as [s1 b bs [R1 R2 R3] Hlen Hp|s1 [R1 _ _] He|s1 [R1 R2 R3] Hp|s1 [R1 R2 R3] Hst|s1 e N1 N2 [R1 _ _] He].
  - eexists _, _, _. split_and!; try done; auto. left. simpl. lia.
  - by rewrite R1, He in Hne.
  - change (EINTR =? EINTR) with true. simpl in R1.
    destruct (IH s1) as (s' & rc & bs & -> & L & T & V & R & P & X); [lia|auto|done|by rewrite <- R1|].
    exists s', rc, bs. rewrite R1, <- R2. split_and!; try done. lia.
  - change (EAGAIN =? EINTR) with false. change (EAGAIN =? EAGAIN) with true.
    eexists _, _, []. simpl in R1. split_and!; try done; auto; [simpl; lia|].
    apply Hst; [done|]. by rewrite <- R1.
  - specialize (He Hl). by rewrite R1, He in Hne.
Qed.

Lemma zio_readv_loop_spec fuel buf pos s want rest :
  (Datatypes.S (pending s) < fuel)%nat → live s → 0 <= pos <= Z.of_nat (length buf) →
  stream s = want ++ rest → Z.of_nat (length want) = Z.of_nat (length buf) - pos →
  ∃ s', zio_readv_loop fuel buf pos s =
      Ok (s', take (Z.to_nat pos) buf ++ want,
          if Z.of_nat (length buf) =? 0 then -1 else Z.of_nat (length buf)) ∧
    stream s' = rest ∧ sent s' = sent s.
Proof.
  revert buf pos s want. induction fuel as [|fuel IH]; intros buf pos s want Hf Hl Hpos Hs Hw; [lia|].
  cbn [zio_readv_loop]. destruct (pos =? _) eqn:C; bool_prop; simpl.
  { subst pos. assert (want = []) as -> by (destruct want; [done|simpl in Hw; lia]).
    eexists. rewrite app_nil_r, Nat2Z.id, firstn_all. done. }
  destruct (zio_read_spec fuel (Z.of_nat (length buf) - pos) s)
    as (s1 & rc & bs & -> & L & T & V & R & P & X); [lia|done|lia| |].
  { rewrite Hs. destruct want; [simpl in Hw; lia|done]. }
  cbn [mbind res_bind]. destruct X as [[Hrc ->]|[-> ->]].
  - rewrite (proj2 (Z.ltb_lt 0 _)) by lia.
    destruct (write_at buf pos bs) as [buf'|] eqn:W; [|rewrite write_at_Ok in W by lia; done].
    cbn [mbind res_bind]. pose proof (write_at_length _ _ _ _ W) as Lb.
    rewrite Hs in T. assert (∃ want', want = bs ++ want' ∧ stream s1 = want' ++ rest)
      as (want' & -> & Hs1).
    { apply app_eq_inv in T as [(x & -> & ->)|(x & -> & ->)]; [by eauto|].
      rewrite length_app in R. exists []. destruct x; [by rewrite !app_nil_r|simpl in R; lia]. }
    rewrite length_app in Hw.
    destruct (IH buf' (pos + Z.of_nat (length bs)) s1 want') as (s' & -> & S' & V');
      [lia|done|lia|done|lia|].
    exists s'. rewrite Lb. split_and!; [|done|congruence]. do 3 f_equal.
    apply write_at_inv in W as (_ & _ & ->).
    rewrite Z2Nat.inj_add, Nat2Z.id by lia.
    rewrite app_assoc, take_app_le by (rewrite length_app, length_take; lia).
    rewrite take_ge by (rewrite length_app, length_take; lia). by rewrite <- app_assoc.
  - simpl. rewrite Hs in T. simpl in T. destruct (IH buf pos s1 want) as (s' & -> & S' & V'); [lia|done|done|done|done|].
    exists s'. split_and!; [done|done|congruence].
Qed.

(** [zio::readv] on a connection without hard errors whose peer sends
    enough terminates with the buffer filled by the first bytes of the stream and
    leaves the others; it returns the count, but -1 for an empty buffer. *)
Theorem zio_readv_all (fuel : nat) (buf : list Z) (s : S)
  (Hlive : live s) (Hfuel : (Datatypes.S (pending s) < fuel)%nat)
  (Henough : (length buf ≤ length (stream s))%nat) :
  ∃ s', zio_readv fuel buf s =
      Ok (s', take (length buf) (stream s), if decide (buf = []) then -1 else Z.of_nat (length buf)) ∧
    stream s' = drop (length buf) (stream s) ∧ sent s' = sent s.
Proof.
  unfold zio_readv. destruct (zio_readv_loop_spec fuel buf 0 s
    (take (length buf) (stream s)) (drop (length buf) (stream s))) as (s' & -> & S' & V');
    [done|done|lia|by rewrite take_drop|rewrite length_take; lia|].
  exists s'. split; [|done]. rewrite take_0. simpl. do 2 f_equal. destruct buf; done.
Qed.
End read.

(** ** Flags and options *)

Lemma lor_land_absorb x y : x ||| (x &&& y) = x.
Proof.
  apply Z.bits_inj'. intros i Hi. rewrite Z.lor_spec, Z.land_spec.
  by destruct (Z.testbit x i), (Z.testbit y i).
Qed.

(** [setblocking(fd, false)] sets [O_NONBLOCK] and keeps every other flag,
    but [setblocking(fd, true)] changes nothing: because of the [|=], a
    non-blocking descriptor can never be made blocking again. *)
Lemma setblocking_one_way (opts : Z) :
  blocking_flags opts true = opts ∧
  blocking_flags opts false = opts ||| O_NONBLOCK ∧
  Z.testbit (blocking_flags opts false) 11 = true.
Proof.
  unfold blocking_flags. split; [apply lor_land_absorb|].
  rewrite Z.lor_assoc, Z.lor_diag. split; [done|]. rewrite Z.lor_spec. apply orb_true_r.
Qed.

(** The [timeval] of [setrecvtimeo] and [setsendtimeo] is the timeout asked
    for, normalised. *)
Lemma timeval_of_spec (tmout_ms : Z) (Hms : 0 <= tmout_ms) :
  let '(sec, usec) := timeval_of tmout_ms in
  sec * 1000000 + usec = tmout_ms * 1000 ∧ 0 <= sec ∧ 0 <= usec < 1000000.
Proof.
  unfold timeval_of. pose proof (Z.quot_rem' tmout_ms 1000).
  pose proof (Z.rem_bound_pos tmout_ms 1000). pose proof (Z.quot_pos tmout_ms 1000). lia.
Qed.

(** ** Listening sockets *)

(** What the system calls do to the set of open descriptors. *)
Class KernelLaws (K : Type) `{!Kernel K} : Prop := {
  socket_open k k' fd : k_socket k = (k', fd) →
    fd = -1 ∧ k_open k' = k_open k ∨ 0 <= fd ∧ (fd ∉ k_open k) ∧ k_open k' = {[fd]} ∪ k_open k;
  close_open k fd : k_open (k_close k fd).1 = k_open k ∖ {[fd]};
  setsockopt_open k fd o : k_open (k_setsockopt k fd o).1 = k_open k;
  bind_open k fd a : k_open (k_bind k fd a).1 = k_open k ∧ ((k_bind k fd a).2 = 0 → fd ∈ k_open k);
  listen_open k fd n : k_open (k_listen k fd n).1 = k_open k;
}.

Section listen.
Context {K : Type} `{!Kernel K} `{!KernelLaws K}.

Lemma zio_listen_open fd inet port backlog (k : K) :
  k_open (zio_listen fd inet port backlog k).1 = k_open k.
Proof.
  unfold zio_listen, setnodelay, setreuseaddr, setoption.
  pose proof (setsockopt_open k fd (TCP_NODELAY 1)) as E1.
  destruct (k_setsockopt k fd (TCP_NODELAY 1)) as [k1 r1].
  pose proof (setsockopt_open k1 fd (SO_REUSEADDR 1)) as E2.
  destruct (k_setsockopt k1 fd (SO_REUSEADDR 1)) as [k2 r2].
  pose proof (bind_open k2 fd (build_addr_str inet port)) as [E3 _].
  destruct (k_bind k2 fd _) as [k3 r3]. simpl in *.
  destruct (r3 <? 0); simpl; [congruence|]. rewrite listen_open. congruence.
Qed.

(** [listen_on] does not leak a descriptor: it returns a new open
    descriptor, or a negative value with the same descriptors open as before. *)
Theorem listen_on_no_leak (port : Z) (k k' : K) (fd : Z)
  (Hrun : listen_on port k = (k', fd)) :
  (0 <= fd ∧ (fd ∉ k_open k) ∧ k_open k' = {[fd]} ∪ k_open k) ∨
  (fd = -1 ∧ k_open k' = k_open k).
Proof.
  unfold listen_on, setreuseaddr, setoption in Hrun. destruct (k_socket k) as [k1 fd1] eqn:E1.
  pose proof (setsockopt_open k1 fd1 (SO_REUSEADDR 1)) as E2.
  destruct (k_setsockopt k1 fd1 (SO_REUSEADDR 1)) as [k2 r2].
  pose proof (zio_listen_open fd1 0 port 1024 k2) as E3.
  destruct (zio_listen fd1 0 port 1024 k2) as [k3 r3]. simpl in *.
  assert (k_open k3 = k_open k1) as E31 by congruence.
  destruct (r3 <? 0) eqn:C.
  - right. unfold zio_close in Hrun. pose proof (close_open k3 fd1) as E4.
    destruct (fd1 =? -1) eqn:C1; bool_prop.
    + injection Hrun as <- <-. split; [done|].
      destruct (socket_open _ _ _ E1) as [[_ ?]|[? _]]; [congruence|lia].
    + destruct (k_close k3 fd1) as [k4 r4]. simpl in E4. injection Hrun as <- <-.
      split; [done|]. destruct (socket_open _ _ _ E1) as [[? _]|(_ & Hfd & E5)]; [done|].
      rewrite E4, E31, E5. apply set_eq. intros x. rewrite elem_of_difference, elem_of_union, elem_of_singleton.
      destruct (decide (x = fd1)); [subst|]; tauto.
  - injection Hrun as <- <-. rewrite E31. destruct (socket_open _ _ _ E1) as [[? ?]|?]; auto.
Qed.
End listen.

(** ** An executable blocking descriptor *)

(** The scripted answers first, then everything is taken. *)
Record bscript := BScript { b_script : script }.

Definition bscript_send (s : bscript) (bs : list Z) : bscript * send_ret :=
  match sc_out (b_script s) with
  | [] => (BScript (Script (sc_in (b_script s)) [] (sc_sent (b_script s) ++ bs)),
           SndOk (Z.of_nat (length bs)))
  | _ => let '(s', r) := script_send (b_script s) bs in (BScript s', r)
  end.

#[export] Instance bscript_socket : Socket bscript := {
  recv s n := let '(s', r) := recv (b_script s) n in (BScript s', r);
  send := bscript_send;
  stream s := stream (b_script s);
  sent s := sent (b_script s);
  pending s := pending (b_script s);
}.

#[export] Instance bscript_socket_laws : SocketLaws bscript.
Proof.
  split; simpl.
  - intros s n s' b bs. destruct (script_recv _ _) as [t r] eqn:E. intros [= <- ->]. 
    exact (recv_data (b_script s) n t b bs E).
  - intros s n s' Hn. destruct (script_recv _ _) as [t r] eqn:E. intros [= <- ->]. 
    exact (recv_eof (b_script s) n t Hn E).
  - intros s n s' e. destruct (script_recv _ _) as [t r] eqn:E. intros [= <- ->]. 
    exact (recv_err (b_script s) n t e E).
  - intros s bs s' n. unfold bscript_send. destruct (sc_out (b_script s)) as [|o os] eqn:Eo.
    + intros [= <- <-]. simpl. rewrite Nat2Z.id, firstn_all. split_and!; try done; lia.
    + destruct (script_send _ _) as [t r] eqn:E. intros [= <- ->]. 
      rewrite <- Eo. exact (send_ok (b_script s) bs t n E).
  - intros s bs s' e. unfold bscript_send. destruct (sc_out (b_script s)) as [|o os] eqn:Eo; [done|].
    destruct (script_send _ _) as [t r] eqn:E. intros [= <- ->]. 
    rewrite <- Eo. exact (send_err (b_script s) bs t e E).
  - intros s n s'. destruct (script_recv _ _) as [t r] eqn:E. intros [= <- ->].
    exact (recv_returns (b_script s) n t E).
  - intros s bs s'. unfold bscript_send. destruct (sc_out (b_script s)) as [|o os]; [done|].
    destruct (script_send _ _) as [t r] eqn:E.
    destruct (send_returns (b_script s) bs t) as [H1 H2].
    split; intros [= <- ->]; [by apply H1|by apply H2].
Qed.

Definition soft_answer (r : send_ret) : Prop :=
  match r with SndErr e => e = EAGAIN ∨ e = EINTR | SndOk _ => True | _ => False end.
Definition bscript_live (s : bscript) : Prop := Forall soft_answer (sc_out (b_script s)).

#[export] Instance bscript_live_send : LiveSend bscript bscript_live.
Proof.
  split; unfold bscript_live; cbn [send pending bscript_socket]; unfold bscript_send, script_send.
  - intros s bs Hl. destruct (sc_out (b_script s)) as [|[n|e| |] os]; [done|..];
      apply Forall_cons in Hl as [Ha Hl]; done.
  - intros s bs s' e Hl Hne. destruct (sc_out (b_script s)) as [|[n|e'| |] os] eqn:E; [done|done| |by apply Forall_cons in Hl as [[] _]..].
    apply Forall_cons in Hl as [Hc _]. intros [= <- <-]. split; [done|]. simpl. rewrite E. simpl. lia.
  - intros s bs s' Hl Hne. destruct (sc_out (b_script s)) as [|[n|e'| |] os] eqn:E; [| |done..].
    + intros [= <- ?]. by destruct bs.
    + intros [= <- _]. simpl. rewrite E. simpl. lia.
Qed.

(** ** Witnesses *)

Definition demo_conn : bscript :=
  BScript (Script [CData 1 [2]; CErr EAGAIN; CErr EINTR; CData 3 [4]]
             [SndOk 1; SndErr EAGAIN; SndOk 0; SndErr EINTR] []).

Lemma zio_writev_all_witness :
  ∃ s', zio_writev 30 [7; 8; 9] demo_conn =
      Ok (s', if decide ([7; 8; 9] = []) then -1 else Z.of_nat (length [7; 8; 9])) ∧
    sent s' = sent demo_conn ++ [7; 8; 9] ∧ stream s' = stream demo_conn.
Proof.
  apply (zio_writev_all (live := bscript_live) 30 [7; 8; 9] demo_conn).
  - repeat (apply Forall_cons; split; [simpl; by auto|]). by apply Forall_nil.
  - vm_compute. lia.
Defined.

Lemma zio_readv_all_witness :
  let s := b_script demo_conn in
  ∃ s', zio_readv 30 [0; 0; 0] s =
      Ok (s', take 3 (stream s), if decide ([0; 0; 0] = []) then -1 else 3) ∧
    stream s' = drop 3 (stream s) ∧ sent s' = sent s.
Proof.
  apply (zio_readv_all (live := script_live) 30 [0; 0; 0] (b_script demo_conn)).
  - repeat (apply Forall_cons; split; [simpl; by auto|]). by apply Forall_nil.
  - vm_compute. lia.
  - vm_compute. lia.
Defined.


(** A kernel that only keeps the set of open descriptors; port 80 is taken. *)
Definition fd_top (k : gset Z) : Z := set_fold Z.max 2 k.

#[export] Instance gset_kernel : Kernel (gset Z) := {
  k_socket k := let fd := fd_top k + 1 in ({[fd]} ∪ k, fd);
  k_close k fd := (k ∖ {[fd]}, 0);
  k_getfl k fd := 0;
  k_setfl k fd o := (k, 0);
  k_setsockopt k fd o := (k, if decide (fd ∈ k) then 0 else -1);
  k_bind k fd a := (k, if decide (fd ∈ k ∧ sin_port a ≠ htons 80) then 0 else -1);
  k_listen k fd n := (k, if decide (fd ∈ k) then 0 else -1);
  k_accept k fd := (k, inr EAGAIN);
  k_open k := k;
}.

Lemma fd_top_spec (k : gset Z) fd : fd ∈ k → fd <= fd_top k.
Proof.
  unfold fd_top. revert k fd.
  apply (set_fold_ind_L (λ r k, ∀ fd, fd ∈ k → fd <= r)); [set_solver|].
  intros x X r Hx IH fd [->%elem_of_singleton|Hfd]%elem_of_union; [lia|].
  specialize (IH fd Hfd). lia.
Qed.

Lemma fd_top_pos (k : gset Z) : 2 <= fd_top k.
Proof.
  unfold fd_top. apply (set_fold_ind_L (λ r k, 2 <= r)); [lia|]. intros. lia.
Qed.

#[export] Instance gset_kernel_laws : KernelLaws (gset Z).
Proof.
  split; simpl; [|done|done| |done].
  - intros k k' fd [= <- <-]. right. pose proof (fd_top_pos k). split_and!; [lia| |done].
    intros Hfd%fd_top_spec. lia.
  - intros k fd a. split; [done|]. case_decide as Hd; [|done]. intros _. apply Hd.
Qed.

Lemma listen_on_no_leak_witness :
  ∃ k' fd, listen_on 80 ({[3]} : gset Z) = (k', fd) ∧
    ((0 <= fd ∧ (fd ∉ ({[3]} : gset Z)) ∧ k_open k' = {[fd]} ∪ ({[3]} : gset Z)) ∨
     (fd = -1 ∧ k_open k' = {[3]})).
Proof.
  destruct (listen_on 80 ({[3]} : gset Z)) as [k' fd] eqn:E. exists k', fd. split; [reflexivity|].
  exact (listen_on_no_leak 80 ({[3]} : gset Z) k' fd E).
Defined.
