(* ===== verification/RequestProps.v ===== *)
(** * Reception of framed requests ([recv_request])

    A request on the wire is four length bytes in network order (the number of
    bytes that follow them), the offset [align_off] at which the part to be
    aligned starts, the alignment [align_bit], and the payload.  The theorems
    say that [recv_request] reassembles exactly one such frame from any byte
    stream that starts with it, and show what the header can make it do when
    the frame is not well formed. *)

From S2P Require Import Prelude ByteBuffer Socket NioAwaiter NioProps.

(** ** Frames *)

Definition frame_off (frame : list Z) : Z := nth 4 frame 0.
Definition frame_bit (frame : list Z) : Z := nth 5 frame 0.

(** The frames [recv_request] serves: the length field counts the bytes behind
    it, the frame fits an [int] and the buffer request is in range. *)
Definition frame_ok (frame : list Z) : Prop :=
  let n := Z.of_nat (length frame) in
  6 <= n < 2 ^ 31 ∧ be_combine 0 (take 4 frame) = n - 4 ∧
  0 <= frame_off frame < 2 ^ 8 ∧
  (frame_off frame = 0 ∧ request_ok n 6 0 ∨
   frame_off frame ≠ 0 ∧ frame_off frame <= n ∧
     request_ok (n - frame_off frame) (frame_bit frame) (frame_off frame)).

#[export] Instance frame_ok_dec frame : Decision (frame_ok frame).
Proof. unfold frame_ok. apply _. Defined.

(** What a sender puts on the wire. *)
Definition encode_frame (align_off align_bit : Z) (payload : list Z) : list Z :=
  be_split 4 (2 + Z.of_nat (length payload)) ++ [u8 align_off; u8 align_bit] ++ payload.

(** The bytes of the data window of a buffer. *)
Definition window (r : byte_buffer_impl * list Z) : list Z :=
  read_at r.2 (_data_begin r.1) (data_len r.1).

(** ** Memory *)

Section memory.
Context {M : Type} `{!Allocator M}.

(** The heap that [m] becomes. *)
Inductive heap_step : M → M → Prop :=
  | hs_alloc m a n : heap_step m (aligned_alloc m a n).1
  | hs_free m p : heap_step m (heap_free m p).

(** From [m] on no allocation fails.  The code does not look at what
    [aligned_alloc] returns: what it does otherwise is [out_of_memory_faults]. *)
Definition memory_suffices (m : M) : Prop :=
  ∀ m' a n, rtc heap_step m m' → 0 < a → (aligned_alloc m' a n).2 ≠ 0.

Lemma memory_suffices_step m m' : heap_step m m' → memory_suffices m → memory_suffices m'.
Proof. intros Hs Hm m2 a n H. apply Hm. by eapply rtc_l. Qed.

(** No null block, in the cache or to come. *)
Definition no_null (m : M) (p : buffer_pool) : Prop :=
  Forall (λ e, m_data e.2 ≠ 0) (_cache p) ∧ memory_suffices m.

Context `{!MultimapFind byte_buffer_data}.

Lemma malloc_nonnull (m m' : M) p p' b k h buf :
  0 <= k → no_null m p → malloc m p b k h = Ok (m', p', buf) →
  m_data (m_d buf) ≠ 0 ∧ no_null m' p'.
Proof.
  intros Hk [Hc Hm]. unfold malloc. destruct (k <? 32) eqn:Ck; [|done]. bool_prop.
  cbn [require mbind res_bind]. destruct (malloc_sizes b k h) as [hl bl].
  destruct (mm_find _ _) as [i|] eqn:Ef; cbn [mbind option_bind].
  - apply mm_find_Some in Ef as [d Hd]. rewrite Hd. simpl. intros [= <- <- <-]. simpl.
    split; [|split; [by apply Forall_delete|done]]. apply (Forall_lookup_1 _ _ _ _ Hc Hd).
  - pose proof (Hm m (u32 (Z.shiftl 1 k)) (u32 (bl + hl)) (rtc_refl _ _)) as Ht.
    pose proof (memory_suffices_step _ _ (hs_alloc m (u32 (Z.shiftl 1 k)) (u32 (bl + hl))) Hm) as Hs.
    destruct (aligned_alloc _ _ _) as [m1 ptr]. intros [= <- <- <-]. split; [|by split].
    apply Ht. rewrite align_bit_pow by lia. lia.
Qed.

Lemma release_nonnull m p b (m' : M) p' :
  byte_buffer_destroy m p b = Ok (m', p') → m_data (m_d b) ≠ 0 → no_null m p → no_null m' p'.
Proof.
  unfold byte_buffer_destroy, release. intros E Hb [Hc Hm]. destruct (m_pool b).
  - case_cond; res_inv; [|split; simplify_eq/=; [by constructor|done]].
    simplify_eq. split; [done|]. unfold c_free in *. repeat case_match; simplify_eq; [done|].
    by apply (memory_suffices_step m), Hm; constructor.
  - simplify_eq. by split.
Qed.
End memory.

Section request.
Context {S M : Type} `{!Socket S} `{!SocketLaws S} {live : S → Prop} `{!LiveSocket S live}.
Context `{!Allocator M} `{!AllocatorLaws M} `{!MultimapFind byte_buffer_data}.
Variable uninit : byte_buffer_impl → list Z.
Hypothesis Huninit : ∀ b, 0 <= capacity b → Z.of_nat (length (uninit b)) = capacity b.

(** [missing] is what a peer that closes early never sends: its stream,
    completed by [missing], is the frame followed by [tail]. *)
Variables (frame tail missing : list Z).
Let n := Z.of_nat (length frame).

(** Progress inside the frame: [got] has been read, [rest] is still on the wire. *)
Definition split_at (a : recv_request) (s : S) (got : list Z) : Prop :=
  ∃ rest, frame = got ++ rest ∧ stream s ++ missing = rest ++ tail ∧
    rq_recved_bytes a = Z.of_nat (length got).

Definition header_inv (a : recv_request) (s : S) : Prop :=
  ∃ got, split_at a s got ∧ Z.of_nat (length got) <= 6 ∧ length (rq_buf a) = 8%nat ∧
    take (length got) (rq_buf a) = got.

(** The fields the header loop leaves alone. *)
Definition same_request (a a' : recv_request) : Prop :=
  rq_cmd_len a' = rq_cmd_len a ∧ rq_request a' = rq_request a ∧
  rq_result a' = rq_result a ∧ rq_is_timeout a' = rq_is_timeout a.

Lemma split_rest a s got :
  split_at a s got → Z.of_nat (length got) < n → missing = [] → stream s ≠ [].
Proof.
  intros (rest & E & Es & _) Hlt -> Hs. rewrite Hs in Es. destruct rest; [|done].
  unfold n in Hlt. rewrite E, app_nil_r in Hlt. lia.
Qed.

Lemma split_step a s got a' s' bs :
  split_at a s got → received (live := live) s bs s' →
  Z.of_nat (length got) + Z.of_nat (length bs) <= n →
  rq_recved_bytes a' = rq_recved_bytes a + Z.of_nat (length bs) →
  split_at a' s' (got ++ bs).
Proof.
  intros (rest & E & Es & Hr) [Hst _ _] Hle Hr'. rewrite Hst, <- app_assoc in Es.
  assert (∃ rest', rest = bs ++ rest' ∧ stream s' ++ missing = rest' ++ tail) as (rest' & -> & Hs').
  { symmetry in Es. apply app_eq_inv in Es as [(k & -> & ->)|(k & -> & Hk)]; [by eauto|].
    destruct k as [|x k]; [exists []; by rewrite !app_nil_r|].
    unfold n in Hle. rewrite E, !length_app in Hle. simpl in Hle. lia. }
  exists rest'. rewrite E, app_assoc, length_app, Hr', Hr. split_and!; [done..|lia].
Qed.

Definition header_post (a : recv_request) (s : S) (a' : recv_request) (s' : S)
    (h : header_ret) : Prop :=
  same_request a a' ∧ header_inv a' s' ∧ (live s → live s') ∧
  match h with
  | HDone => rq_recved_bytes a' = 6 ∧ (pending s' ≤ pending s)%nat
  | HAgain => rq_recved_bytes a' < 6 ∧ stalled (live := live) s s'
  | HStop rc => -1 <= rc <= 0 ∧ (missing = [] → rc = -1 ∧ ¬ live s)
  end.

Lemma header_post_step a s bs a1 s1 a' s' h :
  same_request a a1 → received (live := live) s bs s1 → (pending s1 < pending s)%nat →
  header_post a1 s1 a' s' h → header_post a s a' s' h.
Proof.
  intros (? & ? & ? & ?) [_ _ Hl] Hp ((? & ? & ? & ?) & Hi & Hl' & Hh).
  split; [split_and!; congruence|]. split_and!; [done|auto|]. destruct h as [| |rc].
  - split; [apply Hh|]. destruct Hh; lia.
  - split; [apply Hh|]. eapply stalled_mono; [| |apply Hh]; [lia|done].
  - split; [apply Hh|]. intros Hm. destruct Hh as [_ Hh]. destruct (Hh Hm). auto.
Qed.

Lemma split_nil a s got s' :
  split_at a s got → received (live := live) s [] s' → split_at a s' got.
Proof. intros (rest & ? & Es & ?) [Hst _ _]. exists rest. simpl in Hst. by rewrite <- Hst. Qed.

Lemma header_loop_spec fuel a s :
  6 <= n → (pending s < fuel)%nat → header_inv a s →
  ∃ a' s' h, header_loop fuel a s = Ok (a', s', h) ∧ header_post a s a' s' h.
Proof.
  intros Hn. revert a s. induction fuel as [|fuel IH]; intros a s Hf Hinv; [lia|].
  pose proof Hinv as (got & Hsp & Hg & Hb & Hpre). pose proof Hsp as (rest & _ & _ & Hr).
  cbn [header_loop]. destruct (_ <? _) eqn:C; bool_prop.
  2:{ eexists _, _, HDone. split; [done|]. split_and!; [done..|lia|lia]. }
  pose proof (recv_cases (live := live) s (6 - rq_recved_bytes a) ltac:(lia)) as Hc.
  inversion Hc as [s1 b bs Hrec Hlen Hp|s1 Hrec He|s1 Hrec Hp|s1 Hrec Hst|s1 e N1 N2 Hrec He].
  - set (l := b :: bs) in *. rewrite Hr in *.
    destruct (write_at (rq_buf a) (Z.of_nat (length got)) l) as [buf|] eqn:Hw.
    2:{ by rewrite write_at_Ok in Hw by lia. }
    cbn [mbind res_bind]. set (a1 := rq_set_recved _ _ _).
    pose proof (write_at_extend (rq_buf a) 0 got l buf ltac:(lia) Hpre Hw) as [Hpre' _].
    destruct (IH a1 s1) as (a' & s' & h & E & Hh).
    { lia. }
    { exists (got ++ l). split_and!; [|rewrite length_app; lia| |done].
      - eapply split_step; [exact Hsp|exact Hrec|lia|].
        cbn [a1 rq_set_recved rq_recved_bytes]. rewrite i32_small by lia. lia.
      - by rewrite <- Hb, <- (write_at_length _ _ _ _ Hw). }
    exists a', s', h. split; [done|]. by eapply (header_post_step a s l a1 s1).
  - eexists _, _, (HStop 0). split; [done|]. split; [done|]. split; [|split; [apply Hrec|split; [lia|]]].
    + exists got. split_and!; [|done..]. by eapply split_nil.
    + intros Hm. exfalso. apply (split_rest _ _ _ Hsp); [lia|done|].
      by rewrite (received_stream _ _ _ Hrec), He.
  - destruct (IH a s1) as (a' & s' & h & E & Hh).
    { lia. }
    { exists got. split_and!; [|done..]. by eapply split_nil. }
    exists a', s', h. split; [done|]. by eapply (header_post_step a s [] a s1).
  - eexists _, _, HAgain. split; [done|]. split_and!; [done| |apply Hrec|done..].
    exists got. split_and!; [|done..]. by eapply split_nil.
  - rewrite (proj2 (Z.eqb_neq e EAGAIN)), (proj2 (Z.eqb_neq e EINTR)) by done.
    eexists _, _, (HStop (-1)). split; [done|]. split; [done|]. split; [|split; [apply Hrec|split; [lia|]]].
    + exists got. split_and!; [|done..]. by eapply split_nil.
    + intros Hm. split; [done|]. intros Hl. apply (split_rest _ _ _ Hsp); [lia|done|].
      by rewrite (received_stream _ _ _ Hrec), He.
Qed.

(** ** The buffer the header asks for *)

(** Offset and alignment that [header_done] uses. *)
Definition frame_request : Z * Z :=
  if frame_off frame =? 0 then (6, 0) else (frame_bit frame, frame_off frame).

Record body_inv (b : byte_buffer_impl) (a : recv_request) (s : S) : Prop := {
  bi_cmd_len : rq_cmd_len a = n;
  bi_recved : 6 <= rq_recved_bytes a;
  bi_data : m_data (m_d b) ≠ 0;
  bi_begin : 0 <= _data_begin b;
  bi_len : data_len b = n;
  bi_align : (2 ^ frame_request.1 | data b + frame_request.2);
  bi_mem : ∃ got mem, split_at a s got ∧ rq_request a = Some (b, mem) ∧
             _data_begin b + n <= Z.of_nat (length mem) ∧
             read_at mem (_data_begin b) (Z.of_nat (length got)) = got;
}.

(** Shape of the buffer [malloc] returns for the frame, with its window set. *)
Lemma frame_window d k h :
  request_ok (n - h) k h → h <= n → n < 2 ^ 32 → m_len d = total_of (n - h) k h →
  (2 ^ k | m_data d) →
  let b := new_byte_buffer_impl (header_of k h) d in
  let b' := set_data_offset (u32 (body_off b - h)) (u32 n) b in
  0 <= _data_begin b' ∧ _data_begin b' + n <= capacity b' ∧ data_len b' = n ∧
  (2 ^ k | data b' + h).
Proof.
  intros (Hk & Hb & Hh & Hh16 & Ht & _) Hle Hn Hlen Hdiv. simpl.
  unfold body_off, capacity, data_len, data. simpl. pose proof (header_of_nonneg k h).
  pose proof (body_of_ge k (n - h)). assert (h <= header_of k h) by (apply round_up_ge; lia).
  rewrite (u16_small (header_of k h)), (u32_small (header_of k h - h)), u16_small, u32_small
    by lia.
  unfold total_of in Hlen. split_and!; [lia..|].
  replace (m_data d + (header_of k h - h) + h) with (m_data d + header_of k h) by lia.
  by apply Z.divide_add_r, round_up_divide.
Qed.

(** What the caller's pointer held before, as an entry of [owned]. *)
Definition holds (r : option (byte_buffer_impl * list Z)) (owned : list byte_buffer_impl)
    (i : nat) : Prop :=
  match r with None => True | Some (b, _) => owned !! i = Some b end.
Definition remaining (r : option (byte_buffer_impl * list Z)) (owned : list byte_buffer_impl)
    (i : nat) : list byte_buffer_impl :=
  match r with None => owned | Some _ => delete i owned end.

Lemma reset_request_spec m p a b owned i :
  pool_inv (PoolSys m p (b :: owned)) → holds (rq_request a) owned i →
  ∃ m' p', reset_request m p a = Ok (m', p') ∧
    pool_inv (PoolSys m' p' (b :: remaining (rq_request a) owned i)).
Proof.
  intros Hinv Hh. unfold reset_request, holds, remaining in *.
  destruct (rq_request a) as [[b0 mem]|]; [|by eauto].
  by apply (release_inv (PoolSys m p (b :: owned)) (Datatypes.S i) b0).
Qed.

Lemma header_alloc m p owned k h :
  request_ok (n - h) k h → h <= n < 2 ^ 31 →
  pool_inv (PoolSys m p owned) → no_null m p →
  ∃ m' p' b0, let b := set_data_offset (u32 (body_off b0 - h)) (u32 n) b0 in
    malloc m p (u32 (n - h)) k h = Ok (m', p', b0) ∧ body_off b0 = header_of k h ∧
    pool_inv (PoolSys m' p' (b :: owned)) ∧ m_data (m_d b) ≠ 0 ∧
    0 <= _data_begin b ∧ _data_begin b + n <= capacity b ∧ data_len b = n ∧
    (2 ^ k | data b + h).
Proof.
  intros Hreq Hn Hinv Hnn. pose proof Hreq as (Hk & Hb & Hh & Hh16 & _).
  destruct (malloc_spec m p _ _ _ Hreq (inv_cache _ Hinv))
    as (m' & p' & d & E & (_ & _ & Hdiv & _) & Hlen & Hal & _ & _). rewrite Hal in Hdiv.
  eexists m', p', _. cbv zeta.
  rewrite (u32_small (n - h)) by lia. split; [exact E|].
  split; [apply u16_small; pose proof (header_of_nonneg k h); lia|].
  destruct (sys_step_inv _ (OpMalloc (n - h) k h) Hinv Hreq) as (s1 & E1 & I1).
  cbn [sys_step sys_mem sys_pool] in E1. rewrite E in E1. injection E1 as <-.
  destruct (sys_step_inv _
    (OpWindow 0 (u32 (body_off (new_byte_buffer_impl (header_of k h) d) - h)) (u32 n))
    I1 I) as (s2 & E2 & I2).
  cbn in E2. injection E2 as <-. split; [exact I2|].
  split; [by apply (malloc_nonnull _ _ _ _ _ _ _ _ (proj1 Hk) Hnn E)|].
  apply frame_window; [done|lia|lia|done..].
Qed.

Lemma frame_ok_request :
  frame_ok frame →
  request_ok (n - frame_request.2) frame_request.1 frame_request.2 ∧
  frame_request.2 <= n < 2 ^ 31 ∧ 6 <= n.
Proof.
  intros (Hn & _ & _ & Hf). fold n in Hn, Hf. unfold frame_request.
  destruct Hf as [[-> ?]|(? & ? & ?)]; simpl.
  - rewrite Z.sub_0_r. split_and!; [done|lia..].
  - rewrite (proj2 (Z.eqb_neq _ _)) by done. simpl. split_and!; [done|lia..].
Qed.

(** The six header bytes are those of the frame. *)
Lemma header_bytes a s :
  header_inv a s → rq_recved_bytes a = 6 →
  take 6 (rq_buf a) = take 6 frame ∧ split_at a s (take 6 frame) ∧ length (take 6 frame) = 6%nat.
Proof.
  intros (got & Hsp & _ & _ & Hpre) Hr. pose proof Hsp as (rest & E & _ & Hg).
  assert (length got = 6%nat) as Hl by lia. rewrite Hl in Hpre.
  assert (take 6 frame = got) as ->.
  { rewrite E, take_app_le by lia. by apply take_ge; lia. }
  auto.
Qed.

Lemma nth_take6 i (l : list Z) : (i < 6)%nat → nth i l 0 = nth i (take 6 l) 0.
Proof.
  intros Hi. rewrite !nth_lookup. by rewrite lookup_take_lt.
Qed.

Lemma header_fields a s :
  frame_ok frame → header_inv a s → rq_recved_bytes a = 6 →
  i32 (be_combine 0 (take 4 (rq_buf a))) = n - 4 ∧
  nth 4 (rq_buf a) 0 = frame_off frame ∧ nth 5 (rq_buf a) 0 = frame_bit frame.
Proof.
  intros (Hn & Hlen & _) Hi Hr. destruct (header_bytes a s Hi Hr) as (Ht & _ & _).
  fold n in Hn, Hlen. unfold frame_off, frame_bit.
  rewrite (nth_take6 4 (rq_buf a)), (nth_take6 4 frame), (nth_take6 5 (rq_buf a)),
    (nth_take6 5 frame), Ht by lia. split_and!; [|done..].
  replace (take 4 (rq_buf a)) with (take 4 (take 6 (rq_buf a))) by (by rewrite take_take).
  rewrite Ht, take_take. simpl Nat.min. rewrite Hlen. apply i32_small. lia.
Qed.

Lemma header_done_spec m p a s owned i :
  frame_ok frame → header_inv a s → rq_recved_bytes a = 6 →
  pool_inv (PoolSys m p owned) → no_null m p →
  holds (rq_request a) owned i →
  ∃ m' p' a' b, header_done uninit m p a = Ok (m', p', a') ∧ body_inv b a' s ∧
    rq_result a' = rq_result a ∧ rq_is_timeout a' = rq_is_timeout a ∧
    pool_inv (PoolSys m' p' (b :: remaining (rq_request a) owned i)) ∧
    (rq_request a = None → no_null m' p').
Proof.
  intros Hf Hi Hr Hinv Hnn Hh. pose proof Hf as (_ & _ & Hoff8 & _).
  destruct (header_fields a s Hf Hi Hr) as (Hc & H4 & H5).
  destruct (header_bytes a s Hi Hr) as (Ht6 & Hsp & Hl6).
  destruct (frame_ok_request Hf) as (Hreq & Hn & Hn6).
  destruct (header_alloc m p owned _ _ Hreq Hn Hinv Hnn)
    as (m1 & p1 & b0 & Em & Hoff & I1 & Hb1 & Hb2 & Hb3 & Hb4 & Hb5).
  set (b := set_data_offset _ _ _) in *.
  destruct (reset_request_spec m1 p1 a b owned i I1 Hh) as (m2 & p2 & Er & I2).
  assert (block_write b (uninit b) 0 (take 6 (rq_buf a)) = write_at (uninit b) (_data_begin b + 0) (take 6 frame)) as Ew.
  { unfold block_write. by rewrite (proj2 (Z.eqb_neq _ _)), Ht6. }
  destruct (write_at (uninit b) (_data_begin b + 0) (take 6 frame)) as [mem|] eqn:Hw.
  2:{ rewrite write_at_Ok in Hw; [done|lia|]. rewrite Huninit, Hl6; lia. }
  eexists m2, p2, _, b. split.
  { unfold header_done. rewrite Hc, H4, H5. cbv zeta.
    replace (n - 4 + 4) with n by lia. rewrite (proj2 (int_ok_spec n)) by lia.
    cbn [require mbind res_bind]. unfold frame_request in *.
    destruct (frame_off frame =? 0) eqn:C0; cbn [fst snd] in *.
    - rewrite Z.sub_0_r in Em. rewrite Em. cbn [mbind res_bind].
      assert (set_data_offset 0 (u32 n) b0 = b) as -> by (unfold b; by rewrite Hoff).
      rewrite Er. cbn [mbind res_bind]. by rewrite Ew.
    - rewrite (proj2 (int_ok_spec _)) by lia. cbn [require mbind res_bind].
      rewrite Em. cbn [mbind res_bind]. fold b. rewrite Er. cbn [mbind res_bind]. by rewrite Ew. }
  assert (rq_request a = None → no_null m2 p2) as Hnn2.
  { intros Hq. unfold reset_request in Er. rewrite Hq in Er. injection Er as <- <-.
    apply malloc_nonnull in Em as [_ ?]; [done| |done]. by destruct Hreq as [[? _] _]. }
  split_and!; [|done..]. split; [done|simpl; lia|done..|].
  exists (take 6 frame), mem. split_and!; [exact Hsp|done| |].
  - rewrite (write_at_length _ _ _ _ Hw), Huninit; lia.
  - rewrite Z.add_0_r in Hw. replace (_data_begin b) with (_data_begin b + Z.of_nat (length (@nil Z))) in Hw by (simpl; lia).
    unfold read_at. rewrite Nat2Z.id.
    by apply (write_at_extend (uninit b) (_data_begin b) [] (take 6 frame) mem).
Qed.

(** What happens otherwise: [malloc] hands out a buffer without looking at what
    [aligned_alloc] returned, and the header is copied to address 0. *)
Lemma malloc_out_of_memory m p b k h :
  0 <= k < 32 → _cache p = [] → (∀ al n, (aligned_alloc m al n).2 = 0) →
  ∃ m' buf, malloc m p b k h = Ok (m', p, buf) ∧ m_data (m_d buf) = 0.
Proof.
  intros Hk Hc Hm. unfold malloc. rewrite (proj2 (Z.ltb_lt k 32)) by lia.
  cbn [require mbind res_bind]. destruct (malloc_sizes b k h) as [hl bl]. rewrite Hc.
  destruct (mm_find _ []) as [j|] eqn:Ef; [by apply mm_find_Some in Ef as [? ?]|]. cbn [mbind option_bind].
  pose proof (Hm (u32 (Z.shiftl 1 k)) (u32 (bl + hl))) as H0.
  destruct (aligned_alloc _ _ _) as [m1 ptr]. simpl in H0. subst ptr. by eexists _, _.
Qed.

Lemma out_of_memory_faults m p a s :
  frame_ok frame → header_inv a s → rq_recved_bytes a = 6 → rq_request a = None →
  _cache p = [] → (∀ al n, (aligned_alloc m al n).2 = 0) →
  header_done uninit m p a = Fail NullDeref.
Proof.
  intros Hf Hi Hr Hq Hc Hm. pose proof Hf as (_ & _ & Hoff8 & _).
  destruct (header_fields a s Hf Hi Hr) as (Hcl & H4 & H5).
  destruct (frame_ok_request Hf) as (Hreq & Hn & Hn6).
  unfold header_done. rewrite Hcl, H4, H5. cbv zeta.
  replace (n - 4 + 4) with n by lia. rewrite (proj2 (int_ok_spec n)) by lia.
  cbn [require mbind res_bind]. unfold frame_request in *.
  assert (∀ buf, m_data (m_d buf) = 0 → ∀ pos len,
    block_write (set_data_offset pos len buf) (uninit (set_data_offset pos len buf)) 0 (take 6 (rq_buf a))
      = Fail NullDeref) as Hw.
  { intros buf H0 pos len. unfold block_write. simpl. by rewrite H0. }
  unfold reset_request. rewrite Hq. destruct (frame_off frame =? 0) eqn:C0; cbn [fst snd] in *.
  - destruct (malloc_out_of_memory m p (u32 n) 6 0) as (m' & buf & -> & H0); [lia|done..|].
    cbn [mbind res_bind]. by rewrite Hw.
  - rewrite (proj2 (int_ok_spec _)) by lia. cbn [require mbind res_bind].
    destruct (malloc_out_of_memory m p (u32 (n - frame_off frame)) (frame_bit frame) (frame_off frame))
      as (m' & buf & -> & H0); [apply Hreq|done..|].
    cbn [mbind res_bind]. by rewrite Hw.
Qed.

(** ** The body *)

Definition body_exit (a : recv_request) (s : S) (a' : recv_request) (s' : S) (o : outcome) : Prop :=
  match o with
  | Rearmed => rq_recved_bytes a' < n ∧ rq_result a' = rq_result a ∧ stalled (live := live) s s'
  | Resumed => rq_result a' = n ∧ rq_recved_bytes a' = n ∨
      rq_result a' <= 0 ∧ (missing = [] → rq_result a' = -1 ∧ ¬ live s)
  end.

Lemma body_exit_step a s bs a1 s1 a' s' o :
  rq_result a1 = rq_result a → received (live := live) s bs s1 → (pending s1 ≤ pending s)%nat →
  body_exit a1 s1 a' s' o → body_exit a s a' s' o.
Proof.
  intros Hres [_ _ Hl] Hp. unfold body_exit. rewrite Hres. destruct o.
  - intros (? & ? & ?). split_and!; [done..|]. by eapply stalled_mono.
  - intros [?|[? Hm]]; [by auto|]. right. split; [done|]. intros Hz. destruct (Hm Hz). auto.
Qed.

Lemma body_inv_nil b a s s' :
  body_inv b a s → received (live := live) s [] s' → body_inv b a s'.
Proof.
  intros [? ? ? ? ? ? (got & mem & Hsp & ?)] Hr. split; [done..|].
  exists got, mem. split; [by eapply split_nil|done].
Qed.

Lemma body_inv_result b a s v : body_inv b a s → body_inv b (rq_set_result v a) s.
Proof. intros []. by split. Qed.

(** One more piece of the body lands behind the part already there. *)
Lemma body_store b a s got mem bs s' :
  n < 2 ^ 31 → body_inv b a s → split_at a s got → rq_request a = Some (b, mem) →
  read_at mem (_data_begin b) (Z.of_nat (length got)) = got →
  _data_begin b + n <= Z.of_nat (length mem) →
  received (live := live) s bs s' → Z.of_nat (length got) + Z.of_nat (length bs) <= n →
  ∃ mem', block_write b mem (rq_recved_bytes a) bs = Ok mem' ∧
    body_inv b (RecvRequest (rq_is_timeout a) (i32 (rq_recved_bytes a + Z.of_nat (length bs)))
                  (rq_cmd_len a) (Some (b, mem')) (rq_buf a) (rq_result a)) s'.
Proof.
  intros Hn Hi Hsp Hreq Hread Hroom Hrec Hle. destruct Hi as [Hc H6 Hd Hb Hl Ha _].
  pose proof Hsp as (rest & _ & _ & Hr). unfold block_write.
  rewrite (proj2 (Z.eqb_neq _ _)) by done.
  destruct (write_at mem (_data_begin b + rq_recved_bytes a) bs) as [mem'|] eqn:Hw.
  2:{ rewrite write_at_Ok in Hw by lia. done. }
  exists mem'. split; [done|].
  split; [done|cbn [rq_recved_bytes]; rewrite i32_small; lia|done..|].
  exists (got ++ bs), mem'. split_and!; [|done| |].
  - eapply split_step; [exact Hsp|exact Hrec|lia|]. cbn [rq_recved_bytes].
    rewrite i32_small; lia.
  - by rewrite (write_at_length _ _ _ _ Hw).
  - rewrite Hr in Hw. unfold read_at in *. rewrite Nat2Z.id in *.
    by apply (write_at_extend mem (_data_begin b) got bs mem').
Qed.

Lemma body_loop_spec b fuel a s :
  n < 2 ^ 31 → (pending s < fuel)%nat → body_inv b a s →
  ∃ a' s' o, body_loop fuel a s = Ok (a', s', o) ∧ body_inv b a' s' ∧ (live s → live s') ∧
    rq_is_timeout a' = rq_is_timeout a ∧ body_exit a s a' s' o.
Proof.
  intros Hn. revert a s. induction fuel as [|fuel IH]; intros a s Hf Hi; [lia|].
  pose proof Hi as [Hc _ _ _ _ _ (got & mem & Hsp & Hreq & Hroom & Hread)].
  pose proof Hsp as (rest & Eg & Es & Hr). cbn [body_loop]. rewrite Hc.
  assert (Z.of_nat (length got) <= n) as Hgn by (unfold n; rewrite Eg, length_app; lia).
  destruct (_ <? _) eqn:C; bool_prop.
  2:{ eexists _, _, Resumed. split; [done|]. split_and!; [by apply body_inv_result|done..|].
      left. simpl. rewrite i32_small; lia. }
  assert (missing = [] → stream s ≠ []) as Hne by (intros; apply (split_rest _ _ _ Hsp); [lia|done]).
  pose proof (recv_cases (live := live) s (n - rq_recved_bytes a) ltac:(lia)) as Hcs.
  inversion Hcs as [s1 x bs Hrec Hlen Hp|s1 Hrec He|s1 Hrec Hp|s1 Hrec Hst|s1 e N1 N2 Hrec He].
  - set (l := x :: bs) in *. rewrite Hreq.
    destruct (body_store b a s got mem l s1 Hn Hi Hsp Hreq Hread Hroom Hrec)
      as (mem' & -> & Hi'); [lia|]. cbn [mbind res_bind]. rewrite Hc in Hi'.
    destruct (IH _ s1 ltac:(lia) Hi') as (a' & s' & o & E & I' & L' & T' & X').
    exists a', s', o. split; [done|]. split_and!; [done|intros; by apply L', Hrec|done|].
    eapply body_exit_step; [..|exact X']; [done|exact Hrec|lia].
  - eexists _, _, Resumed. split; [done|].
    split_and!; [eapply body_inv_result, body_inv_nil; done|apply Hrec|done|].
    right. split; [done|]. intros Hm. destruct (Hne Hm). by rewrite (received_stream _ _ _ Hrec), He.
  - destruct (IH a s1) as (a' & s' & o & E & I' & L' & T' & X');
      [lia|by eapply body_inv_nil|].
    exists a', s', o. split; [done|]. split_and!; [done|intros; by apply L', Hrec|done|].
    eapply body_exit_step; [..|exact X']; [done|exact Hrec|lia].
  - eexists _, _, Rearmed. split; [done|].
    split_and!; [by eapply body_inv_nil|apply Hrec|done..].
  - rewrite (proj2 (Z.eqb_neq e EAGAIN)), (proj2 (Z.eqb_neq e EINTR)) by done.
    eexists _, _, Resumed. split; [done|].
    split_and!; [eapply body_inv_result, body_inv_nil; done|apply Hrec|done|].
    right. split; [done|]. intros Hm. split; [done|]. intros Hl. destruct (Hne Hm).
    by rewrite (received_stream _ _ _ Hrec), He.
Qed.

(** ** All events of one wait *)

Section events.
Context (m0 : M) (p0 : buffer_pool) (owned : list byte_buffer_impl) (i : nat)
  (req0 : option (byte_buffer_impl * list Z)).
Hypothesis Hframe : frame_ok frame.
Hypothesis Hpool : pool_inv (PoolSys m0 p0 owned).
Hypothesis Hcache : no_null m0 p0.
Hypothesis Hheld : holds req0 owned i.

(** The new buffer is owned in place of the old one; the cache still holds
    proper blocks when no old buffer went back to it. *)
Definition pool_good (m : M) (p : buffer_pool) (b : byte_buffer_impl) : Prop :=
  pool_inv (PoolSys m p (b :: remaining req0 owned i)) ∧
  (req0 = None → no_null m p).

(** Before the header is complete nothing is allocated; afterwards the
    caller's pointer owns the new buffer in place of the old one. *)
Definition rq_inv (m : M) (p : buffer_pool) (a : recv_request) (s : S) : Prop :=
  (header_inv a s ∧ rq_recved_bytes a < 6 ∧ m = m0 ∧ p = p0 ∧ rq_request a = req0) ∨
  (∃ b, body_inv b a s ∧ pool_good m p b).

(** What the caller's pointer owns when the wait is given up. *)
Definition rq_owns (m : M) (p : buffer_pool) (a : recv_request) : Prop :=
  (m = m0 ∧ p = p0 ∧ rq_request a = req0) ∨
  (∃ b mem, rq_request a = Some (b, mem) ∧ pool_good m p b ∧ m_data (m_d b) ≠ 0).

Lemma body_owns b m p a s :
  body_inv b a s → pool_good m p b → rq_owns m p a.
Proof. intros [_ _ Hd _ _ _ (got & mem & _ & Hq & _)] Hp. right. eauto. Qed.

Lemma rq_inv_owns m p a s : rq_inv m p a s → rq_owns m p a.
Proof. intros [(_ & _ & ? & ? & ?)|(b & Hb & Hp)]; [by left|by eapply body_owns]. Qed.

Definition rq_exit (m : M) (p : buffer_pool) (a : recv_request) (s : S)
    (a' : recv_request) (s' : S) (o : outcome) : Prop :=
  match o with
  | Rearmed => rq_inv m p a' s' ∧ rq_recved_bytes a' < n ∧ rq_result a' = rq_result a ∧
      stalled (live := live) s s'
  | Resumed =>
      (∃ b, body_inv b a' s' ∧ pool_good m p b ∧
         rq_result a' = n ∧ rq_recved_bytes a' = n) ∨
      rq_result a' <= 0 ∧ (missing = [] → rq_result a' = -1 ∧ ¬ live s) ∧ rq_owns m p a'
  end.

Lemma body_phase b m p a s :
  body_inv b a s → pool_good m p b →
  ∃ a' s' o, body_loop (Datatypes.S (pending s)) a s = Ok (a', s', o) ∧ (live s → live s') ∧
    rq_exit m p a s a' s' o.
Proof.
  intros Hi Hp. pose proof Hframe as (Hn & _). fold n in Hn.
  destruct (body_loop_spec b (Datatypes.S (pending s)) a s)
    as (a' & s' & o & E & I' & L' & _ & X); [lia|lia|done|].
  exists a', s', o. split; [done|]. split; [done|]. destruct o; simpl in *.
  - split; [|done]. right. eauto.
  - destruct X as [[? ?]|[? ?]]; [by eauto 10|]. right. split_and!; [done|done|]. by eapply body_owns.
Qed.

Lemma on_file_event_spec ev m p a s :
  0 < ev → rq_inv m p a s →
  ∃ m' p' a' s' o, recv_request_on_file_event uninit ev m p a s = Ok (m', p', a', s', o) ∧
    (live s → live s') ∧ rq_exit m' p' a s a' s' o.
Proof.
  intros Hev Hi. unfold recv_request_on_file_event. rewrite (proj2 (Z.leb_gt ev 0)) by lia.
  destruct (frame_ok_request Hframe) as (_ & Hn & Hn6).
  destruct Hi as [(Hh & H6 & -> & -> & Hreq)|(b & Hb & Hp)].
  2:{ rewrite (proj2 (Z.ltb_ge _ 6)) by apply Hb.
      destruct (body_phase b m p a s Hb Hp) as (a' & s' & o & -> & L' & X).
      by eexists _, _, _, _, _. }
  rewrite (proj2 (Z.ltb_lt _ 6)) by done.
  destruct (header_loop_spec (Datatypes.S (pending s)) a s)
    as (a1 & s1 & h & -> & Hsame & Hh1 & L1 & X1); [lia|lia|done|].
  destruct Hsame as (_ & Hq & Hres & _). cbn [mbind res_bind]. destruct h as [| |rc].
  - destruct X1 as [X1 P1].
    destruct (header_done_spec m0 p0 a1 s1 owned i) as (m' & p' & a2 & b & -> & Hb & R2 & _ & I2);
      [done..|by rewrite Hq, Hreq|]. rewrite Hq, Hreq in I2. fold (pool_good m' p' b) in I2.
    cbn [mbind res_bind]. destruct (body_phase b m' p' a2 s1 Hb I2) as (a' & s' & o & -> & L' & X).
    eexists _, _, _, _, _. split; [done|]. split; [auto|]. destruct o; simpl in *.
    + destruct X as (? & ? & ? & ?). split_and!; [done..|congruence|]. by eapply stalled_mono.
    + destruct X as [?|(? & Hm & ?)]; [by left|]. right. split_and!; [done| |done].
      intros Hz. destruct (Hm Hz). auto.
  - destruct X1 as [X1 X2]. eexists _, _, _, _, Rearmed. split; [done|]. split; [done|].
    split_and!; [|lia|done..]. left. split_and!; [done..|congruence].
  - destruct X1 as [Hrc X1]. eexists _, _, _, _, Resumed. split; [done|]. split; [done|].
    right. cbn [rq_result rq_set_result]. rewrite i32_small by lia.
    split_and!; [lia|done|]. left. by rewrite <- Hreq, <- Hq.
Qed.

Lemma recv_request_events_spec evs m p a s :
  Forall (λ ev, 0 < ev) evs → rq_inv m p a s → rq_recved_bytes a < n →
  ∃ m' p' a' s' o, recv_request_events uninit evs m p a s = Ok (m', p', a', s', o) ∧
    match o with
    | Rearmed => rq_inv m' p' a' s' ∧ rq_recved_bytes a' < n ∧ rq_result a' = rq_result a ∧
        (live s → missing = [] → length evs + pending s' ≤ pending s)%nat
    | Resumed => rq_exit m' p' a s a' s' Resumed
    end.
Proof.
  intros Hev. revert m p a s. induction Hev as [|ev evs Hev _ IH]; intros m p a s Hi Hr.
  { eexists _, _, _, _, Rearmed. by split_and!. }
  cbn [recv_request_events].
  destruct (on_file_event_spec ev m p a s Hev Hi) as (m1 & p1 & a1 & s1 & o & -> & L1 & X1).
  cbn [mbind res_bind]. destruct o; [|by eexists _, _, _, _, Resumed].
  destruct X1 as (I1 & R1 & V1 & S1).
  assert (missing = [] → stream s1 ≠ []) as Hne.
  { intros Hm. destruct I1 as [((got & Hsp & _) & _)|(b & [? ? ? ? ? ? (got & mem & Hsp & _)] & _)];
      (apply (split_rest _ _ _ Hsp); [by destruct Hsp as (? & _ & _ & <-)|done]). }
  destruct (IH m1 p1 a1 s1 I1 R1) as (m2 & p2 & a2 & s2 & o & -> & X2).
  exists m2, p2, a2, s2, o. split; [done|]. destruct o.
  - destruct X2 as (I2 & R2 & V2 & S2). split_and!; [done..|congruence|].
    intros Hl Hm. specialize (S2 (L1 Hl) Hm). specialize (S1 Hl (Hne Hm)). simpl. lia.
  - destruct X2 as [?|(? & Hm & ?)]; [by left|]. right. split_and!; [done| |done].
    intros Hz. destruct (Hm Hz). auto.
Qed.
End events.
End request.

(** ** Encoding *)

Lemma encode_frame_length off bit payload :
  length (encode_frame off bit payload) = (6 + length payload)%nat.
Proof. unfold encode_frame. rewrite length_app, be_split_length. simpl. lia. Qed.

(** The header a sender writes is accepted when the frame fits. *)
Lemma encode_frame_ok off bit payload :
  let n := 6 + Z.of_nat (length payload) in
  n < 2 ^ 31 → 0 <= off < 2 ^ 8 → 0 <= bit < 2 ^ 8 →
  (off = 0 ∧ request_ok n 6 0 ∨ off ≠ 0 ∧ off <= n ∧ request_ok (n - off) bit off) →
  frame_ok (encode_frame off bit payload).
Proof.
  intros n Hn Hoff Hbit Hreq. unfold frame_ok. rewrite encode_frame_length.
  replace (Z.of_nat (6 + length payload)) with n by lia.
  assert (frame_off (encode_frame off bit payload) = off) as -> by (by apply u8_small).
  assert (frame_bit (encode_frame off bit payload) = bit) as -> by (by apply u8_small).
  split_and!; try lia; [|done].
  unfold encode_frame. rewrite take_app_le by (by rewrite be_split_length).
  rewrite take_ge by (by rewrite be_split_length).
  rewrite be_combine_split. rewrite Z.mod_small; lia.
Qed.

(** ** Properties *)

(** The readiness events before the first error event. *)
Lemma events_split (evs : list Z) :
  ∃ good bad, evs = good ++ bad ∧ Forall (λ ev, 0 < ev) good ∧ match bad with [] => True | ev :: _ => ev <= 0 end.
Proof.
  induction evs as [|ev evs (good & bad & -> & Hg & Hb)]; [by exists [], []|].
  destruct (decide (0 < ev)) as [H|H].
  - exists (ev :: good), bad. by split_and!; [|constructor|].
  - exists [], (ev :: good ++ bad). split_and!; [done..|]. simpl. lia.
Qed.

Section properties.
Context {S M : Type} `{!Socket S} `{!SocketLaws S}.
Context `{!Allocator M} `{!AllocatorLaws M}.
Context `{!MultimapFind byte_buffer_data}.
Variable uninit : byte_buffer_impl → list Z.
Hypothesis Huninit : ∀ b, 0 <= capacity b → Z.of_nat (length (uninit b)) = capacity b.

Lemma rq_inv_start frame tail missing (m : M) p owned i req0 buf0 (s : S) :
  stream s ++ missing = frame ++ tail → length buf0 = 8%nat →
  rq_inv frame tail missing m p owned i req0 m p (new_recv_request req0 buf0) s.
Proof.
  intros Hs Hb. left. split_and!; [|simpl; lia|done..].
  exists []. split_and!; [by exists frame|simpl; lia|done|done].
Qed.

(** A complete body is the frame, at the alignment the header asked for. *)
Lemma body_inv_complete frame tail missing b a (s : S) :
  body_inv frame tail missing b a s → rq_recved_bytes a = Z.of_nat (length frame) →
  stream s ++ missing = tail ∧ ∃ mem, rq_request a = Some (b, mem) ∧ window (b, mem) = frame ∧
    (2 ^ (frame_request frame).1 | data b + (frame_request frame).2).
Proof.
  intros [_ _ _ _ Hl Ha (got & mem & (rest & E & Es & Hr) & Hq & _ & Hread)] Hn.
  rewrite Hr in Hn. assert (rest = []) as ->.
  { apply (f_equal length) in E. rewrite length_app in E. destruct rest; [done|]. simpl in E. lia. }
  rewrite app_nil_r in E. subst got. split; [done|]. exists mem. split; [done|].
  unfold window. simpl. by rewrite Hl.
Qed.

(** The events of one wait, in two parts. *)
Lemma recv_request_events_app evs1 evs2 (m : M) p a (s : S) :
  recv_request_events uninit (evs1 ++ evs2) m p a s =
  '(m, p, a, s, o) ← recv_request_events uninit evs1 m p a s;
  match o with
  | Rearmed => recv_request_events uninit evs2 m p a s
  | Resumed => Ok (m, p, a, s, Resumed)
  end.
Proof.
  revert m p a s. induction evs1 as [|ev evs1 IH]; intros m p a s; [done|].
  cbn [recv_request_events app]. destruct (recv_request_on_file_event _ _ _ _ _ _)
    as [[[[[m1 p1] a1] s1] o1]|f]; [|done]. cbn [mbind res_bind]. destruct o1; [apply IH|done].
Qed.

(** C7. [recv_request] on a stream that starts with a well-formed frame, for
    any way the kernel cuts the stream into pieces and interrupts the calls, any
    events the loop reports, any contents of the pool and any request the caller's
    pointer still held; every [recv] returns and no allocation fails.  There is no
    fault (every store lies inside the new block, the old buffer is released
    validly, no loop runs on).  If the coroutine is resumed it is with the length
    of the frame, the buffer's data window is exactly the frame, the byte the
    header marks sits at a multiple of [1 << align_bit], the bytes behind the
    frame are still on the stream and the pool's ownership invariant holds; or
    with -1, and then the loop has reported an error or the socket has had a hard
    one.  On a connection without hard errors, with more readiness events than the
    kernel has interruptions in store, it is resumed. *)
Theorem recv_request_frame {live : S → Prop} `{!LiveSocket S live}
  (frame tail : list Z) (m : M) (p : buffer_pool)
  (owned : list byte_buffer_impl) (i : nat) (req0 : option (byte_buffer_impl * list Z))
  (buf0 : list Z) (s : S) (evs : list Z)
  (Hframe : frame_ok frame) (Hstream : stream s = frame ++ tail) (Hbuf : length buf0 = 8%nat)
  (Hpool : pool_inv (PoolSys m p owned)) (Hcache : no_null m p)
  (Hheld : holds req0 owned i) :
  ∃ m' p' a' s' o,
    recv_request_events uninit evs m p (new_recv_request req0 buf0) s = Ok (m', p', a', s', o) ∧
    (o = Resumed →
      (rq_result a' = Z.of_nat (length frame) ∧ stream s' = tail ∧
       ∃ b mem, rq_request a' = Some (b, mem) ∧ window (b, mem) = frame ∧
         (2 ^ (frame_request frame).1 | data b + (frame_request frame).2) ∧
         pool_inv (PoolSys m' p' (b :: remaining req0 owned i))) ∨
      rq_result a' = -1 ∧ (Exists (λ ev, ev <= 0) evs ∨ ¬ live s)) ∧
    (live s → Forall (λ ev, 0 < ev) evs → (pending s < length evs)%nat → o = Resumed).
Proof.
  destruct (events_split evs) as (good & bad & -> & Hgood & Hbad).
  destruct (recv_request_events_spec (live := live) uninit Huninit frame tail []
    m p owned i req0 Hframe Hpool Hcache Hheld good m p (new_recv_request req0 buf0) s Hgood)
    as (m' & p' & a' & s' & o & E & X).
  { apply rq_inv_start; [by rewrite app_nil_r|done]. }
  { destruct Hframe as (? & _). simpl. lia. }
  rewrite recv_request_events_app, E. cbn [mbind res_bind]. destruct o.
  - destruct X as (_ & _ & Hr & X). destruct bad as [|ev bad].
    + exists m', p', a', s', Rearmed. split; [done|]. split; [done|]. rewrite app_nil_r.
      intros Hl _ Hm. specialize (X Hl eq_refl). lia.
    + cbn [recv_request_events]. unfold recv_request_on_file_event.
      rewrite (proj2 (Z.leb_le ev 0)) by done. cbn [mbind res_bind].
      exists m', p', a', s', Resumed. split; [done|]. split; [|done]. intros _. right. split; [done|].
      left. apply Exists_app. right. by left.
  - exists m', p', a', s', Resumed. split; [done|]. split; [|done]. intros _.
    destruct X as [(b & Hb & [Hp _] & Hres & Hn)|(_ & Hm & _)]; [left|right].
    + destruct (body_inv_complete _ _ _ _ _ _ Hb Hn) as (Hs & mem & ? & ? & ?).
      rewrite app_nil_r in Hs. eauto 10.
    + destruct (Hm eq_refl). auto.
Qed.

(** *** Headers [recv_request] does not survive *)

(** A request of [n] bytes, for small negative [n] and 0, is rounded to nothing. *)
Lemma malloc_sizes_nothing n : -1023 <= n <= 0 → malloc_sizes (u32 n) 6 0 = (0, 0).
Proof.
  intros Hn. replace n with (- Z.of_nat (Z.to_nat (- n))) by lia.
  set (f := λ k, bool_decide (malloc_sizes (u32 (- Z.of_nat k)) 6 0 = (0, 0))).
  assert (f (Z.to_nat (- n)) = true) as H by (apply (seq_forallb f 1024); [by vm_compute|lia]).
  exact (bool_decide_eq_true_1 _ H).
Qed.

Lemma request_small n : 1 <= n <= 5 → request_ok n 6 0 ∧ total_of n 6 0 = 1024.
Proof.
  intros Hn. replace n with (Z.of_nat (Z.to_nat (n - 1)) + 1) by lia.
  set (f := λ k, bool_decide (request_ok (Z.of_nat k + 1) 6 0 ∧ total_of (Z.of_nat k + 1) 6 0 = 1024)).
  assert (f (Z.to_nat (n - 1)) = true) as H by (apply (seq_forallb f 5); [by vm_compute|lia]).
  exact (bool_decide_eq_true_1 _ H).
Qed.

Lemma malloc_nothing (m : M) p owned n :
  pool_inv (PoolSys m p owned) → no_null m p → -1023 <= n <= 0 →
  ∃ m' p' b, malloc m p (u32 n) 6 0 = Ok (m', p', b) ∧ m_data (m_d b) ≠ 0 ∧ capacity b = 0.
Proof.
  intros Hp Hnn Hn.
  assert (∃ m' p' b, malloc m p (u32 n) 6 0 = Ok (m', p', b) ∧ capacity b = 0) as (m' & p' & b & E & Hc).
  { unfold malloc. rewrite malloc_sizes_nothing by done. change (6 <? 32) with true. cbn [require mbind res_bind].
    destruct (mm_find _ _) as [j|] eqn:Ef; cbn [mbind option_bind].
    - apply mm_find_Some in Ef as [d Hd]. rewrite Hd. simpl. eexists _, _, _. split; [done|].
      pose proof (Forall_lookup_1 _ _ _ _ (inv_cache _ Hp) Hd) as [Hk Hdo]. simpl in Hk.
      apply (key_inj d 0 6 Hdo); [lia|lia|apply Z.divide_0_r|]. by rewrite <- Hk.
    - destruct (aligned_alloc _ _ _) as [m1 ptr]. by eexists _, _, _. }
  exists m', p', b. split; [done|]. split; [|done].
  assert (0 <= 6) as H6 by lia. apply (malloc_nonnull _ _ _ _ _ _ _ _ H6 Hnn E).
Qed.

End properties.

(** ** An executable heap *)

Lemma gmap_memory_suffices (m : gmap Z Z) : memory_suffices m.
Proof.
  intros m' a n _ Ha. cbn [aligned_alloc gmap_allocator snd].
  pose proof (round_up_ge (heap_top m' + 1) a Ha). destruct (heap_top_spec m'). lia.
Qed.
Lemma demo_no_null (m : gmap Z Z) limit : no_null m (new_inst limit).
Proof. split; [constructor|apply gmap_memory_suffices]. Qed.

Definition zero_block (b : byte_buffer_impl) : list Z := replicate (Z.to_nat (capacity b)) 0.

Lemma zero_block_length b : 0 <= capacity b → Z.of_nat (length (zero_block b)) = capacity b.
Proof. intros. unfold zero_block. rewrite length_replicate. lia. Qed.

(** ** Witnesses *)

(** A frame of nine bytes whose part from offset 2 on is to be 16-byte aligned,
    arriving in four pieces with a stall and an interruption, the first byte of
    the next frame behind it. *)
Definition demo_frame : list Z := encode_frame 2 4 [10; 20; 30].
Definition demo_request : script :=
  Script [CData 0 [0]; CErr EAGAIN; CData 0 [5; 2]; CErr EINTR; CData 4 [10; 20]; CErr EAGAIN;
          CData 30 [0]] [] [].

Lemma demo_frame_ok : frame_ok demo_frame.
Proof. apply (bool_decide_unpack _). vm_compute. exact I. Qed.

Lemma recv_request_frame_witness :
  ∃ m' p' a' s' o,
    recv_request_events zero_block (replicate 30 1) (∅ : gmap Z Z) (new_inst 1000)
      (new_recv_request None (replicate 8 0)) demo_request = Ok (m', p', a', s', o) ∧
    (o = Resumed →
      (rq_result a' = 9 ∧ stream s' = [0] ∧
       ∃ b mem, rq_request a' = Some (b, mem) ∧ window (b, mem) = demo_frame ∧
         (2 ^ (frame_request demo_frame).1 | data b + (frame_request demo_frame).2) ∧
         pool_inv (PoolSys m' p' (b :: []))) ∨
      rq_result a' = -1 ∧ (Exists (λ ev, ev <= 0) (replicate 30 1) ∨ ¬ script_live demo_request)) ∧
    (script_live demo_request → Forall (λ ev, 0 < ev) (replicate 30 1) →
      (pending demo_request < length (replicate 30 1))%nat → o = Resumed).
Proof.
  apply (recv_request_frame (live := script_live) zero_block zero_block_length demo_frame [0] ∅ (new_inst 1000) [] 0 None
    (replicate 8 0) demo_request (replicate 30 1)).
  - exact demo_frame_ok.
  - reflexivity.
  - reflexivity.
  - by apply pool_inv_init.
  - by apply demo_no_null.
  - exact I.
Defined.

(** The run itself. *)
Example demo_request_run :
  (λ '(_, _, a, s, o), (rq_result a, window <$> rq_request a, stream s, o)) <$>
    recv_request_events zero_block [1; 1; 1] (∅ : gmap Z Z) (new_inst 1000)
      (new_recv_request None (replicate 8 0)) demo_request
  = Ok (9, Some demo_frame, [0], Resumed).
Proof. by vm_compute. Qed.


(** The six bytes of a header that announces the length [len]. *)
Definition demo_header (len : Z) : recv_request :=
  RecvRequest 0 6 0 None (be_split 4 (u32 len) ++ [0; 0; 0; 0]) (-1).

