(* ===== verification/Request2Props.v ===== *)
(** * Reception of framed requests by the coroutine [recv_request2]

    The second reader of the same wire format, written as a coroutine over two
    [recv_lazy] waits. *)

From S2P Require Import Prelude ByteBuffer Socket NioAwaiter NioProps RequestProps.

(** An alignment of 0 stands for the default. *)
Definition frame_bit2 (frame : list Z) : Z :=
  if frame_bit frame =? 0 then 6 else frame_bit frame.

Definition frame2_ok (frame : list Z) : Prop :=
  let n := Z.of_nat (length frame) in
  6 <= n < 2 ^ 31 ∧ be_combine 0 (take 4 frame) = n - 4 ∧
  0 <= frame_off frame < 2 ^ 8 ∧
  (frame_off frame = 0 ∧ request_ok n 6 0 ∨
   frame_off frame ≠ 0 ∧ frame_off frame <= n ∧
     request_ok (n - frame_off frame) (frame_bit2 frame) (frame_off frame)).

#[export] Instance frame2_ok_dec frame : Decision (frame2_ok frame).
Proof. unfold frame2_ok. apply _. Defined.

Section request2.
Context {S M : Type} `{!Socket S} `{!SocketLaws S}.
Context `{!Allocator M} `{!AllocatorLaws M}.
Context `{!MultimapFind byte_buffer_data}.
Variable uninit : byte_buffer_impl → list Z.
Hypothesis Huninit : ∀ b, 0 <= capacity b → Z.of_nat (length (uninit b)) = capacity b.

Variables (frame tail : list Z).
#[local] Abbreviation n := (Z.of_nat (length frame)).

(** A [recv_lazy] wait on a stream that still holds the bytes it wants ends
    with all of them or with a socket error. *)
Lemma recv_lazy_wait evs buf (s : S) want rest :
  Forall (λ ev, 0 < ev) evs → stream s = want ++ rest → length want = length buf →
  Z.of_nat (length buf) < 2 ^ 31 →
  ∃ a' s' o, recv_lazy_events evs (new_recv_lazy buf) s = Ok (a', s', o) ∧
    length (rl_buff a') = length buf ∧
    (o = Resumed → rl_result a' = Z.of_nat (length buf) ∧ rl_buff a' = want ∧ stream s' = rest ∨
                   rl_result a' = -1 ∧ want ≠ []).
Proof.
  intros Hev Hs Hw Hb.
  destruct (recv_lazy_events_spec (live := λ _, False) evs (new_recv_lazy buf) s)
    as (a' & s' & o & bs & E & [[P1 _ _] _ P3 P4 _ P6 _] & X);
    [done..|unfold rl_size; simpl; lia|done|].
  exists a', s', o. split; [done|]. split; [done|]. intros ->. unfold rl_exit, rl_size in X.
  simpl in *. destruct X as [[Hres Hk]|[Hlt [[_ Hnil]|[Hm _]]]].
  - left. rewrite Hk, Nat2Z.id, <- P3, firstn_all in P6.
    rewrite Hs in P1. apply app_inj_1 in P1 as [-> ->]; [|lia]. auto.
  - exfalso. rewrite Hnil, app_nil_r in P1. apply (f_equal length) in P1.
    rewrite Hs, length_app in P1. lia.
  - right. split; [done|]. intros ->. simpl in *. lia.
Qed.

Lemma request2_buffer_spec (m : M) p owned :
  frame2_ok frame → pool_inv (PoolSys m p owned) → no_null m p →
  ∃ m' p' b, request2_buffer m p (take 6 frame) = Ok (m', p', b) ∧
    pool_inv (PoolSys m' p' (b :: owned)) ∧ m_data (m_d b) ≠ 0 ∧
    0 <= _data_begin b ∧ _data_begin b + n <= capacity b ∧ data_len b = n.
Proof.
  intros (Hn & Hlen & Hoff & Hreq) Hinv Hnn.
  unfold request2_buffer. rewrite take_take. simpl Nat.min. rewrite Hlen.
  rewrite <- (nth_take6 4 frame), <- (nth_take6 5 frame) by lia.
  fold (frame_off frame) (frame_bit frame) (frame_bit2 frame).
  replace (n - 4 + 4) with n by lia. destruct Hreq as [[-> Hreq]|(Hne & Hle & Hreq)].
  - destruct (header_alloc frame m p owned 6 0)
      as (m' & p' & b0 & Em & Hbo & I1 & Hb1 & Hb2 & Hb3 & Hb4 & _);
      [by rewrite Z.sub_0_r|lia|done|done|].
    cbv zeta in *. rewrite Z.sub_0_r in Em. simpl. rewrite Em. cbn [mbind res_bind].
    eexists m', p', _. split; [done|]. by rewrite Hbo in *.
  - rewrite (proj2 (Z.eqb_neq _ _)) by done.
    destruct (header_alloc frame m p owned (frame_bit2 frame) (frame_off frame))
      as (m' & p' & b0 & Em & Hbo & I1 & Hb1 & Hb2 & Hb3 & Hb4 & _);
      [done|lia|done|done|].
    cbv zeta in *. rewrite Em. cbn [mbind res_bind]. by eexists m', p', _.
Qed.

Lemma request2_header_frame :
  (6 ≤ length frame)%nat →
  request2_header (take 6 frame) ++ drop 6 frame = request2_header frame ∧
  length (request2_header (take 6 frame)) = 6%nat.
Proof.
  intros Hl. unfold request2_header. rewrite <- (nth_take6 5 frame) by lia.
  destruct (_ =? 0).
  - rewrite <- (take_drop 6 frame) at 3. rewrite length_insert, length_take.
    split; [|lia]. rewrite insert_app_l by (rewrite length_take; lia). done.
  - rewrite take_drop, length_take. split; [done|lia].
Qed.

(** The two stores build the window: header first, then the bytes behind it. *)
Lemma request2_store mem start hd mem1 d mem2 :
  0 <= start → length hd = 6%nat →
  write_at mem start hd = Ok mem1 → write_at mem1 (start + 6) d = Ok mem2 →
  read_at mem2 start (Z.of_nat (6 + length d)) = hd ++ d ∧ length mem2 = length mem.
Proof.
  intros H0 Hl W1 W2.
  assert (write_at mem (start + Z.of_nat (length (@nil Z))) hd = Ok mem1) as W1'
    by (by rewrite Z.add_0_r).
  destruct (write_at_extend mem start [] hd mem1 H0 eq_refl W1') as [R1 _]. simpl in R1.
  replace (start + 6) with (start + Z.of_nat (length hd)) in W2 by lia.
  destruct (write_at_extend mem1 start hd d mem2 H0 R1 W2) as [R2 _].
  unfold read_at. rewrite Nat2Z.id. rewrite length_app, Hl in R2. rewrite R2.
  split; [done|]. by rewrite (write_at_length _ _ _ _ W2), (write_at_length _ _ _ _ W1).
Qed.

Lemma read_at_length (l : list Z) start len :
  0 <= start → 0 <= len → start + len <= Z.of_nat (length l) →
  Z.of_nat (length (read_at l start len)) = len.
Proof. intros. unfold read_at. rewrite length_take, length_drop. lia. Qed.

(** The second half: the buffer is allocated, the header copied, the payload
    awaited. *)
Definition request2_post (m' : M) (p' : buffer_pool) (r : option (byte_buffer_impl * list Z))
    (s' : S) (owned : list byte_buffer_impl) (c : co_state) : Prop :=
  ∀ rc, c = Returned rc →
    rc = -1 ∨
    (rc = (if n =? 6 then 0 else n) ∧ stream s' = tail ∧
     ∃ b mem, r = Some (b, mem) ∧ window (b, mem) = request2_header frame ∧
       pool_inv (PoolSys m' p' (b :: owned))).

Lemma request2_payload_spec evs2 (m : M) p owned b (s : S) :
  frame2_ok frame → stream s = drop 6 frame ++ tail → Forall (λ ev, 0 < ev) evs2 →
  pool_inv (PoolSys m p (b :: owned)) → m_data (m_d b) ≠ 0 →
  0 <= _data_begin b → _data_begin b + n <= capacity b → data_len b = n →
  ∃ m' p' r s' c, request2_payload uninit evs2 m p b (take 6 frame) s = Ok (m', p', r, s', c) ∧
    request2_post m' p' r s' owned c.
Proof.
  intros (Hn & Hlen & _) Hs He2 I2 Hb1 Hb2 Hb3 Hb4. unfold request2_payload, block_write.
  destruct (request2_header_frame ltac:(lia)) as [Hhd Hhl].
  rewrite (proj2 (Z.eqb_neq _ _)) by done. rewrite Z.add_0_r.
  assert (Z.of_nat (length (uninit b)) = capacity b) as Hcap by (apply Huninit; lia).
  destruct (write_at (uninit b) _ _) as [mem1|] eqn:W1.
  2:{ rewrite write_at_Ok in W1; [done|lia|]. rewrite Hhl; lia. }
  cbn [mbind res_bind]. pose proof (write_at_length _ _ _ _ W1) as Lm.
  rewrite take_take. simpl Nat.min. rewrite Hlen, (u32_small (n - 4 - 2)) by lia.
  rewrite (proj2 (Z.leb_le _ _)) by lia. cbn [require mbind res_bind].
  pose proof (read_at_length mem1 (_data_begin b + 6) (n - 4 - 2)) as Hrl.
  destruct (recv_lazy_wait evs2 (read_at mem1 (_data_begin b + 6) (n - 4 - 2)) s
    (drop 6 frame) tail He2 Hs) as (d & s2 & o & -> & Ld & X2); [rewrite length_drop; lia|lia|].
  cbn [mbind res_bind]. destruct (write_at mem1 _ (rl_buff d)) as [mem2|] eqn:W2.
  2:{ rewrite write_at_Ok in W2; [done|lia|]. lia. }
  cbn [mbind res_bind]. destruct o; [by eexists _, _, _, _, _|].
  destruct (request2_store _ _ _ _ _ _ Hb2 Hhl W1 W2) as [Hwin _].
  destruct (X2 eq_refl) as [(Hr2 & Hd & Hs2)|[Hr2 Hne]]; rewrite Hr2.
  2:{ eexists _, _, _, _, _. split; [done|]. intros rc [= <-]. by left. }
  rewrite Hd, Hhd in Hwin.
  assert (window (b, mem2) = request2_header frame) as Hw.
  { unfold window. cbn [fst snd]. rewrite Hb4, <- Hwin. f_equal. rewrite length_drop. lia. }
  rewrite Hrl by lia. destruct (_ <=? 0) eqn:C; bool_prop; eexists _, _, _, _, _;
    (split; [done|]); intros rc [= <-]; right.
  - replace (n =? 6) with true by (symmetry; apply Z.eqb_eq; lia). split; [lia|]. eauto 10.
  - rewrite (proj2 (Z.eqb_neq n 6)) by lia. rewrite Hb4, i32_small by lia. eauto 10.
Qed.

Lemma recv_request2_spec evs1 evs2 (m : M) p owned i old header0 (s : S) :
  frame2_ok frame → stream s = frame ++ tail → length header0 = 6%nat →
  pool_inv (PoolSys m p owned) → no_null m p →
  holds old owned i →
  Forall (λ ev, 0 < ev) evs1 → Forall (λ ev, 0 < ev) evs2 →
  ∃ m' p' r s' c, recv_request2 uninit evs1 evs2 m p old header0 s = Ok (m', p', r, s', c) ∧
    request2_post m' p' r s' (remaining old owned i) c.
Proof.
  intros Hf Hs Hh0 Hinv Hnn Hheld He1 He2. pose proof Hf as (Hn & _).
  rewrite <- (take_drop 6 frame), <- app_assoc in Hs.
  assert (length (take 6 frame) = 6%nat) as Hl6 by (rewrite length_take; lia).
  destruct (recv_lazy_wait evs1 header0 s (take 6 frame) (drop 6 frame ++ tail) He1 Hs)
    as (h & s1 & o & E1 & _ & X1); [lia..|].
  unfold recv_request2. rewrite E1. cbn [mbind res_bind].
  destruct o; [by eexists _, _, _, _, _|]. rewrite Hh0 in X1.
  destruct (X1 eq_refl) as [(Hres & Hbuf & Hs1)|[Hres _]]; rewrite Hres; cbn [negb Z.eqb].
  2:{ eexists _, _, _, _, _. split; [done|]. intros rc [= <-]. by left. }
  rewrite Hbuf. change (negb (Z.of_nat 6 =? 6)) with false. cbv iota.
  destruct (request2_buffer_spec m p owned Hf Hinv Hnn)
    as (m1 & p1 & b & -> & I1 & ? & ? & ? & ?). cbn [mbind res_bind].
  pose proof (reset_request_spec m1 p1 (new_recv_request old []) b owned i I1 Hheld)
    as (m2 & p2 & Er & I2).
  unfold reset_request in Er. cbn [rq_request new_recv_request] in Er, I2. rewrite Er.
  cbn [mbind res_bind]. by apply request2_payload_spec.
Qed.
End request2.

(** ** Properties *)

Section properties.
Context {S M : Type} `{!Socket S} `{!SocketLaws S}.
Context `{!Allocator M} `{!AllocatorLaws M}.
Context `{!MultimapFind byte_buffer_data}.
Variable uninit : byte_buffer_impl → list Z.
Hypothesis Huninit : ∀ b, 0 <= capacity b → Z.of_nat (length (uninit b)) = capacity b.

(** [recv_request2] on a stream that starts with a well-formed frame, for
    any cutting of the stream and any events: no fault, and when the coroutine
    returns, it returns -1 after a socket error, or it leaves the rest of the
    stream untouched, the caller's pointer owns a buffer whose data window is the
    frame (with a zero alignment byte replaced by the default 6) and the result
    is the frame's length, except that a frame without payload returns 0, the
    value that means the peer has closed. *)
Theorem recv_request2_frame (frame tail : list Z) (m : M) (p : buffer_pool)
  (owned : list byte_buffer_impl) (i : nat) (old : option (byte_buffer_impl * list Z))
  (header0 : list Z) (s : S) (evs1 evs2 : list Z)
  (Hframe : frame2_ok frame) (Hstream : stream s = frame ++ tail)
  (Hheader : length header0 = 6%nat)
  (Hpool : pool_inv (PoolSys m p owned)) (Hcache : no_null m p)
  (Hheld : holds old owned i)
  (Hevs1 : Forall (λ ev, 0 < ev) evs1) (Hevs2 : Forall (λ ev, 0 < ev) evs2) :
  ∃ m' p' r s' c, recv_request2 uninit evs1 evs2 m p old header0 s = Ok (m', p', r, s', c) ∧
    ∀ rc, c = Returned rc →
      rc = -1 ∨
      (rc = (if Z.of_nat (length frame) =? 6 then 0 else Z.of_nat (length frame)) ∧
       stream s' = tail ∧
       ∃ b mem, r = Some (b, mem) ∧ window (b, mem) = request2_header frame ∧
         pool_inv (PoolSys m' p' (b :: remaining old owned i))).
Proof. by apply recv_request2_spec. Qed.

(** C30. The two readers of the wire format compared: on the same frame, acceptable
    to both, with readiness events only, memory that suffices and calls that return,
    neither meets a fault, whatever the two runs see of the network and of the heap;
    and if both finish without a socket error, they leave the same bytes on the stream,
    show the same data window, except that [recv_request2] writes the default 6 over an
    alignment byte of 0, and return the same length, except that [recv_request2] returns
    0 for a frame without payload. *)
Theorem request_readers_agree (frame tail : list Z)
  (m1 m2 : M) (p1 p2 : buffer_pool) (owned1 owned2 : list byte_buffer_impl)
  (buf0 header0 : list Z) (s1 s2 : S) (evs evs1 evs2 : list Z)
  (Hframe : frame_ok frame) (Hframe2 : frame2_ok frame)
  (Hs1 : stream s1 = frame ++ tail) (Hs2 : stream s2 = frame ++ tail)
  (Hb1 : length buf0 = 8%nat) (Hb2 : length header0 = 6%nat)
  (Hp1 : pool_inv (PoolSys m1 p1 owned1)) (Hc1 : no_null m1 p1)
  (Hp2 : pool_inv (PoolSys m2 p2 owned2)) (Hc2 : no_null m2 p2)
  (He : Forall (λ ev, 0 < ev) evs)
  (He1 : Forall (λ ev, 0 < ev) evs1) (He2 : Forall (λ ev, 0 < ev) evs2) :
  ∃ m1' p1' a' s1' o m2' p2' r2 s2' c,
    recv_request_events uninit evs m1 p1 (new_recv_request None buf0) s1 = Ok (m1', p1', a', s1', o) ∧
    recv_request2 uninit evs1 evs2 m2 p2 None header0 s2 = Ok (m2', p2', r2, s2', c) ∧
    ∀ rc, o = Resumed → c = Returned rc → rq_result a' ≠ -1 → rc ≠ -1 →
      stream s1' = stream s2' ∧
      window <$> r2 = request2_header <$> (window <$> rq_request a') ∧
      rc = (if rq_result a' =? 6 then 0 else rq_result a').
Proof.
  pose proof Hframe as (Hn & _).
  destruct (recv_request2_spec uninit Huninit frame tail evs1 evs2 m2 p2 owned2 0 None header0 s2
    Hframe2 Hs2 Hb2 Hp2 Hc2 I He1 He2) as (m2' & p2' & r2 & s2' & c & E2 & X2).
  destruct (recv_request_events_spec (live := λ _, False) uninit Huninit frame tail []
    m1 p1 owned1 0 None Hframe Hp1 Hc1 I evs m1 p1 (new_recv_request None buf0) s1 He)
    as (m1' & p1' & a' & s1' & o & E1 & X1); [apply rq_inv_start; [by rewrite app_nil_r|done]|simpl; lia|].
  exists m1', p1', a', s1', o, m2', p2', r2, s2', c. split; [done|]. split; [done|].
  intros rc -> -> Hok1 Hok2. destruct (X2 rc eq_refl) as [|(-> & -> & b2 & mem2 & -> & W2 & _)]; [done|].
  destruct X1 as [(b & Hb' & _ & Hres & Hr)|(_ & Hm & _)]; [|by destruct (Hm eq_refl)].
  destruct (body_inv_complete _ _ _ _ _ _ Hb' Hr) as (Hst & mem & -> & W1 & _).
  rewrite app_nil_r in Hst. rewrite Hres. simpl. by rewrite W1, W2.
Qed.
End properties.

(** ** Witnesses *)

Lemma demo_frame2_ok : frame2_ok demo_frame.
Proof. apply (bool_decide_unpack _). vm_compute. exact I. Qed.

Lemma recv_request2_frame_witness :
  ∃ m' p' r s' c,
    recv_request2 zero_block [1; 1] [1; 1] (∅ : gmap Z Z) (new_inst 1000) None (replicate 6 0)
      demo_request = Ok (m', p', r, s', c) ∧
    ∀ rc, c = Returned rc →
      rc = -1 ∨
      (rc = 9 ∧ stream s' = [0] ∧
       ∃ b mem, r = Some (b, mem) ∧ window (b, mem) = request2_header demo_frame ∧
         pool_inv (PoolSys m' p' (b :: []))).
Proof.
  apply (recv_request2_frame zero_block zero_block_length demo_frame [0] ∅ (new_inst 1000) [] 0 None
    (replicate 6 0) demo_request [1; 1] [1; 1]).
  - exact demo_frame2_ok.
  - reflexivity.
  - reflexivity.
  - by apply pool_inv_init.
  - by apply demo_no_null.
  - exact I.
  - repeat constructor.
  - repeat constructor.
Defined.

(** A frame without payload: [recv_request] returns 6, [recv_request2] 0. *)
Example empty_payload_differs :
  let s := Script [CData 0 [0; 0; 2; 0; 6]] [] [] in
  (λ '(_, _, a, _, o), (rq_result a, o)) <$>
    recv_request_events zero_block [1] (∅ : gmap Z Z) (new_inst 1000)
      (new_recv_request None (replicate 8 0)) s = Ok (6, Resumed) ∧
  (λ '(_, _, _, _, c), c) <$>
    recv_request2 zero_block [1] [1] (∅ : gmap Z Z) (new_inst 1000) None (replicate 6 0) s
    = Ok (Returned 0).
Proof. by vm_compute. Qed.

Lemma request_readers_agree_witness :
  ∃ m1' p1' a' s1' o m2' p2' r2 s2' c,
    recv_request_events zero_block [1; 1; 1] (∅ : gmap Z Z) (new_inst 1000)
      (new_recv_request None (replicate 8 0)) demo_request = Ok (m1', p1', a', s1', o) ∧
    recv_request2 zero_block [1; 1] [1; 1] (∅ : gmap Z Z) (new_inst 1000) None (replicate 6 0)
      demo_request = Ok (m2', p2', r2, s2', c) ∧
    ∀ rc, o = Resumed → c = Returned rc → rq_result a' ≠ -1 → rc ≠ -1 →
      stream s1' = stream s2' ∧
      window <$> r2 = request2_header <$> (window <$> rq_request a') ∧
      rc = (if rq_result a' =? 6 then 0 else rq_result a').
Proof.
  apply (request_readers_agree zero_block zero_block_length demo_frame [0] (∅ : gmap Z Z) ∅
    (new_inst 1000) (new_inst 1000) [] [] (replicate 8 0) (replicate 6 0) demo_request demo_request
    [1; 1; 1] [1; 1] [1; 1]).
  - exact demo_frame_ok.
  - exact demo_frame2_ok.
  - reflexivity.
  - reflexivity.
  - reflexivity.
  - reflexivity.
  - by apply pool_inv_init.
  - by apply demo_no_null.
  - by apply pool_inv_init.
  - by apply demo_no_null.
  - repeat constructor.
  - repeat constructor.
  - repeat constructor.
Defined.

(** In this run both finish ([demo_request_run] is the other one). *)
Example demo_request2_run :
  (λ '(_, _, r, s, c), (option_map window r, stream s, c)) <$>
    recv_request2 zero_block [1; 1] [1; 1] (∅ : gmap Z Z) (new_inst 1000) None (replicate 6 0)
      demo_request = Ok (Some demo_frame, [0], Returned 9).
Proof. by vm_compute. Qed.
