(* ===== verification/EchoServer.v ===== *)
(** * An echo server on top of the library ([test/pp-request-serv.cpp])

    The coroutine [tcp_echo] composes the parts verified before: it awaits a
    [recv_request], which takes a buffer from the pool, sends the buffer's window
    back with [send_lazy], and lets the buffer go at the end of the turn of its
    loop.  Each wait is given the readiness events the loop delivers to it. *)

From S2P Require Import Prelude ByteBuffer Socket NioAwaiter NioProps ZioProps RequestProps.

(** ** Streams of requests *)

(** Complete frames and then the beginning of another one: a peer that speaks
    the protocol and closes the connection at some point. *)
Definition well_framed (bs : list Z) : Prop :=
  ∃ frames part missing, bs = concat frames ++ part ∧ Forall frame_ok frames ∧
    frame_ok (part ++ missing) ∧ missing ≠ [].

(** What follows a frame on the wire: more frames, or nothing when the frame
    itself is cut short. *)
Definition tail_ok (tail missing : list Z) : Prop :=
  missing = [] ∧ well_framed tail ∨ missing ≠ [] ∧ tail = [].

Lemma well_framed_next bs :
  well_framed bs → ∃ frame tail missing,
    frame_ok frame ∧ tail_ok tail missing ∧ bs ++ missing = frame ++ tail.
Proof.
  intros (frames & part & missing & -> & Hf & Hp & Hm). destruct Hf as [|f fs Hf Hfs].
  - exists (part ++ missing), [], missing. simpl. rewrite app_nil_r. split_and!; [done|by right|done].
  - exists f, (concat fs ++ part), []. simpl. rewrite app_nil_r, <- app_assoc.
    split_and!; [done| |done]. left. split; [done|]. by exists fs, part, missing.
Qed.

(** The coroutine is suspended, has left its loop, or goes on to the next
    request. *)
Inductive echo_ret := EWait | EBreak | EMore.

Section echo.
Context {S M : Type} `{!Socket S} `{!Allocator M} `{!MultimapFind byte_buffer_data}.
Variable uninit : byte_buffer_impl → list Z.
(** What the awaiter's array [_buf] holds when it is made. *)
Variable buf0 : list Z.

(** The [unique_ptr] at the end of its scope. *)
Definition drop_buffer (req : option (byte_buffer_impl * list Z)) (m : M) (p : buffer_pool)
    : res (M * buffer_pool) :=
  match req with None => Ok (m, p) | Some (b, _) => byte_buffer_destroy m p b end.

(** One turn of [tcp_echo]'s loop: [evr] and [evw] are the events of its two
    waits.  The last component is the buffer a suspended coroutine holds. *)
Definition echo_round (evr evw : list Z) (m : M) (p : buffer_pool) (s : S)
    : res (M * buffer_pool * S * echo_ret * option (byte_buffer_impl * list Z)) :=
  '(m, p, a, s, o) ← recv_request_events uninit evr m p (new_recv_request None buf0) s;
  let buff := rq_request a in
  let leave r s := '(m, p) ← drop_buffer buff m p; Ok (m, p, s, r, None) in
  match o with
  | Rearmed => Ok (m, p, s, EWait, buff)
  | Resumed =>
      let len := rq_result a in
      if len <=? 0 then leave EBreak s
      else
        match buff with
        | None => Fail NullDeref
        | Some (b, mem) =>
            if negb (len =? i32 (data_len b)) then leave EBreak s
            else
              '(d, s, o) ← send_lazy_events evw (new_send_lazy (window (b, mem))) s;
              match o with
              | Rearmed => Ok (m, p, s, EWait, buff)
              | Resumed => if negb (len =? sl_result d) then leave EBreak s else leave EMore s
              end
        end
  end.

(** The [for (;;)] loop, for the turns that begin. *)
Fixpoint tcp_echo (rounds : list (list Z * list Z)) (m : M) (p : buffer_pool) (s : S)
    : res (M * buffer_pool * S * echo_ret * option (byte_buffer_impl * list Z)) :=
  match rounds with
  | [] => Ok (m, p, s, EMore, None)
  | (evr, evw) :: rounds =>
      '(m, p, s, r, h) ← echo_round evr evw m p s;
      match r with
      | EMore => tcp_echo rounds m p s
      | _ => Ok (m, p, s, r, h)
      end
  end.

(** ** What every [recv] keeps, receiving a request keeps *)

Section rel.
Context (R : S → S → Prop) `{!PreOrder R}.
Hypothesis Hrecv : ∀ s n s' r, 0 < n → recv s n = (s', r) → R s s'.

Lemma header_loop_rel fuel a s a' s' h : header_loop fuel a s = Ok (a', s', h) → R s s'.
Proof.
  revert a s. induction fuel as [|fuel IH]; intros a s; [done|]. cbn [header_loop].
  destruct (_ <? 6) eqn:C; bool_prop; [|by intros [= _ <- _]].
  destruct (recv s _) as [s1 r] eqn:E. apply Hrecv in E; [|lia].
  destruct r as [[|b bs]|e|]; [by intros [= _ <- _]| | |done].
  - intros H. res_inv. apply IH in H. by trans s1.
  - repeat case_cond; [by intros [= _ <- _]| |by intros [= _ <- _]].
    intros H. apply IH in H. by trans s1.
Qed.

Lemma body_loop_rel fuel a s a' s' o : body_loop fuel a s = Ok (a', s', o) → R s s'.
Proof.
  revert a s. induction fuel as [|fuel IH]; intros a s; [done|]. cbn [body_loop].
  destruct (_ <? rq_cmd_len a) eqn:C; bool_prop; [|by intros [= _ <- _]].
  destruct (recv s _) as [s1 r] eqn:E. apply Hrecv in E; [|lia].
  destruct r as [[|b bs]|e|]; [by intros [= _ <- _]| | |done].
  - destruct (rq_request a) as [[? ?]|]; [|done]. intros H. res_inv. apply IH in H. by trans s1.
  - repeat case_cond; [by intros [= _ <- _]| |by intros [= _ <- _]].
    intros H. apply IH in H. by trans s1.
Qed.

Lemma recv_request_events_rel evs (m : M) p a s m' p' a' s' o :
  recv_request_events uninit evs m p a s = Ok (m', p', a', s', o) → R s s'.
Proof.
  revert m p a s. induction evs as [|ev evs IH]; intros m p a s; cbn [recv_request_events].
  { by intros [= _ _ _ <- _]. }
  intros H. res_inv. destruct a0 as [[[[m1 p1] a1] s1] o1].
  assert (R s s1) as Hs.
  { clear H. unfold recv_request_on_file_event in E.
    destruct (ev <=? 0); [by injection E as _ _ _ <- _|].
    destruct (_ <? 6); res_inv.
    - destruct a0 as [[a2 s2] h]. apply header_loop_rel in E0. destruct h; res_inv; subst; try done.
      destruct a0 as [[m3 p3] a3]. res_inv. destruct a0 as [[a4 s4] o4].
      apply body_loop_rel in E2. res_inv. subst. by trans s2.
    - destruct a0 as [[a2 s2] o2]. apply body_loop_rel in E0. res_inv. by subst. }
  destruct o1; [apply IH in H; by trans s1|]. by injection H as _ _ _ <- _.
Qed.
End rel.

Context `{!SocketLaws S}.

(** Receiving sends nothing. *)
Definition same_sent (s s' : S) : Prop := sent s' = sent s.
#[local] Instance same_sent_preorder : PreOrder same_sent.
Proof. split; [done|]. unfold same_sent. intros s1 s2 s3 H1 H2. congruence. Qed.

Lemma recv_sent s n s' r : 0 < n → recv s n = (s', r) → same_sent s s'.
Proof.
  intros Hn E. destruct r as [[|b bs]|e|]; [| | |by apply recv_returns in E].
  - by apply recv_eof in E as (_ & _ & ?).
  - by apply recv_data in E as (_ & _ & ? & _).
  - by apply recv_err in E as (_ & ? & _).
Qed.

Lemma header_loop_sent fuel a s a' s' h : header_loop fuel a s = Ok (a', s', h) → sent s' = sent s.
Proof. apply (header_loop_rel same_sent), recv_sent. Qed.

Lemma recv_request_events_sent evs (m : M) p a s m' p' a' s' o :
  recv_request_events uninit evs m p a s = Ok (m', p', a', s', o) → sent s' = sent s.
Proof. apply (recv_request_events_rel same_sent), recv_sent. Qed.

(** ** One turn *)

Context `{!AllocatorLaws M}.
Hypothesis Huninit : ∀ b, 0 <= capacity b → Z.of_nat (length (uninit b)) = capacity b.
Hypothesis Hbuf0 : length buf0 = 8%nat.

(** Between turns: every block is in the cache, none of them null. *)
Definition pool_idle (m : M) (p : buffer_pool) : Prop :=
  pool_inv (PoolSys m p []) ∧ no_null m p.

Definition held_by (h : option (byte_buffer_impl * list Z)) : list byte_buffer_impl :=
  match h with None => [] | Some (b, _) => [b] end.

Lemma drop_buffer_spec m p h :
  pool_inv (PoolSys m p (held_by h)) →
  ∃ m' p', drop_buffer h m p = Ok (m', p') ∧ pool_inv (PoolSys m' p' []).
Proof.
  intros Hi. destruct h as [[b mem]|]; [|by exists m, p].
  destruct (release_inv (PoolSys m p [b]) 0 b Hi eq_refl) as (m' & p' & E & Hi'). eauto.
Qed.

(** What the coroutine has given back is the beginning of what it was sent; a
    turn that is finished has echoed the frame at the head of the stream. *)
Definition round_post (frame tail missing : list Z) (s : S) (m' : M) (p' : buffer_pool) (s' : S)
    (r : echo_ret) (h : option (byte_buffer_impl * list Z)) : Prop :=
  match r with
  | EMore => sent s' = sent s ++ frame ∧ stream s' = tail ∧ missing = [] ∧ pool_idle m' p' ∧ h = None
  | EBreak => (∃ j, sent s' = sent s ++ take j (stream s)) ∧ pool_inv (PoolSys m' p' []) ∧ h = None
  | EWait => (∃ j, sent s' = sent s ++ take j (stream s)) ∧ pool_inv (PoolSys m' p' (held_by h))
  end.

Lemma send_phase b mem frame tail len evw (m : M) p (s s0 : S) :
  window (b, mem) = frame → len = Z.of_nat (length frame) → len < 2 ^ 31 → stream s = tail → stream s0 = frame ++ tail → sent s = sent s0 →
  pool_inv (PoolSys m p [b]) → no_null m p → m_data (m_d b) ≠ 0 →
  ∃ m' p' s' r h,
    ('(d, s, o) ← send_lazy_events evw (new_send_lazy (window (b, mem))) s;
     match o with
     | Rearmed => Ok (m, p, s, EWait, Some (b, mem))
     | Resumed =>
         let leave r s := '(m, p) ← drop_buffer (Some (b, mem)) m p; Ok (m, p, s, r, None) in
         if negb (len =? sl_result d) then leave EBreak s else leave EMore s
     end) = Ok (m', p', s', r, h) ∧ round_post frame tail [] s0 m' p' s' r h.
Proof.
  intros Hw Hlen Hlt Hst Hst0 Hse Hp Hc Hb. rewrite Hw.
  destruct (send_lazy_events_spec evw (new_send_lazy frame) s)
    as (d & s1 & o & -> & [_ _ P3 P4 P5] & X & _); [unfold sl_size; simpl; lia|unfold sl_size; simpl; lia|].
  specialize (P4 (sent s)). simpl in P4. rewrite take_0, app_nil_r in P4. specialize (P4 eq_refl).
  assert (∃ j, sent s1 = sent s0 ++ take j (stream s0)) as Hj.
  { exists (Nat.min (Z.to_nat (sl_sended_bytes d)) (length frame)). rewrite P4, Hse, Hst0, take_app_le by lia.
    by rewrite <- take_take, firstn_all. }
  rewrite Hse in P4. cbn [mbind res_bind]. destruct o.
  { eexists _, _, _, EWait, _. split; [done|]. split; [exact Hj|done]. }
  destruct (drop_buffer_spec m p (Some (b, mem)) Hp) as (m' & p' & Ed & Hi'). cbv zeta.
  rewrite Ed. cbn [mbind res_bind]. destruct (X eq_refl) as [[Hk Hr]|Hr]; rewrite Hr; simpl.
  - unfold sl_size in *. simpl in *. rewrite Hlen, Z.eqb_refl. simpl.
    eexists _, _, _, EMore, _. split; [done|]. split_and!; [|congruence|done| |done].
    + rewrite P4, Hk, Nat2Z.id. by rewrite firstn_all.
    + split; [done|]. by eapply release_nonnull.
  - rewrite (proj2 (Z.eqb_neq _ _)) by lia. simpl.
    eexists _, _, _, EBreak, _. split; [done|]. split_and!; [exact Hj|done|done].
Qed.

(** The first wait of a turn, whatever events it gets. *)
Lemma recv_any frame tail missing evs (m : M) p s :
  frame_ok frame → stream s ++ missing = frame ++ tail → pool_idle m p →
  ∃ m' p' a' s' o,
    recv_request_events uninit evs m p (new_recv_request None buf0) s = Ok (m', p', a', s', o) ∧
    sent s' = sent s ∧ pool_inv (PoolSys m' p' (held_by (rq_request a'))) ∧
    (o = Resumed → rq_result a' <= 0 ∨
      ∃ b, body_inv frame tail missing b a' s' ∧ pool_good [] 0 None m' p' b ∧
        rq_result a' = Z.of_nat (length frame) ∧ rq_recved_bytes a' = Z.of_nat (length frame)).
Proof.
  intros Hf Hs [Hp Hc]. pose proof Hf as (Hn & _).
  destruct (events_split evs) as (good & bad & -> & Hgood & Hbad).
  destruct (recv_request_events_spec (live := λ _, False) uninit Huninit frame tail missing
    m p [] 0 None Hf Hp Hc I good m p (new_recv_request None buf0) s Hgood)
    as (m1 & p1 & a1 & s1 & o & E & X); [by apply rq_inv_start|simpl; lia|].
  pose proof (recv_request_events_sent _ _ _ _ _ _ _ _ _ _ E) as Hsent.
  assert (rq_owns m p [] 0 None m1 p1 a1 → pool_inv (PoolSys m1 p1 (held_by (rq_request a1)))) as Hown.
  { intros [(-> & -> & ->)|(b & mem & -> & [Hg _] & _)]; [exact Hp|exact Hg]. }
  rewrite recv_request_events_app, E. cbn [mbind res_bind]. destruct o.
  - destruct X as (Hi & _ & Hr & _). apply rq_inv_owns in Hi. destruct bad as [|ev bad].
    { exists m1, p1, a1, s1, Rearmed. by split_and!; [|..|apply Hown|]. }
    cbn [recv_request_events]. unfold recv_request_on_file_event. rewrite (proj2 (Z.leb_le ev 0)) by done.
    exists m1, p1, a1, s1, Resumed. split_and!; [done|done|by apply Hown|]. left. rewrite Hr. simpl. lia.
  - exists m1, p1, a1, s1, Resumed. destruct X as [(b & Hb & Hg & Hres & Hr)|(Hle & _ & Ho)].
    + split_and!; [done|done| |by eauto 6].
      destruct Hb as [_ _ _ _ _ _ (got & mem & _ & -> & _)]. apply Hg.
    + split_and!; [done|done|by apply Hown|by left].
Qed.

Lemma echo_round_spec frame tail missing evr evw m p s :
  frame_ok frame → stream s ++ missing = frame ++ tail → (missing ≠ [] → tail = []) → pool_idle m p →
  ∃ m' p' s' r h, echo_round evr evw m p s = Ok (m', p', s', r, h) ∧
    round_post frame tail missing s m' p' s' r h.
Proof.
  intros Hf Hs Ht Hp. unfold echo_round. pose proof Hf as (Hn & _).
  destruct (recv_any frame tail missing evr m p s Hf Hs Hp)
    as (m1 & p1 & a1 & s1 & o & -> & Hsent & Hpool & X). cbn [mbind res_bind]. cbv zeta.
  assert (∃ j, sent s1 = sent s ++ take j (stream s)) as Hnone by (exists 0%nat; by rewrite take_0, app_nil_r).
  destruct o.
  { eexists _, _, _, EWait, _. split; [done|]. by split. }
  destruct (X eq_refl) as [Hres|(b & Hb & [Hg Hgc] & Hres & Hr)].
  - rewrite (proj2 (Z.leb_le _ 0)) by done.
    destruct (drop_buffer_spec m1 p1 (rq_request a1) Hpool) as (m' & p' & -> & Hi').
    cbn [mbind res_bind]. eexists _, _, _, EBreak, _. split; [done|]. by split_and!.
  - destruct (body_inv_complete _ _ _ _ _ _ Hb Hr) as (Hst & mem & Hq & Hw & _).
    assert (missing = []) as ->.
    { destruct missing as [|x missing]; [done|]. rewrite Ht in Hst by done. by destruct (stream s1). }
    rewrite app_nil_r in Hs, Hst.
    rewrite Hres, (proj2 (Z.leb_gt _ 0)) by lia. rewrite Hq, (bi_len _ _ _ _ _ _ Hb).
    rewrite i32_small, Z.eqb_refl by lia. simpl negb. cbv iota.
    by apply (send_phase b mem frame tail (Z.of_nat (length frame)) evw m1 p1 s1 s);
      [..|lia|done|done|done|exact Hg|auto|apply Hb].
Qed.

(** ** All turns *)

(** What the turns that are finished leave: whole frames taken and given back. *)
Definition echoed (k : nat) (s s' : S) : Prop :=
  ∃ frames, length frames = k ∧ Forall frame_ok frames ∧
    stream s = concat frames ++ stream s' ∧ sent s' = sent s ++ concat frames.

Lemma echoed_cons k frame s s1 s2 :
  frame_ok frame → stream s = frame ++ stream s1 → sent s1 = sent s ++ frame → echoed k s1 s2 →
  echoed (Datatypes.S k) s s2.
Proof.
  intros Hf Hs Ho (frames & Hk & Hfs & Hst & Hse). exists (frame :: frames).
  simpl. split_and!; [by rewrite Hk|by constructor|..].
  - by rewrite Hs, Hst, app_assoc.
  - by rewrite Hse, Ho, app_assoc.
Qed.

(** C4. The echo server on a connection whose peer speaks the protocol (frames,
    the last one possibly cut short by the end of the stream).  However the kernel
    cuts the stream into pieces, takes what is sent in parts, interrupts or fails the
    calls, whatever events, errors included, the loop reports and for any number of
    turns: [tcp_echo] meets no fault, and all it has sent is a beginning of what it
    was sent.  While it goes on it has taken one whole frame per turn and given
    exactly these frames back, in order; it holds a buffer only while it waits, and
    every other block is with the pool or the heap.  (No allocation fails and every
    [recv] and [send] returns.) *)
Theorem tcp_echo_echoes (rounds : list (list Z * list Z)) (m : M) (p : buffer_pool) (s : S)
  (Hpeer : well_framed (stream s)) (Hpool : pool_idle m p) :
  ∃ m' p' s' r h, tcp_echo rounds m p s = Ok (m', p', s', r, h) ∧
    (∃ j, sent s' = sent s ++ take j (stream s)) ∧
    pool_inv (PoolSys m' p' (held_by h)) ∧ (r ≠ EWait → h = None) ∧
    (r = EMore → echoed (length rounds) s s').
Proof.
  revert m p s Hpeer Hpool. induction rounds as [|[evr evw] rounds IH]; intros m p s Hpeer Hpool.
  { exists m, p, s, EMore, None. split_and!; [done|exists 0%nat; by rewrite take_0, app_nil_r|apply Hpool|done|].
    intros _. exists []. simpl. by rewrite app_nil_r. }
  destruct (well_framed_next _ Hpeer) as (frame & tail & missing & Hf & Ht & Hs).
  destruct (echo_round_spec frame tail missing evr evw m p s Hf Hs) as (m1 & p1 & s1 & r & h & E & Hpost);
    [by destruct Ht as [[-> _]|[_ ->]]|done|].
  cbn [tcp_echo]. rewrite E. cbn [mbind res_bind]. destruct r; simpl in Hpost.
  - destruct Hpost as [Hj Hi]. by exists m1, p1, s1, EWait, h.
  - destruct Hpost as (Hj & Hi & ->). by exists m1, p1, s1, EBreak, None.
  - destruct Hpost as (Hsent & Hst & -> & Hp1 & ->). rewrite app_nil_r in Hs. subst tail.
    destruct Ht as [[_ Hwf]|[? _]]; [|done].
    destruct (IH m1 p1 s1 Hwf Hp1) as (m2 & p2 & s2 & r & h & E2 & [j Hj] & Hi & Hh & Hm).
    exists m2, p2, s2, r, h. split_and!; [done| |done|done|].
    + exists (length frame + j)%nat. rewrite Hj, Hsent, Hs, <- app_assoc. f_equal. symmetry. apply take_app_add.
    + intros Hr. by apply (echoed_cons _ frame s s1); [..|apply Hm].
Qed.
End echo.

(** ** On a working connection *)

(** A connection without hard errors in either direction: [send] takes a byte at
    least when it succeeds, and reading at the end of the stream does not put new
    interruptions ahead. *)
Class LiveEcho (S : Type) `{!Socket S} (live : S → Prop) : Prop := {
  live_send_pos s bs s' n : live s → bs ≠ [] → send s bs = (s', SndOk n) → 0 < n;
  live_eof s n s' : live s → recv s n = (s', RcvData []) → (pending s' ≤ pending s)%nat;
}.

Section live.
Context {S M : Type} `{!Socket S} `{!Allocator M} `{!MultimapFind byte_buffer_data}.
Context `{!SocketLaws S} `{!AllocatorLaws M}.
Context {live : S → Prop} `{!LiveSocket S live} `{!LiveSend S live} `{!LiveEcho S live}.
Variable uninit : byte_buffer_impl → list Z.
Variable buf0 : list Z.
Hypothesis Huninit : ∀ b, 0 <= capacity b → Z.of_nat (length (uninit b)) = capacity b.
Hypothesis Hbuf0 : length buf0 = 8%nat.

(** The connection stays alive and does not get more interruptions ahead. *)
Definition calm (s s' : S) : Prop := live s → live s' ∧ (pending s' ≤ pending s)%nat.

#[local] Instance calm_preorder : PreOrder calm.
Proof.
  split; [by intros s Hl|]. intros s1 s2 s3 H1 H2 Hl. destruct (H1 Hl) as [L1 ?].
  destruct (H2 L1). split; [done|lia].
Qed.

Lemma recv_calm s n s' r : recv s n = (s', r) → calm s s'.
Proof.
  intros E Hl. pose proof (live_recv s n Hl) as Hl'. rewrite E in Hl'. split; [done|].
  destruct r as [[|b bs]|e|]; [| | |by apply recv_returns in E].
  - by eapply live_eof.
  - apply recv_data in E as (_ & _ & _ & ?). lia.
  - by apply recv_err in E as (_ & _ & ? & _).
Qed.

Lemma recv_request_calm evs (m : M) p a s m' p' a' s' o :
  recv_request_events uninit evs m p a s = Ok (m', p', a', s', o) → calm s s'.
Proof. apply (recv_request_events_rel uninit calm). intros ? n ? ? _. apply recv_calm. Qed.

(** *** Sending ends *)

Definition sl_done (a a' : send_lazy) (s s' : S) (o : outcome) : Prop :=
  match o with
  | Rearmed => (pending s' < pending s)%nat ∧ 0 <= sl_sended_bytes a' <= sl_size a' ∧
      sl_buff a' = sl_buff a
  | Resumed => sl_result a' = sl_size a
  end.

Lemma send_lazy_loop_live fuel a s a' s' o :
  live s → 0 <= sl_sended_bytes a <= sl_size a → sl_size a < 2 ^ 31 →
  send_lazy_loop fuel a s = Ok (a', s', o) →
  live s' ∧ (pending s' ≤ pending s)%nat ∧ sl_done a a' s s' o.
Proof.
  revert a s. induction fuel as [|fuel IH]; intros a s Hl Hr Hs; [done|].
  cbn [send_lazy_loop]. rewrite (i32_small (sl_size a)) by (unfold sl_size in *; lia).
  destruct (_ <? _) eqn:C; bool_prop.
  2:{ intros [= <- <- <-]. simpl. split_and!; [done|done|lia]. }
  assert (drop (Z.to_nat (sl_sended_bytes a)) (sl_buff a) ≠ []) as Hne.
  { intros H%(f_equal length). rewrite length_drop in H. unfold sl_size in *. simpl in H. lia. }
  pose proof (live_send s (drop (Z.to_nat (sl_sended_bytes a)) (sl_buff a)) Hl) as Hl1.
  destruct (send _ _) as [s1 [n|e| |]] eqn:E; simpl in Hl1; [| |by apply send_returns in E..].
  - pose proof (live_send_pos _ _ _ _ Hl Hne E) as Hpos.
    destruct (send_ok _ _ _ _ E) as (Hn & _ & _ & Hp). rewrite length_drop in Hn.
    rewrite (proj2 (Z.ltb_lt 0 n)) by done. unfold sl_size in *.
    rewrite i32_small by lia. intros H. apply IH in H as (L2 & P2 & D); [|done|unfold sl_size; simpl; lia..].
    split_and!; [done|lia|]. destruct o; simpl in *; [|done].
    destruct D as (? & ? & ?). split_and!; [lia|lia|lia|done].
  - destruct (live_send_err _ _ _ _ Hl Hne E) as [[-> | ->] Hlt]; simpl.
    + intros [= <- <- <-]. split_and!; [done|lia|]. simpl. split_and!; [done|lia|lia|done].
    + intros H. apply IH in H as (L2 & P2 & D); [|done|lia..].
      split_and!; [done|lia|]. destruct o; simpl in *; [|done].
      destruct D as (? & ? & ?). split_and!; [lia|lia|lia|done].
Qed.

Lemma send_lazy_events_live evs a s a' s' o :
  live s → Forall (λ ev, 0 < ev) evs → (pending s < length evs)%nat →
  0 <= sl_sended_bytes a <= sl_size a → sl_size a < 2 ^ 31 →
  send_lazy_events evs a s = Ok (a', s', o) →
  o = Resumed ∧ sl_result a' = sl_size a ∧ live s' ∧ (pending s' ≤ pending s)%nat.
Proof.
  intros Hl Hev. revert a s Hl. induction Hev as [|ev evs Hev _ IH]; intros a s Hl Hp Hr Hs;
    [simpl in Hp; lia|].
  cbn [send_lazy_events]. intros H. res_inv. destruct a0 as [[a1 s1] o1].
  unfold send_lazy_on_file_event in E. rewrite (proj2 (Z.leb_gt ev 0)) in E by lia.
  apply send_lazy_loop_live in E as (L1 & P1 & D1); [|done..].
  destruct o1; simpl in D1; [|by injection H as <- <- <-].
  destruct D1 as (D1 & D2 & D3). simpl in Hp.
  assert (sl_size a1 = sl_size a) as Hsz by (unfold sl_size; by rewrite D3).
  apply IH in H as (-> & Hres & L2 & P2); [|done|lia..]. split_and!; [done|congruence|done|lia].
Qed.

(** *** A turn, and all turns *)

Lemma echo_round_live frame tail evr evw (m : M) p s m' p' s' r h :
  live s → frame_ok frame → stream s = frame ++ tail → pool_idle m p →
  Forall (λ ev, 0 < ev) evr → Forall (λ ev, 0 < ev) evw →
  (pending s < length evr)%nat → (pending s < length evw)%nat →
  echo_round uninit buf0 evr evw m p s = Ok (m', p', s', r, h) →
  r = EMore ∧ live s' ∧ (pending s' ≤ pending s)%nat.
Proof.
  intros Hl Hf Hs [Hp Hc] Hevr Hevw Hmr Hmw. unfold echo_round. pose proof Hf as (Hn & _).
  destruct (recv_request_events_spec (live := live) uninit Huninit frame tail []
    m p [] 0 None Hf Hp Hc I evr m p (new_recv_request None buf0) s Hevr)
    as (m1 & p1 & a1 & s1 & o & E & X); [apply rq_inv_start; [by rewrite app_nil_r|done]|simpl; lia|].
  destruct (recv_request_calm _ _ _ _ _ _ _ _ _ _ E Hl) as [L1 P1].
  rewrite E. cbn [mbind res_bind]. cbv zeta.
  destruct o; [destruct X as (_ & _ & _ & X); specialize (X Hl eq_refl); lia|].
  destruct X as [(b & Hb & _ & Hres & Hr)|(_ & Hm & _)]; [|by destruct (Hm eq_refl)].
  destruct (body_inv_complete _ _ _ _ _ _ Hb Hr) as (Hst & mem & Hq & Hw & _).
  rewrite Hres, (proj2 (Z.leb_gt _ 0)) by lia. rewrite Hq, (bi_len _ _ _ _ _ _ Hb).
  rewrite i32_small, Z.eqb_refl by lia. simpl negb. cbv iota. rewrite Hw. intros H. res_inv.
  destruct a as [[d s2] o2].
  apply send_lazy_events_live in E0 as (-> & Hsl & L2 & P2);
    [|done|done|lia|unfold sl_size; simpl; lia..].
  unfold sl_size in Hsl. simpl in Hsl. rewrite Hsl, Z.eqb_refl in H. simpl in H.
  res_inv. destruct a as [m3 p3]. injection H as _ _ <- <- _. split_and!; [done|done|lia].
Qed.

Definition enough (s : S) (r : list Z * list Z) : Prop :=
  Forall (λ ev, 0 < ev) r.1 ∧ Forall (λ ev, 0 < ev) r.2 ∧
  (pending s < length r.1)%nat ∧ (pending s < length r.2)%nat.

Lemma enough_mono s s' r : (pending s' ≤ pending s)%nat → enough s r → enough s' r.
Proof. intros Hp (? & ? & ? & ?). split_and!; [done|done|lia|lia]. Qed.

Lemma tcp_echo_live rounds frames tail (m : M) p s :
  live s → Forall frame_ok frames → stream s = concat frames ++ tail → length rounds = length frames →
  pool_idle m p → Forall (enough s) rounds →
  ∃ m' p' s', tcp_echo uninit buf0 rounds m p s = Ok (m', p', s', EMore, None) ∧
    sent s' = sent s ++ concat frames ∧ stream s' = tail ∧ pool_idle m' p' ∧ live s'.
Proof.
  intros Hl Hf. revert rounds m p s Hl. induction Hf as [|f frames Hf _ IH];
    intros rounds m p s Hl Hs Hlen Hp Hen; (destruct rounds as [|[evr evw] rounds]; [|]); try done.
  { exists m, p, s. simpl. by rewrite app_nil_r. }
  apply Forall_cons in Hen as [(H1 & H2 & H3 & H4) Hen]. simpl in H1, H2, H3, H4, Hs, Hlen.
  rewrite <- app_assoc in Hs.
  destruct (echo_round_spec uninit buf0 Huninit Hbuf0 f (concat frames ++ tail) [] evr evw m p s Hf)
    as (m1 & p1 & s1 & r & h & E & Hpost); [by rewrite app_nil_r|done|done|].
  destruct (echo_round_live f _ evr evw m p s m1 p1 s1 r h Hl Hf Hs Hp H1 H2 H3 H4 E) as (-> & L1 & P1).
  destruct Hpost as (Hsent & Hst & _ & Hp1 & ->).
  destruct (IH rounds m1 p1 s1 L1 Hst) as (m2 & p2 & s2 & E2 & Hs2 & ?); [lia|done| |].
  { eapply Forall_impl; [exact Hen|]. intros x. by apply enough_mono. }
  exists m2, p2, s2. split; [|split; [|done]].
  - cbn [tcp_echo]. rewrite E. exact E2.
  - simpl. by rewrite Hs2, Hsent, <- app_assoc.
Qed.

(** C3. The echo server answers: on a connection without hard errors that carries
    well-formed frames, with more readiness events for every wait than the kernel
    has interruptions in store, [tcp_echo] receives and sends back every frame,
    each byte once and in order, leaves what follows them on the stream, is ready
    for the next request and holds no buffer.  (No allocation fails and every [recv]
    and [send] returns.) *)
Theorem tcp_echo_answers (rounds : list (list Z * list Z)) (frames : list (list Z)) (tail : list Z)
  (m : M) (p : buffer_pool) (s : S)
  (Hlive : live s) (Hframes : Forall frame_ok frames) (Hstream : stream s = concat frames ++ tail)
  (Hrounds : length rounds = length frames) (Hpool : pool_idle m p)
  (Hevs : Forall (enough s) rounds) :
  ∃ m' p' s', tcp_echo uninit buf0 rounds m p s = Ok (m', p', s', EMore, None) ∧
    sent s' = sent s ++ concat frames ∧ stream s' = tail ∧ pool_idle m' p'.
Proof.
  destruct (tcp_echo_live rounds frames tail m p s) as (m' & p' & s' & ? & ? & ? & ? & _); [done..|].
  by exists m', p', s'.
Qed.
End live.

(** ** Witness *)

(** Two frames in pieces; the first answer is taken in two parts. *)
Definition demo_frames : list (list Z) := [demo_frame; encode_frame 0 0 [7]].
Definition demo_echo : script :=
  Script [CData 0 [0]; CErr EAGAIN; CData 0 [5; 2]; CErr EINTR; CData 4 [10; 20]; CErr EAGAIN;
          CData 30 [0]; CData 0 [0; 3; 0; 0; 7]]
    [SndOk 4; SndErr EAGAIN; SndOk 100; SndOk 100] [].

Definition demo_rounds : list (list Z * list Z) := [([1; 1; 1], [2; 2]); ([1], [2])].

Lemma demo_frames_ok : Forall frame_ok demo_frames.
Proof.
  apply Forall_cons; split; [exact demo_frame_ok|].
  apply Forall_cons; split; [|by apply Forall_nil]. apply (bool_decide_unpack _). vm_compute. exact I.
Qed.

Lemma demo_echo_framed : well_framed (stream demo_echo).
Proof.
  exists demo_frames, [], (encode_frame 0 0 [7]). pose proof demo_frames_ok as Hf.
  split_and!; [done|done| |done]. apply Forall_cons in Hf as [_ Hf]. by apply Forall_cons in Hf as [? _].
Qed.

Lemma tcp_echo_echoes_witness :
  ∃ m' p' s' r h,
    tcp_echo zero_block (replicate 8 0) (demo_rounds ++ [([1; 8], [])]) (∅ : gmap Z Z)
      (new_inst 1000) demo_echo = Ok (m', p', s', r, h) ∧
    (∃ j, sent s' = sent demo_echo ++ take j (stream demo_echo)) ∧
    pool_inv (PoolSys m' p' (held_by h)) ∧ (r ≠ EWait → h = None) ∧
    (r = EMore → echoed 3 demo_echo s').
Proof.
  apply (tcp_echo_echoes zero_block (replicate 8 0) zero_block_length eq_refl
    (demo_rounds ++ [([1; 8], [])]) (∅ : gmap Z Z) (new_inst 1000) demo_echo).
  - exact demo_echo_framed.
  - split; [by apply pool_inv_init|by apply demo_no_null].
Defined.

(** In this run both frames are echoed. *)
Example demo_echo_run :
  (λ '(_, _, s, r, _), (sent s, r)) <$>
    tcp_echo zero_block (replicate 8 0) demo_rounds (∅ : gmap Z Z)
      (new_inst 1000) demo_echo
  = Ok (concat demo_frames, EMore).
Proof. by vm_compute. Qed.

(** A scripted connection without hard errors in either direction. *)
Definition good_answer (r : send_ret) : Prop :=
  soft_answer r ∧ match r with SndOk n => 0 < n | _ => True end.
Definition echo_live (s : bscript) : Prop :=
  script_live (b_script s) ∧ Forall good_answer (sc_out (b_script s)).

Lemma script_recv_out s n : sc_out (script_recv s n).1 = sc_out s.
Proof.
  unfold script_recv. destruct (sc_in s) as [|[b bs|e|] cs]; try done.
  destruct (n <=? 0); [done|]. by destruct (drop _ _).
Qed.

Lemma echo_live_soft s : echo_live s → bscript_live s.
Proof. intros [_ H]. eapply Forall_impl; [exact H|]. by intros r []. Qed.

#[export] Instance echo_live_socket : LiveSocket bscript echo_live.
Proof.
  split; cbn [recv stream pending bscript_socket].
  - intros s n [Hi Ho]. pose proof (live_recv (live := script_live) (b_script s) n Hi) as Hl.
    pose proof (script_recv_out (b_script s) n) as Hs. cbn [recv script_socket] in *.
    destruct (script_recv (b_script s) n) as [t r]. simpl in *. split; [done|]. simpl. by rewrite Hs.
  - intros s n s' e [Hi _] Hne. cbn [recv script_socket].
    destruct (script_recv (b_script s) n) as [t r] eqn:E. intros [= <- ->].
    exact (live_err (live := script_live) (b_script s) n t e Hi Hne E).
Qed.

#[export] Instance echo_live_send : LiveSend bscript echo_live.
Proof.
  split.
  - intros s bs [Hi Ho]. cbn [send bscript_socket]. unfold bscript_send, script_send.
    destruct (sc_out (b_script s)) as [|[n|e| |] os]; [by split|..];
      apply Forall_cons in Ho as [[? _] Ho]; by split.
  - intros s bs s' e Hl%echo_live_soft. by apply (live_send_err (live := bscript_live)).
  - intros s bs s' Hl%echo_live_soft. by apply (live_send_zero (live := bscript_live)).
Qed.

#[export] Instance echo_live_echo : LiveEcho bscript echo_live.
Proof.
  split.
  - intros s bs s' n [_ Ho] Hne. cbn [send bscript_socket]. unfold bscript_send, script_send.
    assert (0 < Z.of_nat (length bs)) as Hb by (destruct bs; [done|simpl; lia]).
    destruct (sc_out (b_script s)) as [|[k|e| |] os]; [by intros [= _ <-]| |done..].
    apply Forall_cons in Ho as [[_ Hk] _]. intros [= _ <-]. lia.
  - intros s n s' _. cbn [recv pending bscript_socket script_socket]. unfold script_recv.
    destruct (sc_in (b_script s)) as [|[b bs|e|] cs] eqn:Ei; [done| |done|intros [= <-]; simpl; rewrite Ei; simpl; lia].
    destruct (n <=? 0); [intros [= <-]; simpl; rewrite Ei; simpl; lia|]. destruct (drop _ _) eqn:Ed; [done|].
    intros [= <- _]. simpl. apply (f_equal length) in Ed. rewrite length_drop in Ed.
    simpl in *. lia.
Qed.

Definition demo_live : bscript := BScript demo_echo.
Definition demo_many : list (list Z * list Z) := replicate 2 (replicate 40 1, replicate 40 2).

Lemma tcp_echo_answers_witness :
  ∃ m' p' s', tcp_echo zero_block (replicate 8 0) demo_many (∅ : gmap Z Z) (new_inst 1000) demo_live
      = Ok (m', p', s', EMore, None) ∧
    sent s' = sent demo_live ++ concat demo_frames ∧ stream s' = [] ∧ pool_idle m' p'.
Proof.
  apply (tcp_echo_answers (live := echo_live) zero_block (replicate 8 0) zero_block_length eq_refl
    demo_many demo_frames [] (∅ : gmap Z Z) (new_inst 1000) demo_live).
  - split; repeat (apply Forall_cons; split; [cbv [good_answer soft_answer soft_chunk]; naive_solver lia|]);
      by apply Forall_nil.
  - exact demo_frames_ok.
  - reflexivity.
  - reflexivity.
  - split; [by apply pool_inv_init|by apply demo_no_null].
  - apply Forall_replicate. split_and!; [by apply Forall_replicate..|vm_compute; lia|vm_compute; lia].
Defined.
