(* ===== verification/PoolClient.v ===== *)
(** * Coroutines that hold buffers of a pool

    A pool and a heap shared by several holders: taking a buffer and giving one
    back keep the accounting of [ByteBuffer], and no block is null as long as the
    heap does not run out. *)

From S2P Require Import Prelude ByteBuffer RequestProps EchoServer.

Section holders.
Context {M : Type} `{!Allocator M} `{!AllocatorLaws M}.
Context `{!MultimapFind byte_buffer_data}.

Definition nonnull (b : byte_buffer_impl) : Prop := m_data (m_d b) ≠ 0.

(** The pool while one holder has [bs] and the others have [others]. *)
Definition pool_holds (m : M) (p : buffer_pool) (bs others : list byte_buffer_impl) : Prop :=
  pool_inv (PoolSys m p (bs ++ others)) ∧ no_null m p.

Lemma pool_holds_perm m p bs others bs' others' :
  bs ++ others ≡ₚ bs' ++ others' → pool_holds m p bs others → pool_holds m p bs' others'.
Proof. intros Hp [H1 H2]. split; [by eapply pool_inv_perm|done]. Qed.

Lemma drop_ok h m p others :
  pool_holds m p (held_by h) others → Forall nonnull (held_by h) →
  ∃ m' p', drop_buffer h m p = Ok (m', p') ∧ pool_holds m' p' [] others.
Proof.
  intros [Hp Hc] Hnn. destruct h as [[b mem]|]; [|by exists m, p].
  destruct (release_inv (PoolSys m p (b :: others)) 0 b Hp eq_refl) as (m' & p' & E & Hi).
  exists m', p'. split; [done|]. split; [done|].
  apply Forall_cons in Hnn as [Hb _]. apply (release_nonnull m p b m' p' E Hb Hc).
Qed.

(** A buffer for a request the pool can serve: aligned, large enough, not null. *)
Lemma malloc_ok m p n k h others :
  request_ok n k h → pool_holds m p [] others →
  ∃ m' p' b, malloc m p n k h = Ok (m', p', b) ∧ pool_holds m' p' [b] others ∧ nonnull b ∧
    (2 ^ k | base b) ∧ n <= capacity b < 2 ^ 32.
Proof.
  intros Hr [Hp Hc]. pose proof Hr as ([Hk _] & Hn & Hh & _).
  destruct (malloc_spec m p n k h Hr (inv_cache _ Hp)) as (m' & p' & d & E & Hd & Hlen & Hal & _).
  destruct (sys_step_inv _ (OpMalloc n k h) Hp Hr) as (s & Es & Hs).
  cbn [sys_step sys_mem sys_pool] in Es. rewrite E in Es. injection Es as <-.
  eexists m', p', _. split; [exact E|].
  destruct (malloc_nonnull _ _ _ _ _ _ _ _ Hk Hc E) as [Hb Hc'].
  split; [by split|]. split; [exact Hb|]. destruct Hd as (_ & _ & Hdiv & _ & Hl32 & _).
  rewrite Hal in Hdiv. split; [exact Hdiv|]. unfold capacity. simpl.
  pose proof (body_of_ge k n Hk). pose proof (header_of_nonneg k h Hk Hh).
  unfold total_of in Hlen. lia.
Qed.

(** The window of a buffer is its holder's business. *)
Lemma window_ok m p b pos len others :
  pool_holds m p [b] others → pool_holds m p [set_data_offset pos len b] others.
Proof.
  intros [Hp Hc]. split; [|done].
  destruct (sys_step_inv _ (OpWindow 0 pos len) Hp I) as (s & Es & Hs).
  cbn in Es. by injection Es as <-.
Qed.
End holders.
