(* ===== verification/PingPong.v ===== *)
(** * The ping-pong programs ([test/pp-serv.cpp], [test/pp-client.cpp])

    The coroutines of the two ends of a connection: [tcp_echo1] and [tcp_echo2] of
    the server, [send_recv] of the clients.  They use [recv_lazy] and [send_lazy] on
    one array of their own.  As in [EchoServer], each wait is given the readiness
    events it gets.  The counters and log lines are left out. *)

From S2P Require Import Prelude ByteBuffer Socket NioAwaiter NioProps ZioProps RequestProps EchoServer.

Section coroutines.
Context {S : Type} `{!Socket S}.

(** A wait of [recv_lazy] on the part of the array [buff] that starts at [off]
    and is [len] bytes long ([size_t]). *)
Definition recv_part (evs : list Z) (buff : list Z) (off len : Z) (s : S)
    : res (list Z * S * outcome * Z) :=
  require (off + len <=? Z.of_nat (length buff)) OutOfBounds ≫= λ _,
  '(a, s, o) ← recv_lazy_events evs (new_recv_lazy (read_at buff off len)) s;
  buff ← write_at buff off (rl_buff a);
  Ok (buff, s, o, rl_result a).

(** A wait of [send_lazy] on the first [len] bytes. *)
Definition send_part (evs : list Z) (buff : list Z) (len : Z) (s : S) : res (S * outcome * Z) :=
  require (len <=? Z.of_nat (length buff)) OutOfBounds ≫= λ _,
  '(a, s, o) ← send_lazy_events evs (new_send_lazy (read_at buff 0 len)) s;
  Ok (s, o, sl_result a).

(** One turn of the loop of [tcp_echo1]: [N] bytes in, [N] bytes out. *)
Definition echo1_round (N : Z) (evr evw : list Z) (buff : list Z) (s : S) : res (list Z * S * echo_ret) :=
  '(buff, s, o, len) ← recv_part evr buff 0 N s;
  match o with
  | Rearmed => Ok (buff, s, EWait)
  | Resumed =>
      if negb (len =? N) then Ok (buff, s, EBreak)
      else
        '(s, o, len) ← send_part evw buff N s;
        match o with
        | Rearmed => Ok (buff, s, EWait)
        | Resumed => if negb (len =? N) then Ok (buff, s, EBreak) else Ok (buff, s, EMore)
        end
  end.

(** One turn of the loop of [tcp_echo2]: four bytes of length, the payload, and
    both back. *)
Definition echo2_round (evh evr evw : list Z) (buff : list Z) (s : S) : res (list Z * S * echo_ret) :=
  '(buff, s, o, len) ← recv_part evh buff 0 4 s;
  match o with
  | Rearmed => Ok (buff, s, EWait)
  | Resumed =>
      if len =? 0 then Ok (buff, s, EBreak)
      else if negb (len =? 4) then Ok (buff, s, EBreak)
      else
        let len_n := i32 (be_combine 0 (take 4 buff)) in
        '(buff, s, o, len) ← recv_part evr buff 4 (u64 len_n) s;
        match o with
        | Rearmed => Ok (buff, s, EWait)
        | Resumed =>
            if len =? 0 then Ok (buff, s, EBreak)
            else if negb (len =? len_n) then Ok (buff, s, EBreak)
            else
              require (int_ok (len + 4)) SignedOverflow ≫= λ _,
              '(s, o, len_s) ← send_part evw buff (u64 (len + 4)) s;
              match o with
              | Rearmed => Ok (buff, s, EWait)
              | Resumed =>
                  if negb (len + 4 =? len_s) then Ok (buff, s, EBreak) else Ok (buff, s, EMore)
              end
        end
  end.

(** The [for (;;)] loop of [tcp_echo2], for the turns that begin. *)
Fixpoint tcp_echo2 (rounds : list (list Z * list Z * list Z)) (buff : list Z) (s : S)
    : res (list Z * S * echo_ret) :=
  match rounds with
  | [] => Ok (buff, s, EMore)
  | (evh, evr, evw) :: rounds =>
      '(buff, s, r) ← echo2_round evh evr evw buff s;
      match r with EMore => tcp_echo2 rounds buff s | _ => Ok (buff, s, r) end
  end.
Fixpoint tcp_echo1 (N : Z) (rounds : list (list Z * list Z)) (buff : list Z) (s : S)
    : res (list Z * S * echo_ret) :=
  match rounds with
  | [] => Ok (buff, s, EMore)
  | (evr, evw) :: rounds =>
      '(buff, s, r) ← echo1_round N evr evw buff s;
      match r with EMore => tcp_echo1 N rounds buff s | _ => Ok (buff, s, r) end
  end.

(** [send_recv]: the array is filled with 'X' and starts with the length of what
    follows; the client of the request server clears the two bytes after it. *)
Definition client_buffer (request : bool) (send_len : Z) : res (list Z) :=
  let buff := replicate (Z.to_nat send_len) 88 in
  buff ← write_at buff 0 (be_split 4 (u32 (send_len - 4)));
  if request then buff ← write_at buff 4 [0]; write_at buff 5 [0] else Ok buff.

(** A turn of its loop: the array out, and an answer of the same length in. *)
Definition client_send (send_len : Z) (evw : list Z) (buff : list Z) (s : S) : res (S * echo_ret) :=
  '(s, o, len) ← send_part evw buff (u64 send_len) s;
  match o with
  | Rearmed => Ok (s, EWait)
  | Resumed => if negb (len =? send_len) then Ok (s, EBreak) else Ok (s, EMore)
  end.
Definition client_recv (send_len : Z) (evr : list Z) (buff : list Z) (s : S)
    : res (list Z * S * echo_ret) :=
  '(buff, s, o, len) ← recv_part evr buff 0 (u64 send_len) s;
  match o with
  | Rearmed => Ok (buff, s, EWait)
  | Resumed => if negb (len =? send_len) then Ok (buff, s, EBreak) else Ok (buff, s, EMore)
  end.
Definition client_round (send_len : Z) (evw evr : list Z) (buff : list Z) (s : S)
    : res (list Z * S * echo_ret) :=
  '(s, r) ← client_send send_len evw buff s;
  match r with EMore => client_recv send_len evr buff s | _ => Ok (buff, s, r) end.

(** The loop of [send_recv]; a round is a turn of [i < count]. *)
Fixpoint send_recv_loop (send_len : Z) (rounds : list (list Z * list Z)) (buff : list Z) (s : S)
    : res (list Z * S * echo_ret) :=
  match rounds with
  | [] => Ok (buff, s, EMore)
  | (evw, evr) :: rounds =>
      '(buff, s, r) ← client_round send_len evw evr buff s;
      match r with EMore => send_recv_loop send_len rounds buff s | _ => Ok (buff, s, r) end
  end.

Definition send_recv (request : bool) (send_len : Z) (rounds : list (list Z * list Z)) (s : S)
    : res (list Z * S * echo_ret) :=
  buff ← client_buffer request send_len;
  send_recv_loop send_len rounds buff s.
End coroutines.

(** ** Waits on a live connection *)

Section waits.
Context {S : Type} `{!Socket S} `{!SocketLaws S}.
Context {live : S → Prop} `{!LiveSocket S live} `{!LiveSend S live} `{!LiveEcho S live}.

(** A wait has more events than its connection has interruptions ahead. *)
Definition patient (s : S) (evs : list Z) : Prop := Forall (λ ev, 0 < ev) evs ∧ (pending s < length evs)%nat.

Lemma patient_mono s s' evs : (pending s' ≤ pending s)%nat → patient s evs → patient s' evs.
Proof. intros Hp [? ?]. split; [done|lia]. Qed.

(** From [s] to [s'] the connection stayed alive, [i] was read and [o] was sent. *)
Record moved (s : S) (i o : list Z) (s' : S) : Prop := {
  mv_live : live s';
  mv_pending : (pending s' ≤ pending s)%nat;
  mv_in : stream s = i ++ stream s';
  mv_out : sent s' = sent s ++ o;
}.

Lemma moved_trans s1 s2 s3 i1 o1 i2 o2 :
  moved s1 i1 o1 s2 → moved s2 i2 o2 s3 → moved s1 (i1 ++ i2) (o1 ++ o2) s3.
Proof.
  intros [_ P1 I1 O1] [L2 P2 I2 O2]. split; [done|lia| |].
  - by rewrite I1, I2, app_assoc.
  - by rewrite O2, O1, app_assoc.
Qed.

Lemma recv_lazy_loop_calm fuel a s a' s' o :
  recv_lazy_loop fuel a s = Ok (a', s', o) → calm (live := live) s s'.
Proof.
  revert a s. induction fuel as [|fuel IH]; intros a s; [done|]. cbn [recv_lazy_loop].
  destruct (_ <? _); [|intros [= _ <- _]; by intros Hl].
  destruct (recv s _) as [s1 r] eqn:E. apply (recv_calm (live := live) (replicate 8 0) eq_refl) in E.
  destruct r as [[|b bs]|e|]; [by intros [= _ <- _]| | |done].
  - intros H. res_inv. apply IH in H. intros Hl. destruct (E Hl) as [L1 P1]. destruct (H L1). split; [done|lia].
  - repeat case_cond; [by intros [= _ <- _]| |by intros [= _ <- _]].
    intros H. apply IH in H. intros Hl. destruct (E Hl) as [L1 P1]. destruct (H L1). split; [done|lia].
Qed.

Lemma recv_lazy_calm evs a s a' s' o :
  recv_lazy_events evs a s = Ok (a', s', o) → calm (live := live) s s'.
Proof.
  revert a s. induction evs as [|ev evs IH]; intros a s; cbn [recv_lazy_events].
  { intros [= _ <- _]. by intros Hl. }
  intros H. res_inv. destruct a0 as [[a1 s1] o1]. unfold recv_lazy_on_file_event in E.
  assert (calm (live := live) s s1) as Hc.
  { destruct (ev <=? 0); [injection E as _ <- _; by intros Hl|by eapply recv_lazy_loop_calm]. }
  destruct o1; [|by injection H as _ <- _].
  apply IH in H. intros Hl. destruct (Hc Hl) as [L1 P1]. destruct (H L1). split; [done|lia].
Qed.

(** The bytes wanted are on the stream: the wait ends with them in the array. *)
Lemma recv_part_live evs buff off len s want rest :
  live s → patient s evs → stream s = want ++ rest → Z.of_nat (length want) = len → len < 2 ^ 31 →
  0 <= off → off + len <= Z.of_nat (length buff) →
  ∃ s', recv_part evs buff off len s =
      Ok (take (Z.to_nat off) buff ++ want ++ drop (Z.to_nat off + length want) buff, s', Resumed, len) ∧
    moved s want [] s'.
Proof.
  intros Hl [Hev Hp] Hs Hw Hlen Hoff Hle. unfold recv_part.
  rewrite (proj2 (Z.leb_le _ _)) by done. cbn [require mbind res_bind].
  assert (length (read_at buff off len) = length want) as Hr.
  { unfold read_at. rewrite length_take, length_drop. lia. }
  destruct (recv_lazy_events_spec (live := live) evs (new_recv_lazy (read_at buff off len)) s)
    as (a & s' & o & bs & E & [[P1 P2 _] _ P3 P4 _ P6 _] & X); [done..|unfold rl_size; simpl; lia|unfold rl_size; simpl; lia|].
  destruct (recv_lazy_calm _ _ _ _ _ _ E Hl) as [L P]. rewrite E. cbn [mbind res_bind].
  unfold rl_exit, rl_size in X. simpl in *. rewrite Hr in *.
  assert (rl_recved_bytes a < Z.of_nat (length want) → stream s' ≠ []) as Hne.
  { intros Hlt Hnil. rewrite Hnil, app_nil_r in P1. apply (f_equal length) in P1.
    rewrite Hs, length_app in P1. lia. }
  destruct o.
  { destruct X as (_ & [X|[-> _]] & Y); [|simpl in Hp; lia]. specialize (Y Hl (Hne X)). lia. }
  destruct X as [[Hres Hk]|[Hlt [[_ ?]|[_ Y]]]]; [|by destruct (Hne Hlt)|by destruct (Hne Hlt (Y Hl))].
  rewrite Hk, Nat2Z.id, <- P3, firstn_all in P6. rewrite Hs in P1. apply app_inj_1 in P1 as [Hb Hrest]; [|lia].
  rewrite P6, <- Hb, write_at_Ok by lia. cbn [mbind res_bind]. exists s'. rewrite Hres, Hw.
  split; [done|]. split; [done|done| |by rewrite app_nil_r]. by rewrite Hs, Hrest.
Qed.

Lemma send_part_live evs buff len s :
  live s → patient s evs → 0 <= len < 2 ^ 31 → len <= Z.of_nat (length buff) →
  ∃ s', send_part evs buff len s = Ok (s', Resumed, len) ∧ moved s [] (take (Z.to_nat len) buff) s'.
Proof.
  intros Hl [Hev Hp] Hlen Hle. unfold send_part, read_at. rewrite (proj2 (Z.leb_le _ _)) by done.
  cbn [require mbind res_bind]. change (drop (Z.to_nat 0) buff) with buff. set (bs := take _ buff).
  assert (Z.of_nat (length bs) = len) as Hbs by (unfold bs; rewrite length_take; lia).
  destruct (send_lazy_events_spec evs (new_send_lazy bs) s) as (a & s' & o & E & [P1 _ P3 P4 P5] & X & _);
    [unfold sl_size; simpl; lia..|].
  destruct (send_lazy_events_live (live := live) (replicate 8 0) eq_refl evs (new_send_lazy bs) s a s' o)
    as (-> & Hres & L & P); [done..|unfold sl_size; simpl; lia|unfold sl_size; simpl; lia|done|].
  rewrite E. cbn [mbind res_bind]. exists s'. unfold sl_size in *. simpl in *. rewrite Hres, Hbs.
  split; [done|]. specialize (P4 (sent s)). rewrite take_0, app_nil_r in P4. specialize (P4 eq_refl).
  assert (sl_sended_bytes a = Z.of_nat (length bs)) as Hk.
  { destruct (X eq_refl) as [[? _]|Hm]; [done|]. rewrite Hres in Hm. lia. }
  split; [done|done|by rewrite P5|]. by rewrite P4, Hk, Nat2Z.id, firstn_all.
Qed.
End waits.

(** *** Waits in general *)

Section total.
Context {S : Type} `{!Socket S} `{!SocketLaws S}.

Lemma recv_lazy_events_app evs1 evs2 a (s : S) :
  recv_lazy_events (evs1 ++ evs2) a s =
  '(a, s, o) ← recv_lazy_events evs1 a s;
  match o with Rearmed => recv_lazy_events evs2 a s | Resumed => Ok (a, s, Resumed) end.
Proof.
  revert a s. induction evs1 as [|ev evs1 IH]; intros a s; [done|].
  cbn [recv_lazy_events app]. destruct (recv_lazy_on_file_event _ _ _) as [[[a1 s1] o1]|f]; [|done].
  cbn [mbind res_bind]. destruct o1; [apply IH|done].
Qed.

(** Whatever the socket answers and the loop reports, a wait stays within the array. *)
Lemma recv_part_total evs buff len (s : S) :
  0 <= len <= Z.of_nat (length buff) → len < 2 ^ 31 →
  ∃ buff' s' o r, recv_part evs buff 0 len s = Ok (buff', s', o, r) ∧ length buff' = length buff.
Proof.
  intros Hlen Hlt. unfold recv_part. rewrite (proj2 (Z.leb_le _ _)) by lia. cbn [require mbind res_bind].
  assert (Z.of_nat (length (read_at buff 0 len)) = len) as Hr.
  { unfold read_at. rewrite length_take, length_drop. simpl. lia. }
  assert (∃ a s' o, recv_lazy_events evs (new_recv_lazy (read_at buff 0 len)) s = Ok (a, s', o) ∧
    length (rl_buff a) = length (read_at buff 0 len)) as (a & s' & o & -> & Ha).
  { destruct (events_split evs) as (good & bad & -> & Hgood & Hbad).
    destruct (recv_lazy_events_spec (live := λ _, False) good (new_recv_lazy (read_at buff 0 len)) s)
      as (a & s' & o & bs & E & P & _); [done|done|unfold rl_size; simpl; lia|unfold rl_size; simpl; lia|].
    rewrite recv_lazy_events_app, E. cbn [mbind res_bind]. pose proof (rlp_size _ _ _ _ _ P) as Hl.
    destruct o; [|by exists a, s', Resumed]. destruct bad as [|ev bad]; [by exists a, s', Rearmed|].
    cbn [recv_lazy_events]. unfold recv_lazy_on_file_event. rewrite (proj2 (Z.leb_le ev 0)) by done.
    by exists a, s', Resumed. }
  cbn [mbind res_bind]. rewrite write_at_Ok by lia. cbn [mbind res_bind].
  eexists _, s', o, _. split; [done|]. change (Z.to_nat 0) with 0%nat. simpl.
  rewrite length_app, length_drop. lia.
Qed.

Lemma send_part_total evs buff len (s : S) :
  0 <= len <= Z.of_nat (length buff) → len < 2 ^ 31 → ∃ s' o r, send_part evs buff len s = Ok (s', o, r).
Proof.
  intros Hlen Hlt. unfold send_part. rewrite (proj2 (Z.leb_le _ _)) by lia. cbn [require mbind res_bind].
  assert (Z.of_nat (length (read_at buff 0 len)) = len) as Hr.
  { unfold read_at. rewrite length_take, length_drop. simpl. lia. }
  destruct (send_lazy_events_spec evs (new_send_lazy (read_at buff 0 len)) s)
    as (a & s' & o & -> & _); [unfold sl_size; simpl; lia..|]. by eexists _, _, _.
Qed.

Lemma send_recv_total rounds buff (s : S) :
  Z.of_nat (length buff) < 2 ^ 31 →
  ∃ buff' s' r, send_recv_loop (Z.of_nat (length buff)) rounds buff s = Ok (buff', s', r).
Proof.
  revert buff s. induction rounds as [|[evw evr] rounds IH]; intros buff s Hb; [by exists buff, s, EMore|].
  cbn [send_recv_loop]. unfold client_round, client_send, client_recv. rewrite u64_small by lia.
  destruct (send_part_total evw buff (Z.of_nat (length buff)) s) as (s1 & o & len & ->); [lia..|].
  cbn [mbind res_bind]. destruct o; cbn [mbind res_bind]; [by exists buff, s1, EWait|].
  destruct (len =? _); cbn [negb mbind res_bind]; [|by exists buff, s1, EBreak].
  destruct (recv_part_total evr buff (Z.of_nat (length buff)) s1) as (b & s2 & o & r & -> & Hl); [lia..|].
  cbn [mbind res_bind]. destruct o; cbn [mbind res_bind]; [by exists b, s2, EWait|].
  destruct (r =? _); cbn [negb mbind res_bind]; [|by exists b, s2, EBreak].
  rewrite <- Hl. apply IH. by rewrite Hl.
Qed.
End total.

(** The last of a list's elements, or [x]. *)
Fixpoint last_of {A} (x : A) (l : list A) : A :=
  match l with [] => x | y :: l => last_of y l end.

(** ** Rounds *)

(** What [tcp_echo2] and its client exchange. *)
Definition pp_frame (payload : list Z) : list Z := be_split 4 (Z.of_nat (length payload)) ++ payload.

Lemma pp_frame_length payload : length (pp_frame payload) = (4 + length payload)%nat.
Proof. unfold pp_frame. by rewrite length_app, be_split_length. Qed.

Section rounds.
Context {S : Type} `{!Socket S} `{!SocketLaws S}.
Context {live : S → Prop} `{!LiveSocket S live} `{!LiveSend S live} `{!LiveEcho S live}.

#[local] Abbreviation moved := (moved (live := live)).

Lemma echo2_round_live payload rest evh evr evw buff (s : S) :
  live s → patient s evh → patient s evr → patient s evw →
  stream s = pp_frame payload ++ rest → payload ≠ [] →
  Z.of_nat (4 + length payload) <= Z.of_nat (length buff) < 2 ^ 31 - 4 →
  ∃ buff' s', echo2_round evh evr evw buff s = Ok (buff', s', EMore) ∧ length buff' = length buff ∧
    moved s (pp_frame payload) (pp_frame payload) s'.
Proof.
  intros Hl Hh Hr Hw Hs Hne Hlen. unfold pp_frame in *. remember (length payload) as n eqn:En.
  set (hd := be_split 4 (Z.of_nat n)) in *.
  assert (0 < n)%nat as Hn by (rewrite En; destruct payload; [done|simpl; lia]).
  assert (length hd = 4%nat) as Hhd by apply be_split_length.
  assert (be_combine 0 hd = Z.of_nat n) as Hc by (unfold hd; rewrite be_combine_split, Z.mod_small; lia).
  rewrite <- app_assoc in Hs. clearbody hd.
  destruct (recv_part_live (live := live) evh buff 0 4 s hd (payload ++ rest)) as (s1 & E1 & M1);
    [done|done|done|lia..|].
  unfold echo2_round. rewrite E1. cbn [mbind res_bind]. cbv zeta.
  rewrite Hhd. change (Z.to_nat 0) with 0%nat. rewrite take_0, app_nil_l. simpl (0 + 4)%nat.
  set (buff1 := hd ++ drop 4 buff). assert (length buff1 = length buff) as Hb1.
  { unfold buff1. rewrite length_app, length_drop, Hhd. simpl. lia. }
  assert (take 4 buff1 = hd) as Hh1.
  { unfold buff1. rewrite take_app_le by lia. by rewrite take_ge by lia. }
  clearbody buff1. simpl negb. cbv iota. rewrite Hh1, Hc, i32_small, u64_small by lia.
  destruct (recv_part_live (live := live) evr buff1 4 (Z.of_nat n) s1 payload rest) as (s2 & E2 & M2);
    [apply M1|eapply patient_mono; [apply M1|done]| |lia..|].
  { pose proof (mv_in _ _ _ _ M1) as Hi. rewrite Hs in Hi. by apply app_inv_head in Hi. }
  rewrite E2. cbn [mbind res_bind]. change (Z.to_nat 4) with 4%nat. rewrite Hh1.
  set (buff2 := hd ++ payload ++ drop (4 + length payload) buff1).
  assert (length buff2 = length buff) as Hb2.
  { unfold buff2. rewrite !length_app, length_drop, Hhd. lia. }
  rewrite (proj2 (Z.eqb_neq (Z.of_nat n) 0)), Z.eqb_refl by lia. simpl negb. cbv iota.
  rewrite (proj2 (int_ok_spec _)) by lia. cbn [require mbind res_bind]. rewrite u64_small by lia.
  destruct (send_part_live (live := live) evw buff2 (Z.of_nat n + 4) s2) as (s3 & E3 & M3);
    [apply M2|eapply patient_mono; [|done]; etrans; [apply M2|apply M1]|lia|lia|].
  rewrite E3. cbn [mbind res_bind]. rewrite Z.eqb_refl. simpl negb. cbv iota.
  exists buff2, s3. split; [done|]. split; [done|].
  assert (take (Z.to_nat (Z.of_nat n + 4)) buff2 = hd ++ payload) as Ht.
  { unfold buff2. rewrite app_assoc. rewrite take_app_le by (rewrite length_app; lia).
    apply take_ge. rewrite length_app. lia. }
  rewrite Ht in M3. pose proof (moved_trans _ _ _ _ _ _ _ (moved_trans _ _ _ _ _ _ _ M1 M2) M3) as M.
  by rewrite app_nil_r in M.
Qed.

Lemma client_send_live evw buff (s : S) :
  live s → patient s evw → Z.of_nat (length buff) < 2 ^ 31 →
  ∃ s', client_send (Z.of_nat (length buff)) evw buff s = Ok (s', EMore) ∧ moved s [] buff s'.
Proof.
  intros Hl Hw Hlen. unfold client_send. rewrite u64_small by lia.
  destruct (send_part_live (live := live) evw buff (Z.of_nat (length buff)) s) as (s1 & -> & M1); [done|done|lia..|].
  cbn [mbind res_bind]. rewrite Z.eqb_refl. exists s1. split; [done|].
  by rewrite Nat2Z.id, firstn_all in M1.
Qed.

(** The answer takes the place of the array, whatever it is. *)
Lemma client_recv_live evr buff answer rest (s : S) :
  live s → patient s evr → stream s = answer ++ rest → length answer = length buff →
  Z.of_nat (length buff) < 2 ^ 31 →
  ∃ s', client_recv (Z.of_nat (length buff)) evr buff s = Ok (answer, s', EMore) ∧ moved s answer [] s'.
Proof.
  intros Hl Hr Hs Ha Hlen. unfold client_recv. rewrite u64_small by lia.
  destruct (recv_part_live (live := live) evr buff 0 (Z.of_nat (length buff)) s answer rest) as (s2 & -> & M2);
    [done|done|done|lia..|].
  cbn [mbind res_bind]. rewrite Z.eqb_refl. simpl negb. cbv iota.
  change (take (Z.to_nat 0) buff) with ([] : list Z). rewrite app_nil_l.
  rewrite drop_ge, app_nil_r by (simpl; lia). by exists s2.
Qed.

(** ** Loops *)

Definition payload_ok (buff payload : list Z) : Prop :=
  payload ≠ [] ∧ Z.of_nat (4 + length payload) <= Z.of_nat (length buff).

Lemma tcp_echo2_live payloads rest rounds buff (s : S) :
  live s → Forall (λ r, patient s r.1.1 ∧ patient s r.1.2 ∧ patient s r.2) rounds →
  length rounds = length payloads → stream s = concat (pp_frame <$> payloads) ++ rest →
  Forall (payload_ok buff) payloads → Z.of_nat (length buff) < 2 ^ 31 - 4 →
  ∃ buff' s', tcp_echo2 rounds buff s = Ok (buff', s', EMore) ∧
    moved s (concat (pp_frame <$> payloads)) (concat (pp_frame <$> payloads)) s'.
Proof.
  revert rounds buff s. induction payloads as [|p ps IH]; intros [|[[evh evr] evw] rounds] buff s Hl Hev Hn Hs Hp Hb;
    try done.
  { exists buff, s. split; [done|]. split; [done|done|done|by rewrite app_nil_r]. }
  apply Forall_cons in Hev as [(Eh & Er & Ew) Hev]. apply Forall_cons in Hp as [[Hne Hle] Hp].
  rewrite fmap_cons in *. cbn [concat] in *. cbn [fst snd] in Eh, Er, Ew.
  rewrite <- app_assoc in Hs. cbn [tcp_echo2].
  destruct (echo2_round_live p _ evh evr evw buff s Hl Eh Er Ew Hs Hne) as (b1 & s1 & -> & Hb1 & M1); [lia|].
  cbn [mbind res_bind]. destruct (IH rounds b1 s1) as (b2 & s2 & E & M2); [apply M1| |simpl in Hn; lia| | |lia|].
  - eapply Forall_impl; [exact Hev|]. intros r (? & ? & ?).
    split_and!; (eapply patient_mono; [apply M1|done]).
  - pose proof (mv_in _ _ _ _ M1) as Hi. rewrite Hs in Hi. by apply app_inv_head in Hi.
  - eapply Forall_impl; [exact Hp|]. intros q [? ?]. split; [done|]. by rewrite Hb1.
  - exists b2, s2. split; [done|]. by eapply moved_trans.
Qed.

(** The client against a peer that answers every round with as many bytes: what
    it receives is what it sends next. *)
Lemma send_recv_live answers rest rounds buff (s : S) :
  live s → Forall (λ r, patient s r.1 ∧ patient s r.2) rounds → length rounds = length answers →
  stream s = concat answers ++ rest → Forall (λ a, length a = length buff) answers →
  Z.of_nat (length buff) < 2 ^ 31 →
  ∃ s', send_recv_loop (Z.of_nat (length buff)) rounds buff s = Ok (last_of buff answers, s', EMore) ∧
    moved s (concat answers) (concat (take (length answers) (buff :: answers))) s'.
Proof.
  revert rounds buff s. induction answers as [|a answers IH];
    intros [|[evw evr] rounds] buff s Hl Hev Hn Hs Ha Hb; try done.
  { exists s. split; [done|]. split; [done|done|done|by rewrite app_nil_r]. }
  apply Forall_cons in Hev as [[Ew Er] Hev]. apply Forall_cons in Ha as [Hla Ha].
  simpl in Hs, Ew, Er. rewrite <- app_assoc in Hs.
  cbn [send_recv_loop]. unfold client_round.
  destruct (client_send_live evw buff s Hl Ew Hb) as (s1 & -> & M1). cbn [mbind res_bind].
  pose proof (mv_in _ _ _ _ M1) as Hi. simpl in Hi. rewrite Hi in Hs.
  destruct (client_recv_live evr buff a (concat answers ++ rest) s1) as (s2 & -> & M2);
    [apply M1|eapply patient_mono; [apply M1|done]|done|done|done|]. cbn [mbind res_bind].
  pose proof (moved_trans _ _ _ _ _ _ _ M1 M2) as M. rewrite app_nil_l, app_nil_r in M. rewrite <- Hla.
  destruct (IH rounds a s2) as (s3 & E & M3); [apply M| |by injection Hn| | |by rewrite Hla|].
  - eapply Forall_impl; [exact Hev|]. intros r [? ?]. split; (eapply patient_mono; [apply M|done]).
  - pose proof (mv_in _ _ _ _ M2) as Hi2. rewrite Hs in Hi2. by apply app_inv_head in Hi2.
  - eapply Forall_impl; [exact Ha|]. intros x ->. done.
  - exists s3. split; [exact E|]. exact (moved_trans _ _ _ _ _ _ _ M M3).
Qed.
End rounds.

(** The arrays the two clients send are frames of the protocols of their servers. *)
Lemma client_buffer_ping send_len :
  4 <= send_len < 2 ^ 31 →
  client_buffer false send_len = Ok (pp_frame (replicate (Z.to_nat (send_len - 4)) 88)).
Proof.
  intros H. unfold client_buffer. rewrite write_at_Ok; [|done|rewrite be_split_length, length_replicate; lia].
  cbn [mbind res_bind]. rewrite u32_small, be_split_length by lia. unfold pp_frame. rewrite length_replicate.
  rewrite Z2Nat.id by lia. change (Z.to_nat 0) with 0%nat. rewrite take_0, app_nil_l, drop_replicate.
  f_equal. f_equal. f_equal. lia.
Qed.

Lemma client_buffer_request send_len :
  6 <= send_len < 2 ^ 31 →
  client_buffer true send_len = Ok (encode_frame 0 0 (replicate (Z.to_nat (send_len - 6)) 88)).
Proof.
  intros H. unfold client_buffer.
  rewrite write_at_Ok; [|done|rewrite be_split_length, length_replicate; lia].
  cbn [mbind res_bind]. rewrite u32_small, be_split_length by lia. change (Z.to_nat 0) with 0%nat.
  rewrite take_0, app_nil_l, drop_replicate. simpl (0 + 4)%nat.
  replace (Z.to_nat send_len - 4)%nat with (2 + Z.to_nat (send_len - 6))%nat by lia.
  set (hd := be_split 4 _). assert (length hd = 4%nat) as Hh by apply be_split_length.
  rewrite write_at_Ok; [|done|rewrite length_app, Hh, length_replicate; simpl; lia]. cbn [mbind res_bind].
  change (Z.to_nat 4) with 4%nat. rewrite take_app_le, take_ge by lia.
  rewrite drop_app_ge by (rewrite Hh; simpl; lia). rewrite Hh. simpl (4 + length [0] - 4)%nat.
  rewrite drop_replicate.
  rewrite write_at_Ok; [|done|rewrite !length_app, Hh, length_replicate; simpl; lia].
  change (Z.to_nat 5) with 5%nat. unfold encode_frame. rewrite length_replicate.
  replace (2 + Z.of_nat (Z.to_nat (send_len - 6))) with (send_len - 4) by lia. fold hd.
  rewrite take_app_ge, drop_app_ge by (rewrite Hh; simpl; lia). rewrite Hh. simpl.
  by rewrite drop_0.
Qed.

(** ** Both ends *)

(** Connected sockets: what one end has sent is put on the stream of the other.
    The stream holds what is bound to arrive; when it does, and in which pieces, is
    still the kernel's affair, so [deliver] may put any delays ahead. *)
Class Link (S : Type) `{!Socket S} (live : S → Prop) := {
  deliver : list Z → S → S;
  deliver_stream bs s : stream (deliver bs s) = stream s ++ bs;
  deliver_sent bs s : sent (deliver bs s) = sent s;
  deliver_live bs s : live s → live (deliver bs s);
}.

Section link.
Context {S : Type} `{!Socket S} {live : S → Prop} `{!Link S live}.
(** The readiness events a wait gets, by the socket it is for. *)
Variable events : S → list Z.

(** The bytes sent between two states of an end. *)
Definition newly_sent (s s' : S) : list Z := drop (length (sent s)) (sent s').

(** A turn of [send_recv]'s loop and the turn of [tcp_echo2]'s that answers it:
    the client sends, its bytes go to the server, the server's to the client, which
    receives. *)
Definition exchange (send_len : Z) (cbuf sbuf : list Z) (c s : S)
    : res (list Z * list Z * S * S * echo_ret) :=
  '(c1, r) ← client_send send_len (events c) cbuf c;
  match r with
  | EMore =>
      let s := deliver (newly_sent c c1) s in
      '(sbuf, s1, r) ← echo2_round (events s) (events s) (events s) sbuf s;
      match r with
      | EMore =>
          let c1 := deliver (newly_sent s s1) c1 in
          '(cbuf, c2, r) ← client_recv send_len (events c1) cbuf c1;
          Ok (cbuf, sbuf, c2, s1, r)
      | _ => Ok (cbuf, sbuf, c1, s1, r)
      end
  | _ => Ok (cbuf, sbuf, c1, s, r)
  end.

Fixpoint exchanges (count : nat) (send_len : Z) (cbuf sbuf : list Z) (c s : S)
    : res (list Z * list Z * S * S * echo_ret) :=
  match count with
  | O => Ok (cbuf, sbuf, c, s, EMore)
  | Datatypes.S count =>
      '(cbuf, sbuf, c, s, r) ← exchange send_len cbuf sbuf c s;
      match r with
      | EMore => exchanges count send_len cbuf sbuf c s
      | _ => Ok (cbuf, sbuf, c, s, r)
      end
  end.

(** [send_recv] of one end against [tcp_echo2] of the other. *)
Definition ping_pong_run (count : nat) (send_len : Z) (sbuf : list Z) (c s : S)
    : res (list Z * list Z * S * S * echo_ret) :=
  cbuf ← client_buffer false send_len;
  exchanges count send_len cbuf sbuf c s.
End link.

Section both.
Context {S : Type} `{!Socket S} `{!SocketLaws S}.
Context {live : S → Prop} `{!LiveSocket S live} `{!LiveSend S live} `{!LiveEcho S live} `{!Link S live}.

Lemma newly_sent_app (s s' : S) o : sent s' = sent s ++ o → newly_sent s s' = o.
Proof. intros E. unfold newly_sent. by rewrite E, drop_app_length. Qed.

(** An end between two turns: everything sent to it has been read. *)
Definition at_rest (s : S) : Prop := live s ∧ stream s = [].

Lemma at_rest_deliver (s : S) bs : at_rest s → live (deliver bs s) ∧ stream (deliver bs s) = bs ++ [].
Proof. intros [Hl Hs]. split; [by apply deliver_live|]. by rewrite deliver_stream, Hs, app_nil_r. Qed.

Lemma moved_rest (s s' : S) i o : moved (live := live) s i o s' → stream s = i ++ [] → at_rest s'.
Proof. intros [Hl _ Hi _] Hs. split; [done|]. rewrite Hs in Hi. by apply app_inv_head in Hi. Qed.

Lemma exchange_live events p sbuf (c s : S) :
  (∀ s, live s → patient s (events s)) → at_rest c → at_rest s → payload_ok sbuf p →
  Z.of_nat (length sbuf) < 2 ^ 31 - 4 →
  ∃ sbuf' c' s', exchange events (Z.of_nat (length (pp_frame p))) (pp_frame p) sbuf c s
      = Ok (pp_frame p, sbuf', c', s', EMore) ∧ length sbuf' = length sbuf ∧
    at_rest c' ∧ at_rest s' ∧ sent c' = sent c ++ pp_frame p ∧ sent s' = sent s ++ pp_frame p.
Proof.
  intros Hev [Hc Hc0] Hs [Hne Hle] Hb. pose proof (pp_frame_length p) as Hpl. unfold exchange.
  destruct (client_send_live (live := live) (events c) (pp_frame p) c) as (c1 & -> & M1); [auto..|lia|].
  assert (at_rest c1) as R1 by (by apply (moved_rest _ _ _ _ M1)).
  cbn [mbind res_bind]. cbv zeta. rewrite (newly_sent_app c c1 _ (mv_out _ _ _ _ M1)).
  destruct (at_rest_deliver s (pp_frame p) Hs) as [Ls Ss].
  set (s1 := deliver (pp_frame p) s) in *.
  destruct (echo2_round_live (live := live) p [] (events s1) (events s1) (events s1) sbuf s1)
    as (sbuf' & s2 & -> & Hl & M2); [auto..|lia|].
  cbn [mbind res_bind]. rewrite (newly_sent_app s1 s2 _ (mv_out _ _ _ _ M2)).
  destruct (at_rest_deliver c1 (pp_frame p) R1) as [Lc Sc].
  set (c2 := deliver (pp_frame p) c1) in *.
  destruct (client_recv_live (live := live) (events c2) (pp_frame p) (pp_frame p) [] c2) as (c3 & -> & M3);
    [auto..|lia|].
  cbn [mbind res_bind]. exists sbuf', c3, s2. split_and!; [done|done|..].
  - by apply (moved_rest _ _ _ _ M3).
  - by apply (moved_rest _ _ _ _ M2).
  - rewrite (mv_out _ _ _ _ M3), app_nil_r. unfold c2. by rewrite deliver_sent, (mv_out _ _ _ _ M1).
  - rewrite (mv_out _ _ _ _ M2). unfold s1. by rewrite deliver_sent.
Qed.

Lemma exchanges_live events n p sbuf (c s : S) :
  (∀ s, live s → patient s (events s)) → at_rest c → at_rest s → payload_ok sbuf p →
  Z.of_nat (length sbuf) < 2 ^ 31 - 4 →
  ∃ sbuf' c' s', exchanges events n (Z.of_nat (length (pp_frame p))) (pp_frame p) sbuf c s
      = Ok (pp_frame p, sbuf', c', s', EMore) ∧ at_rest c' ∧ at_rest s' ∧
    sent c' = sent c ++ concat (replicate n (pp_frame p)) ∧
    sent s' = sent s ++ concat (replicate n (pp_frame p)).
Proof.
  intros Hev. revert sbuf c s. induction n as [|n IH]; intros sbuf c s Hc Hs Hp Hb.
  { exists sbuf, c, s. simpl. by rewrite !app_nil_r. }
  destruct (exchange_live events p sbuf c s Hev Hc Hs Hp Hb) as (b1 & c1 & s1 & E & Hl & Hc1 & Hs1 & Oc & Os).
  cbn [exchanges]. rewrite E. cbn [mbind res_bind].
  destruct (IH b1 c1 s1 Hc1 Hs1) as (b2 & c2 & s2 & -> & Hc2 & Hs2 & Oc2 & Os2);
    [by unfold payload_ok; rewrite Hl|lia|].
  exists b2, c2, s2. simpl. by rewrite Oc2, Oc, Os2, Os, <- !app_assoc.
Qed.

(** C5. The ping-pong client and the ping-pong server, connected: each end reads
    what the other has sent, in the pieces and with the delays the kernel chooses.  On
    a connection without hard errors, with more readiness events for every wait than
    its end has interruptions ahead, all the client's rounds complete: in every round
    it finds the array it sent in its buffer again, the server has sent back exactly
    what it was sent and waits for the next frame, and nothing is left on the way.
    (The client's array is longer than the four bytes of its header and fits the
    server's array.) *)
Theorem ping_pong (events : S → list Z) (count : nat) (send_len : Z) (frame sbuf : list Z) (c s : S)
  (Hlen : 4 < send_len <= Z.of_nat (length sbuf)) (Hbuf : Z.of_nat (length sbuf) < 2 ^ 31 - 4)
  (Hframe : client_buffer false send_len = Ok frame)
  (Hc : live c) (Hs : live s) (Hin_c : stream c = []) (Hin_s : stream s = [])
  (Hevents : ∀ s, live s → patient s (events s)) :
  ∃ sbuf' c' s',
    ping_pong_run events count send_len sbuf c s = Ok (frame, sbuf', c', s', EMore) ∧
    sent c' = sent c ++ concat (replicate count frame) ∧
    sent s' = sent s ++ concat (replicate count frame) ∧ stream c' = [] ∧ stream s' = [].
Proof.
  unfold ping_pong_run. rewrite client_buffer_ping in * by lia. set (p := replicate _ _) in *.
  injection Hframe as <-. assert (length p = Z.to_nat (send_len - 4)) as Hp by apply length_replicate.
  pose proof (pp_frame_length p) as Hl. replace send_len with (Z.of_nat (length (pp_frame p))) by lia.
  destruct (exchanges_live events count p sbuf c s) as (b & c' & s' & E & [_ ?] & [_ ?] & ? & ?);
    [done|by split|by split|split; [intros H; rewrite H in Hp; simpl in Hp; lia|lia]|lia|].
  by exists b, c', s'.
Qed.

(** [tcp_echo2] trusts the length it receives: one that does not fit its array makes
    it hand out a span that ends outside. *)
Lemma echo2_trusts_length (n : Z) rest evh evr evw buff (s : S) :
  live s → patient s evh → stream s = be_split 4 n ++ rest →
  4 <= Z.of_nat (length buff) < 4 + n → n < 2 ^ 31 →
  echo2_round evh evr evw buff s = Fail OutOfBounds.
Proof.
  intros Hl Hh Hs Hb Hn. set (hd := be_split 4 n) in *.
  assert (length hd = 4%nat) as Hhd by apply be_split_length.
  assert (be_combine 0 hd = n) as Hc by (unfold hd; rewrite be_combine_split, Z.mod_small; lia). clearbody hd.
  destruct (recv_part_live (live := live) evh buff 0 4 s hd rest) as (s1 & E1 & _); [done|done|done|lia..|].
  unfold echo2_round. rewrite E1. cbn [mbind res_bind]. cbv zeta. rewrite Hhd.
  change (Z.to_nat 0) with 0%nat. rewrite take_0, app_nil_l. simpl (0 + 4)%nat.
  rewrite take_app_le, take_ge by lia. simpl negb. cbv iota. rewrite Hc, i32_small, u64_small by lia.
  unfold recv_part. rewrite length_app, length_drop, Hhd. rewrite (proj2 (Z.leb_gt _ _)) by lia. done.
Qed.

(** A frame without payload ends the connection: the second wait returns 0, which
    is taken for the end of the stream. *)
Lemma echo2_empty_closes rest evh evr evw buff (s : S) :
  live s → patient s evh → patient s evr → stream s = pp_frame [] ++ rest →
  4 <= Z.of_nat (length buff) < 2 ^ 31 →
  ∃ buff' s', echo2_round evh evr evw buff s = Ok (buff', s', EBreak) ∧ stream s' = rest.
Proof.
  intros Hl Hh Hr Hs Hb. unfold pp_frame in Hs. rewrite <- app_assoc in Hs.
  set (hd := be_split 4 _) in *. assert (length hd = 4%nat) as Hhd by apply be_split_length.
  assert (be_combine 0 hd = 0) as Hc by (unfold hd; rewrite be_combine_split, Z.mod_small; simpl; lia). clearbody hd.
  destruct (recv_part_live (live := live) evh buff 0 4 s hd rest) as (s1 & E1 & M1); [done|done|done|lia..|].
  unfold echo2_round. rewrite E1. cbn [mbind res_bind]. cbv zeta. rewrite Hhd.
  change (Z.to_nat 0) with 0%nat. rewrite take_0, app_nil_l. simpl (0 + 4)%nat.
  rewrite take_app_le, take_ge by lia. simpl negb. cbv iota. rewrite Hc. change (u64 (i32 0)) with 0.
  pose proof (mv_in _ _ _ _ M1) as Hi. rewrite Hs in Hi. apply app_inv_head in Hi.
  destruct (recv_part_live (live := live) evr (hd ++ drop 4 buff) 4 0 s1 [] rest) as (s2 & -> & M2);
    [apply M1|eapply patient_mono; [apply M1|done]|done|done|lia|lia|rewrite length_app, length_drop; lia|].
  cbn [mbind res_bind]. eexists _, s2. split; [done|]. pose proof (mv_in _ _ _ _ M2) as Hi2.
  rewrite <- Hi in Hi2. by rewrite app_nil_l in Hi2.
Qed.

(** [tcp_echo1] sends whatever arrives back in pieces of [N] bytes. *)
Lemma tcp_echo1_live chunks rest (N : Z) rounds buff (s : S) :
  live s → Forall (λ r, patient s r.1 ∧ patient s r.2) rounds → length rounds = length chunks →
  stream s = concat chunks ++ rest → Forall (λ ch, Z.of_nat (length ch) = N) chunks →
  Z.of_nat (length buff) = N → N < 2 ^ 31 →
  ∃ buff' s', tcp_echo1 N rounds buff s = Ok (buff', s', EMore) ∧
    moved (live := live) s (concat chunks) (concat chunks) s'.
Proof.
  revert rounds buff s. induction chunks as [|ch chunks IH]; intros [|[evr evw] rounds] buff s Hl Hev Hn Hs Hc Hb HN;
    try done.
  { exists buff, s. split; [done|]. split; [done|done|done|by rewrite app_nil_r]. }
  apply Forall_cons in Hev as [[Er Ew] Hev]. apply Forall_cons in Hc as [Hch Hc].
  simpl in Hs, Er, Ew. rewrite <- app_assoc in Hs. cbn [tcp_echo1]. unfold echo1_round.
  destruct (recv_part_live (live := live) evr buff 0 N s ch _ Hl Er Hs) as (s1 & -> & M1); [lia..|].
  cbn [mbind res_bind]. rewrite Z.eqb_refl. simpl negb. cbv iota. change (Z.to_nat 0) with 0%nat.
  rewrite take_0, app_nil_l. rewrite (drop_ge buff), app_nil_r by lia.
  destruct (send_part_live (live := live) evw ch N s1) as (s2 & -> & M2);
    [apply M1|eapply patient_mono; [apply M1|done]|lia|lia|].
  cbn [mbind res_bind]. rewrite Z.eqb_refl. simpl negb. cbv iota. rewrite take_ge in M2 by lia.
  pose proof (moved_trans _ _ _ _ _ _ _ M1 M2) as M. rewrite app_nil_r in M. simpl app in M.
  destruct (IH rounds ch s2) as (b & s3 & E3 & M3); [apply M| |simpl in Hn; lia| |done|done|done|].
  - eapply Forall_impl; [exact Hev|]. intros r [? ?]. split; (eapply patient_mono; [apply M|done]).
  - pose proof (mv_in _ _ _ _ M) as Hi. rewrite Hs in Hi. by apply app_inv_head in Hi.
  - exists b, s3. split; [exact E3|]. simpl. by eapply moved_trans.
Qed.
End both.

(** ** Witness *)

(** Delivery to a scripted end: a delay, then the bytes in one piece, before the
    peer closes. *)
Definition late (bs : list Z) : list chunk :=
  match bs with [] => [] | b :: bs => [CErr EAGAIN; CData b bs] end.
Fixpoint chunk_deliver (bs : list Z) (cs : list chunk) : list chunk :=
  match cs with
  | [] => late bs
  | CEof :: _ => late bs ++ cs
  | c :: cs => c :: chunk_deliver bs cs
  end.

Lemma late_stream bs cs : chunk_stream (late bs ++ cs) = bs ++ chunk_stream cs.
Proof. by destruct bs. Qed.
Lemma chunk_deliver_stream bs cs : chunk_stream (chunk_deliver bs cs) = chunk_stream cs ++ bs.
Proof.
  induction cs as [|[b l|e|] cs IH]; simpl.
  - rewrite <- (app_nil_r (late bs)), late_stream. by rewrite app_nil_r.
  - by rewrite IH, app_assoc.
  - done.
  - rewrite late_stream. simpl. by rewrite app_nil_r.
Qed.
Lemma chunk_deliver_soft bs cs : Forall soft_chunk cs → Forall soft_chunk (chunk_deliver bs cs).
Proof.
  assert (Forall soft_chunk (late bs)) as Hl.
  { destruct bs; [done|]. repeat constructor. }
  induction 1 as [|[b l|e|] cs Hc Hcs IH]; simpl; [done|by constructor..|].
  apply Forall_app. split; [done|by constructor].
Qed.

#[export] Program Instance bscript_link : Link bscript echo_live := {
  deliver bs s := BScript (Script (chunk_deliver bs (sc_in (b_script s))) (sc_out (b_script s)) (sc_sent (b_script s)));
}.
Next Obligation. intros. apply chunk_deliver_stream. Qed.
Next Obligation. done. Qed.
Next Obligation. intros bs s [Hi Ho]. split; [by apply chunk_deliver_soft|done]. Qed.

(** A client of eight-byte frames, two rounds; the kernel takes the bytes of both
    ends in parts and with interruptions. *)
Definition demo_ping : list Z := pp_frame (replicate 4 88).
Definition demo_end : bscript :=
  BScript (Script [CErr EINTR] [SndOk 3; SndErr EAGAIN; SndOk 100; SndErr EINTR; SndOk 5; SndOk 9] []).
Definition demo_events (s : bscript) : list Z := replicate (S (pending s)) 1.

Lemma demo_end_live : echo_live demo_end.
Proof. split; repeat (apply Forall_cons; split; [vm_compute; intuition congruence|]); by apply Forall_nil. Qed.

Lemma ping_pong_witness :
  ∃ sbuf' c' s',
    ping_pong_run (live := echo_live) demo_events 2 8 (replicate 100 0) demo_end demo_end
      = Ok (demo_ping, sbuf', c', s', EMore) ∧
    sent c' = sent demo_end ++ concat (replicate 2 demo_ping) ∧
    sent s' = sent demo_end ++ concat (replicate 2 demo_ping) ∧ stream c' = [] ∧ stream s' = [].
Proof.
  apply (ping_pong (live := echo_live) demo_events 2 8 demo_ping (replicate 100 0) demo_end demo_end).
  - rewrite length_replicate. lia.
  - rewrite length_replicate. lia.
  - reflexivity.
  - exact demo_end_live.
  - exact demo_end_live.
  - reflexivity.
  - reflexivity.
  - intros s _. split; [by apply Forall_replicate|]. unfold demo_events. rewrite length_replicate. lia.
Defined.

(** The run itself. *)
Example ping_pong_demo :
  (λ '(b, _, c, s, r), (b, sent c, sent s, r)) <$>
    ping_pong_run (live := echo_live) demo_events 2 8 (replicate 100 0) demo_end demo_end
  = Ok (demo_ping, demo_ping ++ demo_ping, demo_ping ++ demo_ping, EMore).
Proof. by vm_compute. Qed.
