(* ===== verification/Client.v ===== *)
(** * The ping-pong clients ([test/pp-client.cpp], [test/pp-request-client.cpp])

    [tcp_client]: a socket, a connection with a timeout of one second,
    [send_recv] on it, and a [scope_exit] that deregisters and closes the socket
    however the coroutine ends. *)

From S2P Require Import Prelude StdHeap ByteBuffer IoLoop IoLoopFacts IoLoopProps Timers Awaiters.
From S2P Require Import Socket NioAwaiter NioProps ZioProps RequestProps EchoServer PingPong.

Section client.
Context {K S : Type} `{!Epoll K} `{!StdHeap compare_timer} `{!Socket S}.
Variable ndebug : bool.
Variable clock : nat → Z.
Variable thr : Z.
Implicit Type l : io_loop K.

(** [co_await connect(sock, ip, port, 1)] up to the suspension; [rets] are the
    answers of [::connect]. *)
Definition client_start (rets : list Z) (self : cb) (sock : Z) l : res (io_loop K * awaiter) :=
  connect_ctor clock (Some 1000000000) rets self sock l.

(** The [scope_exit]: [cancel_fdall], [zio::close] and [force_quit = 1]; the
    descriptors closed and [force_quit] are returned. *)
Definition client_exit (sock : Z) l : res (io_loop K * list Z * Z) :=
  l ← cancel_fdall ndebug thr sock l;
  Ok (l, if sock =? -1 then [] else [sock], 1).

(** After the connection attempt.  [rounds] are the waits of [send_recv], [ops]
    is what happens on the loop's thread meanwhile: the registrations of those
    waits and whatever other code does.  [force_quit] is 0 before.  [setiobuf] and
    the statistics are left out. *)
Definition client_resume (request : bool) (slen : Z) (rounds : list (list Z * list Z))
    (ops : list loop_op) (sock : Z) (a : awaiter) l (s : S) : res (io_loop K * S * list Z * Z) :=
  l ← timeout_dtor ndebug thr a l;
  if aw_result a <? 0 then
    '(l, closed, quit) ← client_exit sock l; Ok (l, s, closed, quit)
  else
    '(_, s, r) ← send_recv request slen rounds s;
    l ← loop_run ndebug thr ops l;
    match r with
    | EWait => Ok (l, s, [], 0)
    | _ => '(l, closed, quit) ← client_exit sock l; Ok (l, s, closed, quit)
    end.

(** ** What it leaves behind *)

Definition cleaned (self : cb) (sock : Z) l : Prop :=
  (∀ d, sub l sock d = None) ∧ no_refs self l.

Lemma client_exit_ok self sock l :
  sys_wf thr l → no_refs self l → 0 <= sock →
  ∃ l', client_exit sock l = Ok (l', [sock], 1) ∧ cleaned self sock l'.
Proof.
  intros Hwf [N1 N2] Hs.
  destruct (cancel_step ndebug thr sock (EPOLLIN ||| EPOLLOUT) l Hwf Hs) as (l' & rc & E & _ & R & Hsub).
  { right. by right. }
  exists l'. unfold client_exit, cancel_fdall. rewrite E. cbn [fmap res_fmap mbind res_bind fst].
  rewrite (proj2 (Z.eqb_neq sock (-1))) by lia. split; [done|].
  destruct (rest_timer _ _ R) as [Et _]. split; [|split].
  - intros d. rewrite Hsub. unfold subs_drop. rewrite decide_True by done. by destruct d.
  - intros fd d. rewrite Hsub. unfold subs_drop. repeat case_match; [done|apply N1..].
  - by rewrite Et.
Qed.

(** Other code does not make a pointer to a coroutine's awaiter. *)
Lemma loop_run_no_refs self ops l :
  sys_wf thr l → no_refs self l → Forall (other_op self) ops →
  _g_timer_id l + Z.of_nat (length ops) < 2 ^ 31 - 1 →
  ∃ l', loop_run ndebug thr ops l = Ok l' ∧ sys_wf thr l' ∧ no_refs self l'.
Proof.
  intros Hwf [N1 N2] Hops Hg.
  assert (∀ fd id, awaiting self fd DirR id l) as Ha.
  { intros fd id. split; [by intros ? ? ?%N1|by intros t Ht ?%N2]. }
  destruct (loop_run_awaiting ndebug thr self 0 DirR 0 ops l Hwf (Ha _ _) Hops Hg) as (l' & E & W & [A1 A2] & _).
  destruct (loop_run_awaiting ndebug thr self 1 DirR 1 ops l Hwf (Ha _ _) Hops Hg) as (l2 & E2 & _ & [B1 B2] & _).
  rewrite E in E2. injection E2 as <-. exists l'. split; [done|]. split; [done|]. split.
  - intros fd d H. destruct (A1 _ _ H), (B1 _ _ H). congruence.
  - intros t Ht Hf. pose proof (A2 t Ht Hf). pose proof (B2 t Ht Hf). congruence.
Qed.

(** Whatever [::connect] answers, the only pointers to the awaiter are the wait
    for [sock] and the timer. *)
Lemma connect_ctor_awaiting after eintrs e rets self sock l :
  time_ok clock after →
  sys_wf thr l → no_refs self l → 0 <= sock → e ≠ EINTR → _g_timer_id l < 2 ^ 31 - 1 →
  ∃ l1 id, connect_ctor clock after (replicate eintrs EINTR ++ e :: rets) self sock l
      = Ok (l1, Awaiter id 0 sock (-1)) ∧
    sys_wf thr l1 ∧ awaiting self sock DirW id l1 ∧ _g_timer_id l1 <= _g_timer_id l + 1.
Proof.
  intros Htime Hwf Hn Hs He Hg. unfold connect_ctor.
  assert (∀ l0, connect_loop (replicate eintrs EINTR ++ e :: rets) self sock l0 =
    if e =? EINPROGRESS then wait_write sock (Some self) l0 else Ok l0) as Hloop.
  { intros l0. induction eintrs as [|n IH]; [|exact IH]. simpl.
    rewrite (proj2 (Z.eqb_neq e EINTR)) by done. by destruct (e =? 0) eqn:C; bool_prop; [subst e|]. }
  destruct (e =? EINPROGRESS).
  - destruct (register_spec clock thr DirW after self sock l Htime Hwf Hn Hs Hg)
      as (l0 & l1 & id & -> & E1 & W1 & A1 & G1 & _).
    exists l1, id. cbn [mbind res_bind]. rewrite Hloop. unfold wait_write.
    change EPOLLOUT with (bit DirW). rewrite E1. by split_and!.
  - destruct (timeout_ctor_spec clock thr after self l Htime Hwf Hn Hg) as (l1 & id & -> & W1 & S1 & G1 & T1).
    exists l1, id. cbn [mbind res_bind]. rewrite Hloop. split_and!; [done..| |done]. split.
    + intros fd d. rewrite S1. by intros ?%(proj1 Hn).
    + intros t Ht Hf. by apply (T1 t).
Qed.

Lemma timeout_dtor_counter a l l' :
  timeout_dtor ndebug thr a l = Ok l' → _g_timer_id l' = _g_timer_id l.
Proof.
  unfold timeout_dtor, cancel_delay. intros E. case_cond; res_inv; [|by subst].
  repeat case_match; res_inv; by subst.
Qed.

(** A failed connection: nothing is sent, and the coroutine cleans up. *)
Lemma client_gives_up request slen rounds ops self sock a l (s : S) l' :
  aw_result a < 0 → 0 <= sock → timeout_dtor ndebug thr a l = Ok l' → sys_wf thr l' → no_refs self l' →
  ∃ l4, client_resume request slen rounds ops sock a l s = Ok (l4, s, [sock], 1) ∧ cleaned self sock l4.
Proof.
  intros Hr Hs E W N. unfold client_resume. rewrite E. cbn [mbind res_bind].
  rewrite (proj2 (Z.ltb_lt _ _)) by done.
  destruct (client_exit_ok self sock l' W N Hs) as (l4 & E4 & Hc). rewrite E4. by exists l4.
Qed.
End client.

Lemma client_buffer_length request slen frame :
  client_buffer request slen = Ok frame → Z.of_nat (length frame) = slen.
Proof.
  unfold client_buffer. intros E.
  assert (∃ buff, write_at (replicate (Z.to_nat slen) 88) 0 (be_split 4 (u32 (slen - 4))) = Ok buff ∧
    length frame = length buff) as (buff & Hw & ->).
  { destruct request; res_inv; subst; eexists; (split; [done|]); [|done].
    repeat match goal with H : write_at _ _ _ = Ok _ |- _ => apply write_at_length in H end. congruence. }
  pose proof (write_at_length _ _ _ _ Hw) as Hl. apply write_at_inv in Hw as (_ & Hle & _).
  rewrite length_replicate in *. rewrite be_split_length in Hle. lia.
Qed.

Section talk.
Context {K S : Type} `{!Epoll K} `{!StdHeap compare_timer} `{!Socket S} `{!SocketLaws S}.
Context {live : S → Prop} `{!LiveSocket S live} `{!LiveSend S live} `{!LiveEcho S live}.
Variable ndebug : bool.
Variable clock : nat → Z.
Variable thr : Z.
Implicit Type l : io_loop K.

(** A peer that answers every round with as many bytes as it was sent, on a
    connection without hard errors, with enough events for every wait. *)
Record talks (slen : Z) (answers : list (list Z)) (rest : list Z) (rounds : list (list Z * list Z)) (s : S)
    : Prop := {
  tk_live : live s;
  tk_rounds : length rounds = length answers;
  tk_answers : Forall (λ a, Z.of_nat (length a) = slen) answers;
  tk_patient : Forall (λ r, patient s r.1 ∧ patient s r.2) rounds;
  tk_stream : stream s = concat answers ++ rest;
}.

(** The connection is there: [send_recv] runs, and when it ends the coroutine
    cleans up. *)
Lemma client_goes_on request slen frame rounds ops self sock a l (s : S) l' :
  aw_result a = 0 → 0 <= sock → timeout_dtor ndebug thr a l = Ok l' → sys_wf thr l' → no_refs self l' →
  Forall (other_op self) ops → _g_timer_id l' + Z.of_nat (length ops) < 2 ^ 31 - 1 →
  client_buffer request slen = Ok frame → slen < 2 ^ 31 →
  ∃ buff s' r, send_recv request slen rounds s = Ok (buff, s', r) ∧
    ∃ l4, client_resume ndebug thr request slen rounds ops sock a l s =
        Ok (l4, s', (match r with EWait => [] | _ => [sock] end), (match r with EWait => 0 | _ => 1 end)) ∧
      (r ≠ EWait → cleaned self sock l4).
Proof.
  intros Hr Hs E W N Hops Hg Hb Hlen. pose proof (client_buffer_length _ _ _ Hb) as Hf.
  destruct (send_recv_total rounds frame s) as (buff & s' & r & Et); [lia|]. rewrite Hf in Et.
  exists buff, s', r. unfold client_resume. rewrite E. cbn [mbind res_bind]. rewrite Hr. simpl (0 <? 0). cbv iota.
  assert (send_recv request slen rounds s = Ok (buff, s', r)) as -> by (unfold send_recv; by rewrite Hb).
  cbn [mbind res_bind]. split; [done|].
  destruct (loop_run_no_refs ndebug thr self ops l' W N Hops Hg) as (l3 & -> & W3 & N3). cbn [mbind res_bind].
  destruct (client_exit_ok ndebug thr self sock l3 W3 N3 Hs) as (l4 & -> & Hc).
  destruct r; [by exists l3|by exists l4|by exists l4].
Qed.

Lemma client_talks request slen frame answers rest rounds (s : S) buff s' r :
  client_buffer request slen = Ok frame → slen < 2 ^ 31 → talks slen answers rest rounds s →
  send_recv request slen rounds s = Ok (buff, s', r) →
  r = EMore ∧ sent s' = sent s ++ concat (take (length answers) (frame :: answers)) ∧ stream s' = rest.
Proof.
  intros Hb Hlen [Hl Hn Ha Hp Hst]. pose proof (client_buffer_length _ _ _ Hb) as Hf.
  unfold send_recv. rewrite Hb. cbn [mbind res_bind].
  destruct (send_recv_live (live := live) answers rest rounds frame s) as (s1 & Et & [_ _ Hin Hout]); [done..| |lia|].
  { eapply Forall_impl; [exact Ha|]. intros x Hx. simpl in *. lia. }
  rewrite Hf in Et. rewrite Et. intros [= _ <- <-]. split_and!; [done|done|].
  rewrite Hst in Hin. by apply app_inv_head in Hin.
Qed.

(** An error event: the handler deregisters the descriptor and the awaiter keeps
    its -1. *)
Lemma client_error_event self sock id (ev so_err : Z) (l : io_loop K) :
  sys_wf thr l → awaiting self sock DirW id l → 0 <= sock → ev <= 0 →
  ∃ l3 l4, connect_file_event ndebug thr so_err ev (Awaiter id 0 sock (-1)) (clear_func DirW sock l)
      = Ok (l3, Awaiter id 0 sock (-1)) ∧
    timeout_dtor ndebug thr (Awaiter id 0 sock (-1)) l3 = Ok l4 ∧ sys_wf thr l4 ∧ no_refs self l4.
Proof.
  intros W A Hs Hev. destruct (clear_func_spec thr DirW sock l W Hs) as (Wc & Tc & Sc).
  assert (awaiting self sock DirW id (clear_func DirW sock l)) as Ac.
  { split; [|rewrite Tc; apply A]. intros fd d. rewrite Sc. unfold subs_set. case_decide; [done|apply A]. }
  destruct (cancel_awaiting ndebug thr self sock DirW id _ Wc Ac Hs) as (l3 & rc & E3 & W3 & S3 & T3).
  destruct (dtor_no_refs ndebug thr self (Awaiter id 0 sock (-1)) l3 W3 S3) as (l4 & E4 & W4 & N4).
  { rewrite T3. simpl. by eapply awaiting_positive. }
  exists l3, l4. split; [|by split_and!]. unfold connect_file_event, cancel_write.
  rewrite (proj2 (Z.leb_le ev 0)) by done. simpl. change EPOLLOUT with (bit DirW). by rewrite E3.
Qed.

End talk.

(** The result of [zio::build_stream] is not looked at: when [::socket] fails,
    [::connect] fails too, and both ways the coroutine can go on, its timeout and
    its [scope_exit], index the table with -1. *)
Theorem tcp_client_without_socket {K : Type} `{!Epoll K} `{!StdHeap compare_timer}
  (ndebug : bool) (clock : nat → Z) (thr err : Z) (self : cb) (l : io_loop K)
  (Hwf : sys_wf thr l) (Hfresh : no_refs self l) (Hroom : _g_timer_id l < 2 ^ 31 - 1)
  (Htime : time_ok clock (Some 1000000000))
  (Herr : err ≠ 0 ∧ err ≠ EINTR ∧ err ≠ EINPROGRESS) :
  ∃ l1 a, client_start clock [err] self (-1) l = Ok (l1, a) ∧
    ∀ l2 : io_loop K, is_local_thread thr l2 = true →
      connect_time_event ndebug thr a l2 = Fail OutOfBounds ∧
      client_exit ndebug thr (-1) l2 = Fail OutOfBounds.
Proof.
  destruct Herr as (H1 & H2 & H3). unfold client_start, connect_ctor.
  destruct (timeout_ctor_spec clock thr (Some 1000000000) self l Htime Hwf Hfresh Hroom) as (l1 & id & -> & _).
  cbn [mbind res_bind connect_loop].
  rewrite (proj2 (Z.eqb_neq err 0)), (proj2 (Z.eqb_neq err EINTR)), (proj2 (Z.eqb_neq err EINPROGRESS)) by done.
  eexists l1, _. split; [done|]. intros l2 Ht.
  assert (∀ ev, cancel_ev ndebug thr (-1) ev l2 = Fail OutOfBounds) as Hc.
  { intros ev. unfold cancel_ev. rewrite Ht. assert (c_assert ndebug true = Ok tt) as -> by (by destruct ndebug).
    cbn [mbind res_bind]. rewrite (proj2 (Z.leb_gt _ _)) by lia. done. }
  unfold connect_time_event, client_exit, cancel_write, cancel_fdall. cbn [aw_sockfd]. by rewrite !Hc.
Qed.

(** ** Witnesses *)

Lemma demo_second_ok : time_ok demo_clock (Some 1000000000).
Proof.
  intros i. apply andb_true_iff. change (i64 (u64 1000000000)) with 1000000000.
  rewrite Z.leb_le, Z.ltb_lt. unfold demo_clock. lia.
Qed.

(** A peer that echoes two rounds, cut up and interrupted. *)
Definition demo_peer : bscript :=
  BScript (Script [CData 0 [0; 0]; CErr EAGAIN; CData 4 [88; 88; 88; 88; 0; 0; 0]; CErr EINTR; CData 4 [88];
                   CErr EAGAIN; CData 88 [88; 88]] [SndOk 3; SndErr EAGAIN; SndOk 100; SndErr EINTR; SndOk 5; SndOk 9] []).
Definition demo_wait : list Z := replicate 60 1.
Definition demo_rounds : list (list Z * list Z) := replicate 2 (demo_wait, demo_wait).
Definition demo_answers : list (list Z) := [demo_ping; demo_ping].

Lemma demo_talks : talks (live := echo_live) 8 demo_answers [] demo_rounds demo_peer.
Proof.
  split.
  - split; repeat (apply Forall_cons; split; [vm_compute; intuition congruence|]); by apply Forall_nil.
  - done.
  - by repeat constructor.
  - assert (patient demo_peer demo_wait) as Hp by (split; [by apply Forall_replicate|vm_compute; lia]).
    by apply Forall_replicate.
  - done.
Qed.


Lemma tcp_client_without_socket_witness :
  ∃ l, io_loop_init (∅ : gmap Z Z) 3 = Ok l ∧
  ∃ l1 a, client_start demo_clock [9] 7%nat (-1) (set_thread_id (Some 1) l) = Ok (l1, a) ∧
    ∀ l2 : io_loop (gmap Z Z), is_local_thread 1 l2 = true →
      connect_time_event false 1 a l2 = Fail OutOfBounds ∧ client_exit false 1 (-1) l2 = Fail OutOfBounds.
Proof.
  destruct init_sys_wf as (l & E & W & N & G). exists l. split; [exact E|].
  apply (tcp_client_without_socket false demo_clock 1 9 7%nat (set_thread_id (Some 1) l) W N).
  - simpl. rewrite G. lia.
  - exact demo_second_ok.
  - by split_and!.
Defined.
