(* ===== verification/Server.v ===== *)
(** * The request server on the event loop ([test/pp-request-serv.cpp])

    The whole program as the loop sees it: [tcp_server] waits for connections,
    spawns a [tcp_echo] for each, and the handlers of the awaiters run as callbacks
    of [io_loop::run].  A coroutine is where it is suspended: [tcp_echo] in one of
    its two waits, with the awaiter it waits for.  The readiness events, which
    [EchoServer] takes as given, come from the loop's dispatch here.  The counters
    and log lines of the program are left out. *)

From S2P Require Import Prelude StdHeap ByteBuffer IoLoop IoLoopFacts IoLoopProps Socket NioAwaiter.
From S2P Require Import RequestProps Awaiters EchoServer.

(** Where [tcp_echo] is suspended: in [co_await task], or in the [co_await] of
    its [send_lazy] with the buffer and the length it has received. *)
Inductive phase :=
  | PRecv (a : recv_request)
  | PSend (buff : byte_buffer_impl * list Z) (len : Z) (d : send_lazy).

(** A connection and its coroutine.  [c_input], all that the peer will send,
    is there for the theorems only. *)
Record conn {S : Type} := Conn { c_sock : S; c_phase : phase; c_input : list Z }.
Arguments conn : clear implicits.
Arguments Conn {S} _ _ _.

(** An answer of [::accept]: a connection, or an error number. *)
Inductive accept_ans (S : Type) := AcOk (s : S) | AcErr (errno : Z).
Arguments AcOk {S} s.
Arguments AcErr {S} errno.

(** The state behind the callbacks: the C heap and the context's buffer pool,
    the open connections by descriptor, the sockets of those that are closed, the
    listening descriptor, and the answers of [::accept] still to come (then
    [EAGAIN]). *)
Record server {S M : Type} := Server {
  sv_heap : M;
  sv_pool : buffer_pool;
  sv_conns : gmap Z (conn S);
  sv_closed : list (list Z * S);
  sv_sock : Z;
  sv_incoming : list (accept_ans S);
}.
Arguments server : clear implicits.
Arguments Server {S M} _ _ _ _ _ _.

(** The awaiters of a descriptor: the one that waits for reading ([recv_request],
    or [accept] on the listening descriptor), and the one for writing. *)
Definition recv_cb (fd : Z) : cb := (2 * Z.to_nat fd + 1)%nat.
Definition send_cb (fd : Z) : cb := (2 * Z.to_nat fd + 2)%nat.
Definition cb_fd (c : cb) : Z := Z.of_nat ((c - 1) / 2).

Lemma cb_fd_recv fd : 0 <= fd → cb_fd (recv_cb fd) = fd.
Proof.
  intros. unfold cb_fd, recv_cb. replace (2 * Z.to_nat fd + 1 - 1)%nat with (Z.to_nat fd * 2)%nat by lia.
  rewrite Nat.div_mul by lia. lia.
Qed.
Lemma cb_fd_send fd : 0 <= fd → cb_fd (send_cb fd) = fd.
Proof.
  intros. unfold cb_fd, send_cb.
  replace (2 * Z.to_nat fd + 2 - 1)%nat with (1 + Z.to_nat fd * 2)%nat by lia.
  rewrite Nat.div_add by lia. simpl. lia.
Qed.
Lemma recv_send_cb fd fd' : recv_cb fd ≠ send_cb fd'.
Proof. unfold recv_cb, send_cb. lia. Qed.
Lemma recv_cb_inj fd fd' : 0 <= fd → 0 <= fd' → recv_cb fd = recv_cb fd' → fd = fd'.
Proof. unfold recv_cb. lia. Qed.

Section server.
Context {K S M : Type} `{!Epoll K} `{!StdHeap compare_timer} `{!Socket S} `{!Allocator M}.
Context `{!MultimapFind byte_buffer_data}.
Variable ndebug : bool.
Variable clock : nat → Z.
(** The loop's thread. *)
Variable thr : Z.
(** What a new block, and a new awaiter's [_buf], hold. *)
Variable uninit : byte_buffer_impl → list Z.
Variable buf0 : list Z.
(** Descriptors of the process that are no connections, and the descriptor
    [::accept] chooses when the given ones are in use. *)
Variable base_fds : gset Z.
Variable pick : gset Z → Z.

Implicit Types (w : world K (server S M)) (u : server S M).

Definition set_mem (m : M) (p : buffer_pool) u : server S M :=
  Server m p (sv_conns u) (sv_closed u) (sv_sock u) (sv_incoming u).
Definition set_conn (fd : Z) (c : conn S) u : server S M :=
  Server (sv_heap u) (sv_pool u) (<[fd := c]> (sv_conns u)) (sv_closed u) (sv_sock u) (sv_incoming u).
Definition end_conn (fd : Z) (c : conn S) u : server S M :=
  Server (sv_heap u) (sv_pool u) (delete fd (sv_conns u)) (sv_closed u ++ [(c_input c, c_sock c)])
    (sv_sock u) (sv_incoming u).
Definition set_incoming (l : list (accept_ans S)) u : server S M :=
  Server (sv_heap u) (sv_pool u) (sv_conns u) (sv_closed u) (sv_sock u) l.

(** [es._func_r = this] and [es._func_w = this]; [es] is [_fds[fd]], as long as
    the table has not been moved since ([e0]). *)
Definition rearm (d : dir) (e0 : nat) (fd : Z) (self : cb) w : res (world K (server S M)) :=
  require (bool_decide (epoch w = e0)) DanglingRef ≫= λ _,
  fe ← fds_at (w_loop w) fd;
  Ok (on_loop (fds_put fd (set_func d (Some self) fe)) w).

(** The end of [tcp_echo]: the loop's locals are destroyed, then [exit_func]
    runs.  The awaiters have no timer, so their destructors do nothing. *)
Definition echo_leave (fd : Z) (c : conn S) (buff : option (byte_buffer_impl * list Z)) w
    : res (world K (server S M)) :=
  '(m, p) ← drop_buffer buff (sv_heap (w_user w)) (sv_pool (w_user w));
  l ← cancel_fdall ndebug thr fd (w_loop w);
  Ok (World l (end_conn fd c (set_mem m p (w_user w)))).

(** The head of [tcp_echo]'s loop, up to [co_await task]. *)
Definition echo_begin (fd : Z) (s : S) (input : list Z) w : res (world K (server S M)) :=
  '(l, _) ← recv_ctor clock None (recv_cb fd) fd (w_loop w);
  Ok (World l (set_conn fd (Conn s (PRecv (new_recv_request None buf0)) input) (w_user w))).

(** From [co_await task] on, up to the next suspension. *)
Definition echo_received (fd : Z) (a : recv_request) (c : conn S) w : res (world K (server S M)) :=
  let len := rq_result a in
  if len <=? 0 then echo_leave fd c (rq_request a) w
  else
    match rq_request a with
    | None => Fail NullDeref
    | Some (b, mem) =>
        if negb (len =? i32 (data_len b)) then echo_leave fd c (rq_request a) w
        else
          '(l, _) ← send_ctor clock None (send_cb fd) fd (w_loop w);
          Ok (World l (set_conn fd
            (Conn (c_sock c) (PSend (b, mem) len (new_send_lazy (window (b, mem)))) (c_input c))
            (w_user w)))
    end.

(** From the [co_await] of [send_lazy] on. *)
Definition echo_sent (fd : Z) (buff : byte_buffer_impl * list Z) (len : Z) (d : send_lazy)
    (c : conn S) w : res (world K (server S M)) :=
  if negb (len =? sl_result d) then echo_leave fd c (Some buff) w
  else
    '(m, p) ← drop_buffer (Some buff) (sv_heap (w_user w)) (sv_pool (w_user w));
    echo_begin fd (c_sock c) (c_input c) (World (w_loop w) (set_mem m p (w_user w))).

(** [recv_request::on_file_event] of the connection [fd]; [es] is the index of
    its [es_file &]. *)
Definition conn_recv_event (es fd event : Z) (a : recv_request) (c : conn S) w : res (world K (server S M)) :=
  let u := w_user w in
  '(m, p, a, s, o) ← recv_request_on_file_event uninit event (sv_heap u) (sv_pool u) a (c_sock c);
  let w := World (w_loop w) (set_mem m p u) in
  let c := Conn s (PRecv a) (c_input c) in
  match o with
  | Rearmed =>
      rearm DirR (epoch w) es (recv_cb fd) (World (w_loop w) (set_conn fd c (w_user w)))
  | Resumed => echo_received fd a c w
  end.

(** [send_lazy::on_file_event] of the connection [fd]. *)
Definition conn_send_event (es fd event : Z) (buff : byte_buffer_impl * list Z) (len : Z)
    (d : send_lazy) (c : conn S) w : res (world K (server S M)) :=
  '(d, s, o) ← send_lazy_on_file_event event d (c_sock c);
  let c := Conn s (PSend buff len d) (c_input c) in
  match o with
  | Rearmed =>
      rearm DirW (epoch w) es (send_cb fd) (World (w_loop w) (set_conn fd c (w_user w)))
  | Resumed => echo_sent fd buff len d c w
  end.

(** What [tcp_server] does with a new connection: [co_spawn(tcp_echo(fd))] on
    the loop's thread starts the coroutine at once, and the loop waits for the next
    connection.  Nothing makes the new socket non-blocking: [recv] and [send] on it may
    wait, and then the loop's thread waits ([partial_frame_blocks]).  ([setiobuf] only
    sizes the kernel's buffers.) *)
Definition accepted (s : S) w : res (world K (server S M)) :=
  let u := w_user w in
  let fd := pick (base_fds ∪ dom (sv_conns u)) in
  w ← echo_begin fd s (stream s) w;
  l ← accept_ctor (recv_cb (sv_sock u)) (sv_sock u) (w_loop w);
  Ok (World l (w_user w)).

(** [accept::on_file_event], which resumes [tcp_server] in its loop.  The awaiter
    is a temporary of the [co_await] expression: its place in the frame is the same
    in every turn of [tcp_server]'s loop, so [this] stays the awaiter.  When
    [::accept] fails hard the coroutine ends and its frame is destroyed; the handler
    goes on to store [_result] into it. *)
Fixpoint accept_event (fuel : nat) (e0 : nat) (fd : Z) w : res (world K (server S M)) :=
  match fuel with
  | O => Fail OutOfFuel
  | Datatypes.S fuel =>
      let u := w_user w in
      match sv_incoming u with
      | [] => rearm DirR e0 fd (recv_cb (sv_sock u)) w
      | a :: rest =>
          let w := World (w_loop w) (set_incoming rest u) in
          match a with
          | AcErr e =>
              if e =? EINTR then accept_event fuel e0 fd w
              else if e =? EAGAIN then rearm DirR e0 fd (recv_cb (sv_sock u)) w
              else if e =? ECONNABORTED then rearm DirR e0 fd (recv_cb (sv_sock u)) w
              else Fail DanglingRef
          | AcOk s => w ← accepted s w; accept_event fuel e0 fd w
          end
      end
  end.

(** The virtual functions.  A callback that belongs to no awaiter there is has
    been destroyed.  No awaiter of this program starts a timer, and nothing is
    posted once the server runs. *)
Definition server_file_event (c : cb) (fd event : Z) w : res (world K (server S M)) :=
  let u := w_user w in
  if decide (c = recv_cb (sv_sock u))
  then accept_event (Datatypes.S (length (sv_incoming u))) (epoch w) fd w
  else
    match sv_conns u !! cb_fd c with
    | None => Fail DanglingRef
    | Some k =>
        match c_phase k with
        | PRecv a =>
            if decide (c = recv_cb (cb_fd c)) then conn_recv_event fd (cb_fd c) event a k w
            else Fail DanglingRef
        | PSend buff len d =>
            if decide (c = send_cb (cb_fd c)) then conn_send_event fd (cb_fd c) event buff len d k w
            else Fail DanglingRef
        end
    end.

#[export] Instance server_callbacks : Callbacks K (server S M) := {
  on_file_event := server_file_event;
  on_time_event _ _ _ := Fail DanglingRef;
  call_func _ w := Ok w;
}.

(** [tcp_server] up to its first wait, on a listening descriptor. *)
Definition server_start (sock : Z) (m : M) (incoming : list (accept_ans S)) (l : io_loop K)
    : res (world K (server S M)) :=
  l ← accept_ctor (recv_cb sock) sock l;
  Ok (World l (Server m (new_inst (Z.shiftl 32 20)) ∅ [] sock incoming)).
End server.

(** ** Peers that stop the server *)

Section stopped.
Context {K M : Type} `{!Epoll K} `{!StdHeap compare_timer} `{!Allocator M} `{!MultimapFind byte_buffer_data}.
Variable ndebug : bool.
Variable clock : nat → Z.
Variable thr : Z.
Variable uninit : byte_buffer_impl → list Z.
Variable buf0 : list Z.
Variable base_fds : gset Z.
Variable pick : gset Z → Z.
Implicit Type w : world K (server blocking M).

#[local] Abbreviation file_event := (server_file_event ndebug clock thr uninit buf0 base_fds pick).

(** The connection [fd] of the server, suspended in a wait. *)
Definition suspended (fd : Z) (ph : phase) (s : blocking) w : Prop :=
  0 <= fd ∧ 0 <= sv_sock (w_user w) ∧ fd ≠ sv_sock (w_user w) ∧
  ∃ input, sv_conns (w_user w) !! fd = Some (Conn s ph input).

End stopped.

Definition demo_stalled : world (gmap Z Z) (server blocking (gmap Z Z)) :=
  World (IoLoop _ 0 (Some 1) 3 0 [] 0 0 [] [] [] 0 0 ∅)
    (Server ∅ (new_inst 1000) {[5 := Conn (Blocking (Script [CData 0 [0; 0]] [] [])) (PRecv (new_recv_request None (replicate 8 0))) []]}
       [] 4 []).

