(* ===== verification/ServerConn.v ===== *)
(** * One connection of the request server

    What a suspended [tcp_echo] has received, sent and still owes, and what a
    readiness event does to it: the bytes sent, the bytes it holds and the bytes
    still to come are always the bytes the peer sends. *)

From S2P Require Import Prelude StdHeap ByteBuffer IoLoop Socket NioAwaiter NioProps RequestProps.
From S2P Require Import EchoServer PoolClient Server.

Section connection.
Context {S M : Type} `{!Socket S} `{!SocketLaws S} `{!Allocator M} `{!AllocatorLaws M}.
Context `{!MultimapFind byte_buffer_data}.
Variable uninit : byte_buffer_impl → list Z.
Hypothesis Huninit : ∀ b, 0 <= capacity b → Z.of_nat (length (uninit b)) = capacity b.

(** ** The invariant *)

(** The buffer a coroutine holds, and the bytes it has taken from the peer and
    not yet given back. *)
Definition buffer_of (ph : phase) : list byte_buffer_impl :=
  match ph with PRecv a => held_by (rq_request a) | PSend buff _ _ => held_by (Some buff) end.
Definition owed (ph : phase) : list Z :=
  match ph with
  | PRecv a =>
      match rq_request a with
      | None => take (Z.to_nat (rq_recved_bytes a)) (rq_buf a)
      | Some (b, mem) => read_at mem (_data_begin b) (rq_recved_bytes a)
      end
  | PSend _ _ d => drop (Z.to_nat (sl_sended_bytes d)) (sl_buff d)
  end.

Definition recv_inv (frame tail missing : list Z) (a : recv_request) (s : S) : Prop :=
  header_inv frame tail missing a s ∧ rq_recved_bytes a < 6 ∧ rq_request a = None ∨
  ∃ b, body_inv frame tail missing b a s.

Definition recv_ok (a : recv_request) (s : S) : Prop :=
  ∃ frame tail missing, frame_ok frame ∧ tail_ok tail missing ∧ recv_inv frame tail missing a s ∧
    rq_recved_bytes a < Z.of_nat (length frame) ∧ rq_result a = -1.

Definition send_ok (buff : byte_buffer_impl * list Z) (len : Z) (d : send_lazy) (s : S) : Prop :=
  ∃ frame pre, frame_ok frame ∧ window buff = frame ∧ len = Z.of_nat (length frame) ∧
    sl_buff d = frame ∧ 0 <= sl_sended_bytes d <= len ∧ sl_result d = -1 ∧
    sent s = pre ++ take (Z.to_nat (sl_sended_bytes d)) frame ∧ well_framed (stream s).

Definition phase_ok (ph : phase) (s : S) : Prop :=
  match ph with PRecv a => recv_ok a s | PSend buff len d => send_ok buff len d s end.

Record conn_ok (c : conn S) : Prop := {
  co_phase : phase_ok (c_phase c) (c_sock c);
  co_bytes : sent (c_sock c) ++ owed (c_phase c) ++ stream (c_sock c) = c_input c;
  co_buffer : Forall nonnull (buffer_of (c_phase c));
}.

Lemma recv_inv_owed frame tail missing a s :
  recv_inv frame tail missing a s →
  owed (PRecv a) ++ stream s ++ missing = frame ++ tail.
Proof.
  intros [((got & (rest & -> & Es & Hr) & _ & _ & Hp) & _ & Hq)|
    (b & [_ _ _ _ _ _ (got & mem & (rest & -> & Es & Hr) & Hq & _ & Hread)])]; simpl; rewrite Hq.
  - rewrite Hr, Nat2Z.id, Hp, Es. by rewrite app_assoc.
  - rewrite Hr, Hread, Es. by rewrite app_assoc.
Qed.

Lemma recv_inv_buffer frame tail missing a s :
  recv_inv frame tail missing a s → Forall nonnull (held_by (rq_request a)).
Proof.
  intros [(_ & _ & ->)|(b & [_ _ Hd _ _ _ (got & mem & _ & -> & _)])]; simpl; [done|].
  by apply Forall_singleton.
Qed.

(** The first wait of a connection, and of every turn. *)
Lemma recv_ok_start buf0 (s : S) :
  well_framed (stream s) → length buf0 = 8%nat →
  recv_ok (new_recv_request None buf0) s ∧ owed (PRecv (new_recv_request None buf0)) = [].
Proof.
  intros (frame & tail & missing & Hf & Ht & E)%well_framed_next Hb. split; [|done].
  exists frame, tail, missing. split_and!; [done|done| | |done].
  - left. split_and!; [|simpl; lia|done]. exists []. split_and!; [by exists frame|simpl; lia|done|done].
  - destruct Hf as (? & _). simpl. lia.
Qed.
(** ** What one event does *)

(** A resumed [tcp_echo] has a whole frame in its buffer, or gives up. *)
Definition got_request (a : recv_request) (s : S) (input : list Z) : Prop :=
  ∃ b mem frame, rq_request a = Some (b, mem) ∧ window (b, mem) = frame ∧ frame_ok frame ∧
    rq_result a = Z.of_nat (length frame) ∧ data_len b = Z.of_nat (length frame) ∧
    well_framed (stream s) ∧ sent s ++ frame ++ stream s = input.

Definition recv_post (others : list byte_buffer_impl) (input : list Z) (m : M) (p : buffer_pool)
    (a : recv_request) (s : S) (o : outcome) : Prop :=
  pool_holds m p (held_by (rq_request a)) others ∧ Forall nonnull (held_by (rq_request a)) ∧
  sent s `prefix_of` input ∧
  match o with
  | Rearmed => conn_ok (Conn s (PRecv a) input)
  | Resumed => rq_result a <= 0 ∨ got_request a s input
  end.

(** A complete body, as the coroutine finds it. *)
Lemma complete_request frame tail missing b a s input :
  frame_ok frame → tail_ok tail missing → body_inv frame tail missing b a s →
  rq_result a = Z.of_nat (length frame) → rq_recved_bytes a = Z.of_nat (length frame) →
  sent s ++ owed (PRecv a) ++ stream s = input → got_request a s input.
Proof.
  intros Hf Ht Hb Hres Hr Hin. destruct (body_inv_complete _ _ _ _ _ _ Hb Hr) as (Hst & mem & Hq & Hw & _).
  exists b, mem, frame. split_and!; [done..|apply Hb| |].
  - destruct Ht as [[-> Hwf]|[Hm ->]]; [by rewrite app_nil_r in Hst; rewrite Hst|].
    by destruct (app_eq_nil _ _ Hst).
  - rewrite <- Hin. simpl. rewrite Hq. repeat f_equal.
    rewrite <- Hw. unfold window. simpl. by rewrite (bi_len _ _ _ _ _ _ Hb), Hr.
Qed.

(** The bytes a reading coroutine holds grow by those the stream gives up. *)
Lemma recv_inv_bytes frame tail missing a s a' s' input :
  recv_inv frame tail missing a s → recv_inv frame tail missing a' s' → sent s' = sent s →
  sent s ++ owed (PRecv a) ++ stream s = input → sent s' ++ owed (PRecv a') ++ stream s' = input.
Proof.
  intros E1%recv_inv_owed E2%recv_inv_owed -> <-. f_equal.
  rewrite <- E1, !app_assoc in E2. by apply app_inv_tail in E2.
Qed.
Lemma body_step frame tail missing b m p a s others input :
  frame_ok frame → tail_ok tail missing → body_inv frame tail missing b a s → rq_result a = -1 →
  pool_holds m p [b] others → sent s ++ owed (PRecv a) ++ stream s = input →
  ∃ a' s' o, body_loop (Datatypes.S (pending s)) a s = Ok (a', s', o) ∧
    (sent s' = sent s → recv_post others input m p a' s' o).
Proof.
  intros Hf Ht Hb Hres Hp Hin. pose proof Hf as (Hn & _).
  destruct (body_loop_spec (live := λ _, False) frame tail missing b (Datatypes.S (pending s)) a s)
    as (a' & s' & o & E & Hb' & _ & _ & X); [lia|lia|done|].
  exists a', s', o. split; [done|]. intros Hs.
  assert (recv_inv frame tail missing a' s') as Hi by (right; eauto).
  assert (sent s' ++ owed (PRecv a') ++ stream s' = input) as Hin'
    by (apply (recv_inv_bytes frame tail missing a s); [right; by exists b|done..]).
  assert (held_by (rq_request a') = [b]) as Hq.
  { destruct Hb' as [_ _ _ _ _ _ (got & mem & _ & -> & _)]. done. }
  split; [by rewrite Hq|]. split; [by eapply recv_inv_buffer|].
  split; [rewrite <- Hin'; by apply prefix_app_r|]. destruct o; simpl in X.
  - destruct X as (Hr & Hr' & _). split; [|done|by eapply recv_inv_buffer].
    exists frame, tail, missing. split_and!; [done..|congruence].
  - destruct X as [[? ?]|[? _]]; [right|by left]. by eapply complete_request.
Qed.

Lemma recv_step ev m p a s others input :
  conn_ok (Conn s (PRecv a) input) → pool_holds m p (held_by (rq_request a)) others →
  ∃ m' p' a' s' o, recv_request_on_file_event uninit ev m p a s = Ok (m', p', a', s', o) ∧
    recv_post others input m' p' a' s' o.
Proof.
  intros [Hph Hin Hnn] Hp. simpl in Hph, Hin, Hnn.
  assert (∃ m' p' a' s' o, recv_request_on_file_event uninit ev m p a s = Ok (m', p', a', s', o) ∧
    (sent s' = sent s → recv_post others input m' p' a' s' o)) as (m' & p' & a' & s' & o & E & Hpost).
  2:{ exists m', p', a', s', o. split; [done|]. apply Hpost.
      apply (recv_request_events_sent uninit [ev] m p a s m' p' a' s' o).
      cbn [recv_request_events]. rewrite E. by destruct o. }
  destruct Hph as (frame & tail & missing & Hf & Ht & Hi & Hlt & Hres). pose proof Hf as (Hn & _).
  unfold recv_request_on_file_event. destruct (ev <=? 0).
  { eexists m, p, a, s, Resumed. split; [done|]. intros _. split_and!; [done|done| |left; lia].
    rewrite <- Hin. by apply prefix_app_r. }
  destruct Hi as [(Hh & H6 & Hq)|(b & Hb)].
  2:{ rewrite (proj2 (Z.ltb_ge _ 6)) by apply Hb.
      assert (held_by (rq_request a) = [b]) as Hq by (by destruct Hb as [_ _ _ _ _ _ (? & ? & _ & -> & _)]).
      rewrite Hq in Hp. destruct (body_step _ _ _ _ m p _ _ others input Hf Ht Hb Hres Hp Hin)
        as (a' & s' & o & -> & Hpost). by exists m, p, a', s', o. }
  rewrite (proj2 (Z.ltb_lt _ 6)) by done. rewrite Hq in Hp.
  destruct (header_loop_spec (live := λ _, False) frame tail missing (Datatypes.S (pending s)) a s)
    as (a1 & s1 & h & E & (_ & Hq1 & Hres1 & _) & Hh1 & _ & X1); [lia|lia|done|]. rewrite E.
  pose proof (header_loop_sent _ _ _ _ _ _ E) as Hs1.
  rewrite Hq in Hq1. cbn [mbind res_bind]. destruct h as [| |rc].
  - destruct X1 as [X1 _]. destruct Hp as [Hp Hc].
    destruct (header_done_spec uninit Huninit frame tail missing m p a1 s1 others 0)
      as (m2 & p2 & a2 & b & -> & Hb & R2 & _ & Hp2 & Hc2); [done..|by rewrite Hq1|].
    cbn [mbind res_bind]. rewrite Hq1 in Hp2.
    destruct (body_step _ _ _ _ m2 p2 _ _ others input Hf Ht Hb) as (a' & s' & o & -> & Hpost).
    + congruence.
    + split; [exact Hp2|by apply Hc2].
    + apply (recv_inv_bytes frame tail missing a s); [by left|right; by exists b|done..].
    + exists m2, p2, a', s', o. split; [done|]. intros Hs. apply Hpost. congruence.
  - destruct X1 as [X1 _]. exists m, p, a1, s1, Rearmed. split; [done|]. intros Hs.
    assert (recv_inv frame tail missing a1 s1) as Hi1 by (by left).
    unfold recv_post. rewrite Hq1. split_and!; [done|done| |].
    + rewrite Hs, <- Hin. by apply prefix_app_r.
    + split; [exists frame, tail, missing; split_and!; [done..|lia|congruence]| |simpl; by rewrite Hq1].
      apply (recv_inv_bytes frame tail missing a s); [by left|done..].
  - eexists m, p, _, s1, Resumed. split; [done|]. intros Hs. unfold recv_post. simpl. rewrite Hq1.
    split_and!; [done|done| |].
    + rewrite Hs, <- Hin. by apply prefix_app_r.
    + left. destruct X1 as [X1 _]. rewrite i32_small; lia.
Qed.
Definition send_post (buff : byte_buffer_impl * list Z) (len : Z) (input : list Z)
    (d : send_lazy) (s : S) (o : outcome) : Prop :=
  sent s `prefix_of` input ∧
  match o with
  | Rearmed => conn_ok (Conn s (PSend buff len d) input)
  | Resumed => sl_result d = len → sent s ++ stream s = input ∧ well_framed (stream s)
  end.

Lemma send_step ev buff len d s input :
  conn_ok (Conn s (PSend buff len d) input) →
  ∃ d' s' o, send_lazy_on_file_event ev d s = Ok (d', s', o) ∧ send_post buff len input d' s' o.
Proof.
  intros [(frame & pre & Hf & Hw & Hlen & Hb & Hk & Hres & Hs & Hwf) Hin Hnn]. simpl in Hin, Hnn, Hs, Hwf.
  pose proof Hf as (Hn & _). unfold send_lazy_on_file_event. destruct (ev <=? 0).
  { exists d, s, Resumed. split; [done|]. split; [|lia]. rewrite <- Hin. by apply prefix_app_r. }
  destruct (send_lazy_loop_spec (Datatypes.S (length (sl_buff d) + pending s)) d s)
    as (d' & s' & o & E & P & X); [unfold sl_size; rewrite Hb; lia..|].
  rewrite E. exists d', s', o. split; [done|]. destruct P as [P1 _ P3 P4 P5].
  rewrite Hb in *. specialize (P4 pre Hs). unfold sl_size in P3. rewrite Hb in *.
  assert (input = sent s' ++ owed (PSend buff len d') ++ stream s') as ->.
  { rewrite P4, P5, <- Hin, Hs. simpl. rewrite P1, <- !app_assoc, !(app_assoc (take _ frame)).
    by rewrite !take_drop. }
  split; [by apply prefix_app_r|]. unfold sl_exit, sl_size in X. rewrite Hb in X. destruct o.
  - split; [|done|done]. exists frame, pre. simpl. rewrite P5. destruct X.
    split_and!; try done; first [lia|congruence].
  - intros Hl. simpl. assert (sl_sended_bytes d' = Z.of_nat (length frame)) as Hd.
    { destruct X as [[? _]|[? ?]]; [done|]. rewrite Hres in *. lia. }
    rewrite P1, Hd, drop_ge by lia. split; [done|]. by rewrite P5.
Qed.
End connection.
