(* ===== verification/ServerTable.v ===== *)
(** * Who waits for which descriptor

    An abstract view of the loop's table for programs in which every descriptor
    has at most one awaiter: a function from descriptors to their status.  The
    operations of the table, the rearming of a handler and the two calls of the
    dispatch are updates of that function. *)

From stdpp Require Import functions.
From S2P Require Import Prelude StdHeap IoLoop IoLoopFacts IoLoopProps Awaiters Server.

(** Not registered; registered for [d] at least, with nobody waiting; registered
    with [c] waiting for [d]. *)
Inductive status := Free | Idle (d : dir) | Waits (d : dir) (c : cb).

Definition opposite (d : dir) : dir := match d with DirR => DirW | DirW => DirR end.

Definition entry_as (s : status) (fd : Z) (e : es_file) : Prop :=
  match s with
  | Free => e = es_file_default
  | Idle d => _fd e = fd ∧ has (_event e) (bit d) = true ∧ ∀ d', func d' e = None
  | Waits d c => _fd e = fd ∧ func d e = Some c ∧ func (opposite d) e = None
  end.

Section table.
Context {K : Type} `{!Epoll K} `{!EpollLaws K}.
Variable ndebug : bool.
(** The loop's thread and event descriptor, the place of its table and a bound
    its length does not fall below. *)
Variables (thr : option Z) (efd : Z) (e0 n0 : nat).
Implicit Types (l : io_loop K) (st : Z → status) (fd : Z) (d : dir).

Record table_ok st l : Prop := {
  to_wf : table_wf l;
  to_sync : kernel_sync l;
  to_thread : m_thread_id l = thr;
  to_timer : _timer l = [];
  to_efd : _event_fd l = efd;
  to_epoch : _fds_epoch l = e0;
  to_capacity : _fds_capacity l = 256%nat;
  to_length : (n0 ≤ length (_fds l))%nat;
  to_entries fd : 0 <= fd → entry_as (st fd) fd (ent l fd);
}.

Lemma table_ok_ext st st' l :
  (∀ fd, 0 <= fd → st' fd = st fd) → table_ok st l → table_ok st' l.
Proof. intros He []. split; try done. intros fd Hfd. rewrite He by done. auto. Qed.

(** Changes outside the table. *)
Lemma table_ok_rest st l l' :
  _fds l' = _fds l → _kernel l' = _kernel l → _fds_capacity l' = _fds_capacity l →
  _fds_epoch l' = _fds_epoch l → m_thread_id l' = m_thread_id l → _timer l' = _timer l →
  _event_fd l' = _event_fd l → table_ok st l → table_ok st l'.
Proof.
  intros Hf Hk Hc He Ht Hm Hv [[W1 W2] S T M V E C L N].
  assert (∀ fd, ent l' fd = ent l fd) as Hent by (intros fd; unfold ent; by rewrite Hf).
  split; [split| |congruence..| |].
  - intros fd Hfd. rewrite Hent. auto.
  - by rewrite Hf, Hc.
  - destruct S as [S1 S2]. split; [|by rewrite Hk]. intros fd. unfold watched. by rewrite Hk, Hent.
  - by rewrite Hf.
  - intros fd Hfd. rewrite Hent. auto.
Qed.

(** A registered descriptor is inside the vector, and below its capacity. *)
Lemma table_ok_range st l fd :
  table_ok st l → 0 <= fd → st fd ≠ Free → 0 <= fd < Z.of_nat (length (_fds l)) ∧ fd < 256.
Proof.
  intros H Hfd Hs. destruct (decide (fd < Z.of_nat (length (_fds l)))) as [|Hge].
  { pose proof (wf_capacity _ (to_wf _ _ H)) as Hc. rewrite (to_capacity _ _ H) in Hc. lia. }
  pose proof (to_entries _ _ H fd Hfd) as He. rewrite ent_out in He by lia.
  destruct (st fd); simpl in He; [done|destruct He; simpl in *; lia..].
Qed.

Lemma table_ok_watched st l fd :
  table_ok st l → 0 <= fd → (is_Some (interest (_kernel l) !! fd) ↔ st fd ≠ Free).
Proof.
  intros H Hfd. rewrite (ks_interest _ (to_sync _ _ H) fd). unfold watched.
  pose proof (to_entries _ _ H fd Hfd) as He. destruct (st fd); simpl in He.
  - rewrite He. simpl. split; [by intros []|done].
  - destruct He as [-> _]. rewrite (proj2 (Z.eqb_neq _ _)) by lia. split; [done|by eauto].
  - destruct He as [-> _]. rewrite (proj2 (Z.eqb_neq _ _)) by lia. split; [done|by eauto].
Qed.

Lemma table_ok_interest st l fd :
  table_ok st l → is_Some (interest (_kernel l) !! fd) → 0 <= fd.
Proof.
  intros H. rewrite (ks_interest _ (to_sync _ _ H) fd). unfold watched, ent.
  destruct (fd <? 0) eqn:E; bool_prop; [by intros []|lia].
Qed.

(** Whoever waits is registered with the kernel for what he waits for. *)
Lemma table_ok_ready st l fd d c :
  table_ok st l → 0 <= fd → st fd = Waits d c →
  ∃ m, interest (_kernel l) !! fd = Some m ∧ has m (bit d) = true ∧ sub l fd d = Some c.
Proof.
  intros H Hfd Hs. pose proof (to_entries _ _ H fd Hfd) as He. rewrite Hs in He.
  destruct He as (E1 & E2 & _). pose proof (wf_entry _ (to_wf _ _ H) fd Hfd) as Hw.
  exists (_event (ent l fd)). rewrite (ks_interest _ (to_sync _ _ H) fd). unfold watched.
  rewrite E1, (proj2 (Z.eqb_neq _ _)) by lia. split_and!; [done| |done].
  apply (wf_func _ _ Hw). by rewrite E2.
Qed.

(** One entry changes. *)
Lemma table_ok_set st l l' fd e s :
  table_ok st l → 0 <= fd → table_wf l' → kernel_sync l' → rest l' = rest l →
  _fds_epoch l' = _fds_epoch l → _fds_capacity l' = _fds_capacity l →
  (length (_fds l) ≤ length (_fds l'))%nat →
  (∀ fd', ent l' fd' = if decide (fd' = fd) then e else ent l fd') → entry_as s fd e →
  table_ok (<[fd := s]> st) l'.
Proof.
  intros [_ _ T M V E C L N] Hfd Hw Hs Hr He Hc Hl Hent Ha.
  injection Hr as ? ? ? ? ? ? ? ? ?.
  split; [done|done|congruence..|lia|]. intros fd' Hfd'. rewrite Hent.
  destruct (decide (fd' = fd)) as [->|Hne]; [by rewrite fn_lookup_insert|].
  rewrite fn_lookup_insert_ne by done. auto.
Qed.

(** ** The table's operations *)

Lemma waiting_as s d fd c e :
  entry_as s fd e → 0 <= fd → (∀ d' c', s = Waits d' c' → d' = d) →
  entry_as (Waits d c) fd (waiting d fd (Some c) e).
Proof.
  intros He Hfd Hd. unfold waiting. destruct s as [|d'|d' c']; simpl in He.
  - subst e. simpl. by destruct d.
  - destruct He as (-> & _ & Hn). rewrite (proj2 (Z.eqb_neq _ _)) by lia.
    pose proof (Hn DirR). pose proof (Hn DirW). by destruct d.
  - destruct He as (-> & _ & Hn). rewrite (proj2 (Z.eqb_neq _ _)) by lia.
    rewrite (Hd d' c' eq_refl) in Hn. by destruct d.
Qed.

Lemma wait_ok st l d fd c :
  table_ok st l → 0 <= fd < 256 → (∀ d' c', st fd = Waits d' c' → d' = d) →
  ∃ l', fst <$> wait_fd (bit d) fd (Some c) l = Ok l' ∧ table_ok (<[fd := Waits d c]> st) l'.
Proof.
  intros H Hfd Hd. pose proof (to_wf _ _ H) as Hw.
  destruct (wait_fd_spec d fd (Some c) l) as (l' & rc & E & Hent & Hk & Hr & Hc & He); [lia|done|].
  destruct He as [He1 He2]; [rewrite (to_capacity _ _ H); lia|].
  exists l'. rewrite E. split; [done|].
  destruct (wait_fd_length _ _ _ _ _ _ E) as [Hl _].
  eapply (table_ok_set st l); [done|lia| |eapply wait_fd_sync|..|exact Hent|]; eauto with lia.
  - eapply wait_fd_wf; eauto. lia.
  - lia.
  - apply H.
  - eapply waiting_as; [apply (to_entries _ _ H)|..]; auto with lia.
Qed.

Lemma cancel_ok self st l fd :
  thr = Some self → table_ok st l → 0 <= fd → fd < 256 →
  ∃ l', cancel_fdall ndebug self fd l = Ok l' ∧ table_ok (<[fd := Free]> st) l'.
Proof.
  intros Hself H Hfd H256. pose proof (to_wf _ _ H) as Hw. unfold cancel_fdall.
  assert (cancel_mask (EPOLLIN ||| EPOLLOUT)) as Hm by (by right; right).
  destruct (cancel_ev_spec ndebug self fd (EPOLLIN ||| EPOLLOUT) l)
    as (l' & rc & E & Hent & Hk & Hr & Hc & He); [done..| |].
  { unfold is_local_thread. rewrite bool_decide_true; [done|]. by rewrite (to_thread _ _ H). }
  destruct He as [He1 He2]; [rewrite (to_capacity _ _ H); lia|].
  exists l'. rewrite E. split; [done|].
  pose proof (cancel_ev_length _ _ _ _ _ _ _ E) as Hl.
  eapply (table_ok_set st l); [done|lia|by eapply cancel_ev_wf|eapply cancel_ev_sync|..|exact Hent|]; eauto with lia.
  - apply H.
  - pose proof (wf_entry _ Hw fd Hfd) as Hwf. simpl. unfold cancelled. case_cond; bool_prop.
    + by apply (wf_free _ _ Hwf).
    + by destruct (wf_event _ _ Hwf) as [-> |[-> | ->]].
Qed.

(** Only the callbacks of an entry change. *)
Lemma table_ok_put st l fd e s :
  table_ok st l → 0 <= fd < Z.of_nat (length (_fds l)) → entry_wf fd e →
  _fd e = _fd (ent l fd) → _event e = _event (ent l fd) → entry_as s fd e →
  table_ok (<[fd := s]> st) (fds_put fd e l).
Proof.
  intros H Hfd He E1 E2 Ha. pose proof (λ fd', ent_put l fd e fd' Hfd) as Hent.
  apply (table_ok_set st l _ fd e); try done; [lia|split| |].
  - intros fd' Hfd'. rewrite Hent. case_decide; [by subst|]. by apply (to_wf _ _ H).
  - simpl. rewrite length_insert. apply (to_wf _ _ H).
  - split; [|apply (to_sync _ _ H)].
    intros fd'. simpl. rewrite (ks_interest _ (to_sync _ _ H) fd'). unfold watched. rewrite Hent.
    case_decide; [subst|done]. by rewrite E1, E2.
  - simpl. by rewrite length_insert.
Qed.

Lemma set_func_wf d f fd e :
  entry_wf fd e → _fd e = fd → 0 <= fd → (is_Some f → has (_event e) (bit d) = true) →
  entry_wf fd (set_func d f e).
Proof.
  intros [W1 W2 W3 W4] Hfd H0 Hf. destruct d; split; simpl; auto; try lia.
  - intros []; simpl; [done|apply (W4 DirW)].
  - intros []; simpl; [apply (W4 DirR)|done].
Qed.

(** A status in which the handler of direction [d] may (re)arm itself. *)
Definition armable (d : dir) (s : status) : Prop := s = Idle d ∨ ∃ c, s = Waits d c.

Lemma armable_entry d s fd e :
  armable d s → entry_wf fd e → entry_as s fd e →
  _fd e = fd ∧ has (_event e) (bit d) = true ∧ func (opposite d) e = None.
Proof.
  intros [->|[c ->]] Hw; simpl; [by intros (? & ? & ?)|]. intros (? & Hf & ?).
  split_and!; [done| |done]. apply (wf_func _ _ Hw). by rewrite Hf.
Qed.

Lemma rearm_ok {S M} st (w : world K (server S M)) d fd c :
  table_ok st (w_loop w) → 0 <= fd → armable d (st fd) →
  ∃ l', rearm d e0 fd c w = Ok (World l' (w_user w)) ∧ table_ok (<[fd := Waits d c]> st) l'.
Proof.
  intros H Hfd Ha. destruct (table_ok_range st (w_loop w) fd H Hfd) as [Hr _].
  { by destruct Ha as [-> | [? ->]]. }
  pose proof (wf_entry _ (to_wf _ _ H) fd Hfd) as Hwf.
  destruct (armable_entry d (st fd) fd _ Ha Hwf (to_entries _ _ H fd Hfd)) as (E1 & E2 & E3).
  unfold rearm, epoch. rewrite bool_decide_true by apply H. cbn [require mbind res_bind].
  rewrite fds_at_ent by done. cbn [mbind res_bind]. eexists. split; [done|].
  apply table_ok_put; try done; [by apply set_func_wf|by destruct d|by destruct d|].
  by destruct d.
Qed.

(** ** Dispatch *)

Context {U : Type} `{!Callbacks K U}.

Definition fire (d : dir) : bool → Z → Z → world K U → res (world K U) :=
  match d with DirR => fire_r | DirW => fire_w end.

Lemma fire_hit st w d c fd code :
  table_ok st (w_loop w) → 0 <= fd → st fd = Waits d c →
  ∃ l', fire d true fd code w = file_event c fd code (World l' (w_user w)) ∧
    table_ok (<[fd := Idle d]> st) l'.
Proof.
  intros H Hfd Hs. destruct (table_ok_range st (w_loop w) fd H Hfd) as [Hr _]; [by rewrite Hs|].
  pose proof (to_entries _ _ H fd Hfd) as He. rewrite Hs in He. destruct He as (E1 & E2 & E3).
  pose proof (wf_entry _ (to_wf _ _ H) fd Hfd) as Hwf.
  exists (fds_put fd (set_func d None (ent (w_loop w) fd)) (w_loop w)). split.
  - unfold fire, fire_r, fire_w. destruct d; rewrite fds_at_ent by done; cbn [mbind res_bind];
      simpl in E2; by rewrite E2.
  - assert (has (_event (ent (w_loop w) fd)) (bit d) = true) by (apply (wf_func _ _ Hwf); by rewrite E2).
    apply table_ok_put; try done; [|by destruct d..|].
    { apply set_func_wf; [done|done|lia|by intros []]. }
    destruct d; (split_and!; [done|done|]); by intros [].
Qed.

Lemma fire_miss st w d ok fd code :
  table_ok st (w_loop w) → 0 <= fd < Z.of_nat (length (_fds (w_loop w))) →
  ok = false ∨ (∀ c, st fd ≠ Waits d c) → fire d ok fd code w = Ok w.
Proof.
  intros H Hfd Hs. assert (ok = false ∨ func d (ent (w_loop w) fd) = None) as Hf.
  { destruct Hs as [|Hs]; [by left|]. right. pose proof (to_entries _ _ H fd (proj1 Hfd)) as He.
    destruct (st fd) as [|d'|d' c]; simpl in He; [by rewrite He; destruct d|apply He|].
    destruct He as (_ & _ & He). destruct (decide (d' = d)) as [->|]; [by destruct (Hs c)|].
    by destruct d, d'. }
  unfold fire, fire_r, fire_w. destruct d; rewrite fds_at_ent by done; cbn [mbind res_bind];
    simpl in Hf; destruct Hf as [->| ->]; repeat case_match; done.
Qed.

(** The assertions in front of the calls. *)
Lemma subscribed_ok st l d ok fd :
  table_ok st l → 0 <= fd →
  assert_subscribed ndebug ok (func d (ent l fd)) (_event (ent l fd)) (bit d) = Ok tt.
Proof.
  intros H Hfd. unfold assert_subscribed, c_assert.
  destruct (func d (ent l fd)) eqn:E; [|done]. destruct ok, ndebug; try done.
  rewrite (wf_func _ _ (wf_entry _ (to_wf _ _ H) fd Hfd) d); [done|]. by rewrite E.
Qed.
End table.
