(* ===== verification/ServerProps.v ===== *)
(** * The request server as a whole

    The invariant of the running server, and that every event the loop can
    dispatch keeps it: each open connection waits for its next event in the
    loop's table and in the kernel, every byte of every peer is accounted for,
    and every block of memory has one owner. *)

From stdpp Require Import functions.
From S2P Require Import Prelude StdHeap ByteBuffer IoLoop IoLoopFacts IoLoopProps Socket.
From S2P Require Import NioAwaiter RequestProps Awaiters EchoServer PoolClient Server ServerConn ServerTable.

(** ** The invariant *)

Section props.
Context {K S M : Type} `{!Epoll K} `{!EpollLaws K} `{!StdHeap compare_timer}.
Context `{!Socket S} `{!SocketLaws S} `{!Allocator M} `{!AllocatorLaws M}.
Context `{!MultimapFind byte_buffer_data}.
Variable ndebug : bool.
Variable clock : nat → Z.
Variable thr : Z.
Variable uninit : byte_buffer_impl → list Z.
Variable buf0 : list Z.
Variable base_fds : gset Z.
Variable pick : gset Z → Z.
(** The loop's event descriptor and the listening descriptor. *)
Variables (efd sock : Z) (e0 : nat).
Hypothesis Huninit : ∀ b, 0 <= capacity b → Z.of_nat (length (uninit b)) = capacity b.
Hypothesis Hbuf0 : length buf0 = 8%nat.
Hypothesis Hefd : (0 <= efd < 256) ∧ efd ∈ base_fds.
Hypothesis Hsock : (0 <= sock < 256) ∧ sock ∈ base_fds ∧ sock ≠ efd.
(** accept(2) returns the lowest descriptor that is not open. *)
Hypothesis Hpick : ∀ X : gset Z, (pick X ∉ X) ∧ (0 <= pick X <= Z.of_nat (size X)).
(** All that the peers will ever send. *)
Variable total : list (list Z).

Implicit Types (u : server S M) (w : world K (server S M)) (l : io_loop K).

#[local] Instance callbacks : Callbacks K (server S M) :=
  server_callbacks ndebug clock thr uninit buf0 base_fds pick.

Definition held : gmap Z (conn S) → list byte_buffer_impl := collect (λ c, buffer_of (c_phase c)).
Definition inputs : gmap Z (conn S) → list (list Z) := collect (λ c, [c_input c]).
Definition arriving (a : accept_ans S) : option (list Z) :=
  match a with AcOk s => Some (stream s) | AcErr _ => None end.

(** The peers of this server speak the protocol, and [::accept] has no hard
    errors. *)
Definition arrival_ok (a : accept_ans S) : Prop :=
  match a with
  | AcOk s => well_framed (stream s) ∧ sent s = []
  | AcErr e => e = EINTR ∨ e = EAGAIN ∨ e = ECONNABORTED
  end.

Record user_ok u : Prop := {
  uo_sock : sv_sock u = sock;
  uo_conns : map_Forall (λ fd c, conn_ok c ∧ (0 <= fd < 256) ∧ fd ∉ base_fds) (sv_conns u);
  uo_pool : pool_holds (sv_heap u) (sv_pool u) [] (held (sv_conns u));
  uo_closed : Forall (λ x, sent x.2 `prefix_of` x.1) (sv_closed u);
  uo_incoming : Forall arrival_ok (sv_incoming u);
  uo_total : (sv_closed u).*1 ++ inputs (sv_conns u) ++ omap arriving (sv_incoming u) ≡ₚ total;
}.

(** The direction and the awaiter a suspended [tcp_echo] waits with. *)
Definition phase_status (fd : Z) (ph : phase) : status :=
  match ph with
  | PRecv _ => Waits DirR (recv_cb fd)
  | PSend _ _ _ => Waits DirW (send_cb fd)
  end.
Definition wants u (fd : Z) : status :=
  if decide (fd = efd) then Waits DirR loop_cb
  else if decide (fd = sock) then Waits DirR (recv_cb sock)
  else match sv_conns u !! fd with Some c => phase_status fd (c_phase c) | None => Free end.

Section sized.
(** A bound below which the length of the table does not fall. *)
Variable n0 : nat.

Record server_ok w : Prop := {
  so_user : user_ok (w_user w);
  so_table : table_ok (Some thr) efd e0 n0 (wants (w_user w)) (w_loop w);
}.

(** ** One connection changes *)

Lemma conn_lookup u fd c :
  user_ok u → sv_conns u !! fd = Some c →
  conn_ok c ∧ (0 <= fd < 256) ∧ (fd ∉ base_fds) ∧ fd ≠ efd ∧ fd ≠ sock.
Proof.
  intros Hu Hc. destruct (uo_conns _ Hu fd c Hc) as (H1 & H2 & H3).
  split_and!; try done; [lia..| |]; intros ->; [by destruct Hefd|by destruct Hsock as (_ & ? & _)].
Qed.

Lemma conn_pool u fd c :
  user_ok u → sv_conns u !! fd = Some c →
  pool_holds (sv_heap u) (sv_pool u) (buffer_of (c_phase c)) (held (delete fd (sv_conns u))).
Proof.
  intros Hu Hc. eapply pool_holds_perm; [|apply (uo_pool _ Hu)].
  simpl. unfold held at 1. by rewrite (collect_lookup _ _ _ _ Hc).
Qed.

Lemma user_ok_set u fd c c' m p :
  user_ok u → sv_conns u !! fd = Some c → conn_ok c' → c_input c' = c_input c →
  pool_holds m p (buffer_of (c_phase c')) (held (delete fd (sv_conns u))) →
  user_ok (set_conn fd c' (set_mem m p u)).
Proof.
  intros Hu Hc Hok Hin Hp. destruct (conn_lookup u fd c Hu Hc) as (_ & Hfd & Hb & _).
  destruct Hu as [U1 U2 U3 U4 U5 U6]. split; simpl; try done.
  - by apply map_Forall_insert_2.
  - eapply pool_holds_perm; [|exact Hp]. simpl. unfold held at 2. by rewrite collect_insert.
  - rewrite <- U6. unfold inputs. rewrite collect_insert, (collect_lookup _ _ _ _ Hc). by rewrite Hin.
Qed.

Lemma user_ok_end u fd c c' m p :
  user_ok u → sv_conns u !! fd = Some c → sent (c_sock c') `prefix_of` c_input c' →
  c_input c' = c_input c → pool_holds m p [] (held (delete fd (sv_conns u))) →
  user_ok (end_conn fd c' (set_mem m p u)).
Proof.
  intros Hu Hc Hs Hin Hp. destruct Hu as [U1 U2 U3 U4 U5 U6]. split; simpl; try done.
  - by apply map_Forall_delete.
  - apply Forall_app. split; [done|]. by apply Forall_singleton.
  - rewrite <- U6, fmap_app. unfold inputs. rewrite (collect_lookup _ (sv_conns u) _ _ Hc). simpl.
    rewrite Hin, <- !app_assoc. done.
Qed.

Lemma wants_set u fd c :
  fd ≠ efd → fd ≠ sock →
  ∀ x, wants (set_conn fd c u) x = <[fd := phase_status fd (c_phase c)]> (wants u) x.
Proof.
  intros H1 H2 x. unfold wants. simpl. destruct (decide (x = fd)) as [->|Hne].
  - rewrite fn_lookup_insert, !decide_False, lookup_insert_eq by done. done.
  - rewrite fn_lookup_insert_ne by done. by rewrite lookup_insert_ne.
Qed.

Lemma wants_end u fd c :
  fd ≠ efd → fd ≠ sock → ∀ x, wants (end_conn fd c u) x = <[fd := Free]> (wants u) x.
Proof.
  intros H1 H2 x. unfold wants. simpl. destruct (decide (x = fd)) as [->|Hne].
  - rewrite fn_lookup_insert, !decide_False, lookup_delete_eq by done. done.
  - rewrite fn_lookup_insert_ne by done. by rewrite lookup_delete_ne.
Qed.
(** ** What a handler leaves behind *)

(** How many connections one event of the listening descriptor brings. *)
Fixpoint backlog (l : list (accept_ans S)) : nat :=
  match l with
  | [] => 0
  | AcOk _ :: l => Datatypes.S (backlog l)
  | AcErr e :: l => if e =? EINTR then backlog l else 0
  end.

(** The loop's table has a place for all of them. *)
Definition room u : Prop :=
  (size base_fds + size (sv_conns u) + backlog (sv_incoming u) ≤ 256)%nat.

(** After the event of [fd]: the invariant; the other connections are as they
    were, nobody else has been unregistered; only an event of the listening
    descriptor takes new descriptors. *)
Record after (fd : Z) u w : Prop := {
  af_ok : server_ok w;
  af_conns x c : x ≠ fd → sv_conns u !! x = Some c → sv_conns (w_user w) !! x = Some c;
  af_closed : sv_closed u ⊆ sv_closed (w_user w);
  af_others x : x ≠ fd → wants u x ≠ Free → wants (w_user w) x ≠ Free;
  af_room : fd ≠ sock → room u → room (w_user w);
}.

Lemma fn_insert_insert {A} (f : Z → A) i a b x : <[i := a]> (<[i := b]> f) x = <[i := a]> f x.
Proof.
  destruct (decide (i = x)) as [->|]; [by rewrite !fn_lookup_insert|by rewrite !fn_lookup_insert_ne].
Qed.

Lemma after_set u l' fd c c' m p d :
  user_ok u → sv_conns u !! fd = Some c → conn_ok c' → c_input c' = c_input c →
  pool_holds m p (buffer_of (c_phase c')) (held (delete fd (sv_conns u))) →
  table_ok (Some thr) efd e0 n0 (<[fd := phase_status fd (c_phase c')]> (<[fd := Idle d]> (wants u))) l' →
  after fd u (World l' (set_conn fd c' (set_mem m p u))).
Proof.
  intros Hu Hc Hok Hin Hp Ht. destruct (conn_lookup u fd c Hu Hc) as (_ & _ & _ & N1 & N2).
  pose proof (wants_set (set_mem m p u) fd c' N1 N2) as Hw. split; [split|..]; simpl.
  - by eapply user_ok_set.
  - eapply table_ok_ext; [|exact Ht]. intros x _. by rewrite fn_insert_insert, Hw.
  - intros x cx Hne. by rewrite lookup_insert_ne.
  - done.
  - intros x Hne. rewrite Hw, fn_lookup_insert_ne by done. done.
  - intros _. unfold room. simpl. rewrite map_size_insert_Some by eauto. done.
Qed.

Lemma after_end u l' fd c c' m p d :
  user_ok u → sv_conns u !! fd = Some c → sent (c_sock c') `prefix_of` c_input c' →
  c_input c' = c_input c → pool_holds m p [] (held (delete fd (sv_conns u))) →
  table_ok (Some thr) efd e0 n0 (<[fd := Free]> (<[fd := Idle d]> (wants u))) l' →
  after fd u (World l' (end_conn fd c' (set_mem m p u))).
Proof.
  intros Hu Hc Hok Hin Hp Ht. destruct (conn_lookup u fd c Hu Hc) as (_ & _ & _ & N1 & N2).
  pose proof (wants_end (set_mem m p u) fd c' N1 N2) as Hw. split; [split|..]; simpl.
  - by eapply user_ok_end.
  - eapply table_ok_ext; [|exact Ht]. intros x _. by rewrite fn_insert_insert, Hw.
  - intros x cx Hne. by rewrite lookup_delete_ne.
  - apply list_subseteq_app_l. done.
  - intros x Hne. rewrite Hw, fn_lookup_insert_ne by done. done.
  - intros _. unfold room. simpl. rewrite map_size_delete_Some by eauto. lia.
Qed.

(** ** The handlers of a connection *)

Section conn_events.
Context (u : server S M) (fd : Z) (c : conn S).
Hypothesis Hu : user_ok u.
Hypothesis Hc : sv_conns u !! fd = Some c.

Lemma leave_after l d buff c' m p :
  table_ok (Some thr) efd e0 n0 (<[fd := Idle d]> (wants u)) l →
  pool_holds m p (held_by buff) (held (delete fd (sv_conns u))) → Forall nonnull (held_by buff) →
  sent (c_sock c') `prefix_of` c_input c' → c_input c' = c_input c →
  ∃ w', echo_leave ndebug thr fd c' buff (World l (set_mem m p u)) = Ok w' ∧ after fd u w'.
Proof.
  intros Ht Hp Hnn Hs Hin. destruct (conn_lookup u fd c Hu Hc) as (_ & Hfd & _).
  unfold echo_leave. simpl. destruct (drop_ok buff m p _ Hp Hnn) as (m' & p' & -> & Hp').
  cbn [mbind res_bind]. destruct (cancel_ok ndebug (Some thr) efd e0 n0 thr _ l fd eq_refl Ht) as (l' & -> & Ht'); [lia..|].
  eexists. split; [done|]. by apply (after_end u l' fd c c' m' p' d).
Qed.

Lemma begin_after l d s m p :
  table_ok (Some thr) efd e0 n0 (<[fd := Idle d]> (wants u)) l →
  pool_holds m p [] (held (delete fd (sv_conns u))) →
  well_framed (stream s) → sent s ++ stream s = c_input c →
  ∃ w', echo_begin clock buf0 fd s (c_input c) (World l (set_mem m p u)) = Ok w' ∧ after fd u w'.
Proof.
  intros Ht Hp Hwf Hin. destruct (conn_lookup u fd c Hu Hc) as (_ & Hfd & _).
  unfold echo_begin, recv_ctor, timeout_ctor, wait_read. cbn [mbind res_bind w_loop].
  destruct (wait_ok (Some thr) efd e0 n0 _ l DirR fd (recv_cb fd) Ht) as (l' & E & Ht'); [lia| |].
  { intros d' c'. by rewrite fn_lookup_insert. }
  simpl bit in E. rewrite E. eexists. split; [done|].
  destruct (recv_ok_start buf0 s Hwf Hbuf0) as [Hok Ho].
  eapply (after_set u l' fd c _ m p d); [done|exact Hc| |done|done|exact Ht'].
  split; [done| |done]. cbn [c_phase c_sock c_input]. by rewrite Ho.
Qed.

Lemma recv_event_after l a ev :
  c_phase c = PRecv a → table_ok (Some thr) efd e0 n0 (<[fd := Idle DirR]> (wants u)) l →
  ∃ w', conn_recv_event ndebug clock thr uninit fd fd ev a c (World l u) = Ok w' ∧ after fd u w'.
Proof.
  intros Hph Ht. destruct (conn_lookup u fd c Hu Hc) as (Hok & Hfd & _).
  pose proof (conn_pool u fd c Hu Hc) as Hp. rewrite Hph in Hp. unfold conn_recv_event. simpl.
  replace c with (Conn (c_sock c) (PRecv a) (c_input c)) in Hok by (rewrite <- Hph; by destruct c).
  destruct (recv_step uninit Huninit ev _ _ a _ _ _ Hok Hp) as (m & p & a' & s' & o & -> & Hpost).
  destruct Hpost as (Hp' & Hnn & Hpre & X). cbn [mbind res_bind]. destruct o.
  - destruct (rearm_ok (Some thr) efd e0 n0 _ (World l (set_conn fd (Conn s' (PRecv a') (c_input c)) (set_mem m p u)))
      DirR fd (recv_cb fd) Ht) as (l' & E & Ht'); [lia|left; by rewrite fn_lookup_insert|].
    unfold epoch. simpl. rewrite (to_epoch _ _ _ _ _ _ Ht), E. eexists. split; [done|].
    by eapply (after_set u l' fd).
  - unfold echo_received. destruct X as [Hle|(b & mem & frame & Hq & Hw & Hf & Hres & Hlen & Hwf & Hin)].
    { rewrite (proj2 (Z.leb_le _ _)) by done. by eapply leave_after. }
    pose proof Hf as (Hn & _). rewrite Hq in *. rewrite Hres, Hlen, (proj2 (Z.leb_gt _ _)) by lia.
    rewrite i32_small, Z.eqb_refl by lia. simpl negb. cbv iota.
    unfold send_ctor, timeout_ctor, wait_write. cbn [mbind res_bind w_loop].
    destruct (wait_ok (Some thr) efd e0 n0 _ l DirW fd (send_cb fd) Ht) as (l' & E & Ht'); [lia| |].
    { intros d' c'. by rewrite fn_lookup_insert. }
    simpl bit in E. rewrite E. eexists. split; [done|].
    eapply (after_set u l' fd _ _ m p); [done|exact Hc| |done|exact Hp'|exact Ht']. split; [|simpl; by rewrite Hw|done].
    exists frame, (sent s'). simpl. rewrite take_0, app_nil_r. split_and!; done || lia.
Qed.

Lemma send_event_after l buff len d ev :
  c_phase c = PSend buff len d → table_ok (Some thr) efd e0 n0 (<[fd := Idle DirW]> (wants u)) l →
  ∃ w', conn_send_event ndebug clock thr buf0 fd fd ev buff len d c (World l u) = Ok w' ∧ after fd u w'.
Proof.
  intros Hph Ht. destruct (conn_lookup u fd c Hu Hc) as (Hok & Hfd & _).
  pose proof (conn_pool u fd c Hu Hc) as Hp. pose proof Hc as Hc'. pose proof (co_buffer _ Hok) as Hnn.
  unfold conn_send_event. rewrite Hph in *. simpl in Hp, Hnn.
  replace c with (Conn (c_sock c) (PSend buff len d) (c_input c)) in Hok by (rewrite <- Hph; by destruct c).
  destruct (send_step ev buff len d _ _ Hok) as (d' & s' & o & -> & Hpre & X).
  cbn [mbind res_bind]. destruct o.
  - destruct (rearm_ok (Some thr) efd e0 n0 _ (World l (set_conn fd (Conn s' (PSend buff len d') (c_input c)) u))
      DirW fd (send_cb fd) Ht) as (l' & E & Ht'); [lia|left; by rewrite fn_lookup_insert|].
    unfold epoch. cbn [w_loop w_user]. rewrite (to_epoch _ _ _ _ _ _ Ht), E. eexists. split; [done|].
    eapply (after_set u l' fd c _ (sv_heap u) (sv_pool u)); done.
  - unfold echo_sent. destruct (len =? sl_result d') eqn:El; bool_prop; simpl negb; cbv iota.
    + simpl. destruct (drop_ok (Some buff) _ _ _ Hp Hnn) as (m & p & E & Hp'). simpl in E. rewrite E.
      cbn [mbind res_bind]. destruct (X (eq_sym El)) as [Hin Hwf]. by eapply begin_after.
    + apply (leave_after l DirW (Some buff) (Conn s' (PSend buff len d') (c_input c)) (sv_heap u) (sv_pool u)); done.
Qed.
End conn_events.
(** ** New connections *)

Lemma user_ok_skip u e rest :
  user_ok u → sv_incoming u = AcErr e :: rest → user_ok (set_incoming rest u).
Proof.
  intros [U1 U2 U3 U4 U5 U6] E. rewrite E in *. apply Forall_cons in U5 as [_ U5]. by split.
Qed.

Lemma user_ok_new u fd s rest :
  user_ok u → sv_incoming u = AcOk s :: rest → sv_conns u !! fd = None →
  0 <= fd < 256 → fd ∉ base_fds →
  user_ok (set_conn fd (Conn s (PRecv (new_recv_request None buf0)) (stream s)) (set_incoming rest u)).
Proof.
  intros [U1 U2 U3 U4 U5 U6] E Hn Hfd Hb. rewrite E in *. apply Forall_cons in U5 as [[Hwf Hs] U5].
  destruct (recv_ok_start buf0 s Hwf Hbuf0) as [Hok Ho]. split; simpl; try done.
  - apply map_Forall_insert_2; [|done]. split_and!; try lia; try done. split; [done| |done].
    cbn [c_phase c_sock c_input]. by rewrite Ho, Hs.
  - eapply pool_holds_perm; [|exact U3]. simpl. unfold held. rewrite collect_insert. simpl.
    by rewrite delete_id.
  - rewrite <- U6. unfold inputs. rewrite collect_insert, delete_id by done. simpl.
    apply Permutation_app_head, Permutation_middle.
Qed.

(** The descriptor of a new connection. *)
Lemma pick_fresh u :
  (size base_fds + size (sv_conns u) < 256)%nat →
  let fd := pick (base_fds ∪ dom (sv_conns u)) in
  (0 <= fd < 256) ∧ (fd ∉ base_fds) ∧ sv_conns u !! fd = None ∧ fd ≠ efd ∧ fd ≠ sock.
Proof.
  intros Hr fd. destruct (Hpick (base_fds ∪ dom (sv_conns u))) as [Hn Hle]. fold fd in Hn, Hle.
  assert (size (base_fds ∪ dom (sv_conns u)) ≤ size base_fds + size (sv_conns u))%nat as Hs.
  { rewrite size_union_alt, <- (size_dom (sv_conns u)). apply Nat.add_le_mono_l, subseteq_size.
    intros x. rewrite elem_of_difference. by intros [? _]. }
  apply not_elem_of_union in Hn as [Hn1 Hn2]. apply not_elem_of_dom in Hn2.
  split_and!; [lia..|done|done| |]; intros Heq; apply Hn1; rewrite Heq;
    [by destruct Hefd|by destruct Hsock as (_ & ? & _)].
Qed.

Lemma accepted_ok u l s0 s rest :
  user_ok u → room u → sv_incoming u = AcOk s :: rest → armable DirR s0 →
  table_ok (Some thr) efd e0 n0 (<[sock := s0]> (wants u)) l →
  ∃ w', accepted clock buf0 base_fds pick s (World l (set_incoming rest u)) = Ok w' ∧
    server_ok w' ∧ room (w_user w') ∧ sv_incoming (w_user w') = rest ∧
    sv_closed (w_user w') = sv_closed u ∧
    (∀ x c, sv_conns u !! x = Some c → sv_conns (w_user w') !! x = Some c) ∧
    ∀ x, wants u x ≠ Free → wants (w_user w') x ≠ Free.
Proof.
  intros Hu Hr Ei Ha Ht. unfold accepted. cbn [w_user sv_conns set_incoming sv_sock].
  unfold room in Hr. rewrite Ei in Hr. simpl in Hr.
  destruct (pick_fresh u) as (Hfd & Hb & Hn & N1 & N2); [lia|].
  set (fd := pick _) in *. rewrite (uo_sock _ Hu).
  unfold echo_begin, recv_ctor, timeout_ctor, accept_ctor, wait_read. cbn [mbind res_bind w_loop w_user].
  destruct (wait_ok (Some thr) efd e0 n0 _ l DirR fd (recv_cb fd) Ht) as (l1 & E1 & Ht1); [done| |].
  { intros d c. rewrite fn_lookup_insert_ne by done. unfold wants. by rewrite !decide_False, Hn. }
  simpl bit in E1. rewrite E1. cbn [mbind res_bind w_loop w_user].
  destruct (wait_ok (Some thr) efd e0 n0 _ l1 DirR sock (recv_cb sock) Ht1) as (l2 & E2 & Ht2); [by destruct Hsock| |].
  { intros d c. rewrite fn_lookup_insert_ne, fn_lookup_insert by done.
    destruct Ha as [->|[? ->]]; congruence. }
  simpl bit in E2. rewrite E2. eexists. split; [done|]. cbn [w_loop w_user].
  set (c := Conn s _ _). pose proof (wants_set (set_incoming rest u) fd c N1 N2) as Hw.
  split; [split|]; cbn [w_loop w_user].
  - by apply user_ok_new.
  - eapply table_ok_ext; [|exact Ht2]. intros x _. rewrite Hw.
    destruct (decide (x = sock)) as [->|Hx].
    + rewrite fn_lookup_insert, fn_lookup_insert_ne by done. unfold wants.
      destruct Hsock as (_ & _ & Hne). by rewrite decide_False, decide_True.
    + rewrite (fn_lookup_insert_ne _ sock) by done. destruct (decide (x = fd)) as [->|].
      * by rewrite !fn_lookup_insert.
      * by rewrite !fn_lookup_insert_ne.
  - split_and!; [|done|done| |].
    + unfold room. simpl. rewrite map_size_insert_None by done. lia.
    + intros x cx Hx. simpl. rewrite lookup_insert_ne; [done|]. intros <-. congruence.
    + intros x. rewrite Hw. destruct (decide (x = fd)) as [->|].
      * by rewrite fn_lookup_insert.
      * by rewrite fn_lookup_insert_ne.
Qed.

Lemma wants_sock u : wants u sock = Waits DirR (recv_cb sock).
Proof. unfold wants. destruct Hsock as (_ & _ & Hne). by rewrite decide_False, decide_True. Qed.

Lemma accept_rearm u l s0 :
  user_ok u → armable DirR s0 → table_ok (Some thr) efd e0 n0 (<[sock := s0]> (wants u)) l →
  ∃ w', rearm DirR e0 sock (recv_cb (sv_sock u)) (World l u) = Ok w' ∧ after sock u w'.
Proof.
  intros Hu Ha Ht. rewrite (uo_sock _ Hu).
  destruct (rearm_ok (Some thr) efd e0 n0 _ (World l u) DirR sock (recv_cb sock) Ht) as (l' & -> & Ht').
  { by destruct Hsock as [[? _] _]. }
  { by rewrite fn_lookup_insert. }
  eexists. split; [done|]. split; [split; [done|]|done..].
  eapply table_ok_ext; [|exact Ht']. intros x _. rewrite fn_insert_insert. simpl.
  destruct (decide (x = sock)) as [->|]; [by rewrite wants_sock, fn_lookup_insert|].
  by rewrite fn_lookup_insert_ne.
Qed.

Lemma accept_after fuel u l s0 :
  user_ok u → room u → (length (sv_incoming u) < fuel)%nat → armable DirR s0 →
  table_ok (Some thr) efd e0 n0 (<[sock := s0]> (wants u)) l →
  ∃ w', accept_event clock buf0 base_fds pick fuel e0 sock (World l u) = Ok w' ∧ after sock u w'.
Proof.
  revert u l s0. induction fuel as [|fuel IH]; intros u l s0 Hu Hr Hf Ha Ht; [lia|].
  cbn [accept_event w_user]. destruct (sv_incoming u) as [|[s|e] rest] eqn:Ei; cbv zeta.
  - by eapply accept_rearm.
  - cbn [w_loop]. destruct (accepted_ok u l s0 s rest Hu Hr Ei Ha Ht) as ([l1 u1] & -> & [Hu1 Ht1] & Hr1 & Ei1 & Hcl & Hcn & Hx).
    cbn [mbind res_bind]. simpl in *.
    destruct (IH u1 l1 (Waits DirR (recv_cb sock))) as (w' & -> & [A1 A2 A3 A4 A5]); [done|done| | | |].
    + rewrite Ei1. lia.
    + right. eauto.
    + eapply table_ok_ext; [|exact Ht1]. intros x _.
      destruct (decide (x = sock)) as [->|]; [by rewrite wants_sock, fn_lookup_insert|].
      by rewrite fn_lookup_insert_ne.
    + exists w'. split; [done|]. split; [done|auto|by rewrite <- Hcl|auto|done].
  - pose proof (uo_incoming _ Hu) as Hin. rewrite Ei in Hin. apply Forall_cons in Hin as [He _].
    pose proof (user_ok_skip u e rest Hu Ei) as Hu1. cbn [w_loop]. destruct (e =? EINTR) eqn:C1; bool_prop.
    + destruct (IH (set_incoming rest u) l s0) as (w' & E & [A1 A2 A3 A4 A5]); [done| |simpl in *; lia|done|done|].
      * unfold room in *. simpl. rewrite Ei in Hr. simpl in Hr. by rewrite C1 in Hr.
      * by exists w'.
    + destruct (accept_rearm (set_incoming rest u) l s0 Hu1 Ha Ht) as (w' & E & [A1 A2 A3 A4 A5]).
      exists w'. split; [|by split].
      destruct (e =? EAGAIN) eqn:C2; [exact E|]. destruct (e =? ECONNABORTED) eqn:C3; [exact E|].
      bool_prop. by destruct He as [?|[?|?]].
Qed.
(** ** Every handler *)

Lemma call_all_nothing fs w : call_all fs w = Ok w.
Proof. induction fs as [|f fs IH]; [done|]. exact IH. Qed.

Lemma wants_efd u : wants u efd = Waits DirR loop_cb.
Proof. unfold wants. by rewrite decide_True. Qed.

Lemma loop_event_after u l :
  user_ok u → table_ok (Some thr) efd e0 n0 (<[efd := Idle DirR]> (wants u)) l →
  ∃ w', loop_on_file_event efd (World l u) = Ok w' ∧ after efd u w'.
Proof.
  intros Hu Ht. unfold loop_on_file_event. rewrite call_all_nothing. cbn [mbind res_bind].
  set (w1 := on_loop _ (on_loop _ _)).
  assert (table_ok (Some thr) efd e0 n0 (<[efd := Idle DirR]> (wants u)) (w_loop w1)) as Ht1
    by (by eapply table_ok_rest; [..|exact Ht]).
  destruct (rearm_ok (Some thr) efd e0 n0 _ w1 DirR efd loop_cb Ht1) as (l' & E & Ht').
  { lia. }
  { left. by rewrite fn_lookup_insert. }
  unfold rearm in E. change (epoch (World l u)) with (_fds_epoch l).
  rewrite (to_epoch _ _ _ _ _ _ Ht). eexists. split; [exact E|].
  split; [split; [done|]|done..]. eapply table_ok_ext; [|exact Ht'].
  intros x _. rewrite fn_insert_insert. simpl.
  destruct (decide (x = efd)) as [->|]; [by rewrite wants_efd, fn_lookup_insert|].
  by rewrite fn_lookup_insert_ne.
Qed.

(** The virtual call for a connection. *)
Lemma file_event_conn u l fd d f k code :
  user_ok u → sv_conns u !! fd = Some k → wants u fd = Waits d f →
  file_event f fd code (World l u) =
    match c_phase k with
    | PRecv a => conn_recv_event ndebug clock thr uninit fd fd code a k (World l u)
    | PSend buff len s => conn_send_event ndebug clock thr buf0 fd fd code buff len s k (World l u)
    end.
Proof.
  intros Hu Hk Hw. destruct (conn_lookup u fd k Hu Hk) as (_ & Hfd & _ & N1 & N2).
  unfold wants in Hw. rewrite !decide_False, Hk in Hw by done.
  assert (∀ x, recv_cb x ≠ loop_cb ∧ send_cb x ≠ loop_cb) as Hcb.
  { intros x. unfold recv_cb, send_cb, loop_cb. lia. }
  unfold file_event. destruct (c_phase k) as [a|buff len dd] eqn:Hph; simpl in Hw; injection Hw as <- <-;
    rewrite decide_False by apply Hcb; simpl; unfold server_file_event; cbn [w_user];
    rewrite (uo_sock _ Hu).
  - rewrite decide_False by (intros E%recv_cb_inj; lia). rewrite cb_fd_recv by lia.
    by rewrite Hk, Hph, decide_True.
  - rewrite decide_False by (intros E; by destruct (recv_send_cb sock fd)). rewrite cb_fd_send by lia.
    by rewrite Hk, Hph, decide_True.
Qed.

Lemma file_event_after u l fd d c code :
  user_ok u → 0 <= fd → wants u fd = Waits d c → (fd = sock → room u) →
  table_ok (Some thr) efd e0 n0 (<[fd := Idle d]> (wants u)) l →
  ∃ w', file_event c fd code (World l u) = Ok w' ∧ after fd u w'.
Proof.
  intros Hu Hfd Hw Hr Ht. destruct (sv_conns u !! fd) as [k|] eqn:Hk.
  { rewrite (file_event_conn u l fd d c k) by done.
    destruct (conn_lookup u fd k Hu Hk) as (_ & _ & _ & N1 & N2).
    unfold wants in Hw at 1. rewrite !decide_False, Hk in Hw by done.
    destruct (c_phase k) eqn:Hph; simpl in Hw; injection Hw as <- <-;
      [by apply recv_event_after|by apply send_event_after]. }
  unfold wants in Hw at 1. rewrite Hk in Hw. unfold file_event.
  destruct (decide (fd = efd)) as [->|N1].
  { injection Hw as <- <-. rewrite decide_True by done. by apply loop_event_after. }
  destruct (decide (fd = sock)) as [->|N2]; [|done].
  injection Hw as <- <-. rewrite decide_False by (unfold recv_cb, loop_cb; lia). simpl.
  unfold server_file_event. cbn [w_user]. rewrite (uo_sock _ Hu), decide_True by done.
  change (epoch (World l u)) with (_fds_epoch l). rewrite (to_epoch _ _ _ _ _ _ Ht).
  apply (accept_after _ u l (Idle DirR)); auto. by left.
Qed.

(** ** Dispatch *)

Lemma after_refl w fd : server_ok w → after fd (w_user w) w.
Proof. by split. Qed.

Lemma after_trans fd u w w' : after fd u w → after fd (w_user w) w' → after fd u w'.
Proof. intros [] []. split; auto. by etrans. Qed.

(** An event of writing leaves no less room. *)
Lemma fire_after w d ok fd code :
  server_ok w → 0 <= fd < Z.of_nat n0 → (fd = sock → room (w_user w)) →
  ∃ w', fire d ok fd code w = Ok w' ∧ after fd (w_user w) w' ∧
    (d = DirW → room (w_user w) → room (w_user w')).
Proof.
  intros [Hu Ht] Hfd Hr.
  assert ((ok = true ∧ ∃ c, wants (w_user w) fd = Waits d c) ∨
    (ok = false ∨ ∀ c, wants (w_user w) fd ≠ Waits d c)) as [[-> [c Hc]]|Hn].
  { destruct ok; [|by auto]. destruct (wants (w_user w) fd) as [| |d' c]; [by auto..|].
    destruct (decide (d' = d)) as [->|]; [by eauto|]. right. right. intros ? [=]. done. }
  - destruct (fire_hit (Some thr) efd e0 n0 _ w d c fd code Ht (proj1 Hfd) Hc) as (l & -> & Ht').
    destruct (file_event_after (w_user w) l fd d c code) as (w' & -> & Ha); [done|lia|done..|].
    exists w'. split; [done|]. split; [done|]. intros ->. apply (af_room _ _ _ Ha). intros ->.
    by rewrite wants_sock in Hc.
  - exists w. split; [|by split; [apply after_refl|]].
    apply (fire_miss (Some thr) efd e0 n0 (wants (w_user w))); [done| |].
    + pose proof (to_length _ _ _ _ _ _ Ht). lia.
    + done.
Qed.

Lemma after_epoch fd u w : after fd u w → epoch w = e0.
Proof. intros [[_ Ht] _ _ _ _]. apply (to_epoch _ _ _ _ _ _ Ht). Qed.

(** The two calls of one event. *)
Lemma fire_both w okw okr fd cw cr :
  server_ok w → 0 <= fd < Z.of_nat n0 → (fd = sock → room (w_user w)) →
  ∃ w1 w2, fire_w okw fd cw w = Ok w1 ∧ epoch w1 = e0 ∧ server_ok w1 ∧
    fire_r okr fd cr w1 = Ok w2 ∧ after fd (w_user w) w2.
Proof.
  intros Hs Hfd Hr. destruct (fire_after w DirW okw fd cw Hs Hfd Hr) as (w1 & E1 & A1 & R1).
  destruct (fire_after w1 DirR okr fd cr (af_ok _ _ _ A1) Hfd) as (w2 & E2 & A2 & _); [auto|].
  exists w1, w2. split_and!; [done|by eapply after_epoch|apply A1|done|by eapply after_trans].
Qed.

Lemma dispatch_after w fd events :
  server_ok w → 0 <= fd < Z.of_nat n0 → wants (w_user w) fd ≠ Free → (fd = sock → room (w_user w)) →
  ∃ w', dispatch_event ndebug (fd, events) w = Ok w' ∧ after fd (w_user w) w'.
Proof.
  intros Hs Hfd Hw Hr. pose proof (so_table _ Hs) as Ht.
  assert (Z.of_nat n0 <= Z.of_nat (length (_fds (w_loop w)))) as Hl
    by (pose proof (to_length _ _ _ _ _ _ Ht); lia).
  unfold dispatch_event. rewrite (proj2 (Z.leb_gt _ _)) by lia. rewrite fds_at_ent by lia.
  cbn [mbind res_bind]. assert (_fd (ent (w_loop w) fd) = fd) as ->.
  { pose proof (to_entries _ _ _ _ _ _ Ht fd (proj1 Hfd)) as He.
    destruct (wants _ _); [done|apply He..]. }
  rewrite (proj2 (Z.eqb_neq _ _)) by lia. change (epoch w) with (_fds_epoch (w_loop w)).
  rewrite (to_epoch _ _ _ _ _ _ Ht). case_cond.
  - pose proof (so_error_interest (_kernel (w_loop w)) fd) as Hso.
    pose proof (ks_so_error (_kernel (w_loop w)) fd) as Hstep.
    destruct (so_error _ fd) as [k r]. simpl in Hso, Hstep.
    assert (server_ok (on_loop (set_kernel k) w)) as Hs1.
    { split; [apply Hs|]. destruct Ht as [T1 T2 T3 T4 T5 T6 T7 T8 T9].
      split; simpl; try done; [by destruct T1|].
      destruct T2 as [T2 T2']. split; [|by eapply ctl_serves_step].
      intros x. simpl. rewrite Hso. apply T2. }
    destruct (fire_both _ true true fd (- default 0 r) (- default 0 r) Hs1 Hfd Hr)
      as (w1 & w2 & -> & He & _ & E2 & Ha). cbn [mbind res_bind].
    rewrite bool_decide_true by done. exists w2. by split.
  - rewrite (subscribed_ok ndebug (Some thr) efd e0 n0 _ _ DirW _ fd Ht) by lia. cbn [mbind res_bind].
    destruct (fire_both w (has events EV_OUT) (has events EV_IN) fd EM_WRITE EM_READ Hs Hfd Hr)
      as (w1 & w2 & -> & He & Hs1 & E2 & Ha). cbn [mbind res_bind].
    rewrite bool_decide_true by done. cbn [require mbind res_bind].
    pose proof (to_length _ _ _ _ _ _ (so_table _ Hs1)).
    rewrite fds_at_ent by lia. cbn [mbind res_bind].
    rewrite (subscribed_ok ndebug (Some thr) efd e0 n0 _ _ DirR _ fd (so_table _ Hs1)) by lia.
    exists w2. by split.
Qed.

(** A batch of events of different registered descriptors. *)
Lemma dispatch_all_after evs w :
  server_ok w → NoDup evs.*1 →
  Forall (λ ev, (0 <= ev.1 < Z.of_nat n0) ∧ wants (w_user w) ev.1 ≠ Free) evs →
  (sock ∈ evs.*1 → room (w_user w)) →
  ∃ w', dispatch_all ndebug evs w = Ok w' ∧ server_ok w'.
Proof.
  revert w. induction evs as [|[fd events] evs IH]; intros w Hs Hnd Hev Hr; [by exists w|].
  apply NoDup_cons in Hnd as [Hn Hnd]. apply Forall_cons in Hev as [[Hfd Hw] Hev].
  simpl in Hfd, Hw, Hr. cbn [dispatch_all].
  destruct (dispatch_after w fd events Hs Hfd Hw) as (w1 & -> & [A1 _ _ A2 A3]).
  { intros ->. apply Hr. by left. }
  cbn [mbind res_bind]. apply IH; [done|done| |].
  - apply Forall_forall. intros ev Hin. rewrite Forall_forall in Hev. destruct (Hev ev Hin) as [? ?].
    split; [done|]. apply A2; [|done]. intros Heq. apply Hn. rewrite <- Heq.
    apply list_elem_of_fmap. by exists ev.
  - intros Hin. apply A3; [by intros ->|]. apply Hr. by right.
Qed.
End sized.
(** ** Running *)

Lemma server_ok_length n w : server_ok n w → server_ok (length (_fds (w_loop w))) w.
Proof. intros [Hu []]. by split; [|split]. Qed.
Lemma server_ok_zero n w : server_ok n w → server_ok 0 w.
Proof. intros [Hu []]. split; [done|]. split; [done..|lia|done]. Qed.

Lemma server_ok_rest n w f :
  (∀ l, _fds (f l) = _fds l ∧ _kernel (f l) = _kernel l ∧ _fds_capacity (f l) = _fds_capacity l ∧
    _fds_epoch (f l) = _fds_epoch l ∧ m_thread_id (f l) = m_thread_id l ∧ _timer (f l) = _timer l ∧
    _event_fd (f l) = _event_fd l) → server_ok n w → server_ok n (on_loop f w).
Proof.
  intros Hf [Hu Ht]. split; [done|]. destruct (Hf (w_loop w)) as (? & ? & ? & ? & ? & ? & ?).
  by eapply table_ok_rest.
Qed.

(** What [epoll_wait] reports: descriptors of the interest list, each once; and
    the table has room for the connections that are waiting to be accepted. *)
Definition batch_ok (r : wait_result) w : Prop :=
  match r with
  | WaitEvents evs => NoDup evs.*1 ∧
      Forall (λ ev, is_Some (interest (_kernel (w_loop w)) !! ev.1)) evs ∧
      (sock ∈ evs.*1 → room (w_user w))
  | WaitError _ => True
  end.

Fixpoint turns_ok (fuel : nat) (ts : list turn) w : Prop :=
  match ts with
  | [] => True
  | t :: ts => batch_ok (t_wait t) w ∧
      match run_turn ndebug clock fuel t w with
      | Ok (w', true) => turns_ok fuel ts w'
      | _ => True
      end
  end.

Lemma dispatch_turn evs w :
  server_ok 0 w → batch_ok (WaitEvents evs) w →
  ∃ w', dispatch_all ndebug evs w = Ok w' ∧ server_ok 0 w'.
Proof.
  intros Hs (Hnd & Hev & Hr). pose proof (so_table _ _ Hs) as Ht.
  destruct (dispatch_all_after (length (_fds (w_loop w))) evs w) as (w' & E & Hs'); [|done| |done|].
  - by eapply server_ok_length.
  - apply Forall_forall. intros ev Hin. rewrite Forall_forall in Hev. specialize (Hev ev Hin).
    pose proof (table_ok_interest _ _ _ _ _ _ _ Ht Hev) as Hfd.
    pose proof (proj1 (table_ok_watched _ _ _ _ _ _ _ Ht Hfd) Hev) as Hw.
    destruct (table_ok_range _ _ _ _ _ _ _ Ht Hfd Hw) as [? _]. done.
  - exists w'. split; [done|]. by eapply server_ok_zero.
Qed.

Lemma server_turn_ok fuel t w :
  server_ok 0 w → (0 < fuel)%nat → batch_ok (t_wait t) w →
  ∃ w' more, run_turn ndebug clock fuel t w = Ok (w', more) ∧ server_ok 0 w'.
Proof.
  intros Hs Hf Hb. unfold run_turn. set (w1 := if t_break t then _ else _).
  assert (server_ok 0 w1 ∧ batch_ok (t_wait t) w1) as [Hs1 Hb1].
  { unfold w1. destruct (t_break t); [|done]. split; [by apply server_ok_rest|done]. }
  clearbody w1. case_cond; [by exists w1, false|].
  unfold wait_timeout. rewrite (to_timer _ _ _ _ _ _ (so_table _ _ Hs1)).
  replace (World (w_loop w1) (w_user w1)) with w1 by (by destruct w1).
  destruct (t_wait t) as [evs|e]; [|by case_cond; eexists _, _].
  destruct (dispatch_turn evs w1 Hs1 Hb1) as (w2 & -> & Hs2). cbn [mbind res_bind].
  destruct fuel as [|fuel]; [lia|]. cbn [run_timers].
  rewrite (to_timer _ _ _ _ _ _ (so_table _ _ Hs2)). by exists w2, true.
Qed.

Lemma server_loop_ok fuel ts w :
  server_ok 0 w → (0 < fuel)%nat → turns_ok fuel ts w →
  ∃ w', run_loop ndebug clock fuel ts w = Ok w' ∧ server_ok 0 w'.
Proof.
  revert w. induction ts as [|t ts IH]; intros w Hs Hf Ht; [by exists w|]. destruct Ht as [Hb Ht].
  destruct (server_turn_ok fuel t w Hs Hf Hb) as (w1 & more & E & Hs1). cbn [run_loop]. rewrite E in *.
  cbn [mbind res_bind]. destruct more; [by apply IH|by exists w1].
Qed.
(** A suspended [tcp_echo] is the awaiter the loop calls for the direction it
    waits for, and the kernel watches that direction. *)
Definition registered (fd : Z) (ph : phase) l : Prop :=
  match phase_status fd ph with
  | Waits d c => ∃ mask, interest (_kernel l) !! fd = Some mask ∧ has mask (bit d) = true ∧
                   sub l fd d = Some c
  | _ => False
  end.

Lemma server_ok_registered n w fd c :
  server_ok n w → sv_conns (w_user w) !! fd = Some c → registered fd (c_phase c) (w_loop w).
Proof.
  intros [Hu Ht] Hc. destruct (conn_lookup _ fd c Hu Hc) as (_ & Hfd & _ & N1 & N2).
  assert (wants (w_user w) fd = phase_status fd (c_phase c)) as Hw.
  { unfold wants. by rewrite !decide_False, Hc. }
  unfold registered. destruct (phase_status fd (c_phase c)) as [| |d f] eqn:E.
  1,2: by destruct (c_phase c).
  eapply table_ok_ready; [exact Ht|lia|done].
Qed.
End props.

(** ** From the start *)

Section start.
Context {K S M : Type} `{!Epoll K} `{!EpollLaws K} `{!StdHeap compare_timer}.
Context `{!Socket S} `{!SocketLaws S} `{!Allocator M} `{!AllocatorLaws M}.
Context `{!MultimapFind byte_buffer_data}.
Variable ndebug : bool.
Variable clock : nat → Z.
Variable thr : Z.
Variable uninit : byte_buffer_impl → list Z.
Variable buf0 : list Z.
Variable base_fds : gset Z.
Variable pick : gset Z → Z.
Variables (efd sock : Z).
Hypothesis Huninit : ∀ b, 0 <= capacity b → Z.of_nat (length (uninit b)) = capacity b.
Hypothesis Hbuf0 : length buf0 = 8%nat.
Hypothesis Hefd : (0 <= efd < 256) ∧ efd ∈ base_fds.
Hypothesis Hsock : (0 <= sock < 256) ∧ sock ∈ base_fds ∧ sock ≠ efd.
Hypothesis Hpick : ∀ X : gset Z, (pick X ∉ X) ∧ (0 <= pick X <= Z.of_nat (size X)).

#[local] Instance callbacks' : Callbacks K (server S M) :=
  server_callbacks ndebug clock thr uninit buf0 base_fds pick.

Lemma empty_table (k : K) :
  interest k = ∅ → ctl_serves k → table_ok None efd 0 0 (λ _, Free) (IoLoop K 0 None efd 0 [] 256 0 [] [] [] 0 0 k).
Proof.
  intros Hk Hserve. set (l := IoLoop K _ _ _ _ _ _ _ _ _ _ _ _ _).
  assert (∀ fd, ent l fd = es_file_default) as Hent by (intros fd; unfold ent; by case_cond).
  split; simpl; try done; [split|..].
  - intros fd _. rewrite Hent. apply entry_wf_default.
  - simpl. lia.
  - split; [|exact Hserve]. intros fd. unfold watched. by rewrite Hent; simpl; rewrite Hk, lookup_empty.
Qed.

Lemma table_ok_thread n st (l : io_loop K) o o' :
  table_ok o efd 0 n st l → table_ok o' efd 0 n st (set_thread_id o' l).
Proof. intros [[] [] ? ? ? ? ? ? ?]. split; try done; by split. Qed.

Lemma start_ok (k : K) (m : M) (incoming : list (accept_ans S)) :
  interest k = ∅ → ctl_serves k → blocks m = ∅ → memory_suffices m → Forall arrival_ok incoming →
  ∃ l w, io_loop_init k efd = Ok l ∧ server_start sock m incoming l = Ok w ∧
    server_ok thr base_fds efd sock 0 (omap arriving incoming) 0 (on_loop (set_thread_id (Some thr)) w).
Proof.
  intros Hk Hserve Hm Hmem Hin. unfold io_loop_init, server_start, accept_ctor, wait_read.
  destruct (wait_ok None efd 0 0 _ _ DirR efd loop_cb (empty_table k Hk Hserve)) as (l & E & Ht); [lia|done|].
  destruct (wait_ok None efd 0 0 _ l DirR sock (recv_cb sock) Ht) as (l' & E' & Ht'); [lia| |].
  { intros d c. destruct Hsock as (_ & _ & Hne). by rewrite fn_lookup_insert_ne. }
  simpl bit in E, E'. exists l. eexists. rewrite E, E'. split_and!; [done..|].
  split; simpl.
  - split; simpl; try done. split; [by apply pool_inv_init|by split; [apply Forall_nil|]].
  - eapply table_ok_ext; [|by eapply table_ok_thread; exact Ht']. intros x _. unfold wants.
    destruct Hsock as (_ & _ & Hne). destruct (decide (x = efd)) as [->|N1].
    { by rewrite fn_lookup_insert_ne, fn_lookup_insert. }
    destruct (decide (x = sock)) as [->|N2]; [by rewrite fn_lookup_insert|].
    by rewrite !fn_lookup_insert_ne.
Qed.

(** C1. The request server as a whole, from the constructor of its loop through
    any number of turns of [io_loop::run]: whatever connections arrive and however
    their peers' bytes and the readiness events come in (any batches of events on
    registered descriptors, errors and hang-ups included), as long as the peers send
    well-formed frames (the last of which may be cut short), [::accept] has no hard
    error, the table has room for the new descriptors (at most 256), no allocation
    fails, the kernel takes every [epoll_ctl] order and every [recv] and [send] returns
    (the accepted sockets are blocking: what a peer that stalls does is
    [partial_frame_blocks]; and no [SIGPIPE]), the server meets no fault:
    no use of a destroyed awaiter or a stale table entry, no failed assertion, no
    store outside a block.  Every open connection's coroutine is registered for what
    it waits for, in the table and in the kernel; what it has sent, what it owes and
    what is still to be read is exactly what its peer sends; a closed connection has
    sent back a prefix of what its peer sent; every connection that arrived is
    waiting to be accepted, open, or closed, once; and every block of memory is owned
    by the pool or by one connection. *)
Theorem server_run_safe (k : K) (m : M) (incoming : list (accept_ans S)) (fuel : nat) (ts : list turn)
  (Hk : interest k = ∅) (Hctl : ctl_serves k) (Hm : blocks m = ∅) (Hmem : memory_suffices m)
  (Hin : Forall arrival_ok incoming) (Hfuel : (0 < fuel)%nat)
  (Hturns : ∀ l w, io_loop_init k efd = Ok l → server_start sock m incoming l = Ok w →
    turns_ok ndebug clock thr uninit buf0 base_fds pick sock fuel ts
      (on_loop (set_thread_id (Some thr)) w)) :
  ∃ l w w', io_loop_init k efd = Ok l ∧ server_start sock m incoming l = Ok w ∧
    run ndebug clock thr fuel ts w = Ok w' ∧
    (∀ fd c, sv_conns (w_user w') !! fd = Some c →
       registered fd (c_phase c) (w_loop w') ∧
       sent (c_sock c) ++ owed (c_phase c) ++ stream (c_sock c) = c_input c) ∧
    Forall (λ x, sent x.2 `prefix_of` x.1) (sv_closed (w_user w')) ∧
    (sv_closed (w_user w')).*1 ++ inputs (sv_conns (w_user w')) ++
      omap arriving (sv_incoming (w_user w')) ≡ₚ omap arriving incoming ∧
    pool_inv (PoolSys (sv_heap (w_user w')) (sv_pool (w_user w')) (held (sv_conns (w_user w')))).
Proof.
  destruct (start_ok k m incoming Hk Hctl Hm Hmem Hin) as (l & w & E1 & E2 & Hs).
  destruct (server_loop_ok ndebug clock thr uninit buf0 base_fds pick efd sock 0 Huninit Hbuf0 Hefd
    Hsock Hpick _ fuel ts _ Hs Hfuel (Hturns l w E1 E2)) as (w' & E & Hs').
  exists l, w, w'. split_and!; [done..|exact E| | | |]; pose proof (so_user _ _ _ _ _ _ _ _ Hs') as Hu.
  - intros fd c Hc. split; [by eapply server_ok_registered|].
    by destruct (uo_conns _ _ _ _ Hu fd c Hc) as [[] _].
  - apply (uo_closed _ _ _ _ Hu).
  - apply (uo_total _ _ _ _ Hu).
  - apply (uo_pool _ _ _ _ Hu).
Qed.
End start.

(** ** Witness *)

#[export] Instance batch_ok_dec {K S M} `{!Epoll K} base_fds sock r (w : world K (server S M)) :
  Decision (batch_ok base_fds sock r w).
Proof. destruct r; unfold batch_ok, room; apply _. Defined.

#[export] Instance turns_ok_dec {K S M} `{!Epoll K} `{!StdHeap compare_timer} `{!Socket S}
  `{!Allocator M} `{!MultimapFind byte_buffer_data} ndebug clock thr uninit buf0 base_fds pick sock
  fuel ts (w : world K (server S M)) :
  Decision (turns_ok ndebug clock thr uninit buf0 base_fds pick sock fuel ts w).
Proof.
  revert w. induction ts as [|t ts IH]; intros w; simpl; [apply _|].
  apply and_dec; [apply _|]. destruct (run_turn _ _ _ _ _) as [[w' [|]]|]; [apply IH|left; done..].
Defined.

(** The lowest descriptor that is not in use. *)
Definition lowest (X : gset Z) : Z :=
  default 0 (snd <$> list_find (λ x, x ∉ X) (Z.of_nat <$> seq 0 (S (size X)))).

Lemma lowest_spec (X : gset Z) : (lowest X ∉ X) ∧ (0 <= lowest X <= Z.of_nat (size X)).
Proof.
  unfold lowest. destruct (list_find _ _) as [[i x]|] eqn:E; simpl.
  - apply list_find_Some in E as (Hi & Hx & _). split; [done|].
    apply list_elem_of_lookup_2, list_elem_of_fmap in Hi as (n & -> & Hn%elem_of_seq). lia.
  - apply list_find_None in E. exfalso. set (xs := Z.of_nat <$> seq 0 (S (size X))) in *.
    assert (list_to_set xs ⊆ X) as Hsub%subseteq_size.
    { intros x Hx%elem_of_list_to_set. rewrite Forall_forall in E. apply dec_stable. by apply E. }
    rewrite size_list_to_set in Hsub.
    + unfold xs in Hsub. rewrite length_fmap, length_seq in Hsub. lia.
    + unfold xs. apply NoDup_fmap_2; [|apply NoDup_seq]. intros a b. lia.
Qed.

(** Two connections, the second of which is cut short in its second frame; they
    come with one event of the listening descriptor. *)
Definition demo_cut : script :=
  Script [CData 0 [0; 0; 3; 0; 0; 7; 0; 0]; CErr EAGAIN; CData 0 [9]; CEof] [SndOk 3; SndErr EAGAIN; SndOk 9] [].
Definition demo_incoming : list (accept_ans script) :=
  [AcOk demo_echo; AcErr EINTR; AcOk demo_cut; AcErr EAGAIN].
Definition demo_base : gset Z := {[0; 1; 2; 3; 4]}.
Definition demo_server_turns : list turn :=
  [Turn false (WaitEvents [(4, EPOLLIN)]);
   Turn false (WaitEvents [(6, EPOLLIN); (5, EPOLLIN); (3, EPOLLIN)]);
   Turn false (WaitError EINTR);
   Turn false (WaitEvents [(5, EPOLLIN); (6, EPOLLIN ||| EPOLLOUT)]);
   Turn false (WaitEvents [(6, EPOLLOUT ||| EPOLLIN); (5, EPOLLIN)]);
   Turn false (WaitEvents [(6, EPOLLIN); (5, EPOLLOUT)]);
   Turn false (WaitEvents [(5, EPOLLIN ||| EPOLLOUT)]);
   Turn false (WaitEvents [(5, EPOLLIN ||| EPOLLOUT); (4, EPOLLIN)])].

Definition demo_server_run : res (world (gmap Z Z) (server script (gmap Z Z))) :=
  l ← io_loop_init (∅ : gmap Z Z) 3;
  w ← server_start 4 (∅ : gmap Z Z) demo_incoming l;
  run (Callbacks0 := server_callbacks false (λ _, 0) 1 zero_block (replicate 8 0) demo_base lowest)
    false (λ _, 0) 1 1 demo_server_turns w.

Lemma demo_well_framed frames part missing bs :
  bs = concat frames ++ part → bool_decide (Forall frame_ok frames) = true →
  bool_decide (frame_ok (part ++ missing)) = true → missing ≠ [] → well_framed bs.
Proof. intros -> H1%bool_decide_eq_true H2%bool_decide_eq_true ?. by exists frames, part, missing. Qed.

Lemma demo_arrivals : Forall arrival_ok demo_incoming.
Proof.
  repeat (apply Forall_cons; split); try by apply Forall_nil.
  - split; [|done]. apply (demo_well_framed demo_frames [] demo_frame); [done|by vm_compute..|done].
  - by left.
  - split; [|done].
    apply (demo_well_framed [encode_frame 0 0 [7]] [0; 0; 0; 9] [0; 0; 1; 2; 3; 4; 5; 6; 7]);
      [done|by vm_compute..|done].
  - by right; left.
Qed.

Lemma demo_turns_ok l w :
  io_loop_init (∅ : gmap Z Z) 3 = Ok l → server_start 4 (∅ : gmap Z Z) demo_incoming l = Ok w →
  turns_ok false (λ _, 0) 1 zero_block (replicate 8 0) demo_base lowest 4 1 demo_server_turns
    (on_loop (set_thread_id (Some 1)) w).
Proof.
  intros E. vm_compute in E. injection E as <-. intros E. vm_compute in E. injection E as <-.
  apply (bool_decide_unpack _). vm_compute. exact I.
Qed.

Lemma server_run_safe_witness :
  ∃ l w w', io_loop_init (∅ : gmap Z Z) 3 = Ok l ∧
    server_start 4 (∅ : gmap Z Z) demo_incoming l = Ok w ∧
    run (Callbacks0 := server_callbacks false (λ _, 0) 1 zero_block (replicate 8 0) demo_base lowest)
      false (λ _, 0) 1 1 demo_server_turns w = Ok w' ∧
    (∀ fd c, sv_conns (w_user w') !! fd = Some c →
       registered fd (c_phase c) (w_loop w') ∧
       sent (c_sock c) ++ owed (c_phase c) ++ stream (c_sock c) = c_input c) ∧
    Forall (λ x, sent x.2 `prefix_of` x.1) (sv_closed (w_user w')) ∧
    (sv_closed (w_user w')).*1 ++ inputs (sv_conns (w_user w')) ++
      omap arriving (sv_incoming (w_user w')) ≡ₚ omap arriving demo_incoming ∧
    pool_inv (PoolSys (sv_heap (w_user w')) (sv_pool (w_user w')) (held (sv_conns (w_user w')))).
Proof.
  apply (server_run_safe false (λ _, 0) 1 zero_block (replicate 8 0) demo_base lowest 3 4
    zero_block_length eq_refl).
  - split; [lia|]. apply (bool_decide_unpack _). vm_compute. exact I.
  - split; [lia|]. split; [|lia]. apply (bool_decide_unpack _). vm_compute. exact I.
  - exact lowest_spec.
  - reflexivity.
  - apply gmap_ctl_serves.
  - reflexivity.
  - apply gmap_memory_suffices.
  - exact demo_arrivals.
  - lia.
  - exact demo_turns_ok.
Defined.

(** In this run the first connection is open and idle with both frames echoed;
    the second one is closed, and has got back the one frame it completed. *)
Example demo_server_result :
  (λ w, ((λ c, sent (c_sock c)) <$> sv_conns (w_user w),
         (λ x, sent x.2) <$> sv_closed (w_user w))) <$> demo_server_run
  = Ok ({[5 := concat demo_frames]}, [encode_frame 0 0 [7]]).
Proof. by vm_compute. Qed.

(** ** What the hypotheses are for *)

Definition demo_accept (incoming : list (accept_ans script))
    : res (world (gmap Z Z) (server script (gmap Z Z))) :=
  l ← io_loop_init (∅ : gmap Z Z) 3;
  w ← server_start 4 (∅ : gmap Z Z) incoming l;
  run (Callbacks0 := server_callbacks false (λ _, 0) 1 zero_block (replicate 8 0) demo_base lowest)
    false (λ _, 0) 1 1 [Turn false (WaitEvents [(4, EPOLLIN)])] w.

(** The connection that gets descriptor 256 makes the loop's table move while
    [accept::on_file_event] still holds a reference into it. *)
Lemma accept_table_moves :
  demo_accept (replicate 252 (AcOk demo_echo)) = Fail DanglingRef ∧
  (λ w, size (sv_conns (w_user w))) <$> demo_accept (replicate 251 (AcOk demo_echo)) = Ok 251%nat.
Proof. split; by vm_compute. Qed.

(** A hard error of [::accept] ([EMFILE], say) ends [tcp_server] and destroys the
    awaiter whose handler is still running. *)
Lemma accept_hard_error : demo_accept [AcOk demo_echo; AcErr 24] = Fail DanglingRef.
Proof. by vm_compute. Qed.
