(* ===== verification/ServerLive.v ===== *)
(** * The request server answers

    Progress on top of the invariant of [ServerProps]: an event in the direction
    that a live connection waits for uses up an interruption or a piece of data
    ahead, or moves the connection to its next phase.  So after as many such events
    every complete frame has been echoed. *)

From stdpp Require Import functions.
From S2P Require Import Prelude StdHeap ByteBuffer IoLoop IoLoopFacts IoLoopProps Socket NioAwaiter.
From S2P Require Import NioProps ZioProps RequestProps Awaiters EchoServer PoolClient Server ServerConn.
From S2P Require Import ServerTable ServerProps.

(** ** Counting frames *)

(** [k] complete frames, and then the beginning of another one. *)
Definition frames_in (k : nat) (bs : list Z) : Prop :=
  ∃ frames part missing, bs = concat frames ++ part ∧ Forall frame_ok frames ∧
    frame_ok (part ++ missing) ∧ missing ≠ [] ∧ length frames = k.

(** A frame is as long as its first four bytes say. *)
Lemma frame_prefix f g r : frame_ok f → frame_ok g → g = f ++ r → r = [].
Proof.
  intros (Hf & Lf & _) (Hg & Lg & _) ->. rewrite take_app_le in Lg by lia.
  rewrite Lf, length_app in Lg. destruct r; [done|]. simpl in Lg. lia.
Qed.

Lemma frame_unique f g r r' : frame_ok f → frame_ok g → f ++ r = g ++ r' → f = g ∧ r = r'.
Proof.
  intros Hf Hg E. apply app_eq_inv in E as [(k & Ef & Er)|(k & Eg & Er)].
  - rewrite (frame_prefix g f k) in * by done. by rewrite app_nil_r in Ef.
  - rewrite (frame_prefix f g k) in * by done. by rewrite app_nil_r in Eg.
Qed.

(** What a completed stream starts with. *)
Lemma frames_in_next k bs frame tail missing :
  frames_in k bs → frame_ok frame → tail_ok tail missing → bs ++ missing = frame ++ tail →
  match k with
  | O => missing ≠ []
  | Datatypes.S k => missing = [] ∧ frames_in k tail
  end.
Proof.
  intros (frames & part & mis & -> & Hf & Hp & Hm & <-) Hfr Ht E.
  destruct Hf as [|f fs Hf Hfs]; simpl in *.
  - intros ->. rewrite app_nil_r in E. subst part. rewrite <- app_assoc in Hp.
    pose proof (frame_prefix frame _ (tail ++ mis) Hfr Hp eq_refl) as Hn.
    by apply app_eq_nil in Hn as [_ ?].
  - rewrite <- !app_assoc in E. destruct (frame_unique f frame _ _ Hf Hfr E) as [-> E2].
    destruct Ht as [[-> _]|[Hmi ->]].
    + split; [done|]. rewrite app_nil_r in E2. by exists fs, part, mis.
    + apply app_eq_nil in E2 as [_ E2]. by apply app_eq_nil in E2 as [_ ->].
Qed.

(** ** One connection *)

Section conn.
Context {S M : Type} `{!Socket S} `{!SocketLaws S} `{!Allocator M} `{!AllocatorLaws M}.
Context `{!MultimapFind byte_buffer_data}.
Context {live : S → Prop} `{!LiveSocket S live} `{!LiveSend S live} `{!LiveEcho S live}.
Variable uninit : byte_buffer_impl → list Z.
Hypothesis Huninit : ∀ b, 0 <= capacity b → Z.of_nat (length (uninit b)) = capacity b.

(** Frames still to be echoed, the one being sent included. *)
Definition todo (k : nat) (c : conn S) : Prop :=
  match c_phase c with
  | PRecv a => frames_in k (owed (c_phase c) ++ stream (c_sock c))
  | PSend _ _ _ => match k with O => False | Datatypes.S k => frames_in k (stream (c_sock c)) end
  end.

(** How many events it can still take. *)
Definition potential (k : nat) (c : conn S) : nat :=
  (pending (c_sock c) + match c_phase c with PRecv _ => 2 * k | PSend _ _ _ => 2 * k - 1 end)%nat.

(** A live connection with a complete frame ahead: reading it either stops short
    and uses something up, or gets the frame. *)
Lemma recv_live frame tail ev m p a s others m' p' a' s' o :
  frame_ok frame → recv_inv frame tail [] a s → rq_recved_bytes a < Z.of_nat (length frame) →
  pool_holds m p (held_by (rq_request a)) others → Forall nonnull (held_by (rq_request a)) →
  live s → 0 < ev →
  recv_request_on_file_event uninit ev m p a s = Ok (m', p', a', s', o) →
  live s' ∧ match o with
            | Rearmed => (pending s' < pending s)%nat
            | Resumed => 0 < rq_result a' ∧ (pending s' ≤ pending s)%nat
            end.
Proof.
  intros Hf Hi Hlt Hp Hnn Hl Hev E.
  assert (∃ m0 p0, pool_holds m0 p0 [] others ∧
    rq_inv frame tail [] m0 p0 others 0 None m p a s) as (m0 & p0 & [Hp0 Hc0] & Hinv).
  { destruct Hi as [(Hh & H6 & Hq)|(b & Hb)].
    - rewrite Hq in Hp. exists m, p. split; [done|]. by left.
    - destruct (drop_ok (rq_request a) m p others Hp Hnn) as (m0 & p0 & _ & H0).
      exists m0, p0. split; [done|]. right. exists b. split; [done|].
      destruct Hb as [_ _ _ _ _ _ (got & mem & _ & Hq & _)]. rewrite Hq in Hp. destruct Hp. by split. }
  assert (recv_request_events uninit [ev] m p a s = Ok (m', p', a', s', o)) as Ee.
  { cbn [recv_request_events]. rewrite E. by destruct o. }
  destruct (recv_request_calm (live := live) uninit (replicate 8 0) eq_refl
    _ _ _ _ _ _ _ _ _ _ Ee Hl) as [Hl' Hle].
  destruct (recv_request_events_spec (live := live) uninit Huninit frame tail [] m0 p0 others 0 None
    Hf Hp0 Hc0 I [ev] m p a s) as (m1 & p1 & a1 & s1 & o1 & E1 & X); [by repeat constructor|done|done|].
  rewrite Ee in E1. injection E1 as <- <- <- <- <-. split; [done|]. destruct o.
  - destruct X as (_ & _ & _ & X). specialize (X Hl eq_refl). simpl in X. lia.
  - split; [|done]. destruct X as [(b & _ & _ & -> & _)|(_ & Hm & _)]; [|by destruct (Hm eq_refl)].
    destruct Hf as (? & _). lia.
Qed.
End conn.

(** ** One connection on the loop *)

Section events.
Context {K S M : Type} `{!Epoll K} `{!StdHeap compare_timer}.
Context `{!Socket S} `{!SocketLaws S} `{!Allocator M} `{!AllocatorLaws M}.
Context `{!MultimapFind byte_buffer_data}.
Context {live : S → Prop} `{!LiveSocket S live} `{!LiveSend S live} `{!LiveEcho S live}.
Variable ndebug : bool.
Variable clock : nat → Z.
Variable thr : Z.
Variable uninit : byte_buffer_impl → list Z.
Variable buf0 : list Z.
Hypothesis Huninit : ∀ b, 0 <= capacity b → Z.of_nat (length (uninit b)) = capacity b.
Hypothesis Hbuf0 : length buf0 = 8%nat.
(** The connection: its descriptor, and what its peer sends. *)
Variables (fd : Z) (input : list Z).

Implicit Types (u : server S M) (w : world K (server S M)).

(** All complete frames have been echoed: the connection is open and what is left
    is less than a frame, or it has been closed after that. *)
Definition answered u : Prop :=
  (∃ c, sv_conns u !! fd = Some c ∧ c_input c = input ∧ todo 0 c) ∨
  (∃ s rest, (input, s) ∈ sv_closed u ∧ sent s ++ rest = input ∧ frames_in 0 rest).

(** Open and alive, with frames to echo and at most [n] events to take. *)
Definition busy (n : nat) u : Prop :=
  ∃ c k, sv_conns u !! fd = Some c ∧ c_input c = input ∧ live (c_sock c) ∧ todo (Datatypes.S k) c ∧
    (potential (Datatypes.S k) c ≤ n)%nat.

Definition within (n : nat) u : Prop := answered u ∨ busy n u.

Lemma within_mono n n' u : (n ≤ n')%nat → within n u → within n' u.
Proof. intros Hn [?|(c & k & ? & ? & ? & ? & ?)]; [by left|right]. exists c, k. split_and!; [done..|by etrans]. Qed.

(** A connection with [k] frames left and potential [n]. *)
Lemma within_conn u c k n :
  sv_conns u !! fd = Some c → c_input c = input → live (c_sock c) → todo k c →
  (potential k c ≤ n)%nat → within n u.
Proof. intros. destruct k as [|k]; [left; left; by exists c|right; by exists c, k]. Qed.

Lemma rearm_user d e0 x f w w' : rearm d e0 x f w = Ok w' → w_user w' = w_user w.
Proof. unfold rearm. intros E. res_inv. by subst. Qed.

Lemma leave_user x c buff w w' :
  echo_leave ndebug thr x c buff w = Ok w' →
  sv_closed (w_user w') = sv_closed (w_user w) ++ [(c_input c, c_sock c)].
Proof.
  unfold echo_leave. intros E. repeat first [progress res_inv | progress simplify_eq/= | case_match]; done.
Qed.

Lemma begin_user x s inp w w' :
  echo_begin clock buf0 x s inp w = Ok w' →
  sv_conns (w_user w') = <[x := Conn s (PRecv (new_recv_request None buf0)) inp]> (sv_conns (w_user w)).
Proof.
  unfold echo_begin. intros E. repeat first [progress res_inv | progress simplify_eq/= | case_match]; done.
Qed.

(** A whole request has arrived: one frame less is ahead, and the coroutine waits
    to send it back. *)
Lemma received_within a' s' ahead w w' n :
  got_request a' s' input → sent s' ++ ahead = input →
  echo_received ndebug clock thr fd a' (Conn s' (PRecv a') input) w = Ok w' →
  ¬ frames_in 0 ahead ∧
  ∀ k, live s' → frames_in (Datatypes.S k) ahead → (pending s' ≤ n)%nat →
    within (n + 2 * Datatypes.S k - 1) (w_user w').
Proof.
  intros (b & mem & f & Hq & Hwin & Hff & Hres & Hlen & Hwf & Hin') Ha. unfold echo_received.
  pose proof Hff as (Hfn & _). rewrite (proj2 (Z.leb_gt _ _)) by lia.
  rewrite Hq, Hres, Hlen, i32_small, Z.eqb_refl by lia. simpl negb. cbv iota.
  assert (ahead = f ++ stream s') as Eo by (rewrite <- Ha in Hin'; by apply app_inv_head in Hin').
  assert (∀ k, frames_in k ahead →
    match k with O => [] ≠ ([] : list Z) | Datatypes.S k => [] = ([] : list Z) ∧ frames_in k (stream s') end) as Hnext.
  { intros k Hk. apply (frames_in_next k _ f (stream s') [] Hk Hff); [by left|by rewrite app_nil_r]. }
  intros Hw. split; [by intros H0%Hnext|]. intros k Hl Hk Hp. apply Hnext in Hk as [_ Hk].
  destruct (send_ctor _ _ _ _ _) as [[l' aw]|]; [|done]. cbn [mbind res_bind] in Hw.
  injection Hw as <-. right. eexists _, k. simpl. rewrite lookup_insert_eq. split_and!; [done..|].
  unfold potential. simpl. lia.
Qed.

Section event.
Context (u : server S M) (c : conn S) (others : list byte_buffer_impl) (es : Z) (l : io_loop K) (w' : world K (server S M)).
Hypothesis Hc : sv_conns u !! fd = Some c.
Hypothesis Hin : c_input c = input.
Hypothesis Hok : conn_ok c.
Hypothesis Hpool : pool_holds (sv_heap u) (sv_pool u) (buffer_of (c_phase c)) others.

Lemma recv_event_within a ev :
  c_phase c = PRecv a → 0 < ev →
  conn_recv_event ndebug clock thr uninit es fd ev a c (World l u) = Ok w' →
  (todo 0 c → answered (w_user w')) ∧
  (∀ k, live (c_sock c) → todo (Datatypes.S k) c →
     within (potential (Datatypes.S k) c - 1) (w_user w')).
Proof.
  intros Hph Hev. unfold conn_recv_event. simpl.
  destruct c as [s ph inp]. simpl in *. subst ph inp. rename Hpool into Hp.
  destruct (recv_step uninit Huninit ev (sv_heap u) (sv_pool u) a s others input Hok Hp)
    as (m & p & a' & s' & o & E & Hp' & _ & _ & X).
  assert (sent s' = sent s) as Hs.
  { apply (recv_request_events_sent uninit [ev] (sv_heap u) (sv_pool u) a s m p a' s' o).
    cbn [recv_request_events]. rewrite E. by destruct o. }
  destruct Hok as [(frame & tail & missing & Hf & Ht & Hi & Hlt & Hr) Hby Hnn].
  cbn [c_phase c_sock c_input buffer_of] in *.
  pose proof (recv_inv_owed _ _ _ _ _ Hi) as How. rewrite app_assoc in How.
  rewrite E. cbn [mbind res_bind]. unfold todo, potential. cbn [c_phase c_sock].
  assert (∀ k, live s → frames_in (Datatypes.S k) (owed (PRecv a) ++ stream s) →
    live s' ∧ match o with
              | Rearmed => (pending s' < pending s)%nat
              | Resumed => 0 < rq_result a' ∧ (pending s' ≤ pending s)%nat
              end) as Hlive.
  { intros k Hl Hk. destruct (frames_in_next _ _ _ _ _ Hk Hf Ht How) as [-> _].
    by eapply recv_live. }
  destruct o.
  - intros Hw%rearm_user. rewrite Hw. cbn [w_user].
    assert (owed (PRecv a') ++ stream s' = owed (PRecv a) ++ stream s) as Eo.
    { pose proof (co_bytes _ X) as Hby'. cbn [c_phase c_sock c_input] in Hby'.
      rewrite <- Hby', Hs in Hby. by apply app_inv_head in Hby. }
    split.
    + intros H0. left. eexists. simpl. rewrite lookup_insert_eq. split_and!; [done..|].
      unfold todo. cbn [c_phase c_sock]. by rewrite Eo.
    + intros k Hl Hk. destruct (Hlive k Hl Hk) as [Hl' Hlt']. right. eexists _, k. simpl.
      rewrite lookup_insert_eq. split_and!; [done..| |].
      * unfold todo. cbn [c_phase c_sock]. by rewrite Eo.
      * unfold potential. simpl. lia.
  - unfold echo_received. destruct (rq_result a' <=? 0) eqn:Hle; bool_prop.
    + intros Hw%leave_user. split.
      * intros H0. right. exists s', (owed (PRecv a) ++ stream s). rewrite Hw, Hs. simpl.
        split_and!; [|done|done]. apply elem_of_app. right. by left.
      * intros k Hl Hk. destruct (Hlive k Hl Hk) as [_ [? _]]. lia.
    + destruct X as [?|Hgot]; [lia|]. intros Hw.
      assert (echo_received ndebug clock thr fd a' (Conn s' (PRecv a') input) (World l (set_mem m p u)) = Ok w')
        as Hrec by (unfold echo_received; by rewrite (proj2 (Z.leb_gt _ _))).
      destruct (received_within a' s' (owed (PRecv a) ++ stream s) (World l (set_mem m p u)) w' (pending s) Hgot)
        as [Hno Hsome]; [by rewrite Hs|done|].
      split; [by intros H0%Hno|]. intros k Hl Hk. destruct (Hlive k Hl Hk) as [Hl' [_ Hle']].
      by apply Hsome.
Qed.

Lemma send_event_within buff len d ev :
  c_phase c = PSend buff len d → 0 < ev →
  conn_send_event ndebug clock thr buf0 es fd ev buff len d c (World l u) = Ok w' →
  ∀ k, live (c_sock c) → todo k c → within (potential k c - 1) (w_user w').
Proof.
  intros Hph Hev. destruct c as [s ph inp]. simpl in *. subst ph inp.
  destruct Hok as [(frame & pre & Hf & Hw & Hlen & Hb & Hk & Hres & Hs & Hwf) Hby Hnn].
  cbn [c_phase c_sock c_input buffer_of] in *. pose proof Hf as (Hn & _).
  unfold conn_send_event, send_lazy_on_file_event. rewrite (proj2 (Z.leb_gt ev 0)) by lia. cbn [c_sock c_input].
  destruct (send_lazy_loop_spec (Datatypes.S (length (sl_buff d) + pending s)) d s)
    as (d' & s' & o & E & P & _); [unfold sl_size; rewrite Hb; lia..|].
  rewrite E. cbn [mbind res_bind]. intros Hrun k Hl Htodo.
  apply (send_lazy_loop_live buf0 Hbuf0) in E as (Hl' & Hle & D); [|done|unfold sl_size; rewrite Hb; lia..].
  unfold todo in Htodo. cbn [c_phase c_sock] in Htodo. destruct k as [|k]; [done|].
  rewrite <- (slp_stream _ _ _ _ P) in Htodo. unfold potential. cbn [c_phase c_sock]. destruct o; simpl in D.
  - apply rearm_user in Hrun. rewrite Hrun. cbn [w_user]. destruct D as (Hlt & _).
    right. eexists _, k. simpl. rewrite lookup_insert_eq. split_and!; [done..|].
    unfold potential. simpl. lia.
  - unfold echo_sent in Hrun. rewrite D in Hrun. unfold sl_size in Hrun.
    rewrite Hb, Hlen, Z.eqb_refl in Hrun. simpl negb in Hrun. cbv iota in Hrun. res_inv.
    destruct a as [m p]. apply begin_user in Hrun.
    eapply (within_conn _ _ k); [rewrite Hrun; apply lookup_insert_eq|done|done| |].
    + unfold todo. cbn [c_phase c_sock]. done.
    + unfold potential. simpl. lia.
Qed.
End event.
End events.

(** ** Turns of the loop *)

Section run.
Context {K S M : Type} `{!Epoll K} `{!EpollLaws K} `{!StdHeap compare_timer}.
Context `{!Socket S} `{!SocketLaws S} `{!Allocator M} `{!AllocatorLaws M}.
Context `{!MultimapFind byte_buffer_data}.
Context {live : S → Prop} `{!LiveSocket S live} `{!LiveSend S live} `{!LiveEcho S live}.
Variable ndebug : bool.
Variable clock : nat → Z.
Variable thr : Z.
Variable uninit : byte_buffer_impl → list Z.
Variable buf0 : list Z.
Variable base_fds : gset Z.
Variable pick : gset Z → Z.
Variables (efd sock : Z) (e0 : nat).
Hypothesis Huninit : ∀ b, 0 <= capacity b → Z.of_nat (length (uninit b)) = capacity b.
Hypothesis Hbuf0 : length buf0 = 8%nat.
Hypothesis Hefd : (0 <= efd < 256) ∧ efd ∈ base_fds.
Hypothesis Hsock : (0 <= sock < 256) ∧ sock ∈ base_fds ∧ sock ≠ efd.
Hypothesis Hpick : ∀ X : gset Z, (pick X ∉ X) ∧ (0 <= pick X <= Z.of_nat (size X)).
Variable total : list (list Z).
(** The connection of interest. *)
Variables (fd : Z) (input : list Z).

Implicit Types (u : server S M) (w : world K (server S M)).

#[local] Instance live_callbacks : Callbacks K (server S M) :=
  server_callbacks ndebug clock thr uninit buf0 base_fds pick.

#[local] Abbreviation ok := (server_ok thr base_fds efd sock e0 total).
#[local] Abbreviation past := (after thr base_fds efd sock e0 total).
#[local] Abbreviation near := (within (live := live) fd input).

(** Events of other descriptors. *)
Lemma after_near n0 x n u w : past n0 x u w → x ≠ fd → near n u → near n (w_user w).
Proof.
  intros Ha Hx [[(c & Hc & Hr)|(s & rest & Hs & Hr)]|(c & k & Hc & Hr)].
  - left. left. exists c. split; [|done]. by apply (af_conns _ _ _ _ _ _ _ _ _ _ Ha).
  - left. right. exists s, rest. split; [|done]. by apply (af_closed _ _ _ _ _ _ _ _ _ _ Ha).
  - right. exists c, k. split; [|done]. by apply (af_conns _ _ _ _ _ _ _ _ _ _ Ha).
Qed.

(** The handler of the connection itself. *)
Lemma conn_event_near n0 w w' c d f l code :
  ok n0 w → sv_conns (w_user w) !! fd = Some c → wants efd sock (w_user w) fd = Waits d f →
  0 < code → file_event f fd code (World l (w_user w)) = Ok w' → c_input c = input →
  (todo 0 c → answered fd input (w_user w')) ∧
  (∀ k, live (c_sock c) → todo (Datatypes.S k) c → near (potential (Datatypes.S k) c - 1) (w_user w')).
Proof.
  intros [Hu _] Hc Hw Hcode E Hin.
  destruct (conn_lookup buf0 base_fds efd sock Hbuf0 Hefd Hsock total _ _ _ Hu Hc) as (Hok & _).
  pose proof (conn_pool base_fds sock total _ _ _ Hu Hc) as Hp.
  pose proof (eq_trans (eq_sym (file_event_conn ndebug clock thr uninit buf0 base_fds pick efd sock
    Hbuf0 Hefd Hsock total _ l fd d f c code Hu Hc Hw)) E) as E'. clear E.
  destruct (c_phase c) as [a|buff len s] eqn:Hph.
  - eapply recv_event_within; try eassumption. by rewrite Hph.
  - split; [unfold todo; by rewrite Hph|]. intros k.
    eapply send_event_within; try eassumption. by rewrite Hph.
Qed.

(** ** One event of the loop *)

(** The direction a suspended coroutine waits for. *)
Definition phase_dir (ph : phase) : dir := match ph with PRecv _ => DirR | PSend _ _ _ => DirW end.

Lemma wants_conn u x c :
  x ≠ efd → x ≠ sock → sv_conns u !! x = Some c →
  ∃ f, wants efd sock u x = Waits (phase_dir (c_phase c)) f.
Proof. intros N1 N2 Hc. unfold wants. rewrite !decide_False, Hc by done. by destruct (c_phase c); eexists. Qed.

(** What is closed stays so. *)
Lemma near_closed u u' n :
  sv_closed u ⊆ sv_closed u' → near n u →
  near 0 u' ∨ ∃ c, sv_conns u !! fd = Some c ∧ c_input c = input ∧
    (todo 0 c ∨ ∃ k, live (c_sock c) ∧ todo (Datatypes.S k) c ∧ (potential (Datatypes.S k) c ≤ n)%nat).
Proof.
  intros Hcl [[(c & ? & ? & ?)|(s & rest & Hs & Hr)]|(c & k & ? & ? & ? & ? & ?)].
  - right. exists c. by auto.
  - left. left. right. exists s, rest. split; [|done]. by apply Hcl.
  - right. exists c. split_and!; [done..|]. right. by exists k.
Qed.

Lemma fire_near n0 w w' d b code n :
  ok n0 w → 0 <= fd < Z.of_nat n0 → fd ≠ efd → fd ≠ sock → 0 < code →
  fire d b fd code w = Ok w' → near n (w_user w) →
  near n (w_user w') ∧
  (b = true → (∀ c, sv_conns (w_user w) !! fd = Some c → phase_dir (c_phase c) = d) →
    near (n - 1) (w_user w')).
Proof.
  intros Hok Hfd N1 N2 Hcode E Hn.
  destruct (fire_after ndebug clock thr uninit buf0 base_fds pick efd sock e0 Huninit Hbuf0 Hefd Hsock
    Hpick total n0 w d b fd code Hok Hfd) as (w1 & E1 & Ha & _); [done|].
  pose proof (eq_trans (eq_sym E1) E) as Ew. injection Ew as ->. clear E1. pose proof Hok as [Hu Ht].
  destruct (near_closed _ _ _ (af_closed _ _ _ _ _ _ _ _ _ _ Ha) Hn) as [H0|(c & Hc & Hin & X)].
  { split; intros; (eapply within_mono; [|exact H0]); lia. }
  destruct (wants_conn _ fd c N1 N2 Hc) as [f Hw].
  destruct (decide (b = true ∧ phase_dir (c_phase c) = d)) as [[-> Hd]|Hmiss].
  - rewrite Hd in Hw.
    destruct (fire_hit (Some thr) efd e0 n0 _ w d f fd code Ht (proj1 Hfd) Hw) as (l & El & _).
    rewrite El in E. destruct (conn_event_near n0 w w' c d f l code Hok Hc Hw Hcode E Hin) as [H0 Hk].
    assert (near (n - 1) (w_user w')) as H1.
    { destruct X as [X|(k & Hl & X & Hp)]; [left; auto|]. eapply within_mono; [|by eapply Hk]. lia. }
    split; [|done]. eapply within_mono; [|exact H1]. lia.
  - assert (fire d b fd code w = Ok w) as Em.
    { apply (fire_miss (Some thr) efd e0 n0 (wants efd sock (w_user w))); [done| |].
      - pose proof (to_length _ _ _ _ _ _ Ht). lia.
      - destruct b; [|by left]. right. intros g Hg. apply Hmiss. split; [done|]. congruence. }
    rewrite Em in E. injection E as <-. split; [done|]. intros -> Hx. destruct Hmiss. by auto.
Qed.

(** The readiness bit a direction is announced with. *)
Definition ready_bit (d : dir) : Z := match d with DirR => EV_IN | DirW => EV_OUT end.

(** An event without an error is the call for writing and the call for reading. *)
Lemma dispatch_calls n0 w x events w' :
  ok n0 w → 0 <= x < Z.of_nat n0 → wants efd sock (w_user w) x ≠ Free → has events EV_ERR = false →
  dispatch_event ndebug (x, events) w = Ok w' →
  ∃ w1, fire DirW (has events EV_OUT) x EM_WRITE w = Ok w1 ∧
    fire DirR (has events EV_IN) x EM_READ w1 = Ok w'.
Proof.
  intros Hs Hx Hw Herr. pose proof (so_table _ _ _ _ _ _ _ _ Hs) as Ht.
  pose proof (to_length _ _ _ _ _ _ Ht) as Hl. unfold dispatch_event.
  rewrite (proj2 (Z.leb_gt _ _)) by lia. rewrite fds_at_ent by lia. cbn [mbind res_bind].
  assert (_fd (ent (w_loop w) x) = x) as ->.
  { pose proof (to_entries _ _ _ _ _ _ Ht x (proj1 Hx)) as He. destruct (wants _ _ _ _); [done|apply He..]. }
  rewrite (proj2 (Z.eqb_neq _ _)), Herr by lia. simpl fire. intros E.
  destruct (assert_subscribed _ _ _ _ _); [|done]. cbn [mbind res_bind] in E.
  destruct (fire_w _ _ _ _) as [w1|]; [|done]. cbn [mbind res_bind] in E. exists w1. split; [done|].
  destruct (require _ _); [|done]. cbn [mbind res_bind] in E. destruct (fds_at _ _); [|done].
  cbn [mbind res_bind] in E. by destruct (assert_subscribed _ _ _ _ _).
Qed.

Lemma dispatch_near n0 w w' events n :
  ok n0 w → 0 <= fd < Z.of_nat n0 → fd ≠ efd → fd ≠ sock → wants efd sock (w_user w) fd ≠ Free →
  has events EV_ERR = false → dispatch_event ndebug (fd, events) w = Ok w' → near n (w_user w) →
  near n (w_user w') ∧
  ((∀ c, sv_conns (w_user w) !! fd = Some c → has events (ready_bit (phase_dir (c_phase c))) = true) →
    near (n - 1) (w_user w')).
Proof.
  intros Hs Hfd N1 N2 Hw Herr E Hn.
  destruct (dispatch_calls n0 w fd events w' Hs Hfd Hw Herr E) as (w1 & E1 & E2).
  destruct (fire_after ndebug clock thr uninit buf0 base_fds pick efd sock e0 Huninit Hbuf0 Hefd Hsock
    Hpick total n0 w DirW (has events EV_OUT) fd EM_WRITE Hs Hfd) as (w1' & E1' & Ha & _); [done|].
  pose proof (eq_trans (eq_sym E1') E1) as Ew. injection Ew as ->. clear E1'.
  destruct (fire_near n0 w w1 _ _ EM_WRITE n Hs Hfd N1 N2 eq_refl E1 Hn) as [Hn1 Hd1].
  pose proof (af_ok _ _ _ _ _ _ _ _ _ _ Ha) as Hs1.
  destruct (fire_near n0 w1 w' _ _ EM_READ n Hs1 Hfd N1 N2 eq_refl E2 Hn1) as [Hn2 Hd2].
  split; [done|]. intros Hready.
  destruct (near_closed _ _ _ (af_closed _ _ _ _ _ _ _ _ _ _ Ha) Hn) as [H0|(c & Hc & _)].
  { destruct (fire_near n0 w1 w' _ _ EM_READ 0 Hs1 Hfd N1 N2 eq_refl E2 H0) as [H0' _].
    eapply within_mono; [|exact H0']. lia. }
  specialize (Hready c Hc). destruct (phase_dir (c_phase c)) eqn:Hdir; simpl in Hready.
  - (* the call for writing does nothing *)
    assert (w1 = w) as ->.
    { destruct (wants_conn _ fd c N1 N2 Hc) as [f Hf]. rewrite Hdir in Hf.
      pose proof (so_table _ _ _ _ _ _ _ _ Hs) as Ht. pose proof (to_length _ _ _ _ _ _ Ht).
      rewrite (fire_miss (Some thr) efd e0 n0 _ w DirW _ fd EM_WRITE Ht) in E1; [by injection E1|lia|].
      right. intros g. by rewrite Hf. }
    apply Hd2; [done|]. intros c' Hc'. by simplify_eq.
  - assert (near (n - 1) (w_user w1)) as Hn1'.
    { apply Hd1; [done|]. intros c' Hc'. by simplify_eq. }
    by destruct (fire_near n0 w1 w' _ _ EM_READ (n - 1) Hs1 Hfd N1 N2 eq_refl E2 Hn1') as [? _].
Qed.

(** ** Turns *)

(** The batch announces what [c] waits for. *)
Definition announced (evs : list (Z * Z)) (c : conn S) : bool :=
  existsb (λ ev, (ev.1 =? fd) && has ev.2 (ready_bit (phase_dir (c_phase c)))) evs.

Definition no_error (evs : list (Z * Z)) : Prop :=
  Forall (λ ev, ev.1 = fd → has ev.2 EV_ERR = false) evs.

Lemma dispatch_all_near n0 evs w w' n :
  ok n0 w → 0 <= fd < Z.of_nat n0 → fd ≠ efd → fd ≠ sock → NoDup evs.*1 →
  Forall (λ ev, (0 <= ev.1 < Z.of_nat n0) ∧ wants efd sock (w_user w) ev.1 ≠ Free) evs →
  (sock ∈ evs.*1 → room base_fds (w_user w)) → no_error evs →
  dispatch_all ndebug evs w = Ok w' → near n (w_user w) →
  near n (w_user w') ∧
  ((∀ c, sv_conns (w_user w) !! fd = Some c → announced evs c = true) → near (n - 1) (w_user w')).
Proof.
  intros Hs Hfd N1 N2. revert w n Hs. induction evs as [|[x events] evs IH]; intros w n Hs Hnd Hev Hr Hne E Hn.
  - injection E as <-. split; [done|]. intros Hc.
    destruct (near_closed _ (w_user w) _ (reflexivity _) Hn) as [H0|(c & Hcc & _)].
    + eapply within_mono; [|exact H0]. lia.
    + by specialize (Hc c Hcc).
  - apply NoDup_cons in Hnd as [Hx Hnd]. apply Forall_cons in Hev as [[Hx0 Hxw] Hev].
    apply Forall_cons in Hne as [Hxe Hne]. simpl in Hx0, Hxw, Hxe, Hr. cbn [dispatch_all] in E.
    destruct (dispatch_after ndebug clock thr uninit buf0 base_fds pick efd sock e0 Huninit Hbuf0 Hefd
      Hsock Hpick total n0 w x events Hs Hx0 Hxw) as (w1 & E1 & Ha).
    { intros ->. apply Hr. by left. }
    pose proof (eq_trans (eq_sym (f_equal (mbind _) E1)) E) as E2. cbn [mbind res_bind] in E2. clear E.
    assert (∀ m, near m (w_user w1) → near m (w_user w') ∧
      ((∀ c, sv_conns (w_user w1) !! fd = Some c → announced evs c = true) → near (m - 1) (w_user w'))) as IHw.
    { intros m. apply IH; [apply Ha|done| | |done|done].
      - apply Forall_forall. intros ev Hin. rewrite Forall_forall in Hev. destruct (Hev ev Hin) as [? ?].
        split; [done|]. apply (af_others _ _ _ _ _ _ _ _ _ _ Ha); [|done]. intros Heq. apply Hx.
        rewrite <- Heq. apply list_elem_of_fmap. by exists ev.
      - intros Hin. apply (af_room _ _ _ _ _ _ _ _ _ _ Ha); [by intros ->|]. apply Hr. by right. }
    clear IH. destruct (decide (x = fd)) as [->|Hne'].
    + destruct (dispatch_near n0 w w1 events n) as [Hn1 Hd1]; [done..|by apply Hxe|done|done|].
      split; [by apply IHw|]. intros Hann. refine (proj1 (IHw _ (Hd1 _))). intros c Hc. specialize (Hann c Hc).
      unfold announced in Hann. simpl in Hann. rewrite Z.eqb_refl in Hann.
      apply orb_true_iff in Hann as [?|Hann]; [done|]. apply existsb_exists in Hann as (ev & Hin & Hb).
      apply andb_true_iff in Hb as [Hb%Z.eqb_eq _]. destruct Hx. rewrite <- Hb. apply list_elem_of_fmap. exists ev.
      split; [done|]. by apply list_elem_of_In.
    + pose proof (after_near n0 x n _ _ Ha Hne' Hn) as Hn1. split; [by apply IHw|]. intros Hann.
      destruct (near_closed _ _ _ (af_closed _ _ _ _ _ _ _ _ _ _ Ha) Hn) as [H0|(c & Hc & _)].
      * eapply within_mono; [|exact (proj1 (IHw _ H0))]. lia.
      * refine (proj2 (IHw _ Hn1) _). intros c' Hc'. rewrite (af_conns _ _ _ _ _ _ _ _ _ _ Ha fd c) in Hc' by done.
        injection Hc' as <-. specialize (Hann c Hc). unfold announced in Hann. simpl in Hann.
        by rewrite (proj2 (Z.eqb_neq _ _)) in Hann.
Qed.

(** A turn that is fair to the connection: its event is reported, if it is open. *)
Definition fair (t : turn) w : bool :=
  match sv_conns (w_user w) !! fd with
  | Some c => match t_wait t with WaitEvents evs => announced evs c | WaitError _ => false end
  | None => true
  end.

Definition quiet (t : turn) : Prop :=
  match t_wait t with WaitEvents evs => no_error evs | WaitError _ => True end.

(** The number of fair turns that the loop completes. *)
Fixpoint fair_turns (fuel : nat) (ts : list turn) w : nat :=
  match ts with
  | [] => 0
  | t :: ts =>
      match run_turn ndebug clock fuel t w with
      | Ok (w', true) => ((if fair t w then 1 else 0) + fair_turns fuel ts w')%nat
      | _ => 0
      end
  end.

Lemma server_ok_shrink n n' w : (n' ≤ n)%nat → ok n w → ok n' w.
Proof. intros Hn [Hu []]. split; [done|]. split; [done..|by etrans|done]. Qed.

Lemma batch_near n0 evs w n :
  ok n0 w → 0 <= fd < Z.of_nat n0 → fd ≠ efd → fd ≠ sock → batch_ok base_fds sock (WaitEvents evs) w →
  no_error evs → near n (w_user w) →
  ∃ w', dispatch_all ndebug evs w = Ok w' ∧ ok n0 w' ∧ near n (w_user w') ∧
  ((∀ c, sv_conns (w_user w) !! fd = Some c → announced evs c = true) → near (n - 1) (w_user w')).
Proof.
  intros Hs Hfd N1 N2 (Hnd & Hev & Hr) Hq Hn. pose proof (so_table _ _ _ _ _ _ _ _ Hs) as Ht.
  pose proof (to_length _ _ _ _ _ _ Ht) as Hle.
  pose proof (server_ok_length _ _ _ _ _ _ _ _ Hs) as Hs1.
  assert (Forall (λ ev, (0 <= ev.1 < Z.of_nat (length (_fds (w_loop w)))) ∧
    wants efd sock (w_user w) ev.1 ≠ Free) evs) as Hev'.
  { apply Forall_forall. intros ev Hin. rewrite Forall_forall in Hev. specialize (Hev ev Hin).
    pose proof (table_ok_interest _ _ _ _ _ _ _ Ht Hev) as Hx.
    pose proof (proj1 (table_ok_watched _ _ _ _ _ _ _ Ht Hx) Hev) as Hw.
    destruct (table_ok_range _ _ _ _ _ _ _ Ht Hx Hw) as [? _]. done. }
  destruct (dispatch_all_after ndebug clock thr uninit buf0 base_fds pick efd sock e0 Huninit Hbuf0 Hefd
    Hsock Hpick total _ evs w Hs1 Hnd Hev' Hr) as (w' & E & Hs').
  exists w'. split; [exact E|]. split; [by eapply server_ok_shrink|].
  eapply dispatch_all_near; [exact Hs1|lia|done..].
Qed.

Lemma turn_near n0 fuel t w n :
  ok n0 w → 0 <= fd < Z.of_nat n0 → fd ≠ efd → fd ≠ sock → (0 < fuel)%nat →
  batch_ok base_fds sock (t_wait t) w → quiet t → near n (w_user w) →
  ∃ w' more, run_turn ndebug clock fuel t w = Ok (w', more) ∧ ok n0 w' ∧ near n (w_user w') ∧
    (more = true → fair t w = true → near (n - 1) (w_user w')).
Proof.
  intros Hs Hfd N1 N2 Hfuel Hb Hq Hn. unfold run_turn, fair, quiet in *. set (w1 := if t_break t then _ else _).
  assert (ok n0 w1 ∧ w_user w1 = w_user w ∧ batch_ok base_fds sock (t_wait t) w1) as (Hs1 & Hu & Hb1).
  { unfold w1. destruct (t_break t); [|done]. split; [|done]. apply server_ok_rest; [|done]. done. }
  clearbody w1. rewrite <- Hu in *. case_cond; [by exists w1, false|].
  unfold wait_timeout. rewrite (to_timer _ _ _ _ _ _ (so_table _ _ _ _ _ _ _ _ Hs1)).
  replace (World (w_loop w1) (w_user w1)) with w1 by (by destruct w1).
  destruct (t_wait t) as [evs|e].
  - destruct (batch_near n0 evs w1 n Hs1 Hfd N1 N2 Hb1 Hq Hn) as (w2 & -> & Hs2 & Hn2 & Hd).
    cbn [mbind res_bind]. destruct fuel as [|fuel]; [lia|]. cbn [run_timers].
    rewrite (to_timer _ _ _ _ _ _ (so_table _ _ _ _ _ _ _ _ Hs2)). exists w2, true. split_and!; [done..|].
    intros _ Hf. apply Hd. intros c Hc. by rewrite Hc in Hf.
  - assert (near (n - 1) (w_user w1) ∨ ∃ c, sv_conns (w_user w1) !! fd = Some c) as Hx.
    { destruct (near_closed _ (w_user w1) _ (reflexivity _) Hn) as [H0|(c & Hc & _)]; [left|right; eauto].
      eapply within_mono; [|exact H0]. lia. }
    assert ((match sv_conns (w_user w1) !! fd with Some _ => false | None => true end) = true →
      near (n - 1) (w_user w1)) as Hy.
    { destruct Hx as [?|[c ->]]; done. }
    case_cond; eexists _, _; (split_and!; [done..|]); [by intros _|done].
Qed.

Lemma loop_near n0 fuel ts w n :
  ok n0 w → 0 <= fd < Z.of_nat n0 → fd ≠ efd → fd ≠ sock → (0 < fuel)%nat →
  turns_ok ndebug clock thr uninit buf0 base_fds pick sock fuel ts w → Forall quiet ts →
  near n (w_user w) →
  ∃ w', run_loop ndebug clock fuel ts w = Ok w' ∧ near (n - fair_turns fuel ts w) (w_user w').
Proof.
  intros Hs Hfd N1 N2 Hfuel. revert w n Hs. induction ts as [|t ts IH]; intros w n Hs Ht Hq Hn.
  { exists w. split; [done|]. simpl. by rewrite Nat.sub_0_r. }
  destruct Ht as [Hb Ht]. apply Forall_cons in Hq as [Hqt Hq].
  destruct (turn_near n0 fuel t w n Hs Hfd N1 N2 Hfuel Hb Hqt Hn) as (w1 & more & E & Hs1 & Hn1 & Hd).
  cbn [run_loop fair_turns]. unfold callbacks in Ht. unfold live_callbacks in *. rewrite E in *.
  cbn [mbind res_bind]. destruct more; cbv iota.
  - destruct (IH w1 (n - if fair t w then 1 else 0)%nat Hs1 Ht Hq) as (w' & E' & Hn').
    + destruct (fair t w); [by apply Hd|by rewrite Nat.sub_0_r].
    + exists w'. split; [done|]. by rewrite Nat.sub_add_distr.
  - exists w1. by rewrite Nat.sub_0_r.
Qed.

(** Nothing to take: nothing to do. *)
Lemma near_done u : near 0 u → answered fd input u.
Proof.
  intros [?|(c & k & _ & _ & _ & _ & Hp)]; [done|]. unfold potential in Hp. destruct (c_phase c); lia.
Qed.
End run.

(** ** The server answers *)

Section answers.
Context {K S M : Type} `{!Epoll K} `{!EpollLaws K} `{!StdHeap compare_timer}.
Context `{!Socket S} `{!SocketLaws S} `{!Allocator M} `{!AllocatorLaws M}.
Context `{!MultimapFind byte_buffer_data}.
Context {live : S → Prop} `{!LiveSocket S live} `{!LiveSend S live} `{!LiveEcho S live}.
Variable ndebug : bool.
Variable clock : nat → Z.
Variable thr : Z.
Variable uninit : byte_buffer_impl → list Z.
Variable buf0 : list Z.
Variable base_fds : gset Z.
Variable pick : gset Z → Z.
Variables (efd sock : Z).
Hypothesis Huninit : ∀ b, 0 <= capacity b → Z.of_nat (length (uninit b)) = capacity b.
Hypothesis Hbuf0 : length buf0 = 8%nat.
Hypothesis Hefd : (0 <= efd < 256) ∧ efd ∈ base_fds.
Hypothesis Hsock : (0 <= sock < 256) ∧ sock ∈ base_fds ∧ sock ≠ efd.
Hypothesis Hpick : ∀ X : gset Z, (pick X ∉ X) ∧ (0 <= pick X <= Z.of_nat (size X)).

#[local] Instance answers_callbacks : Callbacks K (server S M) :=
  server_callbacks ndebug clock thr uninit buf0 base_fds pick.

(** C2. The server answers.  In any state it reaches under the conditions of
    [server_run_safe] (well-formed frames, no hard error of [::accept], at most 256
    descriptors, no failing allocation, an [epoll_ctl] that takes its orders, and calls
    on all the connections that return), take an open connection whose
    socket is live (short reads and writes, [EAGAIN] and [EINTR] as the kernel likes,
    but no hard errors) and which has [n] requests ahead, one of them perhaps half
    read or half sent.  However the loop goes on, without
    an error event for this connection, with whatever events of the other
    descriptors in between: once the connection has had as many turns in which the
    event it waits for is reported as it has interruptions ahead, plus two per
    request, all [n] requests have been echoed: the connection is open and less than
    one frame is unanswered, or it was closed after it had echoed every complete
    frame its peer sent. *)
Theorem server_answers (k : K) (m : M) (incoming : list (accept_ans S)) (fuel : nat) (ts ts' : list turn)
  (l : io_loop K) (w w1 : world K (server S M)) (fd : Z) (c : conn S) (n : nat)
  (Hk : interest k = ∅) (Hctl : ctl_serves k) (Hm : blocks m = ∅) (Hmem : memory_suffices m)
  (Hin : Forall arrival_ok incoming) (Hfuel : (0 < fuel)%nat)
  (E1 : io_loop_init k efd = Ok l) (E2 : server_start sock m incoming l = Ok w)
  (Hts : turns_ok ndebug clock thr uninit buf0 base_fds pick sock fuel ts
    (on_loop (set_thread_id (Some thr)) w))
  (E3 : run ndebug clock thr fuel ts w = Ok w1)
  (Hc : sv_conns (w_user w1) !! fd = Some c) (Hlive : live (c_sock c)) (Htodo : todo n c)
  (Hts' : turns_ok ndebug clock thr uninit buf0 base_fds pick sock fuel ts' w1)
  (Hquiet : Forall (quiet fd) ts')
  (Hfair : (potential n c ≤
    fair_turns ndebug clock thr uninit buf0 base_fds pick fd fuel ts' w1)%nat) :
  ∃ w', run_loop ndebug clock fuel ts' w1 = Ok w' ∧ answered fd (c_input c) (w_user w').
Proof.
  destruct (start_ok thr buf0 base_fds efd sock Hbuf0 Hefd Hsock k m incoming Hk Hctl Hm Hmem Hin) as (l0 & w0 & E1' & E2' & Hs).
  rewrite E1 in E1'. injection E1' as <-. rewrite E2 in E2'. injection E2' as <-.
  destruct (server_loop_ok ndebug clock thr uninit buf0 base_fds pick efd sock 0 Huninit Hbuf0 Hefd
    Hsock Hpick _ fuel ts _ Hs Hfuel Hts) as (w1' & E3' & Hs1).
  pose proof (eq_trans (eq_sym E3') E3) as Ew. injection Ew as ->. clear E3'.
  pose proof (server_ok_length _ _ _ _ _ _ _ _ Hs1) as Hs2. pose proof Hs2 as [Hu Ht].
  destruct (conn_lookup buf0 base_fds efd sock Hbuf0 Hefd Hsock _ _ _ _ Hu Hc) as (_ & Hfd & _ & N1 & N2).
  destruct (table_ok_range _ _ _ _ _ _ fd Ht (proj1 Hfd)) as [Hr _].
  { by destruct (wants_conn efd sock _ fd c N1 N2 Hc) as [f ->]. }
  edestruct (loop_near (live := live) ndebug clock thr uninit buf0 base_fds pick efd sock 0 Huninit Hbuf0 Hefd Hsock Hpick
    _ fd (c_input c) _ fuel ts' w1 (potential n c) Hs2 Hr N1 N2 Hfuel Hts' Hquiet) as (w' & E & Hn).
  { by eapply within_conn. }
  exists w'. split; [exact E|]. apply (near_done (live := live) buf0 Hbuf0). eapply within_mono; [|exact Hn]. lia.
Qed.
End answers.

(** ** Witness *)

(** Two scripted connections; the first one is followed.  Its answers make it stop
    in the middle of a frame, in both directions. *)
Definition demo_live_incoming : list (accept_ans bscript) :=
  [AcOk demo_live; AcErr EINTR; AcOk (BScript demo_cut); AcErr EAGAIN].
Definition demo_accept_turns : list turn := [Turn false (WaitEvents [(4, EPOLLIN)])].
Definition demo_live_turns : list turn :=
  Turn false (WaitEvents [(6, EPOLLIN); (5, EPOLLIN)]) ::
  Turn false (WaitError EINTR) ::
  replicate 60 (Turn false (WaitEvents [(3, EPOLLIN); (5, EPOLLIN ||| EPOLLOUT)])).

Lemma demo_live_arrivals : Forall arrival_ok demo_live_incoming.
Proof.
  repeat (apply Forall_cons; split); try by apply Forall_nil.
  - split; [|done]. apply (demo_well_framed demo_frames [] demo_frame); [done|by vm_compute..|done].
  - by left.
  - split; [|done].
    apply (demo_well_framed [encode_frame 0 0 [7]] [0; 0; 0; 9] [0; 0; 1; 2; 3; 4; 5; 6; 7]);
      [done|by vm_compute..|done].
  - by right; left.
Qed.

Lemma demo_live_live : echo_live demo_live.
Proof.
  split; repeat (apply Forall_cons; split; [vm_compute; intuition congruence|]); by apply Forall_nil.
Qed.

#[local] Instance quiet_dec fd t : Decision (quiet fd t).
Proof. unfold quiet, no_error. destruct (t_wait t); apply _. Defined.

Lemma demo_base_fds :
  ((0 <= 3 < 256) ∧ 3 ∈ demo_base) ∧ ((0 <= 4 < 256) ∧ 4 ∈ demo_base ∧ 4 ≠ 3).
Proof. split_and!; try lia; apply (bool_decide_unpack _); vm_compute; exact I. Qed.

(** Both connections accepted; the turns that follow are as required. *)
Definition demo_accepted : res (world (gmap Z Z) (server bscript (gmap Z Z))) :=
  l ← io_loop_init (∅ : gmap Z Z) 3;
  w ← server_start 4 (∅ : gmap Z Z) demo_live_incoming l;
  run (Callbacks0 := server_callbacks false (λ _, 0) 1 zero_block (replicate 8 0) demo_base lowest)
    false (λ _, 0) 1 1 demo_accept_turns w.
Definition demo_live_conn : conn bscript :=
  Conn demo_live (PRecv (new_recv_request None (replicate 8 0))) (stream demo_live).
Lemma demo_live_todo : todo 2 demo_live_conn.
Proof.
  exists demo_frames, [], demo_frame. split_and!; [done|exact demo_frames_ok|exact demo_frame_ok|done|done].
Qed.
Definition demo_live_check : bool :=
  match demo_accepted with
  | Ok w1 =>
      bool_decide (turns_ok false (λ _, 0) 1 zero_block (replicate 8 0) demo_base lowest 4 1 demo_live_turns w1 ∧
        (potential 2 demo_live_conn ≤
          fair_turns false (λ _, 0%Z) 1 zero_block (replicate 8 0%Z) demo_base lowest 5 1 demo_live_turns w1)%nat)
  | Fail _ => false
  end.
Lemma demo_live_checked w1 :
  demo_accepted = Ok w1 →
  turns_ok false (λ _, 0) 1 zero_block (replicate 8 0) demo_base lowest 4 1 demo_live_turns w1 ∧
  (potential 2 demo_live_conn ≤
    fair_turns false (λ _, 0%Z) 1 zero_block (replicate 8 0%Z) demo_base lowest 5 1 demo_live_turns w1)%nat.
Proof.
  intros E. assert (demo_live_check = true) as H by (by vm_compute). unfold demo_live_check in H.
  rewrite E in H. by apply bool_decide_eq_true in H.
Qed.

Lemma server_answers_witness :
  ∃ l w w1 c w', io_loop_init (∅ : gmap Z Z) 3 = Ok l ∧
    server_start 4 (∅ : gmap Z Z) demo_live_incoming l = Ok w ∧
    run (Callbacks0 := server_callbacks false (λ _, 0) 1 zero_block (replicate 8 0) demo_base lowest)
      false (λ _, 0) 1 1 demo_accept_turns w = Ok w1 ∧
    sv_conns (w_user w1) !! 5 = Some c ∧ c_input c = concat demo_frames ∧
    run_loop (Callbacks0 := server_callbacks false (λ _, 0) 1 zero_block (replicate 8 0) demo_base lowest)
      false (λ _, 0) 1 demo_live_turns w1 = Ok w' ∧
    answered 5 (c_input c) (w_user w').
Proof.
  destruct (io_loop_init (∅ : gmap Z Z) 3) as [l|] eqn:E1; [|by vm_compute in E1].
  pose proof E1 as F1. vm_compute in F1. injection F1 as F1.
  destruct (server_start 4 (∅ : gmap Z Z) demo_live_incoming l) as [w|] eqn:E2;
    [|rewrite <- F1 in E2; by vm_compute in E2].
  pose proof E2 as F2. rewrite <- F1 in F2. vm_compute in F2. injection F2 as F2.
  set (cbs := server_callbacks false (λ _, 0) 1 zero_block (replicate 8 0) demo_base lowest).
  destruct (run (Callbacks0 := cbs) false (λ _, 0) 1 1 demo_accept_turns w) as [w1|] eqn:E3;
    [|rewrite <- F2 in E3; by vm_compute in E3].
  pose proof E3 as F3. rewrite <- F2 in F3. vm_compute in F3. injection F3 as F3.
  assert (sv_conns (w_user w1) !! 5 = Some demo_live_conn) as Hc by (rewrite <- F3; by vm_compute).
  destruct (demo_live_checked w1) as [Ht Hf]; [unfold demo_accepted; rewrite E1; cbn [mbind res_bind]; by rewrite E2|].
  destruct (server_answers (live := echo_live) false (λ _, 0) 1 zero_block (replicate 8 0) demo_base lowest
    3 4 zero_block_length eq_refl (proj1 demo_base_fds) (proj2 demo_base_fds)
    lowest_spec ∅ ∅ demo_live_incoming 1 demo_accept_turns demo_live_turns l w w1 5 demo_live_conn 2)
    as (w' & E & Ha); try assumption;
    [reflexivity|apply gmap_ctl_serves|reflexivity|apply gmap_memory_suffices| | | | | | |].
  - exact demo_live_arrivals.
  - lia.
  - rewrite <- F2. apply (bool_decide_unpack _). vm_compute. exact I.
  - exact demo_live_live.
  - exact demo_live_todo.
  - apply (bool_decide_unpack _). vm_compute. exact I.
  - exists l, w, w1, demo_live_conn, w'. by split_and!.
Defined.
