(* ===== verification/Sleepers.v ===== *)
(** * Sleeping coroutines on the loop ([test/test-timer.cpp])

    Coroutines that await a [timeout] and end, spawned from another thread: their
    first resumption is a posted function, the second one is a timer's.  The program
    joins the loop's queue, the timers and the awaiter [timeout]; the theorem says
    who wakes up, and who never does. *)

From S2P Require Import Prelude StdHeap IoLoop IoLoopFacts IoLoopProps Timers Awaiters.

(** Where the coroutines are: waiting, with the awaiter in their frame, or ended
    (the frame is gone); and [force_quit]. *)
Record sleepers := Sleepers {
  sp_waiting : gmap nat awaiter;
  sp_done : list nat;
  sp_quit : Z;
}.

(** A coroutine's awaiter as an [io_callback]; number 0 is the loop. *)
Definition sleep_cb (c : nat) : cb := S c.

Section program.
Context {K : Type} `{!Epoll K} `{!StdHeap compare_timer}.
Variable ndebug : bool.
Variable clock : nat → Z.
Variable thr : Z.
(** The argument of each coroutine, in nanoseconds; [None] when it is not
    positive.  [quits] are the ones that set [force_quit] at their end ([timer1]). *)
Variable delay : nat → option Z.
Variable quits : nat → bool.
Implicit Types (l : io_loop K) (u : sleepers) (w : world K sleepers).

(** [timer0] and [timer1] up to [co_await]. *)
Definition sleep_start (c : nat) w : res (world K sleepers) :=
  '(l, id) ← timeout_ctor clock (delay c) (sleep_cb c) (w_loop w);
  let u := w_user w in
  Ok (World l (Sleepers (<[c := Awaiter id 0 (-1) (-1)]> (sp_waiting u)) (sp_done u) (sp_quit u))).

(** [timeout::on_time_event], which resumes the coroutine: the awaiter is
    destroyed, [timer1] sets [force_quit], the frame destroys itself. *)
Definition sleep_over (c : nat) w : res (world K sleepers) :=
  let u := w_user w in
  match sp_waiting u !! c with
  | None => Fail DanglingRef
  | Some a =>
      l ← timeout_dtor ndebug thr (timeout_time_event a) (w_loop w);
      Ok (World l (Sleepers (delete c (sp_waiting u)) (sp_done u ++ [c])
        (if quits c then 1 else sp_quit u)))
  end.

#[export] Instance sleep_callbacks : Callbacks K sleepers := {
  on_file_event _ _ _ _ := Fail DanglingRef;
  on_time_event c _ w := match c with O => Fail DanglingRef | S c => sleep_over c w end;
  call_func := sleep_start;
}.

(** The loop's thread starts with [fs] posted by [main].  ([main] posts while the loop
    runs already; how its posts and the loop's turns interleave is [AsyncQueue]'s
    matter, here all of them come before the first turn.) *)
Definition sleep_world (fs : list nat) l : world K sleepers :=
  World (set_async fs [] (Z.of_nat (length fs)) (set_thread_id (Some thr) l)) (Sleepers ∅ [] 0).

(** ** The invariant *)

Variable efd : Z.
(** All coroutines of the program. *)
Variable fs : list nat.
Hypothesis Hnodup : NoDup fs.
Hypothesis Hmany : Z.of_nat (length fs) < 2 ^ 31 - 1.
Hypothesis Htime : ∀ c, time_ok clock (delay c).

Definition has_timer l (c : nat) (a : awaiter) : Prop :=
  match delay c with
  | None => aw_timer_id a = -1
  | Some _ => ∃ t, t ∈ _timer l ∧ _id t = aw_timer_id a ∧ _func t = sleep_cb c
  end.

(** [q] are the posted functions that have not run. *)
Record sleep_inv (q : list nat) l u : Prop := {
  si_timer : timer_inv l;
  si_parts : sp_done u ++ (map_to_list (sp_waiting u)).*1 ++ q ≡ₚ fs;
  si_count : _g_timer_id l + Z.of_nat (length q) <= Z.of_nat (length fs);
  si_waiting c a : sp_waiting u !! c = Some a → has_timer l c a;
  si_owner t : t ∈ _timer l → ∃ c a, _func t = sleep_cb c ∧ is_Some (delay c) ∧
    sp_waiting u !! c = Some a ∧ aw_timer_id a = _id t;
  si_done c : c ∈ sp_done u → is_Some (delay c);
  si_quit : sp_quit u = if existsb quits (sp_done u) then 1 else 0;
}.

Lemma si_fresh q l u c : sleep_inv q l u → c ∈ q → sp_waiting u !! c = None.
Proof.
  intros Hi Hc. apply eq_None_not_Some. intros [a Ha].
  assert (NoDup (sp_done u ++ (map_to_list (sp_waiting u)).*1 ++ q)) as Hn.
  { by rewrite (si_parts _ _ _ Hi). }
  apply NoDup_app in Hn as (_ & _ & Hn). apply NoDup_app in Hn as (_ & Hn & _).
  apply (Hn c); [|done]. apply list_elem_of_fmap. exists (c, a). split; [done|].
  by apply elem_of_map_to_list.
Qed.

(** What the coroutines leave alone. *)
Definition loop_same l l' : Prop :=
  _fds l' = _fds l ∧ _fds_epoch l' = _fds_epoch l ∧ m_breaking l' = m_breaking l ∧
  _async_funcs l' = _async_funcs l ∧ _async_funcs_tmp l' = _async_funcs_tmp l.
#[local] Instance loop_same_preorder : PreOrder loop_same.
Proof.
  split; [done|]. intros l1 l2 l3 (? & ? & ? & ? & ?) (? & ? & ? & ? & ?). split_and!; congruence.
Qed.

(** ** Starting *)

Lemma sleep_start_ok c q l u :
  sleep_inv (c :: q) l u →
  ∃ l' u', sleep_start c (World l u) = Ok (World l' u') ∧ sleep_inv q l' u' ∧ loop_same l l'.
Proof.
  intros Hi. pose proof (si_fresh _ _ _ c Hi (list_elem_of_here _ _)) as Hc.
  destruct Hi as [H1 H2 H3 H4 H5 H6 H7]. simpl in H3.
  unfold sleep_start, timeout_ctor. cbn [w_loop w_user]. destruct (delay c) as [ns|] eqn:Hd.
  - pose proof (Htime c) as Hc'. rewrite Hd in Hc'.
    unfold delay_call_after, now. rewrite (Hc' (_ticks l)). cbn [require mbind res_bind].
    set (l0 := set_ticks _ l).
    assert (timer_inv l0) as Ht0 by (by eapply timer_inv_same).
    destruct (delay_call_ok (clock (_ticks l) + i64 (u64 ns)) (sleep_cb c) l0 Ht0) as (ts & -> & Hp & Hf & Ht).
    { simpl. lia. }
    cbn [mbind res_bind]. eexists _, _. split; [done|]. split; [|done]. split; simpl.
    + done.
    + rewrite map_to_list_insert by done. simpl. rewrite <- H2. by rewrite Permutation_middle.
    + lia.
    + intros c' a'. destruct (decide (c' = c)) as [->|Hne].
      * rewrite lookup_insert_eq. intros [= <-]. unfold has_timer. rewrite Hd. simpl.
        eexists. rewrite Hp. split; [by left|done].
      * rewrite lookup_insert_ne by done. intros Ha%H4. unfold has_timer in *.
        destruct (delay c'); [|done]. destruct Ha as (t & Ht' & ?). exists t. split; [|done].
        simpl. rewrite Hp. by right.
    + intros t. rewrite Hp, elem_of_cons. intros [->|Ht']; simpl.
      * exists c. eexists. rewrite lookup_insert_eq, Hd. split_and!; [done|by eauto|done|done].
      * destruct (H5 t Ht') as (c' & a' & ? & ? & Ha & ?). exists c', a'. split_and!; [done..| |done].
        rewrite lookup_insert_ne; [done|]. intros <-. congruence.
    + done.
    + done.
  - cbn [mbind res_bind]. eexists _, _. split; [done|]. split; [|done]. split; simpl; try done; [|lia| |].
    + rewrite map_to_list_insert by done. simpl. rewrite <- H2. by rewrite Permutation_middle.
    + intros c' a'. destruct (decide (c' = c)) as [->|Hne].
      * rewrite lookup_insert_eq. intros [= <-]. unfold has_timer. by rewrite Hd.
      * rewrite lookup_insert_ne by done. apply H4.
    + intros t Ht. destruct (H5 t Ht) as (c' & a' & ? & ? & Ha & ?). exists c', a'. split_and!; [done..| |done].
      rewrite lookup_insert_ne; [done|]. intros <-. congruence.
Qed.

Lemma call_all_ok q q' l u :
  sleep_inv (q ++ q') l u →
  ∃ l' u', call_all q (World l u) = Ok (World l' u') ∧ sleep_inv q' l' u' ∧ loop_same l l'.
Proof.
  revert l u. induction q as [|c q IH]; intros l u Hi; [by exists l, u|].
  destruct (sleep_start_ok c (q ++ q') l u Hi) as (l1 & u1 & E1 & Hi1 & Hs1).
  destruct (IH l1 u1 Hi1) as (l2 & u2 & E2 & Hi2 & Hs2).
  exists l2, u2. split; [|split; [done|by trans l1]].
  cbn [call_all]. change (call_func c (World l u)) with (sleep_start c (World l u)).
  rewrite E1. exact E2.
Qed.

(** ** Waking up *)

Lemma sleep_over_ok q l u t0 ts l' :
  sleep_inv q l u → _timer l = t0 :: ts → _timer l' ≡ₚ ts → timer_inv l' →
  _g_timer_id l' = _g_timer_id l →
  ∃ u', on_time_event (_func t0) t0 (World l' u) = Ok (World l' u') ∧ sleep_inv q l' u'.
Proof.
  intros [H1 H2 H3 H4 H5 H6 H7] Et Hp Ht Hg.
  destruct (H5 t0) as (c & a & Hf & Hd & Ha & Hid); [rewrite Et; by left|].
  assert (∀ t, t ∈ ts → _id t ≠ _id t0) as Hother.
  { pose proof (ti_nodup _ H1) as Hn. rewrite Et in Hn. apply NoDup_cons in Hn as [Hn _].
    intros t Hin E. apply Hn. simpl. rewrite <- E. by apply list_elem_of_fmap_2. }
  rewrite Hf. simpl. unfold sleep_over. cbn [w_user w_loop]. rewrite Ha.
  unfold timeout_dtor. simpl. eexists. split; [done|]. split; simpl.
  - done.
  - rewrite <- H2, <- app_assoc. apply Permutation_app_head. simpl.
    rewrite <- (map_to_list_delete _ _ _ Ha). done.
  - lia.
  - intros c' a' [Hne Ha']%lookup_delete_Some. specialize (H4 c' a' Ha'). unfold has_timer in *.
    destruct (delay c'); [|done]. destruct H4 as (t & Hin & Hi' & Hc').
    rewrite Et in Hin. apply elem_of_cons in Hin as [->|Hin].
    + rewrite Hf in Hc'. by injection Hc' as ->.
    + exists t. rewrite Hp. done.
  - intros t Hin. rewrite Hp in Hin. destruct (H5 t) as (c' & a' & Hf' & Hd' & Ha' & Hid'); [rewrite Et; by right|].
    exists c', a'. split_and!; [done..| |done]. apply lookup_delete_Some. split; [|done].
    intros <-. apply (Hother t Hin). congruence.
  - intros c' Hin. apply elem_of_app in Hin as [Hin|Hin]; [by auto|].
    by apply list_elem_of_singleton in Hin as ->.
  - rewrite existsb_app, H7. simpl. destruct (quits c), (existsb quits (sp_done u)); done.
Qed.

Lemma run_timers_sleep fuel q l u :
  sleep_inv q l u → (length (_timer l) < fuel)%nat →
  ∃ l' u' fired, run_timers clock fuel (World l u) = Ok (World l' u', fired) ∧ sleep_inv q l' u' ∧
    loop_same l l' ∧
    ((∀ t i, t ∈ _timer l → (_ticks l ≤ i)%nat → _when t <= clock i) → _timer l' = []).
Proof.
  revert l u. induction fuel as [|fuel IH]; intros l u Hi Hf; [lia|]. cbn [run_timers w_loop].
  destruct (_timer l) as [|t0 ts] eqn:Et; [by exists l, u, []|]. unfold now. set (l0 := set_ticks _ l).
  assert (timer_inv l0) as Ht0 by (eapply timer_inv_same; [apply Hi|done..]).
  case_cond; bool_prop.
  - destruct (pop_timer_spec l0 t0 ts Ht0 Et) as (l1 & -> & Hp & Ht1 & Hl1 & _).
    destruct (sleep_over_ok q l u t0 ts l1 Hi Et Hp Ht1) as (u1 & E1 & Hi1); [by rewrite Hl1|].
    cbn [w_user]. rewrite E1. cbn [mbind res_bind].
    destruct (IH l1 u1 Hi1) as (l2 & u2 & fired & -> & Hi2 & Hs2 & Hd2).
    { rewrite (Permutation_length Hp). simpl in Hf. lia. }
    eexists l2, u2, _. split; [done|]. split; [done|]. split.
    + trans l1; [|done]. by rewrite Hl1.
    + intros Hdue. apply Hd2. intros t i Hin Hle. apply Hdue.
      * right. by rewrite <- Hp.
      * rewrite Hl1 in Hle. simpl in Hle. lia.
  - exists l0, u, []. split; [done|]. split; [|split; [done|]].
    + destruct Hi as [H1 H2 H3 H4 H5 H6 H7]. split; try done.
    + intros Hdue. specialize (Hdue t0 (_ticks l)). exfalso.
      assert (_when t0 <= clock (_ticks l)) by (apply Hdue; [by left|lia]). lia.
Qed.

(** ** Turns of the loop *)

Lemma sleep_inv_same q l l' u :
  sleep_inv q l u → _timer l' = _timer l → _g_timer_id l' = _g_timer_id l → sleep_inv q l' u.
Proof.
  intros [H1 H2 H3 H4 H5 H6 H7] Ht Hg. split; try done.
  - by eapply timer_inv_same.
  - by rewrite Hg.
  - intros c a Ha. specialize (H4 c a Ha). unfold has_timer in *. by rewrite Ht.
  - by rewrite Ht.
Qed.

Definition efd_entry (r : option cb) l : Prop :=
  (0 <= efd < Z.of_nat (length (_fds l))) ∧ ent l efd = EsFile efd EPOLLIN None r.

(** Between two turns: [q] is posted and not yet run. *)
Record at_rest (q : list nat) w : Prop := {
  ar_inv : sleep_inv q (w_loop w) (w_user w);
  ar_queue : _async_funcs (w_loop w) = q ∧ _async_funcs_tmp (w_loop w) = [];
  ar_efd : efd_entry (Some loop_cb) (w_loop w);
  ar_break : m_breaking (w_loop w) = 0;
}.

Lemma efd_entry_fds r l l' : _fds l' = _fds l → efd_entry r l → efd_entry r l'.
Proof. unfold efd_entry, ent. by intros ->. Qed.

Lemma efd_entry_put r r' l :
  efd_entry r l → efd_entry r' (fds_put efd (EsFile efd EPOLLIN None r') l).
Proof.
  intros [H1 _]. split; [simpl; by rewrite length_insert|]. rewrite ent_put by done. by rewrite decide_True.
Qed.

Lemma loop_event_sleep q l u :
  sleep_inv q l u → _async_funcs l = q → _async_funcs_tmp l = [] → efd_entry None l →
  ∃ w', loop_on_file_event efd (World l u) = Ok w' ∧ sleep_inv [] (w_loop w') (w_user w') ∧
    _async_funcs (w_loop w') = [] ∧ _async_funcs_tmp (w_loop w') = [] ∧
    efd_entry (Some loop_cb) (w_loop w') ∧ m_breaking (w_loop w') = m_breaking l.
Proof.
  intros Hi Hq Htmp He. unfold loop_on_file_event, epoch, on_loop. cbn [w_loop w_user].
  rewrite Hq, Htmp. set (l1 := set_async [] q 0 l).
  destruct (call_all_ok q [] l1 u) as (l2 & u2 & E & Hi2 & Hf & Hep & Hb & Ha & _).
  { rewrite app_nil_r. by eapply sleep_inv_same. }
  change (_async_funcs_tmp l1) with q. rewrite E. cbn [mbind res_bind w_loop w_user].
  rewrite bool_decide_true by (simpl; by rewrite Hep). cbn [require mbind res_bind].
  set (l3 := set_async (_async_funcs l2) [] (_eventfd l2) l2).
  assert (efd_entry None l3) as He3 by (by eapply efd_entry_fds; [|exact He]).
  pose proof He3 as [Hr3 Hent]. rewrite fds_at_ent by done. cbn [mbind res_bind]. rewrite Hent. simpl _fd.
  eexists. split; [done|]. simpl _event. simpl _func_w. cbn [w_loop w_user].
  split_and!; [by eapply sleep_inv_same|simpl; by rewrite Ha|done|by eapply efd_entry_put|by simpl; rewrite Hb].
Qed.

Lemma dispatch_sleep q w :
  at_rest q w → ∃ w', dispatch_event ndebug (efd, EPOLLIN) w = Ok w' ∧ at_rest [] w'.
Proof.
  intros [Hi [Hq Htmp] He Hb]. pose proof He as [Hr Hent]. destruct w as [l u]. cbn [w_loop w_user] in *.
  unfold dispatch_event. cbn [w_loop]. rewrite (proj2 (Z.leb_gt _ _)) by lia. rewrite fds_at_ent by done.
  cbn [mbind res_bind]. rewrite Hent. simpl _fd. rewrite (proj2 (Z.eqb_neq _ _)) by lia.
  change (has EPOLLIN EV_ERR) with false. change (has EPOLLIN EV_OUT) with false.
  change (has EPOLLIN EV_IN) with true. cbv iota. simpl _func_w.
  change (assert_subscribed ndebug false None (_event (EsFile efd EPOLLIN None (Some loop_cb))) EPOLLOUT) with (Ok ()).
  cbn [mbind res_bind]. unfold fire_w. cbn [w_loop]. rewrite fds_at_ent by done. cbn [mbind res_bind].
  rewrite Hent. simpl _func_w. cbn [mbind res_bind]. rewrite bool_decide_true by done.
  cbn [require mbind res_bind w_loop]. rewrite fds_at_ent by done. cbn [mbind res_bind]. rewrite Hent.
  cbn [_func_r _event]. assert (assert_subscribed ndebug true (Some loop_cb) EPOLLIN EPOLLIN = Ok ()) as -> by (by destruct ndebug).
  cbn [mbind res_bind]. unfold fire_r. cbn [w_loop]. rewrite fds_at_ent by done. cbn [mbind res_bind].
  rewrite Hent. cbn [_func_r]. unfold file_event. rewrite decide_True by done. unfold on_loop. cbn [w_loop w_user].
  destruct (loop_event_sleep q (fds_put efd (EsFile efd EPOLLIN None None) l) u)
    as (w' & E & Hi' & Hq' & Ht' & He' & Hb'); [by eapply sleep_inv_same|done|done|by eapply efd_entry_put|].
  exists w'. split; [exact E|]. split; [done|done|done|]. rewrite Hb'. done.
Qed.

(** A turn in which only the event descriptor may be ready. *)
Definition idle_turn (t : turn) : Prop :=
  t_break t = false ∧
  (t_wait t = WaitEvents [] ∨ t_wait t = WaitEvents [(efd, EPOLLIN)] ∨ t_wait t = WaitError EINTR).

Lemma timers_bounded q l u : sleep_inv q l u → (length (_timer l) ≤ length fs)%nat.
Proof.
  intros Hi. pose proof (si_timer _ _ _ Hi) as [_ Hn Hr Hc]. pose proof (si_count _ _ _ Hi).
  assert (_id <$> _timer l ⊆ seqZ 1 (_g_timer_id l)) as Hsub.
  { intros x (t & -> & Ht)%list_elem_of_fmap. apply elem_of_seqZ. rewrite Forall_forall in Hr.
    specialize (Hr t Ht). lia. }
  pose proof (NoDup_submseteq _ _ Hn (λ x, Hsub x)) as Hle%submseteq_length.
  rewrite length_fmap, length_seqZ in Hle. lia.
Qed.

(** The timer loop at the end of a turn. *)
Lemma timers_rest fuel q w :
  at_rest q w → (length fs < fuel)%nat →
  ∃ w' fired, run_timers clock fuel w = Ok (w', fired) ∧ at_rest q w' ∧
    ((∀ t i, t ∈ _timer (w_loop w) → (_ticks (w_loop w) ≤ i)%nat → _when t <= clock i) →
      _timer (w_loop w') = []).
Proof.
  intros [Hi [Hq Htmp] He Hb] Hf. destruct w as [l u]. cbn [w_loop w_user] in *.
  pose proof (timers_bounded _ _ _ Hi) as Hle.
  destruct (run_timers_sleep fuel q l u Hi) as (l' & u' & fired & E & Hi' & Hs & Hd); [lia|].
  destruct Hs as (Hfd & _ & Hbr & Ha & Ha'). exists (World l' u'), fired. split; [done|]. split; [|done].
  split; cbn [w_loop w_user]; [done|split; congruence|by eapply efd_entry_fds|congruence].
Qed.

Lemma turn_sleep fuel t q w :
  at_rest q w → idle_turn t → (length fs < fuel)%nat →
  ∃ w' q', run_turn ndebug clock fuel t w = Ok (w', true) ∧ at_rest q' w' ∧ (q' = q ∨ q' = []) ∧
    (t_wait t = WaitEvents [(efd, EPOLLIN)] → q' = []) ∧
    (t_wait t = WaitEvents [] →
      (∀ t i, t ∈ _timer (w_loop w) → (_ticks (w_loop w) ≤ i)%nat → _when t <= clock i) →
      q' = q ∧ _timer (w_loop w') = []).
Proof.
  intros Hw [Hb Ht] Hf. unfold run_turn. rewrite Hb, (ar_break _ _ Hw). simpl negb. cbv iota.
  assert (∃ l1 n, wait_timeout clock (w_loop w) = (l1, n) ∧ at_rest q (World l1 (w_user w)) ∧
    _timer l1 = _timer (w_loop w) ∧ (_ticks (w_loop w) ≤ _ticks l1)%nat) as (l1 & n & -> & Hw1 & Et & Hk).
  { unfold wait_timeout, now. destruct (_timer (w_loop w)) as [|t0 ts] eqn:E.
    - eexists _, _. split; [done|]. split_and!; [by destruct w|done|done].
    - eexists _, _. split; [done|]. split_and!; [|done|simpl; lia].
      destruct Hw as [Hi Hq He Hbr]. by split; [eapply sleep_inv_same|..]. }
  destruct Ht as [Ht|[Ht|Ht]]; rewrite Ht.
  - simpl dispatch_all. cbn [mbind res_bind].
    destruct (timers_rest fuel q _ Hw1 Hf) as (w' & fired & -> & Hw' & Hd).
    exists w', q. cbn [mbind res_bind]. split_and!; [done|done|by left|done|]. intros _ Hdue.
    split; [done|]. apply Hd. cbn [w_loop]. rewrite Et. intros t' i Hin Hle. apply Hdue; [done|lia].
  - cbn [dispatch_all]. destruct (dispatch_sleep q _ Hw1) as (w2 & -> & Hw2). cbn [mbind res_bind].
    destruct (timers_rest fuel [] w2 Hw2 Hf) as (w' & fired & -> & Hw' & _).
    exists w', []. cbn [mbind res_bind]. split_and!; [done|done|by right|done|done].
  - simpl. exists (World l1 (w_user w)), q. split_and!; [done|done|by left|done|done].
Qed.

Lemma loop_sleep fuel ts q w :
  at_rest q w → Forall idle_turn ts → (length fs < fuel)%nat →
  ∃ w' q', run_loop ndebug clock fuel ts w = Ok w' ∧ at_rest q' w' ∧
    (q = [] ∨ Turn false (WaitEvents [(efd, EPOLLIN)]) ∈ ts → q' = []).
Proof.
  intros Hw Hts Hf. revert q w Hw. induction Hts as [|t ts Ht Hts IH]; intros q w Hw.
  { exists w, q. split_and!; [done|done|]. by intros [?|?%elem_of_nil]. }
  destruct (turn_sleep fuel t q w Hw Ht Hf) as (w1 & q1 & E1 & Hw1 & Hq & Hev & _).
  destruct (IH q1 w1 Hw1) as (w2 & q2 & E2 & Hw2 & Hq2). exists w2, q2.
  cbn [run_loop]. rewrite E1. cbn [mbind res_bind]. split_and!; [done|done|].
  intros H. apply Hq2. destruct H as [->|[<-|H]%elem_of_cons]; [by left; destruct Hq|left; by apply Hev|by right].
Qed.
End program.

(** ** Who wakes up *)

Section results.
Context {K : Type} `{!Epoll K} `{!StdHeap compare_timer}.
Variable ndebug : bool.
Variable clock : nat → Z.
Variable thr : Z.
Variable delay : nat → option Z.
Variable quits : nat → bool.

#[local] Instance sleep_callbacks' : Callbacks K sleepers := sleep_callbacks ndebug clock thr delay quits.

Lemma sleep_rest (k : K) efd fs :
  0 <= efd → ∃ l, io_loop_init k efd = Ok l ∧ at_rest delay quits efd fs fs (sleep_world thr fs l).
Proof.
  intros Hefd. unfold io_loop_init, wait_read. set (l0 := IoLoop K _ _ _ _ _ _ _ _ _ _ _ _ _).
  assert (∀ fd, ent l0 fd = es_file_default) as Hent0 by (intros fd; unfold ent; by case_cond).
  assert (table_wf l0) as Hwf0.
  { split; [|simpl; lia]. intros fd _. rewrite Hent0. apply entry_wf_default. }
  destruct (wait_fd_spec DirR efd (Some loop_cb) l0 Hefd Hwf0) as (l & rc & E & Hent & _ & Hrest & _).
  simpl in E. rewrite E. exists l. split; [done|]. injection Hrest as Hb _ _ Hg Ht _ _ _ _.
  specialize (Hent efd). rewrite decide_True, Hent0 in Hent by done.
  split; [split|..]; simpl; try done.
  - split; simpl; rewrite ?Ht, ?Hg; [|constructor..|done]. intros i x p Hi Hx. by rewrite lookup_nil in Hx.
  - by rewrite Hg.
  - rewrite Ht. by intros t ?%elem_of_nil.
  - by intros c ?%elem_of_nil.
  - split; [|exact Hent]. split; [done|]. simpl.
    destruct (decide (efd < Z.of_nat (length (_fds l)))) as [|Hge]; [done|].
    rewrite ent_out in Hent by lia. unfold waiting in Hent. simpl in Hent. injection Hent as Hc. lia.
Qed.

(** Without timers, whoever waits asked for no time. *)
Lemma sleep_end efd fs (w : world K sleepers) :
  at_rest delay quits efd fs [] w → _timer (w_loop w) = [] →
  sp_done (w_user w) ≡ₚ filter (λ c, is_Some (delay c)) fs ∧
  (map_to_list (sp_waiting (w_user w))).*1 ≡ₚ filter (λ c, delay c = None) fs ∧
  _timer (w_loop w) = [] ∧
  (sp_quit (w_user w) = 1 ↔ ∃ c, c ∈ fs ∧ is_Some (delay c) ∧ quits c = true).
Proof.
  intros Hw Hnil. pose proof (ar_inv _ _ _ _ _ _ Hw) as [_ Hparts _ Hwait _ Hdone Hquit].
  rewrite app_nil_r in Hparts.
  assert (∀ c, c ∈ (map_to_list (sp_waiting (w_user w))).*1 → delay c = None) as Hnone.
  { intros c ([c' a] & -> & Ha%elem_of_map_to_list)%list_elem_of_fmap. apply Hwait in Ha.
    unfold has_timer in Ha. rewrite Hnil in Ha. simpl. destruct (delay c'); [|done].
    by destruct Ha as (t & ?%elem_of_nil & _). }
  assert (sp_done (w_user w) ≡ₚ filter (λ c, is_Some (delay c)) fs) as Hd.
  { rewrite <- Hparts, filter_app, (filter_all _ (sp_done _)), filter_none, app_nil_r; [done| |done].
    intros c Hc. rewrite (Hnone c Hc). by intros []. }
  split_and!; [done| |done|].
  - rewrite <- Hparts, filter_app, filter_none, filter_all; [done..|].
    intros c Hc. by destruct (Hdone c Hc) as [? ->].
  - rewrite Hquit. destruct (existsb _ _) eqn:Ee.
    + split; [intros _|done]. apply existsb_exists in Ee as (c & Hc%list_elem_of_In & Hqc).
      exists c. rewrite Hd in Hc. apply list_elem_of_filter in Hc as [? ?]. done.
    + split; [done|]. intros (c & Hc & Hs & Hqc). exfalso.
      assert (existsb quits (sp_done (w_user w)) = true); [|congruence].
      apply existsb_exists. exists c. split; [|done]. apply list_elem_of_In. rewrite Hd.
      by apply list_elem_of_filter.
Qed.

(** C22. Coroutines that sleep, on the whole loop: [fs] spawned from another thread,
    each awaiting [timeout] with its own argument.  Once the loop has seen its event
    descriptor, after any number of turns every coroutine waits or has ended, exactly
    once, none was started or resumed twice, and the ones that asked for no positive
    time are all still suspended.  As soon as a turn begins with the clock past all
    due times, the coroutines with a positive time have all ended, no timer is left,
    and [force_quit] is set exactly when one of them is a [timer1]; a coroutine that
    awaited [timeout(0)] never ends.  (The due times fit [int64_t] nanoseconds.) *)
Theorem sleepers_wake (k : K) (efd : Z) (fs : list nat) (fuel : nat) (ts : list turn)
  (Hefd : 0 <= efd) (Hnodup : NoDup fs) (Hmany : Z.of_nat (length fs) < 2 ^ 31 - 1)
  (Htime : ∀ c, time_ok clock (delay c))
  (Hts : Forall (idle_turn efd) ts) (Hposted : Turn false (WaitEvents [(efd, EPOLLIN)]) ∈ ts)
  (Hfuel : (length fs < fuel)%nat) :
  ∃ l w, io_loop_init k efd = Ok l ∧
    run_loop ndebug clock fuel ts (sleep_world thr fs l) = Ok w ∧
    sp_done (w_user w) ++ (map_to_list (sp_waiting (w_user w))).*1 ≡ₚ fs ∧
    (∀ c, c ∈ fs → delay c = None → is_Some (sp_waiting (w_user w) !! c)) ∧
    ((∀ t i, t ∈ _timer (w_loop w) → (_ticks (w_loop w) ≤ i)%nat → _when t <= clock i) →
     ∃ w', run_turn ndebug clock fuel (Turn false (WaitEvents [])) w = Ok (w', true) ∧
       sp_done (w_user w') ≡ₚ filter (λ c, is_Some (delay c)) fs ∧
       (map_to_list (sp_waiting (w_user w'))).*1 ≡ₚ filter (λ c, delay c = None) fs ∧
       _timer (w_loop w') = [] ∧
       (sp_quit (w_user w') = 1 ↔ ∃ c, c ∈ fs ∧ is_Some (delay c) ∧ quits c = true)).
Proof.
  destruct (sleep_rest k efd fs Hefd) as (l & E & Hr).
  destruct (loop_sleep ndebug clock thr delay quits efd fs Hnodup Hmany Htime fuel ts fs _ Hr Hts Hfuel)
    as (w & q & Erun & Hw & Hq). specialize (Hq (or_intror Hposted)). subst q.
  exists l, w. split; [done|]. split; [exact Erun|].
  pose proof (ar_inv _ _ _ _ _ _ Hw) as [_ Hparts _ _ _ Hdone _]. rewrite app_nil_r in Hparts.
  split; [done|]. split.
  { intros c Hc Hd. rewrite <- Hparts in Hc. apply elem_of_app in Hc as [Hc|Hc].
    - apply Hdone in Hc. rewrite Hd in Hc. by destruct Hc.
    - apply list_elem_of_fmap in Hc as ([c' a] & -> & Ha%elem_of_map_to_list). by exists a. }
  intros Hdue. destruct (turn_sleep ndebug clock thr delay quits efd fs Hnodup Hmany Htime fuel
    (Turn false (WaitEvents [])) [] w Hw (conj eq_refl (or_introl eq_refl)) Hfuel)
    as (w' & q & Et & Hw' & _ & _ & Hd). destruct (Hd eq_refl Hdue) as [-> Hnil].
  exists w'. split; [exact Et|]. by eapply sleep_end.
Qed.
End results.

(** ** Witness *)

(** Five coroutines: two sleep for 25 ns and 1 ns, the last one is [timer1]. *)
Definition demo_delay (c : nat) : option Z := match c with 2%nat => Some 25 | 4%nat => Some 1 | _ => None end.
Definition demo_quits (c : nat) : bool := Nat.eqb c 4.
Definition demo_sleep_turns : list turn :=
  [Turn false (WaitError EINTR); Turn false (WaitEvents [(3, EPOLLIN)])].

Lemma demo_delay_ok c : time_ok demo_clock (demo_delay c).
Proof.
  assert (∀ d i, 0 <= d <= 25 → long_ok (demo_clock i + d) = true) as H.
  { intros d i Hd. apply andb_true_iff. rewrite Z.leb_le, Z.ltb_lt. unfold demo_clock. lia. }
  do 5 (destruct c as [|c]; [try done; intros i; first [apply (H 25); lia|apply (H 1); lia]|]). done.
Qed.

Lemma sleepers_wake_witness :
  ∃ (l : io_loop (gmap Z Z)) w w', io_loop_init (∅ : gmap Z Z) 3 = Ok l ∧
    run_loop (Callbacks0 := sleep_callbacks false demo_clock 1 demo_delay demo_quits)
      false demo_clock 6 demo_sleep_turns (sleep_world 1 (seq 0 5) l) = Ok w ∧
    run_turn (Callbacks0 := sleep_callbacks false demo_clock 1 demo_delay demo_quits)
      false demo_clock 6 (Turn false (WaitEvents [])) w = Ok (w', true) ∧
    sp_done (w_user w') ≡ₚ [2; 4]%nat ∧ (map_to_list (sp_waiting (w_user w'))).*1 ≡ₚ [0; 1; 3]%nat ∧
    sp_quit (w_user w') = 1.
Proof.
  destruct (sleepers_wake false demo_clock 1 demo_delay demo_quits (∅ : gmap Z Z) 3 (seq 0 5) 6 demo_sleep_turns)
    as (l & w & E1 & E2 & _ & _ & X).
  - lia.
  - apply NoDup_seq.
  - simpl. lia.
  - exact demo_delay_ok.
  - repeat (apply Forall_cons; split); [split; [done|]; tauto..|by apply Forall_nil].
  - right. left.
  - simpl. lia.
  - destruct X as (w' & E3 & Hd & Hw & _ & Hq).
    + pose proof E1 as F1. vm_compute in F1. injection F1 as <-.
      pose proof E2 as F2. vm_compute in F2. injection F2 as <-. clear E1 E2.
      intros t i. cbn [w_loop _timer _ticks]. intros Ht Hi.
      repeat (apply elem_of_cons in Ht as [->|Ht]; [unfold demo_clock; cbn [_when]; lia|]). by apply elem_of_nil in Ht.
    + exists l, w, w'. split_and!; [done..|exact Hd|exact Hw|]. apply Hq. exists 4%nat.
      split_and!; [apply elem_of_seq; lia|by eexists|done].
Defined.
