(* ===== verification/Aio.v ===== *)
(** * Linux AIO ([coio/fd_aio.h], [coio/fd_aio.cpp])

    [io_aio_impl] owns one kernel AIO context and an event descriptor that the
    loop watches.  A completed request calls [on_aio_event] of its callback, which
    resumes a coroutine; the coroutine may submit again, and a submission that
    finds the context full itself fetches completions.  The recursion through the
    callbacks is therefore part of the model. *)

From S2P Require Import Prelude IoLoop.

(** ** The kernel's interface ([linux/aio_abi.h]) *)

Definition IOCB_CMD_PREAD : Z := 0.
Definition IOCB_CMD_PWRITE : Z := 1.
Definition IOCB_FLAG_RESFD : Z := 1.
Definition EINVAL : Z := 22.

Record iocb := Iocb {
  aio_data : cb;                (* the pointer stored in the 64-bit field *)
  aio_key : Z;
  aio_rw_flags : Z;
  aio_lio_opcode : Z;
  aio_reqprio : Z;
  aio_fildes : Z;
  aio_buf : Z;
  aio_nbytes : Z;
  aio_offset : Z;
  aio_flags : Z;
  aio_resfd : Z;
}.

Record io_event := IoEvent {
  ev_data : cb;
  ev_obj : Z;
  ev_res : Z;
  ev_res2 : Z;
}.

Inductive submit_ret := SubOk (rc : Z) | SubErr (errno : Z).
Inductive getevents_ret := GotEvents (evs : list io_event) | GetErr (errno : Z).

(** [io_getevents] without a timeout returns [None] when it waits for a
    completion that cannot come.  [in_flight] are the requests of a context that
    are submitted and not yet fetched, [efd_count] is the counter of the event
    descriptor.  [busy] bounds how many more interruptions and completions the
    context's calls can report. *)
Class AioKernel (A : Type) := {
  io_setup : A → Z → A * option Z;
  io_destroy : A → Z → A;
  io_submit : A → Z → iocb → A * submit_ret;
  io_getevents : A → Z → Z → Z → option (A * getevents_ret);
  eventfd : A → A * Z;
  eventfd_read : A → Z → A;
  close_fd : A → Z → A;
  in_flight : A → Z → list iocb;
  efd_count : A → Z → Z;
  busy : A → Z → nat;
}.

(** io_submit(2) and io_getevents(2). *)
Class AioLaws (A : Type) `{!AioKernel A} : Prop := {
  submit_ok k c b k' rc :
    io_submit k c b = (k', SubOk rc) → rc = 1 ∧ in_flight k' c ≡ₚ b :: in_flight k c;
  submit_err k c b k' e :
    io_submit k c b = (k', SubErr e) → in_flight k' c ≡ₚ in_flight k c;
  getevents_ok k c nr k' evs :
    1 <= nr → io_getevents k c 1 nr = Some (k', GotEvents evs) →
    1 <= Z.of_nat (length evs) <= nr ∧
    ∃ fetched, in_flight k c ≡ₚ fetched ++ in_flight k' c ∧
      map ev_data evs = map aio_data fetched;
  getevents_err k c mn nr k' e :
    io_getevents k c mn nr = Some (k', GetErr e) → in_flight k' c ≡ₚ in_flight k c;
  getevents_empty k c nr :
    in_flight k c = [] → io_getevents k c 1 nr = None;
  eventfd_read_flight k fd c : in_flight (eventfd_read k fd) c = in_flight k c;
  setup_flight k n k' c : io_setup k n = (k', Some c) → in_flight k' c = [];
  eventfd_flight k c : in_flight (eventfd k).1 c = in_flight k c;
}.

(** A context that works: only interruptions fail a call, a full context has
    requests in flight, and these complete. *)
Class AioLive (A : Type) `{!AioKernel A} : Prop := {
  live_submit_ok k c b k' rc :
    io_submit k c b = (k', SubOk rc) → (busy k' c ≤ S (busy k c))%nat;
  live_submit_err k c b k' e :
    io_submit k c b = (k', SubErr e) →
    (e = EAGAIN ∧ in_flight k' c ≠ [] ∧ (busy k' c ≤ busy k c)%nat) ∨
    (e = EINTR ∧ (busy k' c < busy k c)%nat);
  live_getevents k c nr :
    1 <= nr → in_flight k c ≠ [] →
    ∃ k' r, io_getevents k c 1 nr = Some (k', r) ∧
      match r with
      | GotEvents evs => (busy k' c + length evs ≤ busy k c)%nat
      | GetErr e => e = EINTR ∧ (busy k' c < busy k c)%nat
      end;
  live_eventfd_read k fd c : (busy (eventfd_read k fd) c ≤ busy k c)%nat;
}.

(** ** [io_aio_impl] *)

Definition _max_events : Z := 256.

Record io_aio_impl := IoAio {
  _ctx : Z;
  _efd : Z;
  _req : Z;                    (* uint64_t *)
  _res : Z;                    (* uint64_t *)
}.

Definition set_iocb (fd : Z) (is_write : bool) (off buff len efd : Z) (icb : cb) : iocb := {|
  aio_data := icb;
  aio_key := 0;
  aio_rw_flags := 0;
  aio_lio_opcode := if is_write then IOCB_CMD_PWRITE else IOCB_CMD_PREAD;
  aio_reqprio := 0;
  aio_fildes := u32 fd;
  aio_buf := buff;
  aio_nbytes := len;
  aio_offset := i64 (u64 off);
  aio_flags := IOCB_FLAG_RESFD;
  aio_resfd := u32 efd;
|}.

(** What a resumed coroutine does before control returns: it submits requests
    one after the other; after each it changes the state and goes on as the state
    it finds says. *)
Inductive code (U : Type) :=
  | CDone
  | CSubmit (b : iocb) (upd : U → U) (k : U → code U).
Arguments CDone {U}.
Arguments CSubmit {U} b upd k.

Class AioCallbacks (U : Type) := on_aio_event : cb → io_event → U → U * code U.

(** The AIO object, the kernel, and everything callbacks can change.
    [aw_accepted] and [aw_events] are history: the requests the kernel has taken
    and the events handed to callbacks, in order. *)
Record aworld {A U : Type} := AWorld {
  aw_aio : io_aio_impl;
  aw_kernel : A;
  aw_user : U;
  aw_accepted : list iocb;
  aw_events : list io_event;
}.
Arguments aworld : clear implicits.
Arguments AWorld {A U} _ _ _ _ _.

Section aio.
Context {A U : Type} `{!AioKernel A} `{!AioCallbacks U}.
Implicit Type w : aworld A U.

Definition aw_set_kernel (k : A) w : aworld A U :=
  AWorld (aw_aio w) k (aw_user w) (aw_accepted w) (aw_events w).
Definition aw_set_user (u : U) w : aworld A U :=
  AWorld (aw_aio w) (aw_kernel w) u (aw_accepted w) (aw_events w).

(** The constructor and the destructor. *)
Definition new_io_aio_impl (k : A) : A * io_aio_impl :=
  let '(k, r) := io_setup k _max_events in
  match r with
  | None => (k, IoAio 0 (-1) 0 0)
  | Some ctx => let '(k, efd) := eventfd k in (k, IoAio ctx efd 0 0)
  end.
(** [io_aio::new_inst] *)
Definition aio_new_inst (k : A) : A * io_aio_impl := new_io_aio_impl k.
Definition io_aio_impl_destroy (a : io_aio_impl) (k : A) : A :=
  let k := if negb (_ctx a =? 0) then io_destroy k (_ctx a) else k in
  if negb (_efd a =? -1) then close_fd k (_efd a) else k.
Definition event_fd (a : io_aio_impl) : Z := _efd a.

(** [++_req] and [_res += rc] *)
Definition count_req (b : iocb) w : aworld A U :=
  AWorld (IoAio (_ctx (aw_aio w)) (_efd (aw_aio w)) (u64 (_req (aw_aio w) + 1)) (_res (aw_aio w)))
    (aw_kernel w) (aw_user w) (aw_accepted w ++ [b]) (aw_events w).
Definition count_res (rc : Z) w : aworld A U :=
  AWorld (IoAio (_ctx (aw_aio w)) (_efd (aw_aio w)) (_req (aw_aio w)) (u64 (_res (aw_aio w) + rc)))
    (aw_kernel w) (aw_user w) (aw_accepted w) (aw_events w).

(** Running the code of a resumed coroutine; [sub] is [submit]. *)
Fixpoint exec_code (sub : iocb → aworld A U → res (aworld A U)) (c : code U) w
    : res (aworld A U) :=
  match c with
  | CDone => Ok w
  | CSubmit b upd k =>
      w ← sub b w;
      exec_code sub (k (aw_user w)) (aw_set_user (upd (aw_user w)) w)
  end.

(** [icb->on_aio_event(e)] *)
Definition aio_event (sub : iocb → aworld A U → res (aworld A U)) (e : io_event) w
    : res (aworld A U) :=
  let '(u, c) := on_aio_event (ev_data e) e (aw_user w) in
  exec_code sub c
    (AWorld (aw_aio w) (aw_kernel w) u (aw_accepted w) (aw_events w ++ [e])).

Fixpoint call_events (sub : iocb → aworld A U → res (aworld A U)) (evs : list io_event) w
    : res (aworld A U) :=
  match evs with
  | [] => Ok w
  | e :: evs => w ← aio_event sub e w; call_events sub evs w
  end.

(** The two [for (;;)] loops.  Every error but [EINTR] is logged and retried. *)
Fixpoint submit (fuel : nat) (b : iocb) w {struct fuel} : res (aworld A U) :=
  match fuel with
  | O => Fail OutOfFuel
  | S fuel =>
      let '(k, r) := io_submit (aw_kernel w) (_ctx (aw_aio w)) b in
      let w := aw_set_kernel k w in
      match r with
      | SubOk rc => if rc =? 1 then Ok (count_req b w) else submit fuel b w
      | SubErr e =>
          if e =? EAGAIN then w ← fetch_events fuel w; submit fuel b w
          else submit fuel b w
      end
  end
with fetch_events (fuel : nat) w {struct fuel} : res (aworld A U) :=
  match fuel with
  | O => Fail OutOfFuel
  | S fuel =>
      match io_getevents (aw_kernel w) (_ctx (aw_aio w)) 1 _max_events with
      | None => Fail Blocked
      | Some (k, GotEvents []) => fetch_events fuel (aw_set_kernel k w)
      | Some (k, GotEvents evs) =>
          w ← call_events (submit fuel) evs (aw_set_kernel k w);
          Ok (count_res (Z.of_nat (length evs)) w)
      | Some (k, GetErr e) => fetch_events fuel (aw_set_kernel k w)
      end
  end.

(** Their unfoldings, one turn at a time. *)
Lemma submit_S fuel b w :
  submit (S fuel) b w =
    let '(k, r) := io_submit (aw_kernel w) (_ctx (aw_aio w)) b in
    let w := aw_set_kernel k w in
    match r with
    | SubOk rc => if rc =? 1 then Ok (count_req b w) else submit fuel b w
    | SubErr e =>
        if e =? EAGAIN then w ← fetch_events fuel w; submit fuel b w else submit fuel b w
    end.
Proof. reflexivity. Qed.
Lemma fetch_events_S fuel w :
  fetch_events (S fuel) w =
    match io_getevents (aw_kernel w) (_ctx (aw_aio w)) 1 _max_events with
    | None => Fail Blocked
    | Some (k, GotEvents []) => fetch_events fuel (aw_set_kernel k w)
    | Some (k, GotEvents evs) =>
        w ← call_events (submit fuel) evs (aw_set_kernel k w);
        Ok (count_res (Z.of_nat (length evs)) w)
    | Some (k, GetErr e) => fetch_events fuel (aw_set_kernel k w)
    end.
Proof. reflexivity. Qed.

(** [on_file_event] up to the assignment to [es]. *)
Definition aio_ready (fuel : nat) w : res (aworld A U) :=
  fetch_events fuel (aw_set_kernel (eventfd_read (aw_kernel w) (_efd (aw_aio w))) w).

(** What reaches the object from outside: a submission of a running coroutine,
    a wake-up by the loop. *)
Inductive aio_op := OpSubmit (b : iocb) | OpReady.

Definition aio_step (fuel : nat) (op : aio_op) w : res (aworld A U) :=
  match op with
  | OpSubmit b => submit fuel b w
  | OpReady => aio_ready fuel w
  end.

Fixpoint aio_run (fuel : nat) (ops : list aio_op) w : res (aworld A U) :=
  match ops with
  | [] => Ok w
  | op :: ops => w ← aio_step fuel op w; aio_run fuel ops w
  end.

Definition op_iocb (op : aio_op) : option iocb :=
  match op with OpSubmit b => Some b | OpReady => None end.

(** ** Accounting *)

(** [lag] events have been handed out and are not yet in [_res], the callbacks
    [todo] are fetched and not yet called. *)
Record acct (c : Z) (lag : Z) (todo : list cb) w : Prop := {
  ac_ctx : _ctx (aw_aio w) = c;
  ac_req : _req (aw_aio w) = u64 (Z.of_nat (length (aw_accepted w)));
  ac_res : _res (aw_aio w) = u64 (Z.of_nat (length (aw_events w)) - lag);
  ac_perm : map aio_data (aw_accepted w) ≡ₚ
    map ev_data (aw_events w) ++ todo ++ map aio_data (in_flight (aw_kernel w) c);
}.

(** Histories only grow. *)
Definition grows w w' : Prop :=
  (∃ l, aw_accepted w' = aw_accepted w ++ l) ∧ (length (aw_events w) ≤ length (aw_events w'))%nat.

Lemma grows_refl w : grows w w.
Proof. split; [exists []; by rewrite app_nil_r|done]. Qed.
Lemma grows_trans w1 w2 w3 : grows w1 w2 → grows w2 w3 → grows w1 w3.
Proof.
  intros [[l1 H1] E1] [[l2 H2] E2]. split; [|lia].
  exists (l1 ++ l2). by rewrite H2, H1, app_assoc.
Qed.

Context `{!AioLaws A}.

Lemma acct_kernel c lag todo k w :
  in_flight k c ≡ₚ in_flight (aw_kernel w) c →
  acct c lag todo w → acct c lag todo (aw_set_kernel k w).
Proof. intros Hk [? ? ? Hp]. split; simpl; auto. by rewrite Hk. Qed.

Lemma acct_count_req c lag todo b k w :
  in_flight k c ≡ₚ b :: in_flight (aw_kernel w) c →
  acct c lag todo w → acct c lag todo (count_req b (aw_set_kernel k w)).
Proof.
  intros Hk [? Hr ? Hp]. split; simpl; auto.
  - rewrite Hr, length_app. simpl. unfold u64. rewrite Zplus_mod_idemp_l. f_equal. lia.
  - rewrite map_app, Hk, Hp. simpl. rewrite <- !app_assoc.
    do 2 (apply Permutation_app_head). symmetry. apply Permutation_cons_append.
Qed.

(** What [sub] has to guarantee when callbacks run on top of it. *)
Definition keeps (c : Z) (f : aworld A U → res (aworld A U)) : Prop :=
  ∀ lag todo w w', acct c lag todo w → f w = Ok w' → acct c lag todo w' ∧ grows w w'.

Lemma exec_code_keeps c sub p : (∀ b, keeps c (sub b)) → keeps c (exec_code sub p).
Proof.
  intros Hsub. induction p as [|b upd k IH]; intros lag todo w w' Hw E; simpl in E.
  - res_inv. subst. split; [done|apply grows_refl].
  - res_inv. apply (Hsub b lag todo) in E0 as [Ha Hg]; [|done].
    apply (IH _ lag todo) in E as [Ha' Hg']; [|by destruct Ha; split].
    split; [done|]. by eapply grows_trans.
Qed.

Lemma call_events_keeps c sub evs lag todo w w' :
  (∀ b, keeps c (sub b)) → acct c lag (map ev_data evs ++ todo) w →
  call_events sub evs w = Ok w' →
  acct c (lag + Z.of_nat (length evs)) todo w' ∧ grows w w' ∧
  (length (aw_events w) + length evs ≤ length (aw_events w'))%nat.
Proof.
  intros Hsub. revert lag w. induction evs as [|e evs IH]; intros lag w Hw E; simpl in E.
  - res_inv. subst. simpl. rewrite Z.add_0_r. split_and!; [done|apply grows_refl|lia].
  - res_inv. unfold aio_event in E0. destruct (on_aio_event _ _ _) as [u p] eqn:Eu.
    apply (exec_code_keeps c sub p Hsub (lag + 1) (map ev_data evs ++ todo)) in E0 as [Ha Hg].
    + apply (IH (lag + 1)) in E as (Ha' & Hg' & Hl); [|done]. split_and!.
      * simpl. by replace (lag + Z.of_nat (S (length evs)))
          with (lag + 1 + Z.of_nat (length evs)) by lia.
      * eapply grows_trans; [|exact Hg']. destruct Hg as [Hg Hl1]. split; [done|].
        simpl in Hl1. rewrite length_app in Hl1. lia.
      * destruct Hg as [_ Hg]. simpl in *. rewrite length_app in Hg. simpl in Hg. lia.
    + destruct Hw as [? ? Hr Hp]. split; simpl; auto.
      * rewrite Hr, length_app. simpl. f_equal. lia.
      * rewrite Hp, map_app. simpl. by rewrite <- !app_assoc.
Qed.

Lemma submit_fetch_keeps c fuel :
  (∀ b lag todo w w', acct c lag todo w → submit fuel b w = Ok w' →
     acct c lag todo w' ∧ grows w w' ∧ ∃ l, aw_accepted w' = aw_accepted w ++ l ++ [b]) ∧
  (∀ lag todo w w', acct c lag todo w → fetch_events fuel w = Ok w' →
     acct c lag todo w' ∧ grows w w' ∧ (length (aw_events w) < length (aw_events w'))%nat).
Proof.
  induction fuel as [|fuel [IHs IHf]]; [done|].
  assert (∀ b, keeps c (submit fuel b)) as Hsub.
  { intros b lag todo w w' Hw E. by apply (IHs b lag todo) in E as (? & ? & _). }
  split.
  - intros b lag todo w w' Hw E. rewrite submit_S in E. cbv zeta in E.
    destruct (io_submit _ _ _) as [k r] eqn:Ek.
    pose proof (ac_ctx _ _ _ _ Hw) as Hc. rewrite Hc in Ek. destruct r as [rc|e].
    + apply submit_ok in Ek as [-> Hk]. simpl in E. res_inv. subst w'.
      split_and!; [by apply acct_count_req| |by exists []]. split; [by exists [b]|done].
    + apply submit_err in Ek. apply (acct_kernel _ _ _ k) in Hw; [|done].
      case_cond.
      * res_inv. apply (IHf lag todo) in E0 as (Hw1 & Hg1 & _); [|done].
        apply (IHs b lag todo) in E as (Hw2 & Hg2 & [l2 Hl2]); [|done].
        split_and!; [done|by eapply (grows_trans (aw_set_kernel k w))|].
        destruct Hg1 as [[l1 Hl1] _]. exists (l1 ++ l2). by rewrite Hl2, Hl1, <- !app_assoc.
      * apply (IHs b lag todo) in E as (Hw2 & Hg2 & Hl2); [|done]. by split_and!.
  - intros lag todo w w' Hw E. rewrite fetch_events_S in E.
    pose proof (ac_ctx _ _ _ _ Hw) as Hc. rewrite Hc in E.
    destruct (io_getevents _ _ _ _) as [[k [evs|e]]|] eqn:Ek; [| |done].
    + apply getevents_ok in Ek as (Hn & fetched & Hk & Hd); [|done]. destruct evs as [|e evs].
      { simpl in Hn. lia. }
      cbv iota in E. set (es := e :: evs) in *. clearbody es. res_inv. subst w'.
      apply (call_events_keeps c _ es lag todo) in E0 as (Ha & Hg & Hl); [|done|].
      * split_and!; [|done|simpl in *; lia]. destruct Ha as [? ? Hr Hp]. split; simpl; auto.
        rewrite Hr. unfold u64. rewrite Zplus_mod_idemp_l. f_equal. lia.
      * destruct Hw as [? ? ? Hp]. split; simpl; auto.
        rewrite Hp, Hk, Hd, map_app, !app_assoc. f_equiv.
        rewrite <- !app_assoc. f_equiv. apply Permutation_app_comm.
    + apply getevents_err in Ek. apply (IHf lag todo) in E; [done|]. by apply acct_kernel.
Qed.

Lemma aio_run_keeps c fuel ops w w' :
  acct c 0 [] w → aio_run fuel ops w = Ok w' →
  acct c 0 [] w' ∧
  ∃ l, aw_accepted w' = aw_accepted w ++ l ∧ sublist (omap op_iocb ops) l.
Proof.
  revert w. induction ops as [|op ops IH]; intros w Hw E; simpl in E.
  - res_inv. subst. split; [done|]. exists []. by rewrite app_nil_r.
  - res_inv. destruct op as [b|]; simpl in E0.
    + apply (proj1 (submit_fetch_keeps c fuel) b 0 []) in E0 as (Hw1 & _ & [l1 Hl1]); [|done].
      apply IH in E as [Hw2 (l2 & Hl2 & Hs)]; [|done]. split; [done|].
      exists (l1 ++ [b] ++ l2). rewrite Hl2, Hl1, <- !app_assoc. split; [done|].
      simpl. apply sublist_inserts_l. by constructor.
    + apply (proj2 (submit_fetch_keeps c fuel) 0 []) in E0 as (Hw1 & [[l1 Hl1] _] & _).
      * apply IH in E as [Hw2 (l2 & Hl2 & Hs)]; [|done]. split; [done|].
        exists (l1 ++ l2). simpl in Hl1. rewrite Hl2, Hl1, <- !app_assoc. split; [done|].
        by apply sublist_inserts_l.
      * apply acct_kernel; [|done]. by rewrite eventfd_read_flight.
Qed.
End aio.
