(* ===== verification/AioProps.v ===== *)
(** * Linux AIO: exactly-once completion, termination, hazards

    The theorems on [Aio] for any kernel that obeys [AioLaws] and any code behind
    the callbacks, and a simulated kernel that shows the hypotheses hold and on
    which the hazards are reached. *)

From S2P Require Import Prelude IoLoop Aio.

(** ** Termination *)

(** A resumed coroutine pays for its submissions: [code_le n p] says that [p]
    submits at most [n] times and leaves the credit of the others alone. *)
Section credit.
Context {U : Type} (credit : U → nat).

Inductive code_le : nat → code U → Prop :=
  | code_le_done n : code_le n CDone
  | code_le_submit n b upd k :
      (∀ u, (credit (upd u) ≤ credit u)%nat) → (∀ u, code_le n (k u)) →
      code_le (S n) (CSubmit b upd k).
End credit.

Class AioBounded (U : Type) `{!AioCallbacks U} := {
  credit : U → nat;
  resume_credit c e u : ∃ n, code_le credit n (on_aio_event c e u).2 ∧
    (credit (on_aio_event c e u).1 + n ≤ credit u)%nat;
}.

Section progress.
Context {A U : Type} `{!AioKernel A} `{!AioCallbacks U} `{!AioLive A} `{!AioLaws A} `{!AioBounded U}.
Implicit Type w : aworld A U.

(** What is left to happen: completions and interruptions to come, and
    submissions the coroutines can still make. *)
Definition work w : nat := (busy (aw_kernel w) (_ctx (aw_aio w)) + credit (aw_user w))%nat.

(** [sub] returns from worlds of work below [n], and adds at most the one
    request it submits. *)
Definition returns_below (n : nat) (sub : iocb → aworld A U → res (aworld A U)) : Prop :=
  ∀ b w, (work w < n)%nat → ∃ w', sub b w = Ok w' ∧ (work w' ≤ S (work w))%nat.

Lemma exec_code_returns n sub m p w :
  returns_below n sub → code_le credit m p → (work w + m < n)%nat →
  ∃ w', exec_code sub p w = Ok w' ∧ (work w' ≤ work w + m)%nat.
Proof.
  intros Hsub Hp. revert w. induction Hp as [m|m b upd k Hu _ IH]; intros w Hn; simpl.
  - exists w. split; [done|lia].
  - destruct (Hsub b w) as (w1 & -> & Hw1); [lia|]. cbn [mbind res_bind].
    pose proof (Hu (aw_user w1)) as Hc.
    destruct (IH (aw_user w1) (aw_set_user (upd (aw_user w1)) w1)) as (w2 & -> & Hw2).
    + unfold work in *. simpl. lia.
    + exists w2. split; [done|]. unfold work in *. simpl in *. lia.
Qed.

Lemma call_events_returns n sub evs w :
  returns_below n sub → (work w < n)%nat →
  ∃ w', call_events sub evs w = Ok w' ∧ (work w' ≤ work w)%nat.
Proof.
  intros Hsub. revert w. induction evs as [|e evs IH]; intros w Hn; simpl.
  - exists w. split; [done|lia].
  - unfold aio_event. pose proof (resume_credit (ev_data e) e (aw_user w)) as (m & Hm & Hc).
    destruct (on_aio_event _ _ _) as [u p]. simpl in *.
    destruct (exec_code_returns n sub m p
      (AWorld (aw_aio w) (aw_kernel w) u (aw_accepted w) (aw_events w ++ [e])))
      as (w1 & -> & Hw1); [done|done|unfold work in *; simpl; lia|].
    cbn [mbind res_bind]. assert (work w1 ≤ work w)%nat by (unfold work in *; simpl in *; lia).
    destruct (IH w1) as (w2 & -> & Hw2); [lia|]. exists w2. split; [done|lia].
Qed.

Lemma submit_fetch_return fuel :
  (∀ b w, (2 * work w + 2 ≤ fuel)%nat →
     ∃ w', submit fuel b w = Ok w' ∧ (work w' ≤ S (work w))%nat) ∧
  (∀ w, in_flight (aw_kernel w) (_ctx (aw_aio w)) ≠ [] → (2 * work w + 1 ≤ fuel)%nat →
     ∃ w', fetch_events fuel w = Ok w' ∧ (work w' < work w)%nat).
Proof.
  induction fuel as [|fuel [IHs IHf]]; [split; intros; lia|]. split.
  - intros b w Hf. rewrite submit_S. cbv zeta. destruct (io_submit _ _ _) as [k [rc|e]] eqn:Ek.
    + pose proof (submit_ok _ _ _ _ _ Ek) as [-> _].
      pose proof (live_submit_ok _ _ _ _ _ Ek). change (1 =? 1) with true. cbv iota. eexists. split; [done|].
      unfold work. simpl. lia.
    + pose proof (live_submit_err _ _ _ _ _ Ek) as [(-> & Hne & Hb)|(-> & Hb)];
        [change (EAGAIN =? EAGAIN) with true|change (EINTR =? EAGAIN) with false]; cbv iota.
      * destruct (IHf (aw_set_kernel k w)) as (w1 & -> & Hw1); [done|unfold work in *; simpl; lia|].
        cbn [mbind res_bind]. assert (work w1 < work w)%nat by (unfold work in *; simpl in *; lia).
        destruct (IHs b w1) as (w2 & -> & Hw2); [lia|]. exists w2. split; [done|lia].
      * destruct (IHs b (aw_set_kernel k w)) as (w2 & -> & Hw2); [unfold work in *; simpl; lia|].
        exists w2. split; [done|unfold work in *; simpl in *; lia].
  - intros w Hne Hf. rewrite fetch_events_S.
    destruct (live_getevents (aw_kernel w) (_ctx (aw_aio w)) _max_events)
      as (k & r & Ek & Hr); [done|done|]. rewrite Ek. destruct r as [evs|e].
    + apply getevents_ok in Ek as [Hn _]; [|done]. destruct evs as [|e evs]; [simpl in Hn; lia|].
      cbv iota. set (es := e :: evs) in *. assert (1 ≤ length es)%nat by lia. clearbody es.
      destruct (call_events_returns (work w) (submit fuel) es (aw_set_kernel k w))
        as (w1 & -> & Hw1).
      * intros b w0 Hw0. apply IHs. lia.
      * unfold work in *. simpl. lia.
      * cbn [mbind res_bind]. eexists. split; [done|]. unfold work in *. simpl in *. lia.
    + destruct Hr as [-> Hb]. destruct (IHf (aw_set_kernel k w)) as (w1 & -> & Hw1).
      * apply getevents_err in Ek. simpl. intros E. rewrite E in Ek.
        by apply Permutation_nil_l in Ek.
      * unfold work in *. simpl. lia.
      * exists w1. split; [done|unfold work in *; simpl in *; lia].
Qed.
End progress.

(** ** A simulated kernel *)

(** Requests complete in order.  The head of [sm_sched] says how many complete
    while the next [io_submit] or [io_getevents] is made; [sm_intr] calls are
    interrupted; the context holds [S sm_cap] requests. *)
Record aio_sim := AioSim {
  sm_pending : list iocb;
  sm_done : list iocb;
  sm_count : Z;
  sm_sched : list nat;
  sm_intr : nat;
  sm_cap : nat;
}.

Definition sim_complete (n : nat) (k : aio_sim) : aio_sim :=
  AioSim (drop n (sm_pending k)) (sm_done k ++ take n (sm_pending k))
    (sm_count k + Z.of_nat (length (take n (sm_pending k)))) (sm_sched k) (sm_intr k) (sm_cap k).
Definition sim_tick (k : aio_sim) : aio_sim :=
  match sm_sched k with
  | [] => k
  | n :: ns => sim_complete n
      (AioSim (sm_pending k) (sm_done k) (sm_count k) ns (sm_intr k) (sm_cap k))
  end.
Definition sim_event (b : iocb) : io_event := IoEvent (aio_data b) 0 (aio_nbytes b) 0.

Definition sim_interrupted (k : aio_sim) : option aio_sim :=
  match sm_intr k with
  | O => None
  | S n => Some (AioSim (sm_pending k) (sm_done k) (sm_count k) (sm_sched k) n (sm_cap k))
  end.

Definition sim_submit (k : aio_sim) (b : iocb) : aio_sim * submit_ret :=
  match sim_interrupted k with
  | Some k => (k, SubErr EINTR)
  | None =>
      let k := sim_tick k in
      if decide (sm_cap k < length (sm_done k ++ sm_pending k))%nat then (k, SubErr EAGAIN)
      else (AioSim (sm_pending k ++ [b]) (sm_done k) (sm_count k) (sm_sched k) (sm_intr k) (sm_cap k),
            SubOk 1)
  end.

(** One more request completes when the caller would have to wait. *)
Definition sim_wait (k : aio_sim) : aio_sim :=
  match sm_done k with [] => sim_complete 1 k | _ => k end.

Definition sim_getevents (k : aio_sim) (nr : Z) : option (aio_sim * getevents_ret) :=
  match sm_done k ++ sm_pending k, sim_interrupted k with
  | [], _ => None
  | _, Some k => Some (k, GetErr EINTR)
  | _, None =>
      let k := sim_wait (sim_tick k) in
      let n := Z.to_nat nr in
      Some (AioSim (sm_pending k) (drop n (sm_done k)) (sm_count k) (sm_sched k) (sm_intr k) (sm_cap k),
            GotEvents (map sim_event (take n (sm_done k))))
  end.

#[export] Instance sim_kernel : AioKernel aio_sim := {
  io_setup k _ := (AioSim [] [] (sm_count k) (sm_sched k) (sm_intr k) (sm_cap k), Some 1);
  io_destroy k _ := k;
  io_submit k _ b := sim_submit k b;
  io_getevents k _ _ nr := sim_getevents k nr;
  eventfd k := (k, 5);
  eventfd_read k _ := AioSim (sm_pending k) (sm_done k) 0 (sm_sched k) (sm_intr k) (sm_cap k);
  close_fd k _ := k;
  in_flight k _ := sm_done k ++ sm_pending k;
  efd_count k _ := sm_count k;
  busy k _ := (sm_intr k + length (sm_done k ++ sm_pending k))%nat;
}.

Lemma sim_complete_flight n k :
  sm_done (sim_complete n k) ++ sm_pending (sim_complete n k) = sm_done k ++ sm_pending k.
Proof. simpl. by rewrite <- app_assoc, take_drop. Qed.
Lemma sim_tick_flight k :
  sm_done (sim_tick k) ++ sm_pending (sim_tick k) = sm_done k ++ sm_pending k.
Proof. unfold sim_tick. destruct (sm_sched k); [done|]. by rewrite sim_complete_flight. Qed.
Lemma sim_tick_intr k : sm_intr (sim_tick k) = sm_intr k.
Proof. unfold sim_tick. by destruct (sm_sched k). Qed.
Lemma sim_wait_flight k :
  sm_done (sim_wait k) ++ sm_pending (sim_wait k) = sm_done k ++ sm_pending k.
Proof. unfold sim_wait. destruct (sm_done k) eqn:E; [|by rewrite E]. by rewrite sim_complete_flight, E. Qed.
Lemma sim_wait_intr k : sm_intr (sim_wait k) = sm_intr k.
Proof. unfold sim_wait. by destruct (sm_done k). Qed.
Lemma sim_wait_done k : sm_done k ++ sm_pending k ≠ [] → sm_done (sim_wait k) ≠ [].
Proof.
  unfold sim_wait. destruct (sm_done k) eqn:E; simpl; rewrite ?E; [|done].
  by destruct (sm_pending k).
Qed.
Create Rewrite HintDb aio_sim.
#[export] Hint Rewrite sim_tick_flight sim_tick_intr sim_wait_flight sim_wait_intr : aio_sim.

Lemma sim_interrupted_spec k k' :
  sim_interrupted k = Some k' →
  sm_done k' ++ sm_pending k' = sm_done k ++ sm_pending k ∧ sm_intr k = S (sm_intr k').
Proof. unfold sim_interrupted. destruct (sm_intr k); [done|]. by intros [= <-]. Qed.

Lemma sim_submit_spec k b :
  match sim_submit k b with
  | (k', SubOk rc) => rc = 1 ∧ sm_intr k' = sm_intr k ∧
      sm_done k' ++ sm_pending k' = (sm_done k ++ sm_pending k) ++ [b]
  | (k', SubErr e) => sm_done k' ++ sm_pending k' = sm_done k ++ sm_pending k ∧
      (e = EAGAIN ∧ sm_done k' ++ sm_pending k' ≠ [] ∧ sm_intr k' = sm_intr k ∨
       e = EINTR ∧ sm_intr k = S (sm_intr k'))
  end.
Proof.
  unfold sim_submit. destruct (sim_interrupted k) as [k'|] eqn:Ei.
  - apply sim_interrupted_spec in Ei as [? ?]. auto.
  - case_decide as Hc.
    + autorewrite with aio_sim in *. split; [done|]. left. split_and!; [done| |done].
      intros E. rewrite E in Hc. simpl in Hc. lia.
    + simpl. autorewrite with aio_sim. split_and!; [done..|].
      rewrite app_assoc, sim_tick_flight. done.
Qed.

Lemma sim_getevents_spec k nr :
  1 <= nr → sm_done k ++ sm_pending k ≠ [] →
  ∃ k' r, sim_getevents k nr = Some (k', r) ∧
  match r with
  | GotEvents evs => ∃ fetched, evs = map sim_event fetched ∧ fetched ≠ [] ∧
      (length fetched ≤ Z.to_nat nr)%nat ∧ sm_intr k' = sm_intr k ∧
      sm_done k ++ sm_pending k = fetched ++ sm_done k' ++ sm_pending k'
  | GetErr e => e = EINTR ∧ sm_intr k = S (sm_intr k') ∧
      sm_done k' ++ sm_pending k' = sm_done k ++ sm_pending k
  end.
Proof.
  intros Hnr Hne. unfold sim_getevents. destruct (sm_done k ++ sm_pending k) as [|b l] eqn:El; [done|].
  destruct (sim_interrupted k) as [k'|] eqn:Ei.
  - apply sim_interrupted_spec in Ei as [? ?]. eexists _, _. split; [done|]. rewrite <- El. auto.
  - assert (sm_done (sim_wait (sim_tick k)) ≠ []) as Hd.
    { apply sim_wait_done. rewrite sim_tick_flight, El. done. }
    eexists _, _. split; [done|]. simpl. autorewrite with aio_sim.
    eexists. split; [done|]. split_and!; [|rewrite length_take; lia|done|].
    + destruct (sm_done (sim_wait _)); [done|]. by destruct (Z.to_nat nr) eqn:?; [lia|].
    + rewrite app_assoc, take_drop, sim_wait_flight, sim_tick_flight. done.
Qed.

#[export] Instance sim_laws : AioLaws aio_sim.
Proof.
  split; cbn [io_submit io_getevents in_flight io_setup eventfd eventfd_read sim_kernel].
  - intros k c b k' rc E. pose proof (sim_submit_spec k b) as H. rewrite E in H.
    destruct H as (? & _ & ->). split; [done|]. symmetry. apply Permutation_cons_append.
  - intros k c b k' e E. pose proof (sim_submit_spec k b) as H. rewrite E in H.
    by destruct H as [-> _].
  - intros k c nr k' evs Hnr E. destruct (decide (sm_done k ++ sm_pending k = [])) as [Hn|Hn].
    { unfold sim_getevents in E. by rewrite Hn in E. }
    destruct (sim_getevents_spec k nr Hnr Hn) as (k1 & r & E1 & Hr). rewrite E in E1.
    injection E1 as -> <-. destruct Hr as (fetched & -> & Hf & Hl & _ & Hk).
    rewrite length_map. split.
    + destruct fetched; [done|]. simpl in *. lia.
    + exists fetched. by rewrite Hk, map_map.
  - intros k c mn nr k' e E. destruct (decide (sm_done k ++ sm_pending k = [])) as [Hn|Hn].
    { unfold sim_getevents in E. by rewrite Hn in E. }
    unfold sim_getevents in E. destruct (sm_done k ++ sm_pending k) eqn:El; [done|].
    destruct (sim_interrupted k) eqn:Ei; [|done]. injection E as <- <-.
    apply sim_interrupted_spec in Ei as [-> _]. by rewrite El.
  - intros k c nr Hn. unfold sim_getevents. by rewrite Hn.
  - done.
  - by intros k n k' c [= <- <-].
  - done.
Qed.

#[export] Instance sim_live : AioLive aio_sim.
Proof.
  split; cbn [io_submit io_getevents in_flight io_setup eventfd eventfd_read busy sim_kernel].
  - intros k c b k' rc E. pose proof (sim_submit_spec k b) as H. rewrite E in H.
    destruct H as (_ & -> & ->). rewrite length_app. simpl. lia.
  - intros k c b k' e E. pose proof (sim_submit_spec k b) as H. rewrite E in H.
    destruct H as [Hf [(-> & Hn & Hi)|(-> & Hi)]]; [left|right]; split_and?; auto; rewrite Hf; lia.
  - intros k c nr Hnr Hn. destruct (sim_getevents_spec k nr Hnr Hn) as (k' & r & E & Hr).
    exists k', r. split; [done|]. destruct r as [evs|e].
    + destruct Hr as (fetched & -> & _ & _ & -> & ->). rewrite length_map, !length_app. lia.
    + destruct Hr as (-> & Hi & ->). split; [done|lia].
  - done.
Qed.

(** Callbacks that answer each completion with one more request while their
    credit lasts. *)
Definition demo_iocb (c : cb) : iocb := set_iocb 7 false 0 4096 512 5 c.
Arguments demo_iocb c%_nat_scope.
#[export] Instance demo_aio_callbacks : AioCallbacks nat := λ c _ u,
  match u with
  | O => (O, CDone)
  | S n => (n, CSubmit (demo_iocb (c + 10)%nat) id (λ _, CDone))
  end.
#[export] Instance demo_aio_bounded : AioBounded nat.
Proof.
  refine {| credit := id |}. intros c e [|n]; simpl.
  - exists O. split; [constructor|done].
  - exists 1%nat. split; [|lia]. constructor; [done|constructor].
Defined.

Definition demo_sim (sched : list nat) (intr cap : nat) : aio_sim := AioSim [] [] 0 sched intr cap.

(** ** Theorems *)

Section theorems.
Context {A U : Type} `{!AioKernel A} `{!AioCallbacks U} `{!AioLaws A}.
Implicit Type w : aworld A U.

(** The object as its constructor leaves it. *)
Definition fresh_aworld (k : A) (u : U) : aworld A U :=
  let '(k, a) := new_io_aio_impl k in AWorld a k u [] [].

Lemma fresh_acct k u :
  _ctx (aw_aio (fresh_aworld k u)) ≠ 0 →
  acct (_ctx (aw_aio (fresh_aworld k u))) 0 [] (fresh_aworld k u).
Proof.
  unfold fresh_aworld, new_io_aio_impl. destruct (io_setup k _max_events) as [k1 [c|]] eqn:Ek; [|done].
  pose proof (setup_flight _ _ _ _ Ek) as Hf. pose proof (eventfd_flight k1 c) as He.
  destruct (eventfd k1) as [k2 efd]. simpl in *. intros _. split; simpl; [done..|].
  by rewrite He, Hf.
Qed.

(** C15. Every request the kernel accepts is completed exactly once: the callbacks
    of the accepted requests are, up to order, those that have been called plus
    those of the requests still in flight; every request submitted from outside is
    among the accepted ones, in order; and [_req - _res] is the number in flight. *)
Theorem aio_exactly_once k u fuel ops w :
  _ctx (aw_aio (fresh_aworld k u)) ≠ 0 →
  aio_run fuel ops (fresh_aworld k u) = Ok w →
  let flying := in_flight (aw_kernel w) (_ctx (aw_aio w)) in
  map aio_data (aw_accepted w) ≡ₚ map ev_data (aw_events w) ++ map aio_data flying ∧
  sublist (omap op_iocb ops) (aw_accepted w) ∧
  u64 (_req (aw_aio w) - _res (aw_aio w)) = u64 (Z.of_nat (length flying)).
Proof.
  intros Hc E. apply (aio_run_keeps _ _ _ _ _ (fresh_acct k u Hc)) in E as [Ha (l & Hl & Hs)].
  assert (aw_accepted (fresh_aworld k u) = []) as H0.
  { unfold fresh_aworld. by destruct (new_io_aio_impl k). }
  destruct Ha as [Hx Hr Hv Hp]. rewrite Hx. rewrite H0 in Hl. simpl in Hl. simpl. split_and!.
  - done.
  - by rewrite Hl.
  - apply Permutation_length in Hp. simpl in Hp. rewrite length_app, !length_map in Hp.
    rewrite Hr, Hv, Z.sub_0_r. unfold u64. rewrite <- Zminus_mod. f_equal. lia.
Qed.

(** C16. A working context never stops the thread for good: in any state reached,
    a submission returns with the request accepted, and a wake-up with requests in
    flight returns after calling at least one callback.  The bound on the loops is
    linear in the work left. *)
Theorem aio_progress `{!AioLive A} `{!AioBounded U} k u fuel0 ops w b fuel :
  _ctx (aw_aio (fresh_aworld k u)) ≠ 0 →
  aio_run fuel0 ops (fresh_aworld k u) = Ok w →
  (2 * work w + 2 ≤ fuel)%nat →
  (∃ w' l, submit fuel b w = Ok w' ∧ aw_accepted w' = aw_accepted w ++ l ++ [b]) ∧
  (in_flight (aw_kernel w) (_ctx (aw_aio w)) ≠ [] →
   ∃ w', aio_ready fuel w = Ok w' ∧ (length (aw_events w) < length (aw_events w'))%nat).
Proof.
  intros Hc E Hf. apply (aio_run_keeps _ _ _ _ _ (fresh_acct k u Hc)) in E as [Ha _]. split.
  - destruct (proj1 (submit_fetch_return fuel) b w) as (w' & Es & _); [lia|].
    destruct (proj1 (submit_fetch_keeps _ fuel) b _ _ _ _ Ha Es) as (_ & _ & [l Hl]). eauto.
  - intros Hne. unfold aio_ready.
    set (w0 := aw_set_kernel _ w). assert (acct (_ctx (aw_aio (fresh_aworld k u))) 0 [] w0) as Ha0.
    { apply acct_kernel; [|done]. by rewrite eventfd_read_flight. }
    destruct (proj2 (submit_fetch_return fuel) w0) as (w' & Es & _).
    + simpl. by rewrite eventfd_read_flight.
    + pose proof (live_eventfd_read (aw_kernel w) (_efd (aw_aio w)) (_ctx (aw_aio w))).
      unfold work in *. simpl. lia.
    + exists w'. split; [done|].
      by destruct (proj2 (submit_fetch_keeps _ fuel) _ _ _ _ Ha0 Es) as (_ & _ & ?).
Qed.

Lemma aio_ready_blocks fuel w :
  in_flight (aw_kernel w) (_ctx (aw_aio w)) = [] → aio_ready (S fuel) w = Fail Blocked.
Proof.
  intros Hn. unfold aio_ready. rewrite fetch_events_S. simpl.
  by rewrite getevents_empty by (by rewrite eventfd_read_flight).
Qed.
End theorems.

(** Three requests through a context of two slots, with an interruption and
    resubmitting callbacks. *)
Definition demo_ops : list aio_op :=
  [OpSubmit (demo_iocb 1); OpSubmit (demo_iocb 2); OpSubmit (demo_iocb 3); OpReady].
Definition demo_start : aworld aio_sim nat := fresh_aworld (demo_sim [0; 0; 1; 1]%nat 1 1) 2%nat.
Definition demo_end : aworld aio_sim nat :=
  match aio_run 20 demo_ops demo_start with Ok w => w | Fail _ => demo_start end.

Lemma aio_exactly_once_witness :
  map aio_data (aw_accepted demo_end) ≡ₚ
    map ev_data (aw_events demo_end) ++ map aio_data (in_flight (aw_kernel demo_end) 1) ∧
  length (aw_events demo_end) = 4%nat ∧ length (aw_accepted demo_end) = 5%nat.
Proof.
  split_and!; [|vm_compute; reflexivity..].
  refine (proj1 (aio_exactly_once (demo_sim [0; 0; 1; 1]%nat 1 1) 2%nat 20 demo_ops demo_end _ _)).
  - vm_compute. discriminate.
  - vm_compute. reflexivity.
Defined.

Lemma aio_progress_witness :
  ∃ w', aio_ready 20 demo_end = Ok w' ∧ (length (aw_events demo_end) < length (aw_events w'))%nat.
Proof.
  refine (proj2 (aio_progress (demo_sim [0; 0; 1; 1]%nat 1 1) 2%nat 20 demo_ops demo_end
    (demo_iocb 9) 20 _ _ _) _).
  - vm_compute. discriminate.
  - vm_compute. reflexivity.
  - apply (bool_decide_unpack _). vm_compute. exact I.
  - vm_compute. discriminate.
Defined.

(** ** Hazards *)

(** [on_file_event] reads the event descriptor before it fetches, and fetches
    with [min_nr = 1] and no timeout.  A completion between the two calls is
    fetched at once but leaves the descriptor readable; when nothing else is in
    flight, the next wake-up blocks the loop's thread for ever. *)
Theorem aio_stale_wakeup_blocks :
  ∃ w1 w2 : aworld aio_sim nat,
    aio_run 5 [OpSubmit (demo_iocb 1); OpSubmit (demo_iocb 2)]
      (fresh_aworld (demo_sim [0; 1; 1]%nat 0 7) 0%nat) = Ok w1 ∧
    efd_count (aw_kernel w1) (_efd (aw_aio w1)) = 1 ∧
    aio_ready 5 w1 = Ok w2 ∧
    map ev_data (aw_events w2) = [1; 2]%nat ∧
    efd_count (aw_kernel w2) (_efd (aw_aio w2)) = 1 ∧
    ∀ fuel, aio_ready (S fuel) w2 = Fail Blocked.
Proof.
  eexists _, _. split; [vm_compute; reflexivity|]. split; [vm_compute; reflexivity|].
  split; [vm_compute; reflexivity|]. split; [vm_compute; reflexivity|].
  split; [vm_compute; reflexivity|]. intros fuel. by apply aio_ready_blocks.
Qed.

(** The kernel when [io_setup] fails: io_submit(2) answers [EINVAL] for a
    context that is not valid. *)
Lemma submit_spins {A U} `{!AioKernel A} `{!AioCallbacks U} (fuel : nat) (b : iocb)
    (w : aworld A U) :
  (∀ k b, ∃ k', io_submit k 0 b = (k', SubErr EINVAL)) →
  _ctx (aw_aio w) = 0 → submit fuel b w = Fail OutOfFuel.
Proof.
  intros Hk. revert w. induction fuel as [|fuel IH]; intros w Hc; [done|].
  rewrite submit_S, Hc. destruct (Hk (aw_kernel w) b) as [k' ->]. cbv zeta.
  change (EINVAL =? EAGAIN) with false. by apply IH.
Qed.

(** When [io_setup] fails the constructor only logs: the object keeps the
    context 0, and the first submission retries [EINVAL] for ever. *)
Theorem aio_setup_failure_spins {A U} `{!AioKernel A} `{!AioCallbacks U} (k : A) (u : U) b :
  (io_setup k _max_events).2 = None →
  (∀ k b, ∃ k', io_submit k 0 b = (k', SubErr EINVAL)) →
  event_fd (aw_aio (fresh_aworld k u)) = -1 ∧
  ∀ fuel, submit fuel b (fresh_aworld k u) = Fail OutOfFuel.
Proof.
  intros Hs Hk. unfold fresh_aworld, new_io_aio_impl.
  destruct (io_setup k _max_events) as [k1 r]. simpl in Hs. subst r.
  split; [done|]. intros fuel. by apply submit_spins.
Qed.

(** A kernel without AIO. *)
Definition no_aio_kernel : AioKernel unit := {|
  io_setup k _ := (k, None);
  io_destroy k _ := k;
  io_submit k _ _ := (k, SubErr EINVAL);
  io_getevents k _ _ _ := Some (k, GetErr EINVAL);
  eventfd k := (k, -1);
  eventfd_read k _ := k;
  close_fd k _ := k;
  in_flight _ _ := [];
  efd_count _ _ := 0;
  busy _ _ := O;
|}.

Lemma aio_setup_failure_spins_witness :
  submit (AioKernel0 := no_aio_kernel) 100 (demo_iocb 1)
    (fresh_aworld (AioKernel0 := no_aio_kernel) tt 0%nat) = Fail OutOfFuel.
Proof.
  refine (proj2 (aio_setup_failure_spins (AioKernel0 := no_aio_kernel) tt 0%nat (demo_iocb 1) _ _) _).
  - reflexivity.
  - intros k b. exists k. reflexivity.
Defined.
