(* ===== verification/AioInvariant.v ===== *)
(** * Invariants of the code behind the AIO callbacks

    A client of [Aio] is resumed from inside [fetch_events], and that may itself
    be running inside a submission of another coroutine.  [AioInvariant] says what
    such a client has to show about one resumption; the lemmas carry it through
    [submit] and [fetch_events], however deep they nest. *)

From S2P Require Import Prelude IoLoop Aio.

Section code.
Context {U : Type} (I : list iocb → list cb → list iocb → U → Prop).

(** [I q todo fl u]: the requests [q] are about to be submitted (one for each
    submission that is under way), the callbacks [todo] are fetched and not yet
    called, the requests [fl] are in flight.  While a coroutine submits, others
    run: it finds any state that satisfies [I] again. *)
Fixpoint code_ok (q : list iocb) (todo : list cb) (fl : list iocb) (p : code U) (u : U) : Prop :=
  match p with
  | CDone => I q todo fl u
  | CSubmit b upd k =>
      I (b :: q) todo fl u ∧ ∀ fl' u', I q todo fl' u' → code_ok q todo fl' (k u') (upd u')
  end.
End code.

Class AioInvariant {U : Type} `{!AioCallbacks U}
    (I : list iocb → list cb → list iocb → U → Prop) : Prop := {
  ai_perm q todo fl fl' u : fl ≡ₚ fl' → I q todo fl u → I q todo fl' u;
  ai_accept b q todo fl u : I (b :: q) todo fl u → I q todo (b :: fl) u;
  ai_fetch q todo fetched fl u :
    I q todo (fetched ++ fl) u → I q (map aio_data fetched ++ todo) fl u;
  ai_event q todo fl u e : I q (ev_data e :: todo) fl u →
    code_ok I q todo fl (on_aio_event (ev_data e) e u).2 (on_aio_event (ev_data e) e u).1;
}.

Section invariant.
Context {A U : Type} `{!AioKernel A} `{!AioLaws A} `{!AioCallbacks U}.
Context (I : list iocb → list cb → list iocb → U → Prop) `{!AioInvariant I}.
Variables c efd : Z.
Implicit Type w : aworld A U.

Definition aio_inv (q : list iocb) (todo : list cb) w : Prop :=
  _ctx (aw_aio w) = c ∧ _efd (aw_aio w) = efd ∧ I q todo (in_flight (aw_kernel w) c) (aw_user w).

Lemma aio_inv_kernel q todo k w :
  in_flight k c ≡ₚ in_flight (aw_kernel w) c → aio_inv q todo w → aio_inv q todo (aw_set_kernel k w).
Proof. intros Hk (? & ? & H). split_and!; [done..|]. by eapply ai_perm. Qed.

(** What [sub] has to guarantee when callbacks run on top of it. *)
Definition submits (sub : iocb → aworld A U → res (aworld A U)) : Prop :=
  ∀ b q todo w w', aio_inv (b :: q) todo w → sub b w = Ok w' → aio_inv q todo w'.

Lemma exec_code_inv sub q todo p w w' :
  submits sub → _ctx (aw_aio w) = c → _efd (aw_aio w) = efd →
  code_ok I q todo (in_flight (aw_kernel w) c) p (aw_user w) →
  exec_code sub p w = Ok w' → aio_inv q todo w'.
Proof.
  intros Hsub. revert w. induction p as [|b upd k IH]; intros w Hc He Hp E; simpl in E.
  - res_inv. by subst.
  - res_inv. destruct Hp as [Hp Hk]. apply (Hsub b q todo) in E0 as (Hc1 & He1 & H1); [|done].
    apply IH in E; [done..|]. simpl. by apply Hk.
Qed.

Lemma call_events_inv sub q todo evs w w' :
  submits sub → aio_inv q (map ev_data evs ++ todo) w →
  call_events sub evs w = Ok w' → aio_inv q todo w'.
Proof.
  intros Hsub. revert w. induction evs as [|e evs IH]; intros w Hw E; simpl in E.
  - res_inv. by subst.
  - res_inv. apply IH in E; [done|]. unfold aio_event in E0. destruct Hw as (Hc & He & Hw).
    pose proof (ai_event _ _ _ _ e Hw) as Hp. destruct (on_aio_event _ _ _) as [u p].
    by apply (exec_code_inv sub q (map ev_data evs ++ todo)) in E0.
Qed.

Lemma submit_fetch_inv fuel :
  submits (submit fuel) ∧
  (∀ q todo w w', aio_inv q todo w → fetch_events fuel w = Ok w' → aio_inv q todo w').
Proof.
  induction fuel as [|fuel [IHs IHf]]; [done|]. split.
  - intros b q todo w w' Hw E. rewrite submit_S in E. cbv zeta in E.
    destruct (io_submit _ _ _) as [k r] eqn:Ek. pose proof Hw as (Hc & He & HI).
    rewrite Hc in Ek. destruct r as [rc|e].
    + apply submit_ok in Ek as [-> Hk]. simpl in E. res_inv. subst w'. split_and!; [done..|].
      simpl. eapply ai_perm; [symmetry; exact Hk|]. by apply ai_accept.
    + apply submit_err in Ek. apply (aio_inv_kernel _ _ k) in Hw; [|done]. case_cond.
      * res_inv. apply (IHf (b :: q) todo) in E0; [|done]. by apply (IHs b q todo) in E.
      * by apply (IHs b q todo) in E.
  - intros q todo w w' Hw E. rewrite fetch_events_S in E. pose proof Hw as (Hc & He & HI).
    rewrite Hc in E. destruct (io_getevents _ _ _ _) as [[k [evs|e]]|] eqn:Ek; [| |done].
    + apply getevents_ok in Ek as (Hn & fetched & Hk & Hd); [|done].
      destruct evs as [|e evs]; [simpl in Hn; lia|]. cbv iota in E.
      set (es := e :: evs) in *. clearbody es. res_inv. subst w'.
      apply (call_events_inv _ q todo) in E0 as (? & ? & ?); [done|done|].
      split_and!; [done..|]. simpl. rewrite Hd. apply ai_fetch. by eapply ai_perm.
    + apply getevents_err in Ek. apply (IHf q todo) in E; [done|]. by apply aio_inv_kernel.
Qed.

Lemma aio_ready_inv fuel q todo w w' :
  aio_inv q todo w → aio_ready fuel w = Ok w' → aio_inv q todo w'.
Proof.
  intros Hw E. apply (proj2 (submit_fetch_inv fuel) q todo) in E; [done|].
  apply aio_inv_kernel; [|done]. by rewrite eventfd_read_flight.
Qed.
End invariant.
