(* ===== verification/Fio.v ===== *)
(** * File I/O of a context ([coio/fd_aio.cpp], [coio/fio_awaiter.h],
      [coio/io_context.h])

    [aio_read] and [aio_write] of the AIO object and of the context, and the
    awaiters [aio_read_block] and [aio_write_block]: which request the kernel gets
    for which buffer, and what the awaiting coroutine is told. *)

From S2P Require Import Prelude ByteBuffer IoLoop IoLoopFacts Aio AioProps.

Section fio.
Context {A U M : Type} `{!AioKernel A} `{!AioCallbacks U}.
Context `{!Allocator M} `{!MultimapFind byte_buffer_data}.
Variable ndebug : bool.
Implicit Type w : aworld A U.

(** [io_aio_impl::aio_read] and [aio_write] (both return 0).  [count] is a
    [size_t], [set_data_len] takes a [uint32_t]. *)
Definition aio_read (fuel : nat) (fd offset count : Z) (buff : byte_buffer_impl) (icb : cb) w
    : res (aworld A U * byte_buffer_impl) :=
  let buff := set_data_begin 0 buff in
  let buff := set_data_len (u32 count) buff in
  w ← submit fuel (set_iocb fd false offset (data buff) count (_efd (aw_aio w)) icb) w;
  Ok (w, buff).
Definition aio_write (fuel : nat) (fd offset : Z) (buff : byte_buffer_impl) (icb : cb) w
    : res (aworld A U) :=
  submit fuel (set_iocb fd true offset (data buff) (data_len buff) (_efd (aw_aio w)) icb) w.

(** [io_context::aio_read] and [aio_write].  [has_aio]: the context was made
    with [use_aio].  A buffer that was there before (only without assertions) is
    destroyed at the end of the statement. *)
Definition ctx_aio_read (has_aio : bool) (fuel : nat) (fd offset count : Z)
    (buff : option byte_buffer_impl) (icb : cb) (m : M) (p : buffer_pool) w
    : res (M * buffer_pool * aworld A U * byte_buffer_impl) :=
  c_assert ndebug (match buff with None => true | Some _ => false end) ≫= λ _,
  '(m, p, b) ← malloc m p (u32 count) 12 0;
  '(m, p) ← (match buff with
             | None => Ok (m, p)
             | Some old => byte_buffer_destroy m p old
             end);
  require has_aio NullDeref ≫= λ _,
  '(w, b) ← aio_read fuel fd offset count b icb w;
  Ok (m, p, w, b).
Definition ctx_aio_write (has_aio : bool) (fuel : nat) (fd offset : Z)
    (buff : option byte_buffer_impl) (icb : cb) w : res (aworld A U) :=
  require has_aio NullDeref ≫= λ _,
  match buff with
  | None => Fail NullDeref
  | Some b => aio_write fuel fd offset b icb w
  end.

(** The constructors of [aio_read_block] and [aio_write_block]; [this] is the
    awaiter. *)
Definition aio_read_block (has_aio : bool) (fuel : nat) (fd offset count : Z)
    (buff : option byte_buffer_impl) (this : cb) (m : M) (p : buffer_pool) w
    : res (M * buffer_pool * aworld A U * byte_buffer_impl) :=
  ctx_aio_read has_aio fuel fd offset count buff this m p w.
Definition aio_write_block (has_aio : bool) (fuel : nat) (fd offset : Z)
    (buff : option byte_buffer_impl) (this : cb) w : res (aworld A U) :=
  ctx_aio_write has_aio fuel fd offset buff this w.

(** [aio_block_rw::on_aio_event] up to the resumption: [_result] and [errno]. *)
Definition aio_block_event (e : io_event) (result errno : Z) : Z * Z :=
  if ev_res2 e <? 0 then (result, i32 (ev_res e)) else (i32 (ev_res e), errno).

(** [io_awaiter]: [_result = -1] until the event, [await_resume] returns it. *)
Definition aio_block_resume (e : io_event) : Z := (aio_block_event e (-1) 0).1.

(** The bytes [aio_buf .. aio_buf + aio_nbytes) lie inside the buffer's block. *)
Definition inside (r : iocb) (b : byte_buffer_impl) : Prop :=
  base b <= aio_buf r ∧ aio_buf r + aio_nbytes r <= base b + capacity b.
End fio.

Section requests.
Context {A U M : Type} `{!AioKernel A} `{!AioCallbacks U} `{!AioLaws A} `{!AioLive A} `{!AioBounded U}.
Context `{!Allocator M} `{!AllocatorLaws M} `{!MultimapFind byte_buffer_data}.
Variable ndebug : bool.
Implicit Type w : aworld A U.

Lemma i64_u64_small x : 0 <= x < 2 ^ 63 → i64 (u64 x) = x.
Proof. intros. unfold i64. rewrite u64_small, Z.mod_small by lia. lia. Qed.

(** A request into a block that starts at a page and holds [u32 count] bytes. *)
Lemma ctx_aio_read_spec fuel fd offset count icb m p w c :
  request_ok (u32 count) 12 0 → Forall (λ e, e.1 = key e.2 ∧ data_ok e.2) (_cache p) →
  acct c 0 [] w → (2 * work w + 2 ≤ fuel)%nat →
  ∃ m' p' w' b l,
    ctx_aio_read ndebug true fuel fd offset count None icb m p w = Ok (m', p', w', b) ∧
    aw_accepted w' = aw_accepted w ++ l ++
      [set_iocb fd false offset (data b) count (_efd (aw_aio w)) icb] ∧
    data b = base b ∧ data_len b = u32 count ∧ (2 ^ 12 | base b) ∧
    u32 count <= capacity b < 2 ^ 32.
Proof.
  intros Hr Hc Ha Hf. unfold ctx_aio_read.
  assert (c_assert ndebug true = Ok tt) as -> by (by destruct ndebug). cbn [mbind res_bind].
  destruct (malloc_spec m p _ _ _ Hr Hc) as (m' & p' & d & E & (Hal & Hd0 & Hdd & _ & Hl32 & _) & Hlen & Hk & _).
  rewrite E. cbn [mbind res_bind require]. unfold aio_read.
  set (b := set_data_len (u32 count) (set_data_begin 0 (new_byte_buffer_impl (header_of 12 0) d))).
  assert (data b = base b) as Hb by (unfold data, base, b; simpl; rewrite u16_small; lia).
  destruct (proj1 (submit_fetch_return fuel)
    (set_iocb fd false offset (data b) count (_efd (aw_aio w)) icb) w) as (w' & Es & _); [lia|].
  destruct (proj1 (submit_fetch_keeps c fuel) _ _ _ _ _ Ha Es) as (_ & _ & [l Hl]).
  rewrite Es. cbn [mbind res_bind]. exists m', p', w', b, l.
  split; [done|]. split; [done|]. split; [done|]. split; [done|].
  unfold base, capacity. simpl. rewrite Hk in Hdd. split; [done|].
  destruct Hr as (_ & H0 & _). pose proof (body_of_ge 12 (u32 count) ltac:(lia)).
  pose proof (header_of_nonneg 12 0). unfold total_of in Hlen. lia.
Qed.

(** [co_await aio_read_block(fd, offset, count, buff)]: for a count the pool
    can serve, the constructor returns, and the kernel has accepted one read of
    [count] bytes at [offset] with this awaiter as its callback and the event
    descriptor to signal, into page-aligned memory that lies inside the block of
    the buffer, whose data window is exactly those bytes. *)
Theorem aio_read_block_request fuel fd offset count icb m p w c
  (Hreq : request_ok count 12 0) (Hoff : 0 <= offset < 2 ^ 63)
  (Hcache : Forall (λ e, e.1 = key e.2 ∧ data_ok e.2) (_cache p))
  (Hacct : acct c 0 [] w) (Hfuel : (2 * work w + 2 ≤ fuel)%nat) :
  ∃ m' p' w' b l r,
    aio_read_block ndebug true fuel fd offset count None icb m p w = Ok (m', p', w', b) ∧
    aw_accepted w' = aw_accepted w ++ l ++ [r] ∧
    aio_data r = icb ∧ aio_lio_opcode r = IOCB_CMD_PREAD ∧ aio_offset r = offset ∧
    aio_nbytes r = count ∧ aio_resfd r = u32 (event_fd (aw_aio w)) ∧
    inside r b ∧ (2 ^ 12 | aio_buf r) ∧ aio_buf r = data b ∧ data_len b = count.
Proof.
  pose proof Hreq as (_ & H0 & _ & _ & Ht & _).
  pose proof (body_of_ge 12 count ltac:(lia)). pose proof (header_of_nonneg 12 0).
  assert (u32 count = count) as Hu by (apply u32_small; unfold total_of in Ht; lia).
  destruct (ctx_aio_read_spec fuel fd offset count icb m p w c)
    as (m' & p' & w' & b & l & E & Hl & Hd & Hdl & Hdiv & Hcap); rewrite ?Hu; auto.
  rewrite Hu in Hdl, Hcap. eexists m', p', w', b, l, _.
  split; [exact E|]. split; [exact Hl|]. unfold inside. simpl. rewrite Hd, i64_u64_small by done.
  split_and!; auto; lia.
Qed.

(** [count] is a [size_t], the pool takes a [uint32_t]: for a count of
    4 GiB or more the kernel is asked to store [count] bytes into a block smaller
    than that. *)
Theorem aio_read_count_overruns fuel fd offset count icb m p w c
  (Hbig : 2 ^ 32 <= count) (Hreq : request_ok (u32 count) 12 0)
  (Hcache : Forall (λ e, e.1 = key e.2 ∧ data_ok e.2) (_cache p))
  (Hacct : acct c 0 [] w) (Hfuel : (2 * work w + 2 ≤ fuel)%nat) :
  ∃ m' p' w' b l r,
    ctx_aio_read ndebug true fuel fd offset count None icb m p w = Ok (m', p', w', b) ∧
    aw_accepted w' = aw_accepted w ++ l ++ [r] ∧ ¬ inside r b.
Proof.
  destruct (ctx_aio_read_spec fuel fd offset count icb m p w c)
    as (m' & p' & w' & b & l & E & Hl & Hd & Hdl & Hdiv & Hcap); auto.
  eexists m', p', w', b, l, _. split; [exact E|]. split; [exact Hl|].
  unfold inside. simpl. rewrite Hd. lia.
Qed.

(** [aio_write] sends the data window, with the lengths unchanged. *)
Lemma ctx_aio_write_spec fuel fd offset b icb w c :
  acct c 0 [] w → (2 * work w + 2 ≤ fuel)%nat →
  0 <= _data_begin b → _data_begin b + _data_len b <= capacity b →
  ∃ w' l r, ctx_aio_write true fuel fd offset (Some b) icb w = Ok w' ∧
    aw_accepted w' = aw_accepted w ++ l ++ [r] ∧ aio_data r = icb ∧
    aio_lio_opcode r = IOCB_CMD_PWRITE ∧ aio_buf r = data b ∧ aio_nbytes r = data_len b ∧ inside r b.
Proof.
  intros Ha Hf H0 Hw. unfold ctx_aio_write, aio_write. cbn [require mbind res_bind].
  destruct (proj1 (submit_fetch_return fuel)
    (set_iocb fd true offset (data b) (data_len b) (_efd (aw_aio w)) icb) w) as (w' & Es & _); [lia|].
  destruct (proj1 (submit_fetch_keeps c fuel) _ _ _ _ _ Ha Es) as (_ & _ & [l Hl]).
  eexists w', l, _. split; [done|]. split; [exact Hl|].
  unfold inside, data, data_len, base. simpl. split_and!; auto; lia.
Qed.

(** What the coroutine gets: the transferred count or, as Linux reports errors
    in [res] with [res2 = 0], the negative error number; -1 only for [res2 < 0]. *)
Lemma aio_block_resume_spec e :
  - 2 ^ 31 <= ev_res e < 2 ^ 31 →
  aio_block_resume e = if ev_res2 e <? 0 then -1 else ev_res e.
Proof. intros. unfold aio_block_resume, aio_block_event. case_cond; simpl; [done|]. by apply i32_small. Qed.
End requests.

(** ** The event descriptor's callback *)

Section rearm.
Context {K V A : Type} `{!Epoll K} `{!AioKernel A} `{!AioCallbacks (world K V)}.
Implicit Type w : aworld A (world K V).

(** [io_aio_impl::on_file_event]: the loop has cleared [_func_r] of [es], which
    is [_fds[fd]]; the callbacks run in between must not move the table. *)
Definition aio_on_file_event (fuel : nat) (self : cb) (fd : Z) w : res (aworld A (world K V)) :=
  let e0 := epoch (aw_user w) in
  w ← aio_ready fuel w;
  require (bool_decide (epoch (aw_user w) = e0)) DanglingRef ≫= λ _,
  fe ← fds_at (w_loop (aw_user w)) fd;
  Ok (aw_set_user
        (on_loop (fds_put fd (EsFile (_fd fe) (_event fe) (_func_w fe) (Some self))) (aw_user w)) w).

(** Afterwards the AIO object waits for its descriptor again. *)
Lemma aio_on_file_event_rearms fuel self fd w w' :
  aio_on_file_event fuel self fd w = Ok w' →
  sub (w_loop (aw_user w')) fd DirR = Some self ∧ epoch (aw_user w') = epoch (aw_user w).
Proof.
  unfold aio_on_file_event. intros E. res_inv. subst w'. simpl.
  match goal with H : bool_decide _ = true |- _ => apply bool_decide_eq_true in H end.
  split; [|done]. match goal with H : fds_at _ _ = Ok _ |- _ => rename H into Hat end.
  unfold fds_at in Hat. destruct (fd <? 0) eqn:Hneg; [done|]. bool_prop.
  destruct (_ !! _) as [fe|] eqn:El; [|done]. apply lookup_lt_Some in El.
  unfold sub. rewrite ent_put by lia. by rewrite decide_True.
Qed.
End rearm.

Lemma aio_read_block_request_witness :
  let w := fresh_aworld (demo_sim [] 1 3) 1%nat in
  ∃ m' p' w' b l r,
    aio_read_block false true 20 7 8192 1000 None 3%nat (∅ : gmap Z Z) (new_inst 0) w
      = Ok (m', p', w', b) ∧
    aw_accepted w' = aw_accepted w ++ l ++ [r] ∧
    aio_data r = 3%nat ∧ aio_lio_opcode r = IOCB_CMD_PREAD ∧ aio_offset r = 8192 ∧
    aio_nbytes r = 1000 ∧ aio_resfd r = u32 (event_fd (aw_aio w)) ∧
    inside r b ∧ (2 ^ 12 | aio_buf r) ∧ aio_buf r = data b ∧ data_len b = 1000.
Proof.
  apply (aio_read_block_request false 20 7 8192 1000 3%nat (∅ : gmap Z Z) (new_inst 0)
    (fresh_aworld (demo_sim [] 1 3) 1%nat) 1).
  - apply (bool_decide_unpack _). vm_compute. exact I.
  - lia.
  - constructor.
  - split; vm_compute; reflexivity.
  - apply (bool_decide_unpack _). vm_compute. exact I.
Defined.

Lemma aio_read_count_overruns_witness :
  let w := fresh_aworld (demo_sim [] 1 3) 1%nat in
  ∃ m' p' w' b l r,
    ctx_aio_read false true 20 7 0 (2 ^ 32 + 4096) None 3%nat (∅ : gmap Z Z) (new_inst 0) w
      = Ok (m', p', w', b) ∧
    aw_accepted w' = aw_accepted w ++ l ++ [r] ∧ ¬ inside r b.
Proof.
  apply (aio_read_count_overruns false 20 7 0 (2 ^ 32 + 4096) 3%nat (∅ : gmap Z Z) (new_inst 0)
    (fresh_aworld (demo_sim [] 1 3) 1%nat) 1).
  - lia.
  - apply (bool_decide_unpack _). vm_compute. exact I.
  - constructor.
  - split; vm_compute; reflexivity.
  - apply (bool_decide_unpack _). vm_compute. exact I.
Defined.
