(* ===== verification/Disk.v ===== *)
(** * The disk writers ([test/test-diskw.cpp])

    [write_disk] on a context with AIO: every coroutine takes a page-aligned
    buffer from the pool, fills it, and writes it to random places of its device,
    one request at a time, until a write fails or [force_quit] is set.  Resumptions
    come from inside [fetch_events], possibly while another writer is submitting. *)

From S2P Require Import Prelude StdHeap ByteBuffer IoLoop NioAwaiter RequestProps.
From S2P Require Import EchoServer PoolClient Aio AioProps AioInvariant Fio.

(** A suspended [write_disk]: its descriptor, its buffer with the memory behind
    it, and what the generator still draws.  After the last draw the loop finds
    [force_quit] set. *)
Record writer := Writer {
  wr_fd : Z;
  wr_buff : byte_buffer_impl * list Z;
  wr_offs : list Z;
}.

(** [force_quit], and what the writers share: the pool, its heap, the event
    descriptor of the AIO object.  [dk_next] numbers the coroutine frames;
    [dk_opened] and [dk_closed] are the history of the descriptors; [dk_fault]
    records an operation that has gone wrong. *)
Record disk {M : Type} := Disk {
  dk_heap : M;
  dk_pool : buffer_pool;
  dk_efd : Z;
  dk_writers : gmap nat writer;
  dk_next : nat;
  dk_opened : list Z;
  dk_closed : list Z;
  dk_quit : bool;
  dk_fault : bool;
}.
Arguments disk : clear implicits.
Arguments Disk {M} _ _ _ _ _ _ _ _ _.

Section write_disk.
Context {M : Type} `{!Allocator M} `{!MultimapFind byte_buffer_data}.
Implicit Type u : disk M.

Definition dk_fail u : disk M :=
  Disk (dk_heap u) (dk_pool u) (dk_efd u) (dk_writers u) (dk_next u) (dk_opened u) (dk_closed u)
    (dk_quit u) true.
Definition dk_suspend (c : cb) (x : writer) u : disk M :=
  Disk (dk_heap u) (dk_pool u) (dk_efd u) (<[c := x]> (dk_writers u)) (dk_next u) (dk_opened u)
    (dk_closed u) (dk_quit u) (dk_fault u).
Definition dk_set_quit u : disk M :=
  Disk (dk_heap u) (dk_pool u) (dk_efd u) (dk_writers u) (dk_next u) (dk_opened u) (dk_closed u)
    true (dk_fault u).

(** After the loop: [close], [force_quit = 1], and [buff] leaves its scope. *)
Definition write_end (c : cb) (x : writer) u : disk M :=
  let '(m, p, bad) :=
    match drop_buffer (Some (wr_buff x)) (dk_heap u) (dk_pool u) with
    | Ok (m, p) => (m, p, dk_fault u)
    | Fail _ => (dk_heap u, dk_pool u, true)
    end in
  Disk m p (dk_efd u) (delete c (dk_writers u)) (dk_next u) (dk_opened u)
    (dk_closed u ++ [wr_fd x]) true bad.

(** The request of [aio_write_block(fd, off, buff)] for an offset drawn. *)
Definition write_iocb (efd : Z) (c : cb) (fd off : Z) (b : byte_buffer_impl) : iocb :=
  set_iocb fd true (u64 (Z.shiftl off 20)) (data b) (data_len b) efd c.

(** The head of the loop up to the next suspension. *)
Definition write_next (c : cb) (x : writer) u : disk M * code (disk M) :=
  match dk_quit u, wr_offs x with
  | false, off :: offs =>
      (dk_suspend c (Writer (wr_fd x) (wr_buff x) offs) u,
       CSubmit (write_iocb (dk_efd u) c (wr_fd x) off (wr_buff x).1) id (λ _, CDone))
  | _, _ => (write_end c x u, CDone)
  end.

(** The resumption with the result of the write. *)
Definition write_resume (c : cb) (e : io_event) u : disk M * code (disk M) :=
  match dk_writers u !! c with
  | None => (dk_fail u, CDone)
  | Some x => if aio_block_resume e <? 0 then (write_end c x u, CDone) else write_next c x u
  end.

#[export] Instance disk_callbacks : AioCallbacks (disk M) := write_resume.

Context {A : Type} `{!AioKernel A}.
Variable uninit : byte_buffer_impl → list Z.
Variables (has_aio : bool) (bs : Z).
Implicit Type w : aworld A (disk M).

(** [this_context->aio_write]: [has_aio] says whether the context has an AIO
    object. *)
Definition ctx_submit (fuel : nat) (b : iocb) w : res (aworld A (disk M)) :=
  require has_aio NullDeref ≫= λ _, submit fuel b w.

(** [write_disk] up to its first suspension; [fd] is what [open] returned, 88 is
    the letter X. *)
Definition write_disk (fuel : nat) (fd : Z) (offs : list Z) w : res (aworld A (disk M)) :=
  if fd <? 0 then Ok w
  else
    let u := aw_user w in
    '(m, p, b) ← malloc (dk_heap u) (dk_pool u) bs 12 0;
    let b := set_data_len bs (set_data_begin 0 b) in
    mem ← block_write b (uninit b) 0 (replicate (Z.to_nat bs) 88);
    let u := Disk m p (dk_efd u) (dk_writers u) (S (dk_next u)) (dk_opened u ++ [fd]) (dk_closed u)
               (dk_quit u) (dk_fault u) in
    let '(u, p) := write_next (pred (dk_next u)) (Writer fd (b, mem) offs) u in
    exec_code (ctx_submit fuel) p (aw_set_user u w).

(** What the loop runs: a spawned writer, a wake-up of the event descriptor; and
    the signal handler, which sets [force_quit]. *)
Inductive disk_op := DStart (fd : Z) (offs : list Z) | DReady | DQuit.

Definition disk_step (fuel : nat) (op : disk_op) w : res (aworld A (disk M)) :=
  match op with
  | DStart fd offs => write_disk fuel fd offs w
  | DReady => aio_ready fuel w
  | DQuit => Ok (aw_set_user (dk_set_quit (aw_user w)) w)
  end.

Fixpoint disk_run (fuel : nat) (ops : list disk_op) w : res (aworld A (disk M)) :=
  match ops with
  | [] => Ok w
  | op :: ops => w ← disk_step fuel op w; disk_run fuel ops w
  end.

(** A context created with AIO, before the first writer.  (The program itself creates
    one without: [writers_need_aio].) *)
Definition disk_start (limit : Z) (m : M) (k : A) : aworld A (disk M) :=
  fresh_aworld k (Disk m (new_inst limit) (event_fd (aio_new_inst k).2) ∅ 0 [] [] false false).
End write_disk.

(** ** The invariant *)

Section invariant.
Context {M : Type} `{!Allocator M} `{!AllocatorLaws M}.
Context `{!MultimapFind byte_buffer_data}.
Variables bs efd : Z.
Implicit Type u : disk M.

(** [std::uniform_int_distribution<> distrib(1 << 10, 10 << 10)] *)
Definition drawn (off : Z) : Prop := 2 ^ 10 <= off <= 10 * 2 ^ 10.

Record writer_ok (x : writer) : Prop := {
  wo_fd : 0 <= wr_fd x;
  wo_nonnull : nonnull (wr_buff x).1;
  wo_data : data (wr_buff x).1 = base (wr_buff x).1;
  wo_len : data_len (wr_buff x).1 = bs;
  wo_page : (2 ^ 12 | base (wr_buff x).1);
  wo_cap : bs <= capacity (wr_buff x).1;
  wo_mem : window (wr_buff x) = replicate (Z.to_nat bs) 88;
  wo_offs : Forall drawn (wr_offs x);
}.

(** The write of a whole buffer, with the alignment [O_DIRECT] asks for, to a
    place between 1 GiB and 10 GiB. *)
Record writes (x : writer) (r : iocb) : Prop := {
  ws_op : aio_lio_opcode r = IOCB_CMD_PWRITE;
  ws_fd : aio_fildes r = wr_fd x mod 2 ^ 32;
  ws_buf : aio_buf r = data (wr_buff x).1;
  ws_len : aio_nbytes r = bs;
  ws_inside : inside r (wr_buff x).1;
  ws_page : (2 ^ 12 | aio_buf r);
  ws_place : (2 ^ 20 | aio_offset r) ∧ 2 ^ 30 <= aio_offset r <= 10 * 2 ^ 30;
  ws_efd : aio_resfd r = u32 efd;
}.

Definition frames (ws : gmap nat writer) : list nat := (map_to_list ws).*1.
Definition buffers : gmap nat writer → list byte_buffer_impl := collect (λ x, [(wr_buff x).1]).
Definition devices : gmap nat writer → list Z := collect (λ x, [wr_fd x]).

(** Every suspended writer waits for exactly one request: one that is in flight,
    or completed and about to be handed to it, or about to be submitted. *)
Record disk_ok (q : list iocb) (todo : list cb) (fl : list iocb) u : Prop := {
  dk_frames : frames (dk_writers u) ≡ₚ map aio_data q ++ todo ++ map aio_data fl;
  dk_requests : Forall (λ r, ∃ x, dk_writers u !! aio_data r = Some x ∧ writes x r) (q ++ fl);
  dk_writers_ok : ∀ c x, dk_writers u !! c = Some x → writer_ok x ∧ (c < dk_next u)%nat;
  dk_buffers : pool_holds (dk_heap u) (dk_pool u) [] (buffers (dk_writers u));
  dk_devices : dk_opened u ≡ₚ dk_closed u ++ devices (dk_writers u);
  dk_quitting : dk_closed u ≠ [] → dk_quit u = true;
  dk_no_fault : dk_fault u = false;
  dk_event_fd : dk_efd u = efd;
}.

Lemma frames_insert ws c x : frames (<[c := x]> ws) ≡ₚ c :: frames (delete c ws).
Proof.
  unfold frames. rewrite <- insert_delete_eq, map_to_list_insert by apply lookup_delete_eq. done.
Qed.
Lemma frames_lookup ws c x : ws !! c = Some x → frames ws ≡ₚ c :: frames (delete c ws).
Proof. intros H. rewrite <- (frames_insert ws c x). by rewrite insert_id. Qed.
Lemma frames_elem ws c : c ∈ frames ws ↔ is_Some (ws !! c).
Proof.
  unfold frames. rewrite list_elem_of_fmap. split.
  - intros ([c' x] & -> & H%elem_of_map_to_list). by exists x.
  - intros [x H%elem_of_map_to_list]. by exists (c, x).
Qed.
Lemma frames_NoDup ws : NoDup (frames ws).
Proof. apply NoDup_fst_map_to_list. Qed.

(** A writer that is being resumed has no request anywhere. *)
Lemma resumed_alone q todo fl u c r :
  disk_ok q (c :: todo) fl u → r ∈ q ++ fl → aio_data r ≠ c.
Proof.
  intros [Hk _ _ _ _ _ _ _] Hr Hc. pose proof (frames_NoDup (dk_writers u)) as Hnd.
  rewrite Hk in Hnd. simpl in Hnd. rewrite <- Permutation_middle in Hnd.
  apply NoDup_cons in Hnd as [Hnd _]. apply Hnd. rewrite <- Hc.
  apply elem_of_app in Hr as [Hr|Hr]; apply (list_elem_of_fmap_2 aio_data) in Hr;
    rewrite !elem_of_app; auto.
Qed.

Lemma requests_other q todo fl u c (f : gmap nat writer → gmap nat writer) :
  disk_ok q (c :: todo) fl u → (∀ c', c' ≠ c → f (dk_writers u) !! c' = dk_writers u !! c') →
  Forall (λ r, ∃ x, f (dk_writers u) !! aio_data r = Some x ∧ writes x r) (q ++ fl).
Proof.
  intros H Hf. apply Forall_forall. intros r Hr. rewrite Hf by (by eapply resumed_alone).
  pose proof (dk_requests _ _ _ _ H) as Hq. rewrite Forall_forall in Hq. by apply Hq.
Qed.

Lemma todo_lookup q todo fl u c : disk_ok q (c :: todo) fl u → is_Some (dk_writers u !! c).
Proof.
  intros [Hk _ _ _ _ _ _ _]. apply frames_elem. rewrite Hk, !elem_of_app. right. left.
  apply list_elem_of_here.
Qed.

Lemma write_end_ok q todo fl u c x :
  disk_ok q (c :: todo) fl u → dk_writers u !! c = Some x → disk_ok q todo fl (write_end c x u).
Proof.
  intros H Hx. pose proof (requests_other q todo fl u c (delete c) H) as Hreq.
  destruct H as [Hk _ Hw Hp Hd Hq Hf He]. destruct (Hw c x Hx) as [Hxok _].
  unfold write_end. unfold buffers in Hp. destruct (drop_ok (Some (wr_buff x)) (dk_heap u) (dk_pool u)
    (buffers (delete c (dk_writers u)))) as (m' & p' & -> & Hp').
  { revert Hp. apply pool_holds_perm. simpl. rewrite (collect_lookup _ _ c x) by done.
    by destruct (wr_buff x). }
  { destruct Hxok as [_ Hn _ _ _ _ _ _]. destruct (wr_buff x). by apply Forall_singleton. }
  split; simpl; [| | |done| |done|done|done].
  - rewrite (frames_lookup _ c x Hx) in Hk. simpl in Hk. rewrite <- Permutation_middle in Hk.
    by apply Permutation_cons_inv in Hk.
  - apply Hreq. intros c' Hne. by apply lookup_delete_ne.
  - intros c' y [_ Hy]%lookup_delete_Some. by apply Hw.
  - rewrite Hd. unfold devices. rewrite (collect_lookup _ _ c x) by done. by rewrite <- app_assoc.
Qed.

Lemma write_iocb_writes c x off offs :
  writer_ok x → drawn off →
  writes (Writer (wr_fd x) (wr_buff x) offs) (write_iocb efd c (wr_fd x) off (wr_buff x).1).
Proof.
  intros [Hfd _ Hd Hl Hpg Hcap _ _] [Ho1 Ho2].
  assert (aio_offset (write_iocb efd c (wr_fd x) off (wr_buff x).1) = off * 2 ^ 20) as Hoff.
  { simpl. rewrite Z.shiftl_mul_pow2 by done. rewrite (u64_small (off * _)) by lia.
    apply i64_u64_small. lia. }
  split; [done|done|done|done| | | |done].
  - unfold inside. simpl. lia.
  - simpl. by rewrite Hd.
  - rewrite Hoff. split; [by apply Z.divide_factor_r|lia].
Qed.

Lemma write_next_ok q todo fl u c x :
  disk_ok q (c :: todo) fl u → dk_writers u !! c = Some x →
  code_ok disk_ok q todo fl (write_next c x u).2 (write_next c x u).1.
Proof.
  intros H Hx. unfold write_next.
  destruct (dk_quit u) eqn:Hquit; [by eapply write_end_ok|].
  destruct (wr_offs x) as [|off offs] eqn:Ho; [by eapply write_end_ok|]. split; [|done].
  set (x' := Writer _ _ _).
  pose proof (requests_other q todo fl u c (insert c x') H) as Hreq.
  destruct H as [Hk _ Hw Hp Hd Hq Hf He]. destruct (Hw c x Hx) as [Hxok Hc]. pose proof Hxok as Hoffs%wo_offs.
  rewrite Ho in Hoffs. apply Forall_cons in Hoffs as [Hoff Hoffs].
  split; cbn [dk_suspend dk_writers dk_next dk_heap dk_pool dk_opened dk_closed dk_quit dk_fault dk_efd fst];
    [| | | | |done|done|done].
  - rewrite (frames_lookup _ c x Hx) in Hk. rewrite frames_insert, Hk. simpl.
    by rewrite <- Permutation_middle.
  - constructor.
    + exists x'. split; [apply lookup_insert_eq|]. rewrite He. by apply write_iocb_writes.
    + apply Hreq. intros c' Hne. by apply lookup_insert_ne.
  - intros c' y [[<- <-]|[_ Hy]]%lookup_insert_Some; [|by apply Hw]. split; [|done].
    by destruct Hxok; split.
  - revert Hp. apply pool_holds_perm. unfold buffers.
    by rewrite collect_insert, (collect_lookup _ _ c x) by done.
  - rewrite Hd. unfold devices. by rewrite collect_insert, (collect_lookup _ _ c x) by done.
Qed.

#[export] Instance disk_invariant : AioInvariant disk_ok.
Proof.
  split.
  - intros q todo fl fl' u Hfl [Hk Hr Hw Hp Hd Hq Hf He]. split; try done; by rewrite <- Hfl.
  - intros b q todo fl u [Hk Hr Hw Hp Hd Hq Hf He]. split; try done.
    + rewrite Hk. simpl. by rewrite <- !Permutation_middle.
    + by rewrite <- Permutation_middle.
  - intros q todo fetched fl u [Hk Hr Hw Hp Hd Hq Hf He]. split; try done.
    + rewrite Hk, map_app, !app_assoc. f_equiv. rewrite <- !app_assoc. f_equiv.
      apply Permutation_app_comm.
    + rewrite !Forall_app in *. tauto.
  - intros q todo fl u e H. unfold on_aio_event, disk_callbacks, write_resume.
    destruct (todo_lookup _ _ _ _ _ H) as [x Hx]. rewrite Hx.
    case_cond; [by eapply write_end_ok|by apply write_next_ok].
Qed.

(** ** A writer pays for its submissions with the offsets it still draws *)

Definition draws (ws : gmap nat writer) : nat := length (collect wr_offs ws).

Lemma draws_lookup ws c x : ws !! c = Some x → draws ws = (length (wr_offs x) + draws (delete c ws))%nat.
Proof.
  intros H. unfold draws. rewrite <- length_app. apply Permutation_length. by apply collect_lookup.
Qed.
Lemma draws_insert ws c x : draws (<[c := x]> ws) = (length (wr_offs x) + draws (delete c ws))%nat.
Proof. unfold draws. rewrite <- length_app. apply Permutation_length, collect_insert. Qed.
Lemma draws_delete ws c : (draws (delete c ws) ≤ draws ws)%nat.
Proof.
  destruct (ws !! c) as [x|] eqn:Hx; [|by rewrite delete_id].
  rewrite (draws_lookup _ _ _ Hx). lia.
Qed.

Lemma write_end_draws c x u :
  (draws (dk_writers (write_end c x u)) ≤ draws (dk_writers u))%nat.
Proof. unfold write_end. destruct (drop_buffer _ _ _) as [[m p]|]; apply draws_delete. Qed.

Lemma write_next_draws c x u :
  dk_writers u !! c = Some x →
  ∃ n, code_le (λ u, draws (dk_writers u)) n (write_next c x u).2 ∧
    (draws (dk_writers (write_next c x u).1) + n ≤ draws (dk_writers u))%nat.
Proof.
  intros Hx. pose proof (write_end_draws c x u) as He. unfold write_next.
  destruct (dk_quit u), (wr_offs x) as [|off offs] eqn:Ho;
    try (exists 0%nat; split; [constructor|cbn [fst]; lia]).
  exists 1%nat. split; [constructor; [done|constructor]|].
  simpl. rewrite draws_insert, (draws_lookup _ _ _ Hx), Ho. simpl. lia.
Qed.

#[export] Instance disk_bounded : AioBounded (disk M).
Proof.
  refine {| credit := λ u, draws (dk_writers u) |}. intros c e u.
  unfold on_aio_event, disk_callbacks, write_resume. destruct (dk_writers u !! c) as [x|] eqn:Hx.
  - case_cond; [|by apply write_next_draws].
    exists 0%nat. split; [constructor|]. pose proof (write_end_draws c x u). simpl. lia.
  - exists 0%nat. split; [constructor|]. simpl. lia.
Defined.
End invariant.

(** ** Runs *)

Section runs.
Context {M : Type} `{!Allocator M} `{!AllocatorLaws M}.
Context `{!MultimapFind byte_buffer_data}.
Context {A : Type} `{!AioKernel A} `{!AioLaws A} `{!AioLive A}.
Variable uninit : byte_buffer_impl → list Z.
Hypothesis Huninit : ∀ b, 0 <= capacity b → Z.of_nat (length (uninit b)) = capacity b.
Variables bs c efd : Z.
Hypothesis Hbs : request_ok bs 12 0.
Implicit Type u : disk M.
Implicit Type w : aworld A (disk M).

Lemma write_next_suspend n x u : write_next n x (dk_suspend n x u) = write_next n x u.
Proof.
  unfold write_next, write_end, dk_suspend. simpl.
  destruct (dk_quit u), (wr_offs x); rewrite ?delete_insert_eq, ?insert_insert_eq; done.
Qed.

(** The filled buffer of a new writer. *)
Lemma fill_ok b :
  nonnull b → bs <= capacity b → 0 <= bs →
  let b := set_data_len bs (set_data_begin 0 b) in
  ∃ mem, block_write b (uninit b) 0 (replicate (Z.to_nat bs) 88) = Ok mem ∧
    window (b, mem) = replicate (Z.to_nat bs) 88.
Proof.
  intros Hn Hc H0. cbv zeta. set (b' := set_data_len _ _).
  assert (Z.of_nat (length (uninit b')) = capacity b) as Hl by (apply (Huninit b'); unfold b', capacity in *; simpl; lia).
  unfold block_write. rewrite (proj2 (Z.eqb_neq (m_data (m_d b')) 0)) by done.
  change (_data_begin b' + 0) with 0. eexists. split.
  - apply write_at_Ok; [done|]. rewrite length_replicate. lia.
  - unfold window, read_at. simpl. apply take_app_length'. by rewrite length_replicate.
Qed.

(** A new frame, with its buffer and its descriptor, before it runs. *)
Lemma new_writer_ok fl u fd offs :
  disk_ok bs efd [] [] fl u → 0 <= fd → Forall drawn offs →
  ∃ m p b mem, malloc (dk_heap u) (dk_pool u) bs 12 0 = Ok (m, p, b) ∧
    let b := set_data_len bs (set_data_begin 0 b) in
    block_write b (uninit b) 0 (replicate (Z.to_nat bs) 88) = Ok mem ∧
    disk_ok bs efd [] [dk_next u] fl (dk_suspend (dk_next u) (Writer fd (b, mem) offs)
      (Disk m p (dk_efd u) (dk_writers u) (S (dk_next u)) (dk_opened u ++ [fd]) (dk_closed u)
         (dk_quit u) (dk_fault u))).
Proof.
  intros [Hk Hr Hw Hp Hd Hq Hf He] Hfd Hoffs.
  destruct (malloc_ok _ _ _ _ _ _ Hbs Hp) as (m & p & b & Em & Hp' & Hn & Hpg & Hcap).
  destruct (fill_ok b Hn) as (mem & Ew & Hwin); [lia|by destruct Hbs as (_ & ? & _)|].
  exists m, p, b, mem. split; [done|]. split; [done|].
  assert (dk_writers u !! dk_next u = None) as Hnone.
  { destruct (dk_writers u !! dk_next u) as [y|] eqn:Hy; [|done]. apply Hw in Hy as [_ ?]. lia. }
  split; simpl; [| | | | |done|done|done].
  - by rewrite frames_insert, delete_id, Hk.
  - eapply Forall_impl; [exact Hr|]. intros r (x & Hx & Hwr). exists x. split; [|done].
    rewrite lookup_insert_ne; [done|]. intros E. rewrite E in Hnone. unfold cb in *. rewrite Hx in Hnone. discriminate Hnone.
  - intros n y [[<- <-]|[_ Hy]]%lookup_insert_Some.
    + split; [|lia]. split; try done; unfold data, base, capacity in *; simpl; [rewrite u16_small|]; lia.
    + apply Hw in Hy as [? ?]. split; [done|lia].
  - apply (window_ok _ _ _ 0 bs) in Hp'. revert Hp'. apply pool_holds_perm. unfold buffers.
    by rewrite collect_insert, delete_id.
  - rewrite Hd. unfold devices. rewrite collect_insert, delete_id by done. simpl.
    rewrite <- app_assoc. f_equiv. apply Permutation_app_comm.
Qed.

(** The state between two steps of the loop. *)
Definition disk_inv w : Prop := aio_inv (disk_ok bs efd) c efd [] [] w ∧ acct c 0 [] w.

Lemma ctx_submit_keeps fuel b : keeps c (ctx_submit (M := M) (A := A) true fuel b).
Proof.
  intros lag todo w w' Hw E.
  by destruct (proj1 (submit_fetch_keeps c fuel) b lag todo w w' Hw E) as (? & ? & _).
Qed.

Lemma write_disk_ok fuel fd offs w :
  disk_inv w → Forall drawn offs → (2 * (work w + length offs) + 2 ≤ fuel)%nat →
  ∃ w', write_disk uninit true bs fuel fd offs w = Ok w' ∧ disk_inv w' ∧
    (work w' ≤ work w + length offs)%nat.
Proof.
  intros [(Hc & He & Hok) Ha] Hoffs Hfuel. unfold write_disk. case_cond; bool_prop.
  { exists w. split_and!; [done|by split|lia]. }
  destruct (new_writer_ok _ _ fd offs Hok C Hoffs) as (m & p & b & mem & -> & Ew & Hok').
  cbn [mbind res_bind]. rewrite Ew. cbn [mbind res_bind dk_next pred].
  set (x := Writer _ _ _) in *. set (u0 := Disk _ _ _ _ _ _ _ _ _) in *.
  assert (dk_writers (dk_suspend (dk_next (aw_user w)) x u0) !! dk_next (aw_user w) = Some x) as Hx
    by apply lookup_insert_eq.
  pose proof (write_next_ok bs efd _ _ _ _ _ _ Hok' Hx) as Hcode.
  destruct (write_next_draws _ _ _ Hx) as (k & Hle & Hdraws).
  rewrite write_next_suspend in Hcode, Hle, Hdraws.
  destruct (write_next _ x u0) as [u1 pr]. cbn [fst snd] in *.
  assert (draws (dk_writers u1) + k ≤ length offs + draws (dk_writers (aw_user w)))%nat as Hk.
  { simpl in Hdraws. rewrite draws_insert in Hdraws. simpl in Hdraws.
    pose proof (draws_delete (dk_writers (aw_user w)) (dk_next (aw_user w))). lia. }
  destruct (exec_code_returns (S (work w + length offs)) (ctx_submit true fuel) k pr (aw_set_user u1 w))
    as (w' & E & Hw').
  - intros b' w1 Hw1. apply (submit_fetch_return fuel). lia.
  - exact Hle.
  - unfold work in *. simpl in *. lia.
  - exists w'. split; [done|]. split; [split|unfold work in *; simpl in *; lia].
    + apply (exec_code_inv (disk_ok bs efd) c efd (ctx_submit true fuel) [] [] pr (aw_set_user u1 w)); auto.
      apply (submit_fetch_inv (disk_ok bs efd) c efd fuel).
    + apply (exec_code_keeps c (ctx_submit true fuel) pr (ctx_submit_keeps fuel) 0 []) in E as [? _]; [done|].
      by destruct Ha; split.
Qed.

Lemma ready_ok fuel w :
  disk_inv w → in_flight (aw_kernel w) c ≠ [] → (2 * work w + 1 ≤ fuel)%nat →
  ∃ w', aio_ready fuel w = Ok w' ∧ disk_inv w' ∧ (work w' < work w)%nat ∧
    (length (aw_events w) < length (aw_events w'))%nat.
Proof.
  intros [Hi Ha] Hne Hfuel. pose proof (ac_ctx _ _ _ _ Ha) as Hc. unfold aio_ready. set (w0 := aw_set_kernel _ w).
  assert (acct c 0 [] w0) as Ha0 by (apply acct_kernel; [by rewrite eventfd_read_flight|done]).
  assert (work w0 ≤ work w)%nat as Hw0.
  { pose proof (live_eventfd_read (aw_kernel w) (_efd (aw_aio w)) (_ctx (aw_aio w))).
    unfold work. simpl. lia. }
  destruct (proj2 (submit_fetch_return fuel) w0) as (w' & E & Hw'); [|lia|].
  { simpl. by rewrite Hc, eventfd_read_flight. }
  exists w'. split; [done|].
  destruct (proj2 (submit_fetch_keeps c fuel) _ _ _ _ Ha0 E) as (Ha' & _ & Hev).
  split; [split; [|done]|split; [lia|done]].
  by apply (aio_ready_inv (disk_ok bs efd) c efd fuel [] [] w).
Qed.

Lemma quit_ok w : disk_inv w → disk_inv (aw_set_user (dk_set_quit (aw_user w)) w).
Proof.
  intros [(Hc & He & H) Ha]. split; [split_and!; [done..|]|by destruct Ha; split].
  by destruct H; split.
Qed.

Definition disk_op_ok (op : disk_op) : Prop :=
  match op with DStart _ offs => Forall drawn offs | _ => True end.
Definition op_draws (op : disk_op) : nat :=
  match op with DStart _ offs => length offs | _ => 0 end.
Definition all_draws (ops : list disk_op) : nat := sum_list_with op_draws ops.

(** A wake-up that finds nothing in flight, the one way to go wrong. *)
Definition stale_wakeup (fuel : nat) (ops : list disk_op) w : Prop :=
  ∃ ops1 ops2 w1, ops = ops1 ++ DReady :: ops2 ∧
    disk_run uninit true bs fuel ops1 w = Ok w1 ∧ in_flight (aw_kernel w1) c = [] ∧
    disk_run uninit true bs fuel ops w = Fail Blocked.

Lemma disk_step_ok fuel op w :
  disk_inv w → disk_op_ok op → (2 * (work w + op_draws op) + 2 ≤ fuel)%nat →
  (∃ w', disk_step uninit true bs fuel op w = Ok w' ∧ disk_inv w' ∧
     (work w' ≤ work w + op_draws op)%nat) ∨
  op = DReady ∧ in_flight (aw_kernel w) c = [] ∧ disk_step uninit true bs fuel op w = Fail Blocked.
Proof.
  intros Hw Hop Hfuel. destruct op as [fd offs| |]; simpl in *.
  - left. by apply write_disk_ok.
  - destruct (decide (in_flight (aw_kernel w) c = [])) as [Hn|Hn]; [right|left].
    + split_and!; [done..|]. destruct fuel as [|fuel]; [lia|].
      apply aio_ready_blocks. by rewrite (ac_ctx _ _ _ _ (proj2 Hw)).
    + destruct (ready_ok fuel w Hw Hn) as (w' & E & Hw' & Hwork & _); [lia|].
      exists w'. split_and!; [done|done|lia].
  - left. eexists. split_and!; [done|by apply quit_ok|]. unfold work. simpl. lia.
Qed.

Lemma disk_run_ok fuel ops w :
  disk_inv w → Forall disk_op_ok ops → (2 * (work w + all_draws ops) + 2 ≤ fuel)%nat →
  (∃ w', disk_run uninit true bs fuel ops w = Ok w' ∧ disk_inv w' ∧
     (work w' ≤ work w + all_draws ops)%nat) ∨ stale_wakeup fuel ops w.
Proof.
  revert w. induction ops as [|op ops IH]; intros w Hw Hops Hfuel.
  { left. exists w. split_and!; [done..|lia]. }
  apply Forall_cons in Hops as [Hop Hops]. unfold all_draws in *. simpl in *.
  destruct (disk_step_ok fuel op w Hw Hop) as [(w1 & E1 & Hw1 & Hwork)|(-> & Hn & E1)]; [lia| |].
  - destruct (IH w1 Hw1 Hops) as [(w2 & E2 & Hw2 & Hwork2)|(ops1 & ops2 & w2 & -> & E2 & Hn & E)]; [lia|left|right].
    + exists w2. rewrite E1. split_and!; [done..|lia].
    + exists (op :: ops1), ops2, w2. simpl. rewrite E1. by split_and!.
  - right. exists [], ops, w. split_and!; [done..|]. simpl in *. by rewrite E1.
Qed.

(** ** Shutting down *)

Lemma write_resume_quit n e u :
  dk_quit u = true → (write_resume n e u).2 = CDone ∧ dk_quit (write_resume n e u).1 = true.
Proof.
  intros Hq. unfold write_resume, write_next. rewrite Hq.
  destruct (dk_writers u !! n) as [x|]; [|done].
  case_cond; (split; [done|]); simpl; unfold write_end; by destruct (drop_buffer _ _ _) as [[? ?]|].
Qed.

Lemma call_events_quit sub evs w w' :
  dk_quit (aw_user w) = true → call_events sub evs w = Ok w' →
  aw_accepted w' = aw_accepted w ∧ dk_quit (aw_user w') = true.
Proof.
  revert w. induction evs as [|e evs IH]; intros w Hq E; simpl in E.
  - res_inv. by subst.
  - unfold aio_event, on_aio_event, disk_callbacks in E.
    destruct (write_resume_quit (ev_data e) e _ Hq) as [Hp Hq'].
    destruct (write_resume _ _ _) as [u p]. simpl in Hp, Hq'. subst p. cbn [exec_code mbind res_bind] in E.
    by apply IH in E.
Qed.

Lemma fetch_events_quit fuel w w' :
  dk_quit (aw_user w) = true → fetch_events fuel w = Ok w' →
  aw_accepted w' = aw_accepted w ∧ dk_quit (aw_user w') = true.
Proof.
  revert w. induction fuel as [|fuel IH]; intros w Hq E; [done|]. rewrite fetch_events_S in E.
  destruct (io_getevents _ _ _ _) as [[k [evs|e]]|]; [destruct evs as [|e evs]| |done]; [by apply IH in E| |by apply IH in E].
  set (es := e :: evs) in *. clearbody es. res_inv. subst w'. by apply call_events_quit in E0.
Qed.

Lemma flying_length w :
  disk_inv w → length (in_flight (aw_kernel w) c) = (length (aw_accepted w) - length (aw_events w))%nat ∧
    (length (aw_events w) ≤ length (aw_accepted w))%nat.
Proof.
  intros [_ [_ _ _ Hp]]. apply Permutation_length in Hp. simpl in Hp.
  rewrite length_app, !length_map in Hp. lia.
Qed.

(** With [force_quit] set, every completion ends a writer. *)
Lemma drain_ok n fuel w :
  disk_inv w → dk_quit (aw_user w) = true → (length (in_flight (aw_kernel w) c) ≤ n)%nat →
  (2 * work w + 1 ≤ fuel)%nat →
  ∃ j w', (j ≤ n)%nat ∧ disk_run uninit true bs fuel (replicate j DReady) w = Ok w' ∧ disk_inv w' ∧
    in_flight (aw_kernel w') c = [].
Proof.
  revert w. induction n as [|n IH]; intros w Hw Hq Hn Hfuel.
  { exists 0%nat, w. split_and!; [done..|]. apply nil_length_inv. lia. }
  destruct (decide (in_flight (aw_kernel w) c = [])) as [H0|H0].
  { exists 0%nat, w. split_and!; [lia|done..]. }
  destruct (ready_ok fuel w Hw H0 Hfuel) as (w1 & E1 & Hw1 & Hwork & Hev).
  pose proof E1 as (Hacc & Hq1)%fetch_events_quit; [|done].
  pose proof (flying_length w Hw) as [Hf Hf']. pose proof (flying_length w1 Hw1) as [Hf1 Hf1'].
  simpl in Hacc. rewrite Hacc in Hf1, Hf1'.
  destruct (IH w1 Hw1 Hq1) as (j & w' & Hj & E & Hw' & Hend); [lia|lia|].
  exists (S j), w'. split_and!; [lia| |done|done]. simpl. by rewrite E1.
Qed.
End runs.

(** ** Theorems *)

Section theorems.
Context {M : Type} `{!Allocator M} `{!AllocatorLaws M}.
Context `{!MultimapFind byte_buffer_data}.
Context {A : Type} `{!AioKernel A} `{!AioLaws A} `{!AioLive A}.
Variable uninit : byte_buffer_impl → list Z.
Hypothesis Huninit : ∀ b, 0 <= capacity b → Z.of_nat (length (uninit b)) = capacity b.
Variables (bs limit : Z) (m : M) (k : A).
Hypothesis Hbs : request_ok bs 12 0.
Hypothesis Hm : blocks m = ∅.
Hypothesis Hmem : memory_suffices m.
#[local] Abbreviation start := (disk_start limit m k).
Hypothesis Hctx : _ctx (aw_aio start) ≠ 0.

Lemma disk_start_inv : disk_inv bs (_ctx (aw_aio start)) (_efd (aw_aio start)) start.
Proof.
  pose proof (fresh_acct k _ Hctx) as Ha. split; [|exact Ha]. destruct Ha as [_ _ _ Hp].
  split_and!; [done..|]. unfold disk_start, fresh_aworld, aio_new_inst in *.
  destruct (new_io_aio_impl k) as [k1 a]. simpl in *.
  apply Permutation_nil_l in Hp. destruct (in_flight k1 (_ctx a)); [|done].
  split; simpl; try done. split; [by apply pool_inv_init|by split].
Qed.

(** C17. Any interleaving of spawned writers, wake-ups and the quit signal, with
    completions, interruptions and a full context wherever the kernel puts them, on a
    context created with AIO, a kernel whose calls fail only with [EAGAIN] or [EINTR],
    and memory that suffices:
    every step returns, unless the loop is woken with nothing in flight.  Then the
    suspended writers are exactly the callbacks of the requests in flight, one
    request each; each request writes the whole buffer its writer still holds, from
    page-aligned memory inside that buffer's block, to the writer's device at an
    aligned place; the pool accounts for every buffer; and every descriptor opened
    is closed once or still held. *)
Theorem writers_safe fuel ops
  (Hops : Forall disk_op_ok ops) (Hfuel : (2 * (work start + all_draws ops) + 2 ≤ fuel)%nat) :
  (∃ w, disk_run uninit true bs fuel ops start = Ok w ∧
     let u := aw_user w in
     let flying := in_flight (aw_kernel w) (_ctx (aw_aio w)) in
     frames (dk_writers u) ≡ₚ map aio_data flying ∧ NoDup (map aio_data flying) ∧
     Forall (λ r, ∃ x, dk_writers u !! aio_data r = Some x ∧ writer_ok bs x ∧
       writes bs (event_fd (aw_aio w)) x r) flying ∧
     pool_inv (PoolSys (dk_heap u) (dk_pool u) (buffers (dk_writers u))) ∧
     dk_opened u ≡ₚ dk_closed u ++ devices (dk_writers u) ∧ dk_fault u = false) ∨
  stale_wakeup uninit bs (_ctx (aw_aio start)) fuel ops start.
Proof.
  destruct (disk_run_ok uninit Huninit bs _ _ Hbs fuel ops start disk_start_inv Hops Hfuel)
    as [(w & E & [(Hc & He & [Hk Hr Hw [Hp _] Hd _ Hf _]) _] & _)|?]; [left|by right].
  exists w. split; [done|]. cbv zeta. rewrite Hc. split_and!; [done| |  |done|done|done].
  - pose proof (frames_NoDup (dk_writers (aw_user w))) as Hnd. by rewrite Hk in Hnd.
  - eapply Forall_impl; [exact Hr|]. intros r (x & Hx & Hwr). exists x.
    split; [done|]. split; [by apply (Hw _ _ Hx)|]. unfold event_fd. by rewrite He.
Qed.

(** C18. [force_quit] ends the program: from any state the writers reach, once the
    signal has come, at most as many wake-ups as there are writers, if the loop still
    runs to take them, end all of them;
    then nothing is in flight, every descriptor opened has been closed exactly once
    and every buffer is back in the pool. *)
Theorem writers_drain fuel ops w
  (Hops : Forall disk_op_ok ops) (Hfuel : (2 * (work start + all_draws ops) + 2 ≤ fuel)%nat)
  (Hrun : disk_run uninit true bs fuel ops start = Ok w) :
  ∃ j w', (j ≤ size (dk_writers (aw_user w)))%nat ∧
    disk_run uninit true bs fuel (DQuit :: replicate j DReady) w = Ok w' ∧
    dk_writers (aw_user w') = ∅ ∧ in_flight (aw_kernel w') (_ctx (aw_aio w')) = [] ∧
    dk_opened (aw_user w') ≡ₚ dk_closed (aw_user w') ∧
    pool_inv (PoolSys (dk_heap (aw_user w')) (dk_pool (aw_user w')) []).
Proof.
  destruct (disk_run_ok uninit Huninit bs _ _ Hbs fuel ops start disk_start_inv Hops Hfuel)
    as [(w1 & E & Hw & Hwork)|(? & ? & ? & _ & _ & _ & E)]; rewrite Hrun in E; [|done].
  injection E as <-. pose proof (quit_ok _ _ _ _ Hw) as Hq.
  destruct (drain_ok uninit bs _ _ (size (dk_writers (aw_user w))) fuel
    (aw_set_user (dk_set_quit (aw_user w)) w) Hq eq_refl) as (j & w' & Hj & E & Hw' & Hend).
  - destruct Hw as [(_ & _ & [Hk _ _ _ _ _ _ _]) _]. apply Permutation_length in Hk.
    unfold frames in Hk. rewrite length_fmap, length_map_to_list in Hk. simpl in *.
    rewrite length_map in Hk. lia.
  - unfold work in *. simpl in *. lia.
  - exists j, w'. split; [done|]. split; [done|].
    destruct Hw' as [(Hc & _ & [Hk _ _ [Hp _] Hd _ _ _]) _]. rewrite Hc, Hend in *.
    assert (dk_writers (aw_user w') = ∅) as Hemp.
    { apply map_to_list_empty_iff. apply Permutation_nil_r in Hk. by apply fmap_nil_inv in Hk. }
    rewrite Hemp in *. split_and!; [done..| |done]. rewrite Hd. unfold devices, collect.
    by rewrite map_to_list_empty, app_nil_r.
Qed.
End theorems.

(** [main] creates its context without AIO: the first writer whose device opens
    dereferences a null pointer. *)
Theorem writers_need_aio {M : Type} `{!Allocator M, !AllocatorLaws M}
  `{!MultimapFind byte_buffer_data} {A : Type} `{!AioKernel A, !AioLaws A}
  (uninit : byte_buffer_impl → list Z) (bs limit : Z) (m : M) (k : A) fuel fd off offs
  (Huninit : ∀ b, 0 <= capacity b → Z.of_nat (length (uninit b)) = capacity b)
  (Hbs : request_ok bs 12 0) (Hm : blocks m = ∅) (Hmem : memory_suffices m) (Hctx : _ctx (aw_aio (disk_start limit m k)) ≠ 0)
  (Hfd : 0 <= fd) (Hoff : Forall drawn (off :: offs)) :
  disk_run uninit false bs fuel [DStart fd (off :: offs)] (disk_start limit m k) = Fail NullDeref.
Proof.
  destruct (disk_start_inv bs limit m k Hm Hmem Hctx) as [(_ & _ & Hok) _].
  destruct (new_writer_ok uninit Huninit bs _ Hbs _ _ fd _ Hok Hfd Hoff)
    as (m1 & p & b & mem & Em & Ew & _).
  simpl. unfold write_disk. rewrite (proj2 (Z.ltb_ge _ _)) by done. rewrite Em.
  cbn [mbind res_bind]. rewrite Ew. cbn [mbind res_bind].
  unfold disk_start, fresh_aworld. by destruct (new_io_aio_impl k).
Qed.

(** [write_iocb] is what [co_await aio_write_block(fd, off << 20, buff)] submits. *)
Lemma write_iocb_request {M A : Type} `{!Allocator M, !MultimapFind byte_buffer_data, !AioKernel A}
    has_aio fuel c fd off b (w : aworld A (disk M)) :
  dk_efd (aw_user w) = _efd (aw_aio w) → drawn off →
  aio_write_block has_aio fuel fd (Z.shiftl off 20) (Some b) c w =
    ctx_submit has_aio fuel (write_iocb (dk_efd (aw_user w)) c fd off b) w.
Proof.
  intros -> [H1 H2]. unfold aio_write_block, ctx_aio_write, aio_write, ctx_submit, write_iocb.
  rewrite (u64_small (Z.shiftl off 20)); [done|]. rewrite Z.shiftl_mul_pow2 by done. lia.
Qed.

(** ** A run *)

(** Four writers on a context of two slots; the device of the third does not
    open. *)
Definition demo_disk : list disk_op :=
  [DStart 7 [1024; 2048]; DStart 8 [4096; 10240; 5000]; DStart (-1) [1500]; DStart 9 [3000]; DReady].
Definition demo_disk_start : aworld aio_sim (disk (gmap Z Z)) :=
  disk_start 0 (∅ : gmap Z Z) (demo_sim [0; 0; 1; 0; 1; 1]%nat 1 1).
Definition demo_disk_end : aworld aio_sim (disk (gmap Z Z)) :=
  match disk_run zero_block true 1024 40 demo_disk demo_disk_start with Ok w => w | Fail _ => demo_disk_start end.

Lemma demo_disk_ops : Forall disk_op_ok demo_disk.
Proof. repeat constructor; unfold drawn; lia. Qed.

Lemma writers_safe_witness :
  disk_run zero_block true 1024 40 demo_disk demo_disk_start = Ok demo_disk_end ∧
  ((∃ w, disk_run zero_block true 1024 40 demo_disk demo_disk_start = Ok w ∧
     let u := aw_user w in
     let flying := in_flight (aw_kernel w) (_ctx (aw_aio w)) in
     frames (dk_writers u) ≡ₚ map aio_data flying ∧ NoDup (map aio_data flying) ∧
     Forall (λ r, ∃ x, dk_writers u !! aio_data r = Some x ∧ writer_ok 1024 x ∧
       writes 1024 (event_fd (aw_aio w)) x r) flying ∧
     pool_inv (PoolSys (dk_heap u) (dk_pool u) (buffers (dk_writers u))) ∧
     dk_opened u ≡ₚ dk_closed u ++ devices (dk_writers u) ∧ dk_fault u = false) ∨
   stale_wakeup zero_block 1024 1 40 demo_disk demo_disk_start).
Proof.
  split; [vm_compute; reflexivity|].
  refine (writers_safe zero_block zero_block_length 1024 0 (∅ : gmap Z Z)
    (demo_sim [0; 0; 1; 0; 1; 1]%nat 1 1) _ _ _ _ 40 demo_disk demo_disk_ops _).
  - apply (bool_decide_unpack _). vm_compute. exact I.
  - reflexivity.
  - apply gmap_memory_suffices.
  - vm_compute. discriminate.
  - apply (bool_decide_unpack _). vm_compute. exact I.
Defined.

Lemma writers_drain_witness :
  ∃ j w', (j ≤ 1)%nat ∧
    disk_run zero_block true 1024 40 (DQuit :: replicate j DReady) demo_disk_end = Ok w' ∧
    dk_writers (aw_user w') = ∅ ∧ in_flight (aw_kernel w') (_ctx (aw_aio w')) = [] ∧
    dk_opened (aw_user w') ≡ₚ dk_closed (aw_user w') ∧
    pool_inv (PoolSys (dk_heap (aw_user w')) (dk_pool (aw_user w')) []).
Proof.
  refine (writers_drain zero_block zero_block_length 1024 0 (∅ : gmap Z Z)
    (demo_sim [0; 0; 1; 0; 1; 1]%nat 1 1) _ _ _ _ 40 demo_disk demo_disk_end demo_disk_ops _ _).
  - apply (bool_decide_unpack _). vm_compute. exact I.
  - reflexivity.
  - apply gmap_memory_suffices.
  - vm_compute. discriminate.
  - apply (bool_decide_unpack _). vm_compute. exact I.
  - vm_compute. reflexivity.
Defined.

Lemma writers_need_aio_witness :
  disk_run zero_block false 1024 40 [DStart 7 [1024; 2048]] demo_disk_start = Fail NullDeref.
Proof.
  apply (writers_need_aio zero_block 1024 0 (∅ : gmap Z Z) (demo_sim [0; 0; 1; 0; 1; 1]%nat 1 1)
    40 7 1024 [2048] zero_block_length).
  - apply (bool_decide_unpack _). vm_compute. exact I.
  - reflexivity.
  - apply gmap_memory_suffices.
  - vm_compute. discriminate.
  - lia.
  - repeat constructor; unfold drawn; lia.
Defined.
