(* ===== verification/IoContext.v ===== *)
(** * The I/O context ([coio/io_context.h], [coio/io_context.cpp])

    A context is an event loop with a thread to run it on, an AIO object and a
    buffer pool.  The first part is [_run], which registers the AIO object around
    [io_loop::run]; the second the life cycle of the worker thread as a step
    relation between it and the thread that owns the context. *)

From S2P Require Import Prelude StdHeap IoLoop IoLoopFacts IoLoopProps Timers RunProps.

(** ** [_run] *)

Section ctx.
Context {K U : Type} `{!Epoll K} `{!StdHeap compare_timer} `{!Callbacks K U}.
Variable ndebug : bool.
Variable clock : nat → Z.
Implicit Type w : world K U.

(** [aio] is the event descriptor and the callback of the AIO object, when
    there is one; [ts] are the turns of the loop. *)
Definition _run (self : Z) (fuel : nat) (ts : list turn) (aio : option (Z * cb))
    (init : world K U → res (world K U)) w : res (world K U) :=
  w ← (match aio with
       | Some (efd, a) => l ← wait_read efd (Some a) (w_loop w); Ok (World l (w_user w))
       | None => Ok w
       end);
  w ← init w;
  w ← run ndebug clock self fuel ts w;
  match aio with
  | Some (efd, _) => l ← cancel_fdall ndebug self efd (w_loop w); Ok (World l (w_user w))
  | None => Ok w
  end.

(** [this_context] of the calling thread is set, then [_run]; the boolean says
    whether the thread's [this_context] is this context. *)
Definition run_local (self : Z) (fuel : nat) (ts : list turn) (aio : option (Z * cb))
    (init : world K U → res (world K U)) (w : world K U * bool) : res (world K U * bool) :=
  w' ← _run self fuel ts aio init w.1; Ok (w', true).

(** ** Registrations of other descriptors than the loop's own *)

Lemma rest_fields (l l' : io_loop K) :
  rest l' = rest l → _event_fd l' = _event_fd l ∧ _timer l' = _timer l ∧
    _g_timer_id l' = _g_timer_id l ∧ m_thread_id l' = m_thread_id l.
Proof. intros H. by injection H. Qed.

Lemma wait_read_inv efd a (l : io_loop K) :
  0 <= efd → efd ≠ _event_fd l → a ≠ loop_cb → loop_inv l →
  ∃ l', wait_read efd (Some a) l = Ok l' ∧ loop_inv l' ∧ rest l' = rest l ∧
    sub l' efd DirR = Some a.
Proof.
  intros Hfd Hne Ha [Hwf Hown Hev].
  destruct (wait_fd_spec DirR efd (Some a) l Hfd Hwf) as (l' & rc & E & Hent & _ & Hrest & Hcap & _).
  pose proof (wait_fd_subs _ _ _ _ _ Hent) as Hsub.
  destruct (rest_fields _ _ Hrest) as (He & _).
  exists l'. unfold wait_read. change EPOLLIN with (bit DirR). rewrite E. split; [done|]. split; [|split].
  - split; [by eapply wait_fd_wf| |].
    + intros fd d. rewrite Hsub, He. unfold subs_set. case_decide; [|apply Hown].
      intros [= ->]. done.
    + rewrite He, Hent, decide_False by done. done.
  - done.
  - rewrite Hsub. unfold subs_set. by rewrite decide_True.
Qed.

Lemma cancel_fdall_inv self efd (l : io_loop K) :
  0 <= efd → efd ≠ _event_fd l → is_local_thread self l = true → loop_inv l →
  ∃ l', cancel_fdall ndebug self efd l = Ok l' ∧ loop_inv l' ∧ rest l' = rest l ∧
    (∀ d, sub l' efd d = None) ∧ watched l' efd = None.
Proof.
  intros Hfd Hne Hth [Hwf Hown Hev].
  assert (cancel_mask (EPOLLIN ||| EPOLLOUT)) as Hm by (right; by right).
  destruct (cancel_ev_spec ndebug self efd _ l Hfd Hwf Hm Hth)
    as (l' & rc & E & Hent & _ & Hrest & Hcap & _).
  pose proof (cancel_ev_subs _ _ _ _ Hfd Hwf Hm Hent) as Hsub.
  destruct (rest_fields _ _ Hrest) as (He & _).
  exists l'. unfold cancel_fdall. rewrite E. split; [done|]. split_and!.
  - split; [by eapply cancel_ev_wf| |].
    + intros fd d. rewrite Hsub, He. unfold subs_drop. case_decide; [|apply Hown]. by destruct d.
    + rewrite He, Hent, decide_False by done. done.
  - done.
  - intros d. rewrite Hsub. unfold subs_drop. rewrite decide_True by done. by destruct d.
  - rewrite (cancel_ev_watched _ _ _ _ Hfd Hwf Hm Hent). unfold masks_drop.
    rewrite decide_True by done. destruct (watched l efd) as [m0|] eqn:Ew; [|done].
    cbn [mbind option_bind]. unfold watched in Ew. destruct (_ =? -1) eqn:Efd; [done|].
    injection Ew as <-. bool_prop.
    by destruct (wf_event _ _ (wf_entry _ Hwf efd Hfd) Efd) as [-> |[-> | ->]].
Qed.

Context `{!EpollLaws K} `{!GoodCallbacks ndebug}.

(** [io_context::run_local] (and the worker's [thread_func]) with an AIO
    object: whatever the loop does until it is told to stop, when [_run] has
    returned no entry of the loop refers to the AIO object any more and its event
    descriptor is unregistered, so the object can be destroyed; the loop is in its
    invariant. *)
Theorem run_deregisters_aio (self efd : Z) (a : cb) (fuel : nat) (ts : list turn)
  (init : world K U → res (world K U)) (w : world K U)
  (Hloop : loop_inv (w_loop w)) (Htimer : timer_inv (w_loop w))
  (Hefd : 0 <= efd) (Hne : efd ≠ _event_fd (w_loop w)) (Ha : a ≠ loop_cb)
  (Hinit : ∀ w0, loop_inv (w_loop w0) → rest (w_loop w0) = rest (w_loop w) →
     w_user w0 = w_user w → sub (w_loop w0) efd DirR = Some a →
     ∃ w1, init w0 = Ok w1 ∧ run_inv w1 ∧ _event_fd (w_loop w1) = _event_fd (w_loop w0) ∧
       (timers_left ndebug w1 < fuel)%nat ∧
       turns_sane ndebug clock fuel ts (on_loop (set_thread_id (Some self)) w1)) :
  ∃ w', _run self fuel ts (Some (efd, a)) init w = Ok w' ∧
    loop_inv (w_loop w') ∧ timer_inv (w_loop w') ∧
    (∀ d, sub (w_loop w') efd d = None) ∧ watched (w_loop w') efd = None.
Proof.
  unfold _run. destruct (wait_read_inv efd a _ Hefd Hne Ha Hloop) as (l0 & -> & Hl0 & Hr0 & Hs0).
  destruct (rest_fields _ _ Hr0) as (He0 & Ht0 & Hg0 & _). cbn [mbind res_bind].
  destruct (Hinit (World l0 (w_user w))) as (w1 & -> & Hi1 & He1 & Hf1 & Hsane); simpl; auto.
  cbn [mbind res_bind]. simpl in He1.
  destruct (run_ok ndebug clock self fuel ts w1 Hi1 Hf1 Hsane) as (w2 & -> & [Hl2 Ht2] & _ & Hth & He2).
  cbn [mbind res_bind].
  destruct (cancel_fdall_inv self efd (w_loop w2)) as (l3 & -> & Hl3 & Hr3 & Hs3 & Hw3);
    [done|congruence|done|done|].
  destruct (rest_fields _ _ Hr3) as (_ & Ht3 & Hg3 & _). cbn [mbind res_bind].
  eexists. split; [done|]. simpl. split_and!; auto. by eapply timer_inv_same.
Qed.

(** The AIO object of a context whose [io_setup] failed has the event descriptor
    -1: [wait_read] then indexes the table at -1. *)
Lemma run_failed_aio_out_of_bounds self fuel ts a init w :
  _run self fuel ts (Some (-1, a)) init w = Fail OutOfBounds.
Proof.
  unfold _run, wait_read, wait_fd. rewrite (proj2 (Z.leb_gt _ (-1))) by lia. done.
Qed.
End ctx.

(** ** [scope_exit] and the guard [cancel_delay] *)

(** A block with a [scope_exit] object: the function is called when the block
    is left. *)
Definition scope_exit {W : Type} (func body : W → res W) (w : W) : res W :=
  w ← body w; func w.

(** A block with a [co2::cancel_delay] object for the timer [timer_id]. *)
Definition cancel_delay_guard {K : Type} `{!StdHeap compare_timer} (ndebug : bool) (self timer_id : Z)
    (body : io_loop K → res (io_loop K)) : io_loop K → res (io_loop K) :=
  scope_exit (cancel_delay ndebug self timer_id) body.

(** Whatever the block does to the loop, the timer does not outlive it, and the
    other timers stay. *)
Lemma cancel_delay_guard_spec {K : Type} `{!StdHeap compare_timer} ndebug self timer_id
    (body : io_loop K → res (io_loop K)) l l1 :
  body l = Ok l1 → timer_inv l1 → is_local_thread self l1 = true →
  ∃ l2, cancel_delay_guard ndebug self timer_id body l = Ok l2 ∧ timer_inv l2 ∧
    _timer l2 ≡ₚ filter (λ t, _id t ≠ timer_id) (_timer l1).
Proof.
  intros E Ht Hth. unfold cancel_delay_guard, scope_exit. rewrite E. cbn [mbind res_bind].
  destruct (cancel_delay_ok ndebug self timer_id l1 Ht Hth) as (ts & -> & Hp & _ & Hi).
  by eexists.
Qed.

Lemma run_deregisters_aio_witness :
  ∃ l, io_loop_init (∅ : gmap Z Z) 3 = Ok l ∧
  ∃ w', _run false (λ _, 0) 1 1 [Turn false (WaitEvents []); Turn true (WaitEvents [])]
          (Some (5, 1%nat)) (λ w, Ok w) (World l ([] : list log_entry)) = Ok w' ∧
    loop_inv (w_loop w') ∧ timer_inv (w_loop w') ∧
    (∀ d, sub (w_loop w') 5 d = None) ∧ watched (w_loop w') 5 = None.
Proof.
  destruct demo_run_ready as (l & E & Hl & Ht & Hf & _). exists l. split; [exact E|].
  assert (_event_fd l = 3) as He by (vm_compute in E; injection E as <-; reflexivity).
  apply (run_deregisters_aio false (λ _, 0) 1 5 1%nat 1 _ (λ w, Ok w) (World l []));
    [exact Hl|exact Ht|lia|simpl; rewrite He; lia|discriminate|].
  intros w0 Hl0 Hr Hu _. destruct (rest_fields _ _ Hr) as (_ & Ht0 & Hg0 & _).
  assert (timer_inv (w_loop w0)) as Hti by (exact (timer_inv_same _ _ Ht Ht0 Hg0)).
  assert (timers_left false w0 < 1)%nat as Hf0.
  { unfold timers_left in *. rewrite Ht0, Hu. exact Hf. }
  exists w0. split; [reflexivity|]. split; [split; assumption|]. split; [reflexivity|].
  split; [exact Hf0|]. apply turns_sane_quiet. repeat constructor.
Defined.

(** ** Life cycle of the worker thread *)

(** The worker: created; [this_context] set and the promise fulfilled; at the
    head of [io_loop::run]'s loop ([m_thread_id] set); in [epoll_wait], with the
    milliseconds its timeout has left; in the callbacks of the turn; in a callback
    that does not return; out of the loop; ended. *)
Inductive wpc := WNew | WReady | WHead | WPoll (ms : Z) | WTurn | WHung | WLeft | WDone.
(** The owner: outside the context's functions; in [run_worker], waiting for the
    promise; in [stop], the flag set; in [stop], joining; [std::terminate]
    called. *)
Inductive mpc := MIdle | MWait | MStop | MJoin | MTerminated.
#[export] Instance wpc_eq_dec : EqDecision wpc.
Proof. solve_decision. Defined.
#[export] Instance mpc_eq_dec : EqDecision mpc.
Proof. solve_decision. Defined.

(** [c_thread] is [_loc_thread] with the position of its thread; [c_joinable]
    what [joinable()] returns; [c_breaking] and [c_tid] are [m_breaking] and
    [m_thread_id] of the loop.  [c_turns] counts the turns the current worker has
    begun, [c_destroyed] is set by the destructor. *)
Record cstate := CState {
  c_thread : option wpc;
  c_joinable : bool;
  c_breaking : bool;
  c_ready : bool;
  c_tid : option Z;
  c_main : mpc;
  c_turns : nat;
  c_destroyed : bool;
}.

Definition cinit : cstate := CState None false false false None MIdle 0 false.

Section lifecycle.
Context {K : Type}.
Variable clock : nat → Z.
(** The ids of the worker and of the owner, and the loop as the worker's turns
    find it, which fixes the timeouts of [epoll_wait]. *)
Variables wid mid : Z.
Variable loops : nat → io_loop K.

Definition set_main (m : mpc) (s : cstate) : cstate :=
  CState (c_thread s) (c_joinable s) (c_breaking s) (c_ready s) (c_tid s) m (c_turns s) (c_destroyed s).
Definition set_worker (p : wpc) (s : cstate) : cstate :=
  CState (Some p) (c_joinable s) (c_breaking s) (c_ready s) (c_tid s) (c_main s) (c_turns s)
    (c_destroyed s).

(** The worker inside [io_loop::run]: a turn is begun unless the flag is set;
    [epoll_wait] returns without events when its time is up; the callbacks of a turn
    return. *)
Definition run_step (s : cstate) : option cstate :=
  match c_thread s with
  | Some WHead =>
      if c_breaking s then Some (set_worker WLeft s)
      else Some (CState (Some (WPoll (wait_timeout clock (loops (c_turns s))).2)) (c_joinable s)
                   (c_breaking s) (c_ready s) (c_tid s) (c_main s) (S (c_turns s)) (c_destroyed s))
  | Some (WPoll ms) => if ms =? 0 then Some (set_worker WTurn s) else None
  | Some WTurn => Some (set_worker WHead s)
  | _ => None
  end.

(** The worker's next step, when it has one of its own. *)
Definition worker_step (s : cstate) : option cstate :=
  match c_thread s with
  | Some WNew => Some (CState (Some WReady) (c_joinable s) (c_breaking s) true (c_tid s) (c_main s)
                         (c_turns s) (c_destroyed s))
  | Some WReady => Some (CState (Some WHead) (c_joinable s) (c_breaking s) (c_ready s) (Some wid)
                           (c_main s) (c_turns s) (c_destroyed s))
  | Some WLeft => Some (set_worker WDone s)
  | _ => run_step s
  end.

(** [break_run] *)
Definition ctx_break (s : cstate) : cstate :=
  CState (c_thread s) (c_joinable s) true (c_ready s) (c_tid s) (c_main s) (c_turns s) (c_destroyed s).

Inductive cact :=
  | CWorker                (* a step of the worker *)
  | CTick                  (* a millisecond passes in [epoll_wait] *)
  | CEvents                (* [epoll_wait] returns with events *)
  | CInterrupted           (* [epoll_wait] fails with [EINTR] *)
  | CEpollError            (* [epoll_wait] fails otherwise *)
  | CHang                  (* a callback of the turn blocks for ever *)
  | CWorkerStop            (* a callback calls [stop] on the worker's thread *)
  | CRunWorker             (* the owner calls [run_worker] *)
  | CWaited                (* ... and its wait for the promise ends *)
  | CStop                  (* the owner calls [stop] *)
  | CChecked               (* ... and looks at the thread *)
  | CJoined                (* ... and [join] returns *)
  | CDestroy.              (* the owner destroys the context *)

(** The end of [epoll_wait], in the state [p]. *)
Definition polled (p : wpc) (s : cstate) : option cstate :=
  match c_thread s with Some (WPoll _) => Some (set_worker p s) | _ => None end.

Definition cstep (a : cact) (s : cstate) : option cstate :=
  let owner m := bool_decide (c_main s = m) && negb (c_destroyed s) in
  match a with
  | CWorker => worker_step s
  | CTick =>
      match c_thread s with
      | Some (WPoll ms) => if 0 <? ms then Some (set_worker (WPoll (ms - 1)) s) else None
      | _ => None
      end
  | CEvents => polled WTurn s
  | CInterrupted => polled WHead s
  | CEpollError => polled WLeft s
  | CHang => if decide (c_thread s = Some WTurn) then Some (set_worker WHung s) else None
  | CWorkerStop =>
      (* [is_local_thread()] holds, so there is no join *)
      if decide (c_thread s = Some WTurn ∧ c_tid s = Some wid) then Some (ctx_break s) else None
  | CRunWorker =>
      if owner MIdle then
        (* assigning [_loc_thread] destroys the old [std::thread] *)
        if c_joinable s then Some (set_main MTerminated s)
        else Some (CState (Some WNew) true (c_breaking s) false (c_tid s) MWait 0 false)
      else None
  | CWaited => if owner MWait && c_ready s then Some (set_main MIdle s) else None
  | CStop => if owner MIdle then Some (set_main MStop (ctx_break s)) else None
  | CChecked =>
      if owner MStop then
        if bool_decide (c_tid s = Some mid) then Some (set_main MIdle s)
        else if c_joinable s then Some (set_main MJoin s)
        else Some (set_main MIdle s)
      else None
  | CJoined =>
      if owner MJoin && bool_decide (c_thread s = Some WDone)
      then Some (CState (c_thread s) false (c_breaking s) (c_ready s) (c_tid s) MIdle (c_turns s)
                   (c_destroyed s))
      else None
  | CDestroy =>
      if owner MIdle then
        if c_joinable s then Some (set_main MTerminated s)
        else Some (CState None false (c_breaking s) (c_ready s) (c_tid s) MIdle (c_turns s) true)
      else None
  end.

Fixpoint crun (acts : list cact) (s : cstate) : option cstate :=
  match acts with
  | [] => Some s
  | a :: acts => s ← cstep a s; crun acts s
  end.

Record cinv (s : cstate) : Prop := {
  ci_break : c_main s = MStop ∨ c_main s = MJoin → c_breaking s = true;
  ci_join : c_main s = MJoin → c_joinable s = true;
  ci_thread : c_joinable s = true → c_thread s ≠ None;
  ci_gone : c_joinable s = false → c_thread s = None ∨ c_thread s = Some WDone;
  ci_wait : c_main s = MWait → c_joinable s = true;
  ci_ready p : c_thread s = Some p → p ≠ WNew → c_ready s = true;
  ci_tid x : c_tid s = Some x → x = wid;
  ci_live : c_destroyed s = true → c_main s = MIdle ∨ c_main s = MTerminated;
  ci_poll t : c_thread s = Some (WPoll t) → 0 <= t <= 100;
}.

Lemma cinit_inv : cinv cinit.
Proof. split; simpl; try done; auto. by intros [|]. Qed.

Lemma poll_bounds l : 0 <= (wait_timeout clock l : io_loop K * Z).2 <= 100.
Proof. unfold wait_timeout. destruct (_timer l); simpl; lia. Qed.

Lemma cstep_inv a s s' : cinv s → cstep a s = Some s' → cinv s'.
Proof.
  intros [H1 H2 H3 H4 H5 H6 H7 H8 H9] E.
  destruct s as [th jo br re tid m tu de]; simpl in *.
  destruct a; simpl in E; unfold worker_step, run_step, polled in E; simpl in E;
    repeat case_match; simplify_eq/=;
    split; simpl in *; intros; bool_prop; destruct_and?; destruct_or?; simplify_eq/=;
    repeat (case_bool_decide; simplify_eq/=); auto; try congruence;
    first [by eapply H6 | by specialize (H4 eq_refl) as [|] | by specialize (H8 eq_refl) as [|]
          | apply poll_bounds | specialize (H9 _ eq_refl); lia].
Qed.

Lemma crun_inv acts s s' : cinv s → crun acts s = Some s' → cinv s'.
Proof.
  revert s. induction acts as [|a acts IH]; simpl; intros s Hi E; [by simplify_eq|].
  apply bind_Some in E as (s1 & E1 & E2). eauto using cstep_inv.
Qed.

(** ** A worker that has been told to stop *)

(** The steps that move the worker. *)
Definition moves (a : cact) : Prop :=
  match a with
  | CWorker | CTick | CEvents | CInterrupted | CEpollError | CHang => True
  | _ => False
  end.

(** With the flag set, what the worker has before it. *)
Definition ahead (th : option wpc) : nat :=
  match th with
  | Some WNew => 4
  | Some WReady => 3
  | Some WHead => 2
  | Some (WPoll ms) => 4 + Z.to_nat ms
  | Some WTurn => 3
  | Some WLeft => 1
  | Some WHung | Some WDone | None => 0
  end.

Lemma moves_ahead a s s' :
  moves a → c_breaking s = true → cinv s → cstep a s = Some s' →
  (ahead (c_thread s') < ahead (c_thread s))%nat ∧ c_breaking s' = true ∧ c_turns s' = c_turns s ∧
  c_main s' = c_main s.
Proof.
  intros Ha Hb Hi E. pose proof (ci_poll _ Hi) as Hp. destruct s as [th jo br re tid m tu de]; simpl in *. subst.
  destruct a; try done; simpl in E; unfold worker_step, run_step, polled in E; simpl in E;
    repeat case_match; simplify_eq/=; bool_prop; (split_and!; [|done..]); lia.
Qed.

Lemma moves_run acts s s' :
  Forall moves acts → c_breaking s = true → cinv s → crun acts s = Some s' →
  (length acts + ahead (c_thread s') ≤ ahead (c_thread s))%nat ∧ c_turns s' = c_turns s ∧
  c_main s' = c_main s.
Proof.
  intros Ha. revert s. induction Ha as [|a acts Ha _ IH]; simpl; intros s Hb Hi E; [by simplify_eq|].
  apply bind_Some in E as (s1 & E1 & E2). destruct (moves_ahead _ _ _ Ha Hb Hi E1) as (H1 & H2 & H3 & H4).
  destruct (IH s1 H2 (cstep_inv _ _ _ Hi E1) E2) as (? & ? & ?). split_and!; [lia|congruence..].
Qed.

(** A worker that is not at the end, and not stuck in a callback, can go on. *)
Lemma moves_enabled s p :
  cinv s → c_thread s = Some p → p ≠ WDone → p ≠ WHung →
  ∃ a s', moves a ∧ a ≠ CHang ∧ cstep a s = Some s'.
Proof.
  intros Hi Hp H1 H2. destruct p as [| | |ms| | | |]; try done.
  1,2,3,5,6: exists CWorker; unfold cstep, worker_step, run_step; rewrite Hp;
    first [by eexists|destruct (c_breaking s); by eexists].
  pose proof (ci_poll _ Hi _ Hp). destruct (decide (ms = 0)) as [->|Hne].
  - exists CWorker. unfold cstep, worker_step, run_step. rewrite Hp. by eexists.
  - exists CTick. unfold cstep. rewrite Hp, (proj2 (Z.ltb_lt 0 ms)) by lia. by eexists.
Qed.

(** Joining a thread that is stuck. *)
Lemma join_stuck acts s s' :
  c_main s = MJoin → c_thread s = Some WHung → crun acts s = Some s' → c_main s' = MJoin.
Proof.
  revert s. induction acts as [|a acts IH]; simpl; intros s Hm Ht E; [by simplify_eq|].
  apply bind_Some in E as (s1 & E1 & E2).
  assert (c_main s1 = MJoin ∧ c_thread s1 = Some WHung) as [? ?]; [|by apply (IH s1)].
  destruct s as [th jo br re tid m tu de]; simpl in *. subst.
  destruct a; simpl in E1; unfold worker_step, run_step, polled in E1; simpl in E1;
    repeat case_match; simplify_eq/=; bool_prop; destruct_and?; repeat (case_bool_decide; simplify_eq/=); done.
Qed.


Lemma breaking_no_turns acts s s' :
  c_breaking s = true → c_turns s = 0%nat → crun acts s = Some s' →
  c_breaking s' = true ∧ c_turns s' = 0%nat.
Proof.
  revert s. induction acts as [|a acts IH]; simpl; intros s Hb Ht E; [by simplify_eq|].
  apply bind_Some in E as (s1 & E1 & E2). apply (IH s1); [..|done];
    destruct s as [th jo br re tid m tu de]; simpl in *; subst; destruct a; simpl in E1;
    unfold worker_step, run_step, polled in E1; simpl in E1; repeat case_match; simplify_eq/=; done.
Qed.

(** [m_breaking] is never cleared: once a context has been told to stop, a
    worker that is started afterwards leaves [run] without a single turn, so
    nothing spawned on the context runs any more. *)
Theorem stopped_context_stays_stopped acts s s'
  (Hstop : c_breaking s = true) (Hgone : c_joinable s = false)
  (Hrun : crun (CRunWorker :: acts) s = Some s') :
  c_turns s' = 0%nat.
Proof.
  simpl in Hrun. rewrite Hgone in Hrun. case_match; [|done].
  cbn [mbind option_bind] in Hrun. by eapply breaking_no_turns in Hrun as [_ ?].
Qed.

End lifecycle.

(** A loop without timers: [epoll_wait] may take the full 100 ms. *)
Definition demo_loops (n : nat) : io_loop (gmap Z Z) := IoLoop _ 0 None 3 0 [] 0 0 [] [] [] 0 0 ∅.
#[local] Abbreviation demo_crun := (crun (λ _, 0) 7 8 demo_loops).

(** Stopped while the worker is in [epoll_wait], which then takes its full time. *)
Definition demo_start : list cact := [CRunWorker; CWorker; CWaited; CWorker; CWorker; CTick; CStop; CChecked].
Definition demo_rest : list cact := replicate 99 CTick ++ [CWorker; CWorker; CWorker; CWorker].
Definition demo_joining : cstate := CState (Some (WPoll 99)) true true true (Some 7) MJoin 1 false.
Definition demo_ended : cstate := CState (Some WDone) true true true (Some 7) MJoin 1 false.

Lemma demo_start_run : demo_crun demo_start cinit = Some demo_joining.
Proof. by vm_compute. Qed.
Lemma demo_rest_run : demo_crun demo_rest demo_joining = Some demo_ended.
Proof. by vm_compute. Qed.
Lemma demo_rest_moves : Forall moves demo_rest.
Proof. apply Forall_app. split; [by apply Forall_replicate|by repeat constructor]. Qed.


(** Started, stopped and joined. *)
Definition demo_stopped : cstate :=
  default cinit (demo_crun
    [CRunWorker; CWorker; CWaited; CStop; CChecked; CWorker; CWorker; CWorker; CJoined] cinit).

Lemma stopped_context_stays_stopped_witness :
  c_thread demo_stopped = Some WDone ∧
  ∃ s', demo_crun [CRunWorker; CWorker; CWaited; CWorker; CWorker; CWorker] demo_stopped = Some s' ∧
    c_turns s' = 0%nat.
Proof.
  split; [reflexivity|]. eexists. split; [reflexivity|].
  apply (stopped_context_stays_stopped (λ _, 0) 7 8 demo_loops [CWorker; CWaited; CWorker; CWorker; CWorker]
    demo_stopped); reflexivity.
Defined.

(** [std::thread]'s destructor on a thread that was not joined: destroying a
    running context, also one that stopped itself, ends the program. *)
Example destroy_unjoined_terminates :
  ∃ s, demo_crun [CRunWorker; CWorker; CWaited; CWorker; CWorker; CEvents; CWorkerStop; CWorker; CWorker;
                  CWorker; CDestroy] cinit = Some s ∧ c_thread s = Some WDone ∧ c_main s = MTerminated.
Proof. eexists. split; [vm_compute; reflexivity|]. by split. Qed.

(** A peer that stalls the worker in a blocking call: [stop] hangs in [join]. *)
Example stop_hangs :
  ∃ s, demo_crun [CRunWorker; CWorker; CWaited; CWorker; CWorker; CEvents; CHang; CStop; CChecked] cinit = Some s ∧
    c_main s = MJoin ∧ ∀ acts s', demo_crun acts s = Some s' → c_main s' = MJoin.
Proof.
  eexists. split; [vm_compute; reflexivity|]. split; [reflexivity|].
  intros acts s'. by apply join_stuck.
Qed.
