(* ===== verification/Spawn.v ===== *)
(** * Making a context and spawning tasks ([coio/io_context.h])

    [io_context] puts the parts together: an event loop, an AIO object and a
    buffer pool.  [co_spawn] gives a task away: the frame is detached from its
    task object and its first resumption is a function posted to the loop, so the
    theorem joins the ownership of frames ([Task]) with the loop's queue
    ([IoLoop]). *)

From S2P Require Import Prelude StdHeap ByteBuffer IoLoop IoLoopFacts IoLoopProps Task Aio.

(** ** The members and the constructor *)

Record io_context {K : Type} := MkContext {
  ic_loop : io_loop K;
  _aio : option io_aio_impl;
  _buf_cache : buffer_pool;
}.
Arguments io_context : clear implicits.
Arguments MkContext {K} _ _ _.

Section ctor.
Context {K A : Type} `{!Epoll K} `{!AioKernel A}.

Definition new_io_context (use_aio : bool) (k : K) (event_fd : Z) (ak : A) : res (io_context K * A) :=
  l ← io_loop_init k event_fd;
  let c := new_inst (Z.shiftl 32 20) in
  if use_aio then let '(ak, a) := new_io_aio_impl ak in Ok (MkContext l (Some a) c, ak)
  else Ok (MkContext l None c, ak).
End ctor.

(** A new context waits on its event descriptor, has nothing cached under a
    limit of 32 MiB, and has an AIO object exactly when it was asked for one. *)
Lemma new_io_context_spec {K A : Type} `{!Epoll K} `{!EpollLaws K} `{!AioKernel A}
    use_aio (k : K) event_fd (ak : A) :
  interest k = ∅ → ctl_serves k → 0 <= event_fd →
  ∃ x ak', new_io_context use_aio k event_fd ak = Ok (x, ak') ∧
    table_wf (ic_loop x) ∧ kernel_sync (ic_loop x) ∧
    sub (ic_loop x) event_fd DirR = Some loop_cb ∧
    (is_Some (_aio x) ↔ use_aio = true) ∧
    _cache (_buf_cache x) = [] ∧ _limit_cache_bytes (_buf_cache x) = 33554432.
Proof.
  intros Hk Hserve Hfd. destruct (init_inv k event_fd Hk Hserve Hfd) as (l & E & Hwf & Hs & Hsub & _).
  unfold new_io_context. rewrite E. cbn [mbind res_bind].
  assert (sub l event_fd DirR = Some loop_cb) as Hl by (rewrite Hsub; by rewrite decide_True).
  destruct use_aio; [destruct (new_io_aio_impl ak) as [ak' a]|];
    (eexists _, _; split; [done|]; split_and!; [done..| |done|done]); simpl.
  - by split; eauto.
  - split; [by intros []|done].
Qed.

(** ** [co_spawn] *)

Section spawn.
Context {K : Type} `{!Epoll K}.
Implicit Types (l : io_loop K) (t : tasks).

(** [async_call([handle]() { handle(); })] on the thread [self]: the posted
    function is named by the frame it resumes.  [start] is the resumption up to
    the coroutine's first suspension. *)
Definition async_call_handle (self : Z) (c : nat) l t : res (io_loop K * tasks) :=
  if is_local_thread self l then t ← start c t; Ok (l, t)
  else Ok (set_async (_async_funcs l ++ [c]) (_async_funcs_tmp l) (_eventfd l + 1) l, t).

Definition co_spawn (self : Z) (v : nat) l t : res (io_loop K * tasks) :=
  h ← handle v t;
  t ← detach KVoid v t;
  match h with
  | Some c => async_call_handle self c l t
  | None => Fail NullDeref
  end.

Fixpoint co_spawn_all (self : Z) (vs : list nat) l t : res (io_loop K * tasks) :=
  match vs with
  | [] => Ok (l, t)
  | v :: vs => '(l, t) ← co_spawn self v l t; co_spawn_all self vs l t
  end.

(** The loop thread, whose posted functions are resumptions of frames: the frames
    and, in order, those that were resumed. *)
#[local] Instance spawn_callbacks : Callbacks K (tasks * list nat) := {
  on_file_event _ _ _ w := Ok w;
  on_time_event _ _ w := Ok w;
  call_func c w := t ← start c (w_user w).1; Ok (World (w_loop w) (t, (w_user w).2 ++ [c]));
}.

(** A frame waiting for its first resumption, and one that is under way. *)
Definition waiting (d : bool) (f : frame) : Prop :=
  f_kind f = KVoid ∧ f_state f = CInit ∧ f_detached f = d.
Definition under_way (f : frame) : Prop :=
  f_kind f = KVoid ∧ f_state f = CActive ∧ f_detached f = true.

Lemma frame_at_same c t t' P :
  t_frames t' !! c = t_frames t !! c → frame_at c t P → frame_at c t' P.
Proof. unfold frame_at. by intros ->. Qed.

Lemma detach_spec v c t :
  own_inv t → owned t v c → frame_at c t (waiting false) →
  ∃ t', detach KVoid v t = Ok t' ∧ own_inv t' ∧ frame_at c t' (waiting true) ∧
    t_vars t' = <[v := None]> (t_vars t) ∧
    (∀ c', c' ≠ c → t_frames t' !! c' = t_frames t !! c').
Proof.
  intros Hi Hv Hf. destruct (own_detach v c t Hi Hv) as (t' & E & Hi').
  { unfold frame_at in *. destruct (_ !! c); [|done]. destruct Hf as (? & -> & _). done. }
  exists t'. split; [done|]. split; [done|].
  unfold detach, handle, owned in *. rewrite Hv in E. cbn [mbind res_bind] in E.
  unfold promise, frame_at in *. destruct (t_frames t !! c) as [f|] eqn:Ec; [|done].
  cbn [mbind res_bind] in E. injection E as <-. simpl. rewrite lookup_insert_eq.
  destruct Hf as (? & ? & _). split_and!; [done|done|].
  intros c' Hc. by rewrite lookup_insert_ne.
Qed.

Lemma co_spawn_remote self v c l t :
  is_local_thread self l = false → own_inv t → owned t v c → frame_at c t (waiting false) →
  ∃ t', co_spawn self v l t =
      Ok (set_async (_async_funcs l ++ [c]) (_async_funcs_tmp l) (_eventfd l + 1) l, t') ∧
    own_inv t' ∧ frame_at c t' (waiting true) ∧ t_vars t' = <[v := None]> (t_vars t) ∧
    (∀ c', c' ≠ c → t_frames t' !! c' = t_frames t !! c').
Proof.
  intros Hl Hi Hv Hf. destruct (detach_spec v c t Hi Hv Hf) as (t' & E & Hrest).
  exists t'. split; [|done]. unfold co_spawn, handle. unfold owned in Hv. rewrite Hv.
  cbn [mbind res_bind]. rewrite E. cbn [mbind res_bind]. unfold async_call_handle. by rewrite Hl.
Qed.

Lemma co_spawn_all_spec self vs cs l t :
  is_local_thread self l = false → own_inv t → NoDup vs →
  Forall2 (λ v c, owned t v c ∧ frame_at c t (waiting false)) vs cs →
  ∃ t', co_spawn_all self vs l t =
      Ok (set_async (_async_funcs l ++ cs) (_async_funcs_tmp l)
            (_eventfd l + Z.of_nat (length cs)) l, t') ∧
    own_inv t' ∧ NoDup cs ∧ Forall (λ c, frame_at c t' (waiting true)) cs ∧
    (∀ v, v ∈ vs → t_vars t' !! v = Some None) ∧
    (∀ v, v ∉ vs → t_vars t' !! v = t_vars t !! v) ∧
    (∀ c, c ∉ cs → t_frames t' !! c = t_frames t !! c).
Proof.
  intros Hl Hi Hnd H. revert vs cs l t Hl Hi Hnd H. induction vs as [|v vs IH]; intros cs l t Hl Hi Hnd H.
  { inversion H; subst. exists t. split; [|split_and!; try done; set_solver].
    simpl. rewrite app_nil_r, Z.add_0_r. by destruct l. }
  inversion H as [|? c ? cs' [Hv Hf] Ht]; subst. apply NoDup_cons in Hnd as [Hn Hnd].
  destruct (co_spawn_remote self v c l t Hl Hi Hv Hf) as (t1 & E & Hi1 & Hf1 & Hvars & Hfr).
  assert (c ∉ cs') as Hc.
  { intros Hin. apply list_elem_of_lookup in Hin as [i Hci].
    destruct (Forall2_lookup_r _ _ _ _ _ Ht Hci) as (v' & Hvi & Hv' & _).
    rewrite (oi_unique t Hi v v' c Hv Hv') in Hn. apply Hn. by eapply list_elem_of_lookup_2. }
  destruct (IH cs' (set_async (_async_funcs l ++ [c]) (_async_funcs_tmp l) (_eventfd l + 1) l) t1)
    as (t2 & E2 & Hi2 & Hnd2 & Hw & Hvs & Hnv & Hcs); [done|done|done| |].
  { apply Forall2_same_length_lookup_2; [by eapply Forall2_length|]. intros i v' c' Hvi Hci.
    destruct (Forall2_lookup_lr _ _ _ _ _ _ Ht Hvi Hci) as [Hv' Hf'].
    apply list_elem_of_lookup_2 in Hvi, Hci. unfold owned. rewrite Hvars.
    rewrite lookup_insert_ne by (intros <-; done). split; [done|].
    eapply frame_at_same; [|done]. apply Hfr. intros ->. done. }
  exists t2. split_and!; [|done|by constructor| | | |].
  - simpl. rewrite E. cbn [mbind res_bind]. rewrite E2. unfold set_async. simpl.
    rewrite <- app_assoc. simpl. do 3 f_equal. lia.
  - constructor; [|done]. eapply frame_at_same; [|done]. by apply Hcs.
  - intros v'. rewrite elem_of_cons. intros [->|Hin]; [|by apply Hvs].
    by rewrite Hnv, Hvars, lookup_insert_eq.
  - intros v'. rewrite not_elem_of_cons. intros [Hne Hin]. rewrite Hnv, Hvars by done.
    by rewrite lookup_insert_ne.
  - intros c'. rewrite not_elem_of_cons. intros [Hne Hin]. rewrite Hcs, Hfr by done. done.
Qed.

Lemma start_spec c t :
  own_inv t → frame_at c t (waiting true) →
  ∃ t', start c t = Ok t' ∧ own_inv t' ∧ frame_at c t' under_way ∧ t_vars t' = t_vars t ∧
    (∀ c', c' ≠ c → t_frames t' !! c' = t_frames t !! c').
Proof.
  intros Hi Hf. destruct (own_start c t Hi) as (t' & E & Hi').
  { unfold frame_at in *. destruct (_ !! c); [|done]. by destruct Hf as (? & -> & _). }
  exists t'. split; [done|]. split; [done|].
  unfold start, promise, frame_at in *. destruct (t_frames t !! c) as [f|] eqn:Ec; [|done].
  destruct Hf as (? & Hs & ?). cbn [mbind res_bind] in E. rewrite bool_decide_true in E by done.
  injection E as <-. simpl. rewrite lookup_insert_eq. split_and!; [done|done|].
  intros c' Hc. by rewrite lookup_insert_ne.
Qed.

Lemma call_all_starts cs l t done_before :
  own_inv t → NoDup cs → Forall (λ c, frame_at c t (waiting true)) cs →
  ∃ t', call_all cs (World l (t, done_before)) = Ok (World l (t', done_before ++ cs)) ∧ own_inv t' ∧
    Forall (λ c, frame_at c t' under_way) cs ∧ t_vars t' = t_vars t ∧
    (∀ c, c ∉ cs → t_frames t' !! c = t_frames t !! c).
Proof.
  revert t done_before. induction cs as [|c cs IH]; intros t before Hi Hnd Hf.
  { exists t. rewrite app_nil_r. by split_and!. }
  apply NoDup_cons in Hnd as [Hn Hnd]. apply Forall_cons in Hf as [Hc Hf].
  destruct (start_spec c t Hi Hc) as (t1 & E & Hi1 & Hc1 & Hv1 & Hfr1).
  destruct (IH t1 (before ++ [c]) Hi1 Hnd) as (t2 & E2 & Hi2 & Hf2 & Hv2 & Hfr2).
  { rewrite Forall_forall in Hf |- *. intros c' Hin. eapply frame_at_same; [|by apply Hf].
    apply Hfr1. by intros ->. }
  exists t2. split_and!; [|done| |congruence|].
  - simpl. rewrite E. cbn [mbind res_bind]. rewrite <- app_assoc in E2. exact E2.
  - constructor; [|done]. eapply frame_at_same; [|done]. by apply Hfr2.
  - intros c'. rewrite not_elem_of_cons. intros [Hne Hin]. by rewrite Hfr2, Hfr1.
Qed.

(** When the body of a spawned task ends without an exception its frame goes. *)
Lemma spawned_frame_freed c t x :
  frame_at c t under_way → finish c (Returns x) t = Ok (set_frames (delete c (t_frames t)) t,
    match t_frames t !! c with Some f => f_parent f | None => None end, None).
Proof.
  unfold frame_at, finish, promise. destruct (t_frames t !! c) as [f|] eqn:Ec; [|done].
  intros (Hk & _ & Hd). cbn [mbind res_bind]. rewrite Hk, Hd. unfold destroy. by rewrite Ec.
Qed.

(** C19. Tasks spawned from another thread, on a loop whose queue is empty.  Each
    task object gives its frame up and the loop's event descriptor becomes readable; when
    the loop handles it, the coroutines resumed are exactly those spawned, each once and
    in the order of spawning, every one suspended at its start until then (resuming any
    other coroutine is a fault); no frame is lost or owned twice, the queue is empty and
    the loop waits for the next wake-up; a body that then returns frees its own frame. *)
Theorem co_spawn_all_started (self fd : Z) (vs cs : list nat) (l : io_loop K) (t : tasks)
  (Hremote : is_local_thread self l = false) (Hidle : _async_funcs l = [] ∧ _async_funcs_tmp l = [])
  (Hfd : 0 <= fd < Z.of_nat (length (_fds l))) (Hefd : 0 <= _eventfd l)
  (Hi : own_inv t) (Hnd : NoDup vs)
  (Hvs : Forall2 (λ v c, owned t v c ∧ frame_at c t (waiting false)) vs cs) :
  ∃ l1 t1 w,
    co_spawn_all self vs l t = Ok (l1, t1) ∧ _async_funcs l1 = cs ∧
    (vs ≠ [] → 0 < _eventfd l1) ∧ (∀ v, v ∈ vs → t_vars t1 !! v = Some None) ∧
    loop_on_file_event fd (World l1 (t1, [])) = Ok w ∧ (w_user w).2 = cs ∧
    _async_funcs (w_loop w) = [] ∧ _async_funcs_tmp (w_loop w) = [] ∧ _eventfd (w_loop w) = 0 ∧
    sub (w_loop w) fd DirR = Some loop_cb ∧ own_inv (w_user w).1 ∧
    Forall (λ c, frame_at c (w_user w).1 under_way ∧
      ∀ x, ∃ t' next, finish c (Returns x) (w_user w).1 = Ok (t', next, None) ∧
        t_frames t' !! c = None) cs ∧
    (∀ c, c ∉ cs → t_frames (w_user w).1 !! c = t_frames t !! c).
Proof.
  destruct Hidle as [Hq Htmp].
  destruct (co_spawn_all_spec self vs cs l t Hremote Hi Hnd Hvs)
    as (t1 & E & Hi1 & Hnd1 & Hw1 & Hv1 & _ & Hfr1).
  set (l1 := set_async _ _ _ l) in E.
  destruct (call_all_starts cs (set_async [] cs 0 l1) t1 [] Hi1 Hnd1 Hw1)
    as (t2 & E2 & Hi2 & Hf2 & Hv2 & Hfr2).
  assert (is_Some (_fds l !! Z.to_nat fd)) as [fe Hfe] by (apply lookup_lt_is_Some_2; lia).
  assert (loop_on_file_event fd (World l1 (t1, [])) =
    Ok (World (fds_put fd (EsFile (_fd fe) (_event fe) (_func_w fe) (Some loop_cb))
                 (set_async [] [] 0 l1)) (t2, cs))) as Ew.
  { unfold loop_on_file_event, on_loop, epoch, l1. simpl. rewrite Hq, Htmp. simpl.
    unfold l1 in E2. rewrite Hq, Htmp in E2. simpl in E2. unfold set_async in *. simpl in *.
    rewrite E2. cbn [mbind res_bind]. simpl. rewrite bool_decide_eq_true_2 by done. simpl.
    unfold fds_at. simpl. destruct (fd <? 0) eqn:?; [lia|]. by rewrite Hfe. }
  eexists l1, t1, _. split; [exact E|]. split; [by unfold l1; simpl; rewrite Hq|]. split.
  { intros Hne. unfold l1. simpl. apply Forall2_length in Hvs. destruct vs; [done|].
    simpl in Hvs. lia. }
  split; [exact Hv1|]. split; [exact Ew|]. simpl. split_and!; try done.
  - unfold sub, ent, fds_put. simpl. destruct (fd <? 0) eqn:?; [lia|].
    rewrite list_lookup_insert_eq by lia. done.
  - eapply Forall_impl; [exact Hf2|]. intros c Hc. split; [exact Hc|]. intros x. eexists _, _.
    split; [by apply spawned_frame_freed|]. simpl. apply lookup_delete_eq.
  - intros c Hc. by rewrite Hfr2, Hfr1.
Qed.
End spawn.

#[local] Existing Instance spawn_callbacks.

Definition demo_spawned : tasks := call_coroutine 6 KVoid false (call_coroutine 5 KVoid false no_tasks).

Lemma demo_spawned_inv : own_inv demo_spawned.
Proof. apply own_call; [apply own_call; [apply own_inv_empty|done]|done]. Qed.

Lemma co_spawn_all_started_witness :
  ∃ l, io_loop_init (∅ : gmap Z Z) 3 = Ok l ∧
  ∃ l1 t1 w, co_spawn_all 9 [6; 5]%nat l demo_spawned = Ok (l1, t1) ∧
    loop_on_file_event 3 (World l1 (t1, [])) = Ok w ∧ (w_user w).2 = [1; 0]%nat ∧ own_inv (w_user w).1.
Proof.
  destruct (io_loop_init (∅ : gmap Z Z) 3) as [l|] eqn:E; [|done].
  exists l. split; [done|].
  assert (_async_funcs l = [] ∧ _async_funcs_tmp l = [] ∧ m_thread_id l = None ∧ _eventfd l = 0 ∧
    (3 < length (_fds l))%nat) as (H1 & H2 & H3 & H4 & H5).
  { vm_compute in E. injection E as <-. repeat split. simpl. lia. }
  edestruct (co_spawn_all_started 9 3 [6; 5]%nat [1; 0]%nat l demo_spawned)
    as (l1 & t1 & w & Ha & _ & _ & _ & Hb & Hd & _ & _ & _ & _ & Hc & _).
  - unfold is_local_thread. by rewrite H3.
  - done.
  - lia.
  - lia.
  - apply demo_spawned_inv.
  - apply NoDup_cons. split; [by intros ?%list_elem_of_singleton|apply NoDup_singleton].
  - repeat constructor.
  - by exists l1, t1, w.
Defined.
