(* ===== verification/InetAddress.v ===== *)
(** * Internet addresses ([coio/inet_address.h], [coio/inet_address.cpp])

    [inet_address] is a union of [sockaddr_in] (16 bytes) and [sockaddr_in6] (28
    bytes).  Family and port lie at the same place in both; the rest is kept as the
    byte ranges the two views share, so that an assignment through one view is
    visible through the other and a [memset] or [memcpy] of one view leaves the
    bytes beyond it alone. *)

From stdpp Require Import strings pretty.
From S2P Require Import Prelude Socket Zio.

Definition AF_UNSPEC : Z := 0.
Definition AF_INET6 : Z := 10.
Definition INADDR_ANY : list Z := replicate 4 0.
Definition in6addr_any : list Z := replicate 16 0.

(** [w_port] is the 16-bit field as stored (network byte order); [w_4] is
    [sin_addr] or [sin6_flowinfo] (bytes 4 to 7), [w_8] holds [sin_zero] or
    [sin6_addr] (bytes 8 to 23), [w_24] is [sin6_scope_id]. *)
Record inet_address := InetAddress {
  sa_family : Z;
  w_port : Z;
  w_4 : list Z;
  w_8 : list Z;
  w_24 : list Z;
}.
#[export] Instance inet_address_eq_dec : EqDecision inet_address.
Proof. solve_decision. Defined.

Definition family (a : inet_address) : Z := sa_family a.
Definition port (a : inet_address) : Z := ntohs (w_port a).
Definition reset_port (p : Z) (a : inet_address) : inet_address :=
  InetAddress (sa_family a) (htons p) (w_4 a) (w_8 a) (w_24 a).
Definition addr_length (a : inet_address) : Z := if family a =? AF_INET6 then 28 else 16.

(** [inet_address()]: only the family is written; [g] is what the storage
    held before, here and below. *)
Definition inet_address_default (g : inet_address) : inet_address :=
  InetAddress AF_UNSPEC (w_port g) (w_4 g) (w_8 g) (w_24 g).

(** [inet_address(port, is_ipv6)] *)
Definition inet_address_listen (g : inet_address) (p : Z) (is_ipv6 : bool) : inet_address :=
  if is_ipv6 then InetAddress AF_INET6 (htons p) (replicate 4 0) in6addr_any (replicate 4 0)
  else InetAddress AF_INET (htons p) INADDR_ANY (replicate 8 0 ++ drop 8 (w_8 g)) (w_24 g).

(** An object a [const sockaddr &] can refer to, with its size. *)
Record sockaddr_obj := SockaddrObj { so_bytes : inet_address; so_size : Z }.

(** [inet_address(const sockaddr &)]: [memcpy] of 16 or 28 bytes. *)
Definition inet_address_of (ndebug : bool) (g : inet_address) (s : sockaddr_obj) : res inet_address :=
  let b := so_bytes s in
  if sa_family b =? AF_INET then
    require (16 <=? so_size s) OutOfBounds ≫= λ _,
    Ok (InetAddress (sa_family b) (w_port b) (w_4 b) (take 8 (w_8 b) ++ drop 8 (w_8 g)) (w_24 g))
  else if sa_family b =? AF_INET6 then
    require (28 <=? so_size s) OutOfBounds ≫= λ _, Ok b
  else require ndebug AssertFail ≫= λ _, Ok g.

(** [*get_sockaddr()], an object of [length()] bytes for the socket calls. *)
Definition get_sockaddr (a : inet_address) : sockaddr_obj := SockaddrObj a (addr_length a).

(** [std::string_view]: the characters from [data()] up to a NUL, and [size()]. *)
Record string_view := StringView { sv_data : string; sv_size : nat }.
Definition sv_of (s : string) : string_view := StringView s (String.length s).

Fixpoint contains (c : Ascii.ascii) (s : string) : bool :=
  match s with
  | EmptyString => false
  | String c' s => Ascii.eqb c' c || contains c s
  end.
Definition colon : Ascii.ascii := Ascii.Ascii false true false true true true false false.

(** [inet_pton] and [inet_ntop] for the two families. *)
Class InetText := {
  pton4 : string → option (list Z);
  pton6 : string → option (list Z);
  ntop4 : list Z → string;
  ntop6 : list Z → string;
}.

Section text.
Context `{!InetText}.
Variable ndebug : bool.

(** [inet_address(ip, port)]: [inet_pton] gets [ip.data()], whatever [size()]
    is; on a failed conversion the destination is left as it is. *)
Definition inet_address_connect (g : inet_address) (ip : string_view) (p : Z) : res inet_address :=
  let a := reset_port p g in
  let '(a, r) :=
    if contains colon (String.substring 0 (sv_size ip) (sv_data ip)) then
      match pton6 (sv_data ip) with
      | Some bs => (InetAddress AF_INET6 (w_port a) (w_4 a) bs (w_24 a), true)
      | None => (InetAddress AF_INET6 (w_port a) (w_4 a) (w_8 a) (w_24 a), false)
      end
    else
      match pton4 (sv_data ip) with
      | Some bs => (InetAddress AF_INET (w_port a) bs (w_8 a) (w_24 a), true)
      | None => (InetAddress AF_INET (w_port a) (w_4 a) (w_8 a) (w_24 a), false)
      end in
  require (ndebug || r) AssertFail ≫= λ _, Ok a.

Definition to_ip (a : inet_address) : string :=
  if family a =? AF_INET then ntop4 (w_4 a) else ntop6 (w_8 a).

(** [snprintf(buf, 32, ":%u", port())] *)
Definition port_text (a : inet_address) : string :=
  String colon (String.substring 0 30 (pretty (Z.to_N (port a)))).
Definition to_ip_port (a : inet_address) : string :=
  if family a =? AF_INET6 then "[" +:+ to_ip a +:+ "]" +:+ port_text a
  else to_ip a +:+ port_text a.
End text.

(** [operator==] *)
Definition inet_eq (a b : inet_address) : bool :=
  if negb (family a =? family b) then false
  else if family a =? AF_INET then (w_port a =? w_port b) && bool_decide (w_4 a = w_4 b)
  else (w_port a =? w_port b) && bool_decide (w_8 a = w_8 b).

(** ** Name resolution *)

Section resolve.
(** [getaddrinfo]: an error, or the linked list's addresses. *)
Variable getaddrinfo : string → Z → Z + list sockaddr_obj.
Variable ndebug : bool.
Variable g : inet_address.

Definition AI_ADDRCONFIG : Z := 32.

Fixpoint addresses (p : Z) (l : list sockaddr_obj) : res (list inet_address) :=
  match l with
  | [] => Ok []
  | s :: l =>
      a ← inet_address_of ndebug g s;
      ret ← addresses p l;
      Ok (reset_port p a :: ret)
  end.

(** [resolve_all(hostname, port, hints)]; of the hints only the flags matter
    here.  A successful [getaddrinfo] with an empty list meets the [assert]. *)
Definition resolve_all (hostname : string_view) (p flags : Z) : res (list inet_address) :=
  match getaddrinfo (sv_data hostname) flags with
  | inl _ => Ok []
  | inr l =>
      require (ndebug || negb (bool_decide (length l = O))) AssertFail ≫= λ _, addresses p l
  end.

(** [resolve(hostname, port, out)]; [None] when it returns false, otherwise the
    value assigned to [out]. *)
Definition resolve (hostname : string_view) (p : Z) : res (option inet_address) :=
  addrs ← resolve_all hostname p AI_ADDRCONFIG; Ok (last addrs).
End resolve.

(** ** Lemmas *)

Lemma ntohs_value x : 0 <= x < 2 ^ 16 → ntohs x = x mod 256 * 256 + x / 256.
Proof.
  intros Hx. unfold ntohs, be_split, be_combine, u8. simpl.
  change (2 ^ 8) with 256. rewrite !Z.div_1_r. rewrite (Z.mod_small (x / 256)); [lia|].
  pose proof (Z.div_pos x 256). pose proof (Z.div_lt_upper_bound x 256 256). lia.
Qed.
Lemma htons_range p : 0 <= p < 2 ^ 16 → 0 <= htons p < 2 ^ 16.
Proof.
  intros Hp. unfold htons. rewrite ntohs_value by done.
  pose proof (Z.mod_pos_bound p 256). pose proof (Z.div_lt_upper_bound p 256 256).
  pose proof (Z.div_pos p 256). lia.
Qed.
Lemma ntohs_htons p : 0 <= p < 2 ^ 16 → ntohs (htons p) = p.
Proof.
  intros Hp. rewrite ntohs_value by (by apply htons_range). unfold htons. rewrite ntohs_value by done.
  pose proof (Z.div_mod p 256). pose proof (Z.mod_pos_bound p 256).
  pose proof (Z.div_lt_upper_bound p 256 256). pose proof (Z.div_pos p 256).
  set (q := p / 256) in *. set (r := p mod 256) in *.
  replace (r * 256 + q) with (q + r * 256) by lia.
  rewrite Z_mod_plus_full, Z.mod_small, Z.div_add, Z.div_small by lia. lia.
Qed.

(** What a socket call sees of an address. *)
Definition endpoint (a : inet_address) : Z * Z * list Z :=
  (family a, w_port a, if family a =? AF_INET then w_4 a else w_8 a).

Lemma inet_eq_spec a b : inet_eq a b = true ↔ endpoint a = endpoint b.
Proof.
  unfold inet_eq, endpoint. split.
  - case_cond; [done|]. bool_prop. rewrite <- C.
    destruct (family a =? AF_INET); intros H; bool_prop;
      match goal with H : bool_decide _ = true |- _ => apply bool_decide_eq_true in H end; congruence.
  - intros [= Hf Hp Ha]. rewrite Hf in Ha |- *. rewrite Z.eqb_refl, Hp, Z.eqb_refl. simpl.
    destruct (family b =? AF_INET); simpl; by apply bool_decide_eq_true.
Qed.

(** The bytes of a [sockaddr_in6] are in range and complete. *)
Definition addr_wf (a : inet_address) : Prop :=
  0 <= w_port a < 2 ^ 16 ∧ length (w_4 a) = 4%nat ∧ length (w_8 a) = 16%nat ∧
  length (w_24 a) = 4%nat.

(** ** Properties *)

(** C33. [operator==] compares endpoints: it is true exactly when family, port and
    the address of that family agree, whatever the other bytes of the union hold
    (flow label, scope, padding, left-overs of another address), and so it is an
    equivalence relation. *)
Theorem inet_eq_endpoint :
  (∀ a b, inet_eq a b = true ↔ endpoint a = endpoint b) ∧ Equivalence (λ a b, inet_eq a b = true).
Proof.
  split; [exact inet_eq_spec|]. split.
  - intros a. by apply inet_eq_spec.
  - intros a b. rewrite !inet_eq_spec. done.
  - intros a b c. rewrite !inet_eq_spec. congruence.
Qed.

(** Ports: what is stored by [reset_port] or by a constructor is read back by
    [port], for both families and every 16-bit port, and [reset_port] changes
    nothing else. *)
Theorem port_roundtrip (p : Z) (Hp : 0 <= p < 2 ^ 16) (g a : inet_address) (v6 : bool) :
  port (reset_port p a) = p ∧ port (inet_address_listen g p v6) = p ∧
  family (reset_port p a) = family a ∧ reset_port (port a) (reset_port p a) = reset_port (port a) a ∧
  (∀ b, inet_eq a b = true → inet_eq (reset_port p a) (reset_port p b) = true).
Proof.
  split_and!.
  - unfold port. simpl. by apply ntohs_htons.
  - unfold port, inet_address_listen. destruct v6; simpl; by apply ntohs_htons.
  - done.
  - done.
  - intros b. rewrite !inet_eq_spec. unfold endpoint, family. simpl.
    intros [= Hf _ Ha]. by rewrite Ha, Hf.
Qed.

(** Through the sockets interface and back: an address of either family that
    is handed out by [get_sockaddr] and read in again by the [sockaddr] constructor
    (over any previous contents) compares equal; for IPv6 it is the same in every
    byte. *)
Theorem sockaddr_roundtrip (ndebug : bool) (g a : inet_address)
  (Hfam : family a = AF_INET ∨ family a = AF_INET6) :
  ∃ b, inet_address_of ndebug g (get_sockaddr a) = Ok b ∧ inet_eq b a = true ∧
    (family a = AF_INET6 → b = a).
Proof.
  unfold inet_address_of, get_sockaddr, addr_length. simpl. unfold family in *.
  destruct Hfam as [E|E]; rewrite E; simpl; eexists; (split; [done|]); split; try done.
  - apply inet_eq_spec. unfold endpoint, family. simpl. by rewrite E.
  - by apply inet_eq_spec.
Qed.

(** An IPv6 address read through a [sockaddr] object of its nominal 16 bytes. *)
Lemma inet_address_of_short ndebug g s :
  sa_family (so_bytes s) = AF_INET6 → so_size s < 28 → inet_address_of ndebug g s = Fail OutOfBounds.
Proof.
  intros E Hs. unfold inet_address_of. rewrite E. simpl.
  by rewrite (proj2 (Z.leb_gt 28 (so_size s))) by lia.
Qed.

(** inet_ntop(3) and inet_pton(3): the text of an address is read back as the
    address; dotted decimals have no colon, IPv6 text has one. *)
Class InetTextLaws `{!InetText} : Prop := {
  pton4_ntop4 bs : length bs = 4%nat → bytes_ok bs → pton4 (ntop4 bs) = Some bs;
  pton6_ntop6 bs : length bs = 16%nat → bytes_ok bs → pton6 (ntop6 bs) = Some bs;
  ntop4_colon bs : contains colon (ntop4 bs) = false;
  ntop6_colon bs : contains colon (ntop6 bs) = true;
}.

Lemma substring_all s : String.substring 0 (String.length s) s = s.
Proof. induction s as [|c s IH]; simpl; [done|]. by rewrite IH. Qed.

Section text_props.
Context `{!InetText} `{!InetTextLaws}.

(** C34. Text and back: the address made from [to_ip()] and [port()] of an address
    of either family compares equal to it. *)
Theorem text_roundtrip (ndebug : bool) (g a : inet_address)
  (Hfam : family a = AF_INET ∨ family a = AF_INET6)
  (Hwf : addr_wf a) (Hok : bytes_ok (w_4 a) ∧ bytes_ok (w_8 a)) :
  ∃ b, inet_address_connect ndebug g (sv_of (to_ip a)) (port a) = Ok b ∧ inet_eq b a = true.
Proof.
  destruct Hwf as (Hp & H4 & H8 & _), Hok as [Hb4 Hb8].
  assert (htons (port a) = w_port a) as Hport by (unfold port; by apply ntohs_htons).
  unfold inet_address_connect, to_ip, sv_of. simpl. rewrite substring_all.
  destruct Hfam as [E|E]; rewrite E; simpl.
  - rewrite ntop4_colon, pton4_ntop4 by done. rewrite orb_true_r. simpl. rewrite Hport.
    eexists. split; [done|]. apply inet_eq_spec. unfold endpoint. unfold family in *. simpl. by rewrite E.
  - rewrite ntop6_colon, pton6_ntop6 by done. rewrite orb_true_r. simpl. rewrite Hport.
    eexists. split; [done|]. apply inet_eq_spec. unfold endpoint. unfold family in *. simpl. by rewrite E.
Qed.

(** The constructor for connecting never writes the flow label and the scope of
    an IPv6 address: they are what the storage held. *)
Lemma connect_keeps_scope ndebug g ip p a :
  inet_address_connect ndebug g ip p = Ok a → w_24 a = w_24 g ∧ (family a = AF_INET6 → w_4 a = w_4 g).
Proof.
  unfold inet_address_connect. destruct (contains _ _); [destruct (pton6 _)|destruct (pton4 _)];
    intros E; res_inv; by subst a.
Qed.
End text_props.

(** ** Resolution *)

Section resolve_props.
Variable getaddrinfo : string → Z → Z + list sockaddr_obj.
Variables (ndebug : bool) (g : inet_address).

(** An entry of the list [getaddrinfo] returns for an internet host. *)
Definition entry_ok (s : sockaddr_obj) : Prop :=
  (sa_family (so_bytes s) = AF_INET ∧ 16 <= so_size s) ∨
  (sa_family (so_bytes s) = AF_INET6 ∧ 28 <= so_size s).

Lemma inet_address_of_ok s :
  entry_ok s → ∃ a, inet_address_of ndebug g s = Ok a ∧ inet_eq a (so_bytes s) = true.
Proof.
  unfold inet_address_of, entry_ok. intros [[E Hs]|[E Hs]]; rewrite E; simpl;
    rewrite (proj2 (Z.leb_le _ (so_size s))) by done; simpl; eexists; (split; [done|]);
    apply inet_eq_spec; unfold endpoint, family; simpl; by rewrite ?E.
Qed.

Lemma addresses_spec p l :
  Forall entry_ok l →
  ∃ as_, addresses ndebug g p l = Ok as_ ∧
    Forall2 (λ a s, inet_eq a (reset_port p (so_bytes s)) = true) as_ l.
Proof.
  induction 1 as [|s l Hs _ IH]; simpl; [by exists []|].
  destruct (inet_address_of_ok s Hs) as (a & -> & Ha). destruct IH as (as_ & -> & Has).
  cbn [mbind res_bind]. exists (reset_port p a :: as_). split; [done|]. constructor; [|done].
  apply inet_eq_spec in Ha. apply inet_eq_spec. unfold endpoint, family in *. simpl.
  injection Ha as Hf _ Ha. by rewrite Ha, Hf.
Qed.

(** [resolve] takes the last address [getaddrinfo] returned, with the port put
    in, whatever its family and the families of the others ([addrs.back()], said to
    give IPv4 precedence), and returns false exactly when [getaddrinfo] failed. *)
Theorem resolve_last (hostname : string_view) (p : Z) (Hp : 0 <= p < 2 ^ 16)
  (Hlist : ∀ l, getaddrinfo (sv_data hostname) AI_ADDRCONFIG = inr l → l ≠ [] ∧ Forall entry_ok l) :
  match getaddrinfo (sv_data hostname) AI_ADDRCONFIG with
  | inl _ => resolve getaddrinfo ndebug g hostname p = Ok None
  | inr l => ∃ s a, last l = Some s ∧ resolve getaddrinfo ndebug g hostname p = Ok (Some a) ∧
      port a = p ∧ inet_eq a (reset_port p (so_bytes s)) = true
  end.
Proof.
  unfold resolve, resolve_all. destruct (getaddrinfo _ _) as [e|l]; [done|].
  destruct (Hlist l eq_refl) as [Hne Hok]. destruct (addresses_spec p l Hok) as (as_ & E & Has).
  rewrite bool_decide_eq_false_2 by (by destruct l). rewrite orb_true_r. cbn [require mbind res_bind].
  rewrite E. cbn [mbind res_bind]. destruct l as [|s l _] using rev_ind; [done|].
  apply Forall2_app_inv_r in Has as (as1 & as2 & _ & H2 & ->).
  inversion H2 as [|a ? ? ? Ha H0]; subst. inversion H0; subst. exists s, a.
  rewrite !last_snoc. split_and!; try done.
  apply inet_eq_spec in Ha. injection Ha as _ Hw _. unfold port. rewrite Hw. by apply ntohs_htons.
Qed.
End resolve_props.

(** ** Witnesses *)

(** A text form: every byte as two letters, IPv6 after a colon. *)
Definition nibble (x : Z) : Ascii.ascii := Ascii.ascii_of_nat (97 + Z.to_nat (x mod 16)).
#[local] Arguments nibble : simpl never.
Fixpoint enc (bs : list Z) : string :=
  match bs with
  | [] => ""
  | b :: bs => String (nibble (b / 16)) (String (nibble b) (enc bs))
  end.
Definition unnibble (c : Ascii.ascii) : Z := Z.of_nat (Ascii.nat_of_ascii c) - 97.
Fixpoint dec (s : string) : option (list Z) :=
  match s with
  | String c1 (String c2 s) => cons (unnibble c1 * 16 + unnibble c2) <$> dec s
  | EmptyString => Some []
  | _ => None
  end.

#[export] Instance letters_text : InetText := {|
  pton4 := dec;
  pton6 s := match s with String _ s => dec s | _ => None end;
  ntop4 := enc;
  ntop6 bs := String colon (enc bs);
|}.

Lemma unnibble_nibble x : unnibble (nibble x) = x mod 16.
Proof.
  unfold unnibble, nibble. pose proof (Z.mod_pos_bound x 16). rewrite Ascii.nat_ascii_embedding; lia.
Qed.
Lemma nibble_colon x : Ascii.eqb (nibble x) colon = false.
Proof.
  unfold nibble. pose proof (Z.mod_pos_bound x 16).
  assert (Z.to_nat (x mod 16) < 16)%nat as Hn by lia. revert Hn.
  generalize (Z.to_nat (x mod 16)) as n. intros n Hn.
  do 16 (destruct n as [|n]; [reflexivity|]). lia.
Qed.
Lemma dec_enc bs : bytes_ok bs → dec (enc bs) = Some bs.
Proof.
  induction 1 as [|b bs Hb _ IH]; simpl; [done|]. rewrite IH, !unnibble_nibble. simpl. do 2 f_equal.
  change (2 ^ 8) with 256 in Hb. pose proof (Z.div_lt_upper_bound b 16 16).
  pose proof (Z.div_pos b 16). rewrite (Z.mod_small (b / 16)) by lia.
  pose proof (Z.div_mod b 16). lia.
Qed.
#[export] Instance letters_text_laws : InetTextLaws.
Proof.
  split; simpl; [by intros; apply dec_enc..| |done].
  induction bs as [|b bs IH]; [done|]. cbn [enc contains]. rewrite !nibble_colon. exact IH.
Qed.

Definition demo_store : inet_address := InetAddress 77 77 [9; 9; 9; 9] (replicate 16 9) [9; 9; 9; 9].
Definition demo_v4 : inet_address :=
  InetAddress AF_INET (htons 8080) [10; 0; 0; 7] (replicate 16 0) (replicate 4 0).
Definition demo_v6 : inet_address :=
  InetAddress AF_INET6 (htons 8080) (replicate 4 0) (replicate 15 0 ++ [1]) (replicate 4 0).

Lemma port_roundtrip_witness :
  port (reset_port 8080 demo_v6) = 8080 ∧ port (inet_address_listen demo_store 8080 true) = 8080.
Proof.
  destruct (port_roundtrip 8080 ltac:(lia) demo_store demo_v6 true) as (H1 & H2 & _).
  exact (conj H1 H2).
Defined.

Lemma sockaddr_roundtrip_witness :
  ∃ b, inet_address_of false demo_store (get_sockaddr demo_v4) = Ok b ∧ inet_eq b demo_v4 = true ∧
    (family demo_v4 = AF_INET6 → b = demo_v4).
Proof. apply (sockaddr_roundtrip false demo_store demo_v4). left. reflexivity. Defined.

Lemma text_roundtrip_witness :
  ∃ b, inet_address_connect false demo_store (sv_of (to_ip demo_v6)) (port demo_v6) = Ok b ∧
    inet_eq b demo_v6 = true.
Proof.
  apply (text_roundtrip false demo_store demo_v6).
  - right. reflexivity.
  - vm_compute. split; [split; [discriminate|reflexivity]|]. split; [reflexivity|split; reflexivity].
  - split; apply (bool_decide_unpack _); vm_compute; exact I.
Defined.

(** An IPv4 address first, an IPv6 address last: the latter is taken. *)
Lemma resolve_last_witness :
  let gai (_ : string) (_ : Z) : Z + list sockaddr_obj :=
    inr [SockaddrObj demo_v4 16; SockaddrObj demo_v6 28] in
  ∃ s a, last [SockaddrObj demo_v4 16; SockaddrObj demo_v6 28] = Some s ∧
    resolve gai false demo_store (sv_of "example") 443 = Ok (Some a) ∧
    port a = 443 ∧ inet_eq a (reset_port 443 (so_bytes s)) = true.
Proof.
  intros gai. apply (resolve_last gai false demo_store (sv_of "example") 443); [lia|].
  intros l [= <-]. split; [discriminate|].
  apply Forall_cons; split; [left; split; [reflexivity|simpl; lia]|].
  apply Forall_cons; split; [right; split; [reflexivity|simpl; lia]|]. by apply Forall_nil.
Defined.

(** A view that ends before a port: the text handed on does not end there. *)
Example connect_reads_past_view :
  inet_address_connect false demo_store (StringView "kaaaaaah:80" 8) 80 = Fail AssertFail.
Proof. reflexivity. Qed.
