(* ===== verification/ZioConnect.v ===== *)
(** * Connecting with the blocking helpers ([common/zio.h])

    The address builders and the overloads of [zio::connect] and [zio::bind]: what
    reaches the kernel as [sockaddr] and length, and which addresses cannot be
    expressed.  Addresses are the byte-accurate records of [InetAddress]. *)

From stdpp Require Import strings.
From S2P Require Import Prelude Socket Zio InetAddress.

Definition AF_UNIX : Z := 1.
(** [sizeof(sun_path)] and [sizeof(sockaddr)], [sizeof(sockaddr_in)],
    [sizeof(sockaddr_un)] *)
Definition sun_path_size : Z := 108.
Definition sizeof_sockaddr : Z := 16.
Definition sizeof_sockaddr_in : Z := 16.
Definition sizeof_sockaddr_un : Z := 110.

(** What [connect] and [bind] are given: null, an internet address of which the
    first [n] bytes are there, or a path. *)
Inductive sockaddr_arg :=
  | SaNull
  | SaInet (a : inet_address) (n : Z)
  | SaUnix (path : string).

(** The calls of the kernel that matter here; 0 or -1. *)
Class ConnectKernel (K : Type) := {
  k_connect : K → Z → sockaddr_arg → Z → K * Z;
  k_bind_addr : K → Z → sockaddr_arg → Z → K * Z;
  k_stream : K → Z → K * Z;
  k_getsockname : K → Z → option inet_address;
}.

Section connect.
Context {K : Type} `{!ConnectKernel K} `{!InetText}.
(** [inet_addr], in network byte order, and [getaddrinfo]. *)
Variable inet_addr : string → Z.
Variable getaddrinfo : string → string → Z + list sockaddr_obj.
Implicit Type k : K.

(** A [sockaddr_in] as the bytes of the union; [build_addr] zeroes it first. *)
Definition of_sockaddr_in (s : sockaddr_in) : inet_address :=
  InetAddress (sin_family s) (sin_port s) (rev (be_split 4 (sin_addr s))) (replicate 16 0) (replicate 4 0).

(** [build_addr(sockaddr *, host, port)]: the first 16 bytes of the first
    address found. *)
Definition build_addr_host (host port : string) : sockaddr_arg :=
  match getaddrinfo host port with
  | inr (r :: _) => SaInet (so_bytes r) sizeof_sockaddr_in
  | _ => SaNull
  end.

Definition connect_sockaddr (fd : Z) (sa : sockaddr_arg) k : K * Z := k_connect k fd sa sizeof_sockaddr.
Definition connect_in (fd : Z) (sa : sockaddr_in) k : K * Z :=
  k_connect k fd (SaInet (of_sockaddr_in sa) sizeof_sockaddr_in) sizeof_sockaddr_in.
Definition connect_un (fd : Z) (path : string) k : K * Z :=
  k_connect k fd (SaUnix path) sizeof_sockaddr_un.
Definition bind_in (fd : Z) (sa : sockaddr_in) k : K * Z :=
  k_bind_addr k fd (SaInet (of_sockaddr_in sa) sizeof_sockaddr_in) sizeof_sockaddr_in.
Definition bind_un (fd : Z) (path : string) k : K * Z :=
  k_bind_addr k fd (SaUnix path) sizeof_sockaddr_un.

Definition bind_ip (fd : Z) (ip : string) (port : Z) k : K * Z :=
  bind_in fd (build_addr_str (inet_addr ip) port) k.
Definition bind_inaddr (fd inaddr port : Z) k : K * Z := bind_in fd (build_addr inaddr port) k.
Definition connect_inaddr (fd inaddr port : Z) k : K * Z := connect_in fd (build_addr inaddr port) k.
Definition connect_host (fd : Z) (host port : string) k : K * Z :=
  connect_sockaddr fd (build_addr_host host port) k.
Definition connect_ip (fd : Z) (ip : string) (port : Z) k : K * Z :=
  connect_in fd (build_addr_str (inet_addr ip) port) k.

(** [connect_domain]: [strcpy] into [sun_path]. *)
Definition connect_domain (fd : Z) (socket_path : string) k : res (K * Z) :=
  require (Z.of_nat (String.length socket_path) + 1 <=? sun_path_size) OutOfBounds ≫= λ _,
  Ok (connect_un fd socket_path k).

Definition build_stream_unix_domain k : K * Z := k_stream k AF_UNIX.
Definition build_stream k : K * Z := k_stream k AF_INET.

(** [get_local_ip]: [getsockname] fills 16 bytes, which are read as a
    [sockaddr_in]; empty on an error. *)
Definition get_local_ip (fd : Z) k : string :=
  match k_getsockname k fd with
  | None => ""
  | Some a => ntop4 (w_4 a)
  end.

(** ** What reaches the kernel *)

Lemma ntohl_ntohl x : 0 <= x < 2 ^ 32 → ntohl (ntohl x) = x.
Proof.
  intros Hx. unfold ntohl.
  assert (∀ l, length l = 4%nat → bytes_ok l → be_split 4 (be_combine 0 l) = l) as Hinv.
  { intros l Hl Hb. eapply (be_combine_inj _ _ 0 0);
      [by rewrite be_split_length|apply be_split_ok|done|].
    rewrite be_combine_split, Z.mul_0_l, Z.add_0_l. apply Z.mod_small.
    do 4 (destruct l as [|? l]; [done|]). destruct l; [|done].
    repeat (apply Forall_cons in Hb as [? Hb]). simpl. lia. }
  rewrite Hinv; [|by rewrite length_rev, be_split_length|].
  - rewrite rev_involutive, be_combine_split, Z.mul_0_l, Z.add_0_l. by apply Z.mod_small.
  - apply Forall_rev. apply be_split_ok.
Qed.

(** The endpoint the kernel is asked to connect to: IPv4, the port in network
    order, the address the text stands for. *)
Lemma connect_ip_endpoint fd ip port k :
  0 <= inet_addr ip < 2 ^ 32 → 0 <= port < 2 ^ 16 →
  ∃ a, connect_ip fd ip port k = k_connect k fd (SaInet a 16) 16 ∧
    family a = AF_INET ∧ InetAddress.port a = port ∧ w_4 a = rev (be_split 4 (inet_addr ip)).
Proof.
  intros Hi Hp. eexists. split; [done|]. split; [done|]. split.
  - unfold InetAddress.port. simpl. by apply ntohs_htons.
  - simpl. unfold htonl. by rewrite ntohl_ntohl.
Qed.

(** A host whose first address is an IPv6 one: family [AF_INET6] with 16 of its
    28 bytes, which connect(2) refuses. *)
Lemma connect_host_truncates fd host port k r l :
  getaddrinfo host port = inr (r :: l) → sa_family (so_bytes r) = AF_INET6 →
  connect_host fd host port k = k_connect k fd (SaInet (so_bytes r) 16) 16 ∧
  16 < addr_length (so_bytes r).
Proof.
  intros E Hf. unfold connect_host, build_addr_host. rewrite E. split; [done|].
  unfold addr_length, family. by rewrite Hf.
Qed.

(** Connecting to a Unix socket: every path that fits [sun_path] with its NUL
    is handed to the kernel as it is; a longer one overruns the array. *)
Theorem connect_domain_bounds (fd : Z) (socket_path : string) (k : K) :
  connect_domain fd socket_path k =
    if decide (String.length socket_path ≤ 107)%nat
    then Ok (k_connect k fd (SaUnix socket_path) sizeof_sockaddr_un)
    else Fail OutOfBounds.
Proof.
  unfold connect_domain, sun_path_size. case_decide.
  - rewrite (proj2 (Z.leb_le _ _)) by lia. done.
  - rewrite (proj2 (Z.leb_gt _ _)) by lia. done.
Qed.
End connect.
