(* ===== verification/Clock.v ===== *)
(** * Clock, log and stop signal ([common/clock.h], [log.h], [stop_signal.h])

    [zclock] measures intervals on the steady clock and prints times of the system
    clock; [log_impl] assembles a line in a 4096-byte buffer; [stop_signal] counts
    the termination signals.  The clocks are sequences of readings in nanoseconds,
    [strftime] and the formatting of a message are parameters. *)

From S2P Require Import Prelude.

(** [duration_cast] truncates towards zero. *)
Definition duration_cast (unit_ns x : Z) : Z := Z.quot x unit_ns.
Definition us : Z := 1000.
Definition ms : Z := 1000000.
Definition sec : Z := 1000000000.

Lemma duration_cast_nonneg u x : 0 < u → 0 <= x → duration_cast u x = x / u.
Proof. intros. unfold duration_cast. by rewrite Z.quot_div_nonneg by lia. Qed.

(** ** [zclock] *)

Module Zclock.

Section zclock.
(** Readings of the steady and of the system clock (since the epoch). *)
Variables steady system : nat → Z.

(** [m_start], and how many readings of each clock have been made. *)
Record zclock := Zclock { m_start : Z; steady_ticks : nat; system_ticks : nat }.

Definition reset (c : zclock) : zclock :=
  Zclock (steady (steady_ticks c)) (S (steady_ticks c)) (system_ticks c).
Definition new_zclock : zclock := reset (Zclock 0 0 0).

Definition now_sec (c : zclock) : zclock * Z :=
  (Zclock (m_start c) (steady_ticks c) (S (system_ticks c)),
   u64 (duration_cast sec (system (system_ticks c)))).
Definition now_ms (c : zclock) : zclock * Z :=
  (Zclock (m_start c) (steady_ticks c) (S (system_ticks c)),
   u64 (duration_cast ms (system (system_ticks c)))).

(** [count_ns], [count_us], [count_ms] and [count_sec], by their unit. *)
Definition count (unit_ns : Z) (c : zclock) : zclock * Z :=
  (Zclock (m_start c) (S (steady_ticks c)) (system_ticks c),
   u64 (duration_cast unit_ns (steady (steady_ticks c) - m_start c))).
Definition count_ns : zclock → zclock * Z := count 1.
Definition count_us : zclock → zclock * Z := count us.
Definition count_ms : zclock → zclock * Z := count ms.
Definition count_sec : zclock → zclock * Z := count sec.

(** [pin<duration>] and its instances. *)
Definition pin (unit_ns : Z) (c : zclock) : zclock * Z :=
  let tmp := steady (steady_ticks c) in
  let cnt := duration_cast unit_ns (tmp - m_start c) in
  (Zclock tmp (S (steady_ticks c)) (system_ticks c), u64 cnt).
Definition pin_ns : zclock → zclock * Z := pin 1.
Definition pin_us : zclock → zclock * Z := pin us.
Definition pin_ms : zclock → zclock * Z := pin ms.

(** [n] pins in a row. *)
Fixpoint pins (unit_ns : Z) (n : nat) (c : zclock) : zclock * list Z :=
  match n with
  | O => (c, [])
  | S n =>
      let '(c, x) := pin unit_ns c in
      let '(c, xs) := pins unit_ns n c in (c, x :: xs)
  end.

(** The steady clock never goes back and, within 64 bits of nanoseconds, never
    wraps (steady_clock, [time_point]). *)
Hypothesis steady_mono : ∀ i j, (i ≤ j)%nat → steady i <= steady j.
Hypothesis steady_range : ∀ i, 0 <= steady i < 2 ^ 63.

Definition started (c : zclock) : Prop :=
  ∃ i, (i < steady_ticks c)%nat ∧ m_start c = steady i.

Lemma pin_value u c :
  0 < u → started c →
  (pin u c).2 = (steady (steady_ticks c) - m_start c) / u ∧ started (pin u c).1 ∧
  m_start c <= m_start (pin u c).1.
Proof.
  intros Hu (i & Hi & Hs). pose proof (steady_mono i (steady_ticks c) ltac:(lia)) as Hm.
  pose proof (steady_range i). pose proof (steady_range (steady_ticks c)). split_and!; simpl.
  - rewrite duration_cast_nonneg by lia. apply u64_small.
    pose proof (Z.div_pos (steady (steady_ticks c) - m_start c) u).
    pose proof (Z.div_le_upper_bound (steady (steady_ticks c) - m_start c) u (2 ^ 63)).
    nia.
  - exists (steady_ticks c). simpl. split; [lia|done].
  - lia.
Qed.

Lemma pins_bounds u n c :
  0 < u → started c →
  let '(c', xs) := pins u n c in
  let total := foldr Z.add 0 xs in
  started c' ∧ total * u <= m_start c' - m_start c <= total * u + Z.of_nat n * (u - 1).
Proof.
  intros Hu. revert c. induction n as [|n IH]; intros c Hc; cbn [pins]; [split; [done|simpl; lia]|].
  pose proof (pin_value u c Hu Hc) as (Hx & Hs & Hm).
  assert (m_start (pin u c).1 = steady (steady_ticks c)) as Hst by done.
  destruct (pin u c) as [c1 x]. simpl in *. specialize (IH c1 Hs).
  destruct (pins u n c1) as [c2 xs]. cbv zeta in IH. destruct IH as [Hs2 Hb]. cbn [foldr]. split; [done|].
  pose proof (Z.div_mod (steady (steady_ticks c) - m_start c) u).
  pose proof (Z.mod_pos_bound (steady (steady_ticks c) - m_start c) u). nia.
Qed.
End zclock.

(** Consecutive intervals add up: the values of any number of [pin]s in a row
    sum to the time between the first start and the last reading, exactly in
    nanoseconds and, in a coarser unit, up to less than one unit lost per call. *)
Theorem pins_add_up (steady : nat → Z) (unit_ns : Z) (n : nat) (c : zclock)
  (Hmono : ∀ i j, (i ≤ j)%nat → steady i <= steady j)
  (Hrange : ∀ i, 0 <= steady i < 2 ^ 63)
  (Hunit : 0 < unit_ns) (Hstart : started steady c) :
  let '(c', xs) := pins steady unit_ns n c in
  let elapsed := m_start c' - m_start c in
  let total := foldr Z.add 0 xs in
  total * unit_ns <= elapsed <= total * unit_ns + Z.of_nat n * (unit_ns - 1) ∧
  (unit_ns = 1 → total = elapsed).
Proof.
  pose proof (pins_bounds steady Hmono Hrange unit_ns n c Hunit Hstart) as H.
  destruct (pins steady unit_ns n c) as [c' xs]. cbv zeta in H. destruct H as [_ H]. cbv zeta. split; [done|].
  intros ->. lia.
Qed.

(** One reading in seconds and in milliseconds. *)
Lemma now_sec_ms system c :
  0 <= system (system_ticks c) < 2 ^ 63 → (now_sec system c).2 = (now_ms system c).2 / 1000.
Proof.
  intros Hs. simpl. rewrite !duration_cast_nonneg by (unfold sec, ms; lia).
  set (x := system (system_ticks c)) in *. unfold sec, ms.
  assert (0 <= x / 1000000 < 2 ^ 64).
  { split; [by apply Z.div_pos; lia|]. apply Z.div_lt_upper_bound; lia. }
  assert (0 <= x / 1000000000 < 2 ^ 64).
  { split; [by apply Z.div_pos; lia|]. apply Z.div_lt_upper_bound; lia. }
  rewrite !u64_small by done. by rewrite Z.div_div by lia.
Qed.
End Zclock.


(** ** Printed times and log lines *)

Module Log.

Section log.
(** [strftime(buff, 128, "%F %T", localtime_r(&sec, ...))]: the text, without
    its NUL. *)
Variable strftime : Z → list Z.

(** ["%03d"] of a number below 1000. *)
Definition dec3 (m : Z) : list Z := [48 + m / 100; 48 + m / 10 mod 10; 48 + m mod 10].

(** [sprintf] of the text [bs] at offset [off] of [buff]. *)
Definition put_text (buff : list Z) (off : Z) (bs : list Z) : res (list Z) :=
  write_at buff off (bs ++ [0]).

(** [zclock::now_sec(buff, sec)] and [zclock::now_sec(buff)], for the reading
    [ns] of the system clock. *)
Definition now_sec_text_at (buff : list Z) (s : Z) : res (list Z * Z) :=
  let text := strftime s in
  buff ← put_text buff 0 text;
  Ok (buff, u32 (Z.of_nat (length text))).
Definition now_sec_text (buff : list Z) (ns : Z) : res (list Z * Z) :=
  now_sec_text_at buff (u64 (duration_cast sec ns)).

(** [zclock::now_ms(buff, sec0)] with [buff + off] for [buff]; the result is the
    length. *)
Definition now_ms_text (buff : list Z) (off nms : Z) : res (list Z * Z) :=
  let text := strftime (nms / 1000) in
  buff ← put_text buff off text;
  let n := Z.of_nat (length text) in
  buff ← put_text buff (off + n) (46 :: dec3 (nms mod 1000));
  Ok (buff, u32 (n + 4)).
(** [zclock::now_ms(buff)] *)
Definition now_ms_text_now (buff : list Z) (ns : Z) : res (list Z * Z) :=
  now_ms_text buff 0 (u64 (duration_cast ms ns)).

(** ["%03d"] of a number between -999 and 999. *)
Definition signed3 (m : Z) : list Z :=
  if m <? 0 then 45 :: (if - m <? 100 then [48 + - m / 10; 48 + - m mod 10] else dec3 (- m))
  else dec3 m.

(** [_log_time(buff + off)]: the same with signed milliseconds. *)
Definition _log_time (buff : list Z) (off ns : Z) : res (list Z * Z) :=
  let nms := duration_cast ms ns in
  let text := strftime (Z.quot nms 1000) in
  buff ← put_text buff off text;
  let n := Z.of_nat (length text) in
  buff ← put_text buff (off + n) (46 :: signed3 (Z.rem nms 1000));
  Ok (buff, u32 (n + 4)).

(** [strrchr(F, '/') + 1] *)
Fixpoint base_name (f : list Z) : option (list Z) :=
  match f with
  | [] => None
  | c :: f =>
      match base_name f with
      | Some b => Some b
      | None => if c =? 47 then Some f else None
      end
  end.

(** [snprintf(&buf[n], size, ...)] of the text [msg]: what fits is stored, the
    result is the full length. *)
Definition snprintf (buff : list Z) (off size : Z) (msg : list Z) : res (list Z * Z) :=
  if size =? 0 then Ok (buff, Z.of_nat (length msg))
  else
    buff ← put_text buff off (take (Z.to_nat (size - 1)) msg);
    Ok (buff, Z.of_nat (length msg)).

(** [_log_print]: [fwrite] of [len] bytes. *)
Definition _log_print (s : list Z) (len : Z) : res (list Z) :=
  require ((0 <=? len) && (len <=? Z.of_nat (length s))) OutOfBounds ≫= λ _,
  Ok (take (Z.to_nat len) s).

(** [log_impl]: [buff] is the uninitialised [_log_buf_], [line] the digits of
    [L], [ns] the clock reading, [msg] the expanded [fmt "\n"]; the result is what is
    printed. *)
Definition log_impl (buff level file line : list Z) (ns : Z) (msg : list Z) : res (list Z) :=
  buff ← put_text buff 0 (level ++ [32]);
  let n := Z.of_nat (length level) + 1 in
  '(buff, k) ← _log_time buff n ns;
  let n := n + k in
  match base_name file with
  | None => Fail NullDeref
  | Some base =>
      let text := 32 :: base ++ 58 :: line ++ [32] in
      buff ← put_text buff n text;
      let n := n + Z.of_nat (length text) in
      '(buff, k) ← snprintf buff n (u64 (4096 - n - 1)) msg;
      _log_print buff (n + k)
  end.

(** The levels; [msg] is the expanded [fmt], [err] is [strerror(errno)]. *)
Definition log_debug (buff file line : list Z) (ns : Z) (msg : list Z) : res (list Z) :=
  log_impl buff [68] file line ns (msg ++ [10]).
Definition log_info (buff file line : list Z) (ns : Z) (msg : list Z) : res (list Z) :=
  log_impl buff [73] file line ns (msg ++ [10]).
Definition log_warn (buff file line : list Z) (ns : Z) (msg : list Z) : res (list Z) :=
  log_impl buff [87] file line ns (msg ++ [10]).
Definition log_error (buff file line : list Z) (ns : Z) (msg : list Z) : res (list Z) :=
  log_impl buff [69] file line ns (msg ++ [10]).
Definition log_errno (buff file line : list Z) (ns : Z) (msg err : list Z) : res (list Z) :=
  log_impl buff [69] file line ns (msg ++ 58 :: err ++ [10]).

(** The line as it is meant. *)
Definition time_text (nms : Z) : list Z := strftime (nms / 1000) ++ 46 :: dec3 (nms mod 1000).
Definition log_head (level base line : list Z) (nms : Z) : list Z :=
  level ++ [32] ++ time_text nms ++ 32 :: base ++ 58 :: line ++ [32].

(** ** Lemmas *)

(** After the epoch [_log_time] prints what [zclock::now_ms] prints. *)
Lemma log_time_now_ms buff off ns :
  0 <= ns → _log_time buff off ns = now_ms_text buff off (ns / ms).
Proof.
  intros Hns. unfold _log_time, now_ms_text. rewrite duration_cast_nonneg by (unfold ms; lia).
  assert (0 <= ns / ms) by (apply Z.div_pos; unfold ms; lia).
  rewrite Z.quot_div_nonneg, Z.rem_mod_nonneg by lia.
  assert (signed3 ((ns / ms) mod 1000) = dec3 ((ns / ms) mod 1000)) as ->; [|done].
  unfold signed3. pose proof (Z.mod_pos_bound (ns / ms) 1000).
  by rewrite (proj2 (Z.ltb_ge _ 0)) by lia.
Qed.

(** [buff] begins with the text [pre]. *)
Definition begins (pre buff : list Z) : Prop := take (length pre) buff = pre.

Lemma put_text_begins buff pre bs off :
  begins pre buff → off = Z.of_nat (length pre) →
  (length pre + length bs < length buff)%nat →
  ∃ buff', put_text buff off bs = Ok buff' ∧ begins (pre ++ bs) buff' ∧
    length buff' = length buff.
Proof.
  intros Hpre -> Hlen. unfold put_text.
  assert (write_at buff (Z.of_nat (length pre)) (bs ++ [0]) =
    Ok (take (Z.to_nat (Z.of_nat (length pre))) buff ++ (bs ++ [0]) ++
        drop (Z.to_nat (Z.of_nat (length pre)) + length (bs ++ [0])) buff)) as E.
  { apply write_at_Ok; [lia|]. rewrite length_app. simpl. lia. }
  eexists. split; [exact E|]. split; [|by apply write_at_length in E].
  rewrite Nat2Z.id. unfold begins in *. rewrite Hpre, <- !app_assoc.
  by rewrite (app_assoc pre bs), take_app_length.
Qed.

Lemma now_ms_text_begins buff pre off nms :
  begins pre buff → off = Z.of_nat (length pre) → (length (strftime (nms / 1000)%Z) < 128)%nat →
  (length pre + length (time_text nms) < length buff)%nat →
  ∃ buff', now_ms_text buff off nms = Ok (buff', Z.of_nat (length (time_text nms))) ∧
    begins (pre ++ time_text nms) buff' ∧ length buff' = length buff.
Proof.
  intros Hpre Hoff H128 Hlen. unfold now_ms_text, time_text in *.
  rewrite length_app in Hlen. simpl length in Hlen. set (t := strftime (nms / 1000)) in *.
  destruct (put_text_begins buff pre t off Hpre Hoff) as (b1 & -> & Hb1 & Hl1); [lia|].
  cbn [mbind res_bind].
  destruct (put_text_begins b1 (pre ++ t) (46 :: dec3 (nms mod 1000)) (off + Z.of_nat (length t)) Hb1)
    as (b2 & -> & Hb2 & Hl2); [rewrite length_app; lia|rewrite length_app; simpl; lia|].
  cbn [mbind res_bind]. exists b2. rewrite <- app_assoc in Hb2. split_and!; [|done|lia].
  rewrite length_app. simpl length. rewrite u32_small by lia. do 2 f_equal. lia.
Qed.

(** The buffer after everything but the message has been stored. *)
Definition log_prefix (buff level base line : list Z) (nms : Z) : res (list Z * Z) :=
  buff ← put_text buff 0 (level ++ [32]);
  let n := Z.of_nat (length level) + 1 in
  '(buff, k) ← now_ms_text buff n nms;
  let n := n + k in
  let text := 32 :: base ++ 58 :: line ++ [32] in
  buff ← put_text buff n text;
  Ok (buff, n + Z.of_nat (length text)).

Lemma log_prefix_spec buff level base line nms :
  (length (strftime (nms / 1000)%Z) < 128)%nat →
  (length (log_head level base line nms) < length buff)%nat →
  ∃ buff', log_prefix buff level base line nms =
      Ok (buff', Z.of_nat (length (log_head level base line nms))) ∧
    begins (log_head level base line nms) buff' ∧ length buff' = length buff.
Proof.
  intros H128 Hlen. unfold log_prefix, log_head in *. set (text := 32 :: base ++ 58 :: line ++ [32]) in *.
  rewrite !length_app in Hlen. simpl (length [32]) in Hlen.
  destruct (put_text_begins buff [] (level ++ [32]) 0) as (b1 & -> & Hb1 & Hl1);
    [done|done|rewrite length_app; simpl; lia|]. cbn [mbind res_bind].
  destruct (now_ms_text_begins b1 (level ++ [32]) (Z.of_nat (length level) + 1) nms Hb1)
    as (b2 & -> & Hb2 & Hl2); [rewrite length_app; simpl; lia|done|rewrite length_app; simpl; lia|].
  cbn [mbind res_bind].
  destruct (put_text_begins b2 ((level ++ [32]) ++ time_text nms) text
    (Z.of_nat (length level) + 1 + Z.of_nat (length (time_text nms))) Hb2) as (b3 & -> & Hb3 & Hl3);
    [rewrite !length_app; simpl; lia|rewrite !length_app; simpl (length [32]); lia|].
  cbn [mbind res_bind]. exists b3. rewrite <- !app_assoc in Hb3. split_and!; [|done|lia].
  do 2 f_equal. rewrite !length_app. simpl (length [32]). lia.
Qed.

Lemma log_impl_prefix buff level file base line ns msg :
  base_name file = Some base → 0 <= ns →
  log_impl buff level file line ns msg =
    ('(buff, n) ← log_prefix buff level base line (ns / ms);
     '(buff, k) ← snprintf buff n (u64 (4096 - n - 1)) msg;
     _log_print buff (n + k)).
Proof.
  intros Hb Hns. unfold log_impl, log_prefix. rewrite Hb. destruct (put_text _ _ _); [|done].
  cbn [mbind res_bind]. rewrite log_time_now_ms by done.
  destruct (now_ms_text _ _ _) as [[? ?]|]; [|done].
  cbn [mbind res_bind]. by destruct (put_text _ _ _).
Qed.
End log.

(** A log line that fits is printed as written: level, time with exactly three
    digits of milliseconds, file name without its directories, line and message, in
    this order and nothing else, whatever the buffer held. *)
Theorem log_line (strftime : Z → list Z) (buff level file base line msg : list Z) (ns : Z)
  (Hns : 0 <= ns) (Hbuff : length buff = 4096%nat) (Hbase : base_name file = Some base)
  (Htime : (length (strftime (ns / ms / 1000)%Z) < 128)%nat)
  (Hfits : (length (log_head strftime level base line (ns / ms)) + length msg < 4095)%nat) :
  log_impl strftime buff level file line ns msg = Ok (log_head strftime level base line (ns / ms) ++ msg).
Proof.
  rewrite (log_impl_prefix _ _ _ _ base) by done.
  destruct (log_prefix_spec strftime buff level base line (ns / ms)) as (b1 & -> & Hb1 & Hl1); [done|lia|].
  cbn [mbind res_bind]. set (head := log_head strftime level base line (ns / ms)) in *.
  unfold snprintf. rewrite u64_small by lia. rewrite (proj2 (Z.eqb_neq _ 0)) by lia.
  rewrite take_ge by lia.
  destruct (put_text_begins b1 head msg (Z.of_nat (length head)) Hb1) as (b2 & -> & Hb2 & Hl2);
    [done|lia|]. cbn [mbind res_bind]. unfold _log_print.
  rewrite (proj2 (Z.leb_le 0 _)), (proj2 (Z.leb_le _ (Z.of_nat (length b2)))) by lia.
  cbn [andb require mbind res_bind]. rewrite <- Nat2Z.inj_add, Nat2Z.id, <- length_app. by rewrite Hb2.
Qed.

(** [snprintf] returns the length the message would have had: a line longer
    than the buffer is printed with that length, past the end of the buffer. *)
Theorem log_long_line_overreads (strftime : Z → list Z) (buff level file base line msg : list Z) (ns : Z)
  (Hns : 0 <= ns) (Hbuff : length buff = 4096%nat) (Hbase : base_name file = Some base)
  (Htime : (length (strftime (ns / ms / 1000)%Z) < 128)%nat)
  (Hhead : (length (log_head strftime level base line (ns / ms)) < 4095)%nat)
  (Hlong : (4096 < length (log_head strftime level base line (ns / ms)) + length msg)%nat) :
  log_impl strftime buff level file line ns msg = Fail OutOfBounds.
Proof.
  rewrite (log_impl_prefix _ _ _ _ base) by done.
  destruct (log_prefix_spec strftime buff level base line (ns / ms)) as (b1 & -> & Hb1 & Hl1); [done|lia|].
  cbn [mbind res_bind]. set (head := log_head strftime level base line (ns / ms)) in *.
  unfold snprintf. rewrite u64_small by lia. rewrite (proj2 (Z.eqb_neq _ 0)) by lia.
  destruct (put_text_begins b1 head
    (take (Z.to_nat (4096 - Z.of_nat (length head) - 1 - 1)) msg) (Z.of_nat (length head)) Hb1)
    as (b2 & -> & Hb2 & Hl2); [done|rewrite length_take; lia|].
  cbn [mbind res_bind]. unfold _log_print.
  rewrite (proj2 (Z.leb_gt _ (Z.of_nat (length b2)))) by lia. by rewrite andb_false_r.
Qed.

(** The digits read as the milliseconds. *)
Lemma dec3_value m :
  0 <= m < 1000 →
  ∃ a b c, dec3 m = [48 + a; 48 + b; 48 + c] ∧ 0 <= a <= 9 ∧ 0 <= b <= 9 ∧ 0 <= c <= 9 ∧
    a * 100 + b * 10 + c = m.
Proof.
  intros Hm. exists (m / 100), (m / 10 mod 10), (m mod 10). split; [done|].
  pose proof (Z.div_mod m 10). pose proof (Z.mod_pos_bound m 10).
  pose proof (Z.div_mod (m / 10) 10). pose proof (Z.mod_pos_bound (m / 10) 10).
  assert (m / 100 = m / 10 / 10) as -> by (by rewrite Z.div_div by lia). lia.
Qed.
End Log.

(** ** [stop_signal] *)

Module StopSignal.

(** The static [inst()] (the address of the counter the object refers to) and
    the counters. *)
Record state := State { inst : option nat; counters : gmap nat Z }.

Section signals.
Variable ndebug : bool.

(** The constructor; both signals get the same handler. *)
Definition stop_signal (stop_run : nat) (s : state) : res state :=
  require (ndebug || bool_decide (inst s = None)) AssertFail ≫= λ _,
  Ok (State (Some stop_run) (counters s)).

Definition signal_handler (s : state) : res state :=
  match inst s with
  | None => Fail NullDeref
  | Some p =>
      match counters s !! p with
      | None => Fail DanglingRef
      | Some n =>
          require (int_ok (n + 1)) SignedOverflow ≫= λ _,
          Ok (State (inst s) (<[p := n + 1]> (counters s)))
      end
  end.

Fixpoint signals (n : nat) (s : state) : res state :=
  match n with
  | O => Ok s
  | S n => s ← signal_handler s; signals n s
  end.

(** Every signal after the construction is counted in the caller's variable. *)
Lemma signals_counted p v n s :
  inst s = None → counters s !! p = Some v → 0 <= v → v + Z.of_nat n < 2 ^ 31 →
  ∃ s', (stop_signal p s ≫= signals n) = Ok s' ∧ counters s' !! p = Some (v + Z.of_nat n).
Proof.
  intros Hi Hv H0 Hn. unfold stop_signal. rewrite Hi, bool_decide_eq_true_2, orb_true_r by done.
  cbn [require mbind res_bind]. set (s1 := State _ _).
  assert (inst s1 = Some p) as Hi1 by done. assert (counters s1 !! p = Some v) as Hv1 by done.
  clearbody s1. clear s Hi Hv. revert v s1 Hi1 Hv1 H0 Hn.
  induction n as [|n IH]; intros v s Hi Hv H0 Hn.
  - exists s. split; [done|]. rewrite Hv. f_equal. lia.
  - cbn [signals]. unfold signal_handler. rewrite Hi, Hv.
    rewrite (proj2 (int_ok_spec (v + 1))) by lia. cbn [require mbind res_bind].
    destruct (IH (v + 1) (State (Some p) (<[p:=v + 1]> (counters s)))) as (s' & -> & E);
      [done|simpl; by rewrite lookup_insert_eq|lia|lia|].
    exists s'. split; [done|]. rewrite E. f_equal. lia.
Qed.
End signals.
End StopSignal.

(** ** Witnesses *)

Lemma pins_add_up_witness :
  let steady (i : nat) := Z.of_nat (Nat.min i 1000) * 1500 in
  let '(c', xs) := Zclock.pins steady us 4 (Zclock.new_zclock steady) in
  let elapsed := Zclock.m_start c' - Zclock.m_start (Zclock.new_zclock steady) in
  let total := foldr Z.add 0 xs in
  total * us <= elapsed <= total * us + Z.of_nat 4 * (us - 1) ∧ (us = 1 → total = elapsed).
Proof.
  intros steady. apply (Zclock.pins_add_up steady us 4 (Zclock.new_zclock steady)).
  - intros i j Hij. unfold steady. lia.
  - intros i. unfold steady. lia.
  - reflexivity.
  - exists 0%nat. split; [simpl; lia|reflexivity].
Defined.

(** ["E "], the year 2024 as time text, ["a/b.c"], line 7, message ["hi\n"]. *)
Lemma log_line_witness :
  Log.log_impl (λ _, [50; 48; 50; 52]) (replicate 4096 255) [69] [97; 47; 98; 46; 99] [55] 1700000000 [104; 105; 10] =
    Ok ([69; 32; 50; 48; 50; 52; 46; 55; 48; 48; 32; 98; 46; 99; 58; 55; 32; 104; 105; 10]).
Proof.
  apply (Log.log_line (λ _, [50; 48; 50; 52]) (replicate 4096 255) [69] [97; 47; 98; 46; 99]
    [98; 46; 99] [55] [104; 105; 10] 1700000000).
  - lia.
  - apply length_replicate.
  - reflexivity.
  - apply (bool_decide_unpack _). vm_compute. exact I.
  - apply (bool_decide_unpack _). vm_compute. exact I.
Defined.

Lemma log_long_line_overreads_witness :
  Log.log_impl (λ _, [50; 48; 50; 52]) (replicate 4096 255) [69] [97; 47; 98; 46; 99] [55] 1700000000
    (replicate 5000 120) = Fail OutOfBounds.
Proof.
  apply (Log.log_long_line_overreads (λ _, [50; 48; 50; 52]) (replicate 4096 255) [69]
    [97; 47; 98; 46; 99] [98; 46; 99] [55] (replicate 5000 120) 1700000000).
  - lia.
  - apply length_replicate.
  - reflexivity.
  - apply (bool_decide_unpack _). vm_compute. exact I.
  - apply (bool_decide_unpack _). vm_compute. exact I.
  - apply (bool_decide_unpack _). vm_compute. exact I.
Defined.
